(* ===== verification/_CoqProject ===== *)
-Q . S2P
Prelude.v
Utf8.v
RustStr.v
Chars.v
Kind.v
Diagnostics.v
JsNumber.v
ScanText.v
ScanState.v
ScanEscapes.v
ScanNumbers.v
Scan.v
Rescan.v
ScanLogic.v
ScanSafe.v
ScanTotal.v
ScanBlind.v
SkipTrivia.v
Spelling.v
ParserMessages.v
Ast.v
ParserState.v
ParserPredicates.v
ParserLists.v
JsSyntax.v
ParseTypes.v
ParseClasses.v
ParseExpressions.v
ParseJsx.v
ParseOperators.v
ParseStatements.v
Sorting.v
Parse.v
UnicodeTables.v
RegExp.v
RegExpLogic.v
RegExpSafe.v
RegExpTotal.v
RegExpLiteral.v
ScanAgain.v
ParserLogic.v
AskTotal.v
ListTotal.v
ParserStart.v
Decimal.v
Semver.v
LineIndex.v
PathMapping.v
UnixPath.v
Json.v
Probe.v
ModuleCandidates.v
ImportGraph.v
GraphReach.v
CompilerOptions.v
PackageExports.v
TsConfig.v
ConfigChain.v
PathComponents.v
Normalize.v
ConfigFiles.v
FilesFound.v
Rebase.v
RemovedOptions.v
LoadTsConfig.v
TypeModel.v
TypeDigest.v
Union.v
TypeStore.v
UnionSpec.v
UnionForm.v
UnionMeaning.v
Caches.v
Reservation.v
Session.v
SessionLaws.v
Commit.v
Simulation.v
SerialEquivalence.v
ReplayPool.v
