(* ===== verification/Prelude.v ===== *)
(** * surge-ts: a verification development

    surge-ts is a type checker for TypeScript written in Rust. Its crates are
    under [src/crates]; this development models the parts of them that are
    computations over their own data, and proves what makes those parts correct.

    ** The program's parts and how they interact

    - [surge-ts-tsc-syntax] scans and parses source text as the reference
      compiler does. The scanner is a state the parser moves token by token; for
      a regular expression literal it calls a validator, which reads the body
      through the same scanner. The parser asks for spelling suggestions.
    - [surge-ts-types] holds types, their equality and digests, the construction
      of unions, and the store in which unions are interned.
    - [surge-ts-checker] checks the files of a program. The checks share six
      caches of resolutions; in parallel they run in sessions over a snapshot,
      and a walk in serial order commits, replays or repeats them.
    - [surge-ts-config] loads a configuration: it merges the chain of configs the
      file extends, normalizes the options, walks the directories for the files
      the patterns include, reports removed options, selects path mappings and
      normalizes paths.
    - [surge-ts-diagnostics] turns offsets into lines and columns.
    - [surge-ts] loads a project: from its files it follows imports wave by wave,
      through candidate files, a memo of existence probes and the entry points of
      packages, whose npm versions are ordered and tested against ranges.

    ** Files

    This file holds what the others share: notations, [lit], the [result] of a
    computation that may panic or run out of rounds, the tactics, lemmas on
    lists, options and strings.

    - Text: [Utf8] ([&str] as UTF-8 bytes, characters and boundaries), [RustStr]
      ([str] methods), [Decimal] (orders, integer parsing and printing).
    - Scanner: [Chars] ([chars.rs]), [Kind] ([kind.rs]), [Diagnostics]
      ([lib.rs], [flags.rs], [messages.rs]), [JsNumber], [ScanText],
      [ScanState], [ScanEscapes], [ScanNumbers], [Scan], [Rescan]
      ([scanner.rs]). [ScanState.Scanner] is the [Scanner] with its
      [ScannerState]; a method is a computation in the state monad over it.
      [ScanLogic] is the program logic the totality of the methods is proved in,
      [ScanSafe] and [ScanTotal] are its use. [ScanAgain] says what
      holds of the scanner between the calls of the parser, [SkipTrivia] that
      skipping trivia answers, [ScanBlind] that no scan reads the errors before it.
    - Regular expressions: [UnicodeTables] and [RegExp] ([regexp.rs]);
      [RegExpLogic], [RegExpSafe], [RegExpTotal], [RegExpLiteral] prove the
      validator and the scan of a literal total.
    - Parser: [Spelling] ([parser/statements.rs]), [Ast] ([ast.rs]) with
      [ParserMessages] ([messages.rs]); [ParserState], [ParserPredicates],
      [ParserLists], [JsSyntax] ([parser/mod.rs]), [ParseTypes] ([parser/types.rs]),
      [ParseClasses], [ParseStatements] ([parser/statements.rs]),
      [ParseExpressions], [ParseJsx], [ParseOperators] ([parser/expressions.rs]),
      [Parse] ([parser/mod.rs], [lib.rs]). [ParserState.Parser] is the [Parser] with
      its scanner and its arena of nodes; a method is a computation in the state
      monad [ParserState.P]. A production that is called back before its definition
      is a field of the class [ParserState.Productions]; [Parse.productions] ties the
      knot, a level for each nesting of calls back. [ParserLogic] is the program
      logic of the monad (total correctness over the states the parser is good
      in), [AskTotal] its use on the predicates and the lookahead, [ListTotal] on
      tokens, identifiers and the list loops, [ParserStart] on the first token.
    - [LineIndex] ([line_index.rs]),
      [Semver] ([semver.rs]), [PathMapping] ([mapping.rs], [paths.rs]).
    - Loading files: [UnixPath] and [PathComponents] ([std::path] on Unix), [Json]
      ([serde_json::Value]), [Probe] ([probe.rs], [host_fs.rs]), [ModuleCandidates]
      ([candidates.rs], [specifier.rs]), [ImportGraph] ([import_graph.rs]) with
      [GraphReach], [PackageExports] ([package_resolution.rs]).
    - Configurations: [TsConfig] ([extends.rs], [parse.rs]) with [ConfigChain],
      [CompilerOptions] ([model.rs], [options.rs]), [Normalize] ([normalize.rs]),
      [Sorting] ([slice::sort], [dedup]), [ConfigFiles] ([files.rs]) with
      [FilesFound] and [Rebase], [RemovedOptions] ([removed_options.rs]),
      [LoadTsConfig] ([parse.rs], [paths.rs]).
    - Types: [TypeModel] ([ty.rs], [function.rs], [object.rs], [reference.rs]),
      [TypeDigest] ([fx.rs], [union.rs]), [Union] ([union.rs]) with [UnionSpec],
      [UnionForm] and [UnionMeaning], [TypeStore] ([store.rs]).
    - Speculative checking: [Caches], [Reservation], [Session], [Commit]
      ([speculative/], [program/check_files.rs]), [ReplayPool] ([replay.rs]),
      with [SessionLaws], [Simulation] and [SerialEquivalence].

    ** What the theorems show

    - Totality ([ScanTotal], [RegExpLiteral]). Every scanner loop and recursion
      takes a number of rounds; the theorems give the number that is enough, so
      the code returns, and show that no slice leaves a character boundary and
      no index its array. The number is the bytes left plus a constant for the
      loops of the scanner; for the validator the nesting of a pattern is at most
      its length, and each level reads on. Scanning a text takes at most one token
      per byte, and the tokens tile the text. The one panic there is
      ([is_conflict_marker_trivia] slicing inside a character) is stated with its
      exact condition.
    - Totality of the parser below its productions ([AskTotal], [ListTotal],
      [ParserStart]), for a TypeScript text without JSX: every predicate and
      lookahead answers and leaves the parser as it was; every list loop ends and
      answers nodes of the arena, for every element method that answers: a round
      that reads no element skips a token or ends the list. The productions above
      them (types, classes, expressions, statements) are modelled; that they end
      is not proved.
    - Meaning of the algorithms: the path mapping selected, the place a
      normalized path names, the versions a range accepts, the lines and columns
      of the index against the naive scan, the spelling suggestion.
    - Loading. The expansion of the import graph ends and loads the
      readable files reached from the sources, each key once, and all of them
      where no two have one key: a wave takes fuel linear in the number of readable files. A chain of configs ends because
      the keys of the configs being loaded are distinct: one round more than the
      number of readable configs is enough; the loaded options are read, key by
      key, off the nearest configs that write them. The files found are exactly
      the selected ones, whatever directories are not entered, and includes that
      climb are rewritten to the places they name. These theorems let a panic
      through where they say [ends]: that of [PathMapping.normalize_panic].
    - Types: equality is an equivalence on well-formed types, equal types have
      equal digests, the hashed deduplication and the member index agree with the
      linear scan, a union is in canonical form and denotes the union of its
      members, interning answers only what was asked for. Unions are built
      against an interface ([Union.UnionStoreLaws]) that the store discharges for
      the types its comparison tells apart ([TypeStore.comparable]); what it
      confuses is [TypeStore.number_index_confused].
    - Speculative checking: for every check that talks to the caches as
      [Session.disciplined] says, every assignment of files to workers and every
      moment at which a replay reads the live maps, the parallel pass leaves the
      results and caches of the serial pass, unless a bucket met its cap (and
      then it need not: [SerialEquivalence.cap_divergence]). Every run of the
      replay pipeline, in any interleaving, ends with all positions committed in
      order.

    ** Parameters

    Code that is not under [src] is an argument: the identifier tables of the
    crate [unicode_id_start], the case mappings of the standard library, the
    addresses of allocations and what the resolver closure of a reference says
    ([TypeStore.Heap]); the file system, the process's and a host's
    ([Probe.HostFs], with the laws of one that does not change under the load);
    the parsers of the crates [serde_json] and [jsonc_parser]; the globs of the
    crate [globset] ([ConfigFiles.GlobLib]) and the directory walk of [walkdir]
    ([ConfigFiles.WalkDir]); the specifiers the parse of a file finds; the version
    of the bundled declarations. The check of one file is any tree of cache calls
    ([Session.Check]); the digests of cache keys are given by the types of the
    keys ([Caches.InterfaceKeys]). A theorem with a hypothesis on such a
    parameter has a witness in which it is a concrete function.

    ** Not modelled

    The binder of [surge-ts-tsc-syntax] and what reads its symbols, the parser of
    [surge-ts-parser] (a fork of a third-party project) and the lowering of its
    tree in [surge-ts-syntax]; assignability, inference and the statement and
    expression checks of the checker, which are over that tree; the declarations
    of installed packages and the compiler API; generated tables of diagnostics;
    the command line and the bindings. Within a modelled part: the JSDoc methods
    of the scanner, the depth of the machine's stack, the memo of canonical paths, Windows paths, the counters kept for statistics, the
    interning of functions and property maps, and the memos whose only effect is
    time. *)

From stdpp Require Export base tactics list option numbers strings.
From Stdlib Require Export ZArith Lia Bool ZifyBool ZifyNat.

#[global] Set Default Goal Selector "!".
#[export] Set Warnings "-clear-no-such-hyp".

(** ** Notations *)

Declare Scope surge_scope.
Delimit Scope surge_scope with surge.
Open Scope surge_scope.

(** A character literal: the string notation of the scope [rune] reads a one
    byte string as its code, so [ch =r "="] is the source's
    [ch == '=' as i32]. *)
Declare Scope rune_scope.
Delimit Scope rune_scope with rune.

Definition parse_rune (l : list Init.Byte.byte) : option Z :=
  match l with [b] => Some (Z.of_N (Strings.Byte.to_N b)) | _ => None end.
Definition print_rune (_ : Z) : option (list Init.Byte.byte) := None.
String Notation Z parse_rune print_rune : rune_scope.

Notation "x =r y" := (Z.eqb x%Z y%rune) (at level 70, no associativity) : surge_scope.
Notation "x ≠r y" := (negb (Z.eqb x%Z y%rune)) (at level 70, no associativity) : surge_scope.

(** Inclusive ranges of bytes and code points, [(lo..=hi).contains(&x)]. *)
Abbreviation between lo hi x := ((lo <=? x)%Z && (x <=? hi)%Z).

(** ** Rust values

    A [&str] or [String] is the list of its UTF-8 bytes, each a [Z] in
    [0, 256); an [i32] or [u32] is a [Z]; a [usize] position is a [nat]. *)
Abbreviation str := (list Z).

Fixpoint lit (s : String.string) : str :=
  match s with
  | String.EmptyString => []
  | String.String a s => Z.of_N (Ascii.N_of_ascii a) :: lit s
  end.
Arguments lit _%_string.

(** Byte strings compare by [=] on the lists. *)
#[export] Instance str_eq_dec : EqDecision str := _.
Definition str_eqb (a b : str) : bool := bool_decide (a = b).
Notation "a =s b" := (str_eqb a b) (at level 70, no associativity) : surge_scope.

Lemma str_eqb_spec (a b : str) : (a =s b) = true <-> a = b.
Proof. unfold str_eqb. apply bool_decide_eq_true. Qed.

Lemma str_eqb_refl (a : str) : (a =s a) = true.
Proof. by apply str_eqb_spec. Qed.

(** ** Automation *)

Create HintDb surge.

(** Case split on the innermost condition of a [match] of the goal. *)
Ltac case_split :=
  match goal with
  | |- context [if ?b then _ else _] => destruct b eqn:?
  | |- context [match ?x with _ => _ end] => destruct x eqn:?
  end.

Ltac case_split_in H :=
  match type of H with
  | context [if ?b then _ else _] => destruct b eqn:?
  | context [match ?x with _ => _ end] => destruct x eqn:?
  end.

(** The same for the boolean conditions only, simplifying on the way. *)
Ltac if_split :=
  repeat (simpl; match goal with
  | |- context [if ?b then _ else _] =>
      lazymatch b with context [if _ then _ else _] => fail | _ => destruct b eqn:? end
  end); simpl.

(** [lia] with division and modulo by constants. *)
Ltac zlia := Z.div_mod_to_equations; lia.

(** Boolean hypotheses as propositions, for [lia]. *)
Ltac bools :=
  repeat match goal with
  | H : negb _ = true |- _ => apply negb_true_iff in H
  | H : negb _ = false |- _ => apply negb_false_iff in H
  | H : _ && _ = true |- _ => apply andb_true_iff in H as [? ?]
  | H : _ || _ = false |- _ => apply orb_false_iff in H as [? ?]
  end.

(** ** Lists *)

Section lists.
Context {A : Type}.
Implicit Types l : list A.

(** [l[a..b]] of a slice: [None] is the index panic. *)
Definition slice_range l (a b : nat) : option (list A) :=
  if (a <=? b) && (b <=? length l) then Some (take (b - a) (drop a l)) else None.

Lemma forallb_Forall (f : A -> bool) l : forallb f l = true <-> Forall (fun x => f x = true) l.
Proof. by rewrite forallb_forall, List.Forall_forall. Qed.

Lemma drop_S_lookup l i x : l !! i = Some x -> drop i l = x :: drop (S i) l.
Proof. apply drop_S. Qed.

Lemma lookup_take_lt l n i : i < n -> take n l !! i = l !! i.
Proof. apply lookup_take_lt. Qed.

Lemma take_add_drop l a b : take (a + b) l = take a l ++ take b (drop a l).
Proof.
  revert l; induction a as [|a IH]; intros [|x l]; simpl; try done.
  - by rewrite take_nil.
  - by rewrite IH.
Qed.
End lists.

(** ** Results

    A computation answers, panics (an index or slice out of range), or runs out
    of the fuel of a loop; a theorem that it is [Ok] says that it neither
    panics nor diverges. *)
Inductive result (A : Type) : Type :=
| Ok (a : A)
| Panic
| OutOfFuel.
Arguments Ok {A} _.
Arguments Panic {A}.
Arguments OutOfFuel {A}.

#[export] Instance result_ret : MRet result := @Ok.
#[export] Instance result_bind : MBind result := fun A B f r =>
  match r with Ok a => f a | Panic => Panic | OutOfFuel => OutOfFuel end.

(** The panic of [unwrap] or of an index. *)
Definition unwrap {A} (o : option A) : result A := match o with Some a => Ok a | None => Panic end.

(** [returns r Q]: [r] answers, with a value satisfying [Q]. *)
Definition returns {A} (r : result A) (Q : A -> Prop) : Prop :=
  match r with Ok a => Q a | _ => False end.

Section returns.
Context {A B : Type}.

Lemma returns_iff (r : result A) Q : returns r Q <-> exists a, r = Ok a /\ Q a.
Proof.
  destruct r as [a| |]; simpl; (split; [intros ?; try done; by eauto|]).
  all: intros (? & ? & ?); by simplify_eq.
Qed.

Lemma returns_mono (r : result A) (P Q : A -> Prop) :
  returns r P -> (forall a, P a -> Q a) -> returns r Q.
Proof. destruct r; simpl; auto. Qed.

Lemma returns_bind (r : result A) (f : A -> result B) Q :
  returns r (fun a => returns (f a) Q) -> returns (r ≫= f) Q.
Proof. destruct r; simpl; auto. Qed.

Lemma returns_unwrap (o : option A) a Q : o = Some a -> Q a -> returns (unwrap o) Q.
Proof. by intros ->. Qed.
End returns.

(** ** Iteration

    A [loop] whose body reads and writes local variables: the body answers
    [inl] with the variables of the next round or [inr] with the value the
    loop breaks with. *)
Section iter.
Context {L A : Type}.

Fixpoint iterate (fuel : nat) (body : L -> result (L + A)) (l : L) : result A :=
  match fuel with
  | O => OutOfFuel
  | S fuel =>
      match body l with
      | Ok (inl l) => iterate fuel body l
      | Ok (inr a) => Ok a
      | Panic => Panic
      | OutOfFuel => OutOfFuel
      end
  end.

(** Total correctness of [iterate]: an invariant and a measure below the
    fuel that every further round decreases. *)
Lemma iterate_returns (I : L -> Prop) (m : L -> nat) (Q : A -> Prop) body :
  (forall l, I l ->
     returns (body l) (fun r =>
       match r with inl l' => I l' /\ m l' < m l | inr a => Q a end)) ->
  forall fuel l, I l -> m l < fuel -> returns (iterate fuel body l) Q.
Proof.
  intros Hbody fuel. induction fuel as [|fuel IH]; intros l HI Hm; [lia|].
  simpl. specialize (Hbody l HI).
  destruct (body l) as [[l'|a]| |]; simpl in *; [|done..].
  destruct Hbody as [HI' Hlt]. apply IH; [done|lia].
Qed.
End iter.

(** [ends r Q]: [r] terminates, and unless it panics its value satisfies [Q]. *)
Definition ends {A} (r : result A) (Q : A -> Prop) : Prop :=
  match r with Ok a => Q a | Panic => True | OutOfFuel => False end.

Section ends.
Context {A B : Type}.

Lemma ends_mono (r : result A) (P Q : A -> Prop) : ends r P -> (forall a, P a -> Q a) -> ends r Q.
Proof. destruct r; simpl; auto. Qed.

Lemma ends_bind (r : result A) (f : A -> result B) Q : ends r (fun a => ends (f a) Q) -> ends (r ≫= f) Q.
Proof. destruct r; simpl; auto. Qed.

Lemma returns_ends (r : result A) Q : returns r Q -> ends r Q.
Proof. by destruct r. Qed.

Lemma ends_eq (r : result A) Q : ends r Q -> ends r (fun a => r = Ok a /\ Q a).
Proof. by destruct r. Qed.

(** Termination of [iterate], up to panics. *)
Lemma iterate_ends {L} (I : L -> Prop) (m : L -> nat) (Q : A -> Prop) body :
  (forall l, I l -> ends (body l) (fun r => match r with inl l' => I l' /\ m l' < m l | inr a => Q a end)) ->
  forall fuel l, I l -> m l < fuel -> ends (iterate fuel body l) Q.
Proof.
  intros Hbody fuel. induction fuel as [|fuel IH]; intros l HI Hm; [lia|].
  simpl. specialize (Hbody l HI). destruct (body l) as [[l'|a]| |]; simpl in *; [|done..].
  destruct Hbody. apply IH; [done|lia].
Qed.
End ends.

(** ** Machine integers *)

Definition u32_max : Z := 4294967295.
Definition wrap_u32 (x : Z) : Z := x mod 4294967296.

Lemma wrap_u32_small x : (0 <= x <= u32_max)%Z -> wrap_u32 x = x.
Proof. unfold wrap_u32, u32_max. intros. apply Z.mod_small. lia. Qed.

(** [from_str_radix] over text the caller knows to hold digits only: [None]
    is the [Err] of an empty, malformed or overflowing text. *)
Definition digit_value (b : Z) : option Z :=
  if between 48 57 b then Some (b - 48)%Z
  else if between 97 122 b then Some (b - 87)%Z
  else if between 65 90 b then Some (b - 55)%Z
  else None.

Fixpoint parse_digits (radix max acc : Z) (s : str) : option Z :=
  match s with
  | [] => Some acc
  | b :: s =>
      match digit_value b with
      | Some d =>
          if (d <? radix)%Z then
            let acc := (acc * radix + d)%Z in
            if (acc <=? max)%Z then parse_digits radix max acc s else None
          else None
      | None => None
      end
  end.

(** The integer parser of the standard library for an unsigned type with
    maximum [max]: one leading [+] is accepted. *)
Definition from_str_radix (radix max : Z) (s : str) : option Z :=
  match s with
  | [] => None
  | b :: t =>
      if b =r "+" then match t with [] => None | _ => parse_digits radix max 0 t end
      else parse_digits radix max 0 s
  end.

(** Decimal and other renderings of a non-negative integer, [value.to_string()]
    and the [{:o}] and [{:x}] formats. *)
Definition digit_char (d : Z) : Z := if (d <? 10)%Z then (48 + d)%Z else (87 + d)%Z.

Fixpoint render_digits (fuel : nat) (radix n : Z) (acc : str) : str :=
  match fuel with
  | O => acc
  | S fuel =>
      let acc := digit_char (n mod radix) :: acc in
      if (n / radix =? 0)%Z then acc else render_digits fuel radix (n / radix) acc
  end.

(** Enough fuel: a number has no more digits than bits. *)
Definition render (radix n : Z) : str :=
  render_digits (S (Z.to_nat (Z.log2 n))) radix n [].
