(* ===== verification/Utf8.v ===== *)
(** * UTF-8 text as the standard library of Rust presents it

    A [&str] is a byte list that encodes a list of scalar values ([utf8]);
    [chars], character boundaries and slicing are defined on the bytes the way
    the standard library documents them, with [None] for the panics. *)

From S2P Require Import Prelude.

Local Open Scope Z_scope.

Definition scalar (c : Z) : bool := between 0 0x10FFFF c && negb (between 0xD800 0xDFFF c).

(** [char::encode_utf8]. *)
Definition encode (c : Z) : str :=
  if c <? 0x80 then [c]
  else if c <? 0x800 then [0xC0 + c / 64; 0x80 + c mod 64]
  else if c <? 0x10000 then [0xE0 + c / 4096; 0x80 + (c / 64) mod 64; 0x80 + c mod 64]
  else [0xF0 + c / 262144; 0x80 + (c / 4096) mod 64; 0x80 + (c / 64) mod 64; 0x80 + c mod 64].

Definition encode_all (cs : list Z) : str := mbind encode cs.

(** The invariant of [&str]. *)
Definition utf8 (s : str) : Prop := exists cs, Forall (fun c => scalar c = true) cs /\ s = encode_all cs.

Definition cont (b : Z) : bool := between 0x80 0xBF b.

(** The first scalar value of a byte sequence and its width; [None] where the
    bytes do not start with a well-formed sequence. *)
Definition decode_first (s : str) : option (Z * nat) :=
  match s with
  | [] => None
  | b0 :: r =>
      if between 0 0x7F b0 then Some (b0, 1%nat)
      else if between 0xC2 0xDF b0 then
        match r with
        | b1 :: _ => if cont b1 then Some ((b0 - 0xC0) * 64 + (b1 - 0x80), 2%nat) else None
        | _ => None
        end
      else if between 0xE0 0xEF b0 then
        match r with
        | b1 :: b2 :: _ =>
            if between (if b0 =? 0xE0 then 0xA0 else 0x80) (if b0 =? 0xED then 0x9F else 0xBF) b1 && cont b2
            then Some ((b0 - 0xE0) * 4096 + (b1 - 0x80) * 64 + (b2 - 0x80), 3%nat) else None
        | _ => None
        end
      else if between 0xF0 0xF4 b0 then
        match r with
        | b1 :: b2 :: b3 :: _ =>
            if between (if b0 =? 0xF0 then 0x90 else 0x80) (if b0 =? 0xF4 then 0x8F else 0xBF) b1 && cont b2 && cont b3
            then Some ((b0 - 0xF0) * 262144 + (b1 - 0x80) * 4096 + (b2 - 0x80) * 64 + (b3 - 0x80), 4%nat)
            else None
        | _ => None
        end
      else None
  end.

(** [std::str::from_utf8]: the characters of a byte sequence, [None] when it is
    not UTF-8. *)
Fixpoint from_utf8_fuel (fuel : nat) (s : str) : option (list Z) :=
  match s with
  | [] => Some []
  | _ =>
      match fuel with
      | O => None
      | S fuel =>
          '(c, n) ← decode_first s;
          cs ← from_utf8_fuel fuel (drop n s);
          Some (c :: cs)
      end
  end.
Definition from_utf8 (s : str) : option (list Z) := from_utf8_fuel (length s) s.

(** [s.chars()] of a valid string. *)
Definition chars (s : str) : list Z := default [] (from_utf8 s).

(** [str::is_char_boundary]. *)
Definition is_char_boundary (s : str) (i : nat) : bool :=
  if (i =? length s)%nat then true
  else match s !! i with Some b => negb (cont b) | None => false end.

(** [&s[a..b]] and [&s[a..]]. *)
Definition slice (s : str) (a b : nat) : option str :=
  if (a <=? b)%nat && is_char_boundary s a && is_char_boundary s b
  then Some (take (b - a) (drop a s)) else None.
Definition slice_from (s : str) (a : nat) : option str :=
  if is_char_boundary s a then Some (drop a s) else None.

(** ** Encoding and decoding *)

Ltac unfold_utf8 := unfold encode, decode_first, scalar, cont in *.

Lemma decode_first_encode c r :
  scalar c = true -> decode_first (encode c ++ r) = Some (c, length (encode c)).
Proof.
  intros Hs. unfold_utf8. bools.
  if_split; try (exfalso; zlia); do 2 f_equal; zlia.
Qed.

Lemma encode_length c : (1 <= length (encode c) <= 4)%nat.
Proof. unfold encode. if_split; lia. Qed.

Lemma encode_bytes c : scalar c = true -> Forall (fun b => 0 <= b < 256) (encode c).
Proof.
  intros Hs. unfold_utf8. bools.
  if_split; repeat constructor; zlia.
Qed.

Lemma encode_first c : scalar c = true -> exists b t, encode c = b :: t /\ cont b = false /\
  (b < 0x80 -> c = b /\ t = []) /\ (0x80 <= b -> 0x80 <= c).
Proof.
  intros Hs. unfold_utf8. bools.
  if_split; eexists _, _; (split; [reflexivity|]); repeat split; intros; try done; zlia.
Qed.

Lemma encode_tail_cont c b t : scalar c = true -> encode c = b :: t -> Forall (fun x => cont x = true) t.
Proof.
  intros Hs. unfold_utf8. bools.
  if_split; intros He; simplify_eq; repeat constructor; zlia.
Qed.

(** ** The structure of valid text *)

Lemma utf8_nil : utf8 [].
Proof. by exists []. Qed.

Lemma utf8_cons c s : scalar c = true -> utf8 s -> utf8 (encode c ++ s).
Proof. intros Hc (cs & Hcs & ->). exists (c :: cs). split; [by constructor|done]. Qed.

Lemma utf8_app a b : utf8 a -> utf8 b -> utf8 (a ++ b).
Proof.
  intros (ca & Ha & ->) (cb & Hb & ->). exists (ca ++ cb). split; [by apply Forall_app|].
  unfold encode_all. by rewrite bind_app.
Qed.

Lemma utf8_ind_cases s : utf8 s -> s = [] \/ exists c t, scalar c = true /\ utf8 t /\ s = encode c ++ t.
Proof.
  intros ([|c cs] & Hcs & ->); [by left|]. right. inv Hcs. exists c, (encode_all cs).
  split_and!; [done| |done]. by exists cs.
Qed.

Lemma utf8_bytes s : utf8 s -> Forall (fun b => 0 <= b < 256) s.
Proof.
  intros (cs & Hcs & ->). induction Hcs as [|c cs Hc _ IH]; [constructor|].
  simpl. apply Forall_app; split; [by apply encode_bytes|done].
Qed.

Lemma utf8_ascii s : Forall (fun b => 0 <= b < 0x80) s -> utf8 s.
Proof.
  induction 1 as [|b s Hb _ IH]; [apply utf8_nil|].
  assert (Hs : scalar b = true) by (unfold scalar; lia).
  pose proof (utf8_cons b s Hs IH) as H. unfold encode in H.
  by replace (b <? 0x80) with true in H by lia.
Qed.

(** A check by computation for the witnesses. *)
Definition asciib (s : str) : bool := forallb (fun b => between 0 127 b) s.
Lemma asciib_utf8 s : asciib s = true -> utf8 s.
Proof.
  intros H. apply utf8_ascii. apply Forall_forall. intros b Hb.
  unfold asciib in H. rewrite forallb_forall in H.
  specialize (H b ltac:(by apply list_elem_of_In)). lia.
Qed.

(** ** Character boundaries *)

Lemma boundary_le s i : is_char_boundary s i = true -> (i <= length s)%nat.
Proof.
  unfold is_char_boundary. case_split; [intros _; lia|]. destruct (s !! i) eqn:E; [|done].
  intros _. apply lookup_lt_Some in E. lia.
Qed.

Lemma boundary_len s : is_char_boundary s (length s) = true.
Proof. unfold is_char_boundary. by rewrite Nat.eqb_refl. Qed.

Lemma boundary_ascii s i b : s !! i = Some b -> b < 0x80 -> is_char_boundary s i = true.
Proof.
  intros Hb Hlt. unfold is_char_boundary. case_split; [done|]. rewrite Hb. unfold cont. lia.
Qed.

Lemma boundary_app a b i :
  (length a <= i)%nat -> is_char_boundary (a ++ b) i = is_char_boundary b (i - length a).
Proof.
  intros Hi. unfold is_char_boundary. rewrite length_app, lookup_app_r by done.
  replace (i =? length a + length b)%nat with (i - length a =? length b)%nat; [done|].
  apply eq_true_iff_eq. rewrite !Nat.eqb_eq. lia.
Qed.

Lemma boundary_drop s i : utf8 (drop i s) -> (i <= length s)%nat -> is_char_boundary s i = true.
Proof.
  intros Hu Hi. unfold is_char_boundary. case_split; [done|].
  destruct (utf8_ind_cases _ Hu) as [He|(c & t & Hc & _ & He)].
  - apply (f_equal length) in He. rewrite length_drop in He. simpl in He. lia.
  - destruct (encode_first c Hc) as (b & r & E & Hb & _). rewrite E in He.
    rewrite <- (take_drop i s), He, lookup_app_r by (rewrite length_take; lia).
    rewrite length_take, Nat.min_l, Nat.sub_diag by lia. simpl. by rewrite Hb.
Qed.

(** A boundary splits valid text into valid halves. *)
Lemma utf8_split s i : utf8 s -> is_char_boundary s i = true -> utf8 (take i s) /\ utf8 (drop i s).
Proof.
  intros (cs & Hcs & ->). revert i. induction Hcs as [|c cs Hc Hcs IH]; intros i Hi.
  - apply boundary_le in Hi. simpl in *. destruct i; [|lia]. split; apply utf8_nil.
  - simpl in *. destruct (decide (length (encode c) <= i)%nat) as [Hle|Hlt].
    + rewrite boundary_app in Hi by done. destruct (IH _ Hi) as [Ht Hd].
      rewrite take_app_ge, drop_app_ge by done. split; [|done]. by apply utf8_cons.
    + destruct i as [|i].
      { split; [apply utf8_nil|]. apply utf8_cons; [done|]. by exists cs. }
      exfalso. destruct (encode_first c Hc) as (b & t & E & _ & _).
      pose proof (encode_tail_cont c b t Hc E) as Ht. rewrite E in Hi, Hlt. simpl in Hlt.
      unfold is_char_boundary in Hi. rewrite length_app in Hi. simpl in Hi.
      case_split_in Hi; [lia|]. rewrite lookup_app_l in Hi by lia.
      destruct (lookup_lt_is_Some_2 t i ltac:(lia)) as [x Hx]. rewrite Hx in Hi.
      rewrite (Forall_lookup_1 _ _ _ _ Ht Hx) in Hi. done.
Qed.

Lemma boundary_inside c s i :
  scalar c = true -> (0 < i < length (encode c))%nat -> is_char_boundary (encode c ++ s) i = false.
Proof.
  intros Hc Hi. destruct (encode_first c Hc) as (b & t & E & _ & _).
  pose proof (encode_tail_cont c b t Hc E) as Ht. rewrite E in *. destruct i as [|i]; [lia|]. simpl in *.
  unfold is_char_boundary. simpl. rewrite length_app.
  replace (i =? length t + length s)%nat with false by lia. rewrite lookup_app_l by lia.
  destruct (lookup_lt_is_Some_2 t i ltac:(lia)) as [x Hx]. rewrite Hx.
  by rewrite (Forall_lookup_1 _ _ _ _ Ht Hx).
Qed.

(** What [chars().next()] reads at a boundary inside the text. *)
Lemma decode_at s i : utf8 s -> is_char_boundary s i = true -> (i < length s)%nat ->
  exists c b, scalar c = true /\ s !! i = Some b /\
    decode_first (drop i s) = Some (c, length (encode c)) /\
    take (length (encode c)) (drop i s) = encode c /\
    (i + length (encode c) <= length s)%nat /\
    is_char_boundary s (i + length (encode c)) = true /\
    (b < 0x80 -> c = b /\ length (encode c) = 1%nat) /\ (0x80 <= b -> 0x80 <= c).
Proof.
  intros Hu Hi Hlt. destruct (utf8_split s i Hu Hi) as [_ Hd].
  destruct (utf8_ind_cases _ Hd) as [He|(c & t & Hc & Ht & He)].
  { apply (f_equal length) in He. rewrite length_drop in He. simpl in He. lia. }
  destruct (encode_first c Hc) as (b & r & E & Hb & H1 & H2).
  assert (Hlen : (i + length (encode c) <= length s)%nat).
  { apply (f_equal length) in He. rewrite length_drop, length_app in He. lia. }
  exists c, b. split_and!; try done.
  - replace i with (i + 0)%nat by lia. rewrite <- lookup_drop, He, E. done.
  - rewrite He. by apply decode_first_encode.
  - rewrite He. by rewrite take_app_length.
  - apply boundary_drop; [|done]. rewrite <- drop_drop, He, drop_app_length. done.
  - intros Hlt'. destruct (H1 Hlt') as [-> ->]. split; [done|]. by rewrite E.
Qed.

Lemma boundary_ascii_next s i b :
  utf8 s -> s !! i = Some b -> b < 0x80 -> is_char_boundary s (S i) = true.
Proof.
  intros Hu Hb Hlt. pose proof (boundary_ascii s i b Hb Hlt) as Hi.
  pose proof (lookup_lt_Some _ _ _ Hb) as Hl.
  destruct (decode_at s i Hu Hi Hl) as (c & b' & _ & Hb' & _ & _ & _ & Hn & H1 & _).
  simplify_eq. destruct (H1 Hlt) as [_ E]. rewrite E in Hn. by replace (S i) with (i + 1)%nat by lia.
Qed.

Lemma slice_ok s a b : utf8 s -> (a <= b)%nat ->
  is_char_boundary s a = true -> is_char_boundary s b = true ->
  slice s a b = Some (take (b - a) (drop a s)) /\ utf8 (take (b - a) (drop a s)).
Proof.
  intros Hu Hab Ha Hb. unfold slice. rewrite Ha, Hb.
  replace (a <=? b)%nat with true by lia. split; [done|].
  rewrite take_drop_commute. replace (a + (b - a))%nat with b by lia.
  destruct (utf8_split s b Hu Hb) as [Ht _].
  apply (utf8_split (take b s) a Ht). pose proof (boundary_le _ _ Hb) as Hlb.
  unfold is_char_boundary in *. rewrite length_take, Nat.min_l by done.
  destruct (a =? b)%nat eqn:E; [done|]. rewrite lookup_take_lt by lia.
  destruct (a =? length s)%nat eqn:E'; [lia|done].
Qed.

(** ** Decoding a whole text *)

Lemma from_utf8_encode_all cs : Forall (fun c => scalar c = true) cs -> from_utf8 (encode_all cs) = Some cs.
Proof.
  intros Hcs. unfold from_utf8.
  assert (H : forall fuel, (length (encode_all cs) <= fuel)%nat ->
            from_utf8_fuel fuel (encode_all cs) = Some cs); [|by apply H].
  induction Hcs as [|c cs Hc _ IH]; intros fuel Hf; [by destruct fuel|].
  simpl in *. rewrite length_app in Hf. pose proof (encode_length c).
  destruct (encode_first c Hc) as (b & t & E & _ & _).
  destruct fuel as [|fuel]; [lia|].
  assert (Hne : exists x y, encode c ++ encode_all cs = x :: y) by (rewrite E; simpl; eauto).
  destruct Hne as (x & y & Hxy). simpl. rewrite Hxy. rewrite <- Hxy.
  rewrite decode_first_encode by done. simpl. rewrite drop_app_length, IH by lia. done.
Qed.

Lemma chars_encode_all cs : Forall (fun c => scalar c = true) cs -> chars (encode_all cs) = cs.
Proof. intros H. unfold chars. by rewrite from_utf8_encode_all. Qed.

(** What remains of valid text after a valid prefix is valid. *)
Lemma utf8_encode_inv c s : scalar c = true -> utf8 (encode c ++ s) -> utf8 s.
Proof.
  intros Hc Hu. destruct (utf8_ind_cases _ Hu) as [He|(c' & t & Hc' & Ht & He)].
  - apply (f_equal length) in He. rewrite length_app in He. pose proof (encode_length c). simpl in He. lia.
  - pose proof (decode_first_encode c s Hc) as H1. rewrite He, decode_first_encode in H1 by done.
    injection H1 as -> _. by apply app_inv_head in He as ->.
Qed.

Lemma utf8_app_inv a b : utf8 a -> utf8 (a ++ b) -> utf8 b.
Proof.
  intros (cs & Hcs & ->). induction Hcs as [|c cs Hc _ IH]; [done|].
  simpl. rewrite <- app_assoc. intros H. by apply utf8_encode_inv in H; [apply IH|].
Qed.

#[export] Hint Resolve utf8_nil utf8_app boundary_len : surge.
