(* ===== verification/RustStr.v ===== *)
(** * String methods of the standard library of Rust

    The [str] methods the modelled code calls, as functions of byte lists: the
    patterns are one ASCII byte or a byte string, so matching bytes is matching
    characters. *)

From S2P Require Import Prelude Utf8.

Local Open Scope Z_scope.

(** ** Searching *)

Fixpoint starts_with (p s : str) : bool :=
  match p, s with
  | [], _ => true
  | a :: p, b :: s => (a =? b) && starts_with p s
  | _ :: _, [] => false
  end.

Definition ends_with (p s : str) : bool := starts_with (rev p) (rev s).

Definition contains_byte (b : Z) (s : str) : bool := existsb (Z.eqb b) s.

(** [s.find(b)] and [bytes().position(..)]. *)
Fixpoint position (f : Z -> bool) (s : str) : option nat :=
  match s with
  | [] => None
  | x :: s => if f x then Some 0%nat else option_map S (position f s)
  end.
Definition find_byte (b : Z) (s : str) : option nat := position (Z.eqb b) s.

(** [s.matches(b).count()]. *)
Definition count_byte (b : Z) (s : str) : nat := length (filter (fun x => x = b) s).

Fixpoint contains (p s : str) : bool :=
  starts_with p s || match s with [] => false | _ :: s => contains p s end.

(** [s.strip_prefix(p)]. *)
Definition strip_prefix (p s : str) : option str :=
  if starts_with p s then Some (drop (length p) s) else None.

(** ** Splitting and joining *)

(** [s.split(b)]: never empty. *)
Fixpoint split_byte (b : Z) (s : str) : list str :=
  match s with
  | [] => [[]]
  | x :: s =>
      if x =? b then [] :: split_byte b s
      else match split_byte b s with
           | [] => [[x]]
           | w :: ws => (x :: w) :: ws
           end
  end.

Definition split_once (b : Z) (s : str) : option (str * str) :=
  match find_byte b s with
  | Some i => Some (take i s, drop (S i) s)
  | None => None
  end.

(** [s.rsplit_once(b)] and [s.rsplit(b).next()]. *)
Fixpoint rsplit_once (b : Z) (s : str) : option (str * str) :=
  match s with
  | [] => None
  | x :: t =>
      match rsplit_once b t with
      | Some (head, tail) => Some (x :: head, tail)
      | None => if x =? b then Some ([], t) else None
      end
  end.
Definition last_part (b : Z) (s : str) : str := match rsplit_once b s with Some (_, tail) => tail | None => s end.

(** [s.strip_suffix(p)]. *)
Definition strip_suffix (p s : str) : option str :=
  if ends_with p s then Some (take (length s - length p) s) else None.

(** [s.split(p)] for a byte string [p] of length [S n]; [skip] counts the bytes
    of a match still to be dropped. *)
Fixpoint split_str_go (p : str) (skip : nat) (s : str) : list str :=
  match s with
  | [] => [[]]
  | x :: t =>
      match skip with
      | S skip => split_str_go p skip t
      | O =>
          if starts_with p s then [] :: split_str_go p (length p - 1) t
          else match split_str_go p 0 t with
               | [] => [[x]]
               | w :: ws => (x :: w) :: ws
               end
      end
  end.
Definition split_str (p s : str) : list str := split_str_go p 0 s.

Fixpoint join (sep : str) (ws : list str) : str :=
  match ws with
  | [] => []
  | [w] => w
  | w :: ws => w ++ sep ++ join sep ws
  end.

(** [s.replace(p, to)] for a non-empty [p]. *)
Fixpoint replace_go (p to : str) (skip : nat) (s : str) : str :=
  match s with
  | [] => []
  | x :: t =>
      match skip with
      | S skip => replace_go p to skip t
      | O =>
          if starts_with p s then to ++ replace_go p to (length p - 1) t
          else x :: replace_go p to 0 t
      end
  end.
Definition replace (p to s : str) : str := replace_go p to 0 s.

(** ** White space *)

(** [u8::is_ascii_whitespace]. *)
Definition is_ascii_whitespace (b : Z) : bool :=
  (b =? 0x20) || (b =? 0x09) || (b =? 0x0A) || (b =? 0x0C) || (b =? 0x0D).

Fixpoint ascii_words (s : str) : list str :=
  match s with
  | [] => [[]]
  | x :: s =>
      if is_ascii_whitespace x then [] :: ascii_words s
      else match ascii_words s with
           | [] => [[x]]
           | w :: ws => (x :: w) :: ws
           end
  end.
Definition split_ascii_whitespace (s : str) : list str :=
  filter (fun w => w <> []) (ascii_words s).

(** The Unicode property [White_Space], which [trim] strips. *)
Definition is_whitespace (c : Z) : bool :=
  between 0x09 0x0D c || (c =? 0x20) || (c =? 0x85) || (c =? 0xA0) || (c =? 0x1680)
  || between 0x2000 0x200A c || (c =? 0x2028) || (c =? 0x2029) || (c =? 0x202F)
  || (c =? 0x205F) || (c =? 0x3000).

Fixpoint drop_while (f : Z -> bool) (l : list Z) : list Z :=
  match l with
  | [] => []
  | x :: t => if f x then drop_while f t else l
  end.
Definition trim (s : str) : str :=
  encode_all (rev (drop_while is_whitespace (rev (drop_while is_whitespace (chars s))))).

(** ** Case, order *)

Definition ascii_lower (b : Z) : Z := if between 65 90 b then b + 32 else b.
Definition to_ascii_lowercase (s : str) : str := map ascii_lower s.

Definition is_ascii_digit (b : Z) : bool := between 48 57 b.
Definition is_ascii_lowercase (b : Z) : bool := between 97 122 b.
Definition is_ascii_alphanumeric (b : Z) : bool :=
  is_ascii_digit b || between 65 90 b || between 97 122 b.

(** [Ord] for [str]: lexicographic on the bytes. *)
Fixpoint str_compare (a b : str) : comparison :=
  match a, b with
  | [], [] => Eq
  | [], _ :: _ => Lt
  | _ :: _, [] => Gt
  | x :: a, y :: b => match Z.compare x y with Eq => str_compare a b | c => c end
  end.

(** ** Lemmas *)

Lemma starts_with_spec p s : starts_with p s = true <-> exists t, s = p ++ t.
Proof.
  revert s; induction p as [|a p IH]; intros s; simpl; [split; [by eexists|done]|].
  destruct s as [|b s]; [split; [done|by intros [? ?]]|].
  rewrite andb_true_iff, Z.eqb_eq, IH. split.
  - intros [-> [t ->]]. by exists t.
  - intros [t Ht]. simplify_eq. split; [done|by exists t].
Qed.

Lemma starts_with_refl p t : starts_with p (p ++ t) = true.
Proof. apply starts_with_spec. by exists t. Qed.

Lemma ends_with_spec p s : ends_with p s = true <-> exists t, s = t ++ p.
Proof.
  unfold ends_with. rewrite starts_with_spec. split; intros [t Ht].
  - exists (rev t). apply (f_equal (@rev Z)) in Ht.
    by rewrite rev_app_distr, !rev_involutive in Ht.
  - exists (rev t). by rewrite Ht, rev_app_distr.
Qed.

Lemma split_byte_cons b s : exists w ws, split_byte b s = w :: ws.
Proof.
  induction s as [|x s (w & ws & IH)]; simpl; [by eexists _, _|].
  case_split; [by eexists _, _|]. rewrite IH. by eexists _, _.
Qed.

Lemma join_split_byte b s : join [b] (split_byte b s) = s.
Proof.
  induction s as [|x s IH]; simpl; [done|].
  destruct (split_byte_cons b s) as (w & ws & E). rewrite E in *.
  destruct (x =? b) eqn:Hx; simpl.
  - apply Z.eqb_eq in Hx as ->. simpl in IH. by rewrite IH.
  - destruct ws; simpl in *; by rewrite IH.
Qed.

Lemma split_byte_app b w s : contains_byte b w = false -> split_byte b (w ++ b :: s) = w :: split_byte b s.
Proof.
  unfold contains_byte. induction w as [|x w IH]; simpl.
  - intros _. by rewrite Z.eqb_refl.
  - intros H. bools. rewrite IH by done. by replace (x =? b) with false by lia.
Qed.

Lemma split_byte_none b w : contains_byte b w = false -> split_byte b w = [w].
Proof.
  unfold contains_byte. induction w as [|x w IH]; simpl; [done|].
  intros H. bools. rewrite IH by done. by replace (x =? b) with false by lia.
Qed.

Lemma contains_byte_app b s t : contains_byte b (s ++ t) = contains_byte b s || contains_byte b t.
Proof. apply existsb_app. Qed.

Lemma position_spec f s i :
  position f s = Some i -> exists x, s !! i = Some x /\ f x = true /\ forall j y, (j < i)%nat -> s !! j = Some y -> f y = false.
Proof.
  revert i; induction s as [|x s IH]; intros i; simpl; [done|].
  destruct (f x) eqn:E.
  - intros [= <-]. exists x. split_and!; [done|done|lia].
  - destruct (position f s) as [j|]; [|done]. intros [= <-].
    destruct (IH j eq_refl) as (y & Hy & Hf & Hlt). exists y. split_and!; [done|done|].
    intros [|k] z Hk Hz; [by simplify_eq/=|]. apply (Hlt k); [lia|done].
Qed.

Lemma position_none f s : position f s = None <-> Forall (fun x => f x = false) s.
Proof.
  induction s as [|x s IH]; simpl; [split; [constructor|done]|].
  rewrite Forall_cons. destruct (f x) eqn:E; [split; [done|by intros [? ?]]|].
  destruct (position f s); simpl; split; try done.
  - intros [_ H]. by apply IH in H.
  - intros _. split; [done|]. by apply IH.
Qed.

Lemma str_compare_eq a b : str_compare a b = Eq <-> a = b.
Proof.
  revert b; induction a as [|x a IH]; intros [|y b]; simpl; try (split; congruence).
  destruct (Z.compare_spec x y); subst.
  - rewrite IH. split; congruence.
  - split; [done|]. intros [= -> ?]. lia.
  - split; [done|]. intros [= -> ?]. lia.
Qed.

Lemma str_compare_antisym a b : str_compare b a = CompOpp (str_compare a b).
Proof.
  revert b; induction a as [|x a IH]; intros [|y b]; simpl; try done.
  rewrite (Z.compare_antisym x y). destruct (Z.compare x y); simpl; [apply IH|done|done].
Qed.

Lemma str_compare_lt_trans a b c : str_compare a b = Lt -> str_compare b c = Lt -> str_compare a c = Lt.
Proof.
  revert b c; induction a as [|x a IH]; intros [|y b] [|z c]; simpl; try done.
  destruct (Z.compare_spec x y), (Z.compare_spec y z); intros; try done; subst.
  - rewrite Z.compare_refl. by eapply IH.
  - by rewrite (proj2 (Z.compare_lt_iff _ _)).
  - by rewrite (proj2 (Z.compare_lt_iff _ _)).
  - rewrite (proj2 (Z.compare_lt_iff _ _)); [done|lia].
Qed.

Lemma find_byte_app b w s : contains_byte b w = false -> find_byte b (w ++ b :: s) = Some (length w).
Proof.
  unfold contains_byte, find_byte. induction w as [|x w IH]; simpl.
  - intros _. by rewrite Z.eqb_refl.
  - intros H. bools. rewrite IH by done. by replace (b =? x) with false by lia.
Qed.

Lemma find_byte_none b w : find_byte b w = None <-> contains_byte b w = false.
Proof.
  unfold contains_byte, find_byte. induction w as [|x w IH]; simpl; [done|].
  rewrite orb_false_iff, <- IH. clear IH. destruct (b =? x); [split; [done|by intros [? ?]]|].
  destruct (position (Z.eqb b) w); simpl; [split; [done|by intros [? ?]]|done].
Qed.

Lemma split_once_app b w s : contains_byte b w = false -> split_once b (w ++ b :: s) = Some (w, s).
Proof.
  intros H. unfold split_once. rewrite find_byte_app by done. f_equal. f_equal.
  - by rewrite take_app_length.
  - by rewrite cons_middle, app_assoc, drop_app_length' by (rewrite length_app; simpl; lia).
Qed.

Lemma split_once_none b w : contains_byte b w = false -> split_once b w = None.
Proof. intros H. unfold split_once. by rewrite (proj2 (find_byte_none b w) H). Qed.

Lemma split_byte_join b ws :
  ws <> [] -> Forall (fun w => contains_byte b w = false) ws -> split_byte b (join [b] ws) = ws.
Proof.
  induction ws as [|w [|w' ws] IH]; intros Hne Hf; [done| |].
  - apply Forall_inv in Hf. by apply split_byte_none.
  - apply Forall_cons in Hf as [Hw Hf]. change (join [b] (w :: w' :: ws)) with (w ++ b :: join [b] (w' :: ws)).
    rewrite split_byte_app, IH by done. done.
Qed.

Lemma contains_byte_join b sep ws :
  contains_byte b sep = false -> Forall (fun w => contains_byte b w = false) ws ->
  contains_byte b (join sep ws) = false.
Proof.
  intros Hs. induction ws as [|w [|w' ws] IH]; intros Hf; [done| |].
  - by apply Forall_inv in Hf.
  - apply Forall_cons in Hf as [Hw Hf]. change (join sep (w :: w' :: ws)) with (w ++ sep ++ join sep (w' :: ws)).
    by rewrite !contains_byte_app, Hw, Hs, IH.
Qed.

(** A byte outside a class does not occur in a text of the class. *)
Lemma contains_byte_class (f : Z -> bool) b w :
  f b = false -> forallb f w = true -> contains_byte b w = false.
Proof.
  intros Hb. unfold contains_byte. induction w as [|x w IH]; simpl; intros H; [done|]. bools.
  rewrite IH by done. destruct (Z.eqb_spec b x); [congruence|done].
Qed.
