(* ===== verification/Chars.v ===== *)
(** * Character classes of the scanner ([surge-ts-tsc-syntax/src/chars.rs])

    A rune is a [Z] standing for the source's [i32], [EOF] being -1. The two
    Unicode identifier tables come from the crate [unicode_id_start] and are a
    parameter of the development: the class [UnicodeId]. *)

From S2P Require Import Prelude Utf8.

Local Open Scope Z_scope.

(** The tables of the crate [unicode_id_start], functions of a [char]. *)
Class UnicodeId := {
  is_id_start : Z -> bool;
  is_id_continue : Z -> bool
}.

(** What UAX #31 guarantees of them, for the theorems that need it: identifier
    characters are neither white space nor line breaks, and U+FFFD is none. *)
Class UnicodeIdLaws (U : UnicodeId) : Prop := {
  id_start_continue c : is_id_start c = true -> is_id_continue c = true;
  id_continue_replacement : is_id_continue 0xFFFD = false;
  id_start_space c : is_id_start c = true ->
    negb (between 0x2000 0x200B c || (c =? 0x85) || (c =? 0xA0) || (c =? 0x1680) || (c =? 0x202F)
          || (c =? 0x205F) || (c =? 0x3000) || (c =? 0xFEFF) || (c =? 0x2028) || (c =? 0x2029)) = true
}.

(** Identifier tables with the Latin-1 letters, for the examples. *)
Definition latin1_letter (c : Z) : bool :=
  between 0xC0 0xFF c && negb (c =? 0xD7) && negb (c =? 0xF7).
Definition latin1 : UnicodeId := {| is_id_start := latin1_letter; is_id_continue := latin1_letter |}.
#[export] Instance latin1_laws : UnicodeIdLaws latin1.
Proof. split; simpl; unfold latin1_letter; [done|done|]. intros c Hc. lia. Qed.

Definition EOF : Z := -1.
Definition RUNE_ERROR : Z := 0xFFFD.

Definition is_white_space_single_line (ch : Z) : bool :=
  (ch =? 0x20) || (ch =? 0x09) || (ch =? 0x0B) || (ch =? 0x0C) || (ch =? 0x85) || (ch =? 0xA0)
  || (ch =? 0x1680) || between 0x2000 0x200B ch || (ch =? 0x202F) || (ch =? 0x205F)
  || (ch =? 0x3000) || (ch =? 0xFEFF).

Definition is_line_break (ch : Z) : bool :=
  (ch =? 0x0A) || (ch =? 0x0D) || (ch =? 0x2028) || (ch =? 0x2029).

Definition is_white_space_like (ch : Z) : bool := is_white_space_single_line ch || is_line_break ch.

Definition is_digit (ch : Z) : bool := between 48 57 ch.
Definition is_octal_digit (ch : Z) : bool := between 48 55 ch.
Definition is_hex_digit (ch : Z) : bool := is_digit ch || between 65 70 ch || between 97 102 ch.
Definition is_ascii_letter (ch : Z) : bool := between 65 90 ch || between 97 122 ch.

Definition as_char (ch : Z) : option Z := if (0 <=? ch) && scalar ch then Some ch else None.

Section identifiers.
Context `{UnicodeId}.

Definition is_identifier_start (ch : Z) : bool :=
  is_ascii_letter ch || (ch =r "_") || (ch =r "$")
  || (ch >=? 0x80) && match as_char ch with Some c => is_id_start c | None => false end.

Definition is_word_character (ch : Z) : bool := is_ascii_letter ch || is_digit ch || (ch =r "_").

Definition is_identifier_part_ex (ch : Z) (jsx : bool) : bool :=
  is_word_character ch || (ch =r "$")
  || (ch >=? 0x80) && match as_char ch with Some c => is_id_continue c | None => false end
  || jsx && ((ch =r "-") || (ch =r ":")).

Definition is_identifier_part (ch : Z) : bool := is_identifier_part_ex ch false.
End identifiers.

Definition is_high_surrogate (ch : Z) : bool := (0xD800 <=? ch) && (ch <? 0xDC00).
Definition is_low_surrogate (ch : Z) : bool := (0xDC00 <=? ch) && (ch <? 0xE000).

Definition surrogate_pair_to_code_point (high low : Z) : Z :=
  Z.lor (Z.shiftl (high - 0xD800) 10) (low - 0xDC00) + 0x10000.

(** [push_rune] appends the UTF-8 of a rune, U+FFFD standing for what is not a
    [char]. *)
Definition push_rune (out : str) (ch : Z) : str := out ++ encode (default 0xFFFD (as_char ch)).

(** ** Lemmas *)

Lemma as_char_scalar ch c : as_char ch = Some c -> c = ch /\ scalar c = true.
Proof. unfold as_char. case_split; intros; simplify_eq. bools. done. Qed.

Lemma as_char_default_scalar ch : scalar (default 0xFFFD (as_char ch)) = true.
Proof.
  destruct (as_char ch) eqn:E; [|done]. by apply as_char_scalar in E as [_ ?].
Qed.

Lemma push_rune_utf8 out ch : utf8 out -> utf8 (push_rune out ch).
Proof.
  intros Ho. unfold push_rune. apply utf8_app; [done|].
  rewrite <- (app_nil_r (encode _)). apply utf8_cons; [apply as_char_default_scalar|apply utf8_nil].
Qed.

(** [(a << 10) | b] is [a * 1024 + b] for a ten bit [b]. *)
Lemma lor_shiftl_10 a b : 0 <= b < 1024 -> Z.lor (Z.shiftl a 10) b = a * 1024 + b.
Proof.
  intros Hb. assert (Hl : Z.land (Z.shiftl a 10) b = 0).
  { apply Z.bits_inj'. intros n Hn. rewrite Z.land_spec, Z.bits_0.
    destruct (Z.ltb_spec n 10); [by rewrite Z.shiftl_spec_low|].
    rewrite (Z.bits_above_log2 b n); [by rewrite andb_false_r|lia|].
    destruct (Z.eq_dec b 0) as [->|]; [simpl; lia|].
    apply Z.log2_lt_pow2; [lia|].
    apply Z.lt_le_trans with (2 ^ 10); [lia|apply Z.pow_le_mono_r; lia]. }
  rewrite <- Z.lxor_lor, <- Z.add_nocarry_lxor by done. by rewrite Z.shiftl_mul_pow2.
Qed.

Section identifier_lemmas.
Context `{UnicodeId}.

Lemma identifier_start_ascii ch : ch < 0x80 ->
  is_identifier_start ch = is_ascii_letter ch || (ch =r "_") || (ch =r "$").
Proof.
  intros Hlt. unfold is_identifier_start. replace (ch >=? 0x80) with false by lia.
  simpl. by rewrite orb_false_r.
Qed.

Lemma identifier_part_ascii ch : ch < 0x80 ->
  is_identifier_part ch = is_word_character ch || (ch =r "$").
Proof.
  intros Hlt. unfold is_identifier_part, is_identifier_part_ex.
  replace (ch >=? 0x80) with false by lia. simpl. by rewrite !orb_false_r.
Qed.

Lemma identifier_part_EOF : is_identifier_part EOF = false.
Proof. reflexivity. Qed.
End identifier_lemmas.

#[export] Hint Resolve push_rune_utf8 : surge.
