(* ===== verification/Diagnostics.v ===== *)
(** * Diagnostics and file options of the syntax crate

    [surge-ts-tsc-syntax/src/lib.rs] (messages, diagnostics and their
    rendering, script targets and kinds, parse options by file name),
    [flags.rs] (the token flags) and, from [messages.rs], the messages the
    scanner reports. *)

From S2P Require Import Prelude Utf8 RustStr.

Local Open Scope Z_scope.

(** ** Messages *)

Record Message := { mcode : Z; mtext : str }.

#[export] Instance Message_eq_dec : EqDecision Message.
Proof. solve_decision. Defined.

Module Messages.

Definition Unterminated_string_literal : Message :=
  {| mcode := 1002; mtext := lit "Unterminated string literal." |}.
Definition X_0_expected : Message :=
  {| mcode := 1005; mtext := lit "'{0}' expected." |}.
Definition Asterisk_Slash_expected : Message :=
  {| mcode := 1010; mtext := lit "'*/' expected." |}.
Definition Octal_literals_are_not_allowed_Use_the_syntax_0 : Message :=
  {| mcode := 1121; mtext := lit "Octal literals are not allowed. Use the syntax '{0}'." |}.
Definition Digit_expected : Message :=
  {| mcode := 1124; mtext := lit "Digit expected." |}.
Definition Hexadecimal_digit_expected : Message :=
  {| mcode := 1125; mtext := lit "Hexadecimal digit expected." |}.
Definition Unexpected_end_of_text : Message :=
  {| mcode := 1126; mtext := lit "Unexpected end of text." |}.
Definition Invalid_character : Message :=
  {| mcode := 1127; mtext := lit "Invalid character." |}.
Definition Unterminated_template_literal : Message :=
  {| mcode := 1160; mtext := lit "Unterminated template literal." |}.
Definition Unterminated_regular_expression_literal : Message :=
  {| mcode := 1161; mtext := lit "Unterminated regular expression literal." |}.
Definition Binary_digit_expected : Message :=
  {| mcode := 1177; mtext := lit "Binary digit expected." |}.
Definition Octal_digit_expected : Message :=
  {| mcode := 1178; mtext := lit "Octal digit expected." |}.
Definition Merge_conflict_marker_encountered : Message :=
  {| mcode := 1185; mtext := lit "Merge conflict marker encountered." |}.
Definition An_extended_Unicode_escape_value_must_be_between_0x0_and_0x10FFFF_inclusive : Message :=
  {| mcode := 1198; mtext := lit "An extended Unicode escape value must be between 0x0 and 0x10FFFF inclusive." |}.
Definition Unterminated_Unicode_escape_sequence : Message :=
  {| mcode := 1199; mtext := lit "Unterminated Unicode escape sequence." |}.
Definition An_identifier_or_keyword_cannot_immediately_follow_a_numeric_literal : Message :=
  {| mcode := 1351; mtext := lit "An identifier or keyword cannot immediately follow a numeric literal." |}.
Definition A_bigint_literal_cannot_use_exponential_notation : Message :=
  {| mcode := 1352; mtext := lit "A bigint literal cannot use exponential notation." |}.
Definition A_bigint_literal_must_be_an_integer : Message :=
  {| mcode := 1353; mtext := lit "A bigint literal must be an integer." |}.
Definition Did_you_mean_0 : Message :=
  {| mcode := 1369; mtext := lit "Did you mean '{0}'?" |}.
Definition Unexpected_token_Did_you_mean_or_rbrace : Message :=
  {| mcode := 1381; mtext := lit "Unexpected token. Did you mean `{'}'}` or `&rbrace;`?" |}.
Definition Unexpected_token_Did_you_mean_or_gt : Message :=
  {| mcode := 1382; mtext := lit "Unexpected token. Did you mean `{'>'}` or `&gt;`?" |}.
Definition Octal_escape_sequences_are_not_allowed_Use_the_syntax_0 : Message :=
  {| mcode := 1487; mtext := lit "Octal escape sequences are not allowed. Use the syntax '{0}'." |}.
Definition Escape_sequence_0_is_not_allowed : Message :=
  {| mcode := 1488; mtext := lit "Escape sequence '{0}' is not allowed." |}.
Definition Decimals_with_leading_zeros_are_not_allowed : Message :=
  {| mcode := 1489; mtext := lit "Decimals with leading zeros are not allowed." |}.
Definition File_appears_to_be_binary : Message :=
  {| mcode := 1490; mtext := lit "File appears to be binary." |}.
Definition Unknown_regular_expression_flag : Message :=
  {| mcode := 1499; mtext := lit "Unknown regular expression flag." |}.
Definition Duplicate_regular_expression_flag : Message :=
  {| mcode := 1500; mtext := lit "Duplicate regular expression flag." |}.
Definition This_regular_expression_flag_is_only_available_when_targeting_0_or_later : Message :=
  {| mcode := 1501; mtext := lit "This regular expression flag is only available when targeting '{0}' or later." |}.
Definition The_Unicode_u_flag_and_the_Unicode_Sets_v_flag_cannot_be_set_simultaneously : Message :=
  {| mcode := 1502; mtext := lit "The Unicode (u) flag and the Unicode Sets (v) flag cannot be set simultaneously." |}.
Definition Named_capturing_groups_are_only_available_when_targeting_ES2018_or_later : Message :=
  {| mcode := 1503; mtext := lit "Named capturing groups are only available when targeting 'ES2018' or later." |}.
Definition Subpattern_flags_must_be_present_when_there_is_a_minus_sign : Message :=
  {| mcode := 1504; mtext := lit "Subpattern flags must be present when there is a minus sign." |}.
Definition Incomplete_quantifier_Digit_expected : Message :=
  {| mcode := 1505; mtext := lit "Incomplete quantifier. Digit expected." |}.
Definition Numbers_out_of_order_in_quantifier : Message :=
  {| mcode := 1506; mtext := lit "Numbers out of order in quantifier." |}.
Definition There_is_nothing_available_for_repetition : Message :=
  {| mcode := 1507; mtext := lit "There is nothing available for repetition." |}.
Definition Unexpected_0_Did_you_mean_to_escape_it_with_backslash : Message :=
  {| mcode := 1508; mtext := lit "Unexpected '{0}'. Did you mean to escape it with backslash?" |}.
Definition This_regular_expression_flag_cannot_be_toggled_within_a_subpattern : Message :=
  {| mcode := 1509; mtext := lit "This regular expression flag cannot be toggled within a subpattern." |}.
Definition X_k_must_be_followed_by_a_capturing_group_name_enclosed_in_angle_brackets : Message :=
  {| mcode := 1510; mtext := lit "'\k' must be followed by a capturing group name enclosed in angle brackets." |}.
Definition X_q_is_only_available_inside_character_class : Message :=
  {| mcode := 1511; mtext := lit "'\q' is only available inside character class." |}.
Definition X_c_must_be_followed_by_an_ASCII_letter : Message :=
  {| mcode := 1512; mtext := lit "'\c' must be followed by an ASCII letter." |}.
Definition Undetermined_character_escape : Message :=
  {| mcode := 1513; mtext := lit "Undetermined character escape." |}.
Definition Expected_a_capturing_group_name : Message :=
  {| mcode := 1514; mtext := lit "Expected a capturing group name." |}.
Definition Named_capturing_groups_with_the_same_name_must_be_mutually_exclusive_to_each_other : Message :=
  {| mcode := 1515; mtext := lit "Named capturing groups with the same name must be mutually exclusive to each other." |}.
Definition A_character_class_range_must_not_be_bounded_by_another_character_class : Message :=
  {| mcode := 1516; mtext := lit "A character class range must not be bounded by another character class." |}.
Definition Range_out_of_order_in_character_class : Message :=
  {| mcode := 1517; mtext := lit "Range out of order in character class." |}.
Definition Anything_that_would_possibly_match_more_than_a_single_character_is_invalid_inside_a_negated_character_class : Message :=
  {| mcode := 1518; mtext := lit "Anything that would possibly match more than a single character is invalid inside a negated character class." |}.
Definition Operators_must_not_be_mixed_within_a_character_class_Wrap_it_in_a_nested_class_instead : Message :=
  {| mcode := 1519; mtext := lit "Operators must not be mixed within a character class. Wrap it in a nested class instead." |}.
Definition Expected_a_class_set_operand : Message :=
  {| mcode := 1520; mtext := lit "Expected a class set operand." |}.
Definition X_q_must_be_followed_by_string_alternatives_enclosed_in_braces : Message :=
  {| mcode := 1521; mtext := lit "'\q' must be followed by string alternatives enclosed in braces." |}.
Definition A_character_class_must_not_contain_a_reserved_double_punctuator_Did_you_mean_to_escape_it_with_backslash : Message :=
  {| mcode := 1522; mtext := lit "A character class must not contain a reserved double punctuator. Did you mean to escape it with backslash?" |}.
Definition Expected_a_Unicode_property_name : Message :=
  {| mcode := 1523; mtext := lit "Expected a Unicode property name." |}.
Definition Unknown_Unicode_property_name : Message :=
  {| mcode := 1524; mtext := lit "Unknown Unicode property name." |}.
Definition Expected_a_Unicode_property_value : Message :=
  {| mcode := 1525; mtext := lit "Expected a Unicode property value." |}.
Definition Unknown_Unicode_property_value : Message :=
  {| mcode := 1526; mtext := lit "Unknown Unicode property value." |}.
Definition Expected_a_Unicode_property_name_or_value : Message :=
  {| mcode := 1527; mtext := lit "Expected a Unicode property name or value." |}.
Definition Any_Unicode_property_that_would_possibly_match_more_than_a_single_character_is_only_available_when_the_Unicode_Sets_v_flag_is_set : Message :=
  {| mcode := 1528; mtext := lit "Any Unicode property that would possibly match more than a single character is only available when the Unicode Sets (v) flag is set." |}.
Definition Unknown_Unicode_property_name_or_value : Message :=
  {| mcode := 1529; mtext := lit "Unknown Unicode property name or value." |}.
Definition Unicode_property_value_expressions_are_only_available_when_the_Unicode_u_flag_or_the_Unicode_Sets_v_flag_is_set : Message :=
  {| mcode := 1530; mtext := lit "Unicode property value expressions are only available when the Unicode (u) flag or the Unicode Sets (v) flag is set." |}.
Definition X_0_must_be_followed_by_a_Unicode_property_value_expression_enclosed_in_braces : Message :=
  {| mcode := 1531; mtext := lit "'\{0}' must be followed by a Unicode property value expression enclosed in braces." |}.
Definition There_is_no_capturing_group_named_0_in_this_regular_expression : Message :=
  {| mcode := 1532; mtext := lit "There is no capturing group named '{0}' in this regular expression." |}.
Definition This_backreference_refers_to_a_group_that_does_not_exist_There_are_only_0_capturing_groups_in_this_regular_expression : Message :=
  {| mcode := 1533; mtext := lit "This backreference refers to a group that does not exist. There are only {0} capturing groups in this regular expression." |}.
Definition This_backreference_refers_to_a_group_that_does_not_exist_There_are_no_capturing_groups_in_this_regular_expression : Message :=
  {| mcode := 1534; mtext := lit "This backreference refers to a group that does not exist. There are no capturing groups in this regular expression." |}.
Definition This_character_cannot_be_escaped_in_a_regular_expression : Message :=
  {| mcode := 1535; mtext := lit "This character cannot be escaped in a regular expression." |}.
Definition Octal_escape_sequences_and_backreferences_are_not_allowed_in_a_character_class_If_this_was_intended_as_an_escape_sequence_use_the_syntax_0_instead : Message :=
  {| mcode := 1536; mtext := lit "Octal escape sequences and backreferences are not allowed in a character class. If this was intended as an escape sequence, use the syntax '{0}' instead." |}.
Definition Decimal_escape_sequences_and_backreferences_are_not_allowed_in_a_character_class : Message :=
  {| mcode := 1537; mtext := lit "Decimal escape sequences and backreferences are not allowed in a character class." |}.
Definition Unicode_escape_sequences_are_only_available_when_the_Unicode_u_flag_or_the_Unicode_Sets_v_flag_is_set : Message :=
  {| mcode := 1538; mtext := lit "Unicode escape sequences are only available when the Unicode (u) flag or the Unicode Sets (v) flag is set." |}.
Definition Numeric_separators_are_not_allowed_here : Message :=
  {| mcode := 6188; mtext := lit "Numeric separators are not allowed here." |}.
Definition Multiple_consecutive_numeric_separators_are_not_permitted : Message :=
  {| mcode := 6189; mtext := lit "Multiple consecutive numeric separators are not permitted." |}.
Definition X_can_only_be_used_at_the_start_of_a_file : Message :=
  {| mcode := 18026; mtext := lit "'#!' can only be used at the start of a file." |}.

End Messages.

(** ** Diagnostics *)

Record Diagnostic := { dstart : nat; dend : nat; dmessage : Message; dargs : list str }.

#[export] Instance Diagnostic_eq_dec : EqDecision Diagnostic.
Proof. solve_decision. Defined.

(** A reported syntax error: the message with its arguments filled in. *)
Record SyntaxDiagnostic := { sd_start : nat; sd_end : nat; sd_code : Z; sd_message : str }.

#[export] Instance SyntaxDiagnostic_eq_dec : EqDecision SyntaxDiagnostic.
Proof. solve_decision. Defined.

(** [format!("{{{index}}}")]. *)
Definition placeholder (index : nat) : str := lit "{" ++ render 10 (Z.of_nat index) ++ lit "}".

Fixpoint fill_args (index : nat) (args : list str) (message : str) : str :=
  match args with
  | [] => message
  | arg :: args => fill_args (S index) args (replace (placeholder index) arg message)
  end.

Definition render_diagnostic (d : Diagnostic) : SyntaxDiagnostic :=
  {| sd_start := dstart d; sd_end := dend d; sd_code := mcode (dmessage d);
     sd_message := fill_args 0 (dargs d) (mtext (dmessage d)) |}.

(** [render]: every diagnostic rendered, identical ones reported once. *)
Fixpoint render_into (rendered : list SyntaxDiagnostic) (ds : list Diagnostic) : list SyntaxDiagnostic :=
  match ds with
  | [] => rendered
  | d :: ds =>
      let d := render_diagnostic d in
      render_into (if bool_decide (d ∈ rendered) then rendered else rendered ++ [d]) ds
  end.
Definition render_all (ds : list Diagnostic) : list SyntaxDiagnostic := render_into [] ds.

(** ** Script targets and kinds *)

Inductive ScriptTarget :=
  ES5 | ES2015 | ES2016 | ES2017 | ES2018 | ES2019 | ES2020 | ES2021 | ES2022 | ES2023 | ES2024
| ES2025 | ESNext.

(** [self as i32], which the derived order compares. *)
Definition target_rank (t : ScriptTarget) : Z :=
  match t with
  | ES5 => 1 | ES2015 => 2 | ES2016 => 3 | ES2017 => 4 | ES2018 => 5 | ES2019 => 6 | ES2020 => 7
  | ES2021 => 8 | ES2022 => 9 | ES2023 => 10 | ES2024 => 11 | ES2025 => 12 | ESNext => 99
  end.

Definition default_target : ScriptTarget := ES2025.

Definition target_name (t : ScriptTarget) : str :=
  lit match t with
  | ES5 => "es5" | ES2015 => "es2015" | ES2016 => "es2016" | ES2017 => "es2017"
  | ES2018 => "es2018" | ES2019 => "es2019" | ES2020 => "es2020" | ES2021 => "es2021"
  | ES2022 => "es2022" | ES2023 => "es2023" | ES2024 => "es2024" | ES2025 => "es2025"
  | ESNext => "esnext"
  end.

Inductive ScriptKind := Ts | Tsx | Js | Jsx.

(** [ScriptKind::from_file_name]. *)
Definition script_kind_from_file_name (file_name : str) : option ScriptKind :=
  let lower := to_ascii_lowercase file_name in
  if ends_with (lit ".tsx") lower then Some Tsx
  else if ends_with (lit ".ts") lower || ends_with (lit ".mts") lower || ends_with (lit ".cts") lower
  then Some Ts
  else if ends_with (lit ".jsx") lower then Some Jsx
  else if ends_with (lit ".js") lower || ends_with (lit ".mjs") lower || ends_with (lit ".cjs") lower
  then Some Js
  else None.

(** [UnusedCheck]: what the unused-identifier check reads beyond the file. *)
Record UnusedCheck := {
  locals : bool;
  parameters : bool;
  jsx_element_reads : list str;
  jsx_fragment_reads : list str;
  jsdoc_link_names : list str;
  emit_standard_class_fields : bool
}.

Record ParseOptions := {
  script_kind : ScriptKind;
  is_declaration_file : bool;
  force_module : bool;
  jsx_forces_module : bool;
  language_version_option : ScriptTarget;
  unused : option UnusedCheck
}.

(** [ParseOptions::for_file_name]. *)
Definition parse_options_for_file_name (file_name : str) : option ParseOptions :=
  kind ← script_kind_from_file_name file_name;
  let lower := to_ascii_lowercase file_name in
  let is_declaration_file :=
    ends_with (lit ".d.ts") lower || ends_with (lit ".d.mts") lower || ends_with (lit ".d.cts") lower
    || contains (lit ".d.") lower && ends_with (lit ".ts") lower in
  let force_module :=
    negb is_declaration_file
    && existsb (fun ext => ends_with ext lower) [lit ".mts"; lit ".cts"; lit ".mjs"; lit ".cjs"] in
  Some {| script_kind := kind; is_declaration_file := is_declaration_file;
          force_module := force_module; jsx_forces_module := false;
          language_version_option := default_target; unused := None |}.

(** ** Token flags *)

Module TokenFlags.
Definition None : Z := 0.
Definition PrecedingLineBreak : Z := Z.shiftl 1 0.
Definition PrecedingJSDocComment : Z := Z.shiftl 1 1.
Definition Unterminated : Z := Z.shiftl 1 2.
Definition ExtendedUnicodeEscape : Z := Z.shiftl 1 3.
Definition Scientific : Z := Z.shiftl 1 4.
Definition Octal : Z := Z.shiftl 1 5.
Definition HexSpecifier : Z := Z.shiftl 1 6.
Definition BinarySpecifier : Z := Z.shiftl 1 7.
Definition OctalSpecifier : Z := Z.shiftl 1 8.
Definition ContainsSeparator : Z := Z.shiftl 1 9.
Definition UnicodeEscape : Z := Z.shiftl 1 10.
Definition ContainsInvalidEscape : Z := Z.shiftl 1 11.
Definition HexEscape : Z := Z.shiftl 1 12.
Definition ContainsLeadingZero : Z := Z.shiftl 1 13.
Definition ContainsInvalidSeparator : Z := Z.shiftl 1 14.
Definition PrecedingJSDocLeadingAsterisks : Z := Z.shiftl 1 15.
Definition SingleQuote : Z := Z.shiftl 1 16.
Definition PrecedingJSDocWithDeprecated : Z := Z.shiftl 1 17.
Definition PrecedingJSDocWithSeeOrLink : Z := Z.shiftl 1 18.
Definition BinaryOrOctalSpecifier : Z := Z.lor BinarySpecifier OctalSpecifier.
Definition WithSpecifier : Z := Z.lor HexSpecifier (Z.lor BinarySpecifier OctalSpecifier).
Definition StringLiteralFlags : Z :=
  Z.lor Unterminated (Z.lor HexEscape (Z.lor UnicodeEscape (Z.lor ExtendedUnicodeEscape
    (Z.lor ContainsInvalidEscape SingleQuote)))).
Definition NumericLiteralFlags : Z :=
  Z.lor Scientific (Z.lor Octal (Z.lor ContainsLeadingZero (Z.lor HexSpecifier
    (Z.lor BinarySpecifier (Z.lor OctalSpecifier (Z.lor ContainsSeparator ContainsInvalidSeparator)))))).
Definition TemplateLiteralLikeFlags : Z :=
  Z.lor Unterminated (Z.lor HexEscape (Z.lor UnicodeEscape (Z.lor ExtendedUnicodeEscape
    ContainsInvalidEscape))).
Definition IsInvalid : Z :=
  Z.lor Octal (Z.lor ContainsLeadingZero (Z.lor ContainsInvalidSeparator ContainsInvalidEscape)).

(** [flags.has(other)]. *)
Definition has (flags other : Z) : bool := negb (Z.land flags other =? 0).
End TokenFlags.
