(* ===== verification/JsNumber.v ===== *)
(** * Numeric literal values as JavaScript prints them

    [js_number_string] and [format_js_number] of
    [surge-ts-tsc-syntax/src/scanner.rs], over the binary64 numbers of the
    Standard Library's [SpecFloat]. Parsing and shortest printing of an [f64]
    are the standard library of Rust's: both are written out here as their
    documentation defines them (correct rounding, shortest digits that read
    back). *)

From S2P Require Import Prelude RustStr.
From Stdlib Require Import SpecFloat.

Local Open Scope Z_scope.

(** ** binary64 *)

Abbreviation f64 := spec_float.
Definition prec : Z := 53.
Definition emax : Z := 1024.
Definition INFINITY : f64 := S754_infinity false.

(** The integer [n >= 0] rounded to nearest even: [n as f64]. *)
Definition f64_of_Z (n : Z) : f64 := binary_normalize prec emax n 0 false.

(** [n / d] rounded to nearest even. *)
Definition f64_of_ratio (n d : positive) : f64 :=
  let '(m, e, l) := SFdiv_core_binary prec emax (Zpos n) 0 (Zpos d) 0 in
  binary_round_aux prec emax false m e l.

(** [mantissa * 10 ^ exponent] rounded to nearest even. *)
Definition f64_of_decimal (mantissa exponent : Z) : f64 :=
  match mantissa with
  | Zpos m =>
      if 0 <=? exponent then f64_of_ratio (m * Z.to_pos (10 ^ exponent)) 1
      else f64_of_ratio m (Z.to_pos (10 ^ (- exponent)))
  | _ => S754_zero false
  end.

(** ** [str::parse::<f64>] of an unsigned decimal

    [digits [. digits] [(e|E) [+|-] digits]] with a digit in the mantissa. The
    other spellings the parser accepts (a sign, [inf], [nan]) start with a
    character no numeric literal starts with. *)

Fixpoint span_digits (s : str) : str * str :=
  match s with
  | b :: t => if is_ascii_digit b then let '(d, r) := span_digits t in (b :: d, r) else ([], s)
  | [] => ([], [])
  end.

Definition Z_of_digits (s : str) : Z := fold_left (fun acc b => acc * 10 + (b - 48)) s 0.

Definition parse_exponent (s : str) : option Z :=
  let '(sign, s) :=
    match s with
    | b :: t => if b =r "+" then (1, t) else if b =r "-" then (-1, t) else (1, s)
    | [] => (1, s)
    end in
  match span_digits s with
  | ((_ :: _) as ds, []) => Some (sign * Z_of_digits ds)
  | _ => None
  end.

Definition parse_f64 (s : str) : option f64 :=
  let '(whole, s) := span_digits s in
  let '(fraction, s) :=
    match s with
    | b :: t => if b =r "." then span_digits t else ([], s)
    | [] => ([], s)
    end in
  exponent ←
    match s with
    | [] => Some 0
    | b :: t => if (b =r "e") || (b =r "E") then parse_exponent t else None
    end;
  match whole ++ fraction with
  | [] => None
  | ds => Some (f64_of_decimal (Z_of_digits ds) (exponent - Z.of_nat (length fraction)))
  end.

(** ** [format!("{:e}", value)] of a finite positive value *)

(** [value] as a fraction. *)
Definition f64_fraction (m : positive) (e : Z) : Z * Z :=
  if 0 <=? e then (Zpos m * 2 ^ e, 1) else (Zpos m, 2 ^ (- e)).

(** The decimal exponent [k] with [10 ^ k <= a / b < 10 ^ (k + 1)]. *)
Fixpoint small_exponent (fuel : nat) (a b : Z) : Z :=
  match fuel with
  | O => 0
  | S fuel => if b <=? a then 0 else small_exponent fuel (a * 10) b - 1
  end.
Definition decimal_exponent (a b : Z) : Z :=
  if b <=? a then Z.of_nat (length (render 10 (a / b))) - 1 else small_exponent 400 a b.

Definition f64_eqb (x y : f64) : bool := match SFcompare x y with Some Eq => true | _ => false end.

(** The shortest digits that read back as the value, the nearest such when
    there are several, from [n] digits up: the digits and the exponent. *)
Fixpoint shortest (fuel n : nat) (value : f64) (a b k : Z) : Z * Z :=
  match fuel with
  | O => (0, 0)
  | S fuel =>
      let shift := Z.of_nat n - 1 - k in
      let '(a', b') := if 0 <=? shift then (a * 10 ^ shift, b) else (a, b * 10 ^ (- shift)) in
      let low := a' / b' in
      let reads_back q := f64_eqb (f64_of_decimal q (- shift)) value in
      let down := reads_back low in
      let up := reads_back (low + 1) in
      if up && (negb down || (b' <=? 2 * (a' mod b'))) then
        if low + 1 =? 10 ^ Z.of_nat n then (1, k + 1) else (low + 1, k)
      else if down then (low, k)
      else shortest fuel (S n) value a b k
  end.

Definition render_signed (n : Z) : str := if n <? 0 then lit "-" ++ render 10 (- n) else render 10 n.

(** [d[.ddd]e<exponent>]: seventeen digits always read back. *)
Definition format_exp (value : f64) : str :=
  match value with
  | S754_finite _ m e =>
      let '(a, b) := f64_fraction m e in
      let '(digits, k) := shortest 17 1 value a b (decimal_exponent a b) in
      match render 10 digits with
      | [d] => d :: lit "e" ++ render_signed k
      | d :: ds => d :: lit "." ++ ds ++ lit "e" ++ render_signed k
      | [] => []
      end
  | _ => lit "0e0"
  end.

(** ** The modelled functions *)

Definition is_zero (v : f64) : bool := match v with S754_zero _ => true | _ => false end.
Definition is_negative (v : f64) : bool :=
  match v with S754_finite s _ _ | S754_infinity s => s | _ => false end.
Definition f64_abs (v : f64) : f64 := SFabs v.

Definition parse_i32 (s : str) : option Z :=
  match s with
  | b :: t => if b =r "-" then n ← from_str_radix 10 2147483648 t; Some (- n) else from_str_radix 10 2147483647 s
  | [] => None
  end.

Definition repeat_zero (n : Z) : str := replicate (Z.to_nat n) 48.

Definition format_js_number (value : f64) : str :=
  match value with
  | S754_nan => lit "NaN"
  | S754_infinity negative => if negative then lit "-Infinity" else lit "Infinity"
  | S754_zero _ => lit "0"
  | S754_finite _ _ _ =>
      let scientific := format_exp (f64_abs value) in
      let '(mantissa, exponent) := default (scientific, lit "0") (split_once 101 scientific) in
      let digits := filter (fun c => c <> 46) mantissa in
      let exponent := default 0 (parse_i32 exponent) in
      let k := Z.of_nat (length digits) in
      let n := exponent + 1 in
      let sign := if is_negative value then lit "-" else [] in
      let body :=
        if (k <=? n) && (n <=? 21) then digits ++ repeat_zero (n - k)
        else if (0 <? n) && (n <=? 21) then
          take (Z.to_nat n) digits ++ lit "." ++ drop (Z.to_nat n) digits
        else if (-6 <? n) && (n <=? 0) then lit "0." ++ repeat_zero (- n) ++ digits
        else
          let e := n - 1 in
          let e := if 0 <=? e then lit "+" ++ render_signed e else render_signed e in
          if k =? 1 then digits ++ lit "e" ++ e
          else take 1 digits ++ lit "." ++ drop 1 digits ++ lit "e" ++ e in
      sign ++ body
  end.

Definition u128_max : Z := 2 ^ 128 - 1.

(** [text.strip_prefix(a).or_else(|| text.strip_prefix(b))]. *)
Definition strip_either (a b text : str) : option str :=
  match strip_prefix a text with Some s => Some s | None => strip_prefix b text end.

Definition radix_value (radix : Z) (digits : str) : f64 :=
  match from_str_radix radix u128_max digits with Some v => f64_of_Z v | None => INFINITY end.

Definition js_number_string (text : str) : str :=
  match strip_either (lit "0x") (lit "0X") text with
  | Some hex => format_js_number (radix_value 16 hex)
  | None =>
      match strip_either (lit "0b") (lit "0B") text with
      | Some bin => format_js_number (radix_value 2 bin)
      | None =>
          match strip_either (lit "0o") (lit "0O") text with
          | Some oct => format_js_number (radix_value 8 oct)
          | None =>
              match parse_f64 text with
              | Some value => format_js_number value
              | None => text
              end
          end
      end
  end.

(** ** Samples *)

Example js_number_samples :
  map (fun s => js_number_string (lit s))
    ["0"%string; "007"; "1.50"; ".5"; "1e21"; "123456789012345680000"; "1e-7"; "0.000001"; "0x1F"; "0b101";
     "0o17"; "1e400"; "5e-324"; "0.1"; "9007199254740993"; "1.7976931348623157e308"; "4.35"; "_"]
  = map lit
    ["0"%string; "7"; "1.5"; "0.5"; "1e+21"; "123456789012345680000"; "1e-7"; "0.000001"; "31"; "5";
     "15"; "Infinity"; "5e-324"; "0.1"; "9007199254740992"; "1.7976931348623157e+308"; "4.35"; "_"].
Proof. vm_compute. reflexivity. Qed.
