(* ===== verification/ScanText.v ===== *)
(** * Text-level functions of the scanner

    The free functions of [surge-ts-tsc-syntax/src/scanner.rs]: decoding runes,
    the CESU-8 encoding of lone surrogates, the keyword and punctuation tables,
    conflict markers and [skip_trivia]. *)

From S2P Require Import Prelude Utf8 RustStr Chars Kind.

Local Open Scope Z_scope.

(** ** Runes *)

(** [decode_rune]: [(RUNE_ERROR, 0)] at the end of the text. *)
Definition decode_rune (text : str) (pos end_ : nat) : result (Z * nat) :=
  if (end_ <=? pos)%nat then Ok (RUNE_ERROR, 0%nat)
  else
    b ← unwrap (text !! pos);
    if b <? 0x80 then Ok (b, 1%nat)
    else
      rest ← unwrap (slice_from text pos);
      match decode_first rest with
      | Some (ch, size) => Ok (ch, size)
      | None => Ok (RUNE_ERROR, 1%nat)
      end.

(** Go's [string(rune)]. *)
Definition go_rune_string (ch : Z) : str := encode (default 0xFFFD (as_char ch)).

(** [x as u8]. *)
Definition as_u8 (x : Z) : Z := x mod 256.

(** A lone surrogate as its 3-byte CESU-8 sequence. *)
Definition encode_js_string_rune (ch : Z) : str :=
  if (0xD800 <=? ch) && (ch <? 0xE000) then
    [0xED; as_u8 (Z.lor 0x80 (Z.land (Z.shiftr ch 6) 0x3F)); as_u8 (Z.lor 0x80 (Z.land ch 0x3F))]
  else go_rune_string ch.

(** [utf8.DecodeRuneInString(s[pos:])] over arbitrary bytes. *)
Definition go_decode_rune (s : str) (pos : nat) : Z * nat :=
  match s !! pos with
  | None => (RUNE_ERROR, 0%nat)
  | Some b =>
      if b <? 0x80 then (b, 1%nat)
      else
        let width :=
          if between 0xC2 0xDF b then Some 2%nat
          else if between 0xE0 0xEF b then Some 3%nat
          else if between 0xF0 0xF4 b then Some 4%nat
          else None in
        match width with
        | None => (RUNE_ERROR, 1%nat)
        | Some width =>
            let first :=
              bytes ← slice_range s pos (pos + width);
              text ← from_utf8 bytes;
              head text in
            match first with
            | Some ch => (ch, width)
            | None => (RUNE_ERROR, 1%nat)
            end
        end
  end.

Definition decode_js_string_rune (s : str) : Z * nat :=
  match s with
  | b0 :: b1 :: b2 :: _ =>
      if (b0 =? 0xED) && between 0xA0 0xBF b1 && between 0x80 0xBF b2 then
        (Z.lor (Z.lor 0xD000 (Z.shiftl (Z.land b1 0x3F) 6)) (Z.land b2 0x3F), 3%nat)
      else go_decode_rune s 0
  | _ => go_decode_rune s 0
  end.

(** [text[..end].chars().next_back()] with its width. *)
Definition decode_last_rune (text : str) (end_ : nat) : result (Z * nat) :=
  s ← unwrap (slice text 0 end_);
  match last (chars s) with
  | Some ch => Ok (ch, length (encode ch))
  | None => Ok (RUNE_ERROR, 0%nat)
  end.

(** ** Keywords and punctuation *)

Definition TEXT_TO_KEYWORD : list (str * Kind) :=
  [(lit "abstract", Kind.AbstractKeyword); (lit "accessor", Kind.AccessorKeyword);
   (lit "any", Kind.AnyKeyword); (lit "as", Kind.AsKeyword);
   (lit "asserts", Kind.AssertsKeyword); (lit "assert", Kind.AssertKeyword);
   (lit "bigint", Kind.BigIntKeyword); (lit "boolean", Kind.BooleanKeyword);
   (lit "break", Kind.BreakKeyword); (lit "case", Kind.CaseKeyword);
   (lit "catch", Kind.CatchKeyword); (lit "class", Kind.ClassKeyword);
   (lit "continue", Kind.ContinueKeyword); (lit "const", Kind.ConstKeyword);
   (lit "constructor", Kind.ConstructorKeyword); (lit "debugger", Kind.DebuggerKeyword);
   (lit "declare", Kind.DeclareKeyword); (lit "default", Kind.DefaultKeyword);
   (lit "defer", Kind.DeferKeyword); (lit "delete", Kind.DeleteKeyword);
   (lit "do", Kind.DoKeyword); (lit "else", Kind.ElseKeyword);
   (lit "enum", Kind.EnumKeyword); (lit "export", Kind.ExportKeyword);
   (lit "extends", Kind.ExtendsKeyword); (lit "false", Kind.FalseKeyword);
   (lit "finally", Kind.FinallyKeyword); (lit "for", Kind.ForKeyword);
   (lit "from", Kind.FromKeyword); (lit "function", Kind.FunctionKeyword);
   (lit "get", Kind.GetKeyword); (lit "if", Kind.IfKeyword);
   (lit "immediate", Kind.ImmediateKeyword); (lit "implements", Kind.ImplementsKeyword);
   (lit "import", Kind.ImportKeyword); (lit "in", Kind.InKeyword);
   (lit "infer", Kind.InferKeyword); (lit "instanceof", Kind.InstanceOfKeyword);
   (lit "interface", Kind.InterfaceKeyword); (lit "intrinsic", Kind.IntrinsicKeyword);
   (lit "is", Kind.IsKeyword); (lit "keyof", Kind.KeyOfKeyword);
   (lit "let", Kind.LetKeyword); (lit "module", Kind.ModuleKeyword);
   (lit "namespace", Kind.NamespaceKeyword); (lit "never", Kind.NeverKeyword);
   (lit "new", Kind.NewKeyword); (lit "null", Kind.NullKeyword);
   (lit "number", Kind.NumberKeyword); (lit "object", Kind.ObjectKeyword);
   (lit "package", Kind.PackageKeyword); (lit "private", Kind.PrivateKeyword);
   (lit "protected", Kind.ProtectedKeyword); (lit "public", Kind.PublicKeyword);
   (lit "override", Kind.OverrideKeyword); (lit "out", Kind.OutKeyword);
   (lit "readonly", Kind.ReadonlyKeyword); (lit "require", Kind.RequireKeyword);
   (lit "global", Kind.GlobalKeyword); (lit "return", Kind.ReturnKeyword);
   (lit "satisfies", Kind.SatisfiesKeyword); (lit "set", Kind.SetKeyword);
   (lit "static", Kind.StaticKeyword); (lit "string", Kind.StringKeyword);
   (lit "super", Kind.SuperKeyword); (lit "switch", Kind.SwitchKeyword);
   (lit "symbol", Kind.SymbolKeyword); (lit "this", Kind.ThisKeyword);
   (lit "throw", Kind.ThrowKeyword); (lit "true", Kind.TrueKeyword);
   (lit "try", Kind.TryKeyword); (lit "type", Kind.TypeKeyword);
   (lit "typeof", Kind.TypeOfKeyword); (lit "undefined", Kind.UndefinedKeyword);
   (lit "unique", Kind.UniqueKeyword); (lit "unknown", Kind.UnknownKeyword);
   (lit "using", Kind.UsingKeyword); (lit "var", Kind.VarKeyword);
   (lit "void", Kind.VoidKeyword); (lit "while", Kind.WhileKeyword);
   (lit "with", Kind.WithKeyword); (lit "yield", Kind.YieldKeyword);
   (lit "async", Kind.AsyncKeyword); (lit "await", Kind.AwaitKeyword);
   (lit "of", Kind.OfKeyword)].

Definition TEXT_TO_PUNCTUATION : list (str * Kind) :=
  [(lit "{", Kind.OpenBraceToken); (lit "}", Kind.CloseBraceToken);
   (lit "(", Kind.OpenParenToken); (lit ")", Kind.CloseParenToken);
   (lit "[", Kind.OpenBracketToken); (lit "]", Kind.CloseBracketToken);
   (lit ".", Kind.DotToken); (lit "...", Kind.DotDotDotToken);
   (lit ";", Kind.SemicolonToken); (lit ",", Kind.CommaToken);
   (lit "<", Kind.LessThanToken); (lit ">", Kind.GreaterThanToken);
   (lit "<=", Kind.LessThanEqualsToken); (lit ">=", Kind.GreaterThanEqualsToken);
   (lit "==", Kind.EqualsEqualsToken); (lit "!=", Kind.ExclamationEqualsToken);
   (lit "===", Kind.EqualsEqualsEqualsToken);
   (lit "!==", Kind.ExclamationEqualsEqualsToken); (lit "=>", Kind.EqualsGreaterThanToken);
   (lit "+", Kind.PlusToken); (lit "-", Kind.MinusToken);
   (lit "**", Kind.AsteriskAsteriskToken); (lit "*", Kind.AsteriskToken);
   (lit "/", Kind.SlashToken); (lit "%", Kind.PercentToken); (lit "++", Kind.PlusPlusToken);
   (lit "--", Kind.MinusMinusToken); (lit "<<", Kind.LessThanLessThanToken);
   (lit "</", Kind.LessThanSlashToken); (lit ">>", Kind.GreaterThanGreaterThanToken);
   (lit ">>>", Kind.GreaterThanGreaterThanGreaterThanToken); (lit "&", Kind.AmpersandToken);
   (lit "|", Kind.BarToken); (lit "^", Kind.CaretToken); (lit "!", Kind.ExclamationToken);
   (lit "~", Kind.TildeToken); (lit "&&", Kind.AmpersandAmpersandToken);
   (lit "||", Kind.BarBarToken); (lit "?", Kind.QuestionToken);
   (lit "??", Kind.QuestionQuestionToken); (lit "?.", Kind.QuestionDotToken);
   (lit ":", Kind.ColonToken); (lit "=", Kind.EqualsToken);
   (lit "+=", Kind.PlusEqualsToken); (lit "-=", Kind.MinusEqualsToken);
   (lit "*=", Kind.AsteriskEqualsToken); (lit "**=", Kind.AsteriskAsteriskEqualsToken);
   (lit "/=", Kind.SlashEqualsToken); (lit "%=", Kind.PercentEqualsToken);
   (lit "<<=", Kind.LessThanLessThanEqualsToken);
   (lit ">>=", Kind.GreaterThanGreaterThanEqualsToken);
   (lit ">>>=", Kind.GreaterThanGreaterThanGreaterThanEqualsToken);
   (lit "&=", Kind.AmpersandEqualsToken); (lit "|=", Kind.BarEqualsToken);
   (lit "^=", Kind.CaretEqualsToken); (lit "||=", Kind.BarBarEqualsToken);
   (lit "&&=", Kind.AmpersandAmpersandEqualsToken);
   (lit "??=", Kind.QuestionQuestionEqualsToken); (lit "@", Kind.AtToken);
   (lit "#", Kind.HashToken); (lit "`", Kind.BacktickToken)].

Definition token_is_identifier_or_keyword (token : Kind) : bool := Kind.leb Kind.Identifier token.

Definition keyword_kind (text : str) : option Kind :=
  snd <$> List.find (fun '(word, _) => word =s text) TEXT_TO_KEYWORD.

Definition get_identifier_token (text : str) : Kind :=
  match text with
  | b :: _ =>
      if (2 <=? length text)%nat && (length text <=? 12)%nat && is_ascii_lowercase b
      then default Kind.Identifier (keyword_kind text)
      else Kind.Identifier
  | [] => Kind.Identifier
  end.

Definition token_to_string (token : Kind) : str :=
  match List.find (fun '(_, kind) => Kind.eqb kind token) (TEXT_TO_KEYWORD ++ TEXT_TO_PUNCTUATION) with
  | Some (text, _) => text
  | None => []
  end.

(** ** Conflict markers *)

Definition MERGE_CONFLICT_MARKER_LENGTH : nat := 7.

(** The two preceding bytes decide whether [pos] starts a line: the second
    probe slices the text two bytes back. *)
Definition conflict_marker_at_line_start (text : str) (pos : nat) : result bool :=
  at_line_start ←
    (if (pos =? 0)%nat then Ok true
     else b ← unwrap (text !! (pos - 1)%nat); Ok (is_line_break b));
  if negb at_line_start && (2 <=? pos)%nat then
    '(prev, _) ← decode_last_rune text (pos - 2);
    Ok (is_line_break prev)
  else Ok at_line_start.

Definition is_conflict_marker_trivia (text : str) (pos : nat) : result bool :=
  if (length text <=? pos + 1)%nat then Ok false
  else
    next ← unwrap (text !! (pos + 1)%nat);
    ch ← unwrap (text !! pos);
    if negb (next =? ch) then Ok false
    else
      at_line_start ← conflict_marker_at_line_start text pos;
      if at_line_start : bool then
        if (pos + MERGE_CONFLICT_MARKER_LENGTH <? length text)%nat then
          if existsb (fun b => negb (b =? ch)) (take MERGE_CONFLICT_MARKER_LENGTH (drop pos text))
          then Ok false
          else
            after ← unwrap (text !! (pos + MERGE_CONFLICT_MARKER_LENGTH)%nat);
            Ok ((ch =r "=") || (after =r " "))
        else Ok false
      else Ok false.

(** The end of the marker: the line for [<] and [>], up to the next marker for
    the others. *)
Definition scan_conflict_marker_line (text : str) (pos : nat) (ch : Z) (size : nat) : result nat :=
  iterate (L := nat * Z * nat) (S (length text - pos)) (fun '(pos, ch, size) =>
    if (pos <? length text)%nat && negb (is_line_break ch) then
      let pos := (pos + size)%nat in
      '(ch, size) ← decode_rune text pos (length text);
      Ok (inl (pos, ch, size))
    else Ok (inr pos)) (pos, ch, size).

Definition scan_conflict_marker_body (text : str) (pos : nat) (ch : Z) : result nat :=
  iterate (L := nat) (S (length text - pos)) (fun pos =>
    if (pos <? length text)%nat then
      current ← unwrap (text !! pos);
      stop ←
        (if ((current =r "=") || (current =r ">")) && negb (current =? ch)
         then is_conflict_marker_trivia text pos else Ok false);
      if stop : bool then Ok (inr pos) else Ok (inl (S pos))
    else Ok (inr pos)) pos.

Definition scan_conflict_marker_trivia (text : str) (pos : nat) : result nat :=
  '(ch, size) ← decode_rune text pos (length text);
  if (ch =r "<") || (ch =r ">") then scan_conflict_marker_line text pos ch size
  else scan_conflict_marker_body text pos ch.

(** ** [skip_trivia] *)

(** The rest of a line comment or of a shebang line. *)
Definition skip_line (text : str) (pos : nat) : result nat :=
  iterate (L := nat) (S (length text - pos)) (fun pos =>
    if (pos <? length text)%nat then
      '(ch, size) ← decode_rune text pos (length text);
      if is_line_break ch then Ok (inr pos) else Ok (inl (pos + size)%nat)
    else Ok (inr pos)) pos.

(** The rest of a block comment, past its terminator when it has one. *)
Definition skip_block_comment (text : str) (pos : nat) : result nat :=
  iterate (L := nat) (S (length text - pos)) (fun pos =>
    if (pos <? length text)%nat then
      b ← unwrap (text !! pos);
      if (b =r "*") && bool_decide (text !! S pos = Some 47) then Ok (inr (pos + 2)%nat)
      else
        '(_, size) ← decode_rune text pos (length text);
        Ok (inl (pos + size)%nat)
    else Ok (inr pos)) pos.

(** One round: [inl] continues after a piece of trivia, [inr] is the answer. *)
Definition skip_trivia_step (text : str) (pos : nat) : result (nat + nat) :=
  if (length text <=? pos)%nat then Ok (inr pos)
  else
    '(ch, size) ← decode_rune text pos (length text);
    if ch =? 0x0D then
      if bool_decide (text !! S pos = Some 10) then Ok (inl (pos + 2)%nat) else Ok (inl (pos + 1)%nat)
    else if ch =? 0x0A then Ok (inl (pos + 1)%nat)
    else if (ch =? 0x09) || (ch =? 0x0B) || (ch =? 0x0C) || (ch =? 0x20) then Ok (inl (pos + 1)%nat)
    else if ch =? 0x2F then
      if bool_decide (text !! S pos = Some 47) then
        pos ← skip_line text (pos + 2); Ok (inl pos)
      else if bool_decide (text !! S pos = Some 42) then
        pos ← skip_block_comment text (pos + 2); Ok (inl pos)
      else Ok (inr pos)
    else if (ch =? 0x3C) || (ch =? 0x7C) || (ch =? 0x3D) || (ch =? 0x3E) then
      marker ← is_conflict_marker_trivia text pos;
      if marker : bool then pos ← scan_conflict_marker_trivia text pos; Ok (inl pos)
      else Ok (inr pos)
    else if ch =? 0x23 then
      if (pos =? 0)%nat && (2 <=? length text)%nat && bool_decide (text !! 1%nat = Some 33) then
        pos ← skip_line text 2; Ok (inl pos)
      else Ok (inr pos)
    else if (0x7F <? ch) && is_white_space_like ch then Ok (inl (pos + size)%nat)
    else Ok (inr pos).

Definition skip_trivia (text : str) (pos : nat) : result nat :=
  iterate (S (length text - pos)) (skip_trivia_step text) pos.
