(* ===== verification/ScanState.v ===== *)
(** * The scanner's state and its primitive operations

    [ScannerState] and [Scanner] of [surge-ts-tsc-syntax/src/scanner.rs], the
    state monad its methods are translated to, the accessors, the error
    reporting with its same-position dedup, and the reads of the text. *)

From S2P Require Import Prelude Utf8 Chars Kind Diagnostics ScanText.

Local Open Scope Z_scope.

(** ** State *)

Record ScannerState := {
  pos : nat;
  full_start_pos : nat;
  token_start : nat;
  token : Kind;
  token_value : str;
  token_flags : Z
}.

Definition default_state : ScannerState :=
  {| pos := 0; full_start_pos := 0; token_start := 0; token := Kind.Unknown;
     token_value := []; token_flags := TokenFlags.None |}.

Record Scanner := {
  text : str;
  end_ : nat;
  jsx : bool;
  skips_trivia : bool;
  state : ScannerState;
  diagnostics : list Diagnostic;
  has_parse_error : bool;
  language_version : ScriptTarget
}.

Definition new (text : str) (jsx : bool) : Scanner :=
  {| text := text; end_ := length text; jsx := jsx; skips_trivia := true; state := default_state;
     diagnostics := []; has_parse_error := false; language_version := ESNext |}.

(** Field updates. *)
Definition with_state (f : ScannerState -> ScannerState) (s : Scanner) : Scanner :=
  {| text := text s; end_ := end_ s; jsx := jsx s; skips_trivia := skips_trivia s; state := f (state s);
     diagnostics := diagnostics s; has_parse_error := has_parse_error s;
     language_version := language_version s |}.

Definition with_diagnostics (ds : list Diagnostic) (s : Scanner) : Scanner :=
  {| text := text s; end_ := end_ s; jsx := jsx s; skips_trivia := skips_trivia s; state := state s;
     diagnostics := ds; has_parse_error := true; language_version := language_version s |}.

Definition with_pos (p : nat) (st : ScannerState) : ScannerState :=
  {| pos := p; full_start_pos := full_start_pos st; token_start := token_start st; token := token st;
     token_value := token_value st; token_flags := token_flags st |}.
Definition with_full_start_pos (p : nat) (st : ScannerState) : ScannerState :=
  {| pos := pos st; full_start_pos := p; token_start := token_start st; token := token st;
     token_value := token_value st; token_flags := token_flags st |}.
Definition with_token_start (p : nat) (st : ScannerState) : ScannerState :=
  {| pos := pos st; full_start_pos := full_start_pos st; token_start := p; token := token st;
     token_value := token_value st; token_flags := token_flags st |}.
Definition with_token (k : Kind) (st : ScannerState) : ScannerState :=
  {| pos := pos st; full_start_pos := full_start_pos st; token_start := token_start st; token := k;
     token_value := token_value st; token_flags := token_flags st |}.
Definition with_token_value (v : str) (st : ScannerState) : ScannerState :=
  {| pos := pos st; full_start_pos := full_start_pos st; token_start := token_start st;
     token := token st; token_value := v; token_flags := token_flags st |}.
Definition with_token_flags (f : Z) (st : ScannerState) : ScannerState :=
  {| pos := pos st; full_start_pos := full_start_pos st; token_start := token_start st;
     token := token st; token_value := token_value st; token_flags := f |}.

(** ** The monad of the methods that take [&mut self] *)

Definition M (A : Type) : Type := Scanner -> result (A * Scanner).

#[export] Instance M_ret : MRet M := fun A a s => Ok (a, s).
#[export] Instance M_bind : MBind M := fun A B f m s =>
  match m s with Ok (a, s') => f a s' | Panic => Panic | OutOfFuel => OutOfFuel end.

Definition ret {A} (a : A) : M A := fun s => Ok (a, s).
Definition gets {A} (f : Scanner -> A) : M A := fun s => Ok (f s, s).
Definition modify (f : Scanner -> Scanner) : M unit := fun s => Ok (tt, f s).
Definition lift {A} (f : Scanner -> result A) : M A := fun s =>
  match f s with Ok a => Ok (a, s) | Panic => Panic | OutOfFuel => OutOfFuel end.
Definition when (b : bool) (m : M unit) : M unit := if b then m else ret tt.

(** A [loop] or [while] of a method with local variables [L]. *)
Definition loop_fuel {L A} (fuel : nat) (body : L -> M (L + A)) (init : L) : M A := fun s =>
  iterate (L := L * Scanner) fuel
    (fun '(l, s) =>
       match body l s with
       | Ok (inl l, s) => Ok (inl (l, s))
       | Ok (inr a, s) => Ok (inr (a, s))
       | Panic => Panic
       | OutOfFuel => OutOfFuel
       end) (init, s).

(** Most loops move the position forward with every further round, so the text
    left bounds the rounds. *)
Definition loop {L A} (body : L -> M (L + A)) (init : L) : M A := fun s =>
  loop_fuel (S (length (text s) - pos (state s))) body init s.

(** ** Accessors *)

Definition get_pos : M nat := gets (fun s => pos (state s)).
Definition get_token : M Kind := gets (fun s => token (state s)).
Definition get_token_start : M nat := gets (fun s => token_start (state s)).
Definition get_token_value : M str := gets (fun s => token_value (state s)).
Definition get_token_flags : M Z := gets (fun s => token_flags (state s)).

Definition set_pos (p : nat) : M unit := modify (with_state (with_pos p)).
Definition advance (n : nat) : M unit :=
  modify (with_state (fun st => with_pos (pos st + n)%nat st)).
(** [pos -= n]; its callers have advanced by at least as much. *)
Definition retreat (n : nat) : M unit :=
  modify (with_state (fun st => with_pos (pos st - n)%nat st)).
Definition set_token_start (p : nat) : M unit := modify (with_state (with_token_start p)).
Definition set_full_start_pos (p : nat) : M unit := modify (with_state (with_full_start_pos p)).
Definition set_token (k : Kind) : M unit := modify (with_state (with_token k)).
Definition set_token_value (v : str) : M unit := modify (with_state (with_token_value v)).
Definition set_token_flags (f : Z) : M unit := modify (with_state (with_token_flags f)).
(** [token_flags |= f] *)
Definition add_flags (f : Z) : M unit :=
  modify (with_state (fun st => with_token_flags (Z.lor (token_flags st) f) st)).

Definition token_full_start (s : Scanner) : nat := full_start_pos (state s).
Definition token_end (s : Scanner) : nat := pos (state s).
Definition token_text (s : Scanner) : result str :=
  unwrap (slice (text s) (token_start (state s)) (pos (state s))).

Definition mark : M ScannerState := gets state.
Definition rewind (st : ScannerState) : M unit := modify (with_state (fun _ => st)).

Definition reset_pos (p : nat) : M unit :=
  set_pos p ;; set_full_start_pos p ;; set_token_start p.
Definition reset_token_state (p : nat) : M unit :=
  reset_pos p ;; set_token Kind.Unknown ;; set_token_value [] ;; set_token_flags TokenFlags.None.

Definition has_unicode_escape (s : Scanner) : bool :=
  TokenFlags.has (token_flags (state s)) TokenFlags.UnicodeEscape.
Definition has_extended_unicode_escape (s : Scanner) : bool :=
  TokenFlags.has (token_flags (state s)) TokenFlags.ExtendedUnicodeEscape.
Definition has_preceding_line_break (s : Scanner) : bool :=
  TokenFlags.has (token_flags (state s)) TokenFlags.PrecedingLineBreak.

(** ** Errors *)

(** No second error at the position of the last one. *)
Definition push_error (d : Diagnostic) (ds : list Diagnostic) : list Diagnostic :=
  match last ds with
  | Some l => if (dstart l =? dstart d)%nat then ds else ds ++ [d]
  | None => ds ++ [d]
  end.

Definition error_at_range (start end_ : nat) (message : Message) (args : list str) : M unit :=
  modify (fun s =>
    with_diagnostics
      (push_error {| dstart := start; dend := end_; dmessage := message; dargs := args |} (diagnostics s)) s).

Definition error_at (message : Message) (start length : nat) (args : list str) : M unit :=
  error_at_range start (start + length) message args.

Definition error (message : Message) : M unit := p ← get_pos; error_at message p 0 [].

(** ** Reads *)

Definition byte_at (p : nat) : M Z :=
  lift (fun s => if (p <? end_ s)%nat then unwrap (text s !! p) else Ok EOF).

Definition char : M Z := p ← get_pos; byte_at p.
Definition char_at (offset : nat) : M Z := p ← get_pos; byte_at (p + offset)%nat.

Definition char_and_size : M (Z * nat) :=
  lift (fun s => decode_rune (text s) (pos (state s)) (length (text s))).

(** [&self.text[a..b]] *)
Definition text_slice (a b : nat) : M str := lift (fun s => unwrap (slice (text s) a b)).

(** [&self.text.as_bytes()[a..b]] *)
Definition bytes_slice (a b : nat) : M str := lift (fun s => unwrap (slice_range (text s) a b)).

Definition scan_ascii_while (pred : Z -> bool) : M unit :=
  loop (fun _ =>
    p ← get_pos;
    end_ ← gets end_;
    if (p <? end_)%nat then
      b ← lift (fun s => unwrap (text s !! p));
      if (0x80 <=? b) || negb (pred b) then ret (inr tt)
      else advance 1 ;; ret (inl tt)
    else ret (inr tt)) tt.

(** ** Weakest preconditions *)

Definition wp {A} (m : M A) (Q : A -> Scanner -> Prop) (s : Scanner) : Prop :=
  match m s with Ok (a, s') => Q a s' | _ => False end.

Section wp.
Context {A B : Type}.
Implicit Types m : M A.

Lemma wp_bind m (f : A -> M B) Q s : wp m (fun a => wp (f a) Q) s -> wp (m ≫= f) Q s.
Proof. unfold wp. unfold mbind, M_bind. by destruct (m s) as [[? ?]| |]. Qed.

Lemma wp_mono m (P Q : A -> Scanner -> Prop) s :
  wp m P s -> (forall a s', P a s' -> Q a s') -> wp m Q s.
Proof. unfold wp. destruct (m s) as [[? ?]| |]; auto. Qed.

Lemma wp_ok m Q s : wp m Q s <-> exists a s', m s = Ok (a, s') /\ Q a s'.
Proof.
  unfold wp. destruct (m s) as [[a' s']| |]; (split; [intros ?; try done; by eauto|]).
  all: intros (? & ? & ? & ?); by simplify_eq.
Qed.

Lemma wp_conj m (P Q : A -> Scanner -> Prop) s :
  wp m P s -> wp m Q s -> wp m (fun a s' => P a s' /\ Q a s') s.
Proof. unfold wp. destruct (m s) as [[? ?]| |]; auto. Qed.

Lemma wp_lift (f : Scanner -> result A) (Q : A -> Scanner -> Prop) s :
  returns (f s) (fun a => Q a s) -> wp (lift f) Q s.
Proof. unfold wp, lift. destruct (f s); auto. Qed.

Lemma wp_if (b : bool) (m n : M A) Q s :
  (b = true -> wp m Q s) -> (b = false -> wp n Q s) -> wp (if b then m else n) Q s.
Proof. destruct b; auto. Qed.
End wp.

(** A loop keeps an invariant, and a measure below the fuel decreases with
    every further round. *)
Lemma wp_loop_fuel {L A} (body : L -> M (L + A)) (I : L -> Scanner -> Prop) (m : L -> Scanner -> nat)
    (Q : A -> Scanner -> Prop) fuel init s :
  I init s -> (m init s < fuel)%nat ->
  (forall l s, I l s ->
     wp (body l) (fun r s' =>
       match r with inl l' => I l' s' /\ (m l' s' < m l s)%nat | inr a => Q a s' end) s) ->
  wp (loop_fuel fuel body init) Q s.
Proof.
  intros HI Hm Hbody. unfold wp, loop_fuel.
  assert (H : returns (iterate (L := L * Scanner) fuel (fun '(l, s) =>
       match body l s with
       | Ok (inl l, s) => Ok (inl (l, s))
       | Ok (inr a, s) => Ok (inr (a, s))
       | Panic => Panic
       | OutOfFuel => OutOfFuel
       end) (init, s)) (fun '(a, s') => Q a s')).
  - eapply (iterate_returns (fun '(l, s) => I l s) (fun '(l, s) => m l s)); [|done|done].
    intros [l1 s1] HI1. specialize (Hbody l1 s1 HI1). unfold wp in Hbody.
    by destruct (body l1 s1) as [[[l2|a] s2]| |].
  - unfold returns in H. by destruct (iterate _ _ _) as [[? ?]| |].
Qed.

(** A loop that moves the position forward, inside the text. *)
Lemma wp_loop {L A} (body : L -> M (L + A)) (I : L -> Scanner -> Prop) (Q : A -> Scanner -> Prop) init s :
  I init s ->
  (forall l s, I l s ->
     wp (body l) (fun r s' =>
       match r with
       | inl l' => I l' s' /\ text s' = text s /\ (pos (state s) < pos (state s') <= length (text s))%nat
       | inr a => Q a s'
       end) s) ->
  wp (loop body init) Q s.
Proof.
  intros HI Hbody. unfold loop.
  apply (wp_loop_fuel body (fun l s' => I l s' /\ text s' = text s)
           (fun _ s' => length (text s') - pos (state s'))%nat); [done|simpl; lia|].
  intros l s1 [HI1 Ht1]. eapply wp_mono; [by apply Hbody|].
  intros [l2|a] s2; [|done]. intros (HI2 & Ht2 & Hp). rewrite Ht2, Ht1 in *. split_and!; [done|done|lia].
Qed.
