(* ===== verification/ScanEscapes.v ===== *)
(** * Escapes, identifiers, strings and templates

    [scan_hex_digits], [scan_unicode_escape], [scan_escape_sequence_bytes],
    [scan_identifier], [scan_string] and
    [scan_template_and_set_token_value] of
    [surge-ts-tsc-syntax/src/scanner.rs]. *)

From S2P Require Import Prelude Utf8 RustStr Chars Kind Diagnostics ScanText ScanState.
Import Messages.

Local Open Scope Z_scope.

(** ** Escape flags *)

Definition ESCAPE_STRING : Z := Z.shiftl 1 0.
Definition ESCAPE_REPORT_ERRORS : Z := Z.shiftl 1 1.
Definition ESCAPE_REGULAR_EXPRESSION : Z := Z.shiftl 1 2.
Definition ESCAPE_ANNEX_B : Z := Z.shiftl 1 3.
Definition ESCAPE_ANY_UNICODE_MODE : Z := Z.shiftl 1 4.
Definition ESCAPE_ATOM_ESCAPE : Z := Z.shiftl 1 5.
Definition ESCAPE_REPORT_INVALID_ESCAPE_ERRORS : Z := Z.lor ESCAPE_REGULAR_EXPRESSION ESCAPE_REPORT_ERRORS.
Definition ESCAPE_ALLOW_EXTENDED_UNICODE_ESCAPE : Z := Z.lor ESCAPE_STRING ESCAPE_ANY_UNICODE_MODE.

(** [flags & f != 0] *)
Definition flag (flags f : Z) : bool := negb (Z.land flags f =? 0).

(** ** Digits *)

(** The report for a separator that is out of place. *)
Definition misplaced_separator (is_previous_token_separator : bool) (p : nat) : M unit :=
  if is_previous_token_separator
  then error_at Multiple_consecutive_numeric_separators_are_not_permitted p 1 []
  else error_at Numeric_separators_are_not_allowed_here p 1 [].

(** A trailing separator. *)
Definition trailing_separator (is_previous_token_separator : bool) : M unit :=
  when is_previous_token_separator
    (p ← get_pos; error_at Numeric_separators_are_not_allowed_here (p - 1)%nat 1 []).

Definition scan_hex_digits (min_count : nat) (scan_as_many_as_possible can_have_separators : bool) : M str :=
  start ← get_pos;
  '(digit_count, is_previous_token_separator) ←
    loop (L := nat * bool * bool) (fun '(digit_count, allow_separator, is_previous_token_separator) =>
      if (digit_count <? min_count)%nat || scan_as_many_as_possible then
        ch ← char;
        if is_hex_digit ch then
          advance 1 ;; ret (inl (S digit_count, can_have_separators, false))
        else if can_have_separators && (ch =r "_") then
          add_flags TokenFlags.ContainsSeparator ;;
          if allow_separator : bool then
            advance 1 ;; ret (inl (digit_count, false, true))
          else
            p ← get_pos;
            misplaced_separator is_previous_token_separator p ;;
            advance 1 ;; ret (inl (digit_count, allow_separator, is_previous_token_separator))
        else ret (inr (digit_count, is_previous_token_separator))
      else ret (inr (digit_count, is_previous_token_separator))) (0%nat, false, false);
  trailing_separator is_previous_token_separator ;;
  if (digit_count <? min_count)%nat then ret []
  else
    p ← get_pos;
    raw ← text_slice start p;
    ret (to_ascii_lowercase (replace (lit "_") [] raw)).

(** ** Unicode escapes *)

Definition i64_max : Z := 2 ^ 63 - 1.

(** [hex_value as i32] *)
Definition as_i32 (x : Z) : Z := (x + 2 ^ 31) mod 2 ^ 32 - 2 ^ 31.

(** The end of an extended escape [\u{...}]: whether it is invalid. *)
Definition finish_extended_escape (emit : bool) (start : nat) (hex_value : Z) : M bool :=
  invalid ←
    (if 0x10FFFF <? hex_value then
       p ← get_pos;
       when emit (error_at An_extended_Unicode_escape_value_must_be_between_0x0_and_0x10FFFF_inclusive
                    (start + 1)%nat (p - start - 1)%nat []) ;;
       ret true
     else ret false);
  p ← get_pos;
  end_ ← gets end_;
  if (end_ <=? p)%nat then when emit (error Unexpected_end_of_text) ;; ret true
  else
    ch ← char;
    if ch =r "}" then advance 1 ;; ret invalid
    else when emit (error Unterminated_Unicode_escape_sequence) ;; ret true.

Definition scan_unicode_escape (should_emit_invalid_escape_error : bool) : M Z :=
  advance 2 ;;
  start ← get_pos;
  ch ← char;
  let extended := ch =r "{" in
  hex_digits ←
    (if extended then advance 1 ;; scan_hex_digits 1 true false
     else add_flags TokenFlags.UnicodeEscape ;; scan_hex_digits 4 false false);
  match hex_digits with
  | [] =>
      add_flags TokenFlags.ContainsInvalidEscape ;;
      when should_emit_invalid_escape_error (error Hexadecimal_digit_expected) ;;
      ret (-1)
  | _ =>
      let hex_value := default i64_max (from_str_radix 16 i64_max hex_digits) in
      if extended then
        invalid ← finish_extended_escape should_emit_invalid_escape_error start hex_value;
        if invalid : bool then add_flags TokenFlags.ContainsInvalidEscape ;; ret (-1)
        else add_flags TokenFlags.ExtendedUnicodeEscape ;; ret (as_i32 hex_value)
      else ret (as_i32 hex_value)
  end.

Definition scan_low_surrogate_escape (high : Z) : M (option Z) :=
  c0 ← char;
  c1 ← char_at 1;
  if (c0 ≠r "\") || (c1 ≠r "u") then ret None
  else
    saved_pos ← get_pos;
    saved_flags ← get_token_flags;
    low ← scan_unicode_escape false;
    if is_low_surrogate low then ret (Some (surrogate_pair_to_code_point high low))
    else set_pos saved_pos ;; set_token_flags saved_flags ;; ret None.

Definition peek_unicode_escape : M Z :=
  c1 ← char_at 1;
  if c1 =r "u" then
    save_pos ← get_pos;
    save_flags ← get_token_flags;
    code_point ← scan_unicode_escape false;
    set_pos save_pos ;; set_token_flags save_flags ;; ret code_point
  else ret (-1).

(** ** Escape sequences *)

(** [format!("\\x{code:02x}")] *)
Definition hex_escape (code : Z) : str :=
  let digits := render 16 code in
  lit "\x" ++ replicate (2 - length digits) 48 ++ digits.

(** [\0] to [\377], the two bytes after the backslash already taken. *)
Definition scan_octal_escape (flags : Z) (start : nat) (ch : Z) (report_invalid : bool) : M str :=
  c ← char;
  if (ch =r "0") && negb (is_digit c) then ret [0]
  else
    when ((ch <=? 51) && is_octal_digit c) (advance 1) ;;
    c ← char;
    when (is_octal_digit c) (advance 1) ;;
    add_flags TokenFlags.ContainsInvalidEscape ;;
    p ← get_pos;
    if report_invalid then
      raw ← text_slice (start + 1) p;
      let code := default 0 (from_str_radix 8 (2 ^ 31 - 1) raw) in
      let arg := hex_escape code in
      (if flag flags ESCAPE_REGULAR_EXPRESSION && negb (flag flags ESCAPE_ATOM_ESCAPE) && (ch ≠r "0")
       then error_at Octal_escape_sequences_and_backreferences_are_not_allowed_in_a_character_class_If_this_was_intended_as_an_escape_sequence_use_the_syntax_0_instead
              start (p - start)%nat [arg]
       else error_at Octal_escape_sequences_are_not_allowed_Use_the_syntax_0 start (p - start)%nat [arg]) ;;
      ret (go_rune_string code)
    else bytes_slice start p.

(** [\8] and [\9]. *)
Definition scan_decimal_escape (flags : Z) (start : nat) (ch : Z) (report_invalid : bool) : M str :=
  add_flags TokenFlags.ContainsInvalidEscape ;;
  p ← get_pos;
  if report_invalid then
    (if flag flags ESCAPE_REGULAR_EXPRESSION && negb (flag flags ESCAPE_ATOM_ESCAPE)
     then error_at Decimal_escape_sequences_and_backreferences_are_not_allowed_in_a_character_class
            start (p - start)%nat []
     else raw ← text_slice start p; error_at Escape_sequence_0_is_not_allowed start (p - start)%nat [raw]) ;;
    ret (go_rune_string ch)
  else bytes_slice start p.

(** [\u....] and [\u{...}]. *)
Definition scan_u_escape (flags : Z) (start : nat) (report_invalid : bool) : M str :=
  c ← char;
  let extended := c =r "{" in
  retreat 2 ;;
  code_point ← scan_unicode_escape report_invalid;
  if extended then
    when (negb (flag flags ESCAPE_ALLOW_EXTENDED_UNICODE_ESCAPE))
      (add_flags TokenFlags.ContainsInvalidEscape ;;
       p ← get_pos;
       when report_invalid
         (error_at Unicode_escape_sequences_are_only_available_when_the_Unicode_u_flag_or_the_Unicode_Sets_v_flag_is_set
            start (p - start)%nat [])) ;;
    if code_point <? 0 then p ← get_pos; bytes_slice start p
    else if negb (flag flags ESCAPE_REGULAR_EXPRESSION) && is_high_surrogate code_point then
      low ← scan_low_surrogate_escape code_point;
      match low with
      | Some combined => ret (go_rune_string combined)
      | None => ret (encode_js_string_rune code_point)
      end
    else ret (encode_js_string_rune code_point)
  else if code_point <? 0 then p ← get_pos; bytes_slice start p
  else if is_high_surrogate code_point then
    if negb (flag flags ESCAPE_REGULAR_EXPRESSION) then
      low ← scan_low_surrogate_escape code_point;
      match low with
      | Some combined => ret (go_rune_string combined)
      | None => ret (encode_js_string_rune code_point)
      end
    else
      c0 ← char; c1 ← char_at 1; c2 ← char_at 2;
      if flag flags ESCAPE_ANY_UNICODE_MODE && (c0 =r "\") && (c1 =r "u") && (c2 ≠r "{") then
        saved_pos ← get_pos;
        next_code_point ← scan_unicode_escape report_invalid;
        if is_low_surrogate next_code_point
        then ret (go_rune_string (surrogate_pair_to_code_point code_point next_code_point))
        else set_pos saved_pos ;; ret (encode_js_string_rune code_point)
      else ret (encode_js_string_rune code_point)
  else ret (encode_js_string_rune code_point).

(** [\xHH]: up to two digits after the [x]. *)
Definition scan_x_escape (start : nat) (report_invalid : bool) : M str :=
  valid ← loop (L := unit) (fun _ =>
    p ← get_pos;
    if (p <? start + 4)%nat then
      c ← char;
      if negb (is_hex_digit c) then
        add_flags TokenFlags.ContainsInvalidEscape ;;
        when report_invalid (error Hexadecimal_digit_expected) ;;
        ret (inr false)
      else advance 1 ;; ret (inl tt)
    else ret (inr true)) tt;
  p ← get_pos;
  if valid : bool then
    add_flags TokenFlags.HexEscape ;;
    raw ← text_slice (start + 2) p;
    ret (go_rune_string (default 0 (from_str_radix 16 (2 ^ 31 - 1) raw)))
  else bytes_slice start p.

Section escapes.
Context `{UnicodeId}.

(** Any other character. *)
Definition scan_other_escape (flags : Z) (start : nat) (ch : Z) : M str :=
  ch ←
    (if 0x80 <=? ch then
       retreat 1 ;;
       '(decoded, size) ← char_and_size;
       advance size ;; ret decoded
     else ret ch);
  if (ch =? 0x2028) || (ch =? 0x2029) then ret []
  else
    p ← get_pos;
    when (flag flags ESCAPE_ANY_UNICODE_MODE
          || flag flags ESCAPE_REGULAR_EXPRESSION && negb (flag flags ESCAPE_ANNEX_B)
             && is_identifier_part ch)
      (error_at This_character_cannot_be_escaped_in_a_regular_expression start (p - start)%nat []) ;;
    ret (go_rune_string ch).

(** The escape's value as a Go string's bytes. *)
Definition scan_escape_sequence_bytes (flags : Z) : M str :=
  start ← get_pos;
  advance 1 ;;
  ch ← char;
  if ch <? 0 then error Unexpected_end_of_text ;; ret []
  else
    advance 1 ;;
    let report_invalid := flag flags ESCAPE_REPORT_INVALID_ESCAPE_ERRORS in
    if between 48 55 ch then scan_octal_escape flags start ch report_invalid
    else if between 56 57 ch then scan_decimal_escape flags start ch report_invalid
    else if ch =r "b" then ret [0x08]
    else if ch =r "t" then ret [0x09]
    else if ch =r "n" then ret [0x0A]
    else if ch =r "v" then ret [0x0B]
    else if ch =r "f" then ret [0x0C]
    else if ch =r "r" then ret [0x0D]
    else if ch =? 39 then ret [39]
    else if ch =? 34 then ret [34]
    else if ch =r "u" then scan_u_escape flags start report_invalid
    else if ch =r "x" then scan_x_escape start report_invalid
    else if ch =? 13 then
      c ← char;
      when (c =? 10) (advance 1) ;; ret []
    else if ch =? 10 then ret []
    else scan_other_escape flags start ch.

(** The runes of a Go string as a Rust string. *)
Definition rust_string_of (bytes : str) : result str :=
  iterate (L := str * str) (S (length bytes)) (fun '(out, rest) =>
    match rest with
    | [] => Ok (inr out)
    | _ =>
        let '(ch, size) := decode_js_string_rune rest in
        rest ← unwrap (slice_range rest (Nat.max size 1) (length rest));
        Ok (inl (push_rune out ch, rest))
    end) ([], bytes).

Definition scan_escape_sequence (flags : Z) : M str :=
  bytes ← scan_escape_sequence_bytes flags;
  lift (fun _ => rust_string_of bytes).

(** ** Identifiers *)

Definition scan_identifier_parts : M str :=
  start ← get_pos;
  '(out, start) ← loop (L := str * nat) (fun '(out, start) =>
    '(ch, size) ← char_and_size;
    if is_identifier_part ch then advance size ;; ret (inl (out, start))
    else if ch =r "\" then
      escaped ← peek_unicode_escape;
      if (0 <=? escaped) && is_identifier_part escaped then
        p ← get_pos;
        raw ← text_slice start p;
        rune ← scan_unicode_escape true;
        start ← get_pos;
        ret (inl (push_rune (out ++ raw) rune, start))
      else ret (inr (out, start))
    else ret (inr (out, start))) ([], start);
  p ← get_pos;
  raw ← text_slice start p;
  ret (out ++ raw).

(** The rest of an identifier that is not plain ASCII. *)
Definition scan_identifier_slow (start : nat) : M bool :=
  '(ch, size) ← char_and_size;
  if is_identifier_start ch then
    ch ← loop (L := nat) (fun size =>
      advance size ;;
      '(ch, size) ← char_and_size;
      if is_identifier_part ch then ret (inl size) else ret (inr ch)) size;
    p ← get_pos;
    value ← text_slice start p;
    value ←
      (if ch =r "\" then parts ← scan_identifier_parts; ret (value ++ parts) else ret value);
    set_token_value value ;; ret true
  else ret false.

Definition scan_identifier (prefix_length : nat) : M bool :=
  start ← get_pos;
  advance prefix_length ;;
  ch ← char;
  if is_ascii_letter ch || (ch =r "_") || (ch =r "$") then
    advance 1 ;;
    scan_ascii_while (fun b => is_ascii_alphanumeric b || (b =r "_") || (b =r "$")) ;;
    ch ← char;
    if (ch <? 0x80) && (ch ≠r "\") then
      p ← get_pos;
      value ← text_slice start p;
      set_token_value value ;; ret true
    else
      set_pos (start + prefix_length)%nat ;;
      scan_identifier_slow start
  else scan_identifier_slow start.

(** ** Strings *)

(** The whole string at once: up to the first quote, when nothing before it
    needs the loop. *)
Definition scan_string_fast (quote : Z) (jsx_attribute_string : bool) : M (option str) :=
  p ← get_pos;
  rest ← lift (fun s => unwrap (slice_from (text s) p));
  match position (fun b => b =? quote) rest with
  | Some O => advance 1 ;; ret (Some [])
  | Some len =>
      let s := take len rest in
      if jsx_attribute_string
         || negb (existsb (fun b => (b =r "\") || (b =? 13) || (b =? 10)) s)
      then advance (len + 1) ;; ret (Some s)
      else ret None
  | None => ret None
  end.

(** The unterminated end of a string. *)
Definition unterminated_string (out : str) (start : nat) : M str :=
  p ← get_pos;
  raw ← text_slice start p;
  add_flags TokenFlags.Unterminated ;;
  error Unterminated_string_literal ;;
  ret (out ++ raw).

Definition scan_string_loop (quote : Z) (jsx_attribute_string : bool) : M str :=
  start ← get_pos;
  loop (L := str * nat) (fun '(out, start) =>
    ch ← char;
    if ch <? 0 then value ← unterminated_string out start; ret (inr value)
    else if ch =? quote then
      p ← get_pos;
      raw ← text_slice start p;
      advance 1 ;; ret (inr (out ++ raw))
    else if (ch =r "\") && negb jsx_attribute_string then
      p ← get_pos;
      raw ← text_slice start p;
      escaped ← scan_escape_sequence (Z.lor ESCAPE_STRING ESCAPE_REPORT_ERRORS);
      start ← get_pos;
      ret (inl (out ++ raw ++ escaped, start))
    else if ((ch =? 10) || (ch =? 13)) && negb jsx_attribute_string then
      value ← unterminated_string out start; ret (inr value)
    else advance 1 ;; ret (inl (out, start))) ([], start).

Definition scan_string (jsx_attribute_string : bool) : M str :=
  quote ← char;
  when (quote =? 39) (add_flags TokenFlags.SingleQuote) ;;
  advance 1 ;;
  fast ← scan_string_fast quote jsx_attribute_string;
  match fast with
  | Some value => ret value
  | None => scan_string_loop quote jsx_attribute_string
  end.

(** ** Templates *)

(** One round: [inr (value, closed)] at the end of the literal or at a
    substitution. *)
Definition scan_template_step (started_with_backtick should_emit_invalid_escape_error : bool)
    : str * nat -> M (str * nat + str * Kind) := fun '(value, start) =>
  scan_ascii_while (fun b => (b ≠r "`") && (b ≠r "$") && (b ≠r "\") && negb (b =? 13)) ;;
  ch ← char;
  if (ch <? 0) || (ch =r "`") then
    p ← get_pos;
    raw ← text_slice start p;
    (if ch =r "`" then advance 1
     else add_flags TokenFlags.Unterminated ;; error Unterminated_template_literal) ;;
    ret (inr (value ++ raw,
      if started_with_backtick then Kind.NoSubstitutionTemplateLiteral else Kind.TemplateTail))
  else
    c1 ← char_at 1;
    if (ch =r "$") && (c1 =r "{") then
      p ← get_pos;
      raw ← text_slice start p;
      advance 2 ;;
      ret (inr (value ++ raw, if started_with_backtick then Kind.TemplateHead else Kind.TemplateMiddle))
    else if ch =r "\" then
      p ← get_pos;
      raw ← text_slice start p;
      let flags := Z.lor ESCAPE_STRING (if should_emit_invalid_escape_error then ESCAPE_REPORT_ERRORS else 0) in
      escaped ← scan_escape_sequence flags;
      start ← get_pos;
      ret (inl (value ++ raw ++ escaped, start))
    else if ch =? 13 then
      p ← get_pos;
      raw ← text_slice start p;
      advance 1 ;;
      c ← char;
      when (c =? 10) (advance 1) ;;
      start ← get_pos;
      ret (inl (value ++ raw ++ [10], start))
    else advance 1 ;; ret (inl (value, start)).

Definition scan_template_and_set_token_value (should_emit_invalid_escape_error : bool) : M Kind :=
  ch ← char;
  let started_with_backtick := ch =r "`" in
  advance 1 ;;
  start ← get_pos;
  '(value, token) ← loop (scan_template_step started_with_backtick should_emit_invalid_escape_error) ([], start);
  set_token_value value ;; ret token.
End escapes.
