(* ===== verification/ScanNumbers.v ===== *)
(** * Numeric literals

    [scan_number] and its helpers of [surge-ts-tsc-syntax/src/scanner.rs]. *)

From S2P Require Import Prelude Utf8 RustStr Chars Kind Diagnostics JsNumber ScanText ScanState ScanEscapes.
Import Messages.

Local Open Scope Z_scope.

Definition scan_number_fragment : M str :=
  start ← get_pos;
  '(result, start, is_previous_token_separator) ←
    loop (L := str * nat * bool * bool) (fun '(result, start, allow_separator, is_previous_token_separator) =>
      before ← get_pos;
      scan_ascii_while is_ascii_digit ;;
      p ← get_pos;
      let allow_separator := if (before <? p)%nat then true else allow_separator in
      let is_previous_token_separator := if (before <? p)%nat then false else is_previous_token_separator in
      ch ← char;
      if ch =r "_" then
        add_flags TokenFlags.ContainsSeparator ;;
        '(result, allow_separator, is_previous_token_separator) ←
          (if allow_separator then
             raw ← text_slice start p;
             ret (result ++ raw, false, true)
           else
             add_flags TokenFlags.ContainsInvalidSeparator ;;
             misplaced_separator is_previous_token_separator p ;;
             ret (result, allow_separator, is_previous_token_separator));
        advance 1 ;;
        start ← get_pos;
        ret (inl (result, start, allow_separator, is_previous_token_separator))
      else ret (inr (result, start, is_previous_token_separator))) ([], start, false, false);
  when is_previous_token_separator
    (add_flags TokenFlags.ContainsInvalidSeparator ;;
     p ← get_pos;
     error_at Numeric_separators_are_not_allowed_here (p - 1)%nat 1 []) ;;
  p ← get_pos;
  raw ← text_slice start p;
  match result with
  | [] => ret raw
  | _ => ret (result ++ raw)
  end.

Definition scan_digits : M (str * bool) :=
  start ← get_pos;
  is_octal ← loop (L := bool) (fun is_octal =>
    ch ← char;
    if is_digit ch then
      advance 1 ;; ret (inl (if negb (is_octal_digit ch) then false else is_octal))
    else ret (inr is_octal)) true;
  p ← get_pos;
  raw ← text_slice start p;
  ret (raw, is_octal).

Definition scan_binary_or_octal_digits (base : Z) : M str :=
  '(out, is_previous_token_separator) ←
    loop (L := str * bool * bool) (fun '(out, allow_separator, is_previous_token_separator) =>
      ch ← char;
      if is_digit ch && (ch - 48 <? base) then
        advance 1 ;; ret (inl (out ++ [ch], true, false))
      else if ch =r "_" then
        add_flags TokenFlags.ContainsSeparator ;;
        if allow_separator : bool then
          advance 1 ;; ret (inl (out, false, true))
        else
          p ← get_pos;
          misplaced_separator is_previous_token_separator p ;;
          advance 1 ;; ret (inl (out, allow_separator, is_previous_token_separator))
      else ret (inr (out, is_previous_token_separator))) ([], false, false);
  trailing_separator is_previous_token_separator ;;
  ret out.

Definition scan_big_int_suffix : M Kind :=
  ch ← char;
  value ← get_token_value;
  if ch =r "n" then
    set_token_value (value ++ lit "n") ;;
    advance 1 ;;
    ret Kind.BigIntLiteral
  else set_token_value (js_number_string value) ;; ret Kind.NumericLiteral.

Definition u64_max : Z := 2 ^ 64 - 1.

(** A legacy octal literal [017]: its value and the error that offers [0o17].
    The error also covers a preceding minus sign. *)
Definition legacy_octal_literal (start : nat) (digits : str) : M unit :=
  let value := default 0 (from_str_radix 8 u64_max digits) in
  set_token_value (render 10 value) ;;
  add_flags TokenFlags.Octal ;;
  token ← get_token;
  let with_minus := Kind.eqb token Kind.MinusToken in
  let literal := (if with_minus then lit "-" else []) ++ lit "0o" ++ render 8 value in
  start ←
    (if with_minus then
       lift (fun _ => unwrap (match start with O => None | S start => Some start end))
     else ret start);
  p ← get_pos;
  error_at Octal_literals_are_not_allowed_Use_the_syntax_0 start (p - start)%nat [literal].

(** The part before the point, from a leading zero: [None] when the literal
    was a legacy octal one and is complete. *)
Definition scan_leading_zero (start : nat) : M (option str) :=
  advance 1 ;;
  ch ← char;
  if ch =r "_" then
    add_flags (Z.lor TokenFlags.ContainsSeparator TokenFlags.ContainsInvalidSeparator) ;;
    p ← get_pos;
    error_at Numeric_separators_are_not_allowed_here p 1 [] ;;
    set_pos start ;;
    fixed_part ← scan_number_fragment;
    ret (Some fixed_part)
  else
    '(digits, is_octal) ← scan_digits;
    match digits with
    | [] => ret (Some (lit "0"))
    | _ =>
        if negb is_octal then
          add_flags TokenFlags.ContainsLeadingZero ;; ret (Some digits)
        else legacy_octal_literal start digits ;; ret None
    end.

(** The fraction and the exponent: the fraction, the exponent's preamble and
    digits, and the end of the literal without a malformed exponent. *)
Definition scan_fraction_and_exponent : M (str * str * str * nat) :=
  ch ← char;
  fractional_part ←
    (if ch =r "." then advance 1 ;; scan_number_fragment else ret []);
  end_ ← get_pos;
  ch ← char;
  if (ch =r "E") || (ch =r "e") then
    advance 1 ;;
    add_flags TokenFlags.Scientific ;;
    ch ← char;
    when ((ch =r "+") || (ch =r "-")) (advance 1) ;;
    start_numeric_part ← get_pos;
    exponent_part ← scan_number_fragment;
    match exponent_part with
    | [] => error Digit_expected ;; ret (fractional_part, [], [], end_)
    | _ =>
        exponent_preamble ← text_slice end_ start_numeric_part;
        end_ ← get_pos;
        ret (fractional_part, exponent_preamble, exponent_part, end_)
    end
  else ret (fractional_part, [], [], end_).

(** The literal's value as it is written, without separators. *)
Definition set_number_value (start : nat) (fixed_part fractional_part preamble exponent_part : str)
    (end_ : nat) : M unit :=
  flags ← get_token_flags;
  if TokenFlags.has flags TokenFlags.ContainsSeparator then
    set_token_value
      (fixed_part
       ++ match fractional_part with [] => [] | _ => lit "." ++ fractional_part end
       ++ match exponent_part with [] => [] | _ => preamble ++ exponent_part end)
  else value ← text_slice start end_; set_token_value value.

Section numbers.
Context `{UnicodeId}.

(** An identifier right after a numeric literal. *)
Definition check_following_identifier (start fixed_part_end : nat) (result : Kind) : M Kind :=
  '(ch, _) ← char_and_size;
  if is_identifier_start ch then
    id_start ← get_pos;
    id ← scan_identifier_parts;
    first ← lift (fun s => unwrap (text s !! id_start));
    flags ← get_token_flags;
    p ← get_pos;
    let bigint_suffix :=
      negb (Kind.eqb result Kind.BigIntLiteral) && (length id =? 1)%nat && (first =r "n") in
    if bigint_suffix && TokenFlags.has flags TokenFlags.Scientific then
      error_at A_bigint_literal_cannot_use_exponential_notation start (p - start)%nat [] ;; ret result
    else if bigint_suffix && (fixed_part_end <? id_start)%nat then
      error_at A_bigint_literal_must_be_an_integer start (p - start)%nat [] ;; ret result
    else
      error_at An_identifier_or_keyword_cannot_immediately_follow_a_numeric_literal
        id_start (p - id_start)%nat [] ;;
      set_pos id_start ;; ret result
  else ret result.

Definition scan_number_rest (start : nat) (fixed_part : str) : M Kind :=
  fixed_part_end ← get_pos;
  '(fractional_part, preamble, exponent_part, end_) ← scan_fraction_and_exponent;
  set_number_value start fixed_part fractional_part preamble exponent_part end_ ;;
  flags ← get_token_flags;
  p ← get_pos;
  value ← get_token_value;
  if TokenFlags.has flags TokenFlags.ContainsLeadingZero then
    error_at Decimals_with_leading_zeros_are_not_allowed start (p - start)%nat [] ;;
    set_token_value (js_number_string value) ;;
    ret Kind.NumericLiteral
  else
    result ←
      (if (fixed_part_end =? p)%nat then scan_big_int_suffix
       else set_token_value (js_number_string value) ;; ret Kind.NumericLiteral);
    check_following_identifier start fixed_part_end result.

Definition scan_number : M Kind :=
  start ← get_pos;
  ch ← char;
  if ch =r "0" then
    fixed_part ← scan_leading_zero start;
    match fixed_part with
    | None => ret Kind.NumericLiteral
    | Some fixed_part => scan_number_rest start fixed_part
    end
  else
    fixed_part ← scan_number_fragment;
    scan_number_rest start fixed_part.
End numbers.
