(* ===== verification/Scan.v ===== *)
(** * The token scanner

    [Scanner::scan] of [surge-ts-tsc-syntax/src/scanner.rs], one definition
    per group of arms of its [match]. An arm answers whether the scanning
    continues (trivia was skipped) or the token is complete. *)

From S2P Require Import Prelude Utf8 RustStr Chars Kind Diagnostics JsNumber ScanText ScanState ScanEscapes ScanNumbers.
Import Messages.

Local Open Scope Z_scope.

(** The answers of an arm. *)
Definition continue : M bool := ret true.
Definition finish (k : Kind) : M bool := set_token k ;; ret false.

Definition one (kind : Kind) : M bool := advance 1 ;; finish kind.
(** [pos += n; token = kind] *)
Definition take_token (n : nat) (kind : Kind) : M bool := advance n ;; finish kind.

Definition two (next : Z) (double single : Kind) : M bool :=
  c1 ← char_at 1;
  if c1 =? next then take_token 2 double else take_token 1 single.

(** After trivia: the next round, or the trivia token. *)
Definition trivia (kind : Kind) : M bool :=
  skip ← gets skips_trivia;
  if skip : bool then continue else finish kind.

(** ** White space and line breaks *)

Definition scan_single_line_spaces : M unit :=
  loop (L := unit) (fun _ =>
    '(ch, size) ← char_and_size;
    if negb (is_white_space_single_line ch) then ret (inr tt)
    else advance size ;; ret (inl tt)) tt.

Definition scan_whitespace : M bool :=
  advance 1 ;;
  skip ← gets skips_trivia;
  if skip : bool then continue
  else scan_single_line_spaces ;; finish Kind.WhitespaceTrivia.

Definition scan_newline (c : Z) : M bool :=
  add_flags TokenFlags.PrecedingLineBreak ;;
  skip ← gets skips_trivia;
  if skip : bool then
    advance 1 ;;
    scan_ascii_while (fun b => (b =? 32) || between 9 13 b) ;;
    continue
  else
    c1 ← char_at 1;
    if (c =? 13) && (c1 =? 10) then take_token 2 Kind.NewLineTrivia else take_token 1 Kind.NewLineTrivia.

(** ** Punctuation *)

Definition scan_exclamation : M bool :=
  c1 ← char_at 1;
  if c1 =r "=" then
    c2 ← char_at 2;
    if c2 =r "=" then take_token 3 Kind.ExclamationEqualsEqualsToken
    else take_token 2 Kind.ExclamationEqualsToken
  else take_token 1 Kind.ExclamationToken.

Definition scan_ampersand : M bool :=
  next ← char_at 1;
  if next =r "&" then
    c2 ← char_at 2;
    if c2 =r "=" then take_token 3 Kind.AmpersandAmpersandEqualsToken
    else take_token 2 Kind.AmpersandAmpersandToken
  else if next =r "=" then take_token 2 Kind.AmpersandEqualsToken
  else take_token 1 Kind.AmpersandToken.

Definition scan_asterisk : M bool :=
  next ← char_at 1;
  if next =r "=" then take_token 2 Kind.AsteriskEqualsToken
  else if next =r "*" then
    c2 ← char_at 2;
    if c2 =r "=" then take_token 3 Kind.AsteriskAsteriskEqualsToken
    else take_token 2 Kind.AsteriskAsteriskToken
  else take_token 1 Kind.AsteriskToken.

Definition scan_plus : M bool :=
  next ← char_at 1;
  if next =r "=" then take_token 2 Kind.PlusEqualsToken
  else if next =r "+" then take_token 2 Kind.PlusPlusToken
  else take_token 1 Kind.PlusToken.

Definition scan_minus : M bool :=
  next ← char_at 1;
  if next =r "=" then take_token 2 Kind.MinusEqualsToken
  else if next =r "-" then take_token 2 Kind.MinusMinusToken
  else take_token 1 Kind.MinusToken.

Definition scan_question : M bool :=
  c1 ← char_at 1;
  c2 ← char_at 2;
  if (c1 =r ".") && negb (is_digit c2) then take_token 2 Kind.QuestionDotToken
  else if c1 =r "?" then
    if c2 =r "=" then take_token 3 Kind.QuestionQuestionEqualsToken
    else take_token 2 Kind.QuestionQuestionToken
  else take_token 1 Kind.QuestionToken.

(** ** Comments *)

(** The rest of a line, of a comment or a shebang: [ascii] first skips the
    ASCII part of every round. *)
Definition scan_line_comment : M bool :=
  advance 2 ;;
  loop (L := unit) (fun _ =>
    scan_ascii_while (fun b => negb (b =? 10) && negb (b =? 13)) ;;
    '(ch1, size) ← char_and_size;
    if (size =? 0)%nat || is_line_break ch1 then ret (inr tt)
    else advance size ;; ret (inl tt)) tt ;;
  trivia Kind.SingleLineCommentTrivia.

Definition scan_block_comment : M bool :=
  advance 2 ;;
  comment_closed ← loop (L := unit) (fun _ =>
    scan_ascii_while (fun b => (b ≠r "*") && negb (b =? 10) && negb (b =? 13)) ;;
    '(ch1, size) ← char_and_size;
    if (size =? 0)%nat then ret (inr false)
    else
      c1 ← char_at 1;
      if (ch1 =r "*") && (c1 =r "/") then advance 2 ;; ret (inr true)
      else
        advance size ;;
        when (is_line_break ch1) (add_flags TokenFlags.PrecedingLineBreak) ;;
        ret (inl tt)) tt;
  when (negb comment_closed) (error Asterisk_Slash_expected) ;;
  skip ← gets skips_trivia;
  if skip : bool then continue
  else
    when (negb comment_closed) (add_flags TokenFlags.Unterminated) ;;
    finish Kind.MultiLineCommentTrivia.

Definition scan_slash : M bool :=
  c1 ← char_at 1;
  if c1 =r "/" then scan_line_comment
  else if c1 =r "*" then scan_block_comment
  else two 61 Kind.SlashEqualsToken Kind.SlashToken.

(** ** Conflict markers and the tokens that can start one *)

Definition scan_conflict_marker (p : nat) : M nat :=
  error_at Merge_conflict_marker_encountered p MERGE_CONFLICT_MARKER_LENGTH [] ;;
  lift (fun s => scan_conflict_marker_trivia (text s) p).

(** [otherwise] unless a marker of the character [c] starts here. *)
Definition conflict_marker_or (c : Z) (otherwise : M bool) : M bool :=
  c1 ← char_at 1;
  p ← get_pos;
  marker ← (if c1 =? c then lift (fun s => is_conflict_marker_trivia (text s) p) else ret false);
  if marker : bool then
    p ← scan_conflict_marker p;
    set_pos p ;;
    trivia Kind.ConflictMarkerTrivia
  else otherwise.

Definition scan_less_than : M bool :=
  conflict_marker_or 60
    (c1 ← char_at 1;
     c2 ← char_at 2;
     is_jsx ← gets jsx;
     if c1 =r "<" then
       if c2 =r "=" then take_token 3 Kind.LessThanLessThanEqualsToken
       else take_token 2 Kind.LessThanLessThanToken
     else if c1 =r "=" then take_token 2 Kind.LessThanEqualsToken
     else if is_jsx && (c1 =r "/") && (c2 ≠r "*") then take_token 2 Kind.LessThanSlashToken
     else take_token 1 Kind.LessThanToken).

Definition scan_equals : M bool :=
  conflict_marker_or 61
    (c1 ← char_at 1;
     if c1 =r "=" then
       c2 ← char_at 2;
       if c2 =r "=" then take_token 3 Kind.EqualsEqualsEqualsToken
       else take_token 2 Kind.EqualsEqualsToken
     else if c1 =r ">" then take_token 2 Kind.EqualsGreaterThanToken
     else take_token 1 Kind.EqualsToken).

Definition scan_greater_than : M bool := conflict_marker_or 62 (one Kind.GreaterThanToken).

Definition scan_bar : M bool :=
  conflict_marker_or 124
    (c1 ← char_at 1;
     if c1 =r "|" then
       c2 ← char_at 2;
       if c2 =r "=" then take_token 3 Kind.BarBarEqualsToken
       else take_token 2 Kind.BarBarToken
     else if c1 =r "=" then take_token 2 Kind.BarEqualsToken
     else take_token 1 Kind.BarToken).

(** [0x], [0b] and [0o] literals. *)
Definition scan_hex_literal : M bool :=
  start ← get_pos;
  advance 2 ;;
  digits ← scan_hex_digits 1 true true;
  digits ←
    (match digits with
     | [] => error Hexadecimal_digit_expected ;; ret (lit "0")
     | _ => ret digits
     end);
  p ← get_pos;
  raw ← text_slice start p;
  set_token_value
    (if starts_with (lit "0x") raw && (drop 2 raw =s digits) then raw else lit "0x" ++ digits) ;;
  add_flags TokenFlags.HexSpecifier ;;
  k ← scan_big_int_suffix;
  finish k.

Definition scan_radix_literal (base : Z) (prefix : str) (expected : Message) (specifier : Z) : M bool :=
  advance 2 ;;
  digits ← scan_binary_or_octal_digits base;
  digits ← (match digits with [] => error expected ;; ret (lit "0") | _ => ret digits end);
  set_token_value (prefix ++ digits) ;;
  add_flags specifier ;;
  k ← scan_big_int_suffix;
  finish k.

Section scan.
Context `{UnicodeId}.

(** ** Literals and names *)

Definition scan_string_literal : M bool :=
  value ← scan_string false;
  set_token_value value ;;
  finish Kind.StringLiteral.

Definition scan_backtick : M bool :=
  k ← scan_template_and_set_token_value false;
  finish k.

Definition scan_dot : M bool :=
  next ← char_at 1;
  c2 ← char_at 2;
  if is_digit next then k ← scan_number; finish k
  else if (next =r ".") && (c2 =r ".") then take_token 3 Kind.DotDotDotToken
  else take_token 1 Kind.DotToken.

Definition scan_digit (c : Z) : M bool :=
  c1 ← char_at 1;
  if (c =r "0") && ((c1 =r "X") || (c1 =r "x")) then scan_hex_literal
  else if (c =r "0") && ((c1 =r "B") || (c1 =r "b")) then
    scan_radix_literal 2 (lit "0b") Binary_digit_expected TokenFlags.BinarySpecifier
  else if (c =r "0") && ((c1 =r "O") || (c1 =r "o")) then
    scan_radix_literal 8 (lit "0o") Octal_digit_expected TokenFlags.OctalSpecifier
  else k ← scan_number; finish k.

Definition scan_invalid_character : M unit :=
  '(_, size) ← char_and_size;
  p ← get_pos;
  error_at Invalid_character p size [] ;;
  advance size ;;
  set_token Kind.Unknown.

(** An escape that starts a name, [prefix] before it. *)
Definition scan_escaped_name (prefix : str) : M str :=
  escaped ← scan_unicode_escape true;
  parts ← scan_identifier_parts;
  ret (push_rune prefix escaped ++ parts).

Definition scan_backslash : M bool :=
  cp ← peek_unicode_escape;
  if (0 <=? cp) && is_identifier_start cp then
    value ← scan_escaped_name [];
    set_token_value value ;;
    finish (get_identifier_token value)
  else scan_invalid_character ;; ret false.

(** A shebang line. *)
Definition scan_shebang : M bool :=
  advance 2 ;;
  loop (L := unit) (fun _ =>
    '(ch, size) ← char_and_size;
    if (size =? 0)%nat || is_line_break ch then ret (inr tt)
    else advance size ;; ret (inl tt)) tt ;;
  continue.

(** A private name written plainly. *)
Definition scan_private_identifier : M bool :=
  found ← scan_identifier 1;
  when (negb found)
    (p ← get_pos;
     error_at Invalid_character (p - 1)%nat 1 [] ;;
     set_token_value (lit "#")) ;;
  finish Kind.PrivateIdentifier.

Definition scan_hash : M bool :=
  c1 ← char_at 1;
  p ← get_pos;
  if c1 =r "!" then
    if (p =? 0)%nat then scan_shebang
    else
      error_at X_can_only_be_used_at_the_start_of_a_file p 2 [] ;;
      take_token 1 Kind.Unknown
  else if c1 =r "\" then
    advance 1 ;;
    cp ← peek_unicode_escape;
    if (0 <=? cp) && is_identifier_start cp then
      value ← scan_escaped_name (lit "#");
      set_token_value value ;;
      finish Kind.PrivateIdentifier
    else retreat 1 ;; scan_private_identifier
  else scan_private_identifier.

(** ** Everything else: names, other white space, the end of the text *)

Definition scan_default (ch : Z) : M bool :=
  if ch <? 0 then finish Kind.EndOfFile
  else
    found ← scan_identifier 0;
    if found : bool then
      value ← get_token_value;
      finish (get_identifier_token value)
    else
      '(ch, size) ← char_and_size;
      if ch =? RUNE_ERROR then
        error_at File_appears_to_be_binary 0 0 [] ;;
        len ← gets (fun s => length (text s));
        set_pos len ;;
        finish Kind.NonTextFileMarkerTrivia
      else if is_white_space_single_line ch then
        advance size ;;
        skip ← gets skips_trivia;
        if (ch =? 0x85) || skip then continue
        else scan_single_line_spaces ;; finish Kind.WhitespaceTrivia
      else if is_line_break ch then
        add_flags TokenFlags.PrecedingLineBreak ;;
        advance size ;;
        continue
      else scan_invalid_character ;; ret false.

(** ** The dispatch on the first byte *)

Definition scan_step : M bool :=
  ch ← char;
  p ← get_pos;
  set_token_start p ;;
  if (ch =? 9) || (ch =? 0x0B) || (ch =? 0x0C) || (ch =? 32) then scan_whitespace
  else if (ch =? 10) || (ch =? 13) then scan_newline ch
  else if ch =r "!" then scan_exclamation
  else if (ch =? 34) || (ch =? 39) then scan_string_literal
  else if ch =r "`" then scan_backtick
  else if ch =r "%" then two 61 Kind.PercentEqualsToken Kind.PercentToken
  else if ch =r "&" then scan_ampersand
  else if ch =r "(" then one Kind.OpenParenToken
  else if ch =r ")" then one Kind.CloseParenToken
  else if ch =r "*" then scan_asterisk
  else if ch =r "+" then scan_plus
  else if ch =r "," then one Kind.CommaToken
  else if ch =r "-" then scan_minus
  else if ch =r "." then scan_dot
  else if ch =r "/" then scan_slash
  else if between 48 57 ch then scan_digit ch
  else if ch =r ":" then one Kind.ColonToken
  else if ch =r ";" then one Kind.SemicolonToken
  else if ch =r "<" then scan_less_than
  else if ch =r "=" then scan_equals
  else if ch =r ">" then scan_greater_than
  else if ch =r "?" then scan_question
  else if ch =r "[" then one Kind.OpenBracketToken
  else if ch =r "]" then one Kind.CloseBracketToken
  else if ch =r "^" then two 61 Kind.CaretEqualsToken Kind.CaretToken
  else if ch =r "{" then one Kind.OpenBraceToken
  else if ch =r "|" then scan_bar
  else if ch =r "}" then one Kind.CloseBraceToken
  else if ch =r "~" then one Kind.TildeToken
  else if ch =r "@" then one Kind.AtToken
  else if ch =r "\" then scan_backslash
  else if ch =r "#" then scan_hash
  else scan_default ch.

Definition scan : M Kind :=
  p ← get_pos;
  set_full_start_pos p ;;
  set_token_flags TokenFlags.None ;;
  loop (L := unit) (fun _ =>
    again ← scan_step;
    if again : bool then ret (inl tt)
    else k ← get_token; ret (inr k)) tt.
End scan.
