(* ===== verification/Rescan.v ===== *)
(** * Rescans and JSX scanning

    The [re_scan_*] and [scan_jsx_*] methods of
    [surge-ts-tsc-syntax/src/scanner.rs]. *)

From S2P Require Import Prelude Utf8 RustStr Chars Kind Diagnostics ScanText ScanState ScanEscapes ScanNumbers Scan.
Import Messages.

Local Open Scope Z_scope.

(** ** Punctuation *)

Definition re_scan_less_than_token : M Kind :=
  k ← get_token;
  start ← get_token_start;
  when (Kind.eqb k Kind.LessThanLessThanToken)
    (set_pos (start + 1)%nat ;; set_token Kind.LessThanToken) ;;
  get_token.

(** [pos += n; token = kind] *)
Definition retake (n : nat) (kind : Kind) : M unit := advance n ;; set_token kind.

Definition re_scan_greater_than_token : M Kind :=
  k ← get_token;
  start ← get_token_start;
  when (Kind.eqb k Kind.GreaterThanToken)
    (set_pos (start + 1)%nat ;;
     c0 ← char;
     c1 ← char_at 1;
     c2 ← char_at 2;
     if c0 =r ">" then
       if c1 =r ">" then
         if c2 =r "=" then retake 3 Kind.GreaterThanGreaterThanGreaterThanEqualsToken
         else retake 2 Kind.GreaterThanGreaterThanGreaterThanToken
       else if c1 =r "=" then retake 2 Kind.GreaterThanGreaterThanEqualsToken
       else retake 1 Kind.GreaterThanGreaterThanToken
     else when (c0 =r "=") (retake 1 Kind.GreaterThanEqualsToken)) ;;
  get_token.

Definition re_scan_asterisk_equals_token : M Kind :=
  start ← get_token_start;
  set_pos (start + 1)%nat ;;
  set_token Kind.EqualsToken ;;
  get_token.

Definition re_scan_question_token : M Kind :=
  start ← get_token_start;
  set_pos (start + 1)%nat ;;
  set_token Kind.QuestionToken ;;
  get_token.

(** ** Regular expressions *)

Definition RegularExpressionFlags : Type := Z.
Definition FLAGS_NONE : RegularExpressionFlags := 0.
Definition FLAGS_HAS_INDICES : RegularExpressionFlags := Z.shiftl 1 0.
Definition FLAGS_GLOBAL : RegularExpressionFlags := Z.shiftl 1 1.
Definition FLAGS_IGNORE_CASE : RegularExpressionFlags := Z.shiftl 1 2.
Definition FLAGS_MULTILINE : RegularExpressionFlags := Z.shiftl 1 3.
Definition FLAGS_DOT_ALL : RegularExpressionFlags := Z.shiftl 1 4.
Definition FLAGS_UNICODE : RegularExpressionFlags := Z.shiftl 1 5.
Definition FLAGS_UNICODE_SETS : RegularExpressionFlags := Z.shiftl 1 6.
Definition FLAGS_STICKY : RegularExpressionFlags := Z.shiftl 1 7.
Definition FLAGS_ANY_UNICODE_MODE : RegularExpressionFlags := Z.lor FLAGS_UNICODE FLAGS_UNICODE_SETS.

(** [regexp::char_code_to_reg_exp_flag]. *)
Definition char_code_to_reg_exp_flag (ch : Z) : option RegularExpressionFlags :=
  if ch =r "d" then Some FLAGS_HAS_INDICES
  else if ch =r "g" then Some FLAGS_GLOBAL
  else if ch =r "i" then Some FLAGS_IGNORE_CASE
  else if ch =r "m" then Some FLAGS_MULTILINE
  else if ch =r "s" then Some FLAGS_DOT_ALL
  else if ch =r "u" then Some FLAGS_UNICODE
  else if ch =r "v" then Some FLAGS_UNICODE_SETS
  else if ch =r "y" then Some FLAGS_STICKY
  else None.

Definition reg_exp_flag_to_first_available_language_version (flag : Z) : option ScriptTarget :=
  if flag =? FLAGS_HAS_INDICES then Some ES2022
  else if flag =? FLAGS_DOT_ALL then Some ES2018
  else if flag =? FLAGS_UNICODE_SETS then Some ES2024
  else None.

Definition check_regular_expression_flag_availability (flag : Z) (p size : nat) : M unit :=
  version ← gets language_version;
  match reg_exp_flag_to_first_available_language_version flag with
  | Some available_from =>
      when (target_rank version <? target_rank available_from)
        (error_at This_regular_expression_flag_is_only_available_when_targeting_0_or_later
           p size [target_name available_from])
  | None => ret tt
  end.

(** Where a body ends: the closing slash outside a class and an escape, or,
    [unterminated], a line break or the end; and whether it has a named group. *)
Record body_end := { body_end_pos : nat; unterminated : bool; named_capture_groups : bool }.

(** A group opened by [(?<] and not a lookbehind. *)
Definition is_named_group (text : str) (end_ p : nat) (ch : Z) : result bool :=
  let byte i := unwrap (text !! (p + i)%nat) in
  if (ch =r "(") && (p + 1 <? end_)%nat then
    b1 ← byte 1%nat;
    if (b1 =r "?") && (p + 2 <? end_)%nat then
      b2 ← byte 2%nat;
      if b2 =r "<" then
        if (end_ <=? p + 3)%nat then Ok true
        else b3 ← byte 3%nat; Ok ((b3 ≠r "=") && (b3 ≠r "!"))
      else Ok false
    else Ok false
  else Ok false.

Definition find_body_end (text : str) (end_ start_of_body : nat) : result body_end :=
  iterate (L := nat * bool * bool * bool) (S (end_ - start_of_body))
    (fun '(p, in_escape, in_character_class, named) =>
      if (end_ <=? p)%nat then
        Ok (inr {| body_end_pos := p; unterminated := true; named_capture_groups := named |})
      else
        ch ← unwrap (text !! p);
        if is_line_break ch then
          Ok (inr {| body_end_pos := p; unterminated := true; named_capture_groups := named |})
        else if in_escape : bool then Ok (inl (S p, false, in_character_class, named))
        else if (ch =r "/") && negb in_character_class then
          Ok (inr {| body_end_pos := p; unterminated := false; named_capture_groups := named |})
        else if ch =r "[" then Ok (inl (S p, false, true, named))
        else if ch =r "\" then Ok (inl (S p, true, in_character_class, named))
        else if ch =r "]" then Ok (inl (S p, false, false, named))
        else
          opens ← (if in_character_class : bool then Ok false else is_named_group text end_ p ch);
          Ok (inl (S p, false, in_character_class, named || opens)))
    (start_of_body, false, false, false).

(** Where an unterminated body most likely ends: at an unbalanced closer. *)
Record recovery := {
  in_escape : bool;
  character_class_depth : nat;
  in_decimal_quantifier : bool;
  group_depth : nat
}.

Definition recovery_step (r : recovery) (ch : Z) : option recovery :=
  let mk e c d g :=
    Some {| in_escape := e; character_class_depth := c; in_decimal_quantifier := d; group_depth := g |} in
  let '(c, d, g) := (character_class_depth r, in_decimal_quantifier r, group_depth r) in
  if in_escape r then mk false c d g
  else if ch =r "\" then mk true c d g
  else if ch =r "[" then mk false (S c) d g
  else if (ch =r "]") && negb (c =? 0)%nat then mk false (c - 1)%nat d g
  else if (c =? 0)%nat then
    if ch =r "{" then mk false c true g
    else if (ch =r "}") && d then mk false c false g
    else if negb d then
      if ch =r "(" then mk false c d (S g)
      else if (ch =r ")") && negb (g =? 0)%nat then mk false c d (g - 1)%nat
      else if (ch =r ")") || (ch =r "]") || (ch =r "}") then None
      else mk false c d g
    else mk false c d g
  else mk false c d g.

Definition find_unbalanced (text : str) (start_of_body end_of_body : nat) : result nat :=
  iterate (L := nat * recovery) (S (end_of_body - start_of_body)) (fun '(p, r) =>
    if (p <? end_of_body)%nat then
      ch ← unwrap (text !! p);
      match recovery_step r ch with
      | Some r => Ok (inl (S p, r))
      | None => Ok (inr p)
      end
    else Ok (inr p))
    (start_of_body, {| in_escape := false; character_class_depth := 0;
                       in_decimal_quantifier := false; group_depth := 0 |}).

(** Trailing white space and semicolons are not part of the body. *)
Definition trim_body (text : str) (start_of_body p : nat) : result nat :=
  iterate (L := nat) (S p) (fun p =>
    if (start_of_body <? p)%nat then
      '(ch, size) ← decode_last_rune text p;
      if is_white_space_like ch || (ch =r ";") then Ok (inl (p - size)%nat) else Ok (inr p)
    else Ok (inr p)) p.

Section rescan.
Context `{UnicodeId}.

(** The regular expression validator, [RegExpParser::new(self, end_of_body,
    flags, named_capture_groups).run()]: it moves the scanner. *)
Variable validate : nat -> Z -> bool -> M unit.

(** One flag character, reported as the checker asks. *)
Definition report_flag (reg_exp_flags ch : Z) (p size : nat) : M Z :=
  match char_code_to_reg_exp_flag ch with
  | None => error_at Unknown_regular_expression_flag p size [] ;; ret reg_exp_flags
  | Some flag =>
      if negb (Z.land reg_exp_flags flag =? 0) then
        error_at Duplicate_regular_expression_flag p size [] ;; ret reg_exp_flags
      else if Z.land (Z.lor reg_exp_flags flag) FLAGS_ANY_UNICODE_MODE =? FLAGS_ANY_UNICODE_MODE then
        error_at The_Unicode_u_flag_and_the_Unicode_Sets_v_flag_cannot_be_set_simultaneously p size [] ;;
        ret reg_exp_flags
      else
        check_regular_expression_flag_availability flag p size ;;
        ret (Z.lor reg_exp_flags flag)
  end.

(** The flags after the closing slash: their end and their set. *)
Definition scan_flags (report_errors : bool) (p : nat) : M (nat * Z) := fun s =>
  loop_fuel (L := nat * Z) (S (end_ s - p)) (fun '(p, reg_exp_flags) =>
    limit ← gets end_;
    if (p <? limit)%nat then
      '(ch, size) ← lift (fun s => decode_rune (text s) p (end_ s));
      if (ch =? RUNE_ERROR) || negb (is_identifier_part ch) then ret (inr (p, reg_exp_flags))
      else
        reg_exp_flags ← (if report_errors then report_flag reg_exp_flags ch p size else ret reg_exp_flags);
        ret (inl ((p + size)%nat, reg_exp_flags))
    else ret (inr (p, reg_exp_flags))) (p, FLAGS_NONE) s.

Definition set_end (e : nat) : M unit :=
  modify (fun s => {| text := text s; end_ := e; jsx := jsx s; skips_trivia := skips_trivia s;
    state := state s; diagnostics := diagnostics s; has_parse_error := has_parse_error s;
    language_version := language_version s |}).

(** The validator over the body, with the scanner narrowed to it. *)
Definition validate_body (start_of_body end_of_body : nat) (reg_exp_flags : Z) (named : bool) : M unit :=
  set_pos start_of_body ;;
  save_end ← gets end_;
  save_token_pos ← get_token_start;
  save_token_flags ← get_token_flags;
  set_end end_of_body ;;
  validate end_of_body reg_exp_flags named ;;
  set_end save_end ;;
  set_token_start save_token_pos ;;
  set_token_flags save_token_flags.

Definition scan_regular_expression (report_errors : bool) (start_of_body : nat) : M nat :=
  body ← lift (fun s => find_body_end (text s) (end_ s) start_of_body);
  when (unterminated body) (add_flags TokenFlags.Unterminated) ;;
  flags ← get_token_flags;
  let end_of_body := body_end_pos body in
  if TokenFlags.has flags TokenFlags.Unterminated then
    p ← lift (fun s => find_unbalanced (text s) start_of_body end_of_body);
    p ← lift (fun s => trim_body (text s) start_of_body p);
    start ← get_token_start;
    error_at Unterminated_regular_expression_literal start (p - start)%nat [] ;;
    ret p
  else
    '(p, reg_exp_flags) ← scan_flags report_errors (end_of_body + 1)%nat;
    when report_errors
      (validate_body start_of_body end_of_body reg_exp_flags (named_capture_groups body)) ;;
    set_pos p ;;
    ret p.

Definition re_scan_slash_token (report_errors : bool) : M Kind :=
  k ← get_token;
  if negb (Kind.eqb k Kind.SlashToken) && negb (Kind.eqb k Kind.SlashEqualsToken) then ret k
  else
    start ← get_token_start;
    p ← scan_regular_expression report_errors (start + 1)%nat;
    set_pos p ;;
    value ← text_slice start p;
    set_token_value value ;;
    set_token Kind.RegularExpressionLiteral ;;
    get_token.

(** ** Templates *)

Definition re_scan_template_token (is_tagged_template : bool) : M Kind :=
  start ← get_token_start;
  set_pos start ;;
  k ← scan_template_and_set_token_value (negb is_tagged_template);
  set_token k ;;
  ret k.

(** ** JSX *)

(** Where a JSX text's content stands: nothing but spaces so far, spaces and
    a line break, or text at a position. *)
Inductive first_non_whitespace := Spaces | SpacesAndBreak | TextAt (p : nat).

(** The sign of the source's [isize]: text at position 0 counts as none. *)
Definition is_zero (f : first_non_whitespace) : bool :=
  match f with Spaces | TextAt O => true | _ => false end.
Definition is_positive (f : first_non_whitespace) : bool :=
  match f with TextAt (S _) => true | _ => false end.
Definition is_minus_one (f : first_non_whitespace) : bool :=
  match f with SpacesAndBreak => true | _ => false end.

(** The text of an element: [inl] the content seen, [inr] a conflict marker. *)
Definition scan_jsx_text (allow_multiline_jsx_text : bool) : M (first_non_whitespace + unit) :=
  loop (fun first =>
    '(ch, size) ← char_and_size;
    p ← get_pos;
    if (size =? 0)%nat || (ch =r "{") then ret (inr (inl first))
    else if ch =r "<" then
      marker ← lift (fun s => is_conflict_marker_trivia (text s) p);
      if marker : bool then p ← scan_conflict_marker p; set_pos p ;; ret (inr (inr tt))
      else ret (inr (inl first))
    else
      when (ch =r ">") (error_at Unexpected_token_Did_you_mean_or_gt p 1 []) ;;
      when (ch =r "}") (error_at Unexpected_token_Did_you_mean_or_rbrace p 1 []) ;;
      if is_line_break ch && is_zero first then advance size ;; ret (inl SpacesAndBreak)
      else if negb allow_multiline_jsx_text && is_line_break ch && is_positive first then
        ret (inr (inl first))
      else
        advance size ;;
        ret (inl (if negb (is_white_space_like ch) then TextAt p else first))) Spaces.

Definition scan_jsx_token_ex (allow_multiline_jsx_text : bool) : M Kind :=
  p ← get_pos;
  set_full_start_pos p ;;
  set_token_start p ;;
  ch ← char;
  c1 ← char_at 1;
  (if ch <? 0 then set_token Kind.EndOfFile
   else if ch =r "<" then
     if c1 =r "/" then retake 2 Kind.LessThanSlashToken else retake 1 Kind.LessThanToken
   else if ch =r "{" then retake 1 Kind.OpenBraceToken
   else
     content ← scan_jsx_text allow_multiline_jsx_text;
     match content with
     | inr _ => set_token Kind.ConflictMarkerTrivia
     | inl first =>
         q ← get_pos;
         value ← text_slice p q;
         set_token_value value ;;
         set_token (if is_minus_one first then Kind.JsxTextAllWhiteSpaces else Kind.JsxText)
     end) ;;
  get_token.

Definition scan_jsx_token : M Kind := scan_jsx_token_ex true.

Definition re_scan_jsx_token (allow_multiline_jsx_text : bool) : M Kind :=
  start ← gets token_full_start;
  set_pos start ;;
  set_token_start start ;;
  k ← scan_jsx_token_ex allow_multiline_jsx_text;
  set_token k ;;
  ret k.

Definition scan_jsx_identifier : M Kind :=
  k ← get_token;
  when (token_is_identifier_or_keyword k)
    (loop (L := unit) (fun _ =>
       ch ← char;
       value ← get_token_value;
       if ch <? 0 then ret (inr tt)
       else if ch =r "-" then
         set_token_value (value ++ lit "-") ;; advance 1 ;; ret (inl tt)
       else
         old_pos ← get_pos;
         parts ← scan_identifier_parts;
         set_token_value (value ++ parts) ;;
         p ← get_pos;
         if (p =? old_pos)%nat then ret (inr tt) else ret (inl tt)) tt ;;
     value ← get_token_value;
     set_token (get_identifier_token value)) ;;
  get_token.

Definition scan_jsx_attribute_value : M Kind :=
  p ← get_pos;
  set_full_start_pos p ;;
  loop (L := unit) (fun _ =>
    '(ch, size) ← char_and_size;
    if (size =? 0)%nat || negb (is_white_space_like ch) then ret (inr tt)
    else advance size ;; ret (inl tt)) tt ;;
  p ← get_pos;
  set_token_start p ;;
  ch ← char;
  if (ch =? 34) || (ch =? 39) then
    value ← scan_string true;
    set_token_value value ;;
    set_token Kind.StringLiteral ;;
    ret Kind.StringLiteral
  else scan.
End rescan.
