(* ===== verification/ScanLogic.v ===== *)
(** * A program logic for the scanner's methods

    A method runs from a scanner [s0]; until a token is complete it changes the
    position, the token's value and flags and appends errors. [at_ s0 p s] says
    that [s] is such a descendant of [s0] at position [p], so the rules below
    track the position alone. *)

From S2P Require Import Prelude Utf8 RustStr Chars Kind Diagnostics ScanText ScanState.

Local Open Scope nat_scope.

(** ** The first character of a token

    Of the tokens that are scanned again from their start. *)
Definition opens (k : Kind) : option Z :=
  match k with
  | Kind.LessThanLessThanToken => Some 60%Z
  | Kind.GreaterThanToken => Some 62%Z
  | Kind.AsteriskEqualsToken => Some 42%Z
  | Kind.QuestionQuestionToken => Some 63%Z
  | Kind.SlashToken | Kind.SlashEqualsToken => Some 47%Z
  | Kind.NoSubstitutionTemplateLiteral | Kind.TemplateHead => Some 96%Z
  | Kind.CloseBraceToken => Some 125%Z
  | _ => None
  end.

(** A token that is not the end of the text and is not scanned again. *)
Definition plain (k : Kind) : Prop := k <> Kind.EndOfFile /\ opens k = None.
#[export] Hint Extern 0 (plain _) => split; [discriminate|reflexivity] : core.

(** The kinds of a template from a backtick, and from the end of a substitution. *)
Definition template_kind (backtick : bool) (k : Kind) : Prop :=
  if backtick then k = Kind.NoSubstitutionTemplateLiteral \/ k = Kind.TemplateHead
  else k = Kind.TemplateTail \/ k = Kind.TemplateMiddle.

Lemma template_kind_not_eof b k : template_kind b k -> k <> Kind.EndOfFile.
Proof. by destruct b; intros [->| ->]. Qed.

(** The kind of a numeric literal. *)
Definition numeric_kind (k : Kind) : Prop := k = Kind.NumericLiteral \/ k = Kind.BigIntLiteral.
#[export] Hint Extern 0 (numeric_kind _) => left; reflexivity : core.
#[export] Hint Extern 0 (numeric_kind _) => right; reflexivity : core.

Lemma numeric_plain k : numeric_kind k -> plain k.
Proof. by intros [->| ->]. Qed.

(** The template whose characters, after the backtick, are [l]: it ends at the
    first backtick or substitution that no backslash is before. *)
Fixpoint template_rest (l : str) : Kind :=
  match l with
  | [] => Kind.NoSubstitutionTemplateLiteral
  | c :: l =>
      if (c =? 96)%Z then Kind.NoSubstitutionTemplateLiteral
      else if (c =? 92)%Z then match l with [] => Kind.NoSubstitutionTemplateLiteral | _ :: l => template_rest l end
      else if (c =? 36)%Z then
        match l with
        | d :: _ => if (d =? 123)%Z then Kind.TemplateHead else template_rest l
        | [] => Kind.NoSubstitutionTemplateLiteral
        end
      else template_rest l
  end.

(** A name or a keyword, whose value is read. *)
Abbreviation names k := (token_is_identifier_or_keyword k).

(** A token whose value and end say nothing of interest. *)
Definition mute (k : Kind) : bool :=
  negb (names k) && negb (Kind.eqb k Kind.NoSubstitutionTemplateLiteral).

(** ** Descendants of a scanner *)

Record at_ (s0 : Scanner) (p : nat) (s : Scanner) : Prop := {
  at_text : text s = text s0;
  at_end : end_ s = end_ s0;
  at_jsx : jsx s = jsx s0;
  at_skips : skips_trivia s = skips_trivia s0;
  at_version : language_version s = language_version s0;
  at_token : token (state s) = token (state s0);
  at_token_start : token_start (state s) = token_start (state s0);
  at_full_start : full_start_pos (state s) = full_start_pos (state s0);
  at_diagnostics : diagnostics s0 `prefix_of` diagnostics s;
  at_pos : pos (state s) = p
}.

Lemma at_refl s : at_ s (pos (state s)) s.
Proof. by split. Qed.

Lemma at_trans s0 p s q s' : at_ s0 p s -> at_ s q s' -> at_ s0 q s'.
Proof.
  intros [] []. split; try congruence. by etrans.
Qed.

(** The text the scanner runs over: valid UTF-8, scanned to its end or, narrowed
    to the body of a regular expression, to the slash that closes it. *)
Record text_ok (s : Scanner) : Prop := {
  text_utf8 : utf8 (text s);
  end_boundary : is_char_boundary (text s) (end_ s) = true;
  end_stop : end_ s = length (text s) \/ text s !! end_ s = Some 47%Z
}.

(** The scanner runs to the end of the text. *)
Abbreviation whole s := (end_ s = length (text s)).

Lemma text_ok_whole s : utf8 (text s) -> whole s -> text_ok s.
Proof. intros Hu Hw. split; [done| |by left]. rewrite Hw. apply boundary_len. Qed.

Section logic.
Context (s0 : Scanner) (Hok : text_ok s0).
Local Abbreviation t := (text s0).
Local Abbreviation len := (end_ s0).

(** ** Positions and characters *)

Definition B (p : nat) : Prop := is_char_boundary t p = true /\ p <= len.

(** What [byte_at] reads. *)
Definition char_is (p : nat) (ch : Z) : Prop :=
  (p < len /\ t !! p = Some ch /\ (0 <= ch < 256)%Z) \/ (len <= p /\ ch = (-1)%Z).

Lemma end_le : len <= length t.
Proof. apply boundary_le, Hok. Qed.

Lemma B_le p : B p -> p <= len.
Proof. by intros []. Qed.

Lemma B_len : B len.
Proof. split; [apply Hok|done]. Qed.

Lemma char_lt p ch : char_is p ch -> (0 <= ch)%Z -> p < len.
Proof. intros [[H _]|[_ ->]]; [done|lia]. Qed.

Lemma char_bounds p ch : char_is p ch -> (-1 <= ch < 256)%Z.
Proof. intros [(_ & _ & ?)|[_ ->]]; lia. Qed.

Lemma char_eof p ch : char_is p ch -> (ch < 0)%Z -> len <= p.
Proof. by intros [(_ & _ & ?)|[H _]] ?; [lia|]. Qed.

Lemma char_lookup p ch : char_is p ch -> (0 <= ch)%Z -> t !! p = Some ch.
Proof. intros [(_ & ? & _)|[_ ->]]; [done|lia]. Qed.

Lemma char_is_lookup p b : p < len -> t !! p = Some b -> char_is p b.
Proof.
  intros Hp H. left. split_and!; [done..| |]; pose proof (utf8_bytes _ (text_utf8 _ Hok)) as Hb.
  all: apply (Forall_lookup_1 _ _ _ _ Hb) in H; lia.
Qed.

Lemma char_det p c d : char_is p c -> char_is p d -> c = d.
Proof. intros [(? & H & _)|[? ->]] [(? & H' & _)|[? ->]]; congruence || lia. Qed.

(** An ASCII byte, or the end of the text, is at a boundary, and an ASCII
    byte is followed by one. *)
Lemma B_here p ch : char_is p ch -> p <= len -> (ch < 128)%Z -> B p.
Proof.
  intros [(_ & H & ?)|[H ->]] Hp Hlt; [split; [by eapply boundary_ascii|done]|].
  replace p with len by lia. apply B_len.
Qed.

Lemma B_next p ch : char_is p ch -> (0 <= ch < 128)%Z -> B (p + 1).
Proof.
  intros Hc Hlt. pose proof (char_lt _ _ Hc ltac:(lia)). split; [|lia]. replace (p + 1) with (S p) by lia.
  apply (boundary_ascii_next t p ch (text_utf8 _ Hok)); [|lia]. apply char_lookup; [done|lia].
Qed.

(** What the template is from [p] on. *)
Definition rest_at (p : nat) : Kind := template_rest (drop p t).

Lemma rest_next p c :
  t !! p = Some c -> c <> 96%Z -> c <> 92%Z -> c <> 36%Z \/ t !! (p + 1) <> Some 123%Z ->
  rest_at p = rest_at (p + 1).
Proof.
  intros Hp H1 H2 H3. unfold rest_at. rewrite (drop_S _ _ _ Hp), Nat.add_1_r. cbn [template_rest].
  replace (c =? 96)%Z with false by lia. replace (c =? 92)%Z with false by lia.
  destruct (Z.eqb_spec c 36) as [->|]; [|done]. destruct H3 as [?|H3]; [done|].
  rewrite Nat.add_1_r in H3. destruct (drop (S p) t) as [|d l] eqn:E; [done|].
  assert (t !! S p = Some d) as Hd by (rewrite <- (Nat.add_0_r (S p)), <- lookup_drop, E; done).
  destruct (Z.eqb_spec d 123) as [->|]; congruence.
Qed.

Lemma rest_escape p : t !! p = Some 92%Z -> rest_at p = rest_at (p + 2).
Proof.
  intros Hp. unfold rest_at. rewrite (drop_S _ _ _ Hp). cbn.
  replace (p + 2) with (S (S p)) by lia. destruct (drop (S p) t) as [|d l] eqn:E.
  - rewrite drop_ge; [done|]. apply (f_equal length) in E. rewrite length_drop in E. simpl in E. lia.
  - assert (t !! S p = Some d) as Hd by (rewrite <- (Nat.add_0_r (S p)), <- lookup_drop, E; done).
    rewrite (drop_S _ _ _ Hd) in E. by injection E as <-.
Qed.

Lemma rest_stop p : char_is p 96 -> rest_at p = Kind.NoSubstitutionTemplateLiteral.
Proof. intros Hc. unfold rest_at. by rewrite (drop_S _ _ _ (char_lookup _ _ Hc ltac:(done))). Qed.

Lemma rest_end p c : len = length t -> char_is p c -> (c < 0)%Z -> rest_at p = Kind.NoSubstitutionTemplateLiteral.
Proof. intros Hw Hc H. apply (char_eof _ _ Hc) in H. unfold rest_at. by rewrite drop_ge by lia. Qed.

Lemma rest_head p : char_is p 36 -> char_is (p + 1) 123 -> rest_at p = Kind.TemplateHead.
Proof.
  intros Hc Hd. unfold rest_at. rewrite (drop_S _ _ _ (char_lookup _ _ Hc ltac:(done))).
  apply char_lookup in Hd; [|done]. rewrite Nat.add_1_r in Hd. by rewrite (drop_S _ _ _ Hd).
Qed.

(** A dollar sign that begins no substitution. *)
Lemma rest_dollar p c d :
  char_is p c -> char_is (p + 1) d -> (0 <= c)%Z -> c <> 96%Z -> c <> 92%Z -> c <> 36%Z \/ d <> 123%Z ->
  len = length t -> rest_at (p + 1) = rest_at p.
Proof.
  intros Hc Hd ? ? ? Hor Hw. symmetry. eapply rest_next; [by apply char_lookup|done|done|].
  destruct Hor as [|Hor]; [by left|right]. intros Hl. apply Hor.
  destruct Hd as [(_ & Hd & _)|[Hd _]]; [congruence|]. apply lookup_lt_Some in Hl. lia.
Qed.

(** A character that a template passes over. *)
Lemma rest_char p c : char_is p c -> c <> 96%Z -> c <> 92%Z -> c <> 36%Z -> (0 <= c)%Z -> rest_at (p + 1) = rest_at p.
Proof. intros Hc ? ? ? ?. symmetry. eapply rest_next; [by apply char_lookup|done..|by left]. Qed.

(** ** Rules *)

Lemma wp_ret {A} (a : A) (Q : A -> Scanner -> Prop) s : Q a s -> wp (ret a) Q s.
Proof. done. Qed.

Lemma wp_get_pos (Q : nat -> Scanner -> Prop) p s : at_ s0 p s -> Q p s -> wp get_pos Q s.
Proof. intros [] ?. unfold wp, get_pos, gets. by subst. Qed.

Lemma wp_get_end (Q : nat -> Scanner -> Prop) p s : at_ s0 p s -> Q len s -> wp (gets end_) Q s.
Proof. intros [] ?. unfold wp, gets. by rewrite at_end0. Qed.

Lemma wp_get_skips (Q : bool -> Scanner -> Prop) p s :
  at_ s0 p s -> Q (skips_trivia s0) s -> wp (gets skips_trivia) Q s.
Proof. intros [] ?. unfold wp, gets. by rewrite at_skips0. Qed.

Lemma wp_get_jsx (Q : bool -> Scanner -> Prop) p s : at_ s0 p s -> Q (jsx s0) s -> wp (gets jsx) Q s.
Proof. intros [] ?. unfold wp, gets. by rewrite at_jsx0. Qed.

Lemma wp_get_len (Q : nat -> Scanner -> Prop) p s :
  at_ s0 p s -> Q (length t) s -> wp (gets (fun s => length (text s))) Q s.
Proof. intros [] ?. unfold wp, gets. by rewrite at_text0. Qed.

Lemma wp_get_token (Q : Kind -> Scanner -> Prop) p s : at_ s0 p s -> Q (token (state s0)) s -> wp get_token Q s.
Proof. intros [] ?. unfold wp, get_token, gets. by rewrite at_token0. Qed.

Lemma wp_get_token_start (Q : nat -> Scanner -> Prop) p s :
  at_ s0 p s -> Q (token_start (state s0)) s -> wp get_token_start Q s.
Proof. intros [] ?. unfold wp, get_token_start, gets. by rewrite at_token_start0. Qed.

(** The value and the flags of the token are whatever they are. *)
Lemma wp_get_token_value (Q : str -> Scanner -> Prop) p s :
  at_ s0 p s -> (forall v, v = token_value (state s) -> Q v s) -> wp get_token_value Q s.
Proof. intros _ H. by apply H. Qed.

Lemma wp_get_token_flags (Q : Z -> Scanner -> Prop) p s :
  at_ s0 p s -> (forall v, v = token_flags (state s) -> Q v s) -> wp get_token_flags Q s.
Proof. intros _ H. by apply H. Qed.

Lemma wp_set_pos (Q : unit -> Scanner -> Prop) p q s :
  at_ s0 p s -> (forall s', at_ s0 q s' -> Q tt s') -> wp (set_pos q) Q s.
Proof. intros [] H. apply H. by split. Qed.

Lemma wp_advance (Q : unit -> Scanner -> Prop) p n s :
  at_ s0 p s -> (forall s', at_ s0 (p + n) s' -> Q tt s') -> wp (advance n) Q s.
Proof. intros [] H. apply H. subst. by split. Qed.

Lemma wp_retreat (Q : unit -> Scanner -> Prop) p n s :
  at_ s0 p s -> (forall s', at_ s0 (p - n) s' -> Q tt s') -> wp (retreat n) Q s.
Proof. intros [] H. apply H. subst. by split. Qed.

Lemma wp_set_token_value (Q : unit -> Scanner -> Prop) p v s :
  at_ s0 p s -> (forall s', at_ s0 p s' -> Q tt s') -> wp (set_token_value v) Q s.
Proof. intros [] H. apply H. by split. Qed.

Lemma wp_put_token_value (Q : unit -> Scanner -> Prop) p v s :
  at_ s0 p s -> (forall s', at_ s0 p s' -> token_value (state s') = v -> Q tt s') -> wp (set_token_value v) Q s.
Proof. intros [] H. apply H; [by split|done]. Qed.

Lemma wp_set_token_flags (Q : unit -> Scanner -> Prop) p v s :
  at_ s0 p s -> (forall s', at_ s0 p s' -> Q tt s') -> wp (set_token_flags v) Q s.
Proof. intros [] H. apply H. by split. Qed.

Lemma wp_add_flags (Q : unit -> Scanner -> Prop) p v s :
  at_ s0 p s -> (forall s', at_ s0 p s' -> Q tt s') -> wp (add_flags v) Q s.
Proof. intros [] H. apply H. by split. Qed.

Lemma push_error_prefix d ds : ds `prefix_of` push_error d ds.
Proof. unfold push_error. repeat case_split; try done; by apply prefix_app_r. Qed.

Lemma wp_error_at_range (Q : unit -> Scanner -> Prop) p a b m args s :
  at_ s0 p s -> (forall s', at_ s0 p s' -> Q tt s') -> wp (error_at_range a b m args) Q s.
Proof.
  intros [] H. apply H. split; try done. simpl. etrans; [done|apply push_error_prefix].
Qed.

Lemma wp_error_at (Q : unit -> Scanner -> Prop) p m a n args s :
  at_ s0 p s -> (forall s', at_ s0 p s' -> Q tt s') -> wp (error_at m a n args) Q s.
Proof. apply wp_error_at_range. Qed.

Lemma wp_error (Q : unit -> Scanner -> Prop) p m s :
  at_ s0 p s -> (forall s', at_ s0 p s' -> Q tt s') -> wp (error m) Q s.
Proof. intros Hs H. unfold error. apply wp_bind. eapply wp_get_pos; [done|]. by eapply wp_error_at. Qed.

Lemma wp_byte_at (Q : Z -> Scanner -> Prop) p i s :
  at_ s0 p s -> (forall ch, char_is i ch -> Q ch s) -> wp (byte_at i) Q s.
Proof.
  intros [] H. unfold byte_at. apply wp_lift. rewrite at_end0, at_text0. pose proof end_le.
  destruct (i <? len) eqn:E.
  - destruct (lookup_lt_is_Some_2 t i ltac:(lia)) as [b Hb]. rewrite Hb. simpl.
    apply H. apply char_is_lookup; [lia|done].
  - apply H. right. split; [lia|done].
Qed.

Lemma wp_char (Q : Z -> Scanner -> Prop) p s :
  at_ s0 p s -> (forall ch, char_is p ch -> Q ch s) -> wp char Q s.
Proof.
  intros Hs H. unfold char. apply wp_bind. eapply wp_get_pos; [done|]. by eapply wp_byte_at.
Qed.

Lemma wp_char_at (Q : Z -> Scanner -> Prop) p n s :
  at_ s0 p s -> (forall ch, char_is (p + n) ch -> Q ch s) -> wp (char_at n) Q s.
Proof.
  intros Hs H. unfold char_at. apply wp_bind. eapply wp_get_pos; [done|]. by eapply wp_byte_at.
Qed.

(** The rune at a boundary and its width: none at the end of the text, and the
    closing slash at a narrowed end. *)
Definition rune_is (p : nat) (ch : Z) (size : nat) : Prop :=
  (p = len /\ ch = RUNE_ERROR /\ size = 0)
  \/ (p = len /\ len < length t /\ ch = 47%Z)
  \/ (exists b, char_is p b /\ (0 <= b)%Z /\ 0 < size /\ p + size <= len /\ B (p + size)
      /\ decode_first (drop p t) = Some (ch, size) /\ scalar ch = true
      /\ ((b < 128)%Z -> ch = b /\ size = 1) /\ ((128 <= b)%Z -> (128 <= ch)%Z)).

(** A character that starts before a boundary ends before it. *)
Lemma boundary_gap p c :
  scalar c = true -> take (length (encode c)) (drop p t) = encode c -> p < len -> p + length (encode c) <= len.
Proof.
  intros Hc Ht Hlt. pose proof end_le. destruct (decide (p + length (encode c) <= len)) as [|Hgt]; [done|exfalso].
  pose proof (end_boundary _ Hok) as Hb.
  rewrite <- (take_drop p t), <- (take_drop (length (encode c)) (drop p t)), Ht in Hb.
  rewrite boundary_app in Hb; rewrite length_take_le in * by lia; [|lia].
  by rewrite (boundary_inside c) in Hb by (done || lia).
Qed.

Lemma decode_rune_spec p :
  B p -> exists ch size, decode_rune t p (length t) = Ok (ch, size) /\ rune_is p ch size.
Proof.
  intros [Hp Hle']. pose proof end_le. unfold decode_rune. destruct (length t <=? p) eqn:E.
  { eexists _, _. split; [done|]. left. split_and!; [lia|done|done]. }
  destruct (decode_at t p (text_utf8 _ Hok) Hp ltac:(lia)) as (c & b & Hc & Hb & Hd & Hgap & Hle & Hn & H1 & H2).
  rewrite Hb. simpl. pose proof (utf8_bytes _ (text_utf8 _ Hok)) as Hbytes.
  pose proof (Forall_lookup_1 _ _ _ _ Hbytes Hb) as Hbb. cbv beta in Hbb.
  pose proof (encode_length c).
  destruct (decide (p = len)) as [->|Hne].
  { destruct (end_stop _ Hok) as [?|Hs]; [lia|]. assert (b = 47%Z) as -> by congruence.
    eexists _, _. split; [done|]. right. left. split_and!; done || lia. }
  pose proof (char_is_lookup p b ltac:(lia) Hb) as Hcb.
  destruct (b <? 128)%Z eqn:Elt.
  - eexists _, _. split; [done|]. destruct (H1 ltac:(lia)) as [-> Hl].
    right. right. exists b. rewrite Hl in *. split_and!; done || lia || (split; [done|lia]).
  - unfold slice_from. rewrite Hp. simpl. rewrite Hd. eexists _, _. split; [done|].
    right. right. exists b. pose proof (boundary_gap p c Hc Hgap ltac:(lia)).
    split_and!; done || lia.
Qed.

(** A template passes over a character beyond ASCII. *)
Lemma template_rest_high l l' : Forall (fun c => (128 <= c)%Z) l -> template_rest (l ++ l') = template_rest l'.
Proof.
  induction 1 as [|c l Hc _ IH]; [done|]. cbn [app template_rest].
  replace (c =? 96)%Z with false by lia. replace (c =? 92)%Z with false by lia.
  by replace (c =? 36)%Z with false by lia.
Qed.

Lemma encode_high c : (128 <= c)%Z -> Forall (fun c => (128 <= c)%Z) (encode c).
Proof.
  intros Hc. unfold encode. replace (c <? 128)%Z with false by lia.
  repeat case_split; repeat constructor; try lia.
  all: pose proof (Z.div_pos c 64); pose proof (Z.div_pos c 4096); pose proof (Z.div_pos c 262144); lia.
Qed.

Lemma rest_rune p ch size : B p -> rune_is p ch size -> (128 <= ch)%Z -> rest_at (p + size) = rest_at p.
Proof.
  intros [Hp _] [(_ & _ & ->)|[(_ & _ & ->)|(b & Hb & Hb0 & _ & ? & _ & Hd & _)]] Hch; [by rewrite Nat.add_0_r|lia|].
  pose proof end_le. pose proof (char_lt _ _ Hb Hb0).
  destruct (decode_at t p (text_utf8 _ Hok) Hp ltac:(lia)) as (c & d & _ & _ & Hc & Hgap & _).
  rewrite Hd in Hc. injection Hc as <- ->. unfold rest_at.
  rewrite <- (take_drop (length (encode ch)) (drop p t)), Hgap, template_rest_high, drop_drop by (by apply encode_high).
  done.
Qed.

(** Inside the narrowed text the rune is one of it: the rune is before the end,
    the text is whole, or the rune is not a slash. *)
Definition rune_in (p : nat) (ch : Z) : Prop := p < len \/ len = length t \/ ch <> 47%Z.

Lemma rune_next p ch size : B p -> rune_is p ch size -> rune_in p ch -> B (p + size) /\ p + size <= len.
Proof.
  intros Hp [(-> & _ & ->)|[(-> & ? & ->)|(b & _ & _ & _ & ? & ? & _)]] Hin; [|by destruct Hin as [|[|]]; lia|done].
  rewrite Nat.add_0_r. split; [done|lia].
Qed.

Lemma rune_nonempty p ch size : rune_is p ch size -> p < len -> 0 < size.
Proof. intros [(-> & _)|[(-> & _)|(b & _ & _ & ? & _)]]; lia. Qed.

Lemma rune_inside p ch size : rune_is p ch size -> rune_in p ch -> 0 < size -> p < len.
Proof.
  intros [(_ & _ & ->)|[(-> & ? & ->)|(b & _ & _ & ? & ? & _)]] Hin ?; [lia| |lia].
  by destruct Hin as [|[|]]; lia.
Qed.

(** An ASCII rune is the byte at the position. *)
Lemma rune_ascii p ch size :
  rune_is p ch size -> rune_in p ch -> (ch < 128)%Z -> char_is p ch /\ size = 1 /\ p < len.
Proof.
  intros [(_ & -> & _)|[(-> & ? & ->)|(b & Hb & ? & ? & ? & _ & _ & _ & H1 & H2)]] Hin Hlt; [done| |].
  { by destruct Hin as [|[|]]; lia. }
  destruct (Z.ltb_spec b 128); [|lia]. destruct H1 as [-> ->]; [done|]. split_and!; done || lia.
Qed.

Lemma wp_char_and_size (Q : Z * nat -> Scanner -> Prop) p s :
  at_ s0 p s -> B p -> (forall ch size, rune_is p ch size -> Q (ch, size) s) -> wp char_and_size Q s.
Proof.
  intros [] Hp H. unfold char_and_size. apply wp_lift. rewrite at_text0, at_pos0.
  destruct (decode_rune_spec p Hp) as (ch & size & -> & Hr). by apply H.
Qed.

Lemma wp_text_slice (Q : str -> Scanner -> Prop) p a b s :
  at_ s0 p s -> a <= b -> B a -> B b ->
  Q (take (b - a) (drop a t)) s -> wp (text_slice a b) Q s.
Proof.
  intros [] Hab [Ha _] [Hb _] H. unfold text_slice. apply wp_lift. rewrite at_text0.
  by rewrite (proj1 (slice_ok t a b (text_utf8 _ Hok) Hab Ha Hb)).
Qed.

Lemma slice_utf8 a b : a <= b -> B a -> B b -> utf8 (take (b - a) (drop a t)).
Proof. intros Hab [Ha _] [Hb _]. by apply (slice_ok t a b (text_utf8 _ Hok)). Qed.

Lemma wp_bytes_slice (Q : str -> Scanner -> Prop) p a b s :
  at_ s0 p s -> a <= b -> b <= len -> (forall v, Q v s) -> wp (bytes_slice a b) Q s.
Proof.
  intros [] Hab Hb H. unfold bytes_slice. apply wp_lift. rewrite at_text0. unfold slice_range.
  pose proof end_le. replace ((a <=? b) && (b <=? length t)) with true by lia. apply H.
Qed.

(** A pure computation over the text. *)
Lemma wp_lift_text {A} (f : str -> result A) (Q : A -> Scanner -> Prop) p s :
  at_ s0 p s -> returns (f t) (fun a => Q a s) -> wp (lift (fun s => f (text s))) Q s.
Proof. intros [] H. apply wp_lift. by rewrite at_text0. Qed.

(** A loop with a further round at a later position: the invariant is on the
    locals and the position, the postcondition on the answer and the last. *)
Lemma wp_loop_at {L A} (I : L -> nat -> Prop) (R : A -> nat -> Prop)
    (body : L -> M (L + A)) init p s (Q : A -> Scanner -> Prop) :
  at_ s0 p s -> I init p ->
  (forall l p s, at_ s0 p s -> I l p ->
     wp (body l) (fun r s' => exists p', at_ s0 p' s' /\
       match r with inl l' => I l' p' /\ p < p' <= len | inr a => R a p' end) s) ->
  (forall a p' s', at_ s0 p' s' -> R a p' -> Q a s') ->
  wp (loop body init) Q s.
Proof.
  intros Hs HI Hbody HQ.
  apply (wp_loop body (fun l s => exists p, at_ s0 p s /\ I l p)); [by exists p|].
  intros l s1 (p1 & Hs1 & HI1). eapply wp_mono; [by apply (Hbody l p1)|].
  intros [l2|a] s2 (p2 & Hs2 & H2).
  - destruct H2 as [HI2 Hlt]. destruct Hs1, Hs2. subst.
    pose proof end_le. split_and!; [by exists (pos (state s2))|congruence|lia|]. rewrite at_text0. lia.
  - by apply (HQ a p2).
Qed.
End logic.
