(* ===== verification/ScanSafe.v ===== *)
(** * The scanner's methods neither panic nor diverge

    For every method a token is scanned with: from a boundary of valid text it
    answers, at a later boundary, and changes nothing the position logic of
    [ScanLogic] does not follow. *)

From S2P Require Import Prelude Utf8 RustStr Chars Kind Diagnostics ScanText ScanState ScanEscapes ScanNumbers.
From S2P Require Import ScanLogic.

Local Open Scope nat_scope.

(** ** Symbolic execution *)

(** A boundary follows from the ASCII character before or at the position. *)
Ltac bnd :=
  match goal with
  | H : B ?s0 ?p |- B ?s0 ?q => by (replace q with p by lia; exact H)
  | H : char_is ?s0 ?p ?c |- B ?s0 ?q =>
      by (replace q with (p + 1) by lia; apply (B_next s0 ltac:(eassumption) p c); [exact H|lia])
  | H : char_is ?s0 ?p ?c |- B ?s0 ?q =>
      by (replace q with p by lia; apply (B_here s0 ltac:(eassumption) p c); [exact H|lia|lia])
  end.

(** A character was read inside the text. *)
Ltac inb :=
  repeat match goal with
  | H : char_is ?s0 ?q ?c |- _ =>
      lazymatch goal with
      | _ : q < end_ s0 |- _ => fail
      | _ => assert (q < end_ s0) by (apply (char_lt s0 q c H); lia)
      end
  | H : B ?s0 ?q |- _ =>
      lazymatch goal with
      | _ : q <= end_ s0 |- _ => fail
      | _ => pose proof (B_le s0 q H)
      end
  end.

(** The rune is inside the text: something was read before it, or the text is
    whole. *)
Ltac inside :=
  first
  [ assumption
  | left; inb; lia
  | right; left; assumption
  | right; right; lia ].

(** What a rune read says of the position after it. *)
Ltac runes :=
  repeat match goal with
  | H : rune_is ?s0 ?p ?ch ?size |- _ =>
      lazymatch goal with
      | _ : B s0 (p + size) |- _ => fail
      | _ =>
          let F := fresh in
          assert (F : B s0 (p + size) /\ p + size <= end_ s0)
            by (apply (rune_next s0 p ch size); [first [assumption | bnd]|exact H|inside]);
          destruct F
      end
  end;
  repeat match goal with
  | H : rune_is ?s0 ?p ?ch ?size |- _ =>
      lazymatch goal with
      | _ : 0 < size |- _ => fail
      | _ => assert (0 < size) by (apply (rune_nonempty s0 p ch size); [exact H|inb; lia])
      end
  end.

(** The scanner's position, when the goal asks for it. *)
Ltac fin :=
  try lazymatch goal with |- ?P _ _ _ _ _ => unfold P end;
  lazymatch goal with
  | |- exists _, at_ _ _ ?s /\ _ =>
      match goal with H : at_ _ ?q s |- _ => exists q end
  end;
  inb; split_and!; first [assumption | lia | bnd | done | idtac].

(** A fact at the same position, written differently. *)
Ltac conv :=
  match goal with
  | H : at_ ?s0 ?q ?s |- at_ ?s0 ?r ?s => replace r with q by lia; exact H
  | H : char_is ?s0 ?q ?c |- char_is ?s0 ?r ?d =>
      replace r with q by lia; replace d with c by lia; exact H
  end.

Ltac side := first [assumption | bnd | conv | lia | done].

Ltac wrule :=
  lazymatch goal with
  | |- wp (mbind _ _) _ _ => apply wp_bind
  | |- wp (ret _) _ _ => apply wp_ret
  | |- wp (when _ _) _ _ => unfold when
  | |- wp (if ?b then _ else _) _ _ => let E := fresh "E" in destruct b eqn:E
  | |- wp get_pos _ _ => eapply wp_get_pos; [eassumption|]
  | |- wp (gets end_) _ _ => eapply wp_get_end; [eassumption|]
  | |- wp (gets skips_trivia) _ _ => eapply wp_get_skips; [eassumption|]
  | |- wp (gets jsx) _ _ => eapply wp_get_jsx; [eassumption|]
  | |- wp (gets _) _ _ => eapply wp_get_len; [eassumption|]
  | |- wp get_token _ _ => eapply wp_get_token; [eassumption|]
  | |- wp get_token_start _ _ => eapply wp_get_token_start; [eassumption|]
  | |- wp get_token_value _ _ => eapply wp_get_token_value; [eassumption|intros ? _]
  | |- wp get_token_flags _ _ => eapply wp_get_token_flags; [eassumption|intros ? _]
  | |- wp (set_pos _) _ _ => eapply wp_set_pos; [eassumption|intros ? ?]
  | |- wp (advance _) _ _ => eapply wp_advance; [eassumption|intros ? ?]
  | |- wp (retreat _) _ _ => eapply wp_retreat; [eassumption|intros ? ?]
  | |- wp (set_token_value _) _ _ => eapply wp_set_token_value; [eassumption|intros ? ?]
  | |- wp (set_token_flags _) _ _ => eapply wp_set_token_flags; [eassumption|intros ? ?]
  | |- wp (add_flags _) _ _ => eapply wp_add_flags; [eassumption|intros ? ?]
  | |- wp (error _) _ _ => eapply wp_error; [eassumption|intros ? ?]
  | |- wp (error_at _ _ _ _) _ _ => eapply wp_error_at; [eassumption|intros ? ?]
  | |- wp char _ _ => eapply wp_char; [eassumption|eassumption|intros ? ?]
  | |- wp (char_at _) _ _ => eapply wp_char_at; [eassumption|eassumption|intros ? ?]
  | |- wp char_and_size _ _ => eapply wp_char_and_size; [eassumption|eassumption|try side|intros ? ? ?]
  | |- wp (text_slice _ _) _ _ => eapply wp_text_slice; [eassumption|eassumption|try side|try side|try side|]
  | |- wp (bytes_slice _ _) _ _ => eapply wp_bytes_slice; [eassumption|eassumption|try side|try side|intros ?]
  end.

(** A callee is run by its specification. *)
Ltac wcall lem :=
  eapply wp_mono; [eapply lem; try eassumption; try side|cbv beta; intros ? ? (? & ? & ? & ? & ?)].

(** A callee that stays at its position. *)
Ltac wstay lem := eapply wp_mono; [eapply lem; try side|cbv beta; intros ? ? ?].

Ltac wgo := repeat (cbv beta iota zeta; wrule); cbv beta iota zeta.

Section safe.
Context (s0 : Scanner) (Hok : text_ok s0).
Local Abbreviation t := (text s0).
Local Abbreviation len := (end_ s0).
Local Abbreviation B := (B s0).
Local Abbreviation at_ := (at_ s0).

(** The method moved to a later boundary. *)
Definition moved {A} (p : nat) (R : A -> nat -> Prop) (a : A) (s' : Scanner) : Prop :=
  exists p', at_ p' s' /\ B p' /\ p <= p' /\ R a p'.

Definition anywhere {A} (a : A) (p : nat) : Prop := True.

(** A template passes over what the method read from [p]. *)
Definition passed {A} (p : nat) (a : A) (q : nat) : Prop := rest_at s0 q = rest_at s0 p.

Lemma passed_next p q r c :
  char_is s0 q c -> c <> 96%Z -> c <> 92%Z -> c <> 36%Z -> (0 <= c)%Z -> r = q + 1 ->
  rest_at s0 q = rest_at s0 p -> rest_at s0 r = rest_at s0 p.
Proof. intros ? ? ? ? ? -> <-. by eapply rest_char. Qed.

Lemma moved_intro {A} p q (R : A -> nat -> Prop) a s' : at_ q s' -> B q -> p <= q -> R a q -> moved p R a s'.
Proof. by exists q. Qed.

Lemma wp_weaken {A} (m : M A) p q (R : A -> nat -> Prop) s :
  p <= q -> wp m (moved q R) s -> wp m (moved p R) s.
Proof.
  intros Hpq H. eapply wp_mono; [exact H|]. intros a s' (r & ? & ? & ? & ?). exists r.
  split_and!; done || lia.
Qed.

Ltac weaken q := apply (wp_weaken _ _ q); [lia|].

(** Past the characters read. *)
Ltac pass :=
  unfold passed in *;
  first
  [ done
  | congruence
  | match goal with H : char_is _ ?q ?c |- rest_at _ ?r = _ =>
      apply (passed_next _ q r c H); [lia|lia|lia|lia|lia|solve [pass]] end ].

(** ** Loops over ASCII bytes *)

(** Only positions inside the text, possibly inside a character. *)
Lemma scan_ascii_while_safe pred p s :
  at_ p s -> p <= len ->
  wp (scan_ascii_while pred)
    (fun _ s' => exists p', at_ p' s' /\ p <= p' <= len /\ (B p -> B p')
       /\ (forall b, char_is s0 p' b -> (0 <= b < 128)%Z -> pred b = false)) s.
Proof.
  intros Hs Hp. unfold scan_ascii_while.
  eapply (wp_loop_at s0 Hok (fun _ q => p <= q <= len /\ (B p -> B q))
    (fun _ q => p <= q <= len /\ (B p -> B q) /\
       (forall b, char_is s0 q b -> (0 <= b < 128)%Z -> pred b = false)));
    [done|split; [lia|done]| |].
  - intros _ q s1 Hs1 [Hq HB]. wgo.
    + eapply (wp_lift_text s0 (fun t => unwrap (t !! q))); [done|].
      pose proof (end_le s0 Hok). destruct (lookup_lt_is_Some_2 t q ltac:(lia)) as [b Hb]. rewrite Hb. simpl.
      pose proof (char_is_lookup s0 Hok q b ltac:(lia) Hb) as Hc. pose proof (char_bounds _ _ _ Hc).
      assert (0 <= b)%Z by (destruct Hc as [(_ & _ & ?)|[? _]]; lia).
      wgo.
      * exists q. do 3 (split; [done|]). intros c Hc' Hlt.
        pose proof (char_det _ _ _ _ Hc Hc') as ->. lia.
      * exists (q + 1). split_and!; try done; try lia. intros _. bnd.
    + exists q. do 3 (split; [done|]). intros c Hc' Hlt. pose proof (char_lt _ _ _ Hc' ltac:(lia)). lia.
  - intros _ q s' Hs' (Hq & HB & Hstop). by exists q.
Qed.

(** The bytes skipped, and that the loop stops at the end, at a byte it does
    not take or beyond ASCII. *)
Lemma scan_ascii_while_passed pred p s :
  (forall c, pred c = true -> c <> 96%Z /\ c <> 92%Z /\ c <> 36%Z) -> at_ p s -> p <= len ->
  wp (scan_ascii_while pred) (fun _ s' => exists p', at_ p' s' /\ rest_at s0 p' = rest_at s0 p) s.
Proof.
  intros Hpred Hs Hp. unfold scan_ascii_while.
  eapply (wp_loop_at s0 Hok (fun _ q => p <= q <= len /\ rest_at s0 q = rest_at s0 p)
    (fun _ q => rest_at s0 q = rest_at s0 p)); [done|split; [lia|done]| |].
  - intros _ q s1 Hs1 [Hq Hr]. wgo; [|by exists q].
    eapply (wp_lift_text s0 (fun t => unwrap (t !! q))); [done|].
    pose proof (end_le s0 Hok). destruct (lookup_lt_is_Some_2 t q ltac:(lia)) as [b Hb]. rewrite Hb. simpl.
    pose proof (char_is_lookup s0 Hok q b ltac:(lia) Hb) as Hc.
    wgo; bools; [by exists q|]. exists (q + 1). split_and!; try done; try lia.
    destruct (Hpred b ltac:(done)) as (? & ? & ?). rewrite <- Hr. eapply rest_char; try done.
    by destruct Hc as [(_ & _ & ?)|[? _]]; lia.
  - intros _ q s' Hs' Hr. by exists q.
Qed.

(** ** Hexadecimal digits *)

Lemma misplaced_separator_safe b q p s :
  at_ p s -> wp (misplaced_separator b q) (fun _ s' => at_ p s') s.
Proof. intros Hs. unfold misplaced_separator. wgo; done. Qed.

Lemma trailing_separator_safe b p s : at_ p s -> wp (trailing_separator b) (fun _ s' => at_ p s') s.
Proof. intros Hs. unfold trailing_separator. wgo; done. Qed.

Lemma is_hex_digit_ascii c : is_hex_digit c = true -> (0 <= c < 128)%Z /\ c <> 96%Z /\ c <> 92%Z /\ c <> 36%Z.
Proof. unfold is_hex_digit, is_digit. lia. Qed.

Lemma scan_hex_digits_safe min_count many separators p s :
  at_ p s -> B p -> wp (scan_hex_digits min_count many separators) (moved p (passed p)) s.
Proof.
  intros Hs HB. pose proof (B_le _ _ HB). unfold scan_hex_digits. wgo.
  eapply (wp_loop_at s0 Hok (fun _ q => B q /\ p <= q /\ passed p tt q) (fun _ q => B q /\ p <= q /\ passed p tt q));
    [done|done| |].
  - intros [[n a] b] q s1 Hs1 (HBq & Hq & Hp). wgo.
    + apply is_hex_digit_ascii in E0. fin. pass.
    + fin. pass.
    + wstay misplaced_separator_safe. wgo. fin. pass.
    + by exists q.
    + by exists q.
  - intros [n b] q s' Hs' (HBq & Hq & Hp). wgo.
    wstay trailing_separator_safe. wgo.
    + by exists q.
    + by exists q.
Qed.

(** ** Unicode escapes *)

Lemma finish_extended_escape_safe emit start value p s :
  at_ p s -> B p -> wp (finish_extended_escape emit start value) (moved p (passed p)) s.
Proof.
  intros Hs HB. unfold finish_extended_escape. wgo; fin; pass.
Qed.

(** At a backslash and a [u]; the escape moves past both. *)
Lemma scan_unicode_escape_safe emit p s :
  at_ p s -> char_is s0 p 92 -> char_is s0 (p + 1) 117 ->
  wp (scan_unicode_escape emit) (moved (p + 2) (passed p)) s.
Proof.
  intros Hs H0 H1. pose proof (rest_escape s0 p (char_lookup _ _ _ H0 ltac:(done))).
  unfold scan_unicode_escape. wgo.
  - assert (passed (p + 2) tt (p + 2 + 1)) by pass.
    wcall scan_hex_digits_safe. destruct a as [|d ds]; wgo; try (fin; pass).
    wcall finish_extended_escape_safe. wgo; fin; pass.
  - wcall scan_hex_digits_safe. destruct a as [|d ds]; wgo; fin; pass.
Qed.

Lemma scan_low_surrogate_escape_safe high p s :
  at_ p s -> B p -> wp (scan_low_surrogate_escape high) (moved p (passed p)) s.
Proof.
  intros Hs HB. unfold scan_low_surrogate_escape. wgo; [by fin|].
  assert (ch = 92%Z) as -> by lia. assert (ch0 = 117%Z) as -> by lia.
  wcall scan_unicode_escape_safe. wgo; [by fin|by fin].
Qed.

Lemma peek_unicode_escape_safe p s :
  at_ p s -> char_is s0 p 92 ->
  wp peek_unicode_escape (fun cp s' => at_ p s' /\ ((0 <= cp)%Z -> char_is s0 (p + 1) 117)) s.
Proof.
  intros Hs HB. unfold peek_unicode_escape. wgo.
  - assert (ch = 117%Z) as -> by lia. wcall scan_unicode_escape_safe. wgo. done.
  - split; [done|lia].
Qed.

(** ** Escape sequences *)

Lemma is_octal_digit_ascii c : is_octal_digit c = true -> (48 <= c < 64)%Z.
Proof. unfold is_octal_digit. lia. Qed.

Ltac octal :=
  repeat match goal with
  | H : is_octal_digit _ = true |- _ => apply is_octal_digit_ascii in H
  | H : _ && is_octal_digit _ = true |- _ => apply andb_true_iff in H as [? ?]
  end.

(** After the backslash and the digit. *)
Lemma scan_octal_escape_safe flags p ch report s :
  at_ (p + 2) s -> char_is s0 p 92 -> char_is s0 (p + 1) ch -> between 48 55 ch = true ->
  wp (scan_octal_escape flags p ch report) (moved (p + 2) (passed p)) s.
Proof.
  intros Hs H0 H1 Hch. pose proof (rest_escape s0 p (char_lookup _ _ _ H0 ltac:(done))) as Hrest.
  unfold scan_octal_escape. wgo; octal.
  all: try (fin; pass).
  all: bools. all: inb. all: try side.
Qed.

Lemma scan_decimal_escape_safe flags p ch report s :
  at_ (p + 2) s -> char_is s0 p 92 -> char_is s0 (p + 1) ch -> between 56 57 ch = true ->
  wp (scan_decimal_escape flags p ch report) (moved (p + 2) (passed p)) s.
Proof.
  intros Hs H0 H1 Hch. pose proof (rest_escape s0 p (char_lookup _ _ _ H0 ltac:(done))) as Hrest.
  bools. unfold scan_decimal_escape. inb. wgo; try (fin; pass); side.
Qed.

Lemma scan_u_escape_safe flags p report s :
  at_ (p + 2) s -> char_is s0 p 92 -> char_is s0 (p + 1) 117 ->
  wp (scan_u_escape flags p report) (moved (p + 2) (passed p)) s.
Proof.
  intros Hs H0 H1. unfold scan_u_escape. wgo.
  replace (p + 2 - 2) with p in H2 by lia.
  wcall scan_unicode_escape_safe. pose proof (B_le _ _ H4). wgo; try (by fin).
  all: try (wcall scan_low_surrogate_escape_safe; case_match; wgo; fin; pass).
  assert (ch0 = 92%Z) as -> by lia. assert (ch1 = 117%Z) as -> by lia.
  wcall scan_unicode_escape_safe. wgo; fin; pass.
Qed.

Lemma scan_x_escape_safe p report s :
  at_ (p + 2) s -> char_is s0 p 92 -> char_is s0 (p + 1) 120 ->
  wp (scan_x_escape p report) (moved (p + 2) (passed p)) s.
Proof.
  intros Hs H0 H1. pose proof (rest_escape s0 p (char_lookup _ _ _ H0 ltac:(done))) as Hrest.
  unfold scan_x_escape. inb. assert (B (p + 2)) by bnd.
  wgo. eapply (wp_loop_at s0 Hok (fun _ q => B q /\ p + 2 <= q /\ passed p tt q)
                 (fun _ q => B q /\ p + 2 <= q /\ passed p tt q)); [done|done| |].
  - intros _ q s1 Hs1 (HBq & Hq & Hp). wgo; try (by fin).
    apply negb_false_iff, is_hex_digit_ascii in E0. fin. pass.
  - intros b q s1 Hs1 (HBq & Hq & Hp). pose proof (B_le _ _ HBq). wgo; by fin.
Qed.

Context {U : UnicodeId} {laws : UnicodeIdLaws U}.

Lemma scan_other_escape_safe flags p ch s :
  at_ (p + 2) s -> char_is s0 p 92 -> char_is s0 (p + 1) ch -> (0 <= ch)%Z ->
  wp (scan_other_escape flags p ch) (moved (p + 2) (passed p)) s.
Proof.
  intros Hs H0 H1 Hch. pose proof (rest_escape s0 p (char_lookup _ _ _ H0 ltac:(done))) as Hrest.
  unfold scan_other_escape. inb. wgo; try (by fin).
  all: runes.
  all: try match goal with HR : rune_is _ ?q ?ch0 ?size |- _ =>
    assert (rest_at s0 (q + size) = rest_at s0 p); [|solve [fin; pass]];
    replace q with (p + 1) in * by lia;
    rewrite (rest_rune s0 Hok (p + 1) ch0 size); [|bnd|done|];
      [rewrite Hrest; replace (p + 2) with (p + 1 + 1) by lia; symmetry; eapply (rest_char s0); [exact H1|lia..]|];
    destruct HR as [(Hq & _)|[(Hq & _)|(b & Hb & _ & _ & _ & _ & _ & _ & _ & Hhigh)]]; [lia|lia|];
    pose proof (char_det _ _ _ _ H1 Hb) as <-; apply Hhigh; lia
  end.
  all: solve [fin; pass].
Qed.

(** From the backslash, past at least it. *)
Lemma scan_escape_sequence_bytes_safe flags p s :
  at_ p s -> char_is s0 p 92 ->
  wp (scan_escape_sequence_bytes flags) (moved (p + 1) (fun a q => whole s0 -> passed p a q)) s.
Proof.
  intros Hs H0. pose proof (rest_escape s0 p (char_lookup _ _ _ H0 ltac:(done))) as Hrest.
  assert (passed p tt (p + 1 + 1)) by (unfold passed; rewrite Hrest; f_equal; lia).
  unfold scan_escape_sequence_bytes. wgo; try (fin; intros _; pass).
  all: bools.
  - pose proof (char_eof _ _ _ H2 ltac:(lia)). fin. intros Hw. unfold passed. rewrite Hrest. unfold rest_at. rewrite !drop_ge; [done|lia..].
  - wcall scan_octal_escape_safe. by fin.
  - wcall scan_decimal_escape_safe. by fin.
  - wcall scan_u_escape_safe. by fin.
  - wcall scan_x_escape_safe. by fin.
  - wcall scan_other_escape_safe. by fin.
Qed.

Lemma go_decode_rune_size bytes : snd (go_decode_rune bytes 0) <= length bytes.
Proof.
  unfold go_decode_rune. destruct bytes as [|b bytes]; [simpl; lia|]. cbn [lookup list_lookup].
  destruct (b <? 128)%Z; [simpl; lia|].
  assert (forall w, snd (match (bytes0 ← slice_range (b :: bytes) 0 (0 + w); text ← from_utf8 bytes0; head text) with
    | Some ch => (ch, w) | None => (RUNE_ERROR, 1) end) <= length (b :: bytes)) as Hw.
  { intros w. unfold slice_range. destruct ((0 <=? 0 + w) && (0 + w <=? length (b :: bytes))) eqn:E.
    - bools. case_match; simpl in *; lia.
    - simpl. lia. }
  match goal with |- context [match ?o with Some _ => _ | None => _ end] => destruct o as [w|] end;
    [apply Hw|simpl; lia].
Qed.

Lemma decode_js_string_rune_size bytes : snd (decode_js_string_rune bytes) <= length bytes.
Proof.
  unfold decode_js_string_rune. destruct bytes as [|b0 [|b1 [|b2 bytes]]]; try apply go_decode_rune_size.
  case_split; [simpl; lia|apply go_decode_rune_size].
Qed.

Lemma rust_string_of_ok bytes : returns (rust_string_of bytes) utf8.
Proof.
  unfold rust_string_of.
  eapply (iterate_returns (fun '(out, rest) => utf8 out) (fun '(_, rest) => length rest)).
  - intros [out rest] Hout. destruct rest as [|b rest]; [done|].
    pose proof (decode_js_string_rune_size (b :: rest)) as Hs.
    destruct (decode_js_string_rune (b :: rest)) as [ch size]. simpl in Hs.
    unfold slice_range. replace ((size `max` 1 <=? length (b :: rest)) && (length (b :: rest) <=? length (b :: rest)))
      with true by (simpl; lia).
    cbn [unwrap mbind result_bind returns]. split; [by apply push_rune_utf8|].
    rewrite length_take, length_drop. simpl. lia.
  - apply utf8_nil.
  - simpl. lia.
Qed.

Lemma scan_escape_sequence_safe flags p s :
  at_ p s -> char_is s0 p 92 ->
  wp (scan_escape_sequence flags) (moved (p + 1) (fun a q => whole s0 -> passed p a q)) s.
Proof.
  intros Hs H0. unfold scan_escape_sequence. wgo. wcall scan_escape_sequence_bytes_safe.
  apply wp_lift. eapply returns_mono; [apply rust_string_of_ok|]. intros v _. by fin.
Qed.

(** ** Identifiers *)

Lemma identifier_part_error : is_identifier_part RUNE_ERROR = false.
Proof.
  unfold is_identifier_part, is_identifier_part_ex. change (as_char RUNE_ERROR) with (Some 0xFFFD%Z).
  cbn iota. by rewrite id_continue_replacement.
Qed.

Lemma identifier_start_error : is_identifier_start RUNE_ERROR = false.
Proof.
  unfold is_identifier_start. change (as_char RUNE_ERROR) with (Some 0xFFFD%Z). cbn iota.
  destruct (is_id_start 0xFFFD) eqn:E; [|done].
  apply id_start_continue in E. by rewrite id_continue_replacement in E.
Qed.

(** A slash is no part of an identifier. *)
Lemma part_in p ch : is_identifier_part ch = true -> rune_in s0 p ch.
Proof. intros Hi. right. right. intros ->. by cbn in Hi. Qed.

Lemma start_in p ch : is_identifier_start ch = true -> rune_in s0 p ch.
Proof. intros Hi. right. right. intros ->. by cbn in Hi. Qed.

Lemma rune_part p ch size : rune_is s0 p ch size -> is_identifier_part ch = true -> 0 < size.
Proof.
  intros [(_ & -> & _)|[(_ & _ & ->)|(b & _ & _ & ? & _)]] Hi; [by rewrite identifier_part_error in Hi|by cbn in Hi|done].
Qed.

Lemma rune_start p ch size : rune_is s0 p ch size -> is_identifier_start ch = true -> 0 < size.
Proof.
  intros [(_ & -> & _)|[(_ & _ & ->)|(b & _ & _ & ? & _)]] Hi; [by rewrite identifier_start_error in Hi|by cbn in Hi|done].
Qed.

Lemma scan_identifier_parts_safe p s :
  at_ p s -> B p -> wp scan_identifier_parts (moved p (fun v _ => utf8 v)) s.
Proof.
  intros Hs HB. unfold scan_identifier_parts. wgo.
  eapply (wp_loop_at s0 Hok (fun '(out, start) q => B q /\ B start /\ p <= start <= q /\ utf8 out)
                        (fun '(out, start) q => B q /\ B start /\ p <= start <= q /\ utf8 out));
    [done|split_and!; try done; try lia; apply utf8_nil| |].
  - intros [out start] q s1 Hs1 (HBq & HBs & Hq & Hout). wgo.
    + pose proof (part_in q _ E). runes. pose proof (rune_part _ _ _ H E). by fin.
    + destruct (rune_ascii s0 q ch size H ltac:(inside) ltac:(lia)) as (Hc & -> & Hlt).
      assert (ch = 92%Z) as -> by lia.
      eapply wp_mono; [by eapply peek_unicode_escape_safe|]. intros cp s2 [Hs2 Hu]. wgo.
      * bools. wcall scan_unicode_escape_safe; [apply Hu; lia|]. wgo. fin; try done.
        apply push_rune_utf8, utf8_app; [done|]. by apply (slice_utf8 s0 Hok); [lia|..].
      * by fin.
    + by fin.
  - intros [out start] q s' Hs' (HBq & HBs & Hq & Hout). wgo. fin.
    apply utf8_app; [done|]. by apply (slice_utf8 s0 Hok); [lia|..].
Qed.

(** Found, past at least one character, or nothing read. *)
Definition found_after (p : nat) (found : bool) (q : nat) : Prop := if found then p < q else q = p.

(** The value is a piece of text: so are the escapes decoded. *)
Definition named (p : nat) (found : bool) (s' : Scanner) : Prop :=
  moved p (found_after p) found s' /\ (found = true -> utf8 (token_value (state s'))).

Lemma scan_identifier_slow_safe start p s :
  at_ p s -> B p -> B start -> start <= p -> wp (scan_identifier_slow start) (named p) s.
Proof.
  intros Hs HB HBs Hle. unfold scan_identifier_slow. wgo; [|split; [by fin|done]].
  pose proof (start_in p _ E). runes. pose proof (rune_start _ _ _ H E).
  eapply (wp_loop_at s0 Hok (fun sz q => B q /\ p <= q /\ 0 < sz /\ B (q + sz) /\ q + sz <= len)
                        (fun c q => B q /\ p < q /\ (c = 92%Z -> char_is s0 q c)));
    [done|split_and!; done || lia| |].
  - intros sz q s1 Hs1 (HBq & Hq & Hsz & HBn & Hn). wgo.
    + pose proof (part_in (q + sz) _ E0). runes. pose proof (rune_part _ _ _ H5 E0). fin.
    + fin. intros ->. by apply (rune_ascii s0 _ _ _ H5 ltac:(inside)).
  - intros c q s1 Hs1 (HBq & Hq & Hc). apply wp_bind. eapply wp_get_pos; [done|].
    apply wp_bind. eapply wp_text_slice; [done..|lia|done|done|].
    assert (utf8 (take (q - start) (drop start t))) as Hu by (apply (slice_utf8 s0 Hok); done || lia).
    apply wp_bind. destruct (c =r 92%Z).
    + apply wp_bind. wcall scan_identifier_parts_safe. apply wp_ret.
      apply wp_bind. eapply wp_put_token_value; [eassumption|]. intros s3 Hs3 Hv. wgo.
      split; [fin; unfold found_after; lia|]. intros _. rewrite Hv. by apply utf8_app.
    + apply wp_ret. apply wp_bind. eapply wp_put_token_value; [eassumption|]. intros s3 Hs3 Hv. wgo.
      split; [by fin|]. intros _. by rewrite Hv.
Qed.

Lemma scan_identifier_safe prefix p s :
  at_ p s -> B p -> B (p + prefix) -> wp (scan_identifier prefix) (named (p + prefix)) s.
Proof.
  intros Hs HB HBp. unfold scan_identifier, is_ascii_letter. wgo; inb.
  - eapply wp_mono; [eapply scan_ascii_while_safe; [eassumption|lia]|]. intros _ s2 (q & Hs2 & Hq & HBq & _).
    assert (B q) by (apply HBq; bnd).
    apply wp_bind. eapply wp_char; [eassumption|eassumption|]. intros c Hc. destruct ((c <? 128)%Z && (c ≠r 92%Z)).
    + apply wp_bind. eapply wp_get_pos; [done|]. apply wp_bind. eapply wp_text_slice; [done..|lia|done|done|].
      apply wp_bind. eapply wp_put_token_value; [eassumption|]. intros s3 Hs3 Hv. wgo.
      split; [fin; unfold found_after; lia|]. intros _. rewrite Hv. apply (slice_utf8 s0 Hok); done || lia.
    + wgo. by eapply scan_identifier_slow_safe; [done..|lia].
  - by eapply scan_identifier_slow_safe; [done..|lia].
Qed.

(** ** Strings *)

(** The shortcut looks for the quote to the end of the text. *)
Lemma scan_string_fast_safe quote attr p s :
  whole s0 -> at_ p s -> B p -> (0 <= quote < 128)%Z ->
  wp (scan_string_fast quote attr)
    (moved p (fun r q => match r with Some _ => p < q | None => q = p end)) s.
Proof.
  intros Hw Hs HB Hq. unfold scan_string_fast. wgo.
  eapply (wp_lift_text s0 (fun t => unwrap (slice_from t p))); [done|].
  unfold slice_from. rewrite (proj1 HB). cbn [unwrap returns].
  destruct (position (fun b => (b =? quote)%Z) (drop p t)) as [n|] eqn:E; [|by wgo; fin].
  apply position_spec in E as (b & Hb & Hbq & _). rewrite lookup_drop in Hb.
  pose proof (lookup_lt_Some _ _ _ Hb) as Hlt. rewrite <- Hw in Hlt. pose proof (char_is_lookup s0 Hok _ _ Hlt Hb). destruct n as [|n]; wgo; by fin.
Qed.

Lemma unterminated_string_safe out start p s :
  at_ p s -> B start -> B p -> start <= p -> wp (unterminated_string out start) (moved p anywhere) s.
Proof. intros Hs HBs HB Hle. unfold unterminated_string. wgo. by fin. Qed.

Lemma scan_string_loop_safe quote attr p s :
  at_ p s -> B p -> (0 <= quote < 128)%Z -> wp (scan_string_loop quote attr) (moved p anywhere) s.
Proof.
  intros Hs HB Hquote. unfold scan_string_loop. inb. wgo.
  eapply (wp_loop_at s0 Hok (fun '(_, start) q => B start /\ p <= start <= q /\ q <= len)
                        (fun _ q => B q /\ p <= q)); [done|split_and!; done || lia| |].
  - intros [out start] q s1 Hs1 (HBs & Hq & Hl). wgo; bools.
    + wcall unterminated_string_safe. wgo. by fin.
    + by fin.
    + assert (ch = 92%Z) as -> by lia. wcall scan_escape_sequence_safe. wgo. by fin.
    + wcall unterminated_string_safe. wgo. by fin.
    + by fin.
  - intros v q s1 Hs1 [HBq Hq]. by fin.
Qed.

Lemma scan_string_safe attr p quote s :
  whole s0 -> at_ p s -> char_is s0 p quote -> (0 <= quote < 128)%Z -> wp (scan_string attr) (moved (p + 1) anywhere) s.
Proof.
  intros Hw Hs Hc Hquote. unfold scan_string. wgo.
  all: pose proof (char_det _ _ _ _ Hc H) as <-.
  all: wcall scan_string_fast_safe; destruct a as [v|]; wgo; [by fin|].
  all: match goal with |- wp _ _ ?s => match goal with Hx : at_ ?q s |- _ =>
    weaken q; eapply scan_string_loop_safe; side end end.
Qed.

(** ** Templates *)

Lemma scan_template_safe emit p ch s :
  at_ p s -> char_is s0 p ch -> (0 <= ch < 128)%Z ->
  wp (scan_template_and_set_token_value emit)
    (moved (p + 1) (fun k _ => template_kind (ch =? 96)%Z k
                               /\ (ch = 96%Z -> whole s0 -> k = rest_at s0 (p + 1)))) s.
Proof.
  intros Hs Hc Hch. unfold scan_template_and_set_token_value. wgo. inb. assert (B (p + 1)) by bnd.
  pose proof (char_det _ _ _ _ Hc H) as <-.
  eapply (wp_loop_at s0 Hok
    (fun '(_, start) q => B start /\ p + 1 <= start <= q /\ q <= len
                          /\ (whole s0 -> rest_at s0 q = rest_at s0 (p + 1)))
    (fun '(_, k) q => B q /\ p + 1 <= q /\ template_kind (ch =? 96)%Z k
                      /\ (ch = 96%Z -> whole s0 -> k = rest_at s0 (p + 1))));
    [done|split_and!; done || lia| |].
  - intros [value start] q s1 Hs1 (HBs & Hq & Hl & Hr). unfold scan_template_step. wgo.
    eapply wp_mono; [apply wp_conj; [eapply scan_ascii_while_safe|eapply scan_ascii_while_passed]; first [eassumption|lia]|].
    intros _ s2 [(r & Hs2 & Hr' & _ & _) (r' & Hs2' & Hrest)].
    assert (r' = r) as -> by (destruct Hs2, Hs2'; congruence). rewrite <- Hrest in Hr.
    unfold template_kind. destruct (ch =? 96)%Z eqn:E96; cbn [negb]; wgo; try (by fin; auto).
    all: inb; try (assert (ch0 = 92%Z) as -> by lia; wcall scan_escape_sequence_safe; wgo).
    all: fin; auto; try lia.
    all: intros; try (rewrite <- Hr by done).
    all: try match goal with Hp : whole s0 -> passed _ _ ?x |- rest_at s0 ?x = _ => by apply Hp end.
    all: try match goal with Hc : char_is s0 ?r ?c, Hd : char_is s0 (?r + 1) ?d |- rest_at s0 (?r + 1) = _ =>
      eapply (rest_dollar s0 r c d); try done; lia end.
    + destruct (Z.eqb_spec ch0 96) as [->|]; symmetry; [by apply rest_stop|by eapply rest_end; [|eassumption|lia]].
    + destruct (Z.eqb_spec ch0 96) as [->|]; symmetry; [by apply rest_stop|by eapply rest_end; [|eassumption|lia]].
    + bools. assert (ch0 = 36%Z) as -> by lia. assert (ch1 = 123%Z) as -> by lia. symmetry. by apply rest_head.
    + rewrite (rest_char s0 (r + 1) ch2), (rest_char s0 r ch0); try done; lia.
    + rewrite (rest_char s0 (r + 1) ch2), (rest_char s0 r ch0); try done; lia.
  - intros [v k] q s1 Hs1 (HBq & Hq & Hk & Hr). wgo. by fin.
Qed.

(** ** Numbers *)

(** A digit at the start is consumed. *)
Definition past_digit (p q : nat) : Prop := p < q \/ (q = p /\ forall c, char_is s0 p c -> is_digit c = false).

Lemma scan_number_fragment_safe p s :
  at_ p s -> B p -> wp scan_number_fragment (moved p (fun _ q => past_digit p q)) s.
Proof.
  intros Hs HB. unfold scan_number_fragment. wgo.
  eapply (wp_loop_at s0 Hok (fun '(_, start, _, _) q => B q /\ B start /\ p <= start <= q)
                        (fun '(_, start, _) q => B q /\ B start /\ p <= start <= q /\ past_digit p q));
    [done|split_and!; done || lia| |].
  - intros [[[out start] a] b] q s1 Hs1 (HBq & HBs & Hq). inb. wgo.
    eapply wp_mono; [eapply scan_ascii_while_safe; [eassumption|lia]|].
    intros _ s2 (r & Hs2 & Hr & HBr & Hstop).
    assert (B r) by by apply HBr. wgo; try (by fin).
    + wstay misplaced_separator_safe. wgo. by fin.
    + fin. unfold past_digit. destruct (decide (r = p)) as [->|]; [right|left; lia]. split; [done|].
      intros c Hc. destruct (is_digit c) eqn:Ed; [|done]. rewrite <- Ed.
      apply Hstop; [done|]. unfold is_digit in Ed. lia.
  - intros [[out start] b] q s1 Hs1 (HBq & HBs & Hq & Hp). wgo; by fin.
Qed.

Lemma scan_digits_safe p s :
  at_ p s -> B p ->
  wp scan_digits (moved p (fun r q => fst r = take (q - p) (drop p t))) s.
Proof.
  intros Hs HB. unfold scan_digits. wgo.
  eapply (wp_loop_at s0 Hok (fun _ q => B q /\ p <= q) (fun _ q => B q /\ p <= q)); [done|done| |].
  - intros o q s1 Hs1 [HBq Hq]. unfold is_digit. wgo; by fin.
  - intros o q s1 Hs1 [HBq Hq]. wgo. by fin.
Qed.

Lemma scan_binary_or_octal_digits_safe base p s :
  at_ p s -> B p -> wp (scan_binary_or_octal_digits base) (moved p anywhere) s.
Proof.
  intros Hs HB. unfold scan_binary_or_octal_digits. wgo.
  eapply (wp_loop_at s0 Hok (fun _ q => B q /\ p <= q) (fun _ q => B q /\ p <= q)); [done|done| |].
  - intros [[out a] b] q s1 Hs1 [HBq Hq]. unfold is_digit. wgo; bools; try (by fin).
    wstay misplaced_separator_safe. wgo. by fin.
  - intros [out b] q s1 Hs1 [HBq Hq]. wgo. wstay trailing_separator_safe. wgo. by fin.
Qed.

Lemma scan_big_int_suffix_safe p s :
  at_ p s -> B p -> wp scan_big_int_suffix (moved p (fun k _ => numeric_kind k)) s.
Proof. intros Hs HB. unfold scan_big_int_suffix. wgo; by fin. Qed.

(** A legacy octal literal is reported with the minus sign before it: there
    is one when the last token was that sign. *)
Definition minus_before (p : nat) : Prop := token (state s0) = Kind.MinusToken -> 0 < p.

Lemma legacy_octal_literal_safe start digits p s :
  at_ p s -> minus_before start -> wp (legacy_octal_literal start digits) (fun _ s' => at_ p s') s.
Proof.
  intros Hs Hm. unfold legacy_octal_literal. wgo; [|done].
  apply Kind.eqb_eq in E. specialize (Hm E). destruct start as [|start]; [lia|].
  apply wp_lift. cbn [unwrap returns]. wgo. done.
Qed.

Lemma scan_leading_zero_safe p s :
  at_ p s -> B p -> char_is s0 p 48 -> minus_before p ->
  wp (scan_leading_zero p) (moved p (fun _ q => p < q)) s.
Proof.
  intros Hs HB Hc Hm. unfold scan_leading_zero. wgo.
  - wcall scan_number_fragment_safe. wgo. fin.
    match goal with Hp : past_digit _ _ |- _ => destruct Hp as [|[_ Hd]] end; [done|]. by specialize (Hd _ Hc).
  - wcall scan_digits_safe. destruct a as [digits o]. wgo; try (by fin).
    eapply wp_mono; [by eapply legacy_octal_literal_safe|]. cbv beta. intros. wgo. by fin.
Qed.

(** The fraction's point is consumed. *)
Lemma scan_fraction_and_exponent_safe p s :
  at_ p s -> B p ->
  wp scan_fraction_and_exponent
    (moved p (fun '(_, _, _, end_) q =>
       B end_ /\ p <= end_ <= q /\ (char_is s0 p 46 -> p < end_))) s.
Proof.
  intros Hs HB. unfold scan_fraction_and_exponent. wgo.
  1: { wcall scan_number_fragment_safe. wgo.
    all: try (wcall scan_number_fragment_safe; destruct a0; wgo; by fin). by fin. }
  all: assert (forall q, char_is s0 p 46 -> p < q) as Hno
    by (intros q Hc; by pose proof (char_det _ _ _ _ Hc H) as <-).
  all: try (wcall scan_number_fragment_safe; destruct a; wgo); fin; by apply Hno.
Qed.

Lemma set_number_value_safe start a b c d end_ p s :
  at_ p s -> B start -> B end_ -> start <= end_ ->
  wp (set_number_value start a b c d end_) (fun _ s' => at_ p s') s.
Proof. intros Hs HBs HBe Hle. unfold set_number_value. wgo; done. Qed.

Lemma check_following_identifier_safe start e k p s :
  at_ p s -> B p -> numeric_kind k ->
  wp (check_following_identifier start e k) (moved p (fun k _ => numeric_kind k)) s.
Proof.
  intros Hs HB Hk. unfold check_following_identifier. wgo; [|by fin].
  pose proof (start_in p _ E). pose proof (rune_start _ _ _ H E).
  pose proof (rune_inside s0 _ _ _ H ltac:(done) ltac:(done)).
  wcall scan_identifier_parts_safe. wgo.
  eapply (wp_lift_text s0 (fun t => unwrap (t !! p))); [done|].
  pose proof (end_le s0 Hok). destruct (lookup_lt_is_Some_2 t p ltac:(lia)) as [b ->]. cbn [unwrap returns]. wgo; by fin.
Qed.

Lemma scan_number_rest_safe start fixed_part p s :
  at_ p s -> B p -> B start -> start <= p ->
  wp (scan_number_rest start fixed_part) (moved p (fun k q => numeric_kind k /\ (char_is s0 p 46 -> p < q))) s.
Proof.
  intros Hs HB HBs Hle. unfold scan_number_rest. wgo.
  wcall scan_fraction_and_exponent_safe. destruct a as [[[f pre] e] end_].
  match goal with HR : B end_ /\ _ |- _ => destruct HR as (HBe & Hend & Hdot) end.
  wgo. eapply wp_mono; [eapply set_number_value_safe; side|]. cbv beta. intros _ s2 Hs2. wgo.
  - fin; try done; intros Hc; specialize (Hdot Hc); lia.
  - wcall scan_big_int_suffix_safe. wgo. wcall check_following_identifier_safe.
    fin; try done; intros Hc; specialize (Hdot Hc); lia.
  - wcall check_following_identifier_safe. fin; try done; intros Hc; specialize (Hdot Hc); lia.
Qed.

Lemma scan_number_safe p ch s :
  at_ p s -> B p -> char_is s0 p ch -> is_digit ch = true \/ ch = 46%Z -> minus_before p ->
  wp scan_number (moved p (fun k q => p < q /\ numeric_kind k)) s.
Proof.
  intros Hs HB Hc Hch Hm. unfold scan_number. wgo.
  - assert (ch0 = 48%Z) as -> by lia. wcall scan_leading_zero_safe. destruct a as [v|]; wgo; [|by fin].
    wcall scan_number_rest_safe. match goal with HR : _ /\ _ |- _ => destruct HR end. by fin.
  - wcall scan_number_fragment_safe. wgo. wcall scan_number_rest_safe.
    match goal with HR : _ /\ _ |- _ => destruct HR as [? Hdot] end. fin.
    match goal with Hp : past_digit _ _ |- _ => destruct Hp as [|[-> Hd]] end; [lia|].
    destruct Hch as [Hch| ->]; [by rewrite (Hd _ Hc) in Hch|by apply Hdot].
Qed.
End safe.
