(* ===== verification/ScanTotal.v ===== *)
(** * Scanning is total

    The scanner answers a token for every valid text no conflict marker probe
    of which lands inside a character, it moves forward, and the tokens tile the
    text; and exactly which probes panic. *)

From S2P Require Import Prelude Utf8 RustStr Chars Kind Diagnostics ScanText ScanState ScanEscapes ScanNumbers Scan.
From S2P Require Import ScanLogic ScanSafe.

Local Open Scope nat_scope.

(** ** Conflict markers *)

(** The probe at [p] looks at the character before the previous byte by
    slicing the text two bytes back. *)
Definition probes_back (t : str) (p : nat) : bool :=
  match t !! p, t !! (p + 1), t !! (p - 1) with
  | Some c, Some d, Some before => (c =? d)%Z && (2 <=? p) && negb (is_line_break before)
  | _, _, _ => false
  end.
Definition probe_panics (t : str) (p : nat) : bool :=
  probes_back t p && negb (is_char_boundary t (p - 2)).

Definition marker_char (c : Z) : bool := (c =r "<") || (c =r "=") || (c =r ">") || (c =r "|").

(** No probe the scanner can make panics. *)
Definition probe_safe (t : str) : bool :=
  forallb (fun p => match t !! p with
                    | Some c => negb (marker_char c && probe_panics t p)
                    | None => true
                    end) (seq 0 (length t)).

Lemma probe_safe_spec t p c :
  probe_safe t = true -> t !! p = Some c -> marker_char c = true -> probe_panics t p = false.
Proof.
  unfold probe_safe. rewrite forallb_forall. intros H Hp Hc.
  specialize (H p). rewrite Hp, Hc in H. apply negb_true_iff, H.
  apply in_seq. apply lookup_lt_Some in Hp. lia.
Qed.

Lemma probe_safe_ascii t : asciib t = true -> probe_safe t = true.
Proof.
  intros Ha. unfold probe_safe. apply forallb_forall. intros p Hp.
  destruct (t !! p) as [c|] eqn:Ec; [|done].
  unfold probe_panics. destruct (is_char_boundary t (p - 2)) eqn:E; [by rewrite andb_false_r, andb_false_r|].
  exfalso. unfold is_char_boundary in E. case_split_in E; [done|].
  apply lookup_lt_Some in Ec. destruct (lookup_lt_is_Some_2 t (p - 2) ltac:(lia)) as [b Hb]. rewrite Hb in E.
  unfold asciib in Ha. rewrite forallb_forall in Ha. specialize (Ha b (proj1 (list_elem_of_In _ _) (list_elem_of_lookup_2 _ _ _ Hb))).
  unfold cont in E. lia.
Qed.

Lemma boundary_zero t : utf8 t -> is_char_boundary t 0 = true.
Proof. intros Hu. apply boundary_drop; [done|lia]. Qed.

Lemma decode_last_rune_spec t e :
  utf8 t -> if is_char_boundary t e then exists r, decode_last_rune t e = Ok r
            else decode_last_rune t e = Panic.
Proof.
  intros Hu. unfold decode_last_rune, slice. rewrite boundary_zero by done.
  destruct (is_char_boundary t e); simpl; [|done]. case_match; by eexists.
Qed.

Lemma line_start_spec t p c :
  utf8 t -> t !! p = Some c -> t !! (p + 1) = Some c ->
  if probe_panics t p then conflict_marker_at_line_start t p = Panic
  else exists b, conflict_marker_at_line_start t p = Ok b.
Proof.
  intros Hu Hp Hn. unfold probe_panics, probes_back, conflict_marker_at_line_start. rewrite Hp, Hn, Z.eqb_refl.
  destruct p as [|p]; [simpl; repeat case_match; try done; by eexists|].
  pose proof (lookup_lt_Some _ _ _ Hp).
  destruct (lookup_lt_is_Some_2 t (S p - 1) ltac:(lia)) as [b Hb]. rewrite Hb.
  cbn [Nat.eqb mbind result_bind unwrap].
  pose proof (decode_last_rune_spec t (S p - 2) Hu) as Hd.
  destruct (is_line_break b), (2 <=? S p); cbn [negb andb mbind result_bind]; try (by eexists).
  destruct (is_char_boundary t (S p - 2)); cbn [negb].
  - destruct Hd as [[r n] ->]. by eexists.
  - by rewrite Hd.
Qed.

Lemma is_conflict_marker_trivia_spec t p :
  utf8 t -> p < length t ->
  if probe_panics t p then is_conflict_marker_trivia t p = Panic
  else exists b, is_conflict_marker_trivia t p = Ok b.
Proof.
  intros Hu Hp. destruct (lookup_lt_is_Some_2 t p ltac:(done)) as [c Hc].
  unfold is_conflict_marker_trivia.
  destruct (t !! (p + 1)) as [d|] eqn:Ed.
  - pose proof (lookup_lt_Some _ _ _ Ed). replace (length t <=? p + 1) with false by lia.
    rewrite Hc. cbn [unwrap mbind result_bind]. destruct (Z.eqb_spec d c) as [->|Hne].
    + pose proof (line_start_spec t p c Hu Hc Ed) as Hl. cbn [negb].
      destruct (probe_panics t p); [by rewrite Hl|]. destruct Hl as [b ->]. cbn [mbind result_bind].
      destruct b; [|by eexists]. case_split; [|by eexists]. case_split; [by eexists|].
      destruct (lookup_lt_is_Some_2 t (p + MERGE_CONFLICT_MARKER_LENGTH) ltac:(lia)) as [x ->]. by eexists.
    + unfold probe_panics, probes_back. rewrite Hc, Ed. replace (c =? d)%Z with false by lia.
      destruct (t !! (p - 1)); by eexists.
  - apply lookup_ge_None in Ed as Hl. replace (length t <=? p + 1) with true by lia.
    unfold probe_panics, probes_back. rewrite Hc, Ed. by eexists.
Qed.

(** The marker probe at a position inside the text panics exactly when the
    byte is doubled, does not start a line by its previous byte, and the
    position two bytes back is inside a character; otherwise it answers. *)
Theorem is_conflict_marker_trivia_panics t p :
  utf8 t -> p < length t ->
  if probe_panics t p then is_conflict_marker_trivia t p = Panic
  else exists b, is_conflict_marker_trivia t p = Ok b.
Proof. apply is_conflict_marker_trivia_spec. Qed.


Section total.
Context (s0 : Scanner) (Hok : text_ok s0) (Hwhole : whole s0) (Hprobe : probe_safe (text s0) = true).
Local Abbreviation t := (text s0).
Local Abbreviation len := (length (text s0)).
Local Abbreviation B := (B s0).
Local Abbreviation at_ := (at_ s0).

Lemma marker_probe_ok p c : char_is s0 p c -> marker_char c = true ->
  exists b, is_conflict_marker_trivia t p = Ok b.
Proof.
  intros Hc Hm. assert (0 <= c)%Z by (unfold marker_char in Hm; lia).
  pose proof (char_lookup _ _ _ Hc ltac:(done)) as Hp.
  pose proof (is_conflict_marker_trivia_spec t p) as Hs.
  rewrite (probe_safe_spec t p c Hprobe Hp Hm) in Hs.
  apply Hs; [apply text_utf8, Hok|]. by apply lookup_lt_Some in Hp.
Qed.

(** A marker's line or body ends later, at a boundary. *)
Lemma scan_conflict_marker_line_ok p ch size :
  B p -> rune_is s0 p ch size -> p < len -> is_line_break ch = false ->
  returns (scan_conflict_marker_line t p ch size) (fun q => B q /\ p < q).
Proof.
  intros HB Hr Hp Hch. unfold scan_conflict_marker_line.
  eapply (iterate_returns
    (fun '(q, c, n) => B q /\ rune_is s0 q c n /\ (p < q \/ (q = p /\ is_line_break c = false)))
    (fun '(q, _, _) => len - q)); [|split_and!; [done|done|by right]|lia].
  intros [[q c] n] (HBq & Hrq & Hq). destruct ((q <? len) && negb (is_line_break c)) eqn:E.
  - bools. pose proof (rune_next _ _ _ _ HBq Hrq ltac:(inside)) as [HBn Hn].
    pose proof (rune_nonempty _ _ _ _ Hrq ltac:(lia)).
    destruct (decode_rune_spec s0 Hok (q + n) HBn) as (c' & n' & -> & Hr'). cbn.
    split_and!; [done|done|left; lia|lia].
  - cbn. split; [done|]. destruct Hq as [|[-> Hc]]; [done|]. rewrite Hc in E. lia.
Qed.

Lemma scan_conflict_marker_body_ok p ch :
  char_is s0 p ch -> p < len -> ch = 61%Z \/ ch = 124%Z ->
  returns (scan_conflict_marker_body t p ch) (fun q => B q /\ p < q).
Proof.
  intros Hc Hp Hch. unfold scan_conflict_marker_body.
  eapply (iterate_returns (fun q => p <= q <= len) (fun q => len - q)); [|lia|lia].
  intros q Hq. destruct (q <? len) eqn:E.
  - destruct (lookup_lt_is_Some_2 t q ltac:(lia)) as [b Hb]. rewrite Hb. cbn [unwrap mbind result_bind].
    pose proof (char_is_lookup s0 Hok q b ltac:(lia) Hb) as Hcb.
    destruct (((b =r "=") || (b =r ">")) && negb (b =? ch)%Z) eqn:Em.
    + destruct (marker_probe_ok q b Hcb) as [x ->]; [unfold marker_char; lia|]. cbn.
      destruct x; cbn; [|lia]. split; [apply (B_here s0 Hok q b Hcb); lia|].
      assert (q <> p); [|lia]. intros ->. pose proof (char_det _ _ _ _ Hc Hcb). lia.
    + cbn. lia.
  - cbn. replace q with (end_ s0) by lia. split; [by apply B_len|lia].
Qed.

Lemma scan_conflict_marker_trivia_ok p c :
  char_is s0 p c -> marker_char c = true ->
  returns (scan_conflict_marker_trivia t p) (fun q => B q /\ p < q).
Proof.
  intros Hc Hm. pose proof (char_lt _ _ _ Hc ltac:(unfold marker_char in Hm; lia)) as Hp.
  assert (c < 128)%Z by (unfold marker_char in Hm; lia).
  assert (B p) as HB by (apply (B_here s0 Hok p c Hc); lia).
  unfold scan_conflict_marker_trivia.
  destruct (decode_rune_spec s0 Hok p HB) as (ch & size & -> & Hr). cbn [mbind result_bind].
  assert (ch = c) as ->.
  { destruct Hr as [(-> & _)|[(-> & _)|(b & Hb & ? & _ & _ & _ & _ & _ & H1 & _)]]; [lia|lia|].
    pose proof (char_det _ _ _ _ Hc Hb) as ->. by destruct H1. }
  destruct ((c =r "<") || (c =r ">")) eqn:E.
  - apply scan_conflict_marker_line_ok; try done; [lia|]. unfold is_line_break. lia.
  - apply scan_conflict_marker_body_ok; [done|lia|]. unfold marker_char in Hm. lia.
Qed.

Context {U : UnicodeId} {laws : UnicodeIdLaws U}.

(** ** The arms of the dispatch *)

(** An arm from [p] moves on and continues, or completes a token past [p]:
    only the end of the text is a token of no characters. *)
Definition opened (p : nat) (k : Kind) : Prop := forall c, opens k = Some c -> char_is s0 p c.

Lemma plain_eof k : plain k -> k <> Kind.EndOfFile.
Proof. by intros []. Qed.

Lemma plain_opened p k : plain k -> opened p k.
Proof. intros [_ Hk] c. by rewrite Hk. Qed.

(** The value of a name is text; a template without substitutions has none. *)
Definition told (p : nat) (k : Kind) (s : Scanner) : Prop :=
  (names k = true -> utf8 (token_value (state s)))
  /\ (k = Kind.NoSubstitutionTemplateLiteral -> rest_at s0 (p + 1) = Kind.NoSubstitutionTemplateLiteral).

Lemma told_mute p k s : mute k = true -> told p k s.
Proof.
  unfold mute. intros [H1 H2]%andb_true_iff. apply negb_true_iff in H1, H2. split; [congruence|].
  intros ->. by rewrite (proj2 (Kind.eqb_eq _ _) eq_refl) in H2.
Qed.

Lemma numeric_mute k : numeric_kind k -> mute k = true.
Proof. by intros [->| ->]. Qed.

Definition arm (p : nat) (again : bool) (s' : Scanner) : Prop :=
  if again then exists q, at_ q s' /\ B q /\ p < q
  else exists q s1 k, at_ q s1 /\ s' = with_state (with_token k) s1 /\ B q /\ opened p k /\ told p k s1
       /\ ((p < q /\ k <> Kind.EndOfFile) \/ (k = Kind.EndOfFile /\ p = len /\ q = p)).

Lemma wp_continue p q s : at_ q s -> B q -> p < q -> wp continue (arm p) s.
Proof. intros. by exists q. Qed.

Lemma wp_finish p q k s :
  at_ q s -> B q -> p < q -> k <> Kind.EndOfFile -> opened p k -> told p k s -> wp (finish k) (arm p) s.
Proof. intros. exists q, s, k. split_and!; try done. by left. Qed.

Lemma wp_take_token p q n k s :
  at_ q s -> B (q + n) -> p < q + n -> k <> Kind.EndOfFile -> opened p k -> mute k = true ->
  wp (take_token n k) (arm p) s.
Proof. intros. unfold take_token. wgo. eapply wp_finish; try done. by apply told_mute. Qed.

Lemma wp_trivia p q k s :
  at_ q s -> B q -> p < q -> k <> Kind.EndOfFile -> opened p k -> mute k = true -> wp (trivia k) (arm p) s.
Proof. intros. unfold trivia. wgo; [by eapply wp_continue|eapply wp_finish; try done; by apply told_mute]. Qed.

(** The first character of the token. *)
Ltac open :=
  first
  [ assumption
  | apply plain_opened; assumption
  | apply plain_opened, numeric_plain; assumption
  | let H := fresh in intros ? H; cbn in H; first [discriminate H | injection H as <-; first [assumption | congruence]] ].

(** Completes an arm. *)
Ltac arms :=
  inb;
  first
  [ eapply wp_continue; [eassumption|side|side]
  | eapply wp_finish; [eassumption|side|side|first [done|by apply plain_eof|by apply plain_eof, numeric_plain]|open
                      |apply told_mute; first [done|assumption|by apply numeric_mute]]
  | eapply wp_take_token; [eassumption|side|side|done|open|first [done|assumption]]
  | eapply wp_trivia; [eassumption|side|side|done|open|done] ].

Ltac punctuation :=
  intros; unfold scan_exclamation, scan_ampersand, scan_asterisk, scan_plus, scan_minus, scan_question,
    two, one; inb; wgo; arms.

Lemma scan_exclamation_arm p c s :
  at_ p s -> char_is s0 p c -> (0 <= c < 128)%Z -> wp scan_exclamation (arm p) s.
Proof. punctuation. Qed.
Lemma scan_ampersand_arm p c s :
  at_ p s -> char_is s0 p c -> (0 <= c < 128)%Z -> wp scan_ampersand (arm p) s.
Proof. punctuation. Qed.
Lemma scan_asterisk_arm p c s :
  at_ p s -> char_is s0 p c -> c = 42%Z -> wp scan_asterisk (arm p) s.
Proof. intros Hs Hc ->. punctuation. Qed.
Lemma scan_plus_arm p c s :
  at_ p s -> char_is s0 p c -> (0 <= c < 128)%Z -> wp scan_plus (arm p) s.
Proof. punctuation. Qed.
Lemma scan_minus_arm p c s :
  at_ p s -> char_is s0 p c -> (0 <= c < 128)%Z -> wp scan_minus (arm p) s.
Proof. punctuation. Qed.
Lemma scan_question_arm p c s :
  at_ p s -> char_is s0 p c -> c = 63%Z -> wp scan_question (arm p) s.
Proof. intros Hs Hc ->. punctuation. Qed.
Lemma two_arm next double single p c s :
  at_ p s -> char_is s0 p c -> (0 <= c < 128)%Z -> (0 <= next < 128)%Z ->
  double <> Kind.EndOfFile -> single <> Kind.EndOfFile -> opened p double -> opened p single ->
  mute double = true -> mute single = true -> wp (two next double single) (arm p) s.
Proof. punctuation. Qed.
Lemma one_arm k p c s :
  at_ p s -> char_is s0 p c -> (0 <= c < 128)%Z -> k <> Kind.EndOfFile -> opened p k -> mute k = true -> wp (one k) (arm p) s.
Proof. punctuation. Qed.

(** White space. *)
Lemma scan_single_line_spaces_safe p s :
  at_ p s -> B p -> wp scan_single_line_spaces (fun _ s' => exists q, at_ q s' /\ B q /\ p <= q) s.
Proof.
  intros Hs HB. unfold scan_single_line_spaces.
  eapply (wp_loop_at s0 Hok (fun _ q => B q /\ p <= q) (fun _ q => B q /\ p <= q)); [done|done| |].
  - intros _ q s1 Hs1 [HBq Hq]. wgo; runes; [by exists q|].
    destruct (decide (size = 0)) as [->|].
    { destruct H as [(-> & -> & _)|[(_ & ? & _)|(? & _ & _ & ? & _)]]; [done|lia|lia]. }
    exists (q + size). split_and!; done || lia.
  - intros _ q s1 Hs1 [HBq Hq]. by exists q.
Qed.

Lemma scan_whitespace_arm p c s :
  at_ p s -> char_is s0 p c -> (0 <= c < 128)%Z -> wp scan_whitespace (arm p) s.
Proof.
  intros Hs Hc Hlt. unfold scan_whitespace. inb. wgo; [arms|].
  eapply wp_mono; [eapply scan_single_line_spaces_safe; side|]. cbv beta. intros _ s2 (q & ? & ? & ?). arms.
Qed.

Lemma scan_newline_arm p c s :
  at_ p s -> char_is s0 p c -> (0 <= c < 128)%Z -> wp (scan_newline c) (arm p) s.
Proof.
  intros Hs Hc Hlt. unfold scan_newline. inb. wgo; bools; try arms.
  eapply wp_mono; [eapply scan_ascii_while_safe; [done|eassumption|lia]|].
  intros _ s2 (q & Hs2 & Hq & HBq & _). assert (B q) by (apply HBq; bnd). arms.
Qed.

(** Comments. *)
Lemma scan_line_comment_arm p c d s :
  at_ p s -> char_is s0 p c -> char_is s0 (p + 1) d -> (0 <= c < 128)%Z -> (0 <= d < 128)%Z ->
  wp scan_line_comment (arm p) s.
Proof.
  intros Hs Hc Hd Hlt Hltd. unfold scan_line_comment. inb. assert (B (p + 2)) by bnd. wgo.
  eapply (wp_loop_at s0 Hok (fun _ q => B q /\ p < q) (fun _ q => B q /\ p < q)); [done|split; [done|lia]| |].
  - intros _ q s1 Hs1 [HBq Hq]. inb. wgo.
    eapply wp_mono; [eapply scan_ascii_while_safe; [done|eassumption|lia]|].
    intros _ s2 (r & Hs2 & Hr & HBr & _). assert (B r) by by apply HBr. wgo; runes.
    + exists r. split_and!; done || lia.
    + exists (r + size). split_and!; done || lia.
  - intros _ q s1 Hs1 [HBq Hq]. arms.
Qed.

Lemma scan_block_comment_arm p c d s :
  at_ p s -> char_is s0 p c -> char_is s0 (p + 1) d -> (0 <= c < 128)%Z -> (0 <= d < 128)%Z ->
  wp scan_block_comment (arm p) s.
Proof.
  intros Hs Hc Hd Hlt Hltd. unfold scan_block_comment. inb. assert (B (p + 2)) by bnd. wgo.
  eapply (wp_loop_at s0 Hok (fun _ q => B q /\ p < q) (fun _ q => B q /\ p < q)); [done|split; [done|lia]| |].
  - intros _ q s1 Hs1 [HBq Hq]. inb. wgo.
    eapply wp_mono; [eapply scan_ascii_while_safe; [done|eassumption|lia]|].
    intros _ s2 (r & Hs2 & Hr & HBr & _). assert (B r) by by apply HBr. wgo; runes; inb.
    + exists r. split_and!; done || lia.
    + match goal with Hx : at_ ?q ?s |- exists p', _ p' ?s /\ _ => exists q end.
      split_and!; try done; try lia; bnd.
    + exists (r + size). split_and!; done || lia.
    + exists (r + size). split_and!; done || lia.
  - intros closed q s1 Hs1 [HBq Hq]. wgo; arms.
Qed.

Lemma scan_slash_arm p s : at_ p s -> char_is s0 p 47 -> wp scan_slash (arm p) s.
Proof.
  intros Hs Hc. unfold scan_slash. wgo.
  - eapply scan_line_comment_arm; [done|done|eassumption|lia|lia].
  - eapply scan_block_comment_arm; [done|done|eassumption|lia|lia].
  - eapply two_arm; done || open.
Qed.

(** Conflict markers. *)
Lemma scan_conflict_marker_safe p q c s :
  at_ q s -> char_is s0 p c -> marker_char c = true ->
  wp (scan_conflict_marker p) (fun r s' => at_ q s' /\ B r /\ p < r) s.
Proof.
  intros Hs Hc Hm. unfold scan_conflict_marker. wgo.
  eapply (wp_lift_text s0 (fun t => scan_conflict_marker_trivia t p)); [done|].
  eapply returns_mono; [by eapply scan_conflict_marker_trivia_ok|]. cbv beta. intros r [? ?]. done.
Qed.

Lemma conflict_marker_or_arm c otherwise p s :
  at_ p s -> char_is s0 p c -> marker_char c = true ->
  (forall s', at_ p s' -> wp otherwise (arm p) s') -> wp (conflict_marker_or c otherwise) (arm p) s.
Proof.
  intros Hs Hc Hm Hother. unfold conflict_marker_or. wgo; [|by apply Hother].
  eapply (wp_lift_text s0 (fun t => is_conflict_marker_trivia t p)); [done|].
  destruct (marker_probe_ok p c Hc Hm) as [b ->]. cbn [returns]. wgo; [|by apply Hother].
  eapply wp_mono; [by eapply scan_conflict_marker_safe|]. cbv beta. intros r s2 (Hs2 & HB & Hlt).
  wgo. arms.
Qed.

Lemma scan_less_than_arm p s : at_ p s -> char_is s0 p 60 -> wp scan_less_than (arm p) s.
Proof.
  intros Hs Hc. apply conflict_marker_or_arm; [done..|]. intros s' Hs'. inb. wgo; bools; arms.
Qed.
Lemma scan_equals_arm p s : at_ p s -> char_is s0 p 61 -> wp scan_equals (arm p) s.
Proof. intros Hs Hc. apply conflict_marker_or_arm; [done..|]. intros s' Hs'. inb. wgo; arms. Qed.
Lemma scan_greater_than_arm p s : at_ p s -> char_is s0 p 62 -> wp scan_greater_than (arm p) s.
Proof. intros Hs Hc. apply conflict_marker_or_arm; [done..|]. intros s' Hs'. eapply one_arm; done || open. Qed.
Lemma scan_bar_arm p s : at_ p s -> char_is s0 p 124 -> wp scan_bar (arm p) s.
Proof. intros Hs Hc. apply conflict_marker_or_arm; [done..|]. intros s' Hs'. inb. wgo; arms. Qed.

(** Literals. *)
Lemma scan_hex_literal_arm p c d s :
  at_ p s -> char_is s0 p c -> char_is s0 (p + 1) d -> (0 <= c < 128)%Z -> (0 <= d < 128)%Z ->
  wp scan_hex_literal (arm p) s.
Proof.
  intros Hs Hc Hd Hlt Hltd. unfold scan_hex_literal. inb. assert (B (p + 2)) by bnd. wgo.
  wcall scan_hex_digits_safe. assert (B p) by bnd. destruct a; wgo.
  all: wcall scan_big_int_suffix_safe; wgo; arms.
Qed.

Lemma scan_radix_literal_arm base prefix expected specifier p c d s :
  at_ p s -> char_is s0 p c -> char_is s0 (p + 1) d -> (0 <= c < 128)%Z -> (0 <= d < 128)%Z ->
  wp (scan_radix_literal base prefix expected specifier) (arm p) s.
Proof.
  intros Hs Hc Hd Hlt Hltd. unfold scan_radix_literal. inb. assert (B (p + 2)) by bnd. wgo.
  wcall scan_binary_or_octal_digits_safe. destruct a; wgo.
  all: wcall scan_big_int_suffix_safe; wgo; arms.
Qed.

Lemma scan_string_literal_arm p c s :
  at_ p s -> char_is s0 p c -> (0 <= c < 128)%Z -> wp scan_string_literal (arm p) s.
Proof.
  intros Hs Hc Hlt. unfold scan_string_literal. wgo. wcall scan_string_safe. wgo. arms.
Qed.

Lemma scan_backtick_arm p c s :
  at_ p s -> char_is s0 p c -> c = 96%Z -> wp scan_backtick (arm p) s.
Proof.
  intros Hs Hc ->. unfold scan_backtick. wgo. wcall scan_template_safe. wgo. inb.
  destruct H2 as [HR Hrest].
  eapply wp_finish; [eassumption|side|side|by eapply (template_kind_not_eof true)| |].
  - by destruct HR as [->| ->]; open.
  - split; [by destruct HR as [->| ->]|]. intros ->. symmetry. by apply Hrest.
Qed.

Lemma scan_dot_arm p s :
  at_ p s -> char_is s0 p 46 -> minus_before s0 p -> wp scan_dot (arm p) s.
Proof.
  intros Hs Hc Hm. unfold scan_dot. inb. assert (B p) by bnd. wgo; try arms.
  wcall scan_number_safe. match goal with HR : _ /\ _ |- _ => destruct HR end. wgo. arms.
Qed.

Lemma scan_digit_arm p c s :
  at_ p s -> char_is s0 p c -> is_digit c = true -> minus_before s0 p -> wp (scan_digit c) (arm p) s.
Proof.
  intros Hs Hc Hd Hm. assert (0 <= c < 128)%Z by (unfold is_digit in Hd; lia).
  unfold scan_digit. inb. assert (B p) by bnd. wgo; bools.
  - eapply scan_hex_literal_arm; [done|done|eassumption|lia|lia].
  - eapply scan_radix_literal_arm; [done|done|eassumption|lia|lia].
  - eapply scan_radix_literal_arm; [done|done|eassumption|lia|lia].
  - wcall scan_number_safe; try (by left). match goal with HR : _ /\ _ |- _ => destruct HR end. wgo. arms.
Qed.

(** Names and invalid characters. *)
Lemma keyword_plain value : plain (get_identifier_token value).
Proof.
  assert (Forall (fun '(_, k) => plain k) TEXT_TO_KEYWORD) as Hall
    by (repeat constructor; discriminate).
  assert (plain (default Kind.Identifier (keyword_kind value))) as Hk.
  { unfold keyword_kind. destruct (List.find _ _) as [[w k]|] eqn:E; simpl; [|done].
    apply List.find_some in E as [E _]. apply list_elem_of_In in E.
    by apply (proj1 (Forall_forall _ _) Hall) in E. }
  unfold get_identifier_token. destruct value; [done|]. by case_split.
Qed.

Lemma keyword_not_template value : get_identifier_token value <> Kind.NoSubstitutionTemplateLiteral.
Proof. intros H. destruct (keyword_plain value) as [_ Hp]. by rewrite H in Hp. Qed.

Lemma name_told p value s : utf8 (token_value (state s)) -> told p (get_identifier_token value) s.
Proof. intros Hu. split; [done|]. by intros ?%keyword_not_template. Qed.

Lemma scan_invalid_character_arm p s :
  at_ p s -> B p -> p < len -> wp scan_invalid_character (fun _ => wp (ret false) (arm p)) s.
Proof.
  intros Hs HB Hlt. unfold scan_invalid_character. wgo. runes.
  eapply (wp_finish p _ Kind.Unknown); [eassumption|side|lia|done|open|by apply told_mute].
Qed.

Lemma scan_escaped_name_safe prefix p s :
  at_ p s -> char_is s0 p 92 -> char_is s0 (p + 1) 117 ->
  utf8 prefix -> wp (scan_escaped_name prefix) (moved s0 (p + 2) (fun v _ => utf8 v)) s.
Proof.
  intros Hs H0 H1 Hu. unfold scan_escaped_name. wgo. wcall scan_unicode_escape_safe. wgo.
  wcall scan_identifier_parts_safe. wgo. eexists. split_and!; [eassumption|side|lia|].
  apply utf8_app; [by apply push_rune_utf8|done].
Qed.

Lemma scan_backslash_arm p s : at_ p s -> char_is s0 p 92 -> wp scan_backslash (arm p) s.
Proof.
  intros Hs Hc. unfold scan_backslash. inb. wgo.
  eapply wp_mono; [by eapply peek_unicode_escape_safe|]. cbv beta. intros cp s1 [Hs1 Hu].
  destruct ((0 <=? cp)%Z && is_identifier_start cp) eqn:E; bools.
  - wgo. wcall scan_escaped_name_safe; [apply Hu; lia|apply utf8_nil|].
    apply wp_bind. eapply wp_put_token_value; [eassumption|]. intros s3 Hs3 Hv.
    eapply wp_finish; [eassumption|side|lia|apply keyword_plain|apply plain_opened, keyword_plain|].
    by apply name_told; rewrite ?Hv.
  - apply wp_bind. apply scan_invalid_character_arm; side.
Qed.

Lemma scan_shebang_arm p c d s :
  at_ p s -> char_is s0 p c -> char_is s0 (p + 1) d -> (0 <= c < 128)%Z -> (0 <= d < 128)%Z ->
  wp scan_shebang (arm p) s.
Proof.
  intros Hs Hc Hd Hlt Hltd. unfold scan_shebang. inb. assert (B (p + 2)) by bnd. wgo.
  eapply (wp_loop_at s0 Hok (fun _ q => B q /\ p < q) (fun _ q => B q /\ p < q)); [done|split; [done|lia]| |].
  - intros _ q s1 Hs1 [HBq Hq]. wgo; runes.
    + exists q. split_and!; done.
    + exists (q + size). split_and!; done || lia.
  - intros _ q s1 Hs1 [HBq Hq]. arms.
Qed.

Lemma scan_private_identifier_arm p s :
  at_ p s -> char_is s0 p 35 -> wp scan_private_identifier (arm p) s.
Proof.
  intros Hs Hc. unfold scan_private_identifier. inb. assert (B p) by bnd. assert (B (p + 1)) by bnd.
  apply wp_bind. eapply wp_mono; [by eapply scan_identifier_safe|]. cbv beta.
  intros found s1 [(q & Hs1 & HB & Hq & Hf) Hv]. destruct found; cbn [negb].
  - wgo. eapply wp_finish; [eassumption|side|lia|done|open|]. by split; [intros _; apply Hv|].
  - unfold when. apply wp_bind, wp_bind. eapply wp_get_pos; [done|]. apply wp_bind.
    eapply wp_error_at; [done|]. intros s2 Hs2. eapply wp_put_token_value; [done|]. intros s3 Hs3 Hv3.
    eapply wp_finish; [done|side|lia|done|open|]. split; [|done]. intros _. rewrite Hv3. by apply asciib_utf8.
Qed.

Lemma scan_hash_arm p s : at_ p s -> char_is s0 p 35 -> wp scan_hash (arm p) s.
Proof.
  intros Hs Hc. unfold scan_hash. inb. wgo; try arms.
  - eapply scan_shebang_arm; [done|done|eassumption|lia|lia].
  - assert (ch = 92%Z) as -> by lia.
    eapply wp_mono; [by eapply peek_unicode_escape_safe|]. cbv beta. intros cp s2 [Hs2 Hu].
    destruct ((0 <=? cp)%Z && is_identifier_start cp) eqn:E1; bools.
    + apply wp_bind. wcall scan_escaped_name_safe; [apply Hu; lia|by apply asciib_utf8|].
      apply wp_bind. eapply wp_put_token_value; [eassumption|]. intros s3 Hs3 Hv.
      eapply wp_finish; [eassumption|side|lia|done|open|]. split; [|done]. intros _. by rewrite Hv.
    + wgo. apply scan_private_identifier_arm; [conv|done].
  - by apply scan_private_identifier_arm.
Qed.

Lemma scan_default_arm p c s :
  at_ p s -> B p -> char_is s0 p c -> wp (scan_default c) (arm p) s.
Proof.
  intros Hs HB Hc. unfold scan_default. inb. wgo.
  { exists p, s, Kind.EndOfFile. split_and!; try done; try by apply told_mute. right.
    pose proof (char_eof _ _ _ Hc ltac:(lia)). split_and!; [done|lia|done]. }
  inb. assert (B (p + 0)) by bnd. eapply wp_mono; [by eapply scan_identifier_safe|]. cbv beta.
  rewrite Nat.add_0_r. intros found s1 [(q & Hs1 & HBq & Hq & Hf) Hv]. destruct found; simpl in Hf.
  { apply wp_bind. eapply wp_get_token_value; [done|]. intros v ->.
    eapply wp_finish; [eassumption|side|done|apply keyword_plain|apply plain_opened, keyword_plain|].
    by apply name_told, Hv. }
  subst q. wgo; runes.
  all: match goal with Hr : rune_is _ _ _ _ |- _ => pose proof (rune_nonempty _ _ _ _ Hr ltac:(lia)) end.
  - rewrite <- Hwhole in *. eapply (wp_finish p (end_ s0)); [eassumption|by apply B_len|done|done|open|by apply told_mute].
  - arms.
  - eapply wp_mono; [eapply scan_single_line_spaces_safe; side|]. cbv beta. intros _ s2 (r & ? & ? & ?). arms.
  - arms.
  - apply (scan_invalid_character_arm p); [done|done|lia].
Qed.
End total.

Section scan.
Context {U : UnicodeId} {laws : UnicodeIdLaws U}.

(** The scanner between tokens: at a boundary of its text, past the start
    when the last token was a minus sign. *)
Record scanner_ok (s : Scanner) : Prop := {
  ok_text : text_ok s;
  ok_whole : whole s;
  ok_probe : probe_safe (text s) = true;
  ok_boundary : is_char_boundary (text s) (pos (state s)) = true;
  ok_minus : token (state s) = Kind.MinusToken -> 0 < pos (state s)
}.

(** The scanner after a piece of the text: the text and the options are
    those of [s0], its errors are kept, the position is [q]. *)
Record follows (s0 : Scanner) (q : nat) (s : Scanner) : Prop := {
  fo_text : text s = text s0;
  fo_end : end_ s = end_ s0;
  fo_jsx : jsx s = jsx s0;
  fo_skips : skips_trivia s = skips_trivia s0;
  fo_version : language_version s = language_version s0;
  fo_diagnostics : diagnostics s0 `prefix_of` diagnostics s;
  fo_full_start : full_start_pos (state s) = full_start_pos (state s0);
  fo_pos : pos (state s) = q
}.

(** The token of the scanner starts with the character that opens it. *)
Definition opened_at (t : str) (p : nat) (k : Kind) : Prop := forall c, opens k = Some c -> t !! p = Some c.

Lemma opens_ascii k c : opens k = Some c -> (0 <= c < 128)%Z.
Proof. destruct k; simpl; intros [= <-]; lia. Qed.

(** The value of a name is text, and a template without substitutions has none. *)
Definition told_at (t : str) (p : nat) (k : Kind) (value : str) : Prop :=
  (names k = true -> utf8 value)
  /\ (k = Kind.NoSubstitutionTemplateLiteral -> template_rest (drop (p + 1) t) = Kind.NoSubstitutionTemplateLiteral).

(** One round: trivia skipped, or a token from the position of the round. *)
Definition step_post (s0 : Scanner) (again : bool) (s : Scanner) : Prop :=
  exists q, follows s0 q s /\ is_char_boundary (text s0) q = true /\ token_start (state s) = pos (state s0) /\
  if again then token (state s) = token (state s0) /\ pos (state s0) < q
  else opened_at (text s0) (pos (state s0)) (token (state s)) /\
       told_at (text s0) (pos (state s0)) (token (state s)) (token_value (state s)) /\
       ((pos (state s0) < q /\ token (state s) <> Kind.EndOfFile)
       \/ (token (state s) = Kind.EndOfFile /\ pos (state s0) = length (text s0) /\ q = pos (state s0))).

Lemma arm_step s0 again s :
  let s1 := with_state (with_token_start (pos (state s0))) s0 in
  arm s1 (pos (state s0)) again s -> step_post s0 again s.
Proof.
  intros s1. unfold arm. destruct again.
  - intros (q & [] & [HB _] & Hq). exists q. split_and!; done.
  - intros (q & s2 & k & [] & -> & [HB _] & Ho & Htold & Hq). exists q. split_and!; [done..| | |done].
    + intros c Hc. apply (char_lookup s1); [by apply Ho|]. by apply opens_ascii in Hc as [].
    + exact Htold.
Qed.

(** The lemma of the arm the goal runs. *)
Ltac run_arm :=
  first
  [ eapply scan_whitespace_arm | eapply scan_newline_arm | eapply scan_exclamation_arm
  | eapply scan_string_literal_arm | eapply scan_backtick_arm | eapply scan_ampersand_arm
  | eapply scan_asterisk_arm | eapply scan_plus_arm | eapply scan_minus_arm | eapply scan_dot_arm
  | eapply scan_slash_arm | eapply scan_digit_arm | eapply scan_less_than_arm | eapply scan_equals_arm
  | eapply scan_greater_than_arm | eapply scan_question_arm | eapply scan_bar_arm
  | eapply scan_backslash_arm | eapply scan_hash_arm | eapply one_arm | eapply two_arm ];
  first
  [ eassumption | done | conv | lia | reflexivity | apply plain_opened; done
  | let H := fresh in intros ? H; injection H as <-; conv ].

Lemma scan_step_ok s : scanner_ok s -> wp scan_step (step_post s) s.
Proof.
  intros [Hok Hw Hpr HB Hm].
  pose (s1 := with_state (with_token_start (pos (state s))) s).
  assert (text_ok s1) as Hok1 by (destruct Hok; by split).
  assert (whole s1) as Hw1 by done.
  assert (probe_safe (text s1) = true) as Hpr1 by done.
  assert (at_ s1 (pos (state s)) s1) as Hs1 by apply (at_refl s1).
  assert (B s1 (pos (state s))) as HB1 by (split; [done|]; rewrite Hw1; by apply boundary_le).
  assert (minus_before s1 (pos (state s))) as Hm1 by done.
  set (p := pos (state s)) in *.
  eapply (wp_mono _ (arm s1 p)); [|intros again s2; apply arm_step].
  unfold scan_step. apply wp_bind. eapply (wp_char s Hok); [apply at_refl|]. intros c Hc.
  apply wp_bind. eapply wp_get_pos; [apply (at_refl s)|]. cbv beta.
  apply wp_bind. change (wp (set_token_start (pos (state s))) ?Q s) with (Q tt s1). cbv beta.
  fold p in Hc. change (char_is s1 p c) in Hc.
  clearbody s1. clear HB Hm Hpr Hok Hw.
  repeat (lazymatch goal with |- wp (if ?b then _ else _) _ _ =>
    let E := fresh "E" in destruct b eqn:E; [run_arm|clear E] end).
  by apply scan_default_arm.
Qed.

(** What [scan] answers: a token from [token_start], at or after the old
    position, to the new one; empty only at the end of the text. *)
Definition scan_post (s0 : Scanner) (k : Kind) (s : Scanner) : Prop :=
  exists q, text s = text s0 /\ end_ s = end_ s0 /\ jsx s = jsx s0 /\ skips_trivia s = skips_trivia s0
    /\ language_version s = language_version s0 /\ diagnostics s0 `prefix_of` diagnostics s
    /\ full_start_pos (state s) = pos (state s0) /\ pos (state s) = q /\ token (state s) = k
    /\ pos (state s0) <= token_start (state s) /\ token_start (state s) <= q
    /\ is_char_boundary (text s0) (token_start (state s)) = true /\ is_char_boundary (text s0) q = true
    /\ opened_at (text s0) (token_start (state s)) k
    /\ told_at (text s0) (token_start (state s)) k (token_value (state s))
    /\ (k <> Kind.EndOfFile -> token_start (state s) < q)
    /\ (k = Kind.EndOfFile -> token_start (state s) = length (text s0) /\ q = length (text s0)).

Lemma follows_trans s0 p s1 q s2 : follows s0 p s1 -> follows s1 q s2 -> follows s0 q s2.
Proof. intros [] []. split; try congruence. by etrans. Qed.

Lemma text_ok_follows s0 p s : text_ok s0 -> follows s0 p s -> text_ok s.
Proof. intros [] []. split; congruence. Qed.

Lemma scan_ok s : scanner_ok s -> wp scan (fun k s' => scan_post s k s' /\ scanner_ok s') s.
Proof.
  intros Hs. pose proof (ok_boundary s Hs) as HB. pose proof (ok_text s Hs) as Ht. unfold scan.
  apply wp_bind, wp_bind, wp_bind.
  pose (s0 := with_state (with_token_flags TokenFlags.None) (with_state (with_full_start_pos (pos (state s))) s)).
  change (wp (loop (L := unit) (fun _ => again ← scan_step; if again : bool then ret (inl tt) else k ← get_token; ret (inr k)) tt)
    (fun k s' => scan_post s k s' /\ scanner_ok s') s0).
  eapply (wp_loop _ (fun _ s1 => scanner_ok s1 /\ pos (state s) <= pos (state s1)
                     /\ follows s0 (pos (state s1)) s1 /\ token (state s1) = token (state s))).
  { split; [destruct Hs, Ht; split; try done; by split|]. split; [simpl; lia|]. by split. }
  intros _ s1 (Hs1 & Hle & Hf & Htok). apply wp_bind.
  eapply wp_mono; [by apply scan_step_ok|]. cbv beta.
  intros again s2 (q & Hf2 & HBq & Hstart & Hq).
  pose proof (follows_trans _ _ _ _ _ Hf Hf2) as Hf'.
  pose proof (fo_text _ _ _ Hf) as Et. change (text s0) with (text s) in Et.
  pose proof (fo_text _ _ _ Hf2) as Et2. pose proof (fo_pos _ _ _ Hf2) as Ep2.
  pose proof (ok_boundary s1 Hs1) as HB1. rewrite Et in HB1, HBq.
  pose proof (boundary_le _ _ HB1). pose proof (boundary_le _ _ HBq).
  assert (scanner_ok s2) as Hs2.
  { split; [by eapply text_ok_follows; [apply (ok_text s1 Hs1)|]| |rewrite Et2; apply (ok_probe s1 Hs1)| |].
    - rewrite (fo_end _ _ _ Hf2), Et2. apply (ok_whole s1 Hs1).
    - rewrite Et2, Ep2, Et. done.
    - intros Hk. rewrite Ep2. destruct again; [lia|]. destruct Hq as (_ & _ & [|[Hk' _]]); [lia|congruence]. }
  destruct again.
  - cbn. destruct Hq as [Htok2 Hlt]. rewrite Ep2. split_and!; try done; try lia; congruence.
  - cbn. split; [|done]. rewrite Et in Hq. destruct Hf'.
    assert (pos (state s1) <= q) by (destruct Hq as (_ & _ & [[? ?]|(_ & _ & ->)]); lia).
    destruct Hq as (Ho & Htold & Hq).
    exists q. rewrite Hstart. do 13 (split; [done || lia|]). split; [done|]. split; [done|]. split.
    + intros ?. by destruct Hq as [[? _]|(? & _)].
    + intros Hk. destruct Hq as [[_ ?]|(_ & ? & ?)]; [congruence|]. split; congruence.
Qed.

Lemma new_ok t jsx : utf8 t -> probe_safe t = true -> scanner_ok (new t jsx).
Proof. intros Hu Hp. split; [by apply text_ok_whole|done|done|by apply boundary_zero|done]. Qed.

(** C1 Scanning is total: over valid text whose conflict marker probes stay
    on character boundaries, [scan] answers a token, [full_start_pos] the old
    position, [token_start] and the new position boundaries after it, the
    token empty only at the end of the text; the text and the options are
    unchanged, errors are only added, and the scanner is ready for the next
    token. *)
Theorem scan_total s :
  scanner_ok s -> exists k s', scan s = Ok (k, s') /\ scan_post s k s' /\ scanner_ok s'.
Proof. intros Hs. by apply wp_ok, scan_ok. Qed.

(** ** The tokens of a text *)

(** The kind, full start, start and end of a token. *)
Record span := { span_kind : Kind; span_full_start : nat; span_start : nat; span_end : nat }.

Definition span_of (k : Kind) (s : Scanner) : span :=
  {| span_kind := k; span_full_start := full_start_pos (state s);
     span_start := token_start (state s); span_end := pos (state s) |}.

(** [scan] until the end of the text. *)
Fixpoint tokens (fuel : nat) : M (list span) :=
  match fuel with
  | O => fun _ => OutOfFuel
  | S fuel =>
      k ← scan;
      tok ← gets (span_of k);
      if Kind.eqb k Kind.EndOfFile then ret [tok]
      else toks ← tokens fuel; ret (tok :: toks)
  end.

(** The spans cover [p, e) in order: each begins, with its leading trivia,
    where the one before ends, and only the last, the end of file, is empty. *)
Inductive tiles (e : nat) : nat -> list span -> Prop :=
| tiles_eof tok :
    span_kind tok = Kind.EndOfFile -> span_full_start tok <= span_start tok ->
    span_start tok = e -> span_end tok = e -> tiles e (span_full_start tok) [tok]
| tiles_cons tok toks :
    span_kind tok <> Kind.EndOfFile -> span_full_start tok <= span_start tok ->
    span_start tok < span_end tok -> tiles e (span_end tok) toks ->
    tiles e (span_full_start tok) (tok :: toks).

Lemma tokens_ok fuel s :
  scanner_ok s -> length (text s) - pos (state s) < fuel ->
  wp (tokens fuel) (fun toks _ => tiles (length (text s)) (pos (state s)) toks) s.
Proof.
  revert s; induction fuel as [|fuel IH]; intros s Hs Hf; [lia|].
  cbn [tokens]. apply wp_bind. eapply wp_mono; [by apply scan_ok|]. cbv beta.
  intros k s' [(q & Et & _ & _ & _ & _ & _ & Hfs & Hp & Htok & Hst & Hst' & _ & HB & _ & _ & Hne & Heof) Hs'].
  apply wp_bind. change (wp (gets (span_of k)) ?Q s') with (Q (span_of k s') s'). cbv beta.
  pose proof (boundary_le _ _ HB).
  change (pos (state s)) with (pos (state s)). rewrite <- Hfs.
  change (full_start_pos (state s')) with (span_full_start (span_of k s')).
  destruct (Kind.eqb k Kind.EndOfFile) eqn:E.
  - apply Kind.eqb_eq in E. destruct (Heof E) as [? ?].
    apply tiles_eof; simpl; congruence || lia.
  - assert (k <> Kind.EndOfFile) as Hk by (intros ->; by rewrite (proj2 (Kind.eqb_eq _ _) eq_refl) in E).
    specialize (Hne Hk). apply wp_bind.
    eapply wp_mono; [apply IH; [done|rewrite Et, Hp; lia]|]. cbv beta. intros toks s2 Htiles.
    rewrite Et in Htiles. apply tiles_cons; simpl; try done; lia.
Qed.

(** C2 Tokenizing terminates: from the start of a valid text whose conflict
    marker probes stay on character boundaries, at most one token per byte and
    the end of file cover the text without gap or overlap. *)
Theorem tokens_tile t jsx :
  utf8 t -> probe_safe t = true ->
  exists toks s', tokens (S (length t)) (new t jsx) = Ok (toks, s') /\ tiles (length t) 0 toks.
Proof.
  intros Hu Hp. apply wp_ok. apply (tokens_ok (S (length t)) (new t jsx)); [by apply new_ok|simpl; lia].
Qed.
End scan.

Lemma scan_total_witness :
  exists k s', scan (H := latin1) (new (lit "é = 1") false) = Ok (k, s')
    /\ scan_post (new (lit "é = 1") false) k s' /\ scanner_ok s'.
Proof.
  apply (scan_total (U := latin1) (new (lit "é = 1") false)). apply new_ok; [|by vm_compute].
  exists [233; 32; 61; 32; 49]%Z. split; [by repeat constructor|by vm_compute].
Defined.

Lemma tokens_tile_witness :
  exists toks s', tokens (U := latin1) 15 (new (lit "let a = 'b\n';") true) = Ok (toks, s') /\ tiles 14 0 toks.
Proof. apply (tokens_tile (U := latin1) (lit "let a = 'b\n';") true); [by apply asciib_utf8|by vm_compute]. Defined.

(** C24 [é == 1] has no tokens: the marker probe at [==] panics. *)
Theorem tokens_panic : tokens (U := latin1) 100 (new (lit "é == 1") false) = Panic.
Proof. by vm_compute. Qed.
