(* ===== verification/ScanBlind.v ===== *)
(** * The scanner does not read its errors

    A scan answers the same token, in the same state, whatever errors were
    reported before it: the errors are only written. *)

From S2P Require Import Prelude Utf8 RustStr Chars Kind Diagnostics ScanText ScanState ScanEscapes ScanNumbers Scan.

(** The scanner with other errors. *)
Definition with_notes (ds : list Diagnostic) (b : bool) (s : Scanner) : Scanner :=
  {| text := text s; end_ := end_ s; jsx := jsx s; skips_trivia := skips_trivia s; state := state s;
     diagnostics := ds; has_parse_error := b; language_version := language_version s |}.

Definition blind {A} (m : M A) : Prop := forall s a s' ds b,
  m s = Ok (a, s') -> exists ds' b', m (with_notes ds b s) = Ok (a, with_notes ds' b' s').

Section blind.
Context {A B : Type}.

Lemma blind_ret (a : A) : blind (ret a).
Proof. intros s ? ? ds b [= <- <-]. by exists ds, b. Qed.

Lemma blind_gets (f : Scanner -> A) : (forall s ds b, f (with_notes ds b s) = f s) -> blind (gets f).
Proof. intros Hf s ? ? ds b [= <- <-]. exists ds, b. unfold gets. by rewrite Hf. Qed.

Lemma blind_lift (f : Scanner -> result A) : (forall s ds b, f (with_notes ds b s) = f s) -> blind (lift f).
Proof.
  intros Hf s a s' ds b. unfold lift. rewrite Hf. destruct (f s); [|done..]. intros [= <- <-]. by exists ds, b.
Qed.

Lemma blind_state (f : ScannerState -> ScannerState) : blind (modify (with_state f)).
Proof. intros s ? ? ds b [= <- <-]. by exists ds, b. Qed.

Lemma blind_bind (m : M A) (f : A -> M B) : blind m -> (forall a, blind (f a)) -> blind (m ≫= f).
Proof.
  intros Hm Hf s b s' ds e. unfold mbind, M_bind. destruct (m s) as [[a s1]| |] eqn:E; [|done..]. intros Hb.
  destruct (Hm s a s1 ds e E) as (ds' & e' & ->). by apply (Hf a s1).
Qed.

Lemma blind_if (b : bool) (m n : M A) : blind m -> blind n -> blind (if b then m else n).
Proof. by destruct b. Qed.
End blind.

Lemma blind_when b (m : M unit) : blind m -> blind (when b m).
Proof. intros Hm. destruct b; [done|apply blind_ret]. Qed.

Lemma blind_error_at_range a b m args : blind (error_at_range a b m args).
Proof. intros s ? ? ds e [= <- <-]. by eexists _, _. Qed.

Lemma blind_loop_fuel {L A} fuel (body : L -> M (L + A)) init : (forall l, blind (body l)) -> blind (loop_fuel fuel body init).
Proof.
  intros Hb. unfold blind, loop_fuel. revert init. induction fuel as [|fuel IH]; intros init s a s' ds b; [done|].
  cbn [iterate]. destruct (body init s) as [[[l|r] s1]| |] eqn:E; try done.
  - intros Hrun. destruct (Hb init s (inl l) s1 ds b E) as (ds' & b' & ->). by apply IH.
  - intros [= <- <-]. destruct (Hb init s (inr r) s1 ds b E) as (ds' & b' & ->). by exists ds', b'.
Qed.

Lemma blind_loop {L A} (body : L -> M (L + A)) init : (forall l, blind (body l)) -> blind (loop body init).
Proof. intros Hb s a s' ds b H. by apply (blind_loop_fuel _ _ _ Hb s). Qed.

Create HintDb blind discriminated.
#[export] Hint Resolve blind_error_at_range : blind.

Ltac blinds :=
  repeat
  lazymatch goal with
  | |- blind (mbind _ _) => apply blind_bind; [|intros ?]
  | |- blind (ret _) => apply blind_ret
  | |- blind (gets _) => apply blind_gets; reflexivity
  | |- blind (lift _) => apply blind_lift; reflexivity
  | |- blind (modify (with_state _)) => apply blind_state
  | |- blind (when _ _) => apply blind_when
  | |- blind (if ?b then _ else _) => first [apply blind_if | destruct b]
  | |- blind (loop _ _) => apply blind_loop; intros ?
  | |- blind (match ?x with _ => _ end) => destruct x
  | |- _ => solve [eauto with blind]
  end.

Ltac blinding f := unfold f; cbv zeta; blinds.

Lemma blind_set_pos p : blind (set_pos p).
Proof. apply blind_state. Qed.
Lemma blind_advance p : blind (advance p).
Proof. apply blind_state. Qed.
Lemma blind_retreat p : blind (retreat p).
Proof. apply blind_state. Qed.
Lemma blind_set_token_start p : blind (set_token_start p).
Proof. apply blind_state. Qed.
Lemma blind_set_full_start_pos p : blind (set_full_start_pos p).
Proof. apply blind_state. Qed.
Lemma blind_set_token k : blind (set_token k).
Proof. apply blind_state. Qed.
Lemma blind_set_token_value v : blind (set_token_value v).
Proof. apply blind_state. Qed.
Lemma blind_set_token_flags f : blind (set_token_flags f).
Proof. apply blind_state. Qed.
Lemma blind_add_flags f : blind (add_flags f).
Proof. apply blind_state. Qed.
#[export] Hint Resolve blind_set_pos blind_advance blind_retreat blind_set_token_start blind_set_full_start_pos
  blind_set_token blind_set_token_value blind_set_token_flags blind_add_flags : blind.

Lemma blind_get_pos : blind get_pos.
Proof. by apply blind_gets. Qed.
Lemma blind_get_token : blind get_token.
Proof. by apply blind_gets. Qed.
Lemma blind_get_token_value : blind get_token_value.
Proof. by apply blind_gets. Qed.
Lemma blind_get_token_flags : blind get_token_flags.
Proof. by apply blind_gets. Qed.
Lemma blind_char_and_size : blind char_and_size.
Proof. by apply blind_lift. Qed.
Lemma blind_text_slice a b : blind (text_slice a b).
Proof. by apply blind_lift. Qed.
Lemma blind_bytes_slice a b : blind (bytes_slice a b).
Proof. by apply blind_lift. Qed.
Lemma blind_byte_at p : blind (byte_at p).
Proof. by apply blind_lift. Qed.
Lemma blind_error_at m p n args : blind (error_at m p n args).
Proof. apply blind_error_at_range. Qed.
#[export] Hint Resolve blind_get_pos blind_get_token blind_get_token_value blind_get_token_flags
  blind_char_and_size blind_text_slice blind_bytes_slice blind_byte_at blind_error_at : blind.

Lemma blind_error m : blind (error m).
Proof. unfold error; blinds. Qed.
Lemma blind_char : blind char.
Proof. blinding char. Qed.
Lemma blind_char_at n : blind (char_at n).
Proof. unfold char_at; blinds. Qed.
Lemma blind_scan_ascii_while pred : blind (scan_ascii_while pred).
Proof. unfold scan_ascii_while; blinds. Qed.
#[export] Hint Resolve blind_error blind_char blind_char_at blind_scan_ascii_while : blind.

(** ** Escapes, strings and templates *)

Lemma blind_scan_hex_digits n a b : blind (scan_hex_digits n a b).
Proof. unfold scan_hex_digits, misplaced_separator, trailing_separator. blinds. Qed.
#[export] Hint Resolve blind_scan_hex_digits : blind.
Lemma blind_scan_unicode_escape b : blind (scan_unicode_escape b).
Proof. unfold scan_unicode_escape, finish_extended_escape. cbv zeta. blinds. Qed.
#[export] Hint Resolve blind_scan_unicode_escape : blind.
Lemma blind_scan_low_surrogate_escape h : blind (scan_low_surrogate_escape h).
Proof. blinding scan_low_surrogate_escape. Qed.
Lemma blind_peek_unicode_escape : blind peek_unicode_escape.
Proof. blinding peek_unicode_escape. Qed.
#[export] Hint Resolve blind_scan_low_surrogate_escape blind_peek_unicode_escape : blind.

Section scan.
Context `{UnicodeId}.

Lemma blind_scan_escape_sequence flags : blind (scan_escape_sequence flags).
Proof.
  unfold scan_escape_sequence, scan_escape_sequence_bytes, scan_octal_escape, scan_decimal_escape, scan_u_escape,
    scan_x_escape, scan_other_escape. cbv zeta. blinds.
Qed.
Hint Resolve blind_scan_escape_sequence : blind.

Lemma blind_scan_identifier_parts : blind scan_identifier_parts.
Proof. unfold scan_identifier_parts; blinds. Qed.
Hint Resolve blind_scan_identifier_parts : blind.

Lemma blind_scan_identifier n : blind (scan_identifier n).
Proof. unfold scan_identifier, scan_identifier_slow. blinds. Qed.
Hint Resolve blind_scan_identifier : blind.

Lemma blind_scan_string b : blind (scan_string b).
Proof. unfold scan_string, scan_string_fast, scan_string_loop, unterminated_string. cbv zeta. blinds. Qed.
Hint Resolve blind_scan_string : blind.

Lemma blind_scan_template b : blind (scan_template_and_set_token_value b).
Proof. unfold scan_template_and_set_token_value, scan_template_step. cbv zeta. blinds. Qed.
Hint Resolve blind_scan_template : blind.

(** ** Numbers *)

Lemma blind_scan_number_fragment : blind scan_number_fragment.
Proof. unfold scan_number_fragment, misplaced_separator. cbv zeta. blinds. Qed.
Hint Resolve blind_scan_number_fragment : blind.

Lemma blind_scan_binary_or_octal_digits base : blind (scan_binary_or_octal_digits base).
Proof. unfold scan_binary_or_octal_digits, misplaced_separator, trailing_separator. cbv zeta. blinds. Qed.
Lemma blind_scan_big_int_suffix : blind scan_big_int_suffix.
Proof. blinding scan_big_int_suffix. Qed.
Hint Resolve blind_scan_binary_or_octal_digits blind_scan_big_int_suffix : blind.

Lemma blind_scan_number : blind scan_number.
Proof.
  unfold scan_number, scan_leading_zero, scan_number_rest, scan_fraction_and_exponent, set_number_value,
    check_following_identifier, scan_digits, legacy_octal_literal. cbv zeta. blinds.
Qed.
Hint Resolve blind_scan_number : blind.

(** ** Tokens *)

Lemma blind_finish k : blind (finish k).
Proof. unfold finish; blinds. Qed.
Hint Resolve blind_finish : blind.

Lemma blind_scan_step : blind scan_step.
Proof.
  unfold scan_step, scan_whitespace, scan_newline, scan_exclamation, scan_string_literal, scan_backtick, scan_ampersand,
    scan_asterisk, scan_plus, scan_minus, scan_dot, scan_slash, scan_digit, scan_less_than, scan_equals,
    scan_greater_than, scan_question, scan_bar, scan_backslash, scan_hash, scan_default, conflict_marker_or,
    scan_conflict_marker, scan_line_comment, scan_block_comment, scan_hex_literal, scan_radix_literal,
    scan_private_identifier, scan_shebang, scan_escaped_name, scan_invalid_character, scan_single_line_spaces,
    two, one, take_token, trivia, continue. cbv zeta. blinds.
Qed.
Hint Resolve blind_scan_step : blind.

Lemma blind_scan : blind scan.
Proof. unfold scan; blinds. Qed.
End scan.
