(* ===== verification/SkipTrivia.v ===== *)
(** * Skipping trivia is total

    [skip_trivia] of [surge-ts-tsc-syntax/src/scanner.rs] is run over the start
    of a node for the range of an error: from a boundary of the text it answers
    a later one. *)

From S2P Require Import Prelude Utf8 RustStr Chars Kind Diagnostics ScanText ScanState ScanLogic ScanSafe ScanTotal.

Local Open Scope nat_scope.

Section skip.
Context (t : str) (Hutf8 : utf8 t) (Hprobe : probe_safe t = true).
Local Abbreviation s0 := (new t false).
Local Abbreviation B := (B s0).

Lemma skip_ok : text_ok s0.
Proof. by apply text_ok_whole. Qed.
Hint Resolve skip_ok : core.

(** The character at a position inside the text, decoded. *)
Lemma decode_inside p :
  B p -> p < length t -> exists b ch size,
    t !! p = Some b /\ char_is s0 p b /\ decode_rune t p (length t) = Ok (ch, size)
    /\ B (p + size) /\ 0 < size /\ p + size <= length t
    /\ ((ch < 128)%Z -> b = ch /\ size = 1).
Proof.
  intros HB Hlt. destruct (decode_rune_spec s0 skip_ok p HB) as (ch & size & Hd & Hr).
  destruct (lookup_lt_is_Some_2 t p Hlt) as [b Hb].
  pose proof (char_is_lookup s0 skip_ok p b Hlt Hb) as Hc.
  destruct Hr as [(? & _)|[(? & _)|(b' & Hc' & ? & ? & ? & ? & _ & _ & Hlow & Hhigh)]]; [simpl in *; lia|simpl in *; lia|].
  pose proof (char_det _ _ _ _ Hc Hc') as <-. exists b, ch, size. split_and!; try done.
  intros Hch. destruct (Z.ltb_spec b 128) as [Hb'|Hb']; [by destruct (Hlow Hb') as [-> ->]|]. specialize (Hhigh Hb'). lia.
Qed.

Lemma B_ascii p c : t !! p = Some c -> (0 <= c < 128)%Z -> B (S p).
Proof.
  intros Hc ?. rewrite <- Nat.add_1_r. eapply B_next; [done| |done]. apply char_is_lookup; [done| |done].
  by apply lookup_lt_Some in Hc.
Qed.

Lemma skip_line_total p : B p -> returns (skip_line t p) (fun q => B q /\ p <= q).
Proof.
  intros HB. unfold skip_line.
  apply (iterate_returns (fun q => B q /\ p <= q) (fun q => length t - q)); [|done|lia].
  intros q [HBq Hq]. destruct (Nat.ltb_spec q (length t)); [|done].
  destruct (decode_inside q) as (b & ch & size & _ & _ & -> & ? & ? & ? & _); [done..|]. cbn.
  destruct (is_line_break ch); cbn; split_and!; done || lia.
Qed.

Lemma skip_block_comment_total p : B p -> returns (skip_block_comment t p) (fun q => B q /\ p <= q).
Proof.
  intros HB. unfold skip_block_comment.
  apply (iterate_returns (fun q => B q /\ p <= q) (fun q => length t - q)); [|done|lia].
  intros q [HBq Hq]. destruct (Nat.ltb_spec q (length t)); [|done].
  destruct (decode_inside q) as (b & ch & size & Hb & _ & -> & ? & ? & ? & _); [done..|].
  rewrite Hb. cbn [unwrap mbind result_bind]. destruct (_ && _) eqn:E; [|cbn; split_and!; done || lia].
  apply andb_true_iff in E as [E1 E2%bool_decide_eq_true]. cbn. split; [|lia].
  replace (q + 2) with (S (S q)) by lia. by eapply B_ascii.
Qed.

Lemma skip_trivia_total p :
  is_char_boundary t p = true ->
  exists q, skip_trivia t p = Ok q /\ is_char_boundary t q = true /\ p <= q.
Proof.
  intros Hp. enough (returns (skip_trivia t p) (fun q => B q /\ p <= q)) as H.
  { unfold returns in H. destruct (skip_trivia t p) as [q| |]; [|done|done]. destruct H as [[? _] ?]. by exists q. }
  assert (B p) as HB by (split; [done|by apply boundary_le]).
  unfold skip_trivia. apply (iterate_returns (fun q => B q /\ p <= q) (fun q => length t - q)); [|done|lia].
  intros q [HBq Hq]. unfold skip_trivia_step. destruct (Nat.leb_spec (length t) q); [done|].
  destruct (decode_inside q) as (b & ch & size & Hb & Hc & -> & HBs & Hs & Hl & Hlow); [done..|].
  cbn [mbind result_bind].
  assert (forall c, ch = c -> (0 <= c < 128)%Z -> B (S q)) as Hnext.
  { intros c -> ?. destruct Hlow as [-> ?]; [lia|]. by eapply B_ascii. }
  assert (forall c d, ch = c -> (0 <= c < 128)%Z -> t !! S q = Some d -> (0 <= d < 128)%Z -> B (q + 2)) as Hnext2.
  { intros c d ? ? Hd ?. replace (q + 2) with (S (S q)) by lia. by eapply B_ascii. }
  assert (forall r, returns r (fun x => B x /\ q + 2 <= x) ->
    returns (x ← r; Ok (inl x)) (fun r => match r : nat + nat with inl x => (B x /\ p <= x) /\ length t - x < length t - q | inr x => B x /\ p <= x end)) as Hrest.
  { intros r Hr. destruct r; [|done|done]. cbn in *. destruct Hr. split_and!; done || lia. }
  destruct (Z.eqb_spec ch 13).
  { case_bool_decide as Hd; cbn; split_and!; try lia; [by eapply Hnext2|rewrite Nat.add_1_r; by eapply Hnext]. }
  destruct (Z.eqb_spec ch 10); [cbn; rewrite Nat.add_1_r; split_and!; try lia; by eapply Hnext|].
  destruct ((ch =? 9)%Z || _ || _ || _) eqn:Ew.
  { cbn. rewrite Nat.add_1_r. split_and!; try lia. eapply (Hnext ch); [done|lia]. }
  destruct (Z.eqb_spec ch 47).
  { case_bool_decide as Hd; [apply Hrest,  skip_line_total; by eapply Hnext2|].
    case_bool_decide as Hd'; [apply Hrest,  skip_block_comment_total; by eapply Hnext2|done]. }
  destruct ((ch =? 60)%Z || _ || _ || _) eqn:Em.
  { destruct Hlow as [-> ->]; [lia|].
    assert (marker_char ch = true) as Hm by (unfold marker_char; lia).
    destruct (marker_probe_ok s0 skip_ok eq_refl Hprobe q ch Hc Hm) as [m Hmark]. cbn in Hmark. rewrite Hmark.
    cbn [mbind result_bind]. destruct m; [|done].
    pose proof (scan_conflict_marker_trivia_ok s0 skip_ok eq_refl Hprobe q ch Hc Hm) as Hr. cbn in Hr.
    destruct (scan_conflict_marker_trivia t q); [|done|done]. cbn in *. destruct Hr as [? ?]. destruct H0.
    split_and!; try done; try lia. }
  destruct (Z.eqb_spec ch 35).
  { destruct (_ && _) eqn:E; [|done]. apply andb_true_iff in E as [E E2%bool_decide_eq_true].
    apply andb_true_iff in E as [E0 E1]. assert (q = 0) as -> by lia.
    apply (Hrest (skip_line t 2)). by apply skip_line_total, (Hnext2 35%Z 33%Z). }
  destruct (_ && _) eqn:E; [|done]. cbn. split_and!; done || lia.
Qed.
End skip.
