(* ===== verification/Spelling.v ===== *)
(** * Spelling suggestions ([surge-ts-tsc-syntax/src/parser/statements.rs])

    [get_spelling_suggestion_for_strings] and the banded edit distance it
    measures candidates with, over binary64 numbers as the code computes them.
    The first character of [char::to_lowercase] is a table of the standard
    library and a parameter. *)

From stdpp Require Import list.
From S2P Require Import Prelude Utf8 RustStr JsNumber.
From Stdlib Require Import SpecFloat.

Local Open Scope Z_scope.

Class UnicodeCase := to_lower : Z -> Z.

(** ** binary64 operations *)

Definition f64_add (x y : f64) : f64 := SFadd prec emax x y.
Definition f64_sub (x y : f64) : f64 := SFsub prec emax x y.
Definition f64_mul (x y : f64) : f64 := SFmul prec emax x y.
Definition f64_lt (x y : f64) : bool := match SFcompare x y with Some Lt => true | _ => false end.
(** [f64::min] of two numbers. *)
Definition f64_min (x y : f64) : f64 := if f64_lt y x then y else x.

(** The largest integer that is not above a finite number. *)
Definition f64_floor (x : f64) : Z :=
  match x with
  | S754_finite s m e =>
      let n := if s then Zneg m else Zpos m in
      if 0 <=? e then n * 2 ^ e else n / 2 ^ (- e)
  | _ => 0
  end.
Definition f64_ceil (x : f64) : Z := - f64_floor (SFopp x).

(** A decimal literal with [places] digits after the point. *)
Definition f64_lit (n places : Z) : f64 := f64_of_decimal n (- places).
Definition f64_of_nat (n : nat) : f64 := f64_of_Z (Z.of_nat n).

(** ** The distance *)

Section spelling.
Context `{UnicodeCase}.

(** [for slot in row[lo..hi]: *slot = value]. *)
Definition fill (lo hi : nat) (value : f64) (row : list f64) : list f64 :=
  imap (fun k x => if (lo <=? k)%nat && (k <? hi)%nat then value else x) row.

(** The cells of one row, from left to right. *)
Definition cell (c1 : Z) (s2 : list Z) (previous current : list f64) (j : nat) : result f64 :=
  c2 ← unwrap (s2 !! (j - 1)%nat);
  diagonal ← unwrap (previous !! (j - 1)%nat);
  above ← unwrap (previous !! j);
  left ← unwrap (current !! (j - 1)%nat);
  let substitution_distance :=
    f64_add diagonal (if to_lower c1 =? to_lower c2 then f64_lit 1 1 else f64_of_Z 2) in
  Ok (if c1 =? c2 then diagonal
      else f64_min (f64_add above (f64_of_Z 1)) (f64_min (f64_add left (f64_of_Z 1)) substitution_distance)).

Fixpoint row_cells (js : list nat) (c1 : Z) (s2 : list Z) (previous current : list f64) (col_min : f64)
    : result (list f64 * f64) :=
  match js with
  | [] => Ok (current, col_min)
  | j :: js =>
      dist ← cell c1 s2 previous current j;
      _ ← unwrap (current !! j);
      row_cells js c1 s2 previous (<[j := dist]> current) (f64_min col_min dist)
  end.

(** One row: [None] gives up. *)
Definition row (max_value : f64) (i : nat) (c1 : Z) (s2 : list Z) (previous current : list f64)
    : result (option (list f64)) :=
  let big := f64_add max_value (f64_lit 1 2) in
  let min_j := Z.to_nat (Z.max (f64_ceil (f64_sub (f64_of_nat i) max_value)) 1) in
  let max_j := Z.to_nat (Z.max (Z.min (f64_floor (f64_add max_value (f64_of_nat i))) (Z.of_nat (length s2))) 0) in
  let col_min := f64_of_nat i in
  _ ← unwrap (current !! 0%nat);
  let current := <[0%nat := col_min]> current in
  let current := fill 1 min_j big current in
  '(current, col_min) ← row_cells (seq min_j (S max_j - min_j)) c1 s2 previous current col_min;
  let current := fill (S max_j) (length current) big current in
  Ok (if f64_lt max_value col_min then None else Some current).

Fixpoint rows (max_value : f64) (i : nat) (s1 s2 : list Z) (previous current : list f64)
    : result (option (list f64)) :=
  match s1 with
  | [] => Ok (Some previous)
  | c1 :: s1 =>
      next ← row max_value i c1 s2 previous current;
      match next with
      | None => Ok None
      | Some current => rows max_value (S i) s1 s2 current previous
      end
  end.

Definition levenshtein_with_max (s1 s2 : list Z) (max_value : f64) : result (option f64) :=
  let buffer_size := S (length s2) in
  last ← rows max_value 1 s1 s2 (map f64_of_nat (seq 0 buffer_size)) (replicate buffer_size (f64_of_Z 0));
  match last with
  | None => Ok None
  | Some previous =>
      res ← unwrap (previous !! length s2);
      Ok (if f64_lt max_value res then None else Some res)
  end.

(** ** The suggestion *)

Definition maximum_length_difference (name : str) : nat :=
  Nat.max 2 (Z.to_nat (f64_floor (f64_mul (f64_of_nat (length (chars name))) (f64_lit 34 2)))).

(** The candidates that are measured: neither empty nor the name, close to it
    in length, and the name in another case when shorter than three bytes. *)
Definition measured (name candidate : str) : bool :=
  let rune_len := length (chars name) in
  let max_len := Nat.max (length candidate) rune_len in
  let min_len := Nat.min (length candidate) rune_len in
  negb (candidate =s []) && (max_len - min_len <=? maximum_length_difference name)%nat
  && negb (candidate =s name)
  && negb ((length candidate <? 3)%nat && negb (to_ascii_lowercase candidate =s to_ascii_lowercase name)).

Definition suggestion_round (name : str) (best : f64 * option str) (candidate : str)
    : result (f64 * option str) :=
  let '(best_distance, best_candidate) := best in
  if measured name candidate then
    distance ← levenshtein_with_max (chars name) (chars candidate) best_distance;
    Ok (match distance with
        | None => best
        | Some distance =>
            if f64_lt distance best_distance then (distance, Some candidate)
            else
              match best_candidate with
              | None => (best_distance, Some candidate)
              | Some b => match str_compare candidate b with Lt => (best_distance, Some candidate) | _ => best end
              end
        end)
  else Ok best.

Fixpoint suggestion_rounds (name : str) (best : f64 * option str) (candidates : list str)
    : result (f64 * option str) :=
  match candidates with
  | [] => Ok best
  | candidate :: candidates => best ← suggestion_round name best candidate; suggestion_rounds name best candidates
  end.

Definition get_spelling_suggestion_for_strings (name : str) (candidates : list str) : result str :=
  let rune_len := f64_of_nat (length (chars name)) in
  let best_distance := f64_add (f64_of_Z (f64_floor (f64_mul rune_len (f64_lit 4 1)))) (f64_lit 9 1) in
  best ← suggestion_rounds name (best_distance, None) candidates;
  Ok (default [] (snd best)).
End spelling.

(** The ASCII part of the table. *)
Definition ascii_case : UnicodeCase := ascii_lower.

Example suggestions :
  get_spelling_suggestion_for_strings (H := ascii_case) (lit "Scirpt") [lit "General_Category"; lit "Script"; lit "sc"] = Ok (lit "Script")
  /\ get_spelling_suggestion_for_strings (H := ascii_case) (lit "LETTER") [lit "Lm"; lit "Latter"; lit "Letter"] = Ok (lit "Letter")
  /\ get_spelling_suggestion_for_strings (H := ascii_case) (lit "year") [lit "mear"; lit "bear"; lit "gear"] = Ok (lit "")
  /\ get_spelling_suggestion_for_strings (H := ascii_case) (lit "yearly") [lit "mearly"; lit "bearly"; lit "gearly"] = Ok (lit "bearly").
Proof. by vm_compute. Qed.

(** ** No index is out of range *)

Section total.
Context `{UnicodeCase}.

Lemma fill_length lo hi value r : length (fill lo hi value r) = length r.
Proof. apply length_imap. Qed.

Lemma lookup_ok {A} (l : list A) i : (i < length l)%nat -> exists x, l !! i = Some x.
Proof. apply lookup_lt_is_Some_2. Qed.

(** A cell reads its own column and the one before. *)
Lemma cell_ok c1 s2 previous current j :
  (1 <= j <= length s2)%nat -> length previous = S (length s2) -> length current = S (length s2) ->
  exists dist, cell c1 s2 previous current j = Ok dist.
Proof.
  intros Hj Hp Hc. unfold cell.
  destruct (lookup_ok s2 (j - 1) ltac:(lia)) as [? ->]. destruct (lookup_ok previous (j - 1) ltac:(lia)) as [? ->].
  destruct (lookup_ok previous j ltac:(lia)) as [? ->]. destruct (lookup_ok current (j - 1) ltac:(lia)) as [? ->].
  by eexists.
Qed.

Lemma row_cells_ok js c1 s2 previous current col_min :
  Forall (fun j => 1 <= j <= length s2)%nat js ->
  length previous = S (length s2) -> length current = S (length s2) ->
  exists next m, row_cells js c1 s2 previous current col_min = Ok (next, m) /\ length next = S (length s2).
Proof.
  intros Hjs Hp. revert current col_min; induction Hjs as [|j js Hj _ IH]; intros current col_min Hc; [by eexists _, _|].
  cbn [row_cells]. destruct (cell_ok c1 s2 previous current j Hj Hp Hc) as [dist ->]. cbn [mbind result_bind].
  destruct (lookup_ok current j ltac:(lia)) as [x ->]. cbn [unwrap mbind result_bind].
  apply IH. by rewrite length_insert.
Qed.

Lemma row_ok max_value i c1 s2 previous current :
  length previous = S (length s2) -> length current = S (length s2) ->
  exists next, row max_value i c1 s2 previous current = Ok next
    /\ forall r, next = Some r -> length r = S (length s2).
Proof.
  intros Hp Hc. unfold row. destruct (lookup_ok current 0 ltac:(lia)) as [x ->]. cbn [unwrap mbind result_bind].
  match goal with |- context [row_cells (seq ?a ?n) _ _ _ ?cur ?m] =>
    destruct (row_cells_ok (seq a n) c1 s2 previous cur m) as (next & m' & -> & Hn) end.
  - apply Forall_forall. intros j [? ?]%elem_of_seq. lia.
  - done.
  - by rewrite fill_length, length_insert.
  - cbn [mbind result_bind]. eexists. split; [done|]. intros r. case_split; [done|]. intros [= <-]. by rewrite fill_length.
Qed.

Lemma rows_ok max_value i s1 s2 previous current :
  length previous = S (length s2) -> length current = S (length s2) ->
  exists last, rows max_value i s1 s2 previous current = Ok last
    /\ forall r, last = Some r -> length r = S (length s2).
Proof.
  revert i previous current; induction s1 as [|c1 s1 IH]; intros i previous current Hp Hc; cbn [rows].
  { eexists. split; [done|]. by intros r [= <-]. }
  destruct (row_ok max_value i c1 s2 previous current Hp Hc) as ([next|] & -> & Hn); cbn [mbind result_bind].
  - apply IH; [by apply Hn|done].
  - by exists None.
Qed.

Lemma levenshtein_ok s1 s2 max_value : exists d, levenshtein_with_max s1 s2 max_value = Ok d.
Proof.
  unfold levenshtein_with_max.
  destruct (rows_ok max_value 1 s1 s2 (map f64_of_nat (seq 0 (S (length s2)))) (replicate (S (length s2)) (f64_of_Z 0)))
    as ([last|] & -> & Hl).
  - by rewrite length_map, length_seq.
  - by rewrite length_replicate.
  - cbn [mbind result_bind]. destruct (lookup_ok last (length s2)) as [d ->]; [rewrite (Hl _ eq_refl); lia|]. by eexists.
  - by eexists.
Qed.

Lemma suggestion_rounds_ok name best cs :
  exists best', suggestion_rounds name best cs = Ok best'
    /\ forall c, snd best' = Some c -> snd best = Some c \/ (c ∈ cs /\ measured name c = true).
Proof.
  revert best; induction cs as [|c cs IH]; intros best; cbn [suggestion_rounds].
  { eexists. split; [done|]. by left. }
  assert (exists next, suggestion_round name best c = Ok next /\ forall x, snd next = Some x ->
    snd best = Some x \/ (x = c /\ measured name c = true)) as (next & -> & Hn).
  { unfold suggestion_round. destruct best as [d b]. destruct (measured name c) eqn:Em; [|by eexists; split; [|left]].
    destruct (levenshtein_ok (chars name) (chars c) d) as [dist ->]. cbn [mbind result_bind].
    eexists. split; [done|]. intros x. repeat case_match; simpl; intros ?; simplify_eq; auto. }
  cbn [mbind result_bind]. destruct (IH next) as (best' & -> & Hb). eexists. split; [done|].
  intros x Hx. destruct (Hb x Hx) as [Hx'|[Hin Hm]].
  - destruct (Hn x Hx') as [|[-> ?]]; [by left|right]. split; [apply list_elem_of_here|done].
  - right. split; [by apply list_elem_of_further|done].
Qed.

Lemma suggestion_ok name cs :
  exists r, get_spelling_suggestion_for_strings name cs = Ok r
    /\ (r = [] \/ (r ∈ cs /\ measured name r = true)).
Proof.
  unfold get_spelling_suggestion_for_strings.
  match goal with |- context [suggestion_rounds name ?b cs] => destruct (suggestion_rounds_ok name b cs) as ([d b'] & -> & Hb) end.
  cbn [mbind result_bind]. eexists. split; [done|]. destruct b' as [c|]; [|by left]. right.
  by destruct (Hb c eq_refl).
Qed.

(** C19 A spelling suggestion is always answered: no cell of the banded distance
    is out of range; it is empty or a candidate other than the name that is
    close to it in length. *)
Theorem get_spelling_suggestion_spec name cs :
  exists r, get_spelling_suggestion_for_strings name cs = Ok r
    /\ (r = [] \/ (r ∈ cs /\ r <> name /\ r <> []
        /\ (Nat.max (length r) (length (chars name)) - Nat.min (length r) (length (chars name)) <= maximum_length_difference name)%nat
        /\ ((length r < 3)%nat -> to_ascii_lowercase r = to_ascii_lowercase name))).
Proof.
  destruct (suggestion_ok name cs) as (r & -> & Hr). exists r. split; [done|].
  destruct Hr as [|[Hin Hm]]; [by left|right]. unfold measured in Hm.
  rewrite !andb_true_iff, !negb_true_iff in Hm. destruct Hm as [[[He Hl] Hn] Hc].
  split_and!; [done| | |lia|].
  - intros ->. by rewrite str_eqb_refl in Hn.
  - intros ->. by rewrite str_eqb_refl in He.
  - intros Hlt. replace (length r <? 3)%nat with true in Hc by lia.
    apply negb_false_iff in Hc. by apply str_eqb_spec in Hc.
Qed.
End total.
