(* ===== verification/ParserMessages.v ===== *)
(** * The parser's messages ([surge-ts-tsc-syntax/src/messages.rs])

    The messages [parser/] reports; the scanner's are in [Diagnostics.Messages]. *)

From S2P Require Import Prelude Diagnostics.

Local Open Scope Z_scope.

Module ParserMessages.

Definition Identifier_expected : Message :=
  {| mcode := 1003; mtext := lit "Identifier expected." |}.
Definition An_element_access_expression_should_take_an_argument : Message :=
  {| mcode := 1011; mtext := lit "An element access expression should take an argument." |}.
Definition X_super_must_be_followed_by_an_argument_list_or_member_access : Message :=
  {| mcode := 1034; mtext := lit "'super' must be followed by an argument list or member access." |}.
Definition Unexpected_token_A_constructor_method_accessor_or_property_was_expected : Message :=
  {| mcode := 1068; mtext := lit "Unexpected token. A constructor, method, accessor, or property was expected." |}.
Definition Expression_expected : Message :=
  {| mcode := 1109; mtext := lit "Expression expected." |}.
Definition Type_expected : Message :=
  {| mcode := 1110; mtext := lit "Type expected." |}.
Definition Declaration_or_statement_expected : Message :=
  {| mcode := 1128; mtext := lit "Declaration or statement expected." |}.
Definition Statement_expected : Message :=
  {| mcode := 1129; mtext := lit "Statement expected." |}.
Definition X_case_or_default_expected : Message :=
  {| mcode := 1130; mtext := lit "'case' or 'default' expected." |}.
Definition Property_or_signature_expected : Message :=
  {| mcode := 1131; mtext := lit "Property or signature expected." |}.
Definition Enum_member_expected : Message :=
  {| mcode := 1132; mtext := lit "Enum member expected." |}.
Definition Variable_declaration_expected : Message :=
  {| mcode := 1134; mtext := lit "Variable declaration expected." |}.
Definition Argument_expression_expected : Message :=
  {| mcode := 1135; mtext := lit "Argument expression expected." |}.
Definition Property_assignment_expected : Message :=
  {| mcode := 1136; mtext := lit "Property assignment expected." |}.
Definition Expression_or_comma_expected : Message :=
  {| mcode := 1137; mtext := lit "Expression or comma expected." |}.
Definition Parameter_declaration_expected : Message :=
  {| mcode := 1138; mtext := lit "Parameter declaration expected." |}.
Definition Type_parameter_declaration_expected : Message :=
  {| mcode := 1139; mtext := lit "Type parameter declaration expected." |}.
Definition Type_argument_expected : Message :=
  {| mcode := 1140; mtext := lit "Type argument expected." |}.
Definition Line_break_not_permitted_here : Message :=
  {| mcode := 1142; mtext := lit "Line break not permitted here." |}.
Definition X_or_expected : Message :=
  {| mcode := 1144; mtext := lit "'{' or ';' expected." |}.
Definition X_or_JSX_element_expected : Message :=
  {| mcode := 1145; mtext := lit "'{' or JSX element expected." |}.
Definition Declaration_expected : Message :=
  {| mcode := 1146; mtext := lit "Declaration expected." |}.
Definition Unexpected_token_expected : Message :=
  {| mcode := 1179; mtext := lit "Unexpected token. '{' expected." |}.
Definition Property_destructuring_pattern_expected : Message :=
  {| mcode := 1180; mtext := lit "Property destructuring pattern expected." |}.
Definition Array_element_destructuring_pattern_expected : Message :=
  {| mcode := 1181; mtext := lit "Array element destructuring pattern expected." |}.
Definition Decorators_are_not_valid_here : Message :=
  {| mcode := 1206; mtext := lit "Decorators are not valid here." |}.
Definition Invalid_optional_chain_from_new_expression_Did_you_mean_to_call_0 : Message :=
  {| mcode := 1209; mtext := lit "Invalid optional chain from new expression. Did you mean to call '{0}()'?" |}.
Definition A_type_predicate_is_only_allowed_in_return_type_position_for_functions_and_methods : Message :=
  {| mcode := 1228; mtext := lit "A type predicate is only allowed in return type position for functions and methods." |}.
Definition Keywords_cannot_contain_escape_characters : Message :=
  {| mcode := 1260; mtext := lit "Keywords cannot contain escape characters." |}.
Definition An_enum_member_name_must_be_followed_by_a_or : Message :=
  {| mcode := 1357; mtext := lit "An enum member name must be followed by a ',', '=', or '}'." |}.
Definition Identifier_expected_0_is_a_reserved_word_that_cannot_be_used_here : Message :=
  {| mcode := 1359; mtext := lit "Identifier expected. '{0}' is a reserved word that cannot be used here." |}.
Definition Function_type_notation_must_be_parenthesized_when_used_in_a_union_type : Message :=
  {| mcode := 1385; mtext := lit "Function type notation must be parenthesized when used in a union type." |}.
Definition Constructor_type_notation_must_be_parenthesized_when_used_in_a_union_type : Message :=
  {| mcode := 1386; mtext := lit "Constructor type notation must be parenthesized when used in a union type." |}.
Definition Function_type_notation_must_be_parenthesized_when_used_in_an_intersection_type : Message :=
  {| mcode := 1387; mtext := lit "Function type notation must be parenthesized when used in an intersection type." |}.
Definition Constructor_type_notation_must_be_parenthesized_when_used_in_an_intersection_type : Message :=
  {| mcode := 1388; mtext := lit "Constructor type notation must be parenthesized when used in an intersection type." |}.
Definition X_0_is_not_allowed_as_a_variable_declaration_name : Message :=
  {| mcode := 1389; mtext := lit "'{0}' is not allowed as a variable declaration name." |}.
Definition X_0_is_not_allowed_as_a_parameter_name : Message :=
  {| mcode := 1390; mtext := lit "'{0}' is not allowed as a parameter name." |}.
Definition Neither_decorators_nor_modifiers_may_be_applied_to_this_parameters : Message :=
  {| mcode := 1433; mtext := lit "Neither decorators nor modifiers may be applied to 'this' parameters." |}.
Definition Unexpected_keyword_or_identifier : Message :=
  {| mcode := 1434; mtext := lit "Unexpected keyword or identifier." |}.
Definition Unknown_keyword_or_identifier_Did_you_mean_0 : Message :=
  {| mcode := 1435; mtext := lit "Unknown keyword or identifier. Did you mean '{0}'?" |}.
Definition Decorators_must_precede_the_name_and_all_keywords_of_property_declarations : Message :=
  {| mcode := 1436; mtext := lit "Decorators must precede the name and all keywords of property declarations." |}.
Definition Namespace_must_be_given_a_name : Message :=
  {| mcode := 1437; mtext := lit "Namespace must be given a name." |}.
Definition Interface_must_be_given_a_name : Message :=
  {| mcode := 1438; mtext := lit "Interface must be given a name." |}.
Definition Type_alias_must_be_given_a_name : Message :=
  {| mcode := 1439; mtext := lit "Type alias must be given a name." |}.
Definition Variable_declaration_not_allowed_at_this_location : Message :=
  {| mcode := 1440; mtext := lit "Variable declaration not allowed at this location." |}.
Definition Cannot_start_a_function_call_in_a_type_annotation : Message :=
  {| mcode := 1441; mtext := lit "Cannot start a function call in a type annotation." |}.
Definition Expected_for_property_initializer : Message :=
  {| mcode := 1442; mtext := lit "Expected '=' for property initializer." |}.
Definition Module_declaration_names_may_only_use_or_quoted_strings : Message :=
  {| mcode := 1443; mtext := lit "Module declaration names may only use ' or " ++ [34] ++ lit " quoted strings." |}.
Definition X_catch_or_finally_expected : Message :=
  {| mcode := 1472; mtext := lit "'catch' or 'finally' expected." |}.
Definition An_instantiation_expression_cannot_be_followed_by_a_property_access : Message :=
  {| mcode := 1477; mtext := lit "An instantiation expression cannot be followed by a property access." |}.
Definition Identifier_or_string_literal_expected : Message :=
  {| mcode := 1478; mtext := lit "Identifier or string literal expected." |}.
Definition Interface_name_cannot_be_0 : Message :=
  {| mcode := 2427; mtext := lit "Interface name cannot be '{0}'." |}.
Definition Type_alias_name_cannot_be_0 : Message :=
  {| mcode := 2457; mtext := lit "Type alias name cannot be '{0}'." |}.
Definition JSX_expressions_must_have_one_parent_element : Message :=
  {| mcode := 2657; mtext := lit "JSX expressions must have one parent element." |}.
Definition X_super_may_not_use_type_arguments : Message :=
  {| mcode := 2754; mtext := lit "'super' may not use type arguments." |}.
Definition Declaration_or_statement_expected_This_follows_a_block_of_statements_so_if_you_intended_to_write_a_destructuring_assignment_you_might_need_to_wrap_the_whole_assignment_in_parentheses : Message :=
  {| mcode := 2809; mtext := lit "Declaration or statement expected. This '=' follows a block of statements, so if you intended to write a destructuring assignment, you might need to wrap the whole assignment in parentheses." |}.
Definition Namespace_name_cannot_be_0 : Message :=
  {| mcode := 2819; mtext := lit "Namespace name cannot be '{0}'." |}.
Definition Import_assertions_have_been_replaced_by_import_attributes_Use_with_instead_of_assert : Message :=
  {| mcode := 2880; mtext := lit "Import assertions have been replaced by import attributes. Use 'with' instead of 'assert'." |}.
Definition X_import_can_only_be_used_in_TypeScript_files : Message :=
  {| mcode := 8002; mtext := lit "'import ... =' can only be used in TypeScript files." |}.
Definition X_export_can_only_be_used_in_TypeScript_files : Message :=
  {| mcode := 8003; mtext := lit "'export =' can only be used in TypeScript files." |}.
Definition Type_parameter_declarations_can_only_be_used_in_TypeScript_files : Message :=
  {| mcode := 8004; mtext := lit "Type parameter declarations can only be used in TypeScript files." |}.
Definition X_implements_clauses_can_only_be_used_in_TypeScript_files : Message :=
  {| mcode := 8005; mtext := lit "'implements' clauses can only be used in TypeScript files." |}.
Definition X_0_declarations_can_only_be_used_in_TypeScript_files : Message :=
  {| mcode := 8006; mtext := lit "'{0}' declarations can only be used in TypeScript files." |}.
Definition Type_aliases_can_only_be_used_in_TypeScript_files : Message :=
  {| mcode := 8008; mtext := lit "Type aliases can only be used in TypeScript files." |}.
Definition The_0_modifier_can_only_be_used_in_TypeScript_files : Message :=
  {| mcode := 8009; mtext := lit "The '{0}' modifier can only be used in TypeScript files." |}.
Definition Type_annotations_can_only_be_used_in_TypeScript_files : Message :=
  {| mcode := 8010; mtext := lit "Type annotations can only be used in TypeScript files." |}.
Definition Type_arguments_can_only_be_used_in_TypeScript_files : Message :=
  {| mcode := 8011; mtext := lit "Type arguments can only be used in TypeScript files." |}.
Definition Parameter_modifiers_can_only_be_used_in_TypeScript_files : Message :=
  {| mcode := 8012; mtext := lit "Parameter modifiers can only be used in TypeScript files." |}.
Definition Non_null_assertions_can_only_be_used_in_TypeScript_files : Message :=
  {| mcode := 8013; mtext := lit "Non-null assertions can only be used in TypeScript files." |}.
Definition Type_assertion_expressions_can_only_be_used_in_TypeScript_files : Message :=
  {| mcode := 8016; mtext := lit "Type assertion expressions can only be used in TypeScript files." |}.
Definition Signature_declarations_can_only_be_used_in_TypeScript_files : Message :=
  {| mcode := 8017; mtext := lit "Signature declarations can only be used in TypeScript files." |}.
Definition Type_satisfaction_expressions_can_only_be_used_in_TypeScript_files : Message :=
  {| mcode := 8037; mtext := lit "Type satisfaction expressions can only be used in TypeScript files." |}.
Definition Decorators_may_not_appear_after_export_or_export_default_if_they_also_appear_before_export : Message :=
  {| mcode := 8038; mtext := lit "Decorators may not appear after 'export' or 'export default' if they also appear before 'export'." |}.
Definition Expected_corresponding_JSX_closing_tag_for_0 : Message :=
  {| mcode := 17002; mtext := lit "Expected corresponding JSX closing tag for '{0}'." |}.
Definition An_unary_expression_with_the_0_operator_is_not_allowed_in_the_left_hand_side_of_an_exponentiation_expression_Consider_enclosing_the_expression_in_parentheses : Message :=
  {| mcode := 17006; mtext := lit "An unary expression with the '{0}' operator is not allowed in the left-hand side of an exponentiation expression. Consider enclosing the expression in parentheses." |}.
Definition A_type_assertion_expression_is_not_allowed_in_the_left_hand_side_of_an_exponentiation_expression_Consider_enclosing_the_expression_in_parentheses : Message :=
  {| mcode := 17007; mtext := lit "A type assertion expression is not allowed in the left-hand side of an exponentiation expression. Consider enclosing the expression in parentheses." |}.
Definition JSX_element_0_has_no_corresponding_closing_tag : Message :=
  {| mcode := 17008; mtext := lit "JSX element '{0}' has no corresponding closing tag." |}.
Definition JSX_fragment_has_no_corresponding_closing_tag : Message :=
  {| mcode := 17014; mtext := lit "JSX fragment has no corresponding closing tag." |}.
Definition Expected_corresponding_closing_tag_for_JSX_fragment : Message :=
  {| mcode := 17015; mtext := lit "Expected corresponding closing tag for JSX fragment." |}.
Definition Unicode_escape_sequence_cannot_appear_here : Message :=
  {| mcode := 17021; mtext := lit "Unicode escape sequence cannot appear here." |}.
Definition Private_identifiers_cannot_be_used_as_parameters : Message :=
  {| mcode := 18009; mtext := lit "Private identifiers cannot be used as parameters." |}.
Definition Private_identifiers_are_not_allowed_outside_class_bodies : Message :=
  {| mcode := 18016; mtext := lit "Private identifiers are not allowed outside class bodies." |}.
Definition Private_identifiers_are_not_allowed_in_variable_declarations : Message :=
  {| mcode := 18029; mtext := lit "Private identifiers are not allowed in variable declarations." |}.
Definition An_optional_chain_cannot_contain_private_identifiers : Message :=
  {| mcode := 18030; mtext := lit "An optional chain cannot contain private identifiers." |}.

End ParserMessages.
