(* ===== verification/Ast.v ===== *)
(** * The syntax tree ([surge-ts-tsc-syntax/src/ast.rs], [flags.rs])

    The arena of uniform nodes the parser fills, the builders of a node, and the
    predicates over kinds. An id is a [u32] in the source; the arena holds far
    fewer than [2 ^ 32] nodes before memory ends, so it is a [nat] here. *)

From S2P Require Import Prelude Kind Diagnostics.

(** ** Flags *)

Module NodeFlags.
Local Open Scope Z_scope.


Definition None : Z := 0.
Definition Let : Z := Z.shiftl 1 0.
Definition Const : Z := Z.shiftl 1 1.
Definition Using : Z := Z.shiftl 1 2.
Definition Reparsed : Z := Z.shiftl 1 3.
Definition Synthesized : Z := Z.shiftl 1 4.
Definition OptionalChain : Z := Z.shiftl 1 5.
Definition ExportContext : Z := Z.shiftl 1 6.
Definition ContainsThis : Z := Z.shiftl 1 7.
Definition HasImplicitReturn : Z := Z.shiftl 1 8.
Definition HasExplicitReturn : Z := Z.shiftl 1 9.
Definition DisallowInContext : Z := Z.shiftl 1 10.
Definition YieldContext : Z := Z.shiftl 1 11.
Definition DecoratorContext : Z := Z.shiftl 1 12.
Definition AwaitContext : Z := Z.shiftl 1 13.
Definition DisallowConditionalTypesContext : Z := Z.shiftl 1 14.
Definition ThisNodeHasError : Z := Z.shiftl 1 15.
Definition JavaScriptFile : Z := Z.shiftl 1 16.
Definition ThisNodeOrAnySubNodesHasError : Z := Z.shiftl 1 17.
Definition HasAsyncFunctions : Z := Z.shiftl 1 18.
Definition PossiblyContainsDynamicImport : Z := Z.shiftl 1 19.
Definition PossiblyContainsImportMeta : Z := Z.shiftl 1 20.
Definition HasJSDoc : Z := Z.shiftl 1 21.
Definition JSDoc : Z := Z.shiftl 1 22.
Definition Ambient : Z := Z.shiftl 1 23.
Definition InWithStatement : Z := Z.shiftl 1 24.
Definition JsonFile : Z := Z.shiftl 1 25.
Definition PossiblyContainsDeprecatedTag : Z := Z.shiftl 1 26.
Definition Unreachable : Z := Z.shiftl 1 27.
Definition ReparserTransformedLiteral : Z := Z.shiftl 1 28.
Definition BlockScoped : Z := Z.lor (Z.shiftl 1 0) (Z.lor (Z.shiftl 1 1) (Z.shiftl 1 2)).
Definition Constant : Z := Z.lor (Z.shiftl 1 1) (Z.shiftl 1 2).
Definition AwaitUsing : Z := Z.lor (Z.shiftl 1 1) (Z.shiftl 1 2).
Definition ContextFlags : Z := Z.lor (Z.shiftl 1 10) (Z.lor (Z.shiftl 1 14) (Z.lor (Z.shiftl 1 11) (Z.lor (Z.shiftl 1 12) (Z.lor (Z.shiftl 1 13) (Z.lor (Z.shiftl 1 16) (Z.lor (Z.shiftl 1 24) (Z.shiftl 1 23))))))).
Definition TypeExcludesFlags : Z := Z.lor (Z.shiftl 1 11) (Z.shiftl 1 13).
Definition IdentifierHasExtendedUnicodeEscape : Z := Z.shiftl 1 7.
Definition NestedNamespace : Z := Z.shiftl 1 5.

(** [flags.has(other)] *)
Definition has (flags other : Z) : bool := negb (Z.land flags other =? 0).
(** [flags & !other] *)
Definition without (flags other : Z) : Z := Z.land flags (Z.lnot other).

End NodeFlags.

(** ** Nodes *)

Abbreviation NodeId := nat.

Record NodeList := { lpos : nat; lend : nat; lnodes : list NodeId; lmissing : bool }.

Definition NodeList_new (pos end_ : nat) (nodes : list NodeId) : NodeList :=
  {| lpos := pos; lend := end_; lnodes := nodes; lmissing := false |}.

Definition NodeList_default : NodeList := NodeList_new 0 0 [].

Record Node := {
  nkind : Kind;
  npos : nat;
  nend : nat;
  nflags : Z;
  nname : option NodeId;
  nty : option NodeId;
  nbody : option NodeId;
  nexpression : option NodeId;
  ninitializer : option NodeId;
  nquestion_token : option NodeId;
  nimport_clause : option NodeId;
  nmodifiers : option NodeList;
  ntype_parameters : option NodeList;
  ntype_arguments : option NodeList;
  nparameters : option NodeList;
  nchildren : list (option NodeId);
  nlists : list (option NodeList);
  ntext : str;
  nop : Kind;
  ntoken_flags : Z;
  nis_type_only : bool;
  nis_export_equals : bool
}.

Module Node.

Definition new (kind : Kind) : Node :=
  {| nkind := kind; npos := 0; nend := 0; nflags := 0%Z; nname := None; nty := None; nbody := None;
     nexpression := None; ninitializer := None; nquestion_token := None; nimport_clause := None;
     nmodifiers := None; ntype_parameters := None; ntype_arguments := None; nparameters := None;
     nchildren := []; nlists := []; ntext := []; nop := Kind.Unknown; ntoken_flags := 0%Z;
     nis_type_only := false; nis_export_equals := false |}.
Definition name (v : option NodeId) (n : Node) : Node :=
  {| nkind := nkind n; npos := npos n; nend := nend n; nflags := nflags n; nname := v; nty := nty n;
     nbody := nbody n; nexpression := nexpression n; ninitializer := ninitializer n;
     nquestion_token := nquestion_token n; nimport_clause := nimport_clause n; nmodifiers := nmodifiers n;
     ntype_parameters := ntype_parameters n; ntype_arguments := ntype_arguments n;
     nparameters := nparameters n; nchildren := nchildren n; nlists := nlists n; ntext := ntext n;
     nop := nop n; ntoken_flags := ntoken_flags n; nis_type_only := nis_type_only n;
     nis_export_equals := nis_export_equals n |}.
Definition ty (v : option NodeId) (n : Node) : Node :=
  {| nkind := nkind n; npos := npos n; nend := nend n; nflags := nflags n; nname := nname n; nty := v;
     nbody := nbody n; nexpression := nexpression n; ninitializer := ninitializer n;
     nquestion_token := nquestion_token n; nimport_clause := nimport_clause n; nmodifiers := nmodifiers n;
     ntype_parameters := ntype_parameters n; ntype_arguments := ntype_arguments n;
     nparameters := nparameters n; nchildren := nchildren n; nlists := nlists n; ntext := ntext n;
     nop := nop n; ntoken_flags := ntoken_flags n; nis_type_only := nis_type_only n;
     nis_export_equals := nis_export_equals n |}.
Definition body (v : option NodeId) (n : Node) : Node :=
  {| nkind := nkind n; npos := npos n; nend := nend n; nflags := nflags n; nname := nname n; nty := nty n;
     nbody := v; nexpression := nexpression n; ninitializer := ninitializer n;
     nquestion_token := nquestion_token n; nimport_clause := nimport_clause n; nmodifiers := nmodifiers n;
     ntype_parameters := ntype_parameters n; ntype_arguments := ntype_arguments n;
     nparameters := nparameters n; nchildren := nchildren n; nlists := nlists n; ntext := ntext n;
     nop := nop n; ntoken_flags := ntoken_flags n; nis_type_only := nis_type_only n;
     nis_export_equals := nis_export_equals n |}.
Definition expression (v : option NodeId) (n : Node) : Node :=
  {| nkind := nkind n; npos := npos n; nend := nend n; nflags := nflags n; nname := nname n; nty := nty n;
     nbody := nbody n; nexpression := v; ninitializer := ninitializer n;
     nquestion_token := nquestion_token n; nimport_clause := nimport_clause n; nmodifiers := nmodifiers n;
     ntype_parameters := ntype_parameters n; ntype_arguments := ntype_arguments n;
     nparameters := nparameters n; nchildren := nchildren n; nlists := nlists n; ntext := ntext n;
     nop := nop n; ntoken_flags := ntoken_flags n; nis_type_only := nis_type_only n;
     nis_export_equals := nis_export_equals n |}.
Definition initializer (v : option NodeId) (n : Node) : Node :=
  {| nkind := nkind n; npos := npos n; nend := nend n; nflags := nflags n; nname := nname n; nty := nty n;
     nbody := nbody n; nexpression := nexpression n; ninitializer := v;
     nquestion_token := nquestion_token n; nimport_clause := nimport_clause n; nmodifiers := nmodifiers n;
     ntype_parameters := ntype_parameters n; ntype_arguments := ntype_arguments n;
     nparameters := nparameters n; nchildren := nchildren n; nlists := nlists n; ntext := ntext n;
     nop := nop n; ntoken_flags := ntoken_flags n; nis_type_only := nis_type_only n;
     nis_export_equals := nis_export_equals n |}.
Definition question (v : option NodeId) (n : Node) : Node :=
  {| nkind := nkind n; npos := npos n; nend := nend n; nflags := nflags n; nname := nname n; nty := nty n;
     nbody := nbody n; nexpression := nexpression n; ninitializer := ninitializer n; nquestion_token := v;
     nimport_clause := nimport_clause n; nmodifiers := nmodifiers n;
     ntype_parameters := ntype_parameters n; ntype_arguments := ntype_arguments n;
     nparameters := nparameters n; nchildren := nchildren n; nlists := nlists n; ntext := ntext n;
     nop := nop n; ntoken_flags := ntoken_flags n; nis_type_only := nis_type_only n;
     nis_export_equals := nis_export_equals n |}.
Definition import_clause (v : option NodeId) (n : Node) : Node :=
  {| nkind := nkind n; npos := npos n; nend := nend n; nflags := nflags n; nname := nname n; nty := nty n;
     nbody := nbody n; nexpression := nexpression n; ninitializer := ninitializer n;
     nquestion_token := nquestion_token n; nimport_clause := v; nmodifiers := nmodifiers n;
     ntype_parameters := ntype_parameters n; ntype_arguments := ntype_arguments n;
     nparameters := nparameters n; nchildren := nchildren n; nlists := nlists n; ntext := ntext n;
     nop := nop n; ntoken_flags := ntoken_flags n; nis_type_only := nis_type_only n;
     nis_export_equals := nis_export_equals n |}.
Definition modifiers (v : option NodeList) (n : Node) : Node :=
  {| nkind := nkind n; npos := npos n; nend := nend n; nflags := nflags n; nname := nname n; nty := nty n;
     nbody := nbody n; nexpression := nexpression n; ninitializer := ninitializer n;
     nquestion_token := nquestion_token n; nimport_clause := nimport_clause n; nmodifiers := v;
     ntype_parameters := ntype_parameters n; ntype_arguments := ntype_arguments n;
     nparameters := nparameters n; nchildren := nchildren n; nlists := nlists n; ntext := ntext n;
     nop := nop n; ntoken_flags := ntoken_flags n; nis_type_only := nis_type_only n;
     nis_export_equals := nis_export_equals n |}.
Definition type_parameters (v : option NodeList) (n : Node) : Node :=
  {| nkind := nkind n; npos := npos n; nend := nend n; nflags := nflags n; nname := nname n; nty := nty n;
     nbody := nbody n; nexpression := nexpression n; ninitializer := ninitializer n;
     nquestion_token := nquestion_token n; nimport_clause := nimport_clause n; nmodifiers := nmodifiers n;
     ntype_parameters := v; ntype_arguments := ntype_arguments n; nparameters := nparameters n;
     nchildren := nchildren n; nlists := nlists n; ntext := ntext n; nop := nop n;
     ntoken_flags := ntoken_flags n; nis_type_only := nis_type_only n;
     nis_export_equals := nis_export_equals n |}.
Definition type_arguments (v : option NodeList) (n : Node) : Node :=
  {| nkind := nkind n; npos := npos n; nend := nend n; nflags := nflags n; nname := nname n; nty := nty n;
     nbody := nbody n; nexpression := nexpression n; ninitializer := ninitializer n;
     nquestion_token := nquestion_token n; nimport_clause := nimport_clause n; nmodifiers := nmodifiers n;
     ntype_parameters := ntype_parameters n; ntype_arguments := v; nparameters := nparameters n;
     nchildren := nchildren n; nlists := nlists n; ntext := ntext n; nop := nop n;
     ntoken_flags := ntoken_flags n; nis_type_only := nis_type_only n;
     nis_export_equals := nis_export_equals n |}.
Definition parameters (v : option NodeList) (n : Node) : Node :=
  {| nkind := nkind n; npos := npos n; nend := nend n; nflags := nflags n; nname := nname n; nty := nty n;
     nbody := nbody n; nexpression := nexpression n; ninitializer := ninitializer n;
     nquestion_token := nquestion_token n; nimport_clause := nimport_clause n; nmodifiers := nmodifiers n;
     ntype_parameters := ntype_parameters n; ntype_arguments := ntype_arguments n; nparameters := v;
     nchildren := nchildren n; nlists := nlists n; ntext := ntext n; nop := nop n;
     ntoken_flags := ntoken_flags n; nis_type_only := nis_type_only n;
     nis_export_equals := nis_export_equals n |}.
Definition child (v : option NodeId) (n : Node) : Node :=
  {| nkind := nkind n; npos := npos n; nend := nend n; nflags := nflags n; nname := nname n; nty := nty n;
     nbody := nbody n; nexpression := nexpression n; ninitializer := ninitializer n;
     nquestion_token := nquestion_token n; nimport_clause := nimport_clause n; nmodifiers := nmodifiers n;
     ntype_parameters := ntype_parameters n; ntype_arguments := ntype_arguments n;
     nparameters := nparameters n; nchildren := nchildren n ++ [v]; nlists := nlists n; ntext := ntext n;
     nop := nop n; ntoken_flags := ntoken_flags n; nis_type_only := nis_type_only n;
     nis_export_equals := nis_export_equals n |}.
Definition list (v : option NodeList) (n : Node) : Node :=
  {| nkind := nkind n; npos := npos n; nend := nend n; nflags := nflags n; nname := nname n; nty := nty n;
     nbody := nbody n; nexpression := nexpression n; ninitializer := ninitializer n;
     nquestion_token := nquestion_token n; nimport_clause := nimport_clause n; nmodifiers := nmodifiers n;
     ntype_parameters := ntype_parameters n; ntype_arguments := ntype_arguments n;
     nparameters := nparameters n; nchildren := nchildren n; nlists := nlists n ++ [v]; ntext := ntext n;
     nop := nop n; ntoken_flags := ntoken_flags n; nis_type_only := nis_type_only n;
     nis_export_equals := nis_export_equals n |}.
Definition text (v : str) (n : Node) : Node :=
  {| nkind := nkind n; npos := npos n; nend := nend n; nflags := nflags n; nname := nname n; nty := nty n;
     nbody := nbody n; nexpression := nexpression n; ninitializer := ninitializer n;
     nquestion_token := nquestion_token n; nimport_clause := nimport_clause n; nmodifiers := nmodifiers n;
     ntype_parameters := ntype_parameters n; ntype_arguments := ntype_arguments n;
     nparameters := nparameters n; nchildren := nchildren n; nlists := nlists n; ntext := v; nop := nop n;
     ntoken_flags := ntoken_flags n; nis_type_only := nis_type_only n;
     nis_export_equals := nis_export_equals n |}.
Definition op (v : Kind) (n : Node) : Node :=
  {| nkind := nkind n; npos := npos n; nend := nend n; nflags := nflags n; nname := nname n; nty := nty n;
     nbody := nbody n; nexpression := nexpression n; ninitializer := ninitializer n;
     nquestion_token := nquestion_token n; nimport_clause := nimport_clause n; nmodifiers := nmodifiers n;
     ntype_parameters := ntype_parameters n; ntype_arguments := ntype_arguments n;
     nparameters := nparameters n; nchildren := nchildren n; nlists := nlists n; ntext := ntext n;
     nop := v; ntoken_flags := ntoken_flags n; nis_type_only := nis_type_only n;
     nis_export_equals := nis_export_equals n |}.
Definition token_flags (v : Z) (n : Node) : Node :=
  {| nkind := nkind n; npos := npos n; nend := nend n; nflags := nflags n; nname := nname n; nty := nty n;
     nbody := nbody n; nexpression := nexpression n; ninitializer := ninitializer n;
     nquestion_token := nquestion_token n; nimport_clause := nimport_clause n; nmodifiers := nmodifiers n;
     ntype_parameters := ntype_parameters n; ntype_arguments := ntype_arguments n;
     nparameters := nparameters n; nchildren := nchildren n; nlists := nlists n; ntext := ntext n;
     nop := nop n; ntoken_flags := v; nis_type_only := nis_type_only n;
     nis_export_equals := nis_export_equals n |}.
Definition type_only (v : bool) (n : Node) : Node :=
  {| nkind := nkind n; npos := npos n; nend := nend n; nflags := nflags n; nname := nname n; nty := nty n;
     nbody := nbody n; nexpression := nexpression n; ninitializer := ninitializer n;
     nquestion_token := nquestion_token n; nimport_clause := nimport_clause n; nmodifiers := nmodifiers n;
     ntype_parameters := ntype_parameters n; ntype_arguments := ntype_arguments n;
     nparameters := nparameters n; nchildren := nchildren n; nlists := nlists n; ntext := ntext n;
     nop := nop n; ntoken_flags := ntoken_flags n; nis_type_only := v;
     nis_export_equals := nis_export_equals n |}.
Definition export_equals (v : bool) (n : Node) : Node :=
  {| nkind := nkind n; npos := npos n; nend := nend n; nflags := nflags n; nname := nname n; nty := nty n;
     nbody := nbody n; nexpression := nexpression n; ninitializer := ninitializer n;
     nquestion_token := nquestion_token n; nimport_clause := nimport_clause n; nmodifiers := nmodifiers n;
     ntype_parameters := ntype_parameters n; ntype_arguments := ntype_arguments n;
     nparameters := nparameters n; nchildren := nchildren n; nlists := nlists n; ntext := ntext n;
     nop := nop n; ntoken_flags := ntoken_flags n; nis_type_only := nis_type_only n;
     nis_export_equals := v |}.
Definition flags (v : Z) (n : Node) : Node :=
  {| nkind := nkind n; npos := npos n; nend := nend n; nflags := Z.lor (nflags n) v; nname := nname n;
     nty := nty n; nbody := nbody n; nexpression := nexpression n; ninitializer := ninitializer n;
     nquestion_token := nquestion_token n; nimport_clause := nimport_clause n; nmodifiers := nmodifiers n;
     ntype_parameters := ntype_parameters n; ntype_arguments := ntype_arguments n;
     nparameters := nparameters n; nchildren := nchildren n; nlists := nlists n; ntext := ntext n;
     nop := nop n; ntoken_flags := ntoken_flags n; nis_type_only := nis_type_only n;
     nis_export_equals := nis_export_equals n |}.
(** Assignments to fields: [node.pos = pos; node.end = end], [node.kind = kind]. *)
Definition at_range (pos end_ : nat) (n : Node) : Node :=
  {| nkind := nkind n; npos := pos; nend := end_; nflags := nflags n; nname := nname n; nty := nty n;
     nbody := nbody n; nexpression := nexpression n; ninitializer := ninitializer n;
     nquestion_token := nquestion_token n; nimport_clause := nimport_clause n; nmodifiers := nmodifiers n;
     ntype_parameters := ntype_parameters n; ntype_arguments := ntype_arguments n;
     nparameters := nparameters n; nchildren := nchildren n; nlists := nlists n; ntext := ntext n;
     nop := nop n; ntoken_flags := ntoken_flags n; nis_type_only := nis_type_only n;
     nis_export_equals := nis_export_equals n |}.
Definition with_kind (k : Kind) (n : Node) : Node :=
  {| nkind := k; npos := npos n; nend := nend n; nflags := nflags n; nname := nname n; nty := nty n;
     nbody := nbody n; nexpression := nexpression n; ninitializer := ninitializer n;
     nquestion_token := nquestion_token n; nimport_clause := nimport_clause n; nmodifiers := nmodifiers n;
     ntype_parameters := ntype_parameters n; ntype_arguments := ntype_arguments n;
     nparameters := nparameters n; nchildren := nchildren n; nlists := nlists n; ntext := ntext n;
     nop := nop n; ntoken_flags := ntoken_flags n; nis_type_only := nis_type_only n;
     nis_export_equals := nis_export_equals n |}.
Definition with_flags (v : Z) (n : Node) : Node :=
  {| nkind := nkind n; npos := npos n; nend := nend n; nflags := v; nname := nname n; nty := nty n;
     nbody := nbody n; nexpression := nexpression n; ninitializer := ninitializer n;
     nquestion_token := nquestion_token n; nimport_clause := nimport_clause n; nmodifiers := nmodifiers n;
     ntype_parameters := ntype_parameters n; ntype_arguments := ntype_arguments n;
     nparameters := nparameters n; nchildren := nchildren n; nlists := nlists n; ntext := ntext n;
     nop := nop n; ntoken_flags := ntoken_flags n; nis_type_only := nis_type_only n;
     nis_export_equals := nis_export_equals n |}.
End Node.

(** [Node::new(kind).name(n).child(c)] is [Node.new kind |> Node.name n |> Node.child c]. *)
Notation "n |> f" := (f n) (at level 67, left associativity, only parsing) : surge_scope.

Definition modifier_nodes (n : Node) : list NodeId :=
  match nmodifiers n with Some l => lnodes l | None => [] end.

(** ** Operator precedence *)

Inductive OperatorPrecedence :=
| Invalid | Comma | Spread | Yield | Assignment | Conditional | LogicalOR | LogicalAND | BitwiseOR
| BitwiseXOR | BitwiseAND | Equality | Relational | Shift | Additive | Multiplicative | Exponentiation
| Unary | Update | LeftHandSide | OptionalChain | Member | Primary | Parentheses.

Definition precedence_rank (p : OperatorPrecedence) : Z :=
  match p with
  | Invalid => -1 | Comma => 0 | Spread => 1 | Yield => 2 | Assignment => 3 | Conditional => 4
  | LogicalOR => 5 | LogicalAND => 6 | BitwiseOR => 7 | BitwiseXOR => 8 | BitwiseAND => 9 | Equality => 10
  | Relational => 11 | Shift => 12 | Additive => 13 | Multiplicative => 14 | Exponentiation => 15
  | Unary => 16 | Update => 17 | LeftHandSide => 18 | OptionalChain => 19 | Member => 20 | Primary => 21
  | Parentheses => 22
  end%Z.

Definition Lowest := Comma.
Definition Highest := Parentheses.
Definition Coalesce := LogicalOR.

Definition precedence_lt (a b : OperatorPrecedence) : bool := (precedence_rank a <? precedence_rank b)%Z.
Definition precedence_le (a b : OperatorPrecedence) : bool := (precedence_rank a <=? precedence_rank b)%Z.

(** [matches!(kind, ...)] *)
Definition among (kind : Kind) (l : list Kind) : bool := existsb (Kind.eqb kind) l.

Definition get_binary_operator_precedence (kind : Kind) : OperatorPrecedence :=
  match kind with
  | Kind.QuestionQuestionToken => Coalesce
  | Kind.BarBarToken => LogicalOR
  | Kind.AmpersandAmpersandToken => LogicalAND
  | Kind.BarToken => BitwiseOR
  | Kind.CaretToken => BitwiseXOR
  | Kind.AmpersandToken => BitwiseAND
  | Kind.EqualsEqualsToken | Kind.ExclamationEqualsToken | Kind.EqualsEqualsEqualsToken
  | Kind.ExclamationEqualsEqualsToken => Equality
  | Kind.LessThanToken | Kind.GreaterThanToken | Kind.LessThanEqualsToken | Kind.GreaterThanEqualsToken
  | Kind.InstanceOfKeyword | Kind.InKeyword | Kind.AsKeyword | Kind.SatisfiesKeyword => Relational
  | Kind.LessThanLessThanToken | Kind.GreaterThanGreaterThanToken
  | Kind.GreaterThanGreaterThanGreaterThanToken => Shift
  | Kind.PlusToken | Kind.MinusToken => Additive
  | Kind.AsteriskToken | Kind.SlashToken | Kind.PercentToken => Multiplicative
  | Kind.AsteriskAsteriskToken => Exponentiation
  | _ => Invalid
  end.

(** ** Kinds *)

Definition is_keyword (token : Kind) : bool :=
  Kind.leb Kind.FirstKeyword token && Kind.leb token Kind.LastKeyword.

Definition is_reserved_word (token : Kind) : bool :=
  Kind.leb Kind.FirstReservedWord token && Kind.leb token Kind.LastReservedWord.

Definition is_modifier_kind (kind : Kind) : bool :=
  among kind [
    Kind.AbstractKeyword; Kind.AccessorKeyword; Kind.AsyncKeyword; Kind.ConstKeyword; Kind.DeclareKeyword;
    Kind.DefaultKeyword; Kind.ExportKeyword; Kind.InKeyword; Kind.PrivateKeyword; Kind.ProtectedKeyword;
    Kind.PublicKeyword; Kind.ReadonlyKeyword; Kind.OutKeyword; Kind.OverrideKeyword; Kind.StaticKeyword].

Definition is_parameter_property_modifier (kind : Kind) : bool :=
  among kind [
    Kind.PublicKeyword; Kind.PrivateKeyword; Kind.ProtectedKeyword; Kind.ReadonlyKeyword;
    Kind.OverrideKeyword].

Definition is_class_member_modifier (token : Kind) : bool :=
  is_parameter_property_modifier token || Kind.eqb token Kind.StaticKeyword
  || Kind.eqb token Kind.OverrideKeyword || Kind.eqb token Kind.AccessorKeyword.

Definition is_javascript_modifier (kind : Kind) : bool :=
  among kind [
    Kind.ExportKeyword; Kind.StaticKeyword; Kind.AccessorKeyword; Kind.AsyncKeyword; Kind.DefaultKeyword].

Definition is_assignment_operator (kind : Kind) : bool :=
  among kind [
    Kind.EqualsToken; Kind.PlusEqualsToken; Kind.MinusEqualsToken; Kind.AsteriskAsteriskEqualsToken;
    Kind.AsteriskEqualsToken; Kind.SlashEqualsToken; Kind.PercentEqualsToken; Kind.AmpersandEqualsToken;
    Kind.BarEqualsToken; Kind.CaretEqualsToken; Kind.LessThanLessThanEqualsToken;
    Kind.GreaterThanGreaterThanGreaterThanEqualsToken; Kind.GreaterThanGreaterThanEqualsToken;
    Kind.BarBarEqualsToken; Kind.AmpersandAmpersandEqualsToken; Kind.QuestionQuestionEqualsToken].

Definition is_left_hand_side_expression_kind (kind : Kind) : bool :=
  among kind [
    Kind.PropertyAccessExpression; Kind.ElementAccessExpression; Kind.NewExpression; Kind.CallExpression;
    Kind.JsxElement; Kind.JsxSelfClosingElement; Kind.JsxFragment; Kind.TaggedTemplateExpression;
    Kind.ArrayLiteralExpression; Kind.ParenthesizedExpression; Kind.ObjectLiteralExpression;
    Kind.ClassExpression; Kind.FunctionExpression; Kind.Identifier; Kind.PrivateIdentifier;
    Kind.RegularExpressionLiteral; Kind.NumericLiteral; Kind.BigIntLiteral; Kind.StringLiteral;
    Kind.NoSubstitutionTemplateLiteral; Kind.TemplateExpression; Kind.FalseKeyword; Kind.NullKeyword;
    Kind.ThisKeyword; Kind.TrueKeyword; Kind.SuperKeyword; Kind.NonNullExpression;
    Kind.ExpressionWithTypeArguments; Kind.MetaProperty; Kind.ImportKeyword; Kind.MissingDeclaration].

Definition is_function_like_declaration_kind (kind : Kind) : bool :=
  among kind [
    Kind.FunctionDeclaration; Kind.MethodDeclaration; Kind.Constructor; Kind.GetAccessor; Kind.SetAccessor;
    Kind.FunctionExpression; Kind.ArrowFunction].

Definition can_have_illegal_decorators (kind : Kind) : bool :=
  among kind [
    Kind.PropertyAssignment; Kind.ShorthandPropertyAssignment; Kind.FunctionDeclaration; Kind.Constructor;
    Kind.IndexSignature; Kind.ClassStaticBlockDeclaration; Kind.MissingDeclaration; Kind.VariableStatement;
    Kind.InterfaceDeclaration; Kind.TypeAliasDeclaration; Kind.EnumDeclaration; Kind.ModuleDeclaration;
    Kind.ImportEqualsDeclaration; Kind.ImportDeclaration; Kind.JSImportDeclaration;
    Kind.NamespaceExportDeclaration; Kind.ExportDeclaration; Kind.ExportAssignment].

Definition can_have_decorators (kind : Kind) : bool :=
  among kind [
    Kind.Parameter_; Kind.PropertyDeclaration; Kind.MethodDeclaration; Kind.GetAccessor; Kind.SetAccessor;
    Kind.ClassExpression; Kind.ClassDeclaration].

Definition is_function_like_kind (kind : Kind) : bool :=
  among kind [
    Kind.MethodSignature; Kind.CallSignature; Kind.JSDocSignature; Kind.ConstructSignature;
    Kind.IndexSignature; Kind.FunctionType; Kind.ConstructorType]
  || is_function_like_declaration_kind kind.
