(* ===== verification/ParserState.v ===== *)
(** * The parser's state ([surge-ts-tsc-syntax/src/parser/mod.rs])

    [Parser] with its enums and flags, the state monad its methods are translated
    to, errors, [mark] and [rewind], the arena, the tokens and their rescans. *)

From stdpp Require Import gmap sets.
From S2P Require Import Prelude Utf8 RustStr Chars Kind Diagnostics ScanText ScanState Scan Rescan ParserMessages Ast.

(** ** Parsing contexts and flags *)

Inductive PC :=
| SourceElements | BlockStatements | SwitchClauses | SwitchClauseStatements | TypeMembers | ClassMembers
| EnumMembers | HeritageClauseElement | VariableDeclarations | ObjectBindingElements
| ArrayBindingElements | ArgumentExpressions | ObjectLiteralMembers | JsxAttributes | JsxChildren
| ArrayLiteralMembers | Parameters | JSDocParameters | RestProperties | TypeParameters | TypeArguments
| TupleElementTypes | HeritageClauses | ImportOrExportSpecifiers | ImportAttributes | JSDocComment.

#[export] Instance PC_eq_dec : EqDecision PC.
Proof. solve_decision. Defined.

Definition PC_ALL : list PC := [
  SourceElements; BlockStatements; SwitchClauses; SwitchClauseStatements; TypeMembers; ClassMembers;
  EnumMembers; HeritageClauseElement; VariableDeclarations; ObjectBindingElements; ArrayBindingElements;
  ArgumentExpressions; ObjectLiteralMembers; JsxAttributes; JsxChildren; ArrayLiteralMembers; Parameters;
  JSDocParameters; RestProperties; TypeParameters; TypeArguments; TupleElementTypes; HeritageClauses;
  ImportOrExportSpecifiers; ImportAttributes; JSDocComment].

(** [kind as u32]. *)
Definition PC_index (kind : PC) : Z :=
  match kind with
  | SourceElements => 0 | BlockStatements => 1 | SwitchClauses => 2 | SwitchClauseStatements => 3
  | TypeMembers => 4 | ClassMembers => 5 | EnumMembers => 6 | HeritageClauseElement => 7
  | VariableDeclarations => 8 | ObjectBindingElements => 9 | ArrayBindingElements => 10
  | ArgumentExpressions => 11 | ObjectLiteralMembers => 12 | JsxAttributes => 13 | JsxChildren => 14
  | ArrayLiteralMembers => 15 | Parameters => 16 | JSDocParameters => 17 | RestProperties => 18
  | TypeParameters => 19 | TypeArguments => 20 | TupleElementTypes => 21 | HeritageClauses => 22
  | ImportOrExportSpecifiers => 23 | ImportAttributes => 24 | JSDocComment => 25
  end%Z.

Module ParseFlags.
Local Open Scope Z_scope.
Definition None : Z := 0.
Definition Yield : Z := Z.shiftl 1 0.
Definition Await : Z := Z.shiftl 1 1.
Definition Type_ : Z := Z.shiftl 1 2.
Definition IgnoreMissingOpenBrace : Z := Z.shiftl 1 4.
Definition JSDoc : Z := Z.shiftl 1 5.
Definition has (flags other : Z) : bool := negb (Z.land flags other =? 0).
End ParseFlags.

Inductive Tristate := TFalse | TTrue | TUnknown.

(** ** State *)

Record Parser := {
  scanner : Scanner;
  nodes : list Node;
  source_text : str;
  jsx : bool;
  js_diagnostics : list Diagnostic;
  token : Kind;
  source_flags : Z;
  context_flags : Z;
  parsing_contexts : Z;
  statement_has_await_identifier : bool;
  not_parenthesized_arrow : gset nat;
  possible_await_spans : list nat;
  force_module : bool;
  jsx_forces_module : bool;
  is_declaration_file : bool
}.

(** Field updates. *)
Definition with_scanner (v : Scanner) (p : Parser) : Parser :=
  {| scanner := v; nodes := nodes p; source_text := source_text p; jsx := jsx p;
     js_diagnostics := js_diagnostics p; token := token p; source_flags := source_flags p;
     context_flags := context_flags p; parsing_contexts := parsing_contexts p;
     statement_has_await_identifier := statement_has_await_identifier p;
     not_parenthesized_arrow := not_parenthesized_arrow p; possible_await_spans := possible_await_spans p;
     force_module := force_module p; jsx_forces_module := jsx_forces_module p;
     is_declaration_file := is_declaration_file p |}.
Definition with_nodes (v : list Node) (p : Parser) : Parser :=
  {| scanner := scanner p; nodes := v; source_text := source_text p; jsx := jsx p;
     js_diagnostics := js_diagnostics p; token := token p; source_flags := source_flags p;
     context_flags := context_flags p; parsing_contexts := parsing_contexts p;
     statement_has_await_identifier := statement_has_await_identifier p;
     not_parenthesized_arrow := not_parenthesized_arrow p; possible_await_spans := possible_await_spans p;
     force_module := force_module p; jsx_forces_module := jsx_forces_module p;
     is_declaration_file := is_declaration_file p |}.
Definition with_js_diagnostics (v : list Diagnostic) (p : Parser) : Parser :=
  {| scanner := scanner p; nodes := nodes p; source_text := source_text p; jsx := jsx p;
     js_diagnostics := v; token := token p; source_flags := source_flags p;
     context_flags := context_flags p; parsing_contexts := parsing_contexts p;
     statement_has_await_identifier := statement_has_await_identifier p;
     not_parenthesized_arrow := not_parenthesized_arrow p; possible_await_spans := possible_await_spans p;
     force_module := force_module p; jsx_forces_module := jsx_forces_module p;
     is_declaration_file := is_declaration_file p |}.
Definition with_token (v : Kind) (p : Parser) : Parser :=
  {| scanner := scanner p; nodes := nodes p; source_text := source_text p; jsx := jsx p;
     js_diagnostics := js_diagnostics p; token := v; source_flags := source_flags p;
     context_flags := context_flags p; parsing_contexts := parsing_contexts p;
     statement_has_await_identifier := statement_has_await_identifier p;
     not_parenthesized_arrow := not_parenthesized_arrow p; possible_await_spans := possible_await_spans p;
     force_module := force_module p; jsx_forces_module := jsx_forces_module p;
     is_declaration_file := is_declaration_file p |}.
Definition with_source_flags (v : Z) (p : Parser) : Parser :=
  {| scanner := scanner p; nodes := nodes p; source_text := source_text p; jsx := jsx p;
     js_diagnostics := js_diagnostics p; token := token p; source_flags := v;
     context_flags := context_flags p; parsing_contexts := parsing_contexts p;
     statement_has_await_identifier := statement_has_await_identifier p;
     not_parenthesized_arrow := not_parenthesized_arrow p; possible_await_spans := possible_await_spans p;
     force_module := force_module p; jsx_forces_module := jsx_forces_module p;
     is_declaration_file := is_declaration_file p |}.
Definition with_context_flags (v : Z) (p : Parser) : Parser :=
  {| scanner := scanner p; nodes := nodes p; source_text := source_text p; jsx := jsx p;
     js_diagnostics := js_diagnostics p; token := token p; source_flags := source_flags p;
     context_flags := v; parsing_contexts := parsing_contexts p;
     statement_has_await_identifier := statement_has_await_identifier p;
     not_parenthesized_arrow := not_parenthesized_arrow p; possible_await_spans := possible_await_spans p;
     force_module := force_module p; jsx_forces_module := jsx_forces_module p;
     is_declaration_file := is_declaration_file p |}.
Definition with_parsing_contexts (v : Z) (p : Parser) : Parser :=
  {| scanner := scanner p; nodes := nodes p; source_text := source_text p; jsx := jsx p;
     js_diagnostics := js_diagnostics p; token := token p; source_flags := source_flags p;
     context_flags := context_flags p; parsing_contexts := v;
     statement_has_await_identifier := statement_has_await_identifier p;
     not_parenthesized_arrow := not_parenthesized_arrow p; possible_await_spans := possible_await_spans p;
     force_module := force_module p; jsx_forces_module := jsx_forces_module p;
     is_declaration_file := is_declaration_file p |}.
Definition with_statement_has_await_identifier (v : bool) (p : Parser) : Parser :=
  {| scanner := scanner p; nodes := nodes p; source_text := source_text p; jsx := jsx p;
     js_diagnostics := js_diagnostics p; token := token p; source_flags := source_flags p;
     context_flags := context_flags p; parsing_contexts := parsing_contexts p;
     statement_has_await_identifier := v; not_parenthesized_arrow := not_parenthesized_arrow p;
     possible_await_spans := possible_await_spans p; force_module := force_module p;
     jsx_forces_module := jsx_forces_module p; is_declaration_file := is_declaration_file p |}.
Definition with_not_parenthesized_arrow (v : gset nat) (p : Parser) : Parser :=
  {| scanner := scanner p; nodes := nodes p; source_text := source_text p; jsx := jsx p;
     js_diagnostics := js_diagnostics p; token := token p; source_flags := source_flags p;
     context_flags := context_flags p; parsing_contexts := parsing_contexts p;
     statement_has_await_identifier := statement_has_await_identifier p; not_parenthesized_arrow := v;
     possible_await_spans := possible_await_spans p; force_module := force_module p;
     jsx_forces_module := jsx_forces_module p; is_declaration_file := is_declaration_file p |}.
Definition with_possible_await_spans (v : list nat) (p : Parser) : Parser :=
  {| scanner := scanner p; nodes := nodes p; source_text := source_text p; jsx := jsx p;
     js_diagnostics := js_diagnostics p; token := token p; source_flags := source_flags p;
     context_flags := context_flags p; parsing_contexts := parsing_contexts p;
     statement_has_await_identifier := statement_has_await_identifier p;
     not_parenthesized_arrow := not_parenthesized_arrow p; possible_await_spans := v;
     force_module := force_module p; jsx_forces_module := jsx_forces_module p;
     is_declaration_file := is_declaration_file p |}.

Record ParserState := {
  scanner_state : ScannerState;
  st_context_flags : Z;
  diagnostics_len : nat;
  js_diagnostics_len : nat;
  st_statement_has_await_identifier : bool;
  st_has_parse_error : bool
}.

(** ** The monad of the methods that take [&mut self] *)

Definition P (A : Type) : Type := Parser -> result (A * Parser).

#[export] Instance P_ret : MRet P := fun A a p => Ok (a, p).
#[export] Instance P_bind : MBind P := fun A B f m p =>
  match m p with Ok (a, p') => f a p' | Panic => Panic | OutOfFuel => OutOfFuel end.

Definition ret {A} (a : A) : P A := fun p => Ok (a, p).
Definition gets {A} (f : Parser -> A) : P A := fun p => Ok (f p, p).
Definition modify (f : Parser -> Parser) : P unit := fun p => Ok (tt, f p).
Definition lift {A} (f : Parser -> result A) : P A := fun p =>
  match f p with Ok a => Ok (a, p) | Panic => Panic | OutOfFuel => OutOfFuel end.
Definition when (b : bool) (m : P unit) : P unit := if b then m else ret tt.
Definition panic {A} : P A := fun _ => Panic.
Definition out_of_fuel {A} : P A := fun _ => OutOfFuel.
Definition debug_assert (b : bool) : P unit := if b then ret tt else panic.

(** [b && m] and [b || m], where [m] moves the parser. *)
Definition and_then (b : bool) (m : P bool) : P bool := if b then m else ret false.
Definition or_else (b : bool) (m : P bool) : P bool := if b then ret true else m.

(** [Some(m)] under a condition, [None] otherwise. *)
Definition optionally {A} (b : bool) (m : P A) : P (option A) :=
  if b then a ← m; ret (Some a) else ret None.

(** A method of the scanner. *)
Definition scanning {A} (m : M A) : P A := fun p =>
  match m (scanner p) with
  | Ok (a, s) => Ok (a, with_scanner s p)
  | Panic => Panic
  | OutOfFuel => OutOfFuel
  end.

(** A [loop] or [while] of a method with local variables [L]. *)
Definition loop_fuel {L A} (fuel : nat) (body : L -> P (L + A)) (init : L) : P A := fun p =>
  iterate (L := L * Parser) fuel
    (fun '(l, p) =>
       match body l p with
       | Ok (inl l, p) => Ok (inl (l, p))
       | Ok (inr a, p) => Ok (inr (a, p))
       | Panic => Panic
       | OutOfFuel => OutOfFuel
       end) (init, p).

(** The rounds of a loop: nearly every round takes a token, of at least a byte;
    where a round does not, the one after it does. *)
Definition rounds (p : Parser) : nat :=
  2 * (length (source_text p) - token_full_start (scanner p)) + 4.

Definition loop {L A} (body : L -> P (L + A)) (init : L) : P A := fun p =>
  loop_fuel (rounds p) body init p.

(** ** Accessors *)

Definition get_token : P Kind := gets token.
Definition at_token (kind : Kind) : P bool := gets (fun p => Kind.eqb (token p) kind).
Definition node_pos : P nat := gets (fun p => token_full_start (scanner p)).
Definition scanner_token_start : P nat := gets (fun p => ScanState.token_start (state (scanner p))).
Definition scanner_token_value : P str := gets (fun p => ScanState.token_value (state (scanner p))).
Definition scanner_token_flags : P Z := gets (fun p => ScanState.token_flags (state (scanner p))).
Definition scanner_token_text : P str := lift (fun p => token_text (scanner p)).
Definition has_preceding_line_break : P bool := gets (fun p => ScanState.has_preceding_line_break (scanner p)).
Definition get_context_flags : P Z := gets context_flags.
Definition put_context_flags (flags : Z) : P unit := modify (with_context_flags flags).
Definition get_has_await : P bool := gets statement_has_await_identifier.
Definition put_has_await (b : bool) : P unit := modify (with_statement_has_await_identifier b).
Definition set_token (kind : Kind) : P unit := modify (with_token kind).

(** [scanner::skip_trivia(self.source_text, pos)] *)
Definition skip_trivia_at (pos : nat) : P nat := lift (fun p => skip_trivia (source_text p) pos).

(** [skipRangeTrivia]. *)
Definition skip_range_trivia (pos end_ : nat) : P (nat * nat) :=
  start ← skip_trivia_at pos; ret (start, end_).

(** [scanner.has_parse_error = b] *)
Definition with_has_parse_error (b : bool) (s : Scanner) : Scanner :=
  {| text := text s; end_ := end_ s; ScanState.jsx := ScanState.jsx s; skips_trivia := skips_trivia s;
     state := state s; diagnostics := diagnostics s; has_parse_error := b;
     language_version := language_version s |}.

(** ** The arena *)

(** [self.node(id)]: an id outside the arena panics. *)
Definition node (id : NodeId) : P Node := lift (fun p => unwrap (nodes p !! id)).
Definition kind_of (id : NodeId) : P Kind := n ← node id; ret (nkind n).

(** An assignment through [self.node_mut(id)]. *)
Definition node_mut (id : NodeId) (f : Node -> Node) : P unit :=
  n ← node id; modify (fun p => with_nodes (<[id := f n]> (nodes p)) p).

(** [let id = self.nodes.len() as NodeId; self.nodes.push(node)] *)
Definition push_node (n : Node) : P NodeId :=
  id ← gets (fun p => length (nodes p));
  modify (fun p => with_nodes (nodes p ++ [n]) p) ;;
  ret id.

Definition finish_node_with_end (n : Node) (pos end_ : nat) : P NodeId :=
  flags ← get_context_flags;
  parse_error ← gets (fun p => has_parse_error (scanner p));
  let n := n |> Node.at_range pos end_ |> Node.flags flags in
  (if parse_error : bool then
     modify (fun p => with_scanner (with_has_parse_error false (scanner p)) p) ;;
     push_node (n |> Node.flags NodeFlags.ThisNodeHasError)
   else push_node n).

Definition finish_node (n : Node) (pos : nat) : P NodeId :=
  end_ ← node_pos; finish_node_with_end n pos end_.

Definition node_is_missing (id : option NodeId) : P bool :=
  match id with
  | None => ret true
  | Some id =>
      n ← node id; ret ((npos n =? nend n)%nat && negb (Kind.eqb (nkind n) Kind.EndOfFile))
  end.

Definition node_is_present (id : option NodeId) : P bool := missing ← node_is_missing id; ret (negb missing).

(** ** Errors *)

(** [parseErrorAtRange]: whether the diagnostic was recorded; none is at the
    position of the last one. *)
Definition parse_error_at_range (pos end_ : nat) (message : Message) (args : list str) : P bool :=
  before ← gets (fun p => length (diagnostics (scanner p)));
  scanning (error_at_range pos end_ message args) ;;
  gets (fun p => (before <? length (diagnostics (scanner p)))%nat).

Definition parse_error_at (pos end_ : nat) (message : Message) (args : list str) : P unit :=
  parse_error_at_range pos end_ message args ;; ret tt.

Definition parse_error_at_current_token (message : Message) (args : list str) : P unit :=
  '(start, end_) ← gets (fun p => (ScanState.token_start (state (scanner p)), token_end (scanner p)));
  parse_error_at start end_ message args.

(** ** Lookahead *)

Definition mark : P ParserState := gets (fun p =>
  {| scanner_state := state (scanner p);
     st_context_flags := context_flags p;
     diagnostics_len := length (diagnostics (scanner p));
     js_diagnostics_len := length (js_diagnostics p);
     st_statement_has_await_identifier := statement_has_await_identifier p;
     st_has_parse_error := has_parse_error (scanner p) |}).

(** The scanner of a state: what it was, but for the diagnostics' prefix. *)
Definition rewind_scanner (st : ParserState) (s : Scanner) : Scanner :=
  with_has_parse_error (st_has_parse_error st)
    (with_diagnostics (take (diagnostics_len st) (diagnostics s)) (with_state (fun _ => scanner_state st) s)).

Definition rewind (st : ParserState) : P unit := modify (fun p =>
  with_statement_has_await_identifier (st_statement_has_await_identifier st)
    (with_js_diagnostics (take (js_diagnostics_len st) (js_diagnostics p))
       (with_context_flags (st_context_flags st)
          (with_token (ScanState.token (scanner_state st))
             (with_scanner (rewind_scanner st (scanner p)) p))))).

Definition look_ahead {A} (callback : P A) : P A :=
  st ← mark;
  result ← callback;
  rewind st ;;
  ret result.

(** ** Context flags *)

Definition set_context_flags (flags : Z) (value : bool) : P unit :=
  c ← get_context_flags;
  put_context_flags (if value then Z.lor c flags else NodeFlags.without c flags).

Definition do_in_context {A} (flags : Z) (value : bool) (f : P A) : P A :=
  save_context_flags ← get_context_flags;
  set_context_flags flags value ;;
  result ← f;
  put_context_flags save_context_flags ;;
  ret result.

Definition in_context (flag : Z) : P bool := gets (fun p => NodeFlags.has (context_flags p) flag).
Definition in_yield_context : P bool := in_context NodeFlags.YieldContext.
Definition in_disallow_in_context : P bool := in_context NodeFlags.DisallowInContext.
Definition in_disallow_conditional_types_context : P bool := in_context NodeFlags.DisallowConditionalTypesContext.
Definition in_decorator_context : P bool := in_context NodeFlags.DecoratorContext.
Definition in_await_context : P bool := in_context NodeFlags.AwaitContext.

(** [self.source_flags |= flags] *)
Definition add_source_flags (flags : Z) : P unit :=
  modify (fun p => with_source_flags (Z.lor (source_flags p) flags) p).

(** [self.statement_has_await_identifier] as it was before [m]. *)
Definition keeping_await {A} (m : P A) : P A :=
  save_has_await_identifier ← get_has_await;
  a ← m;
  put_has_await save_has_await_identifier ;;
  ret a.

(** ** Tokens *)

Section tokens.
Context `{UnicodeId}.

(** [self.token = self.scanner.method(); self.token] *)
Definition rescanned (m : M Kind) : P Kind := k ← scanning m; set_token k ;; ret k.

Definition next_token_without_check : P Kind := rescanned scan.

Definition next_token : P Kind :=
  tok ← get_token;
  escapes ← gets (fun p => has_unicode_escape (scanner p) || has_extended_unicode_escape (scanner p));
  when (is_keyword tok && escapes)
    (parse_error_at_current_token ParserMessages.Keywords_cannot_contain_escape_characters []) ;;
  rescanned scan.

Definition advance_token : P unit := next_token ;; ret tt.

Definition re_scan_less_than_token : P Kind := rescanned Rescan.re_scan_less_than_token.
Definition re_scan_greater_than_token : P Kind := rescanned Rescan.re_scan_greater_than_token.
(** The validator runs in the checker only: [report_errors] is false here. *)
Definition re_scan_slash_token : P Kind :=
  rescanned (Rescan.re_scan_slash_token (fun _ _ _ => ScanState.ret tt) false).
Definition re_scan_template_token (is_tagged_template : bool) : P Kind :=
  rescanned (Rescan.re_scan_template_token is_tagged_template).
Definition scan_jsx_text : P Kind := rescanned scan_jsx_token.
Definition scan_jsx_identifier : P Kind := rescanned Rescan.scan_jsx_identifier.
Definition scan_jsx_attribute_value : P Kind := rescanned Rescan.scan_jsx_attribute_value.
End tokens.

(** ** The productions *)

(** The productions the others call back: one round of their recursion. *)
Class Productions := {
  rec_parse_type : P NodeId;
  rec_parse_type_operator_or_higher : P NodeId;
  rec_parse_identifier_or_pattern : P NodeId;
  rec_parse_expression : P NodeId;
  rec_parse_assignment_expression_or_higher_worker : bool -> P NodeId;
  rec_parse_binary_expression_or_higher : OperatorPrecedence -> P NodeId;
  rec_parse_unary_expression_or_higher : P NodeId;
  rec_parse_simple_unary_expression : P NodeId;
  rec_parse_left_hand_side_expression_or_higher : P NodeId;
  rec_parse_primary_expression : P NodeId;
  rec_parse_member_expression_rest : nat -> NodeId -> bool -> P NodeId;
  rec_parse_call_expression_rest : nat -> NodeId -> P NodeId;
  rec_parse_jsx_element_or_self_closing_element_or_fragment :
    bool -> option nat -> option NodeId -> bool -> P NodeId;
  rec_parse_statement : P NodeId;
  rec_parse_module_or_namespace_declaration : nat -> option NodeList -> bool -> Kind -> P NodeId
}.
