(* ===== verification/ParserPredicates.v ===== *)
(** * Tokens and predicates ([surge-ts-tsc-syntax/src/parser/])

    Taking tokens, and the questions the parser asks of the tokens ahead: the
    token predicates of [mod.rs], and those of [types.rs], [expressions.rs] and
    [statements.rs] that only scan. *)

From stdpp Require Import gmap sets.
From S2P Require Import Prelude Utf8 RustStr Chars Kind Diagnostics ScanText ScanState Scan Rescan ParserMessages Ast ParserState.
Import ParserMessages.

Section predicates.
Context `{UnicodeId}.

(** ** Tokens *)

Definition parse_expected_with_diagnostic (kind : Kind) (message : option Message) (should_advance : bool) : P bool :=
  tok ← get_token;
  if Kind.eqb tok kind then
    when should_advance advance_token ;; ret true
  else
    match message with
    | Some message => parse_error_at_current_token message []
    | None => parse_error_at_current_token Messages.X_0_expected [token_to_string kind]
    end ;;
    ret false.

Definition parse_expected (kind : Kind) : P bool := parse_expected_with_diagnostic kind None true.

(** [parse_expected], its answer dropped. *)
Definition expect (kind : Kind) : P unit := parse_expected kind ;; ret tt.

Definition parse_expected_without_advancing (kind : Kind) : P bool :=
  parse_expected_with_diagnostic kind None false.

Definition parse_expected_matching_brackets (close_kind : Kind) : P unit :=
  tok ← get_token;
  if Kind.eqb tok close_kind then advance_token
  else parse_error_at_current_token Messages.X_0_expected [token_to_string close_kind].

Definition parse_optional (kind : Kind) : P bool :=
  tok ← get_token;
  if Kind.eqb tok kind then advance_token ;; ret true else ret false.

Definition parse_token_node : P NodeId :=
  pos ← node_pos;
  kind ← get_token;
  advance_token ;;
  finish_node (Node.new kind) pos.

Definition parse_optional_token (kind : Kind) : P (option NodeId) :=
  tok ← get_token; optionally (Kind.eqb tok kind) parse_token_node.

Definition parse_expected_token (kind : Kind) : P NodeId :=
  taken ← parse_optional_token kind;
  match taken with
  | Some id => ret id
  | None =>
      parse_error_at_current_token Messages.X_0_expected [token_to_string kind] ;;
      pos ← node_pos;
      finish_node (Node.new kind) pos
  end.

(** The next token is one of these. *)
Definition next_token_is (kinds : list Kind) : P bool := k ← next_token; ret (among k kinds).

(** ** Identifiers *)

Definition is_identifier : P bool := gets (fun p =>
  Kind.eqb (token p) Kind.Identifier
  || (if (Kind.eqb (token p) Kind.YieldKeyword && NodeFlags.has (context_flags p) NodeFlags.YieldContext)
         || (Kind.eqb (token p) Kind.AwaitKeyword && NodeFlags.has (context_flags p) NodeFlags.AwaitContext)
      then false
      else negb (Kind.leb (token p) Kind.LastReservedWord))).

Definition binding_identifier (tok : Kind) : bool :=
  Kind.eqb tok Kind.Identifier || negb (Kind.leb tok Kind.LastReservedWord).

Definition is_binding_identifier : P bool := gets (fun p => binding_identifier (token p)).

Definition identifier_or_keyword : P bool := gets (fun p => token_is_identifier_or_keyword (token p)).

Definition literal_property_name (tok : Kind) : bool :=
  token_is_identifier_or_keyword tok
  || among tok [Kind.StringLiteral; Kind.NumericLiteral; Kind.BigIntLiteral].

Definition is_literal_property_name : P bool := gets (fun p => literal_property_name (token p)).

Definition is_import_attribute_name : P bool := gets (fun p =>
  token_is_identifier_or_keyword (token p) || Kind.eqb (token p) Kind.StringLiteral).

Definition is_binding_identifier_or_private_identifier_or_pattern : P bool := gets (fun p =>
  among (token p) [Kind.OpenBraceToken; Kind.OpenBracketToken; Kind.PrivateIdentifier]
  || binding_identifier (token p)).

Definition is_binary_operator : P bool := gets (fun p =>
  if NodeFlags.has (context_flags p) NodeFlags.DisallowInContext && Kind.eqb (token p) Kind.InKeyword then false
  else match get_binary_operator_precedence (token p) with Invalid => false | _ => true end).

Definition is_heritage_clause : P bool := gets (fun p =>
  among (token p) [Kind.ExtendsKeyword; Kind.ImplementsKeyword]).

Definition same_line (b : bool) : P bool := br ← has_preceding_line_break; ret (b && negb br).

Definition next_token_is_identifier : P bool := advance_token ;; is_identifier.

Definition next_token_is_identifier_on_same_line : P bool := b ← next_token_is_identifier; same_line b.

Definition next_token_is_identifier_or_string_literal_on_same_line : P bool :=
  advance_token ;;
  b ← is_identifier;
  s ← at_token Kind.StringLiteral;
  same_line (b || s).

Definition next_token_is_identifier_or_keyword : P bool :=
  k ← next_token; ret (token_is_identifier_or_keyword k).

Definition next_token_is_identifier_or_keyword_or_greater_than : P bool :=
  k ← next_token; ret (Kind.eqb k Kind.GreaterThanToken || token_is_identifier_or_keyword k).

Definition next_token_is_identifier_or_keyword_on_same_line : P bool :=
  b ← next_token_is_identifier_or_keyword; same_line b.

Definition next_token_is_identifier_or_keyword_or_literal_on_same_line : P bool :=
  k ← next_token;
  same_line (token_is_identifier_or_keyword k
             || among k [Kind.NumericLiteral; Kind.BigIntLiteral; Kind.StringLiteral]).

Definition next_token_is_slash : P bool := next_token_is [Kind.SlashToken].
Definition next_token_is_dot : P bool := next_token_is [Kind.DotToken].
Definition next_token_is_open_brace : P bool := next_token_is [Kind.OpenBraceToken].
Definition next_token_is_open_paren : P bool := next_token_is [Kind.OpenParenToken].
Definition next_token_is_new_keyword : P bool := next_token_is [Kind.NewKeyword].
Definition next_is_start_of_type_of_import_type : P bool := next_token_is [Kind.ImportKeyword].
Definition next_token_is_token_string_literal : P bool := next_token_is [Kind.StringLiteral].
Definition next_token_is_open_paren_or_less_than : P bool := next_token_is [Kind.OpenParenToken; Kind.LessThanToken].
Definition next_token_is_open_paren_or_less_than_or_dot : P bool :=
  next_token_is [Kind.OpenParenToken; Kind.LessThanToken; Kind.DotToken].
Definition next_token_is_from_keyword_or_equals_token : P bool :=
  next_token_is [Kind.FromKeyword; Kind.EqualsToken].
Definition next_token_is_equals_or_semicolon_or_colon_token : P bool :=
  next_token_is [Kind.EqualsToken; Kind.SemicolonToken; Kind.ColonToken].
Definition next_token_is_numeric_or_big_int_literal : P bool :=
  next_token_is [Kind.NumericLiteral; Kind.BigIntLiteral].
Definition next_is_not_dot : P bool := b ← next_token_is_dot; ret (negb b).

Definition next_token_is_class_keyword_on_same_line : P bool := b ← next_token_is [Kind.ClassKeyword]; same_line b.
Definition next_token_is_function_keyword_on_same_line : P bool :=
  b ← next_token_is [Kind.FunctionKeyword]; same_line b.

Definition is_next_token_open_paren_or_less_than_or_dot : P bool :=
  look_ahead next_token_is_open_paren_or_less_than_or_dot.

Definition next_is_identifier_and_close_paren : P bool :=
  b ← next_token_is_identifier; and_then b (next_token_is [Kind.CloseParenToken]).

Definition is_implements_clause : P bool :=
  b ← at_token Kind.ImplementsKeyword; and_then b (look_ahead next_token_is_identifier_or_keyword).

(** ** Declarations *)

Definition next_token_is_binding_identifier_or_start_of_destructuring_on_same_line (disallow_of : bool) : P bool :=
  k ← next_token;
  if disallow_of && Kind.eqb k Kind.OfKeyword then
    look_ahead next_token_is_equals_or_semicolon_or_colon_token
  else
    b ← is_binding_identifier;
    same_line (b || Kind.eqb k Kind.OpenBraceToken).

Definition next_token_is_binding_identifier_or_start_of_destructuring_on_same_line_disallow_of : P bool :=
  next_token_is_binding_identifier_or_start_of_destructuring_on_same_line true.

Definition is_using_declaration : P bool :=
  look_ahead (next_token_is_binding_identifier_or_start_of_destructuring_on_same_line false).

Definition next_is_using_keyword_then_binding_identifier_or_start_of_object_destructuring_on_same_line : P bool :=
  k ← next_token;
  and_then (Kind.eqb k Kind.UsingKeyword)
    (next_token_is_binding_identifier_or_start_of_destructuring_on_same_line false).

Definition is_await_using_declaration : P bool :=
  look_ahead next_is_using_keyword_then_binding_identifier_or_start_of_object_destructuring_on_same_line.

Definition next_token_is_binding_identifier_or_start_of_destructuring : P bool :=
  k ← next_token;
  b ← is_binding_identifier;
  ret (b || among k [Kind.OpenBraceToken; Kind.OpenBracketToken]).

Definition is_let_declaration : P bool := look_ahead next_token_is_binding_identifier_or_start_of_destructuring.

(** One token of [scan_start_of_declaration]: its answer, or go on. *)
Definition scan_start_of_declaration_step : P (unit + bool) :=
  let answer (m : P bool) : P (unit + bool) := b ← m; ret (inr b) in
  tok ← get_token;
  match tok with
  | Kind.VarKeyword | Kind.LetKeyword | Kind.ConstKeyword | Kind.FunctionKeyword | Kind.ClassKeyword
  | Kind.EnumKeyword => ret (inr true)
  | Kind.UsingKeyword => answer is_using_declaration
  | Kind.AwaitKeyword => answer is_await_using_declaration
  | Kind.InterfaceKeyword | Kind.TypeKeyword | Kind.DeferKeyword => answer next_token_is_identifier_on_same_line
  | Kind.ModuleKeyword | Kind.NamespaceKeyword =>
      answer next_token_is_identifier_or_string_literal_on_same_line
  | Kind.AbstractKeyword | Kind.AccessorKeyword | Kind.AsyncKeyword | Kind.DeclareKeyword
  | Kind.PrivateKeyword | Kind.ProtectedKeyword | Kind.PublicKeyword | Kind.ReadonlyKeyword =>
      k ← next_token;
      br ← has_preceding_line_break;
      if br : bool then ret (inr false)
      else if Kind.eqb tok Kind.DeclareKeyword && Kind.eqb k Kind.TypeKeyword then ret (inr true)
      else ret (inl tt)
  | Kind.GlobalKeyword => answer (next_token_is [Kind.OpenBraceToken; Kind.Identifier; Kind.ExportKeyword])
  | Kind.ImportKeyword =>
      k ← next_token;
      ret (inr (among k [Kind.DeferKeyword; Kind.StringLiteral; Kind.AsteriskToken; Kind.OpenBraceToken]
                || token_is_identifier_or_keyword k))
  | Kind.ExportKeyword =>
      k ← next_token;
      if among k [Kind.EqualsToken; Kind.AsteriskToken; Kind.OpenBraceToken; Kind.DefaultKeyword; Kind.AsKeyword;
                  Kind.AtToken] then ret (inr true)
      else if Kind.eqb k Kind.TypeKeyword then
        k ← next_token;
        id ← is_identifier;
        br ← has_preceding_line_break;
        ret (inr (among k [Kind.AsteriskToken; Kind.OpenBraceToken] || (id && negb br)))
      else ret (inl tt)
  | Kind.StaticKeyword => advance_token ;; ret (inl tt)
  | _ => ret (inr false)
  end.

Definition scan_start_of_declaration : P bool := loop (fun _ => scan_start_of_declaration_step) tt.

Definition is_start_of_declaration : P bool := look_ahead scan_start_of_declaration.

(** ** Expressions *)

Definition is_start_of_left_hand_side_expression : P bool :=
  tok ← get_token;
  if among tok [Kind.ThisKeyword; Kind.SuperKeyword; Kind.NullKeyword; Kind.TrueKeyword; Kind.FalseKeyword;
                Kind.NumericLiteral; Kind.BigIntLiteral; Kind.StringLiteral; Kind.NoSubstitutionTemplateLiteral;
                Kind.TemplateHead; Kind.OpenParenToken; Kind.OpenBracketToken; Kind.OpenBraceToken;
                Kind.FunctionKeyword; Kind.ClassKeyword; Kind.NewKeyword; Kind.SlashToken; Kind.SlashEqualsToken;
                Kind.Identifier] then ret true
  else if Kind.eqb tok Kind.ImportKeyword then is_next_token_open_paren_or_less_than_or_dot
  else is_identifier.

Definition is_start_of_expression : P bool :=
  b ← is_start_of_left_hand_side_expression;
  or_else b (
    tok ← get_token;
    or_else (among tok [Kind.PlusToken; Kind.MinusToken; Kind.TildeToken; Kind.ExclamationToken;
                        Kind.DeleteKeyword; Kind.TypeOfKeyword; Kind.VoidKeyword; Kind.PlusPlusToken;
                        Kind.MinusMinusToken; Kind.LessThanToken; Kind.AwaitKeyword; Kind.YieldKeyword;
                        Kind.PrivateIdentifier; Kind.AtToken]) (
      b ← is_binary_operator;
      or_else b is_identifier)).

Definition next_is_start_of_expression : P bool := advance_token ;; is_start_of_expression.

Definition is_heritage_clause_extends_or_implements_keyword : P bool :=
  b ← is_heritage_clause; and_then b (look_ahead next_is_start_of_expression).

Definition is_start_of_expression_statement : P bool :=
  tok ← get_token;
  and_then (negb (among tok [Kind.OpenBraceToken; Kind.FunctionKeyword; Kind.ClassKeyword; Kind.AtToken]))
    is_start_of_expression.

Definition is_template_start_of_tagged_template : P bool := gets (fun p =>
  among (token p) [Kind.NoSubstitutionTemplateLiteral; Kind.TemplateHead]).

Definition next_token_is_identifier_or_keyword_or_open_bracket_or_template : P bool :=
  k ← next_token;
  ret (token_is_identifier_or_keyword k
       || among k [Kind.OpenBracketToken; Kind.NoSubstitutionTemplateLiteral; Kind.TemplateHead]).

Definition is_start_of_optional_property_or_element_access_chain : P bool :=
  b ← at_token Kind.QuestionDotToken;
  and_then b (look_ahead next_token_is_identifier_or_keyword_or_open_bracket_or_template).

Definition can_follow_type_arguments_in_expression : P bool :=
  tok ← get_token;
  if among tok [Kind.OpenParenToken; Kind.NoSubstitutionTemplateLiteral; Kind.TemplateHead] then ret true
  else if among tok [Kind.LessThanToken; Kind.GreaterThanToken; Kind.PlusToken; Kind.MinusToken] then ret false
  else
    br ← has_preceding_line_break;
    or_else br (
      b ← is_binary_operator;
      or_else b (e ← is_start_of_expression; ret (negb e))).

Definition is_yield_expression : P bool :=
  b ← at_token Kind.YieldKeyword;
  and_then b (
    c ← in_yield_context;
    or_else c (look_ahead next_token_is_identifier_or_keyword_or_literal_on_same_line)).

Definition is_await_expression : P bool :=
  b ← at_token Kind.AwaitKeyword;
  and_then b (
    c ← in_await_context;
    or_else c (look_ahead next_token_is_identifier_or_keyword_or_literal_on_same_line)).

Definition is_update_expression : P bool := gets (fun p =>
  if among (token p) [Kind.PlusToken; Kind.MinusToken; Kind.TildeToken; Kind.ExclamationToken;
                      Kind.DeleteKeyword; Kind.TypeOfKeyword; Kind.VoidKeyword; Kind.AwaitKeyword] then false
  else if Kind.eqb (token p) Kind.LessThanToken then jsx p
  else true).

(** ** Statements *)

Definition is_start_of_statement : P bool :=
  tok ← get_token;
  if among tok [Kind.AtToken; Kind.SemicolonToken; Kind.OpenBraceToken; Kind.VarKeyword; Kind.LetKeyword;
                Kind.UsingKeyword; Kind.FunctionKeyword; Kind.ClassKeyword; Kind.EnumKeyword; Kind.IfKeyword;
                Kind.DoKeyword; Kind.WhileKeyword; Kind.ForKeyword; Kind.ContinueKeyword; Kind.BreakKeyword;
                Kind.ReturnKeyword; Kind.WithKeyword; Kind.SwitchKeyword; Kind.ThrowKeyword; Kind.TryKeyword;
                Kind.DebuggerKeyword; Kind.CatchKeyword; Kind.FinallyKeyword] then ret true
  else if Kind.eqb tok Kind.ImportKeyword then
    b ← is_start_of_declaration; or_else b is_next_token_open_paren_or_less_than_or_dot
  else if among tok [Kind.ConstKeyword; Kind.ExportKeyword] then is_start_of_declaration
  else if among tok [Kind.AsyncKeyword; Kind.DeclareKeyword; Kind.InterfaceKeyword; Kind.ModuleKeyword;
                     Kind.NamespaceKeyword; Kind.TypeKeyword; Kind.GlobalKeyword; Kind.DeferKeyword] then ret true
  else if among tok [Kind.AccessorKeyword; Kind.PublicKeyword; Kind.PrivateKeyword; Kind.ProtectedKeyword;
                     Kind.StaticKeyword; Kind.ReadonlyKeyword] then
    b ← is_start_of_declaration;
    or_else b (n ← look_ahead next_token_is_identifier_or_keyword_on_same_line; ret (negb n))
  else is_start_of_expression.

Definition can_parse_semicolon : P bool := gets (fun p =>
  among (token p) [Kind.SemicolonToken; Kind.CloseBraceToken; Kind.EndOfFile]
  || ScanState.has_preceding_line_break (scanner p)).

Definition try_parse_semicolon : P bool :=
  b ← can_parse_semicolon;
  if b : bool then
    s ← at_token Kind.SemicolonToken;
    when s advance_token ;; ret true
  else ret false.

Definition parse_semicolon : P bool :=
  b ← try_parse_semicolon; or_else b (parse_expected Kind.SemicolonToken).

(** ** Types *)

Definition type_start (tok : Kind) : bool :=
  among tok [Kind.AnyKeyword; Kind.UnknownKeyword; Kind.StringKeyword; Kind.NumberKeyword; Kind.BigIntKeyword;
             Kind.BooleanKeyword; Kind.ReadonlyKeyword; Kind.SymbolKeyword; Kind.UniqueKeyword; Kind.VoidKeyword;
             Kind.UndefinedKeyword; Kind.NullKeyword; Kind.ThisKeyword; Kind.TypeOfKeyword; Kind.NeverKeyword;
             Kind.OpenBraceToken; Kind.OpenBracketToken; Kind.LessThanToken; Kind.BarToken; Kind.AmpersandToken;
             Kind.NewKeyword; Kind.StringLiteral; Kind.NumericLiteral; Kind.BigIntLiteral; Kind.TrueKeyword;
             Kind.FalseKeyword; Kind.ObjectKeyword; Kind.AsteriskToken; Kind.QuestionToken; Kind.ExclamationToken;
             Kind.DotDotDotToken; Kind.InferKeyword; Kind.ImportKeyword; Kind.AssertsKeyword;
             Kind.NoSubstitutionTemplateLiteral; Kind.TemplateHead].

Section type_start.
(** [next_is_parenthesized_or_function_type], after the parenthesis. *)
Variable paren : P bool.

Definition is_start_of_type_with (in_start_of_parameter : bool) : P bool :=
  tok ← get_token;
  if type_start tok then ret true
  else if Kind.eqb tok Kind.FunctionKeyword then ret (negb in_start_of_parameter)
  else if Kind.eqb tok Kind.MinusToken then
    and_then (negb in_start_of_parameter) (look_ahead next_token_is_numeric_or_big_int_literal)
  else if Kind.eqb tok Kind.OpenParenToken then and_then (negb in_start_of_parameter) (look_ahead paren)
  else is_identifier.

Definition is_start_of_parameter_with (is_jsdoc_parameter : bool) : P bool :=
  tok ← get_token;
  b ← is_binding_identifier_or_private_identifier_or_pattern;
  or_else (among tok [Kind.DotDotDotToken] || b || is_modifier_kind tok || Kind.eqb tok Kind.AtToken)
    (is_start_of_type_with (negb is_jsdoc_parameter)).
End type_start.

(** Every parenthesis takes a token: the text left bounds the depth. *)
Fixpoint next_is_parenthesized_or_function_type (fuel : nat) : P bool :=
  match fuel with
  | O => out_of_fuel
  | S fuel =>
      let paren := next_is_parenthesized_or_function_type fuel in
      k ← next_token;
      or_else (Kind.eqb k Kind.CloseParenToken) (
        b ← is_start_of_parameter_with paren false;
        or_else b (is_start_of_type_with paren false))
  end.

Definition is_start_of_type (in_start_of_parameter : bool) : P bool := fun p =>
  is_start_of_type_with (next_is_parenthesized_or_function_type (rounds p)) in_start_of_parameter p.

Definition is_start_of_parameter (is_jsdoc_parameter : bool) : P bool := fun p =>
  is_start_of_parameter_with (next_is_parenthesized_or_function_type (rounds p)) is_jsdoc_parameter p.

Definition next_is_start_of_type : P bool := advance_token ;; is_start_of_type false.

Definition next_is_start_of_mapped_type : P bool :=
  k ← next_token;
  if among k [Kind.PlusToken; Kind.MinusToken] then next_token_is [Kind.ReadonlyKeyword]
  else
    when (Kind.eqb k Kind.ReadonlyKeyword) advance_token ;;
    b ← at_token Kind.OpenBracketToken;
    and_then b (
      b ← next_token_is_identifier;
      and_then b (next_token_is [Kind.InKeyword])).

Definition next_token_is_colon_or_question_colon : P bool :=
  k ← next_token;
  or_else (Kind.eqb k Kind.ColonToken)
    (and_then (Kind.eqb k Kind.QuestionToken) (next_token_is [Kind.ColonToken])).

Definition scan_start_of_named_tuple_element : P bool :=
  tok ← get_token;
  if Kind.eqb tok Kind.DotDotDotToken then
    k ← next_token;
    and_then (token_is_identifier_or_keyword k) next_token_is_colon_or_question_colon
  else and_then (token_is_identifier_or_keyword tok) next_token_is_colon_or_question_colon.

(** After [\[]: a colon or a comma, or a question mark that no conditional
    expression has. *)
Definition index_signature_follows : P bool :=
  tok ← get_token;
  if among tok [Kind.ColonToken; Kind.CommaToken] then ret true
  else if negb (Kind.eqb tok Kind.QuestionToken) then ret false
  else next_token_is [Kind.ColonToken; Kind.CommaToken; Kind.CloseBracketToken].

Definition next_is_unambiguously_index_signature : P bool :=
  k ← next_token;
  if among k [Kind.DotDotDotToken; Kind.CloseBracketToken] then ret true
  else if is_modifier_kind k then
    advance_token ;;
    b ← is_identifier;
    or_else b index_signature_follows
  else
    b ← is_identifier;
    and_then b (advance_token ;; index_signature_follows).

Definition is_index_signature : P bool :=
  b ← at_token Kind.OpenBracketToken;
  and_then b (look_ahead next_is_unambiguously_index_signature).

(** ** Modifiers *)

Definition follows_modifier (tok : Kind) : bool :=
  among tok [Kind.OpenBracketToken; Kind.OpenBraceToken; Kind.AsteriskToken; Kind.DotDotDotToken]
  || literal_property_name tok.

Definition can_follow_modifier : P bool := gets (fun p => follows_modifier (token p)).

Definition can_follow_export_modifier : P bool := gets (fun p =>
  Kind.eqb (token p) Kind.AtToken
  || (negb (among (token p) [Kind.AsteriskToken; Kind.AsKeyword; Kind.OpenBraceToken])
      && follows_modifier (token p))).

Definition can_follow_get_or_set_keyword : P bool := gets (fun p =>
  Kind.eqb (token p) Kind.OpenBracketToken || literal_property_name (token p)).

Definition next_token_is_on_same_line_and_can_follow_modifier : P bool :=
  advance_token ;;
  br ← has_preceding_line_break;
  if br : bool then ret false else can_follow_modifier.

Definition next_token_can_follow_default_keyword : P bool :=
  k ← next_token;
  if among k [Kind.ClassKeyword; Kind.FunctionKeyword; Kind.InterfaceKeyword; Kind.AtToken] then ret true
  else if Kind.eqb k Kind.AbstractKeyword then look_ahead next_token_is_class_keyword_on_same_line
  else if Kind.eqb k Kind.AsyncKeyword then look_ahead next_token_is_function_keyword_on_same_line
  else ret false.

Definition next_token_can_follow_export_modifier : P bool := advance_token ;; can_follow_export_modifier.

Definition next_token_can_follow_modifier : P bool :=
  tok ← get_token;
  match tok with
  | Kind.ConstKeyword => next_token_is [Kind.EnumKeyword]
  | Kind.ExportKeyword =>
      k ← next_token;
      if Kind.eqb k Kind.DefaultKeyword then look_ahead next_token_can_follow_default_keyword
      else if Kind.eqb k Kind.TypeKeyword then look_ahead next_token_can_follow_export_modifier
      else can_follow_export_modifier
  | Kind.DefaultKeyword => next_token_can_follow_default_keyword
  | Kind.StaticKeyword => advance_token ;; can_follow_modifier
  | Kind.GetKeyword | Kind.SetKeyword => advance_token ;; can_follow_get_or_set_keyword
  | _ => next_token_is_on_same_line_and_can_follow_modifier
  end.

(** The parser stays where a token is no modifier. *)
Definition parse_contextual_modifier (t : Kind) : P bool :=
  st ← mark;
  tok ← get_token;
  b ← and_then (Kind.eqb tok t) next_token_can_follow_modifier;
  if b : bool then ret true else rewind st ;; ret false.

Definition parse_any_contextual_modifier : P bool :=
  st ← mark;
  tok ← get_token;
  b ← and_then (is_modifier_kind tok) next_token_can_follow_modifier;
  if b : bool then ret true else rewind st ;; ret false.

(** ** Members *)

Definition skip_modifiers (seen : bool) : P bool := loop (fun seen =>
  tok ← get_token;
  if is_modifier_kind tok then advance_token ;; ret (inl true) else ret (inr seen)) seen.

Definition scan_type_member_start : P bool :=
  tok ← get_token;
  if among tok [Kind.OpenParenToken; Kind.LessThanToken; Kind.GetKeyword; Kind.SetKeyword] then ret true
  else
    id_token ← skip_modifiers false;
    b ← at_token Kind.OpenBracketToken;
    if b : bool then ret true
    else
      name ← is_literal_property_name;
      when name advance_token ;;
      if id_token || name then
        tok ← get_token;
        s ← can_parse_semicolon;
        ret (among tok [Kind.OpenParenToken; Kind.LessThanToken; Kind.QuestionToken; Kind.ColonToken;
                        Kind.CommaToken] || s)
      else ret false.

(** The modifiers at the start of a class member: [None] when one settles it. *)
Definition skip_class_modifiers : P (option Kind) := loop (fun id_token =>
  tok ← get_token;
  if is_modifier_kind tok then
    if is_class_member_modifier tok then ret (inr None)
    else advance_token ;; ret (inl tok)
  else ret (inr (Some id_token))) Kind.Unknown.

Definition scan_class_member_start : P bool :=
  tok ← get_token;
  if Kind.eqb tok Kind.AtToken then ret true
  else
    skipped ← skip_class_modifiers;
    match skipped with
    | None => ret true
    | Some id_token =>
        tok ← get_token;
        if Kind.eqb tok Kind.AsteriskToken then ret true
        else
          let name := literal_property_name tok in
          let id_token := if name then tok else id_token in
          when name advance_token ;;
          tok ← get_token;
          if Kind.eqb tok Kind.OpenBracketToken then ret true
          else if negb (Kind.eqb id_token Kind.Unknown) then
            if negb (is_keyword id_token) || among id_token [Kind.SetKeyword; Kind.GetKeyword] then ret true
            else if among tok [Kind.OpenParenToken; Kind.LessThanToken; Kind.ExclamationToken; Kind.ColonToken;
                               Kind.EqualsToken; Kind.QuestionToken] then ret true
            else can_parse_semicolon
          else ret false
    end.

Definition next_is_valid_heritage_clause_object_literal : P bool :=
  k ← next_token;
  if Kind.eqb k Kind.CloseBraceToken then
    next_token_is [Kind.CommaToken; Kind.OpenBraceToken; Kind.ExtendsKeyword; Kind.ImplementsKeyword]
  else ret true.

Definition is_valid_heritage_clause_object_literal : P bool :=
  look_ahead next_is_valid_heritage_clause_object_literal.

(** ** Elements and ends of lists *)

Definition is_list_element (parsing_context : PC) (in_error_recovery : bool) : P bool :=
  tok ← get_token;
  match parsing_context with
  | SourceElements | BlockStatements | SwitchClauseStatements =>
      and_then (negb (Kind.eqb tok Kind.SemicolonToken && in_error_recovery)) is_start_of_statement
  | SwitchClauses => ret (among tok [Kind.CaseKeyword; Kind.DefaultKeyword])
  | TypeMembers => look_ahead scan_type_member_start
  | ClassMembers =>
      b ← look_ahead scan_class_member_start;
      ret (b || (Kind.eqb tok Kind.SemicolonToken && negb in_error_recovery))
  | EnumMembers => ret (Kind.eqb tok Kind.OpenBracketToken || literal_property_name tok)
  | ObjectLiteralMembers =>
      ret (among tok [Kind.OpenBracketToken; Kind.AsteriskToken; Kind.DotDotDotToken; Kind.DotToken]
           || literal_property_name tok)
  | RestProperties => ret (literal_property_name tok)
  | ObjectBindingElements =>
      ret (among tok [Kind.OpenBracketToken; Kind.DotDotDotToken] || literal_property_name tok)
  | ImportAttributes => is_import_attribute_name
  | HeritageClauseElement =>
      if Kind.eqb tok Kind.OpenBraceToken then is_valid_heritage_clause_object_literal
      else
        b ← (if in_error_recovery then is_identifier else is_start_of_left_hand_side_expression);
        and_then b (h ← is_heritage_clause_extends_or_implements_keyword; ret (negb h))
  | VariableDeclarations => is_binding_identifier_or_private_identifier_or_pattern
  | ArrayBindingElements =>
      b ← is_binding_identifier_or_private_identifier_or_pattern;
      ret (among tok [Kind.CommaToken; Kind.DotDotDotToken] || b)
  | TypeParameters =>
      b ← is_identifier;
      ret (among tok [Kind.InKeyword; Kind.ConstKeyword] || b)
  | ArrayLiteralMembers =>
      or_else (among tok [Kind.CommaToken; Kind.DotToken; Kind.DotDotDotToken]) is_start_of_expression
  | ArgumentExpressions => or_else (Kind.eqb tok Kind.DotDotDotToken) is_start_of_expression
  | Parameters => is_start_of_parameter false
  | JSDocParameters => is_start_of_parameter true
  | TypeArguments | TupleElementTypes => or_else (Kind.eqb tok Kind.CommaToken) (is_start_of_type false)
  | HeritageClauses => is_heritage_clause
  | ImportOrExportSpecifiers =>
      from ← and_then (Kind.eqb tok Kind.FromKeyword) (look_ahead next_token_is_token_string_literal);
      if from : bool then ret false
      else ret (Kind.eqb tok Kind.StringLiteral || token_is_identifier_or_keyword tok)
  | JsxAttributes => ret (token_is_identifier_or_keyword tok || Kind.eqb tok Kind.OpenBraceToken)
  | JsxChildren | JSDocComment => ret true
  end.

Definition is_list_terminator (kind : PC) : P bool :=
  tok ← get_token;
  if Kind.eqb tok Kind.EndOfFile then ret true
  else
    match kind with
    | BlockStatements | SwitchClauses | TypeMembers | ClassMembers | EnumMembers | ObjectLiteralMembers
    | ObjectBindingElements | ImportOrExportSpecifiers | ImportAttributes =>
        ret (Kind.eqb tok Kind.CloseBraceToken)
    | SwitchClauseStatements => ret (among tok [Kind.CloseBraceToken; Kind.CaseKeyword; Kind.DefaultKeyword])
    | HeritageClauseElement =>
        ret (among tok [Kind.OpenBraceToken; Kind.ExtendsKeyword; Kind.ImplementsKeyword])
    | VariableDeclarations =>
        s ← can_parse_semicolon;
        ret (s || among tok [Kind.InKeyword; Kind.OfKeyword; Kind.EqualsGreaterThanToken])
    | TypeParameters =>
        ret (among tok [Kind.GreaterThanToken; Kind.OpenParenToken; Kind.OpenBraceToken; Kind.ExtendsKeyword;
                        Kind.ImplementsKeyword])
    | ArgumentExpressions => ret (among tok [Kind.CloseParenToken; Kind.SemicolonToken])
    | ArrayLiteralMembers | TupleElementTypes | ArrayBindingElements =>
        ret (Kind.eqb tok Kind.CloseBracketToken)
    | JSDocParameters | Parameters | RestProperties =>
        ret (among tok [Kind.CloseParenToken; Kind.CloseBracketToken])
    | TypeArguments => ret (negb (Kind.eqb tok Kind.CommaToken))
    | HeritageClauses => ret (among tok [Kind.OpenBraceToken; Kind.CloseBraceToken])
    | JsxAttributes => ret (among tok [Kind.GreaterThanToken; Kind.SlashToken])
    | JsxChildren => and_then (Kind.eqb tok Kind.LessThanToken) (look_ahead next_token_is_slash)
    | SourceElements | JSDocComment => ret false
    end.
End predicates.
