(* ===== verification/ParserLists.v ===== *)
(** * Lists, identifiers and literals ([surge-ts-tsc-syntax/src/parser/mod.rs])

    The list loops with their recovery, identifiers, the leaves [types.rs] and
    [expressions.rs] share, and entity names. *)

From stdpp Require Import gmap sets.
From S2P Require Import Prelude Utf8 RustStr Chars Kind Diagnostics ScanText ScanState Scan Rescan ParserMessages Ast ParserState ParserPredicates.
Import ParserMessages.

Section lists.
Context `{UnicodeId}.

(** ** Lists *)

Definition list_message (context : PC) (tok : Kind) : Message * list str :=
  match context with
  | SourceElements =>
      if Kind.eqb tok Kind.DefaultKeyword then (Messages.X_0_expected, [lit "export"])
      else (Declaration_or_statement_expected, [])
  | BlockStatements => (Declaration_or_statement_expected, [])
  | SwitchClauses => (X_case_or_default_expected, [])
  | SwitchClauseStatements => (Statement_expected, [])
  | RestProperties | TypeMembers => (Property_or_signature_expected, [])
  | ClassMembers => (Unexpected_token_A_constructor_method_accessor_or_property_was_expected, [])
  | EnumMembers => (Enum_member_expected, [])
  | HeritageClauseElement => (Expression_expected, [])
  | VariableDeclarations =>
      if is_keyword tok then (X_0_is_not_allowed_as_a_variable_declaration_name, [token_to_string tok])
      else (Variable_declaration_expected, [])
  | ObjectBindingElements => (Property_destructuring_pattern_expected, [])
  | ArrayBindingElements => (Array_element_destructuring_pattern_expected, [])
  | ArgumentExpressions => (Argument_expression_expected, [])
  | ObjectLiteralMembers => (Property_assignment_expected, [])
  | ArrayLiteralMembers => (Expression_or_comma_expected, [])
  | JSDocParameters => (Parameter_declaration_expected, [])
  | Parameters =>
      if is_keyword tok then (X_0_is_not_allowed_as_a_parameter_name, [token_to_string tok])
      else (Parameter_declaration_expected, [])
  | TypeParameters => (Type_parameter_declaration_expected, [])
  | TypeArguments => (Type_argument_expected, [])
  | TupleElementTypes => (Type_expected, [])
  | HeritageClauses => (Unexpected_token_expected, [])
  | ImportOrExportSpecifiers =>
      if Kind.eqb tok Kind.FromKeyword then (Messages.X_0_expected, [lit "}"]) else (Identifier_expected, [])
  | JsxAttributes | JsxChildren | JSDocComment => (Identifier_expected, [])
  | ImportAttributes => (Identifier_or_string_literal_expected, [])
  end.

Definition parsing_context_errors (context : PC) : P unit :=
  tok ← get_token;
  let '(message, args) := list_message context tok in
  parse_error_at_current_token message args.

(** [1 << kind as u32] *)
Definition context_bit (kind : PC) : Z := Z.shiftl 1 (PC_index kind).

(** Some list being parsed takes the token, as an element or as its end. *)
Fixpoint in_some_parsing_context (kinds : list PC) : P bool :=
  match kinds with
  | [] => ret false
  | kind :: kinds =>
      contexts ← gets parsing_contexts;
      here ← and_then (negb (Z.land contexts (context_bit kind) =? 0)%Z)
               (e ← is_list_element kind true; or_else e (is_list_terminator kind));
      or_else here (in_some_parsing_context kinds)
  end.

Definition is_in_some_parsing_context : P bool := in_some_parsing_context PC_ALL.

Definition abort_parsing_list_or_move_to_next_token (kind : PC) : P bool :=
  parsing_context_errors kind ;;
  b ← is_in_some_parsing_context;
  if b : bool then ret true else advance_token ;; ret false.

(** [m] with the context [kind] added to the ones being parsed. *)
Definition in_parsing_context {A} (kind : PC) (m : P A) : P A :=
  save_parsing_contexts ← gets parsing_contexts;
  modify (with_parsing_contexts (Z.lor save_parsing_contexts (context_bit kind))) ;;
  a ← m;
  modify (with_parsing_contexts save_parsing_contexts) ;;
  ret a.

Definition parse_list_index (kind : PC) (parse_element : nat -> P NodeId) : P (list NodeId) :=
  in_parsing_context kind (
    loop (L := list NodeId) (fun list =>
      done ← is_list_terminator kind;
      if done : bool then ret (inr list)
      else
        e ← is_list_element kind false;
        if e : bool then
          element ← parse_element (length list);
          ret (inl (list ++ [element]))
        else
          b ← abort_parsing_list_or_move_to_next_token kind;
          if b : bool then ret (inr list) else ret (inl list)) []).

Definition parse_list (kind : PC) (parse_element : P NodeId) : P NodeList :=
  pos ← node_pos;
  nodes ← parse_list_index kind (fun _ => parse_element);
  end_ ← node_pos;
  ret (NodeList_new pos end_ nodes).

(** After an element that no comma follows: report it, take a semicolon written
    for the comma, and at least one token. *)
Definition recover_delimiter (kind : PC) (start_pos : nat) : P unit :=
  tok ← get_token;
  (if negb (Kind.eqb tok Kind.CommaToken) && bool_decide (kind = EnumMembers) then
     parse_error_at_current_token An_enum_member_name_must_be_followed_by_a_or []
   else expect Kind.CommaToken) ;;
  tok ← get_token;
  br ← has_preceding_line_break;
  when ((bool_decide (kind = ObjectLiteralMembers) || bool_decide (kind = ImportAttributes))
        && Kind.eqb tok Kind.SemicolonToken && negb br) advance_token ;;
  pos ← node_pos;
  when (start_pos =? pos)%nat advance_token.

(** [parseDelimitedList] whose element parser can fail, which fails the list. *)
Definition parse_delimited_list_opt (kind : PC) (parse_element : P (option NodeId)) : P (option NodeList) :=
  pos ← node_pos;
  nodes ← in_parsing_context kind (
    loop (L := list NodeId) (fun list =>
      e ← is_list_element kind false;
      if e : bool then
        start_pos ← node_pos;
        element ← parse_element;
        match element with
        | None => ret (inr None)
        | Some element =>
            let list := list ++ [element] in
            comma ← parse_optional Kind.CommaToken;
            if comma : bool then ret (inl list)
            else
              done ← is_list_terminator kind;
              if done : bool then ret (inr (Some list))
              else recover_delimiter kind start_pos ;; ret (inl list)
        end
      else
        done ← is_list_terminator kind;
        if done : bool then ret (inr (Some list))
        else
          b ← abort_parsing_list_or_move_to_next_token kind;
          if b : bool then ret (inr (Some list)) else ret (inl list)) []);
  match nodes with
  | None => ret None
  | Some nodes => end_ ← node_pos; ret (Some (NodeList_new pos end_ nodes))
  end.

Definition parse_delimited_list (kind : PC) (parse_element : P NodeId) : P NodeList :=
  list ← parse_delimited_list_opt kind (element ← parse_element; ret (Some element));
  lift (fun _ => unwrap list).

Definition parse_empty_node_list : P NodeList := pos ← node_pos; ret (NodeList_new pos pos []).

Definition create_missing_list : P NodeList :=
  pos ← node_pos; ret {| lpos := pos; lend := pos; lnodes := []; lmissing := true |}.

Definition parse_bracketed_list (kind : PC) (parse_element : P NodeId) (opening closing : Kind) : P NodeList :=
  b ← parse_expected opening;
  if b : bool then
    result ← parse_delimited_list kind parse_element;
    expect closing ;;
    ret result
  else create_missing_list.

(** ** Identifiers *)

Definition new_identifier (text : str) : P Node :=
  when (text =s lit "await") (put_has_await true) ;;
  ret (Node.new Kind.Identifier |> Node.text text).

Definition create_missing_identifier : P NodeId :=
  n ← new_identifier [];
  pos ← node_pos;
  finish_node n pos.

Definition parse_private_identifier : P NodeId :=
  pos ← node_pos;
  text ← scanner_token_value;
  advance_token ;;
  finish_node (Node.new Kind.PrivateIdentifier |> Node.text text) pos.

(** The identifier at the token, whatever the token. *)
Definition take_identifier : P NodeId :=
  pos ← node_pos;
  text ← scanner_token_value;
  next_token_without_check ;;
  n ← new_identifier text;
  finish_node n pos.

Definition create_identifier_with_diagnostic (is_identifier : bool)
    (diagnostic_message private_identifier_diagnostic_message : option Message) : P NodeId :=
  if is_identifier then take_identifier
  else
    tok ← get_token;
    if Kind.eqb tok Kind.PrivateIdentifier then
      parse_error_at_current_token
        (default Private_identifiers_are_not_allowed_outside_class_bodies private_identifier_diagnostic_message) [] ;;
      take_identifier
    else
      token_text ← scanner_token_text;
      let '(message, args) :=
        match diagnostic_message with
        | Some message => (message, [])
        | None =>
            if is_reserved_word tok
            then (Identifier_expected_0_is_a_reserved_word_that_cannot_be_used_here, [token_text])
            else (Identifier_expected, [])
        end in
      (if Kind.eqb tok Kind.EndOfFile then pos ← node_pos; parse_error_at pos pos message args
       else parse_error_at_current_token message args) ;;
      create_missing_identifier.

Definition create_identifier (is_identifier : bool) : P NodeId :=
  create_identifier_with_diagnostic is_identifier None None.

Definition parse_identifier_name_with_diagnostic (diagnostic_message : option Message) : P NodeId :=
  b ← identifier_or_keyword;
  create_identifier_with_diagnostic b diagnostic_message None.

Definition parse_identifier_name : P NodeId := parse_identifier_name_with_diagnostic None.

Definition parse_identifier_name_error_on_unicode_escape_sequence : P NodeId :=
  escapes ← gets (fun p => has_unicode_escape (scanner p) || has_extended_unicode_escape (scanner p));
  when escapes (parse_error_at_current_token Unicode_escape_sequence_cannot_appear_here []) ;;
  b ← identifier_or_keyword;
  create_identifier b.

Definition parse_identifier_with_diagnostic
    (diagnostic_message private_identifier_diagnostic_message : option Message) : P NodeId :=
  b ← is_identifier;
  create_identifier_with_diagnostic b diagnostic_message private_identifier_diagnostic_message.

Definition parse_identifier : P NodeId := parse_identifier_with_diagnostic None None.

Definition parse_binding_identifier_with_diagnostic
    (private_identifier_diagnostic_message : option Message) : P NodeId :=
  keeping_await (
    b ← is_binding_identifier;
    create_identifier_with_diagnostic b None private_identifier_diagnostic_message).

Definition parse_binding_identifier : P NodeId := parse_binding_identifier_with_diagnostic None.

Definition parse_optional_binding_identifier : P (option NodeId) :=
  b ← is_binding_identifier; optionally b parse_binding_identifier.

Definition parse_identifier_unless_at_semicolon : P (option NodeId) :=
  b ← can_parse_semicolon; optionally (negb b) parse_identifier.

Definition parse_right_side_of_dot
    (allow_identifier_names allow_private_identifiers
       allow_unicode_escape_sequence_in_identifier_name : bool) : P NodeId :=
  tok ← get_token;
  br ← has_preceding_line_break;
  next ← and_then (br && token_is_identifier_or_keyword tok)
           (look_ahead next_token_is_identifier_or_keyword_on_same_line);
  let missing := pos ← node_pos; parse_error_at pos pos Identifier_expected [] ;; create_missing_identifier in
  if next : bool then missing
  else if Kind.eqb tok Kind.PrivateIdentifier then
    n ← parse_private_identifier;
    if allow_private_identifiers then ret n else missing
  else if allow_identifier_names then
    if allow_unicode_escape_sequence_in_identifier_name then parse_identifier_name
    else parse_identifier_name_error_on_unicode_escape_sequence
  else keeping_await parse_identifier.

Definition parse_entity_name (allow_reserved_words : bool) (diagnostic_message : option Message) : P NodeId :=
  pos ← node_pos;
  entity ← (if allow_reserved_words then parse_identifier_name_with_diagnostic diagnostic_message
            else parse_identifier_with_diagnostic diagnostic_message None);
  loop (L := NodeId) (fun entity =>
    dot ← parse_optional Kind.DotToken;
    if dot : bool then
      tok ← get_token;
      if Kind.eqb tok Kind.LessThanToken then ret (inr entity)
      else
        right ← parse_right_side_of_dot allow_reserved_words false true;
        entity ← finish_node (Node.new Kind.QualifiedName |> Node.child (Some entity) |> Node.child (Some right)) pos;
        ret (inl entity)
    else ret (inr entity)) entity.

(** ** Leaves *)

(** [parse_keyword_type_node] and [parse_keyword_expression] have one body,
    which is also [parse_token_node]'s. *)
Definition parse_keyword_type_node : P NodeId := parse_token_node.
Definition parse_keyword_expression : P NodeId := parse_token_node.

(** A node of the kind [kind] for the token there. *)
Definition take_as (kind : Kind) : P NodeId :=
  pos ← node_pos; advance_token ;; finish_node (Node.new kind) pos.

Definition parse_this_type_node : P NodeId := take_as Kind.ThisType.
Definition parse_jsdoc_all_type : P NodeId := take_as Kind.JSDocAllType.

Definition parse_literal_expression : P NodeId :=
  pos ← node_pos;
  text ← scanner_token_value;
  token_flags ← scanner_token_flags;
  tok ← get_token;
  if among tok [Kind.StringLiteral; Kind.NumericLiteral; Kind.BigIntLiteral; Kind.RegularExpressionLiteral;
                Kind.NoSubstitutionTemplateLiteral] then
    advance_token ;;
    finish_node (Node.new tok |> Node.text text |> Node.token_flags token_flags) pos
  else panic.
End lists.
