(* ===== verification/JsSyntax.v ===== *)
(** * JavaScript-only syntax ([surge-ts-tsc-syntax/src/parser/mod.rs])

    [checkJSSyntax]: what a JavaScript file may not have is reported when its
    node is finished; and [TagNamesAreEquivalent]. *)

From stdpp Require Import gmap sets.
From S2P Require Import Prelude Utf8 RustStr Chars Kind Diagnostics ScanText ScanState Scan Rescan ParserMessages Ast ParserState ParserPredicates.
Import ParserMessages.

Definition js_error_at_range (pos end_ : nat) (message : Message) (args : list str) : P unit :=
  start ← skip_trivia_at pos;
  modify (fun p => with_js_diagnostics
    (js_diagnostics p ++ [{| dstart := start; dend := end_; dmessage := message; dargs := args |}]) p).

Definition js_error_at_node (id : NodeId) (message : Message) (args : list str) : P unit :=
  n ← node id; js_error_at_range (npos n) (nend n) message args.

(** [for x in list { body }] *)
Fixpoint for_each {A} (l : list A) (body : A -> P unit) : P unit :=
  match l with [] => ret tt | x :: l => body x ;; for_each l body end.

Fixpoint map_nodes {A B} (f : A -> P B) (l : list A) : P (list B) :=
  match l with [] => ret [] | x :: l => b ← f x; bs ← map_nodes f l; ret (b :: bs) end.

(** The kinds of a list of nodes. *)
Definition kinds_of (ids : list NodeId) : P (list Kind) := map_nodes kind_of ids.

(** [iter().position(|&m| kind(m) == kind)]. *)
Definition position_of (kind : Kind) (kinds : list Kind) : option nat :=
  fst <$> list_find (fun k => Kind.eqb k kind = true) kinds.

Definition check_js_decorator_syntax (id : NodeId) : P unit :=
  n ← node id;
  let modifiers := modifier_nodes n in
  kinds ← kinds_of modifiers;
  let report i message :=
    match modifiers !! i with Some m => js_error_at_node m message [] | None => panic end in
  match position_of Kind.Decorator kinds with
  | None => ret tt
  | Some decorator_index =>
      if can_have_illegal_decorators (nkind n) then report decorator_index Decorators_are_not_valid_here
      else if can_have_decorators (nkind n) && Kind.eqb (nkind n) Kind.ClassDeclaration then
        match position_of Kind.ExportKeyword kinds with
        | None => ret tt
        | Some export_index =>
            let before_default :=
              match position_of Kind.DefaultKeyword kinds with
              | Some d => (decorator_index <? d)%nat
              | None => false
              end in
            if (export_index <? decorator_index)%nat && before_default then
              report decorator_index Decorators_are_not_valid_here
            else if (decorator_index <? export_index)%nat then
              match position_of Kind.Decorator (drop export_index kinds) with
              | Some trailing =>
                  report (export_index + trailing)%nat
                    Decorators_may_not_appear_after_export_or_export_default_if_they_also_appear_before_export
              | None => ret tt
              end
            else ret tt
        end
      else ret tt
  end.

(** [list.nodes.iter().any(|&n| !node(n).flags.has(Reparsed))] *)
Definition any_written (list : NodeList) : P bool :=
  ns ← map_nodes node (lnodes list);
  ret (existsb (fun n => negb (NodeFlags.has (nflags n) NodeFlags.Reparsed)) ns).

(** The type annotation, signature or declaration [kind] is not JavaScript. *)
Definition check_js_kind (id : NodeId) (n : Node) : P unit :=
  let kind := nkind n in
  let at_node (o : option NodeId) message args :=
    match o with Some id => js_error_at_node id message args | None => ret tt end in
  if among kind [Kind.Parameter_; Kind.PropertyDeclaration; Kind.MethodDeclaration; Kind.MethodSignature;
                 Kind.Constructor; Kind.GetAccessor; Kind.SetAccessor; Kind.FunctionExpression;
                 Kind.FunctionDeclaration; Kind.ArrowFunction; Kind.VariableDeclaration;
                 Kind.IndexSignature] then
    (if among kind [Kind.Parameter_; Kind.PropertyDeclaration; Kind.MethodDeclaration] then
       match nquestion_token n with
       | Some token =>
           k ← kind_of token;
           when (Kind.eqb k Kind.QuestionToken)
             (js_error_at_node token The_0_modifier_can_only_be_used_in_TypeScript_files [lit "?"])
       | None => ret tt
       end
     else ret tt) ;;
    if is_function_like_kind kind && bool_decide (nbody n = None) then
      js_error_at_node id Signature_declarations_can_only_be_used_in_TypeScript_files []
    else at_node (nty n) Type_annotations_can_only_be_used_in_TypeScript_files []
  else
    match kind with
    | Kind.ImportDeclaration =>
        match nimport_clause n with
        | Some clause =>
            c ← node clause;
            when (nis_type_only c)
              (js_error_at_node id X_0_declarations_can_only_be_used_in_TypeScript_files [lit "import type"])
        | None => ret tt
        end
    | Kind.ExportDeclaration =>
        when (nis_type_only n)
          (js_error_at_node id X_0_declarations_can_only_be_used_in_TypeScript_files [lit "export type"])
    | Kind.ImportSpecifier =>
        when (nis_type_only n)
          (js_error_at_node id X_0_declarations_can_only_be_used_in_TypeScript_files [lit "import...type"])
    | Kind.ExportSpecifier =>
        when (nis_type_only n)
          (js_error_at_node id X_0_declarations_can_only_be_used_in_TypeScript_files [lit "export...type"])
    | Kind.ImportEqualsDeclaration => js_error_at_node id X_import_can_only_be_used_in_TypeScript_files []
    | Kind.ExportAssignment =>
        when (nis_export_equals n) (js_error_at_node id X_export_can_only_be_used_in_TypeScript_files [])
    | Kind.HeritageClause =>
        when (Kind.eqb (nop n) Kind.ImplementsKeyword)
          (js_error_at_node id X_implements_clauses_can_only_be_used_in_TypeScript_files [])
    | Kind.InterfaceDeclaration =>
        at_node (nname n) X_0_declarations_can_only_be_used_in_TypeScript_files [lit "interface"]
    | Kind.ModuleDeclaration =>
        at_node (nname n) X_0_declarations_can_only_be_used_in_TypeScript_files [token_to_string (nop n)]
    | Kind.TypeAliasDeclaration => at_node (nname n) Type_aliases_can_only_be_used_in_TypeScript_files []
    | Kind.EnumDeclaration =>
        at_node (nname n) X_0_declarations_can_only_be_used_in_TypeScript_files [lit "enum"]
    | Kind.NonNullExpression => js_error_at_node id Non_null_assertions_can_only_be_used_in_TypeScript_files []
    | Kind.AsExpression => at_node (nty n) Type_assertion_expressions_can_only_be_used_in_TypeScript_files []
    | Kind.SatisfiesExpression =>
        at_node (nty n) Type_satisfaction_expressions_can_only_be_used_in_TypeScript_files []
    | _ => ret tt
    end.

(** Type parameters, modifiers and type arguments are not JavaScript. *)
Definition check_js_lists (id : NodeId) (n : Node) : P unit :=
  let kind := nkind n in
  let at_list (o : option NodeList) message :=
    match o with
    | Some list =>
        b ← any_written list;
        when b (js_error_at_range (lpos list) (lend list) message [])
    | None => ret tt
    end in
  if among kind [Kind.ClassDeclaration; Kind.ClassExpression; Kind.MethodDeclaration; Kind.Constructor;
                 Kind.GetAccessor; Kind.SetAccessor; Kind.FunctionExpression; Kind.FunctionDeclaration;
                 Kind.ArrowFunction; Kind.VariableStatement; Kind.PropertyDeclaration] then
    (if negb (among kind [Kind.VariableStatement; Kind.PropertyDeclaration]) then
       at_list (ntype_parameters n) Type_parameter_declarations_can_only_be_used_in_TypeScript_files
     else ret tt) ;;
    for_each (modifier_nodes n) (fun modifier =>
      m ← node modifier;
      when (negb (NodeFlags.has (nflags m) NodeFlags.Reparsed)
            && negb (Kind.eqb (nkind m) Kind.Decorator) && negb (is_javascript_modifier (nkind m)))
        (js_error_at_node modifier The_0_modifier_can_only_be_used_in_TypeScript_files
           [token_to_string (nkind m)]))
  else if Kind.eqb kind Kind.Parameter_ then
    kinds ← kinds_of (modifier_nodes n);
    match nmodifiers n with
    | Some list =>
        when (existsb is_modifier_kind kinds)
          (js_error_at_range (lpos list) (lend list) Parameter_modifiers_can_only_be_used_in_TypeScript_files [])
    | None => ret tt
    end
  else if among kind [Kind.CallExpression; Kind.NewExpression; Kind.ExpressionWithTypeArguments;
                      Kind.JsxSelfClosingElement; Kind.JsxOpeningElement; Kind.TaggedTemplateExpression] then
    at_list (ntype_arguments n) Type_arguments_can_only_be_used_in_TypeScript_files
  else ret tt.

Definition check_js_syntax (id : NodeId) : P NodeId :=
  n ← node id;
  if negb (NodeFlags.has (nflags n) NodeFlags.JavaScriptFile)
     || NodeFlags.has (nflags n) (Z.lor NodeFlags.JSDoc NodeFlags.Reparsed) then ret id
  else
    check_js_kind id n ;;
    check_js_decorator_syntax id ;;
    check_js_lists id n ;;
    ret id.

(** [self.check_js_syntax(result); result] and its last expression alone. *)
Definition finish_checked (n : Node) (pos : nat) : P NodeId := id ← finish_node n pos; check_js_syntax id.

(** ** Tag names *)

(** Every round goes to the expression of both sides, a node before them. *)
Fixpoint tag_names_are_equivalent_fuel (fuel : nat) (lhs rhs : NodeId) : P bool :=
  match fuel with
  | O => out_of_fuel
  | S fuel =>
      left ← node lhs;
      right ← node rhs;
      let text (o : option NodeId) : P (option str) :=
        match o with Some id => n ← node id; ret (Some (ntext n)) | None => ret None end in
      let same (a b : option NodeId) : P bool :=
        a ← text a; b ← text b; ret (bool_decide (a = b)) in
      if negb (Kind.eqb (nkind left) (nkind right)) then ret false
      else
        match nkind left with
        | Kind.Identifier => ret (ntext left =s ntext right)
        | Kind.ThisKeyword => ret true
        | Kind.JsxNamespacedName =>
            e ← same (nexpression left) (nexpression right);
            and_then e (same (nname left) (nname right))
        | Kind.PropertyAccessExpression =>
            e ← same (nname left) (nname right);
            and_then e
              match nexpression left, nexpression right with
              | Some l, Some r => tag_names_are_equivalent_fuel fuel l r
              | _, _ => ret false
              end
        | _ => ret false
        end
  end.

Definition tag_names_are_equivalent (lhs rhs : NodeId) : P bool := fun p =>
  tag_names_are_equivalent_fuel (S (length (nodes p))) lhs rhs p.
