(* ===== verification/ParseTypes.v ===== *)
(** * Types and signatures ([surge-ts-tsc-syntax/src/parser/types.rs])

    Modifiers and decorators, binding patterns, parameters and signatures, blocks,
    and types. A production that is called back before it is defined, or calls
    itself, is taken from [Productions]. *)

From stdpp Require Import gmap sets.
From S2P Require Import Prelude Utf8 RustStr Chars Kind Diagnostics ScanText ScanState Scan Rescan ParserMessages Ast ParserState ParserPredicates ParserLists JsSyntax.
Import ParserMessages.

Section types.
Context `{UnicodeId} `{Productions}.

Definition parse_assignment_expression_or_higher : P NodeId :=
  rec_parse_assignment_expression_or_higher_worker true.

Definition parse_expression_allow_in : P NodeId :=
  do_in_context NodeFlags.DisallowInContext false rec_parse_expression.

(** ** Modifiers and decorators *)

Definition parse_decorator_expression : P NodeId :=
  await ← in_await_context;
  tok ← get_token;
  if await && Kind.eqb tok Kind.AwaitKeyword then
    pos ← node_pos;
    await_expression ← parse_identifier_with_diagnostic (Some Expression_expected) None;
    advance_token ;;
    member_expression ← rec_parse_member_expression_rest pos await_expression true;
    rec_parse_call_expression_rest pos member_expression
  else rec_parse_left_hand_side_expression_or_higher.

Definition parse_decorator : P NodeId :=
  pos ← node_pos;
  expect Kind.AtToken ;;
  expression ← do_in_context NodeFlags.DecoratorContext true parse_decorator_expression;
  finish_node (Node.new Kind.Decorator |> Node.expression (Some expression)) pos.

Definition try_parse_modifier
    (has_seen_static_modifier permit_const_as_modifier stop_on_start_of_class_static_block : bool)
    : P (option NodeId) :=
  pos ← node_pos;
  kind ← get_token;
  taken ←
    (if Kind.eqb kind Kind.ConstKeyword && permit_const_as_modifier then
       b ← look_ahead next_token_is_on_same_line_and_can_follow_modifier;
       if b : bool then advance_token ;; ret true else ret false
     else
       static_block ← and_then (stop_on_start_of_class_static_block && Kind.eqb kind Kind.StaticKeyword)
                        (look_ahead next_token_is_open_brace);
       if static_block : bool then ret false
       else if has_seen_static_modifier && Kind.eqb kind Kind.StaticKeyword then ret false
       else parse_any_contextual_modifier);
  optionally taken (finish_node (Node.new kind) pos).

(** What the modifiers so far hold, in order. *)
Record modifier_list := {
  has_leading_modifier : bool;
  has_trailing_decorator : bool;
  has_trailing_modifier : bool;
  has_static_modifier : bool;
  modifiers_so_far : list NodeId
}.

Definition add_decorator (l : modifier_list) (id : NodeId) : modifier_list :=
  {| has_leading_modifier := has_leading_modifier l;
     has_trailing_decorator := has_trailing_decorator l || has_leading_modifier l;
     has_trailing_modifier := has_trailing_modifier l;
     has_static_modifier := has_static_modifier l;
     modifiers_so_far := modifiers_so_far l ++ [id] |}.

Definition add_modifier (l : modifier_list) (id : NodeId) (is_static : bool) : modifier_list :=
  {| has_leading_modifier := has_leading_modifier l || negb (has_trailing_decorator l);
     has_trailing_decorator := has_trailing_decorator l;
     has_trailing_modifier := has_trailing_modifier l || has_trailing_decorator l;
     has_static_modifier := has_static_modifier l || is_static;
     modifiers_so_far := modifiers_so_far l ++ [id] |}.

Definition parse_modifiers_ex
    (allow_decorators permit_const_as_modifier stop_on_start_of_class_static_block : bool)
    : P (option NodeList) :=
  pos ← node_pos;
  list ← loop (L := modifier_list) (fun l =>
    tok ← get_token;
    if allow_decorators && Kind.eqb tok Kind.AtToken && negb (has_trailing_modifier l) then
      decorator ← parse_decorator;
      ret (inl (add_decorator l decorator))
    else
      modifier ← try_parse_modifier (has_static_modifier l) permit_const_as_modifier
                   stop_on_start_of_class_static_block;
      match modifier with
      | None => ret (inr (modifiers_so_far l))
      | Some modifier =>
          k ← kind_of modifier;
          ret (inl (add_modifier l modifier (Kind.eqb k Kind.StaticKeyword)))
      end)
    {| has_leading_modifier := false; has_trailing_decorator := false; has_trailing_modifier := false;
       has_static_modifier := false; modifiers_so_far := [] |};
  match list with
  | [] => ret None
  | _ => end_ ← node_pos; ret (Some (NodeList_new pos end_ list))
  end.

Definition parse_modifiers : P (option NodeList) := parse_modifiers_ex false false false.

Definition modifier_list_has (modifiers : option NodeList) (kind : Kind) : P bool :=
  match modifiers with
  | Some list => kinds ← kinds_of (lnodes list); ret (existsb (fun k => Kind.eqb k kind) kinds)
  | None => ret false
  end.

(** Also the free function of [expressions.rs]. *)
Definition modifier_list_has_async (modifiers : option NodeList) : P bool :=
  modifier_list_has modifiers Kind.AsyncKeyword.

(** [node_mut(m).flags |= Ambient] for every modifier, and the context of the
    declaration [m] they are on. *)
Definition in_ambient_context (modifiers : option NodeList) (m : P NodeId) : P NodeId :=
  for_each (match modifiers with Some list => lnodes list | None => [] end)
    (fun id => node_mut id (Node.flags NodeFlags.Ambient)) ;;
  do_in_context NodeFlags.Ambient true m.

(** ** Names and binding patterns *)

Definition parse_computed_property_name : P NodeId :=
  pos ← node_pos;
  expect Kind.OpenBracketToken ;;
  expression ← parse_expression_allow_in;
  expect Kind.CloseBracketToken ;;
  finish_node (Node.new Kind.ComputedPropertyName |> Node.expression (Some expression)) pos.

Definition parse_property_name_worker (allow_computed_property_names : bool) : P NodeId :=
  tok ← get_token;
  if among tok [Kind.StringLiteral; Kind.NumericLiteral; Kind.BigIntLiteral] then parse_literal_expression
  else if allow_computed_property_names && Kind.eqb tok Kind.OpenBracketToken then parse_computed_property_name
  else if Kind.eqb tok Kind.PrivateIdentifier then parse_private_identifier
  else parse_identifier_name.

Definition parse_property_name : P NodeId := keeping_await (parse_property_name_worker true).

Definition parse_initializer : P (option NodeId) :=
  b ← parse_optional Kind.EqualsToken; optionally b parse_assignment_expression_or_higher.

Definition parse_type_annotation : P (option NodeId) :=
  b ← parse_optional Kind.ColonToken; optionally b rec_parse_type.

Definition parse_array_binding_element : P NodeId :=
  pos ← node_pos;
  tok ← get_token;
  '(dot_dot_dot_token, name, initializer) ←
    (if negb (Kind.eqb tok Kind.CommaToken) then
       dots ← parse_optional_token Kind.DotDotDotToken;
       name ← rec_parse_identifier_or_pattern;
       initializer ← parse_initializer;
       ret (dots, Some name, initializer)
     else ret (None, None, None));
  finish_node (Node.new Kind.BindingElement |> Node.child dot_dot_dot_token |> Node.child None
    |> Node.name name |> Node.initializer initializer) pos.

Definition parse_object_binding_element : P NodeId :=
  pos ← node_pos;
  dot_dot_dot_token ← parse_optional_token Kind.DotDotDotToken;
  token_is_identifier ← is_binding_identifier;
  property_name ← parse_property_name;
  tok ← get_token;
  '(property_name, name) ←
    (if token_is_identifier && negb (Kind.eqb tok Kind.ColonToken) then ret (None, property_name)
     else
       expect Kind.ColonToken ;;
       name ← rec_parse_identifier_or_pattern;
       ret (Some property_name, name));
  initializer ← parse_initializer;
  finish_node (Node.new Kind.BindingElement |> Node.child dot_dot_dot_token |> Node.child property_name
    |> Node.name (Some name) |> Node.initializer initializer) pos.

(** The elements of a pattern, in a context that allows [in]. *)
Definition parse_binding_elements (kind : PC) (parse_element : P NodeId) : P NodeList :=
  do_in_context NodeFlags.DisallowInContext false (parse_delimited_list kind parse_element).

Definition parse_array_binding_pattern : P NodeId :=
  pos ← node_pos;
  expect Kind.OpenBracketToken ;;
  elements ← parse_binding_elements ArrayBindingElements parse_array_binding_element;
  expect Kind.CloseBracketToken ;;
  finish_node (Node.new Kind.ArrayBindingPattern |> Node.list (Some elements)) pos.

Definition parse_object_binding_pattern : P NodeId :=
  pos ← node_pos;
  expect Kind.OpenBraceToken ;;
  elements ← parse_binding_elements ObjectBindingElements parse_object_binding_element;
  expect Kind.CloseBraceToken ;;
  finish_node (Node.new Kind.ObjectBindingPattern |> Node.list (Some elements)) pos.

Definition parse_identifier_or_pattern_with_diagnostic
    (private_identifier_diagnostic_message : option Message) : P NodeId :=
  tok ← get_token;
  if Kind.eqb tok Kind.OpenBracketToken then parse_array_binding_pattern
  else if Kind.eqb tok Kind.OpenBraceToken then parse_object_binding_pattern
  else parse_binding_identifier_with_diagnostic private_identifier_diagnostic_message.

Definition parse_identifier_or_pattern : P NodeId := parse_identifier_or_pattern_with_diagnostic None.

(** ** Blocks ([statements.rs]) *)

Definition parse_block (ignore_missing_open_brace : bool) (diagnostic_message : option Message) : P NodeId :=
  pos ← node_pos;
  open_brace_parsed ← parse_expected_with_diagnostic Kind.OpenBraceToken diagnostic_message true;
  if open_brace_parsed || ignore_missing_open_brace then
    statements ← parse_list BlockStatements rec_parse_statement;
    parse_expected_matching_brackets Kind.CloseBraceToken ;;
    result ← finish_node (Node.new Kind.Block |> Node.list (Some statements)) pos;
    equals ← at_token Kind.EqualsToken;
    when equals
      (parse_error_at_current_token
         Declaration_or_statement_expected_This_follows_a_block_of_statements_so_if_you_intended_to_write_a_destructuring_assignment_you_might_need_to_wrap_the_whole_assignment_in_parentheses [] ;;
       advance_token) ;;
    ret result
  else
    statements ← create_missing_list;
    finish_node (Node.new Kind.Block |> Node.list (Some statements)) pos.

Definition parse_function_block (flags : Z) (diagnostic_message : option Message) : P NodeId :=
  save_context_flags ← get_context_flags;
  keeping_await (
    set_context_flags NodeFlags.YieldContext (ParseFlags.has flags ParseFlags.Yield) ;;
    set_context_flags NodeFlags.AwaitContext (ParseFlags.has flags ParseFlags.Await) ;;
    set_context_flags NodeFlags.DecoratorContext false ;;
    block ← parse_block (ParseFlags.has flags ParseFlags.IgnoreMissingOpenBrace) diagnostic_message;
    put_context_flags save_context_flags ;;
    ret block).

Definition parse_type_member_semicolon : P unit :=
  comma ← parse_optional Kind.CommaToken;
  if comma : bool then ret tt else parse_semicolon ;; ret tt.

Definition parse_function_block_or_semicolon (flags : Z) (diagnostic_message : option Message)
    : P (option NodeId) :=
  brace ← at_token Kind.OpenBraceToken;
  semicolon ← can_parse_semicolon;
  if negb brace && ParseFlags.has flags ParseFlags.Type_ then parse_type_member_semicolon ;; ret None
  else if negb brace && semicolon then parse_semicolon ;; ret None
  else block ← parse_function_block flags diagnostic_message; ret (Some block).

(** ** Type parameters and arguments *)

Definition parse_type_arguments : P (option NodeList) :=
  b ← at_token Kind.LessThanToken;
  optionally b (parse_bracketed_list TypeArguments rec_parse_type Kind.LessThanToken Kind.GreaterThanToken).

Definition parse_type_arguments_of_type_reference : P (option NodeList) :=
  br ← has_preceding_line_break;
  if br : bool then ret None
  else
    k ← re_scan_less_than_token;
    if Kind.eqb k Kind.LessThanToken then parse_type_arguments else ret None.

Definition parse_type_parameter : P NodeId :=
  pos ← node_pos;
  modifiers ← parse_modifiers_ex false true false;
  name ← parse_identifier;
  extends ← parse_optional Kind.ExtendsKeyword;
  '(constraint, expression) ←
    (if extends : bool then
       t ← is_start_of_type false;
       e ← (if t : bool then ret false else is_start_of_expression);
       if t || negb e then type_node ← rec_parse_type; ret (Some type_node, None)
       else e ← rec_parse_unary_expression_or_higher; ret (None, Some e)
     else ret (None, None));
  equals ← parse_optional Kind.EqualsToken;
  default_type ← optionally equals rec_parse_type;
  finish_node (Node.new Kind.TypeParameter |> Node.modifiers modifiers |> Node.name (Some name)
    |> Node.child constraint |> Node.expression expression |> Node.child default_type) pos.

Definition parse_type_parameters : P (option NodeList) :=
  b ← at_token Kind.LessThanToken;
  optionally b
    (parse_bracketed_list TypeParameters parse_type_parameter Kind.LessThanToken Kind.GreaterThanToken).

(** ** Parameters *)

Definition is_parameter_name_start : P bool := gets (fun p =>
  binding_identifier (token p) || among (token p) [Kind.OpenBracketToken; Kind.OpenBraceToken]).

Definition parse_name_of_parameter (modifiers : option NodeList) : P NodeId :=
  name ← parse_identifier_or_pattern_with_diagnostic (Some Private_identifiers_cannot_be_used_as_parameters);
  n ← node name;
  tok ← get_token;
  when ((nend n =? npos n)%nat && bool_decide (modifiers = None) && is_modifier_kind tok) advance_token ;;
  ret name.

(** The error at the first of the modifiers of [this]. *)
Definition report_this_modifiers (modifiers : option NodeList) : P unit :=
  match modifiers with
  | Some list =>
      first ← lift (fun _ => unwrap (lnodes list !! 0));
      n ← node first;
      parse_error_at (npos n) (nend n) Neither_decorators_nor_modifiers_may_be_applied_to_this_parameters []
  | None => ret tt
  end.

Definition parse_parameter_ex (in_outer_await_context allow_ambiguity : bool) : P (option NodeId) :=
  pos ← node_pos;
  modifiers ← do_in_context NodeFlags.AwaitContext in_outer_await_context (parse_modifiers_ex true false false);
  tok ← get_token;
  if Kind.eqb tok Kind.ThisKeyword then
    name ← create_identifier true;
    type_node ← parse_type_annotation;
    report_this_modifiers modifiers ;;
    result ← finish_node (Node.new Kind.Parameter_ |> Node.modifiers modifiers |> Node.child None
      |> Node.name (Some name) |> Node.question None |> Node.ty type_node |> Node.initializer None) pos;
    ret (Some result)
  else
    dot_dot_dot_token ← parse_optional_token Kind.DotDotDotToken;
    start ← is_parameter_name_start;
    if negb allow_ambiguity && negb start then ret None
    else
      name ← parse_name_of_parameter modifiers;
      question_token ← parse_optional_token Kind.QuestionToken;
      type_node ← parse_type_annotation;
      initializer ← parse_initializer;
      result ← finish_node (Node.new Kind.Parameter_ |> Node.modifiers modifiers
        |> Node.child dot_dot_dot_token |> Node.name (Some name) |> Node.question question_token
        |> Node.ty type_node |> Node.initializer initializer) pos;
      ret (Some result).

Definition parse_parameter : P NodeId :=
  parameter ← parse_parameter_ex false true; lift (fun _ => unwrap parameter).

Definition parse_parameters_worker (flags : Z) (allow_ambiguity : bool) : P (option NodeList) :=
  in_await_context ← in_await_context;
  save_context_flags ← get_context_flags;
  set_context_flags NodeFlags.YieldContext (ParseFlags.has flags ParseFlags.Yield) ;;
  set_context_flags NodeFlags.AwaitContext (ParseFlags.has flags ParseFlags.Await) ;;
  parameters ← parse_delimited_list_opt Parameters (
    parameter ← parse_parameter_ex in_await_context allow_ambiguity;
    match parameter with
    | Some id => (if ParseFlags.has flags ParseFlags.Type_ then ret id else check_js_syntax id) ;; ret tt
    | None => ret tt
    end ;;
    ret parameter);
  put_context_flags save_context_flags ;;
  ret parameters.

Definition parse_parameters (flags : Z) : P NodeList :=
  b ← parse_expected Kind.OpenParenToken;
  if b : bool then
    parameters ← parse_parameters_worker flags true;
    parameters ← lift (fun _ => unwrap parameters);
    expect Kind.CloseParenToken ;;
    ret parameters
  else create_missing_list.

(** ** Return types *)

Definition should_parse_return_type (return_token : Kind) (is_type : bool) : P bool :=
  if Kind.eqb return_token Kind.EqualsGreaterThanToken then expect return_token ;; ret true
  else
    colon ← parse_optional Kind.ColonToken;
    arrow ← at_token Kind.EqualsGreaterThanToken;
    if colon : bool then ret true
    else if is_type && arrow then
      parse_error_at_current_token Messages.X_0_expected [token_to_string Kind.ColonToken] ;;
      advance_token ;;
      ret true
    else ret false.

Definition parse_type_or_type_predicate : P NodeId :=
  id ← is_identifier;
  if id : bool then
    st ← mark;
    pos ← node_pos;
    id ← parse_identifier;
    is_ ← at_token Kind.IsKeyword;
    br ← has_preceding_line_break;
    if is_ && negb br then
      advance_token ;;
      type_node ← rec_parse_type;
      finish_node (Node.new Kind.TypePredicate |> Node.child None |> Node.child (Some id)
        |> Node.ty (Some type_node)) pos
    else rewind st ;; rec_parse_type
  else rec_parse_type.

Definition parse_return_type (return_token : Kind) (is_type : bool) : P (option NodeId) :=
  b ← should_parse_return_type return_token is_type;
  optionally b (do_in_context NodeFlags.DisallowConditionalTypesContext false parse_type_or_type_predicate).

Definition parse_accessor_declaration (pos : nat) (modifiers : option NodeList) (kind : Kind) (flags : Z)
    : P NodeId :=
  name ← parse_property_name;
  type_parameters ← parse_type_parameters;
  parameters ← parse_parameters ParseFlags.None;
  return_type ← parse_return_type Kind.ColonToken false;
  body ← parse_function_block_or_semicolon flags None;
  let node_kind := if Kind.eqb kind Kind.GetAccessor then Kind.GetAccessor else Kind.SetAccessor in
  result ← finish_node (Node.new node_kind |> Node.modifiers modifiers |> Node.name (Some name)
    |> Node.type_parameters type_parameters |> Node.parameters (Some parameters) |> Node.ty return_type
    |> Node.body body) pos;
  if ParseFlags.has flags ParseFlags.Type_ then ret result else check_js_syntax result.

(** ** Type members *)

Definition parse_signature_member (kind : Kind) : P NodeId :=
  pos ← node_pos;
  when (Kind.eqb kind Kind.ConstructSignature) (expect Kind.NewKeyword) ;;
  type_parameters ← parse_type_parameters;
  parameters ← parse_parameters ParseFlags.Type_;
  type_node ← parse_return_type Kind.ColonToken true;
  parse_type_member_semicolon ;;
  finish_node (Node.new kind |> Node.type_parameters type_parameters |> Node.parameters (Some parameters)
    |> Node.ty type_node) pos.

Definition parse_index_signature_declaration (pos : nat) (modifiers : option NodeList) : P NodeId :=
  parameters ← parse_bracketed_list Parameters parse_parameter Kind.OpenBracketToken Kind.CloseBracketToken;
  type_node ← parse_type_annotation;
  parse_type_member_semicolon ;;
  finish_node (Node.new Kind.IndexSignature |> Node.modifiers modifiers
    |> Node.parameters (Some parameters) |> Node.ty type_node) pos.

Definition parse_property_or_method_signature (pos : nat) (modifiers : option NodeList) : P NodeId :=
  name ← parse_property_name;
  question_token ← parse_optional_token Kind.QuestionToken;
  tok ← get_token;
  result ←
    (if among tok [Kind.OpenParenToken; Kind.LessThanToken] then
       type_parameters ← parse_type_parameters;
       parameters ← parse_parameters ParseFlags.Type_;
       return_type ← parse_return_type Kind.ColonToken true;
       ret (Node.new Kind.MethodSignature |> Node.modifiers modifiers |> Node.name (Some name)
         |> Node.question question_token |> Node.type_parameters type_parameters
         |> Node.parameters (Some parameters) |> Node.ty return_type)
     else
       type_node ← parse_type_annotation;
       initializer ← parse_initializer;
       ret (Node.new Kind.PropertySignature |> Node.modifiers modifiers |> Node.name (Some name)
         |> Node.question question_token |> Node.ty type_node |> Node.initializer initializer));
  parse_type_member_semicolon ;;
  finish_node result pos.

Definition parse_type_member : P NodeId :=
  tok ← get_token;
  construct ← and_then (Kind.eqb tok Kind.NewKeyword) (look_ahead next_token_is_open_paren_or_less_than);
  if among tok [Kind.OpenParenToken; Kind.LessThanToken] then parse_signature_member Kind.CallSignature
  else if construct : bool then parse_signature_member Kind.ConstructSignature
  else
    pos ← node_pos;
    modifiers ← parse_modifiers;
    get ← parse_contextual_modifier Kind.GetKeyword;
    if get : bool then parse_accessor_declaration pos modifiers Kind.GetAccessor ParseFlags.Type_
    else
      set ← parse_contextual_modifier Kind.SetKeyword;
      if set : bool then parse_accessor_declaration pos modifiers Kind.SetAccessor ParseFlags.Type_
      else
        index ← is_index_signature;
        if index : bool then parse_index_signature_declaration pos modifiers
        else parse_property_or_method_signature pos modifiers.

Definition parse_object_type_members : P NodeList :=
  b ← parse_expected Kind.OpenBraceToken;
  if b : bool then
    members ← parse_list TypeMembers parse_type_member;
    expect Kind.CloseBraceToken ;;
    ret members
  else create_missing_list.

Definition parse_type_literal : P NodeId :=
  pos ← node_pos;
  members ← parse_object_type_members;
  finish_node (Node.new Kind.TypeLiteral |> Node.list (Some members)) pos.

(** ** References, queries and imports *)

Definition parse_type_reference : P NodeId :=
  pos ← node_pos;
  type_name ← parse_entity_name true (Some Type_expected);
  type_arguments ← parse_type_arguments_of_type_reference;
  finish_node (Node.new Kind.TypeReference |> Node.name (Some type_name)
    |> Node.type_arguments type_arguments) pos.

Definition parse_import_attribute : P NodeId :=
  pos ← node_pos;
  tok ← get_token;
  name ←
    (if token_is_identifier_or_keyword tok then n ← parse_identifier_name; ret (Some n)
     else optionally (Kind.eqb tok Kind.StringLiteral) parse_literal_expression);
  match name with
  | Some _ => expect Kind.ColonToken
  | None => parse_error_at_current_token Identifier_or_string_literal_expected []
  end ;;
  value ← parse_assignment_expression_or_higher;
  finish_node (Node.new Kind.ImportAttribute |> Node.name name |> Node.child (Some value)) pos.

Definition parse_import_attributes (tok : Kind) (skip_keyword : bool) : P NodeId :=
  pos ← node_pos;
  when (negb skip_keyword) (expect tok) ;;
  brace ← parse_expected Kind.OpenBraceToken;
  elements ←
    (if brace : bool then
       elements ← parse_delimited_list ImportAttributes parse_import_attribute;
       expect Kind.CloseBraceToken ;;
       ret elements
     else parse_empty_node_list);
  finish_node (Node.new Kind.ImportAttributes |> Node.op tok |> Node.list (Some elements)) pos.

(** The attributes of an import type, after its comma. *)
Definition parse_import_type_attributes : P NodeId :=
  expect Kind.OpenBraceToken ;;
  current_token ← get_token;
  (if among current_token [Kind.WithKeyword; Kind.AssertKeyword] then
     when (Kind.eqb current_token Kind.AssertKeyword)
       (parse_error_at_current_token
          Import_assertions_have_been_replaced_by_import_attributes_Use_with_instead_of_assert []) ;;
     advance_token
   else parse_error_at_current_token Messages.X_0_expected [token_to_string Kind.WithKeyword]) ;;
  expect Kind.ColonToken ;;
  attributes ← parse_import_attributes current_token true;
  parse_optional Kind.CommaToken ;;
  expect Kind.CloseBraceToken ;;
  ret attributes.

Definition parse_import_type : P NodeId :=
  add_source_flags NodeFlags.PossiblyContainsDynamicImport ;;
  pos ← node_pos;
  is_type_of ← parse_optional Kind.TypeOfKeyword;
  expect Kind.ImportKeyword ;;
  expect Kind.OpenParenToken ;;
  type_node ← rec_parse_type;
  comma ← parse_optional Kind.CommaToken;
  attributes ← optionally comma parse_import_type_attributes;
  expect Kind.CloseParenToken ;;
  dot ← parse_optional Kind.DotToken;
  qualifier ← optionally dot (parse_entity_name true (Some Type_expected));
  type_arguments ← parse_type_arguments_of_type_reference;
  finish_node (Node.new Kind.ImportType |> Node.type_only is_type_of |> Node.ty (Some type_node)
    |> Node.child attributes |> Node.child qualifier |> Node.type_arguments type_arguments) pos.

Definition parse_type_query : P NodeId :=
  pos ← node_pos;
  expect Kind.TypeOfKeyword ;;
  entity_name ← parse_entity_name true None;
  br ← has_preceding_line_break;
  type_arguments ← (if br : bool then ret None else parse_type_arguments);
  finish_node (Node.new Kind.TypeQuery |> Node.child (Some entity_name)
    |> Node.type_arguments type_arguments) pos.

(** ** Mapped types *)

Definition parse_mapped_type_parameter : P NodeId :=
  pos ← node_pos;
  name ← parse_identifier_name;
  expect Kind.InKeyword ;;
  type_node ← rec_parse_type;
  finish_node (Node.new Kind.TypeParameter |> Node.modifiers None |> Node.name (Some name)
    |> Node.child (Some type_node) |> Node.expression None |> Node.child None) pos.

(** [+readonly], [-readonly], [readonly]; and the same of [?]. *)
Definition parse_mapped_token (kind : Kind) : P (option NodeId) :=
  tok ← get_token;
  if among tok [kind; Kind.PlusToken; Kind.MinusToken] then
    taken ← parse_token_node;
    k ← kind_of taken;
    when (negb (Kind.eqb k kind)) (expect kind) ;;
    ret (Some taken)
  else ret None.

Definition parse_mapped_type : P NodeId :=
  pos ← node_pos;
  expect Kind.OpenBraceToken ;;
  readonly_token ← parse_mapped_token Kind.ReadonlyKeyword;
  expect Kind.OpenBracketToken ;;
  type_parameter ← parse_mapped_type_parameter;
  as_ ← parse_optional Kind.AsKeyword;
  name_type ← optionally as_ rec_parse_type;
  expect Kind.CloseBracketToken ;;
  question_token ← parse_mapped_token Kind.QuestionToken;
  type_node ← parse_type_annotation;
  parse_semicolon ;;
  members ← parse_list TypeMembers parse_type_member;
  expect Kind.CloseBraceToken ;;
  finish_node (Node.new Kind.MappedType |> Node.child readonly_token |> Node.child (Some type_parameter)
    |> Node.child name_type |> Node.question question_token |> Node.ty type_node
    |> Node.list (Some members)) pos.

(** ** Tuples *)

(** [T?] at the start of an element was read as a nullable type: retagged. *)
Definition parse_tuple_element_type : P NodeId :=
  pos ← node_pos;
  dots ← parse_optional Kind.DotDotDotToken;
  if dots : bool then
    type_node ← rec_parse_type;
    finish_node (Node.new Kind.RestType |> Node.ty (Some type_node)) pos
  else
    type_node ← rec_parse_type;
    n ← node type_node;
    match nkind n, nty n with
    | Kind.JSDocNullableType, Some inner =>
        i ← node inner;
        when (npos n =? npos i)%nat (node_mut type_node (Node.with_kind Kind.OptionalType)) ;;
        ret type_node
    | _, _ => ret type_node
    end.

Definition parse_tuple_element_name_or_tuple_element_type : P NodeId :=
  named ← look_ahead scan_start_of_named_tuple_element;
  if named : bool then
    pos ← node_pos;
    dot_dot_dot_token ← parse_optional_token Kind.DotDotDotToken;
    name ← parse_identifier_name;
    question_token ← parse_optional_token Kind.QuestionToken;
    expect Kind.ColonToken ;;
    type_node ← parse_tuple_element_type;
    finish_node (Node.new Kind.NamedTupleMember |> Node.child dot_dot_dot_token |> Node.name (Some name)
      |> Node.question question_token |> Node.ty (Some type_node)) pos
  else parse_tuple_element_type.

Definition parse_tuple_type : P NodeId :=
  pos ← node_pos;
  elements ← parse_bracketed_list TupleElementTypes parse_tuple_element_name_or_tuple_element_type
               Kind.OpenBracketToken Kind.CloseBracketToken;
  finish_node (Node.new Kind.TupleType |> Node.list (Some elements)) pos.

(** ** Small types *)

Definition parse_parenthesized_type : P NodeId :=
  pos ← node_pos;
  expect Kind.OpenParenToken ;;
  type_node ← rec_parse_type;
  expect Kind.CloseParenToken ;;
  finish_node (Node.new Kind.ParenthesizedType |> Node.ty (Some type_node)) pos.

Definition parse_asserts_type_predicate : P NodeId :=
  pos ← node_pos;
  asserts_modifier ← parse_expected_token Kind.AssertsKeyword;
  this ← at_token Kind.ThisKeyword;
  parameter_name ← (if this : bool then parse_this_type_node else parse_identifier);
  is_ ← parse_optional Kind.IsKeyword;
  type_node ← optionally is_ rec_parse_type;
  finish_node (Node.new Kind.TypePredicate |> Node.child (Some asserts_modifier)
    |> Node.child (Some parameter_name) |> Node.ty type_node) pos.

Definition parse_this_type_predicate (lhs : NodeId) : P NodeId :=
  advance_token ;;
  type_node ← rec_parse_type;
  l ← node lhs;
  finish_node (Node.new Kind.TypePredicate |> Node.child None |> Node.child (Some lhs)
    |> Node.ty (Some type_node)) (npos l).

(** [!T] and [?T]. *)
Definition parse_jsdoc_prefix_type (kind : Kind) : P NodeId :=
  pos ← node_pos;
  advance_token ;;
  type_node ← rec_parse_type_operator_or_higher;
  finish_node (Node.new kind |> Node.ty (Some type_node)) pos.

Definition parse_jsdoc_non_nullable_type : P NodeId := parse_jsdoc_prefix_type Kind.JSDocNonNullableType.
Definition parse_jsdoc_nullable_type : P NodeId := parse_jsdoc_prefix_type Kind.JSDocNullableType.

Definition parse_literal_type_node (negative : bool) : P NodeId :=
  pos ← node_pos;
  when negative advance_token ;;
  tok ← get_token;
  expression ← (if among tok [Kind.TrueKeyword; Kind.FalseKeyword; Kind.NullKeyword]
                then parse_keyword_expression else parse_literal_expression);
  expression ←
    (if negative then
       finish_node (Node.new Kind.PrefixUnaryExpression |> Node.op Kind.MinusToken
         |> Node.expression (Some expression)) pos
     else ret expression);
  finish_node (Node.new Kind.LiteralType |> Node.child (Some expression)) pos.

(** ** Templates *)

(** The text between the delimiters; out of range, nothing. *)
Definition get_template_literal_raw_text (end_length : nat) : P str :=
  token_text ← scanner_token_text;
  flags ← scanner_token_flags;
  let end_length := if TokenFlags.has flags TokenFlags.Unterminated then 0%nat else end_length in
  ret (default [] (slice token_text 1 (length token_text - end_length))).

Definition parse_template_head (is_tagged_template : bool) : P NodeId :=
  flags ← scanner_token_flags;
  when (negb is_tagged_template && TokenFlags.has flags TokenFlags.IsInvalid)
    (re_scan_template_token false ;; ret tt) ;;
  pos ← node_pos;
  text ← scanner_token_value;
  get_template_literal_raw_text 2 ;;
  flags ← scanner_token_flags;
  advance_token ;;
  finish_node (Node.new Kind.TemplateHead |> Node.text text |> Node.token_flags flags) pos.

Definition parse_template_middle_or_tail : P NodeId :=
  pos ← node_pos;
  text ← scanner_token_value;
  flags ← scanner_token_flags;
  middle ← at_token Kind.TemplateMiddle;
  get_template_literal_raw_text (if middle : bool then 2 else 1) ;;
  advance_token ;;
  finish_node (Node.new (if middle : bool then Kind.TemplateMiddle else Kind.TemplateTail)
    |> Node.text text |> Node.token_flags flags) pos.

Definition parse_literal_of_template_span (is_tagged_template : bool) : P NodeId :=
  brace ← at_token Kind.CloseBraceToken;
  if brace : bool then re_scan_template_token is_tagged_template ;; parse_template_middle_or_tail
  else
    parse_error_at_current_token Messages.X_0_expected [token_to_string Kind.CloseBraceToken] ;;
    pos ← node_pos;
    finish_node (Node.new Kind.TemplateTail |> Node.text [] |> Node.token_flags TokenFlags.None) pos.

Definition parse_template_type_span : P NodeId :=
  pos ← node_pos;
  type_node ← rec_parse_type;
  literal ← parse_literal_of_template_span false;
  finish_node (Node.new Kind.TemplateLiteralTypeSpan |> Node.ty (Some type_node)
    |> Node.child (Some literal)) pos.

(** The spans of a template, as long as the literal of a span is a middle. *)
Definition parse_spans (parse_span : P NodeId) : P NodeList :=
  pos ← node_pos;
  list ← loop (L := list NodeId) (fun list =>
    span ← parse_span;
    n ← node span;
    literal ← lift (fun _ => unwrap (nchildren n !! 0));
    middle ← (match literal with
              | Some id => k ← kind_of id; ret (Kind.eqb k Kind.TemplateMiddle)
              | None => ret false
              end);
    ret (if middle : bool then inl (list ++ [span]) else inr (list ++ [span]))) [];
  end_ ← node_pos;
  ret (NodeList_new pos end_ list).

Definition parse_template_type : P NodeId :=
  pos ← node_pos;
  head ← parse_template_head false;
  spans ← parse_spans parse_template_type_span;
  finish_node (Node.new Kind.TemplateLiteralType |> Node.child (Some head) |> Node.list (Some spans)) pos.

(** ** Function types *)

Definition skip_parameter_start : P bool :=
  tok ← get_token;
  when (is_modifier_kind tok) (parse_modifiers ;; ret tt) ;;
  parse_optional Kind.DotDotDotToken ;;
  id ← is_identifier;
  tok ← get_token;
  if id || Kind.eqb tok Kind.ThisKeyword then advance_token ;; ret true
  else if among tok [Kind.OpenBracketToken; Kind.OpenBraceToken] then
    previous_error_count ← gets (fun p => length (diagnostics (scanner p)));
    parse_identifier_or_pattern ;;
    error_count ← gets (fun p => length (diagnostics (scanner p)));
    ret (previous_error_count =? error_count)%nat
  else ret false.

Definition next_is_unambiguously_start_of_function_type : P bool :=
  k ← next_token;
  if among k [Kind.CloseParenToken; Kind.DotDotDotToken] then ret true
  else
    b ← skip_parameter_start;
    if b : bool then
      tok ← get_token;
      if among tok [Kind.ColonToken; Kind.CommaToken; Kind.QuestionToken; Kind.EqualsToken] then ret true
      else and_then (Kind.eqb tok Kind.CloseParenToken) (next_token_is [Kind.EqualsGreaterThanToken])
    else ret false.

Definition is_start_of_function_type_or_constructor_type : P bool :=
  tok ← get_token;
  if Kind.eqb tok Kind.LessThanToken then ret true
  else if Kind.eqb tok Kind.OpenParenToken then look_ahead next_is_unambiguously_start_of_function_type
  else if Kind.eqb tok Kind.NewKeyword then ret true
  else and_then (Kind.eqb tok Kind.AbstractKeyword) (look_ahead next_token_is_new_keyword).

(** The modifier alone, as a list that spans it. *)
Definition parse_single_modifier (kind : Kind) : P (option NodeList) :=
  b ← at_token kind;
  optionally b (
    modifier ← parse_token_node;
    n ← node modifier;
    ret (NodeList_new (npos n) (nend n) [modifier])).

Definition parse_modifiers_for_constructor_type : P (option NodeList) :=
  parse_single_modifier Kind.AbstractKeyword.

Definition parse_function_or_constructor_type : P NodeId :=
  pos ← node_pos;
  modifiers ← parse_modifiers_for_constructor_type;
  is_constructor_type ← parse_optional Kind.NewKeyword;
  debug_assert (bool_decide (modifiers = None) || is_constructor_type) ;;
  type_parameters ← parse_type_parameters;
  parameters ← parse_parameters ParseFlags.Type_;
  return_type ← parse_return_type Kind.EqualsGreaterThanToken false;
  finish_node
    ((if is_constructor_type : bool then Node.new Kind.ConstructorType |> Node.modifiers modifiers
      else Node.new Kind.FunctionType)
     |> Node.type_parameters type_parameters |> Node.parameters (Some parameters) |> Node.ty return_type) pos.

Definition function_type_message (is_function is_in_union_type : bool) : Message :=
  match is_function, is_in_union_type with
  | true, true => Function_type_notation_must_be_parenthesized_when_used_in_a_union_type
  | true, false => Function_type_notation_must_be_parenthesized_when_used_in_an_intersection_type
  | false, true => Constructor_type_notation_must_be_parenthesized_when_used_in_a_union_type
  | false, false => Constructor_type_notation_must_be_parenthesized_when_used_in_an_intersection_type
  end.

Definition parse_function_or_constructor_type_to_error
    (is_in_union_type : bool) (parse_constituent_type : P NodeId) : P NodeId :=
  b ← is_start_of_function_type_or_constructor_type;
  if b : bool then
    type_node ← parse_function_or_constructor_type;
    n ← node type_node;
    parse_error_at (npos n) (nend n)
      (function_type_message (Kind.eqb (nkind n) Kind.FunctionType) is_in_union_type) [] ;;
    ret type_node
  else parse_constituent_type.

(** ** Types *)

Definition parse_non_array_type : P NodeId :=
  tok ← get_token;
  match tok with
  | Kind.AnyKeyword | Kind.UnknownKeyword | Kind.StringKeyword | Kind.NumberKeyword | Kind.BigIntKeyword
  | Kind.SymbolKeyword | Kind.BooleanKeyword | Kind.UndefinedKeyword | Kind.NeverKeyword
  | Kind.ObjectKeyword =>
      st ← mark;
      keyword_type_node ← parse_keyword_type_node;
      dot ← at_token Kind.DotToken;
      if negb dot then ret keyword_type_node else rewind st ;; parse_type_reference
  | Kind.AsteriskEqualsToken => scanning re_scan_asterisk_equals_token ;; parse_jsdoc_all_type
  | Kind.AsteriskToken => parse_jsdoc_all_type
  | Kind.QuestionQuestionToken => scanning re_scan_question_token ;; parse_jsdoc_nullable_type
  | Kind.QuestionToken => parse_jsdoc_nullable_type
  | Kind.ExclamationToken => parse_jsdoc_non_nullable_type
  | Kind.NoSubstitutionTemplateLiteral | Kind.StringLiteral | Kind.NumericLiteral | Kind.BigIntLiteral
  | Kind.TrueKeyword | Kind.FalseKeyword | Kind.NullKeyword => parse_literal_type_node false
  | Kind.MinusToken =>
      b ← look_ahead next_token_is_numeric_or_big_int_literal;
      if b : bool then parse_literal_type_node true else parse_type_reference
  | Kind.VoidKeyword => parse_keyword_type_node
  | Kind.ThisKeyword =>
      this_keyword ← parse_this_type_node;
      is_ ← at_token Kind.IsKeyword;
      br ← has_preceding_line_break;
      if is_ && negb br then parse_this_type_predicate this_keyword else ret this_keyword
  | Kind.TypeOfKeyword =>
      b ← look_ahead next_is_start_of_type_of_import_type;
      if b : bool then parse_import_type else parse_type_query
  | Kind.OpenBraceToken =>
      b ← look_ahead next_is_start_of_mapped_type;
      if b : bool then parse_mapped_type else parse_type_literal
  | Kind.OpenBracketToken => parse_tuple_type
  | Kind.OpenParenToken => parse_parenthesized_type
  | Kind.ImportKeyword => parse_import_type
  | Kind.AssertsKeyword =>
      b ← look_ahead next_token_is_identifier_or_keyword_on_same_line;
      if b : bool then parse_asserts_type_predicate else parse_type_reference
  | Kind.TemplateHead => parse_template_type
  | _ => parse_type_reference
  end.

Definition parse_postfix_type_or_higher : P NodeId :=
  pos ← node_pos;
  type_node ← parse_non_array_type;
  loop (L := NodeId) (fun type_node =>
    br ← has_preceding_line_break;
    tok ← get_token;
    if br : bool then ret (inr type_node)
    else
      match tok with
      | Kind.ExclamationToken =>
          advance_token ;;
          type_node ← finish_node (Node.new Kind.JSDocNonNullableType |> Node.ty (Some type_node)) pos;
          ret (inl type_node)
      | Kind.QuestionToken =>
          b ← look_ahead next_is_start_of_type;
          if b : bool then ret (inr type_node)
          else
            advance_token ;;
            type_node ← finish_node (Node.new Kind.JSDocNullableType |> Node.ty (Some type_node)) pos;
            ret (inl type_node)
      | Kind.OpenBracketToken =>
          expect Kind.OpenBracketToken ;;
          b ← is_start_of_type false;
          if b : bool then
            index_type ← rec_parse_type;
            expect Kind.CloseBracketToken ;;
            type_node ← finish_node (Node.new Kind.IndexedAccessType |> Node.child (Some type_node)
              |> Node.child (Some index_type)) pos;
            ret (inl type_node)
          else
            expect Kind.CloseBracketToken ;;
            type_node ← finish_node (Node.new Kind.ArrayType |> Node.ty (Some type_node)) pos;
            ret (inl type_node)
      | _ => ret (inr type_node)
      end) type_node.

Definition parse_type_operator (operator : Kind) : P NodeId :=
  pos ← node_pos;
  expect operator ;;
  type_node ← rec_parse_type_operator_or_higher;
  finish_node (Node.new Kind.TypeOperator |> Node.op operator |> Node.ty (Some type_node)) pos.

Definition try_parse_constraint_of_infer_type : P (option NodeId) :=
  st ← mark;
  extends ← parse_optional Kind.ExtendsKeyword;
  constraint ←
    (if extends : bool then
       constraint ← do_in_context NodeFlags.DisallowConditionalTypesContext true rec_parse_type;
       d ← in_disallow_conditional_types_context;
       q ← at_token Kind.QuestionToken;
       ret (if d || negb q then Some constraint else None)
     else ret None);
  match constraint with
  | Some constraint => ret (Some constraint)
  | None => rewind st ;; ret None
  end.

Definition parse_type_parameter_of_infer_type : P NodeId :=
  pos ← node_pos;
  name ← parse_identifier;
  constraint ← try_parse_constraint_of_infer_type;
  finish_node (Node.new Kind.TypeParameter |> Node.modifiers None |> Node.name (Some name)
    |> Node.child constraint |> Node.expression None |> Node.child None) pos.

Definition parse_infer_type : P NodeId :=
  pos ← node_pos;
  expect Kind.InferKeyword ;;
  type_parameter ← parse_type_parameter_of_infer_type;
  finish_node (Node.new Kind.InferType |> Node.child (Some type_parameter)) pos.

Definition parse_type_operator_or_higher : P NodeId :=
  operator ← get_token;
  if among operator [Kind.KeyOfKeyword; Kind.UniqueKeyword; Kind.ReadonlyKeyword] then
    parse_type_operator operator
  else if Kind.eqb operator Kind.InferKeyword then parse_infer_type
  else do_in_context NodeFlags.DisallowConditionalTypesContext false parse_postfix_type_or_higher.

Definition create_union_or_intersection_type_node (operator : Kind) (types : NodeList) : P Node :=
  match operator with
  | Kind.BarToken => ret (Node.new Kind.UnionType |> Node.list (Some types))
  | Kind.AmpersandToken => ret (Node.new Kind.IntersectionType |> Node.list (Some types))
  | _ => panic
  end.

Definition parse_union_or_intersection_type (operator : Kind) (parse_constituent_type : P NodeId) : P NodeId :=
  pos ← node_pos;
  let is_union_type := Kind.eqb operator Kind.BarToken in
  let to_error := parse_function_or_constructor_type_to_error is_union_type parse_constituent_type in
  has_leading_operator ← parse_optional operator;
  type_node ← (if has_leading_operator : bool then to_error else parse_constituent_type);
  again ← at_token operator;
  if again || has_leading_operator then
    types ← loop (L := list NodeId) (fun types =>
      b ← parse_optional operator;
      if b : bool then t ← to_error; ret (inl (types ++ [t])) else ret (inr types)) [type_node];
    end_ ← node_pos;
    n ← create_union_or_intersection_type_node operator (NodeList_new pos end_ types);
    finish_node n pos
  else ret type_node.

Definition parse_intersection_type_or_higher : P NodeId :=
  parse_union_or_intersection_type Kind.AmpersandToken parse_type_operator_or_higher.

Definition parse_union_type_or_higher : P NodeId :=
  parse_union_or_intersection_type Kind.BarToken parse_intersection_type_or_higher.

(** The rest of a conditional type, after [extends]. *)
Definition parse_conditional_type_rest (pos : nat) (check_type : NodeId) : P NodeId :=
  extends_type ← do_in_context NodeFlags.DisallowConditionalTypesContext true rec_parse_type;
  expect Kind.QuestionToken ;;
  true_type ← do_in_context NodeFlags.DisallowConditionalTypesContext false rec_parse_type;
  expect Kind.ColonToken ;;
  false_type ← do_in_context NodeFlags.DisallowConditionalTypesContext false rec_parse_type;
  finish_node (Node.new Kind.ConditionalType |> Node.child (Some check_type) |> Node.child (Some extends_type)
    |> Node.child (Some true_type) |> Node.child (Some false_type)) pos.

Definition parse_type : P NodeId :=
  do_in_context NodeFlags.TypeExcludesFlags false (
    b ← is_start_of_function_type_or_constructor_type;
    if b : bool then parse_function_or_constructor_type
    else
      pos ← node_pos;
      check_type ← parse_union_type_or_higher;
      d ← in_disallow_conditional_types_context;
      br ← has_preceding_line_break;
      extends ← and_then (negb d && negb br) (parse_optional Kind.ExtendsKeyword);
      if extends : bool then parse_conditional_type_rest pos check_type else ret check_type).
End types.
