(* ===== verification/ParseClasses.v ===== *)
(** * Classes and methods ([surge-ts-tsc-syntax/src/parser/statements.rs])

    Members, heritage clauses and classes, which expressions need as well as
    statements, and the error for a missing semicolon. *)

From stdpp Require Import gmap sets.
From S2P Require Import Prelude Utf8 RustStr Chars Kind Diagnostics Spelling ScanText ScanState Scan Rescan ParserMessages Ast ParserState ParserPredicates ParserLists JsSyntax ParseTypes.
Import ParserMessages.

(** ** Suggestions *)

Definition VIABLE_KEYWORD_SUGGESTIONS : list str :=
  map lit ["abstract"; "accessor"; "any"; "assert"; "asserts"; "async"; "await"; "bigint"; "boolean"; "break";
    "case"; "catch"; "class"; "const"; "constructor"; "continue"; "debugger"; "declare"; "default"; "defer";
    "delete"; "else"; "enum"; "export"; "extends"; "false"; "finally"; "for"; "from"; "function"; "get";
    "global"; "immediate"; "implements"; "import"; "infer"; "instanceof"; "interface"; "intrinsic"; "keyof";
    "let"; "module"; "namespace"; "never"; "new"; "null"; "number"; "object"; "out"; "override"; "package";
    "private"; "protected"; "public"; "readonly"; "require"; "return"; "satisfies"; "set"; "static"; "string";
    "super"; "switch"; "symbol"; "this"; "throw"; "true"; "try"; "type"; "typeof"; "undefined"; "unique";
    "unknown"; "using"; "var"; "void"; "while"; "with"; "yield"]%string.

(** [format!("{} {}", keyword, &expression_text[keyword.len()..])] for the first
    keyword the text begins with. *)
Fixpoint space_suggestion (expression_text : str) (keywords : list str) : result str :=
  match keywords with
  | [] => Ok []
  | keyword :: keywords =>
      if (length keyword + 2 <? length expression_text)%nat && starts_with keyword expression_text then
        rest ← unwrap (slice expression_text (length keyword) (length expression_text));
        Ok (keyword ++ lit " " ++ rest)
      else space_suggestion expression_text keywords
  end.

Definition get_space_suggestion (expression_text : str) : result str :=
  space_suggestion expression_text VIABLE_KEYWORD_SUGGESTIONS.

Section classes.
Context `{UnicodeId} `{UnicodeCase} `{Productions}.

(** ** Missing semicolons *)

Definition parse_error_for_invalid_name (name_diagnostic blank_diagnostic : Message) (token_if_blank_name : Kind)
    : P unit :=
  blank ← at_token token_if_blank_name;
  if blank : bool then parse_error_at_current_token blank_diagnostic []
  else value ← scanner_token_value; parse_error_at_current_token name_diagnostic [value].

(** The misspelled or unknown word at [pos, node_end). *)
Definition parse_error_for_unknown_word (expression_text : str) (pos node_end : nat) : P unit :=
  suggestion ← lift (fun _ => get_spelling_suggestion_for_strings expression_text VIABLE_KEYWORD_SUGGESTIONS);
  suggestion ← (match suggestion with
                | [] => lift (fun _ => get_space_suggestion expression_text)
                | _ => ret suggestion
                end);
  match suggestion with
  | [] =>
      unknown ← at_token Kind.Unknown;
      when (negb unknown) (parse_error_at pos node_end Unexpected_keyword_or_identifier [])
  | _ => parse_error_at pos node_end Unknown_keyword_or_identifier_Did_you_mean_0 [suggestion]
  end.

Definition parse_error_for_missing_semicolon_after (id : NodeId) : P unit :=
  n ← node id;
  if Kind.eqb (nkind n) Kind.TaggedTemplateExpression then
    template ← lift (fun _ => unwrap (nbody n));
    t ← node template;
    '(start, end_) ← skip_range_trivia (npos t) (nend t);
    parse_error_at start end_ Module_declaration_names_may_only_use_or_quoted_strings []
  else
    let expression_text := if Kind.eqb (nkind n) Kind.Identifier then ntext n else [] in
    if expression_text =s [] then
      parse_error_at_current_token Messages.X_0_expected [token_to_string Kind.SemicolonToken]
    else
      pos ← skip_trivia_at (npos n);
      let node_end := nend n in
      let is_ (words : list String.string) := existsb (fun w => expression_text =s lit w) words in
      if is_ ["const"; "let"; "var"]%string then
        parse_error_at pos node_end Variable_declaration_not_allowed_at_this_location []
      else if is_ ["declare"]%string then ret tt
      else if is_ ["interface"]%string then
        parse_error_for_invalid_name Interface_name_cannot_be_0 Interface_must_be_given_a_name Kind.OpenBraceToken
      else if is_ ["is"]%string then
        token_start ← scanner_token_start;
        parse_error_at pos token_start
          A_type_predicate_is_only_allowed_in_return_type_position_for_functions_and_methods []
      else if is_ ["module"; "namespace"]%string then
        parse_error_for_invalid_name Namespace_name_cannot_be_0 Namespace_must_be_given_a_name Kind.OpenBraceToken
      else if is_ ["type"]%string then
        parse_error_for_invalid_name Type_alias_name_cannot_be_0 Type_alias_must_be_given_a_name Kind.EqualsToken
      else parse_error_for_unknown_word expression_text pos node_end.

Definition parse_semicolon_after_property_name (name : NodeId) (type_node initializer : option NodeId) : P unit :=
  tok ← get_token;
  br ← has_preceding_line_break;
  semicolon ← can_parse_semicolon;
  let has_initializer := negb (bool_decide (initializer = None)) in
  let expected := parse_error_at_current_token Messages.X_0_expected [token_to_string Kind.SemicolonToken] in
  if Kind.eqb tok Kind.AtToken && negb br then
    parse_error_at_current_token Decorators_must_precede_the_name_and_all_keywords_of_property_declarations []
  else if Kind.eqb tok Kind.OpenParenToken then
    parse_error_at_current_token Cannot_start_a_function_call_in_a_type_annotation [] ;; advance_token
  else if negb (bool_decide (type_node = None)) && negb semicolon then
    if has_initializer then expected else parse_error_at_current_token Expected_for_property_initializer []
  else
    taken ← try_parse_semicolon;
    if taken : bool then ret tt
    else if has_initializer then expected
    else parse_error_for_missing_semicolon_after name.

(** ** Methods and properties *)

Definition signature_flags (is_generator is_async : bool) : Z :=
  Z.lor (if is_generator then ParseFlags.Yield else ParseFlags.None)
        (if is_async then ParseFlags.Await else ParseFlags.None).

Definition is_some {A} (o : option A) : bool := match o with Some _ => true | None => false end.

Definition parse_method_declaration (pos : nat) (modifiers : option NodeList) (asterisk_token : option NodeId)
    (name : NodeId) (question_token : option NodeId) (diagnostic_message : option Message) : P NodeId :=
  is_async ← modifier_list_has_async modifiers;
  let flags := signature_flags (is_some asterisk_token) is_async in
  type_parameters ← parse_type_parameters;
  parameters ← parse_parameters flags;
  type_node ← parse_return_type Kind.ColonToken false;
  body ← parse_function_block_or_semicolon flags diagnostic_message;
  finish_checked (Node.new Kind.MethodDeclaration |> Node.modifiers modifiers |> Node.child asterisk_token
    |> Node.name (Some name) |> Node.question question_token |> Node.type_parameters type_parameters
    |> Node.parameters (Some parameters) |> Node.ty type_node |> Node.body body) pos.

Definition parse_property_declaration (pos : nat) (modifiers : option NodeList) (name : NodeId)
    (question_token : option NodeId) : P NodeId :=
  br ← has_preceding_line_break;
  postfix_token ← (if bool_decide (question_token = None) && negb br
                   then parse_optional_token Kind.ExclamationToken else ret question_token);
  type_node ← parse_type_annotation;
  initializer ← do_in_context
    (Z.lor (Z.lor NodeFlags.YieldContext NodeFlags.AwaitContext) NodeFlags.DisallowInContext) false parse_initializer;
  parse_semicolon_after_property_name name type_node initializer ;;
  finish_checked (Node.new Kind.PropertyDeclaration |> Node.modifiers modifiers |> Node.name (Some name)
    |> Node.question postfix_token |> Node.ty type_node |> Node.initializer initializer) pos.

Definition parse_property_or_method_declaration (pos : nat) (modifiers : option NodeList) : P NodeId :=
  asterisk_token ← parse_optional_token Kind.AsteriskToken;
  name ← parse_property_name;
  question_token ← parse_optional_token Kind.QuestionToken;
  tok ← get_token;
  if is_some asterisk_token || among tok [Kind.OpenParenToken; Kind.LessThanToken] then
    parse_method_declaration pos modifiers asterisk_token name question_token (Some X_or_expected)
  else parse_property_declaration pos modifiers name question_token.

(** The parameters, type and body of [node], then [node] with them. *)
Definition try_parse_constructor_declaration (pos : nat) (modifiers : option NodeList) : P (option NodeId) :=
  st ← mark;
  tok ← get_token;
  value ← scanner_token_value;
  named ← (if Kind.eqb tok Kind.ConstructorKeyword then ret true
           else and_then (Kind.eqb tok Kind.StringLiteral && (value =s lit "constructor"))
                  (look_ahead next_token_is_open_paren));
  if named : bool then
    advance_token ;;
    type_parameters ← parse_type_parameters;
    parameters ← parse_parameters ParseFlags.None;
    return_type ← parse_return_type Kind.ColonToken false;
    body ← parse_function_block_or_semicolon ParseFlags.None (Some X_or_expected);
    result ← finish_checked (Node.new Kind.Constructor |> Node.modifiers modifiers
      |> Node.type_parameters type_parameters |> Node.parameters (Some parameters) |> Node.ty return_type
      |> Node.body body) pos;
    ret (Some result)
  else rewind st ;; ret None.

Definition parse_class_static_block_body : P NodeId :=
  save_context_flags ← get_context_flags;
  set_context_flags NodeFlags.YieldContext false ;;
  set_context_flags NodeFlags.AwaitContext true ;;
  body ← parse_block false None;
  put_context_flags save_context_flags ;;
  ret body.

Definition parse_class_static_block_declaration (pos : nat) (modifiers : option NodeList) : P NodeId :=
  parse_expected_token Kind.StaticKeyword ;;
  body ← parse_class_static_block_body;
  finish_node (Node.new Kind.ClassStaticBlockDeclaration |> Node.modifiers modifiers
    |> Node.body (Some body)) pos.

(** A member that is neither a semicolon, a static block, an accessor nor a
    constructor. *)
Definition parse_other_class_element (pos : nat) (modifiers : option NodeList) : P NodeId :=
  index ← is_index_signature;
  tok ← get_token;
  if index : bool then declaration ← parse_index_signature_declaration pos modifiers; check_js_syntax declaration
  else if token_is_identifier_or_keyword tok
          || among tok [Kind.StringLiteral; Kind.NumericLiteral; Kind.BigIntLiteral; Kind.AsteriskToken;
                        Kind.OpenBracketToken] then
    is_ambient ← modifier_list_has modifiers Kind.DeclareKeyword;
    if is_ambient : bool then in_ambient_context modifiers (parse_property_or_method_declaration pos modifiers)
    else parse_property_or_method_declaration pos modifiers
  else
    match modifiers with
    | Some _ =>
        node_pos ← node_pos;
        parse_error_at node_pos node_pos Declaration_expected [] ;;
        name ← create_missing_identifier;
        parse_property_declaration pos modifiers name None
    | None => panic
    end.

Definition parse_class_element : P NodeId :=
  pos ← node_pos;
  semicolon ← at_token Kind.SemicolonToken;
  if semicolon : bool then take_as Kind.SemicolonClassElement
  else
    modifiers ← parse_modifiers_ex true true true;
    static ← at_token Kind.StaticKeyword;
    static_block ← and_then static (look_ahead next_token_is_open_brace);
    if static_block : bool then parse_class_static_block_declaration pos modifiers
    else
      get ← parse_contextual_modifier Kind.GetKeyword;
      if get : bool then parse_accessor_declaration pos modifiers Kind.GetAccessor ParseFlags.None
      else
        set ← parse_contextual_modifier Kind.SetKeyword;
        if set : bool then parse_accessor_declaration pos modifiers Kind.SetAccessor ParseFlags.None
        else
          tok ← get_token;
          constructor ←
            (if among tok [Kind.ConstructorKeyword; Kind.StringLiteral]
             then try_parse_constructor_declaration pos modifiers else ret None);
          match constructor with
          | Some constructor_declaration => ret constructor_declaration
          | None => parse_other_class_element pos modifiers
          end.

(** ** Classes *)

Definition parse_expression_with_type_arguments : P NodeId :=
  pos ← node_pos;
  expression ← rec_parse_left_hand_side_expression_or_higher;
  k ← kind_of expression;
  if Kind.eqb k Kind.ExpressionWithTypeArguments then ret expression
  else
    type_arguments ← parse_type_arguments;
    finish_node (Node.new Kind.ExpressionWithTypeArguments |> Node.expression (Some expression)
      |> Node.type_arguments type_arguments) pos.

Definition parse_heritage_clause : P NodeId :=
  pos ← node_pos;
  kind ← get_token;
  advance_token ;;
  types ← parse_delimited_list HeritageClauseElement parse_expression_with_type_arguments;
  finish_checked (Node.new Kind.HeritageClause |> Node.op kind |> Node.list (Some types)) pos.

Definition parse_heritage_clauses : P (option NodeList) :=
  b ← is_heritage_clause; optionally b (parse_list HeritageClauses parse_heritage_clause).

Definition parse_name_of_class_declaration_or_expression : P (option NodeId) :=
  b ← is_binding_identifier;
  implements ← (if b : bool then is_implements_clause else ret false);
  optionally (b && negb implements) (keeping_await (create_identifier b)).

(** The types of the [extends] clauses are checked once more. *)
Definition check_extends_clauses (heritage_clauses : option NodeList) : P unit :=
  for_each (match heritage_clauses with Some l => lnodes l | None => [] end) (fun clause =>
    c ← node clause;
    when (Kind.eqb (nop c) Kind.ExtendsKeyword)
      (for_each (match mjoin (nlists c !! 0%nat) with Some types => lnodes types | None => [] end)
         (fun expr => check_js_syntax expr ;; ret tt))).

Definition parse_class_members : P NodeList :=
  brace ← parse_expected Kind.OpenBraceToken;
  if brace : bool then
    members ← parse_list ClassMembers parse_class_element;
    expect Kind.CloseBraceToken ;;
    ret members
  else create_missing_list.

Definition parse_class_declaration_or_expression (pos : nat) (modifiers : option NodeList) (kind : Kind)
    : P NodeId :=
  save_context_flags ← get_context_flags;
  save_has_await_identifier ← get_has_await;
  expect Kind.ClassKeyword ;;
  name ← parse_name_of_class_declaration_or_expression;
  type_parameters ← parse_type_parameters;
  export ← modifier_list_has modifiers Kind.ExportKeyword;
  when export (set_context_flags NodeFlags.AwaitContext true) ;;
  heritage_clauses ← parse_heritage_clauses;
  members ← parse_class_members;
  put_context_flags save_context_flags ;;
  declare ← modifier_list_has modifiers Kind.DeclareKeyword;
  when declare (put_has_await save_has_await_identifier) ;;
  result ← finish_node (Node.new kind |> Node.modifiers modifiers |> Node.name name
    |> Node.type_parameters type_parameters |> Node.list heritage_clauses |> Node.list (Some members)) pos;
  n ← node result;
  when (NodeFlags.has (nflags n) NodeFlags.JavaScriptFile)
    (check_js_syntax result ;; check_extends_clauses heritage_clauses) ;;
  ret result.

Definition parse_class_declaration (pos : nat) (modifiers : option NodeList) : P NodeId :=
  parse_class_declaration_or_expression pos modifiers Kind.ClassDeclaration.

Definition parse_class_expression : P NodeId :=
  pos ← node_pos; parse_class_declaration_or_expression pos None Kind.ClassExpression.
End classes.
