(* ===== verification/ParseExpressions.v ===== *)
(** * Expressions ([surge-ts-tsc-syntax/src/parser/expressions.rs])

    Member and call expressions, templates, literals and primary expressions,
    JSX, unary and binary expressions, arrow functions and assignments. *)

From stdpp Require Import gmap sets.
From S2P Require Import Prelude Utf8 RustStr Chars Kind Diagnostics Spelling ScanText ScanState Scan Rescan ParserMessages Ast ParserState ParserPredicates ParserLists JsSyntax ParseTypes ParseClasses.
Import ParserMessages.

(** [GetTextOfNodeFromSourceText] *)
Definition text_of_node (id : NodeId) : P str :=
  missing ← node_is_missing (Some id);
  if missing : bool then ret []
  else
    n ← node id;
    pos ← skip_trivia_at (npos n);
    let pos := Nat.min pos (nend n) in
    lift (fun p => unwrap (slice (source_text p) pos (nend n))).

Definition jsx_tag_name (id : NodeId) : P NodeId := n ← node id; lift (fun _ => unwrap (nname n)).

(** A JSX element has its opening element, its children and its closing element
    as [children\[0\]], [lists\[0\]] and [children\[1\]]. *)
Definition jsx_element_opening (id : NodeId) : P NodeId := n ← node id; lift (fun _ => unwrap (mjoin (nchildren n !! 0%nat))).
Definition jsx_element_closing (id : NodeId) : P NodeId := n ← node id; lift (fun _ => unwrap (mjoin (nchildren n !! 1%nat))).
Definition jsx_element_children (id : NodeId) : P NodeList :=
  n ← node id;
  list ← lift (fun _ => unwrap (nlists n !! 0%nat));
  ret (default NodeList_default list).

(** [typeHasArrowFunctionBlockingParseError]: every round goes to the type of a
    node, which is before it. *)
Fixpoint type_has_arrow_function_blocking_parse_error_fuel (fuel : nat) (id : NodeId) : P bool :=
  match fuel with
  | O => out_of_fuel
  | S fuel =>
      n ← node id;
      let of_type :=
        match nty n with
        | Some ty => type_has_arrow_function_blocking_parse_error_fuel fuel ty
        | None => ret false
        end in
      match nkind n with
      | Kind.TypeReference => node_is_missing (nname n)
      | Kind.FunctionType | Kind.ConstructorType =>
          or_else (match nparameters n with Some list => lmissing list | None => false end) of_type
      | Kind.ParenthesizedType => of_type
      | _ => ret false
      end
  end.

Definition type_has_arrow_function_blocking_parse_error (id : NodeId) : P bool := fun p =>
  type_has_arrow_function_blocking_parse_error_fuel (S (length (nodes p))) id p.

(** [while kind(id) == NonNullExpression && going(id)], from a node to its
    operand, and what it is on the way. *)
Fixpoint non_null_chain (fuel : nat) (id : NodeId) (body : NodeId -> Node -> P bool) : P NodeId :=
  match fuel with
  | O => out_of_fuel
  | S fuel =>
      n ← node id;
      if Kind.eqb (nkind n) Kind.NonNullExpression then
        go ← body id n;
        if go : bool then
          operand ← lift (fun _ => unwrap (nexpression n));
          non_null_chain fuel operand body
        else ret id
      else ret id
  end.

Definition is_chain (n : Node) : bool := NodeFlags.has (nflags n) NodeFlags.OptionalChain.

(** Whether the node is part of an optional chain; a non-null expression over
    one becomes part of it. *)
Definition try_reparse_optional_chain (id : NodeId) : P bool :=
  fuel ← gets (fun p => S (length (nodes p)));
  n ← node id;
  if is_chain n then ret true
  else if Kind.eqb (nkind n) Kind.NonNullExpression then
    first ← lift (fun _ => unwrap (nexpression n));
    expr ← non_null_chain fuel first (fun _ n => ret (negb (is_chain n)));
    e ← node expr;
    if is_chain e then
      non_null_chain fuel id (fun id _ => node_mut id (Node.flags NodeFlags.OptionalChain) ;; ret true) ;;
      ret true
    else ret false
  else ret false.

Definition chain_flag (b : bool) : Z := if b then NodeFlags.OptionalChain else NodeFlags.None.

Section expressions.
Context `{UnicodeId} `{UnicodeCase} `{Productions}.

(** ** Expressions *)

Definition make_binary_expression (left operator_token right : NodeId) (pos : nat) : P NodeId :=
  operator ← kind_of operator_token;
  finish_node (Node.new Kind.BinaryExpression |> Node.modifiers None |> Node.child (Some left)
    |> Node.child (Some operator_token) |> Node.child (Some right) |> Node.op operator) pos.

Definition parse_spread_element : P NodeId :=
  pos ← node_pos;
  expect Kind.DotDotDotToken ;;
  expression ← parse_assignment_expression_or_higher;
  finish_node (Node.new Kind.SpreadElement |> Node.expression (Some expression)) pos.

Definition parse_argument_or_array_literal_element : P NodeId :=
  tok ← get_token;
  if Kind.eqb tok Kind.DotDotDotToken then parse_spread_element
  else if Kind.eqb tok Kind.CommaToken then
    pos ← node_pos; finish_node (Node.new Kind.OmittedExpression) pos
  else parse_assignment_expression_or_higher.

Definition parse_argument_expression : P NodeId :=
  do_in_context (Z.lor NodeFlags.DisallowInContext NodeFlags.DecoratorContext) false
    parse_argument_or_array_literal_element.

Definition parse_argument_list : P NodeList :=
  expect Kind.OpenParenToken ;;
  result ← parse_delimited_list ArgumentExpressions parse_argument_expression;
  expect Kind.CloseParenToken ;;
  ret result.

(** ** Templates *)

Definition parse_template_span (is_tagged_template : bool) : P NodeId :=
  pos ← node_pos;
  expression ← parse_expression_allow_in;
  literal ← parse_literal_of_template_span is_tagged_template;
  finish_node (Node.new Kind.TemplateSpan |> Node.expression (Some expression)
    |> Node.child (Some literal)) pos.

Definition parse_template_expression (is_tagged_template : bool) : P NodeId :=
  pos ← node_pos;
  head ← parse_template_head is_tagged_template;
  spans ← parse_spans (parse_template_span is_tagged_template);
  finish_node (Node.new Kind.TemplateExpression |> Node.child (Some head) |> Node.list (Some spans)) pos.

Definition parse_tagged_template_rest (pos : nat) (tag : NodeId) (question_dot_token : option NodeId)
    (type_arguments : option NodeList) : P NodeId :=
  simple ← at_token Kind.NoSubstitutionTemplateLiteral;
  template ← (if simple : bool then re_scan_template_token true ;; parse_literal_expression
              else parse_template_expression true);
  t ← node tag;
  finish_checked (Node.new Kind.TaggedTemplateExpression |> Node.expression (Some tag)
    |> Node.child question_dot_token |> Node.type_arguments type_arguments |> Node.body (Some template)
    |> Node.flags (chain_flag (is_some question_dot_token || is_chain t))) pos.

(** ** Type arguments in expressions *)

Definition try_parse_type_arguments_in_expression : P (option NodeList) :=
  js ← in_context NodeFlags.JavaScriptFile;
  tok ← get_token;
  if js || negb (among tok [Kind.LessThanToken; Kind.LessThanLessThanToken]) then ret None
  else
    st ← mark;
    k ← re_scan_less_than_token;
    taken ←
      (if Kind.eqb k Kind.LessThanToken then
         advance_token ;;
         type_arguments ← parse_delimited_list TypeArguments parse_type;
         k ← re_scan_greater_than_token;
         if Kind.eqb k Kind.GreaterThanToken then
           advance_token ;;
           b ← can_follow_type_arguments_in_expression;
           ret (if b : bool then Some type_arguments else None)
         else ret None
       else ret None);
    match taken with
    | Some type_arguments => ret (Some type_arguments)
    | None => rewind st ;; ret None
    end.

(** ** Member expressions *)

(** [type_arguments.pos - 1], which a list at 0 would overflow. *)
Definition before (pos : nat) : P nat := match pos with O => panic | S pos => ret pos end.

Definition parse_property_access_expression_rest (pos : nat) (expression : NodeId)
    (question_dot_token : option NodeId) : P NodeId :=
  name ← parse_right_side_of_dot true true true;
  is_optional_chain ← or_else (is_some question_dot_token) (try_reparse_optional_chain expression);
  n ← node name;
  (if is_optional_chain && Kind.eqb (nkind n) Kind.PrivateIdentifier then
     '(start, end_) ← skip_range_trivia (npos n) (nend n);
     parse_error_at start end_ An_optional_chain_cannot_contain_private_identifiers []
   else ret tt) ;;
  e ← node expression;
  match nkind e, ntype_arguments e with
  | Kind.ExpressionWithTypeArguments, Some type_arguments =>
      start ← before (lpos type_arguments);
      end_ ← skip_trivia_at (lend type_arguments);
      parse_error_at start (end_ + 1) An_instantiation_expression_cannot_be_followed_by_a_property_access []
  | _, _ => ret tt
  end ;;
  finish_node (Node.new Kind.PropertyAccessExpression |> Node.expression (Some expression)
    |> Node.child question_dot_token |> Node.name (Some name)
    |> Node.flags (chain_flag is_optional_chain)) pos.

Definition parse_element_access_expression_rest (pos : nat) (expression : NodeId)
    (question_dot_token : option NodeId) : P NodeId :=
  close ← at_token Kind.CloseBracketToken;
  argument_expression ←
    (if close : bool then
       node_pos ← node_pos;
       parse_error_at node_pos node_pos An_element_access_expression_should_take_an_argument [] ;;
       create_missing_identifier
     else parse_expression_allow_in);
  expect Kind.CloseBracketToken ;;
  is_optional_chain ← or_else (is_some question_dot_token) (try_reparse_optional_chain expression);
  finish_node (Node.new Kind.ElementAccessExpression |> Node.expression (Some expression)
    |> Node.child question_dot_token |> Node.child (Some argument_expression)
    |> Node.flags (chain_flag is_optional_chain)) pos.

(** A tagged template absorbs the type arguments before it. *)
Definition parse_member_template (pos : nat) (expression : NodeId) (question_dot_token : option NodeId)
    : P NodeId :=
  e ← node expression;
  if bool_decide (question_dot_token = None) && Kind.eqb (nkind e) Kind.ExpressionWithTypeArguments then
    original_expression ← lift (fun _ => unwrap (nexpression e));
    parse_tagged_template_rest pos original_expression question_dot_token (ntype_arguments e)
  else parse_tagged_template_rest pos expression question_dot_token None.

(** What may follow with no [?.] before it: [!] and type arguments. *)
Definition parse_member_postfix (pos : nat) (expression : NodeId) : P (NodeId + NodeId) :=
  exclamation ← at_token Kind.ExclamationToken;
  br ← has_preceding_line_break;
  if exclamation && negb br then
    advance_token ;;
    expression ← finish_checked (Node.new Kind.NonNullExpression |> Node.expression (Some expression)) pos;
    ret (inl expression)
  else
    type_arguments ← try_parse_type_arguments_in_expression;
    match type_arguments with
    | Some _ =>
        expression ← finish_node (Node.new Kind.ExpressionWithTypeArguments |> Node.expression (Some expression)
          |> Node.type_arguments type_arguments) pos;
        ret (inl expression)
    | None => ret (inr expression)
    end.

Definition parse_member_expression_rest (pos : nat) (expression : NodeId) (allow_optional_chain : bool)
    : P NodeId :=
  loop (L := NodeId) (fun expression =>
    chain ← and_then allow_optional_chain is_start_of_optional_property_or_element_access_chain;
    '(question_dot_token, is_property_access) ←
      (if chain : bool then
         q ← parse_expected_token Kind.QuestionDotToken;
         b ← identifier_or_keyword;
         ret (Some q, b)
       else b ← parse_optional Kind.DotToken; ret (None, b));
    if is_property_access : bool then
      expression ← parse_property_access_expression_rest pos expression question_dot_token;
      ret (inl expression)
    else
      decorator ← in_decorator_context;
      bracket ← and_then (is_some question_dot_token || negb decorator) (parse_optional Kind.OpenBracketToken);
      if bracket : bool then
        expression ← parse_element_access_expression_rest pos expression question_dot_token;
        ret (inl expression)
      else
        template ← is_template_start_of_tagged_template;
        if template : bool then
          expression ← parse_member_template pos expression question_dot_token;
          ret (inl expression)
        else
          match question_dot_token with
          | None => parse_member_postfix pos expression
          | Some _ => ret (inr expression)
          end) expression.

(** ** Call expressions *)

(** The arguments of a call; the expression is without the type arguments that
    the call absorbs. *)
Definition parse_call_arguments (pos : nat) (expression : NodeId) (question_dot_token : option NodeId)
    (type_arguments : option NodeList) : P NodeId :=
  e ← node expression;
  '(expression, type_arguments) ←
    (if bool_decide (question_dot_token = None) && Kind.eqb (nkind e) Kind.ExpressionWithTypeArguments then
       inner ← lift (fun _ => unwrap (nexpression e));
       ret (inner, ntype_arguments e)
     else ret (expression, type_arguments));
  argument_list ← parse_argument_list;
  is_optional_chain ← or_else (is_some question_dot_token) (try_reparse_optional_chain expression);
  finish_checked (Node.new Kind.CallExpression |> Node.expression (Some expression)
    |> Node.child question_dot_token |> Node.type_arguments type_arguments |> Node.list (Some argument_list)
    |> Node.flags (chain_flag is_optional_chain)) pos.

Definition parse_call_expression_rest (pos : nat) (expression : NodeId) : P NodeId :=
  loop (L := NodeId) (fun expression =>
    expression ← parse_member_expression_rest pos expression true;
    question_dot_token ← parse_optional_token Kind.QuestionDotToken;
    type_arguments ← (if is_some question_dot_token then try_parse_type_arguments_in_expression else ret None);
    template ← is_template_start_of_tagged_template;
    if is_some question_dot_token && template then
      expression ← parse_tagged_template_rest pos expression question_dot_token type_arguments;
      ret (inl expression)
    else
      paren ← at_token Kind.OpenParenToken;
      if is_some type_arguments || paren then
        expression ← parse_call_arguments pos expression question_dot_token type_arguments;
        ret (inl expression)
      else
        match question_dot_token with
        | Some question_dot_token =>
            parse_error_at_current_token Identifier_expected [] ;;
            name ← create_missing_identifier;
            expression ← finish_node (Node.new Kind.PropertyAccessExpression |> Node.expression (Some expression)
              |> Node.child (Some question_dot_token) |> Node.name (Some name)
              |> Node.flags NodeFlags.OptionalChain) pos;
            ret (inr expression)
        | None => ret (inr expression)
        end) expression.

(** ** Object literals and functions *)

Definition parse_property_value : P NodeId :=
  do_in_context NodeFlags.DisallowInContext false parse_assignment_expression_or_higher.

(** A property that is neither a spread, an accessor nor a method. *)
Definition parse_property_assignment (pos : nat) (modifiers : option NodeList) (name : NodeId)
    (postfix_token : option NodeId) (token_is_identifier : bool) : P NodeId :=
  colon ← at_token Kind.ColonToken;
  if token_is_identifier && negb colon then
    equals_token ← parse_optional_token Kind.EqualsToken;
    initializer ← optionally (is_some equals_token) parse_property_value;
    finish_node (Node.new Kind.ShorthandPropertyAssignment |> Node.modifiers modifiers |> Node.name (Some name)
      |> Node.question postfix_token |> Node.ty None |> Node.child equals_token
      |> Node.initializer initializer) pos
  else
    expect Kind.ColonToken ;;
    initializer ← parse_property_value;
    finish_node (Node.new Kind.PropertyAssignment |> Node.modifiers modifiers |> Node.name (Some name)
      |> Node.question postfix_token |> Node.ty None |> Node.initializer (Some initializer)) pos.

Definition parse_object_literal_element : P NodeId :=
  pos ← node_pos;
  dots ← parse_optional Kind.DotDotDotToken;
  if dots : bool then
    expression ← parse_assignment_expression_or_higher;
    finish_node (Node.new Kind.SpreadAssignment |> Node.expression (Some expression)) pos
  else
    modifiers ← parse_modifiers_ex true false false;
    get ← parse_contextual_modifier Kind.GetKeyword;
    if get : bool then parse_accessor_declaration pos modifiers Kind.GetAccessor ParseFlags.None
    else
      set ← parse_contextual_modifier Kind.SetKeyword;
      if set : bool then parse_accessor_declaration pos modifiers Kind.SetAccessor ParseFlags.None
      else
        asterisk_token ← parse_optional_token Kind.AsteriskToken;
        token_is_identifier ← is_identifier;
        name ← parse_property_name;
        question ← parse_optional_token Kind.QuestionToken;
        postfix_token ← (match question with
                         | None => parse_optional_token Kind.ExclamationToken
                         | Some _ => ret question
                         end);
        tok ← get_token;
        if is_some asterisk_token || among tok [Kind.OpenParenToken; Kind.LessThanToken] then
          parse_method_declaration pos modifiers asterisk_token name postfix_token None
        else parse_property_assignment pos modifiers name postfix_token token_is_identifier.

Definition parse_object_literal_expression : P NodeId :=
  pos ← node_pos;
  expect Kind.OpenBraceToken ;;
  properties ← parse_delimited_list ObjectLiteralMembers parse_object_literal_element;
  parse_expected_matching_brackets Kind.CloseBraceToken ;;
  finish_node (Node.new Kind.ObjectLiteralExpression |> Node.list (Some properties)) pos.

Definition parse_array_literal_expression : P NodeId :=
  pos ← node_pos;
  expect Kind.OpenBracketToken ;;
  elements ← parse_delimited_list ArrayLiteralMembers parse_argument_or_array_literal_element;
  parse_expected_matching_brackets Kind.CloseBracketToken ;;
  finish_node (Node.new Kind.ArrayLiteralExpression |> Node.list (Some elements)) pos.

Definition parse_function_name (is_generator is_async : bool) : P (option NodeId) :=
  match is_generator, is_async with
  | true, true =>
      do_in_context (Z.lor NodeFlags.YieldContext NodeFlags.AwaitContext) true parse_optional_binding_identifier
  | true, false => do_in_context NodeFlags.YieldContext true parse_optional_binding_identifier
  | false, true => do_in_context NodeFlags.AwaitContext true parse_optional_binding_identifier
  | false, false => parse_optional_binding_identifier
  end.

Definition parse_function_expression : P NodeId :=
  save_context_flags ← get_context_flags;
  set_context_flags NodeFlags.DecoratorContext false ;;
  pos ← node_pos;
  modifiers ← parse_modifiers;
  expect Kind.FunctionKeyword ;;
  asterisk_token ← parse_optional_token Kind.AsteriskToken;
  is_async ← modifier_list_has_async modifiers;
  let flags := signature_flags (is_some asterisk_token) is_async in
  name ← parse_function_name (is_some asterisk_token) is_async;
  type_parameters ← parse_type_parameters;
  parameters ← parse_parameters flags;
  return_type ← parse_return_type Kind.ColonToken false;
  body ← parse_function_block flags None;
  put_context_flags save_context_flags ;;
  finish_checked (Node.new Kind.FunctionExpression |> Node.modifiers modifiers |> Node.child asterisk_token
    |> Node.name name |> Node.type_parameters type_parameters |> Node.parameters (Some parameters)
    |> Node.ty return_type |> Node.body (Some body)) pos.

Definition parse_decorated_expression : P NodeId :=
  pos ← node_pos;
  modifiers ← parse_modifiers_ex true false false;
  class ← at_token Kind.ClassKeyword;
  if class : bool then parse_class_declaration_or_expression pos modifiers Kind.ClassExpression
  else
    node_pos ← node_pos;
    parse_error_at node_pos node_pos Expression_expected [] ;;
    finish_node (Node.new Kind.MissingDeclaration |> Node.modifiers modifiers) pos.

Definition parse_new_expression_or_new_dot_target : P NodeId :=
  pos ← node_pos;
  expect Kind.NewKeyword ;;
  dot ← parse_optional Kind.DotToken;
  if dot : bool then
    name ← parse_identifier_name;
    finish_node (Node.new Kind.MetaProperty |> Node.op Kind.NewKeyword |> Node.name (Some name)) pos
  else
    expression_pos ← node_pos;
    primary ← rec_parse_primary_expression;
    expression ← parse_member_expression_rest expression_pos primary false;
    e ← node expression;
    '(expression, type_arguments) ←
      (if Kind.eqb (nkind e) Kind.ExpressionWithTypeArguments then
         inner ← lift (fun _ => unwrap (nexpression e)); ret (inner, ntype_arguments e)
       else ret (expression, None));
    chain ← at_token Kind.QuestionDotToken;
    (if chain : bool then
       text ← text_of_node expression;
       parse_error_at_current_token Invalid_optional_chain_from_new_expression_Did_you_mean_to_call_0 [text]
     else ret tt) ;;
    paren ← at_token Kind.OpenParenToken;
    argument_list ← optionally paren parse_argument_list;
    finish_checked (Node.new Kind.NewExpression |> Node.expression (Some expression) |> Node.child None
      |> Node.type_arguments type_arguments |> Node.list argument_list) pos.

Definition parse_parenthesized_expression : P NodeId :=
  pos ← node_pos;
  expect Kind.OpenParenToken ;;
  expression ← parse_expression_allow_in;
  expect Kind.CloseParenToken ;;
  finish_node (Node.new Kind.ParenthesizedExpression |> Node.expression (Some expression)) pos.

(** ** Primary expressions *)

Definition parse_primary_expression : P NodeId :=
  let otherwise := parse_identifier_with_diagnostic (Some Expression_expected) None in
  tok ← get_token;
  match tok with
  | Kind.NoSubstitutionTemplateLiteral =>
      flags ← scanner_token_flags;
      when (TokenFlags.has flags TokenFlags.IsInvalid) (re_scan_template_token false ;; ret tt) ;;
      parse_literal_expression
  | Kind.NumericLiteral | Kind.BigIntLiteral | Kind.StringLiteral => parse_literal_expression
  | Kind.ThisKeyword | Kind.SuperKeyword | Kind.NullKeyword | Kind.TrueKeyword | Kind.FalseKeyword =>
      parse_keyword_expression
  | Kind.OpenParenToken => parse_parenthesized_expression
  | Kind.OpenBracketToken => parse_array_literal_expression
  | Kind.OpenBraceToken => parse_object_literal_expression
  | Kind.AsyncKeyword =>
      b ← look_ahead next_token_is_function_keyword_on_same_line;
      if b : bool then parse_function_expression else otherwise
  | Kind.AtToken => parse_decorated_expression
  | Kind.ClassKeyword => parse_class_expression
  | Kind.FunctionKeyword => parse_function_expression
  | Kind.NewKeyword => parse_new_expression_or_new_dot_target
  | Kind.SlashToken | Kind.SlashEqualsToken =>
      k ← re_scan_slash_token;
      if Kind.eqb k Kind.RegularExpressionLiteral then parse_literal_expression else otherwise
  | Kind.TemplateHead => parse_template_expression false
  | Kind.PrivateIdentifier => parse_private_identifier
  | _ => otherwise
  end.

Definition parse_member_expression_or_higher : P NodeId :=
  pos ← node_pos;
  expression ← parse_primary_expression;
  parse_member_expression_rest pos expression true.

Definition parse_super_expression : P NodeId :=
  pos ← node_pos;
  expression ← parse_keyword_expression;
  less ← at_token Kind.LessThanToken;
  expression ←
    (if less : bool then
       start_pos ← node_pos;
       type_arguments ← try_parse_type_arguments_in_expression;
       if is_some type_arguments then
         end_ ← node_pos;
         parse_error_at start_pos end_ X_super_may_not_use_type_arguments [] ;;
         template ← is_template_start_of_tagged_template;
         if template : bool then ret expression
         else finish_node (Node.new Kind.ExpressionWithTypeArguments |> Node.expression (Some expression)
                |> Node.type_arguments type_arguments) pos
       else ret expression
     else ret expression);
  tok ← get_token;
  if among tok [Kind.OpenParenToken; Kind.DotToken; Kind.OpenBracketToken] then ret expression
  else
    parse_error_at_current_token X_super_must_be_followed_by_an_argument_list_or_member_access [] ;;
    name ← parse_right_side_of_dot true true true;
    finish_node (Node.new Kind.PropertyAccessExpression |> Node.expression (Some expression) |> Node.child None
      |> Node.name (Some name)) pos.

(** [import.meta], [import.defer]. *)
Definition parse_import_meta_property (pos : nat) : P NodeId :=
  advance_token ;;
  advance_token ;;
  name ← parse_identifier_name;
  expression ← finish_node (Node.new Kind.MetaProperty |> Node.op Kind.ImportKeyword
    |> Node.name (Some name)) pos;
  n ← node name;
  tok ← get_token;
  (if ntext n =s lit "defer" then
     when (among tok [Kind.OpenParenToken; Kind.LessThanToken])
       (add_source_flags NodeFlags.PossiblyContainsDynamicImport)
   else add_source_flags NodeFlags.PossiblyContainsImportMeta) ;;
  ret expression.

Definition parse_left_hand_side_expression_or_higher : P NodeId :=
  pos ← node_pos;
  tok ← get_token;
  expression ←
    (if Kind.eqb tok Kind.ImportKeyword then
       call ← look_ahead next_token_is_open_paren_or_less_than;
       if call : bool then
         add_source_flags NodeFlags.PossiblyContainsDynamicImport ;; parse_keyword_expression
       else
         dot ← look_ahead next_token_is_dot;
         if dot : bool then parse_import_meta_property pos else parse_member_expression_or_higher
     else if Kind.eqb tok Kind.SuperKeyword then parse_super_expression
     else parse_member_expression_or_higher);
  parse_call_expression_rest pos expression.

End expressions.
