(* ===== verification/ParseJsx.v ===== *)
(** * JSX ([surge-ts-tsc-syntax/src/parser/expressions.rs])

    Elements, fragments, attributes and children. The token rescanned for a child
    is passed along without becoming the parser's. *)

From stdpp Require Import gmap sets.
From S2P Require Import Prelude Utf8 RustStr Chars Kind Diagnostics Spelling ScanText ScanState Scan Rescan ParserMessages Ast ParserState ParserPredicates ParserLists JsSyntax ParseTypes ParseClasses ParseExpressions.
Import ParserMessages.

Section jsx.
Context `{UnicodeId} `{UnicodeCase} `{Productions}.

(** ** Names and attributes *)

(** A name, or two separated by a colon. *)
Definition parse_jsx_namespaced_name (otherwise : NodeId -> P NodeId) : P NodeId :=
  pos ← node_pos;
  first ← (scan_jsx_identifier ;; ret tt) ;; parse_identifier_name_error_on_unicode_escape_sequence;
  colon ← parse_optional Kind.ColonToken;
  if colon : bool then
    scan_jsx_identifier ;;
    name ← parse_identifier_name_error_on_unicode_escape_sequence;
    finish_node (Node.new Kind.JsxNamespacedName |> Node.expression (Some first) |> Node.name (Some name)) pos
  else otherwise first.

Definition parse_jsx_attribute_name : P NodeId := parse_jsx_namespaced_name ret.

Definition parse_jsx_tag_name : P NodeId :=
  pos ← node_pos;
  scan_jsx_identifier ;;
  is_this ← at_token Kind.ThisKeyword;
  tag_name ← parse_identifier_name_error_on_unicode_escape_sequence;
  colon ← parse_optional Kind.ColonToken;
  if colon : bool then
    scan_jsx_identifier ;;
    name ← parse_identifier_name_error_on_unicode_escape_sequence;
    finish_node (Node.new Kind.JsxNamespacedName |> Node.expression (Some tag_name) |> Node.name (Some name)) pos
  else if is_this : bool then finish_node (Node.new Kind.ThisKeyword) pos
  else ret tag_name.

Definition parse_jsx_element_name : P NodeId :=
  pos ← node_pos;
  initial_expression ← parse_jsx_tag_name;
  k ← kind_of initial_expression;
  if Kind.eqb k Kind.JsxNamespacedName then ret initial_expression
  else
    loop (L := NodeId) (fun expression =>
      dot ← parse_optional Kind.DotToken;
      if dot : bool then
        name ← parse_right_side_of_dot true false false;
        expression ← finish_node (Node.new Kind.PropertyAccessExpression |> Node.expression (Some expression)
          |> Node.child None |> Node.name (Some name)) pos;
        ret (inl expression)
      else ret (inr expression)) initial_expression.

Definition parse_jsx_expression (in_expression_context : bool) : P (option NodeId) :=
  pos ← node_pos;
  brace ← parse_expected Kind.OpenBraceToken;
  if negb brace then ret None
  else
    close ← at_token Kind.CloseBraceToken;
    '(dot_dot_dot_token, expression) ←
      (if close : bool then ret (None, None)
       else
         dots ← (if in_expression_context then ret None else parse_optional_token Kind.DotDotDotToken);
         expression ← rec_parse_expression;
         ret (dots, Some expression));
    (if in_expression_context then expect Kind.CloseBraceToken
     else
       b ← parse_expected_without_advancing Kind.CloseBraceToken;
       when b (scan_jsx_text ;; ret tt)) ;;
    result ← finish_node (Node.new Kind.JsxExpression |> Node.child dot_dot_dot_token
      |> Node.expression expression) pos;
    ret (Some result).

Definition parse_jsx_spread_attribute : P NodeId :=
  pos ← node_pos;
  expect Kind.OpenBraceToken ;;
  expect Kind.DotDotDotToken ;;
  expression ← rec_parse_expression;
  expect Kind.CloseBraceToken ;;
  finish_node (Node.new Kind.JsxSpreadAttribute |> Node.expression (Some expression)) pos.

Definition parse_jsx_attribute_value : P (option NodeId) :=
  equals ← at_token Kind.EqualsToken;
  if equals : bool then
    k ← scan_jsx_attribute_value;
    if Kind.eqb k Kind.StringLiteral then id ← parse_literal_expression; ret (Some id)
    else if Kind.eqb k Kind.OpenBraceToken then parse_jsx_expression true
    else if Kind.eqb k Kind.LessThanToken then
      id ← rec_parse_jsx_element_or_self_closing_element_or_fragment true None None false;
      ret (Some id)
    else parse_error_at_current_token X_or_JSX_element_expected [] ;; ret None
  else ret None.

Definition parse_jsx_attribute : P NodeId :=
  brace ← at_token Kind.OpenBraceToken;
  if brace : bool then parse_jsx_spread_attribute
  else
    pos ← node_pos;
    name ← parse_jsx_attribute_name;
    initializer ← parse_jsx_attribute_value;
    finish_node (Node.new Kind.JsxAttribute |> Node.name (Some name) |> Node.initializer initializer) pos.

Definition parse_jsx_attributes : P NodeId :=
  pos ← node_pos;
  properties ← parse_list JsxAttributes parse_jsx_attribute;
  finish_node (Node.new Kind.JsxAttributes |> Node.list (Some properties)) pos.

(** ** Tags *)

(** The text after a tag is scanned as JSX text inside an element. *)
Definition leave_tag (in_expression_context : bool) : P unit :=
  if in_expression_context then advance_token else scan_jsx_text ;; ret tt.

Definition parse_jsx_closing_element (open : NodeId) (in_expression_context : bool) : P NodeId :=
  pos ← node_pos;
  expect Kind.LessThanSlashToken ;;
  tag_name ← parse_jsx_element_name;
  b ← parse_expected_with_diagnostic Kind.GreaterThanToken None false;
  (if b : bool then
     if in_expression_context then advance_token
     else
       name ← jsx_tag_name open;
       same ← tag_names_are_equivalent name tag_name;
       leave_tag (negb same)
   else ret tt) ;;
  finish_node (Node.new Kind.JsxClosingElement |> Node.name (Some tag_name)) pos.

Definition parse_jsx_closing_fragment (in_expression_context : bool) : P NodeId :=
  pos ← node_pos;
  expect Kind.LessThanSlashToken ;;
  b ← parse_expected_with_diagnostic Kind.GreaterThanToken
        (Some Expected_corresponding_closing_tag_for_JSX_fragment) false;
  when b (leave_tag in_expression_context) ;;
  finish_node (Node.new Kind.JsxClosingFragment) pos.

Definition parse_jsx_opening_or_self_closing_element_or_opening_fragment (in_expression_context : bool)
    : P NodeId :=
  pos ← node_pos;
  expect Kind.LessThanToken ;;
  fragment ← at_token Kind.GreaterThanToken;
  if fragment : bool then scan_jsx_text ;; finish_node (Node.new Kind.JsxOpeningFragment) pos
  else
    tag_name ← parse_jsx_element_name;
    js ← in_context NodeFlags.JavaScriptFile;
    type_arguments ← (if js : bool then ret None else parse_type_arguments);
    attributes ← parse_jsx_attributes;
    greater ← at_token Kind.GreaterThanToken;
    kind ←
      (if greater : bool then scan_jsx_text ;; ret Kind.JsxOpeningElement
       else
         expect Kind.SlashToken ;;
         b ← parse_expected_without_advancing Kind.GreaterThanToken;
         when b (leave_tag in_expression_context) ;;
         ret Kind.JsxSelfClosingElement);
    finish_node (Node.new kind |> Node.name (Some tag_name) |> Node.type_arguments type_arguments
      |> Node.child (Some attributes)) pos.

(** ** Children *)

Definition parse_jsx_text : P NodeId :=
  pos ← node_pos;
  text ← scanner_token_value;
  flags ← scanner_token_flags;
  scan_jsx_text ;;
  finish_node (Node.new Kind.JsxText |> Node.text text |> Node.token_flags flags) pos.

(** The error at a tag that lacks its closing element. *)
Definition report_unclosed (opening_tag : NodeId) : P unit :=
  o ← node opening_tag;
  if Kind.eqb (nkind o) Kind.JsxOpeningFragment then
    parse_error_at (npos o) (nend o) JSX_fragment_has_no_corresponding_closing_tag []
  else
    tag ← jsx_tag_name opening_tag;
    t ← node tag;
    start ← skip_trivia_at (npos t);
    text ← text_of_node tag;
    parse_error_at (Nat.min start (nend t)) (nend t) JSX_element_0_has_no_corresponding_closing_tag [text].

Definition parse_jsx_child (opening_tag : NodeId) (tok : Kind) : P (option NodeId) :=
  match tok with
  | Kind.EndOfFile => report_unclosed opening_tag ;; ret None
  | Kind.LessThanSlashToken | Kind.ConflictMarkerTrivia => ret None
  | Kind.JsxText | Kind.JsxTextAllWhiteSpaces => id ← parse_jsx_text; ret (Some id)
  | Kind.OpenBraceToken => parse_jsx_expression false
  | Kind.LessThanToken =>
      id ← rec_parse_jsx_element_or_self_closing_element_or_fragment false None (Some opening_tag) false;
      ret (Some id)
  | _ => panic
  end.

(** The element [child] was closed by the closing tag of [opening]. *)
Definition took_closing_of (opening child : NodeId) : P bool :=
  k ← kind_of child;
  if negb (Kind.eqb k Kind.JsxElement) then ret false
  else
    child_opening ← jsx_element_opening child;
    child_closing ← jsx_element_closing child;
    own ← jsx_tag_name child_opening;
    closing ← jsx_tag_name child_closing;
    same ← tag_names_are_equivalent own closing;
    if same : bool then ret false
    else
      name ← jsx_tag_name opening;
      closing ← jsx_element_closing child;
      closing ← jsx_tag_name closing;
      tag_names_are_equivalent name closing.

Definition parse_jsx_children (opening_tag : NodeId) : P NodeList :=
  pos ← node_pos;
  list ← in_parsing_context JsxChildren (loop (L := list NodeId) (fun list =>
    current_token ← scanning (re_scan_jsx_token true);
    child ← parse_jsx_child opening_tag current_token;
    match child with
    | None => ret (inr list)
    | Some child =>
        let list := list ++ [child] in
        k ← kind_of opening_tag;
        took ← and_then (Kind.eqb k Kind.JsxOpeningElement) (took_closing_of opening_tag child);
        ret (if took : bool then inr list else inl list)
    end) []);
  end_ ← node_pos;
  ret (NodeList_new pos end_ list).

(** ** Elements *)

(** An element that took its parent's closing tag gives it back: the element is
    built again with a missing closing tag. *)
Definition reattach_closing (children : NodeList) (last_child : NodeId) : P (NodeList * NodeId) :=
  last_opening ← jsx_element_opening last_child;
  last_children ← jsx_element_children last_child;
  let end_ := lend last_children in
  missing ← new_identifier [];
  missing_identifier ← finish_node_with_end missing end_ end_;
  new_closing_element ←
    finish_node_with_end (Node.new Kind.JsxClosingElement |> Node.name (Some missing_identifier)) end_ end_;
  o ← node last_opening;
  new_last ← finish_node_with_end (Node.new Kind.JsxElement |> Node.child (Some last_opening)
    |> Node.list (Some last_children) |> Node.child (Some new_closing_element)) (npos o) end_;
  n ← node new_last;
  closing_element ← jsx_element_closing last_child;
  ret (NodeList_new (lpos children) (nend n) (removelast (lnodes children) ++ [new_last]), closing_element).

(** The error for a closing tag that is not the opening's. *)
Definition report_mismatched_tags (opening : NodeId) (opening_tag : option NodeId) (closing_element : NodeId)
    : P unit :=
  opening_tag_name ← jsx_tag_name opening;
  closing_tag_name ← jsx_tag_name closing_element;
  same ← tag_names_are_equivalent opening_tag_name closing_tag_name;
  if same : bool then ret tt
  else
    parents ←
      (match opening_tag with
       | Some opening_tag =>
           k ← kind_of opening_tag;
           and_then (Kind.eqb k Kind.JsxOpeningElement)
             (name ← jsx_tag_name opening_tag; tag_names_are_equivalent closing_tag_name name)
       | None => ret false
       end);
    text ← text_of_node opening_tag_name;
    at_ ← node (if parents : bool then opening_tag_name else closing_tag_name);
    parse_error_at (npos at_) (nend at_)
      (if parents : bool then JSX_element_0_has_no_corresponding_closing_tag
       else Expected_corresponding_JSX_closing_tag_for_0) [text].

(** The children and closing tag of an opening element. *)
Definition parse_jsx_element_rest (pos : nat) (opening : NodeId) (opening_tag : option NodeId)
    (in_expression_context : bool) : P NodeId :=
  children ← parse_jsx_children opening;
  took ← (match last (lnodes children) with
          | Some last_child => took_closing_of opening last_child
          | None => ret false
          end);
  '(children, closing_element) ←
    (match took, last (lnodes children) with
     | true, Some last_child => reattach_closing children last_child
     | _, _ =>
         closing_element ← parse_jsx_closing_element opening in_expression_context;
         report_mismatched_tags opening opening_tag closing_element ;;
         ret (children, closing_element)
     end);
  finish_node (Node.new Kind.JsxElement |> Node.child (Some opening) |> Node.list (Some children)
    |> Node.child (Some closing_element)) pos.

(** Two elements in an expression: the second is parsed and a comma put between
    them, for the error. *)
Definition parse_jsx_sibling (pos : nat) (result : NodeId) (top_invalid_node_position : option nat) : P NodeId :=
  r ← node result;
  let top_bad_pos := default (npos r) top_invalid_node_position in
  invalid_element ← rec_parse_jsx_element_or_self_closing_element_or_fragment true (Some top_bad_pos) None false;
  i ← node invalid_element;
  operator_token ← push_node (Node.new Kind.CommaToken |> Node.at_range (npos i) (npos i));
  start ← skip_trivia_at top_bad_pos;
  i ← node invalid_element;
  parse_error_at start (nend i) JSX_expressions_must_have_one_parent_element [] ;;
  finish_node (Node.new Kind.BinaryExpression |> Node.modifiers None |> Node.child (Some result)
    |> Node.child (Some operator_token) |> Node.child (Some invalid_element) |> Node.op Kind.CommaToken) pos.

Definition parse_jsx_element_or_self_closing_element_or_fragment (in_expression_context : bool)
    (top_invalid_node_position : option nat) (opening_tag : option NodeId) (must_be_unary : bool) : P NodeId :=
  pos ← node_pos;
  opening ← parse_jsx_opening_or_self_closing_element_or_opening_fragment in_expression_context;
  k ← kind_of opening;
  result ←
    (match k with
     | Kind.JsxOpeningElement => parse_jsx_element_rest pos opening opening_tag in_expression_context
     | Kind.JsxOpeningFragment =>
         children ← parse_jsx_children opening;
         closing ← parse_jsx_closing_fragment in_expression_context;
         finish_node (Node.new Kind.JsxFragment |> Node.child (Some opening) |> Node.list (Some children)
           |> Node.child (Some closing)) pos
     | Kind.JsxSelfClosingElement => ret opening
     | _ => panic
     end);
  less ← at_token Kind.LessThanToken;
  if negb must_be_unary && in_expression_context && less
  then parse_jsx_sibling pos result top_invalid_node_position
  else ret result.
End jsx.
