(* ===== verification/ParseOperators.v ===== *)
(** * Operators and arrow functions ([surge-ts-tsc-syntax/src/parser/expressions.rs])

    Unary and binary expressions, arrow functions with the speculation that tells
    them from parenthesized expressions, and assignment expressions. *)

From stdpp Require Import gmap sets.
From S2P Require Import Prelude Utf8 RustStr Chars Kind Diagnostics Spelling ScanText ScanState Scan Rescan ParserMessages Ast ParserState ParserPredicates ParserLists JsSyntax ParseTypes ParseClasses ParseExpressions ParseJsx.
Import ParserMessages.

Section operators.
Context `{UnicodeId} `{UnicodeCase} `{Productions}.

(** ** Unary expressions *)

Definition parse_update_expression : P NodeId :=
  pos ← node_pos;
  operator ← get_token;
  in_jsx ← gets jsx;
  if among operator [Kind.PlusPlusToken; Kind.MinusMinusToken] then
    advance_token ;;
    operand ← parse_left_hand_side_expression_or_higher;
    finish_node (Node.new Kind.PrefixUnaryExpression |> Node.op operator
      |> Node.expression (Some operand)) pos
  else
    element ← and_then (in_jsx && Kind.eqb operator Kind.LessThanToken)
                (look_ahead next_token_is_identifier_or_keyword_or_greater_than);
    if element : bool then parse_jsx_element_or_self_closing_element_or_fragment true None None false
    else
      expression ← parse_left_hand_side_expression_or_higher;
      operator ← get_token;
      br ← has_preceding_line_break;
      if among operator [Kind.PlusPlusToken; Kind.MinusMinusToken] && negb br then
        advance_token ;;
        finish_node (Node.new Kind.PostfixUnaryExpression |> Node.op operator
          |> Node.expression (Some expression)) pos
      else ret expression.

(** [parse_delete_expression], [parse_type_of_expression], [parse_void_expression]
    and [parse_await_expression] have one body. *)
Definition parse_keyword_unary_expression (kind : Kind) : P NodeId :=
  pos ← node_pos;
  advance_token ;;
  expression ← rec_parse_simple_unary_expression;
  finish_node (Node.new kind |> Node.expression (Some expression)) pos.

Definition parse_delete_expression : P NodeId := parse_keyword_unary_expression Kind.DeleteExpression.
Definition parse_type_of_expression : P NodeId := parse_keyword_unary_expression Kind.TypeOfExpression.
Definition parse_void_expression : P NodeId := parse_keyword_unary_expression Kind.VoidExpression.
Definition parse_await_expression : P NodeId := parse_keyword_unary_expression Kind.AwaitExpression.

Definition parse_prefix_unary_expression : P NodeId :=
  pos ← node_pos;
  operator ← get_token;
  advance_token ;;
  operand ← rec_parse_simple_unary_expression;
  finish_node (Node.new Kind.PrefixUnaryExpression |> Node.op operator |> Node.expression (Some operand)) pos.

Definition parse_type_assertion : P NodeId :=
  in_jsx ← gets jsx;
  debug_assert (negb in_jsx) ;;
  pos ← node_pos;
  expect Kind.LessThanToken ;;
  type_node ← parse_type;
  expect Kind.GreaterThanToken ;;
  expression ← rec_parse_simple_unary_expression;
  finish_node (Node.new Kind.TypeAssertionExpression |> Node.ty (Some type_node)
    |> Node.expression (Some expression)) pos.

Definition parse_simple_unary_expression : P NodeId :=
  tok ← get_token;
  match tok with
  | Kind.PlusToken | Kind.MinusToken | Kind.TildeToken | Kind.ExclamationToken => parse_prefix_unary_expression
  | Kind.DeleteKeyword => parse_delete_expression
  | Kind.TypeOfKeyword => parse_type_of_expression
  | Kind.VoidKeyword => parse_void_expression
  | Kind.LessThanToken =>
      in_jsx ← gets jsx;
      if in_jsx : bool then parse_jsx_element_or_self_closing_element_or_fragment true None None true
      else parse_type_assertion
  | Kind.AwaitKeyword =>
      b ← is_await_expression;
      if b : bool then parse_await_expression else parse_update_expression
  | _ => parse_update_expression
  end.

(** ** Binary expressions *)

Definition make_satisfies_expression (expression type_node : NodeId) : P NodeId :=
  n ← node expression;
  finish_checked (Node.new Kind.SatisfiesExpression |> Node.expression (Some expression)
    |> Node.ty (Some type_node)) (npos n).

Definition make_as_expression (left right : NodeId) : P NodeId :=
  n ← node left;
  finish_checked (Node.new Kind.AsExpression |> Node.expression (Some left) |> Node.ty (Some right)) (npos n).

(** [as] and [satisfies]: the operand, and whether an operator that binds
    tighter than the one before them follows. *)
Definition parse_as_rest (operator : Kind) (left_operand last_operand : NodeId) : P (NodeId * bool) :=
  advance_token ;;
  l ← node last_operand;
  let last_precedence :=
    if Kind.eqb (nkind l) Kind.BinaryExpression then get_binary_operator_precedence (nop l) else Highest in
  ty ← parse_type;
  left_operand ← (if Kind.eqb operator Kind.SatisfiesKeyword then make_satisfies_expression left_operand ty
                  else make_as_expression left_operand ty);
  next ← re_scan_greater_than_token;
  ret (left_operand, precedence_lt last_precedence (get_binary_operator_precedence next)).

Definition parse_binary_expression_rest (precedence : OperatorPrecedence) (left_operand : NodeId) (pos : nat)
    : P NodeId :=
  loop (L := NodeId * NodeId) (fun '(left_operand, last_operand) =>
    operator ← re_scan_greater_than_token;
    let new_precedence := get_binary_operator_precedence operator in
    let consume_current_operator :=
      if Kind.eqb operator Kind.AsteriskAsteriskToken then precedence_le precedence new_precedence
      else precedence_lt precedence new_precedence in
    disallow_in ← in_disallow_in_context;
    br ← has_preceding_line_break;
    if negb consume_current_operator then ret (inr left_operand)
    else if Kind.eqb operator Kind.InKeyword && disallow_in then ret (inr left_operand)
    else if among operator [Kind.AsKeyword; Kind.SatisfiesKeyword] then
      if br : bool then ret (inr left_operand)
      else
        '(left_operand, tighter) ← parse_as_rest operator left_operand last_operand;
        ret (if tighter : bool then inr left_operand else inl (left_operand, last_operand))
    else
      operator_token ← parse_token_node;
      right ← rec_parse_binary_expression_or_higher new_precedence;
      left_operand ← make_binary_expression left_operand operator_token right pos;
      ret (inl (left_operand, left_operand))) (left_operand, left_operand).

Definition report_exponentiation_operand (unary_operator : Kind) (operand : NodeId) : P unit :=
  n ← node operand;
  pos ← skip_trivia_at (npos n);
  if Kind.eqb (nkind n) Kind.TypeAssertionExpression then
    parse_error_at pos (nend n)
      A_type_assertion_expression_is_not_allowed_in_the_left_hand_side_of_an_exponentiation_expression_Consider_enclosing_the_expression_in_parentheses []
  else
    parse_error_at pos (nend n)
      An_unary_expression_with_the_0_operator_is_not_allowed_in_the_left_hand_side_of_an_exponentiation_expression_Consider_enclosing_the_expression_in_parentheses
      [token_to_string unary_operator].

Definition parse_unary_expression_or_higher : P NodeId :=
  update ← is_update_expression;
  if update : bool then
    pos ← node_pos;
    update_expression ← parse_update_expression;
    tok ← get_token;
    if Kind.eqb tok Kind.AsteriskAsteriskToken then
      parse_binary_expression_rest (get_binary_operator_precedence tok) update_expression pos
    else ret update_expression
  else
    unary_operator ← get_token;
    simple_unary_expression ← parse_simple_unary_expression;
    power ← at_token Kind.AsteriskAsteriskToken;
    when power (report_exponentiation_operand unary_operator simple_unary_expression) ;;
    ret simple_unary_expression.

Definition parse_binary_expression_or_higher (precedence : OperatorPrecedence) : P NodeId :=
  pos ← node_pos;
  left_operand ← parse_unary_expression_or_higher;
  parse_binary_expression_rest precedence left_operand pos.

(** ** Arrow functions *)

(** [(] begins the parameters of an arrow function, by the tokens after it. *)
Definition next_is_arrow_parameters (second : Kind) : P Tristate :=
  if Kind.eqb second Kind.CloseParenToken then
    third ← next_token;
    ret (if among third [Kind.EqualsGreaterThanToken; Kind.ColonToken; Kind.OpenBraceToken] then TTrue else TFalse)
  else if among second [Kind.OpenBracketToken; Kind.OpenBraceToken] then ret TUnknown
  else if Kind.eqb second Kind.DotDotDotToken then ret TTrue
  else
    modified ← and_then (is_modifier_kind second && negb (Kind.eqb second Kind.AsyncKeyword))
                 (look_ahead next_token_is_identifier);
    if modified : bool then
      k ← next_token; ret (if Kind.eqb k Kind.AsKeyword then TFalse else TTrue)
    else
      id ← is_identifier;
      if negb id && negb (Kind.eqb second Kind.ThisKeyword) then ret TFalse
      else
        k ← next_token;
        if Kind.eqb k Kind.ColonToken then ret TTrue
        else if Kind.eqb k Kind.QuestionToken then
          k ← next_token;
          ret (if among k [Kind.ColonToken; Kind.CommaToken; Kind.EqualsToken; Kind.CloseParenToken] then TTrue
               else TFalse)
        else ret (if among k [Kind.CommaToken; Kind.EqualsToken; Kind.CloseParenToken] then TUnknown else TFalse).

(** In a JSX file: [<T extends U>], [<T,>] and [<T = U>] begin arrow functions. *)
Definition is_arrow_function_in_jsx : P bool :=
  parse_optional Kind.ConstKeyword ;;
  third ← next_token;
  if Kind.eqb third Kind.ExtendsKeyword then
    fourth ← next_token;
    ret (negb (among fourth [Kind.EqualsToken; Kind.GreaterThanToken; Kind.SlashToken]))
  else ret (among third [Kind.CommaToken; Kind.EqualsToken]).

Definition next_is_arrow_type_parameters : P Tristate :=
  id ← is_identifier;
  const ← at_token Kind.ConstKeyword;
  if negb id && negb const then ret TFalse
  else
    in_jsx ← gets jsx;
    if in_jsx : bool then
      b ← look_ahead is_arrow_function_in_jsx; ret (if b : bool then TTrue else TFalse)
    else ret TUnknown.

Definition next_is_parenthesized_arrow_function_expression : P Tristate :=
  async ← at_token Kind.AsyncKeyword;
  stop ←
    (if async : bool then
       k ← next_token;
       br ← has_preceding_line_break;
       ret (br || negb (among k [Kind.OpenParenToken; Kind.LessThanToken]))
     else ret false);
  if stop : bool then ret TFalse
  else
    first ← get_token;
    second ← next_token;
    if Kind.eqb first Kind.OpenParenToken then next_is_arrow_parameters second
    else debug_assert (Kind.eqb first Kind.LessThanToken) ;; next_is_arrow_type_parameters.

Definition is_parenthesized_arrow_function_expression : P Tristate :=
  tok ← get_token;
  if among tok [Kind.OpenParenToken; Kind.LessThanToken; Kind.AsyncKeyword] then
    look_ahead next_is_parenthesized_arrow_function_expression
  else ret (if Kind.eqb tok Kind.EqualsGreaterThanToken then TTrue else TFalse).

Definition parse_modifiers_for_arrow_function : P (option NodeList) := parse_single_modifier Kind.AsyncKeyword.

Definition await_flag (is_async : bool) : Z := if is_async then ParseFlags.Await else ParseFlags.None.

Definition parse_arrow_function_expression_body (is_async allow_return_type_in_arrow_function : bool) : P NodeId :=
  tok ← get_token;
  if Kind.eqb tok Kind.OpenBraceToken then parse_function_block (await_flag is_async) None
  else
    statement ← (if negb (among tok [Kind.SemicolonToken; Kind.FunctionKeyword; Kind.ClassKeyword]) then
                   s ← is_start_of_statement;
                   and_then s (e ← is_start_of_expression_statement; ret (negb e))
                 else ret false);
    if statement : bool then
      parse_function_block (Z.lor ParseFlags.IgnoreMissingOpenBrace (await_flag is_async)) None
    else
      save_context_flags ← get_context_flags;
      set_context_flags NodeFlags.AwaitContext is_async ;;
      set_context_flags NodeFlags.YieldContext false ;;
      node ← rec_parse_assignment_expression_or_higher_worker allow_return_type_in_arrow_function;
      put_context_flags save_context_flags ;;
      ret node.

(** The parameters of a parenthesized arrow function: [None] gives it up. *)
Definition parse_arrow_parameters (flags : Z) (allow_ambiguity : bool) : P (option NodeList) :=
  paren ← parse_expected Kind.OpenParenToken;
  if negb paren then
    if allow_ambiguity then list ← create_missing_list; ret (Some list) else ret None
  else
    parameters ← parse_parameters_worker flags allow_ambiguity;
    match parameters with
    | None => ret None
    | Some parameters =>
        close ← parse_expected Kind.CloseParenToken;
        ret (if negb close && negb allow_ambiguity then None else Some parameters)
    end.

(** Where the body of an arrow function may begin, or ambiguity is allowed. *)
Definition arrow_follows (allow_ambiguity : bool) (return_type : option NodeId) : P bool :=
  if allow_ambiguity then ret true
  else
    blocked ← (match return_type with
               | Some ty => type_has_arrow_function_blocking_parse_error ty
               | None => ret false
               end);
    tok ← get_token;
    ret (negb blocked && among tok [Kind.EqualsGreaterThanToken; Kind.OpenBraceToken]).

(** The arrow and the body. *)
Definition parse_arrow_and_body (is_async allow_return_type_in_arrow_function : bool) : P (NodeId * NodeId) :=
  last_token ← get_token;
  equals_greater_than_token ← parse_expected_token Kind.EqualsGreaterThanToken;
  body ← (if among last_token [Kind.EqualsGreaterThanToken; Kind.OpenBraceToken]
          then parse_arrow_function_expression_body is_async allow_return_type_in_arrow_function
          else parse_identifier);
  ret (equals_greater_than_token, body).

Definition parse_parenthesized_arrow_function_expression
    (allow_ambiguity allow_return_type_in_arrow_function : bool) : P (option NodeId) :=
  pos ← node_pos;
  modifiers ← parse_modifiers_for_arrow_function;
  is_async ← modifier_list_has_async modifiers;
  type_parameters ← parse_type_parameters;
  parameters ← parse_arrow_parameters (await_flag is_async) allow_ambiguity;
  match parameters with
  | None => ret None
  | Some parameters =>
      has_return_colon ← at_token Kind.ColonToken;
      return_type ← parse_return_type Kind.ColonToken false;
      follows ← arrow_follows allow_ambiguity return_type;
      if negb follows then ret None
      else
        '(equals_greater_than_token, body) ← parse_arrow_and_body is_async allow_return_type_in_arrow_function;
        colon ← at_token Kind.ColonToken;
        if negb allow_return_type_in_arrow_function && has_return_colon && negb colon then ret None
        else
          result ← finish_checked (Node.new Kind.ArrowFunction |> Node.modifiers modifiers
            |> Node.type_parameters type_parameters |> Node.parameters (Some parameters) |> Node.ty return_type
            |> Node.child (Some equals_greater_than_token) |> Node.body (Some body)) pos;
          ret (Some result)
  end.

Definition parse_possible_parenthesized_arrow_function_expression (allow_return_type_in_arrow_function : bool)
    : P (option NodeId) :=
  token_pos ← scanner_token_start;
  seen ← gets (fun p => bool_decide (token_pos ∈ not_parenthesized_arrow p));
  if seen : bool then ret None
  else
    result ← parse_parenthesized_arrow_function_expression false allow_return_type_in_arrow_function;
    match result with
    | None =>
        modify (fun p => with_not_parenthesized_arrow ({[token_pos]} ∪ not_parenthesized_arrow p) p) ;; ret None
    | Some _ => ret result
    end.

Definition try_parse_parenthesized_arrow_function_expression (allow_return_type_in_arrow_function : bool)
    : P (option NodeId) :=
  tristate ← is_parenthesized_arrow_function_expression;
  match tristate with
  | TFalse => ret None
  | TTrue => parse_parenthesized_arrow_function_expression true true
  | TUnknown =>
      st ← mark;
      result ← parse_possible_parenthesized_arrow_function_expression allow_return_type_in_arrow_function;
      match result with
      | None => rewind st ;; ret None
      | Some _ => ret result
      end
  end.

Definition parse_simple_arrow_function_expression (pos : nat) (identifier : NodeId)
    (allow_return_type_in_arrow_function : bool) (async_modifier : option NodeList) : P NodeId :=
  arrow ← at_token Kind.EqualsGreaterThanToken;
  debug_assert arrow ;;
  i ← node identifier;
  parameter ← finish_node (Node.new Kind.Parameter_ |> Node.modifiers None |> Node.child None
    |> Node.name (Some identifier) |> Node.question None |> Node.ty None |> Node.initializer None) (npos i);
  n ← node parameter;
  let parameters := NodeList_new (npos n) (nend n) [parameter] in
  equals_greater_than_token ← parse_expected_token Kind.EqualsGreaterThanToken;
  body ← parse_arrow_function_expression_body (is_some async_modifier) allow_return_type_in_arrow_function;
  finish_node (Node.new Kind.ArrowFunction |> Node.modifiers async_modifier |> Node.type_parameters None
    |> Node.parameters (Some parameters) |> Node.ty None |> Node.child (Some equals_greater_than_token)
    |> Node.body (Some body)) pos.

Definition next_is_un_parenthesized_async_arrow_function : P bool :=
  async ← at_token Kind.AsyncKeyword;
  if async : bool then
    k ← next_token;
    br ← has_preceding_line_break;
    if br || Kind.eqb k Kind.EqualsGreaterThanToken then ret false
    else
      expr ← parse_binary_expression_or_higher Lowest;
      e ← kind_of expr;
      br ← has_preceding_line_break;
      arrow ← at_token Kind.EqualsGreaterThanToken;
      ret (negb br && Kind.eqb e Kind.Identifier && arrow)
  else ret false.

Definition try_parse_async_simple_arrow_function_expression (allow_return_type_in_arrow_function : bool)
    : P (option NodeId) :=
  async ← at_token Kind.AsyncKeyword;
  b ← and_then async (look_ahead next_is_un_parenthesized_async_arrow_function);
  if b : bool then
    pos ← node_pos;
    async_modifier ← parse_modifiers_for_arrow_function;
    expr ← parse_binary_expression_or_higher Lowest;
    result ← parse_simple_arrow_function_expression pos expr allow_return_type_in_arrow_function async_modifier;
    ret (Some result)
  else ret None.

(** ** Assignment expressions *)

Definition parse_yield_expression : P NodeId :=
  pos ← node_pos;
  advance_token ;;
  br ← has_preceding_line_break;
  asterisk ← at_token Kind.AsteriskToken;
  operand ← (if br : bool then ret false else or_else asterisk is_start_of_expression);
  if operand : bool then
    asterisk_token ← parse_optional_token Kind.AsteriskToken;
    expression ← parse_assignment_expression_or_higher;
    finish_node (Node.new Kind.YieldExpression |> Node.child asterisk_token
      |> Node.expression (Some expression)) pos
  else finish_node (Node.new Kind.YieldExpression |> Node.child None) pos.

Definition parse_conditional_expression_rest (left_operand : NodeId) (pos : nat)
    (allow_return_type_in_arrow_function : bool) : P NodeId :=
  question_token ← parse_optional_token Kind.QuestionToken;
  match question_token with
  | None => ret left_operand
  | Some question_token =>
      true_expression ← do_in_context NodeFlags.DisallowInContext false
        (rec_parse_assignment_expression_or_higher_worker false);
      colon_token ← parse_expected_token Kind.ColonToken;
      present ← node_is_present (Some colon_token);
      false_expression ←
        (if present : bool
         then rec_parse_assignment_expression_or_higher_worker allow_return_type_in_arrow_function
         else create_missing_identifier);
      finish_node (Node.new Kind.ConditionalExpression |> Node.child (Some left_operand)
        |> Node.child (Some question_token) |> Node.child (Some true_expression)
        |> Node.child (Some colon_token) |> Node.child (Some false_expression)) pos
  end.

(** After a binary expression: an arrow, an assignment or a condition. *)
Definition parse_assignment_rest (expr : NodeId) (pos : nat) (allow_return_type_in_arrow_function : bool)
    : P NodeId :=
  k ← kind_of expr;
  arrow ← at_token Kind.EqualsGreaterThanToken;
  if Kind.eqb k Kind.Identifier && arrow then
    parse_simple_arrow_function_expression pos expr allow_return_type_in_arrow_function None
  else
    assigns ← (if is_left_hand_side_expression_kind k
               then t ← re_scan_greater_than_token; ret (is_assignment_operator t) else ret false);
    if assigns : bool then
      operator_token ← parse_token_node;
      right ← rec_parse_assignment_expression_or_higher_worker allow_return_type_in_arrow_function;
      make_binary_expression expr operator_token right pos
    else parse_conditional_expression_rest expr pos allow_return_type_in_arrow_function.

Definition parse_assignment_expression_or_higher_worker (allow_return_type_in_arrow_function : bool) : P NodeId :=
  yield ← is_yield_expression;
  if yield : bool then parse_yield_expression
  else
    arrow_expression ← try_parse_parenthesized_arrow_function_expression allow_return_type_in_arrow_function;
    match arrow_expression with
    | Some arrow_expression => ret arrow_expression
    | None =>
        arrow_expression ← try_parse_async_simple_arrow_function_expression allow_return_type_in_arrow_function;
        match arrow_expression with
        | Some arrow_expression => ret arrow_expression
        | None =>
            pos ← node_pos;
            expr ← parse_binary_expression_or_higher Lowest;
            parse_assignment_rest expr pos allow_return_type_in_arrow_function
        end
    end.

(** [a, b, c] *)
Definition parse_expression : P NodeId :=
  save_context_flags ← get_context_flags;
  put_context_flags (NodeFlags.without save_context_flags NodeFlags.DecoratorContext) ;;
  pos ← node_pos;
  expr ← parse_assignment_expression_or_higher_worker true;
  expr ← loop (L := NodeId) (fun expr =>
    operator_token ← parse_optional_token Kind.CommaToken;
    match operator_token with
    | None => ret (inr expr)
    | Some operator_token =>
        right ← parse_assignment_expression_or_higher_worker true;
        expr ← make_binary_expression expr operator_token right pos;
        ret (inl expr)
    end) expr;
  put_context_flags save_context_flags ;;
  ret expr.
End operators.
