(* ===== verification/ParseStatements.v ===== *)
(** * Statements ([surge-ts-tsc-syntax/src/parser/statements.rs])

    Control flow, variables, functions, interfaces, aliases, enums, modules,
    imports and exports, and the statement that chooses among them. *)

From stdpp Require Import gmap sets.
From S2P Require Import Prelude Utf8 RustStr Chars Kind Diagnostics Spelling ScanText ScanState Scan Rescan ParserMessages Ast ParserState ParserPredicates ParserLists JsSyntax ParseTypes ParseClasses ParseExpressions ParseJsx ParseOperators.
Import ParserMessages.

Section statements.
Context `{UnicodeId} `{UnicodeCase} `{Productions}.

Definition parse_expression_in (value : bool) : P NodeId :=
  do_in_context NodeFlags.DisallowInContext value parse_expression.

Definition expression_allow_in : P NodeId := parse_expression_in false.

(** ** Control flow *)

Definition parse_empty_statement : P NodeId :=
  pos ← node_pos;
  expect Kind.SemicolonToken ;;
  finish_node (Node.new Kind.EmptyStatement) pos.

(** [( expression )] *)
Definition parse_condition : P NodeId :=
  expect Kind.OpenParenToken ;;
  expression ← expression_allow_in;
  parse_expected_matching_brackets Kind.CloseParenToken ;;
  ret expression.

Definition parse_if_statement : P NodeId :=
  pos ← node_pos;
  expect Kind.IfKeyword ;;
  expression ← parse_condition;
  then_statement ← rec_parse_statement;
  else_ ← parse_optional Kind.ElseKeyword;
  else_statement ← optionally else_ rec_parse_statement;
  finish_node (Node.new Kind.IfStatement |> Node.expression (Some expression) |> Node.child (Some then_statement)
    |> Node.child else_statement) pos.

Definition parse_do_statement : P NodeId :=
  pos ← node_pos;
  expect Kind.DoKeyword ;;
  statement ← rec_parse_statement;
  expect Kind.WhileKeyword ;;
  expression ← parse_condition;
  parse_optional Kind.SemicolonToken ;;
  finish_node (Node.new Kind.DoStatement |> Node.child (Some statement)
    |> Node.expression (Some expression)) pos.

Definition parse_while_statement : P NodeId :=
  pos ← node_pos;
  expect Kind.WhileKeyword ;;
  expression ← parse_condition;
  statement ← rec_parse_statement;
  finish_node (Node.new Kind.WhileStatement |> Node.expression (Some expression)
    |> Node.child (Some statement)) pos.

Definition parse_with_statement : P NodeId :=
  pos ← node_pos;
  expect Kind.WithKeyword ;;
  expression ← parse_condition;
  statement ← do_in_context NodeFlags.InWithStatement true rec_parse_statement;
  finish_node (Node.new Kind.WithStatement |> Node.expression (Some expression)
    |> Node.child (Some statement)) pos.

Definition parse_break_statement : P NodeId :=
  pos ← node_pos;
  expect Kind.BreakKeyword ;;
  label ← parse_identifier_unless_at_semicolon;
  parse_semicolon ;;
  finish_node (Node.new Kind.BreakStatement |> Node.child label) pos.

Definition parse_continue_statement : P NodeId :=
  pos ← node_pos;
  expect Kind.ContinueKeyword ;;
  label ← parse_identifier_unless_at_semicolon;
  parse_semicolon ;;
  finish_node (Node.new Kind.ContinueStatement |> Node.child label) pos.

Definition parse_return_statement : P NodeId :=
  pos ← node_pos;
  expect Kind.ReturnKeyword ;;
  semicolon ← can_parse_semicolon;
  expression ← optionally (negb semicolon) expression_allow_in;
  parse_semicolon ;;
  finish_node (Node.new Kind.ReturnStatement |> Node.expression expression) pos.

Definition parse_case_clause : P NodeId :=
  pos ← node_pos;
  expect Kind.CaseKeyword ;;
  expression ← expression_allow_in;
  expect Kind.ColonToken ;;
  statements ← parse_list SwitchClauseStatements rec_parse_statement;
  finish_node (Node.new Kind.CaseClause |> Node.expression (Some expression)
    |> Node.list (Some statements)) pos.

Definition parse_default_clause : P NodeId :=
  pos ← node_pos;
  expect Kind.DefaultKeyword ;;
  expect Kind.ColonToken ;;
  statements ← parse_list SwitchClauseStatements rec_parse_statement;
  finish_node (Node.new Kind.DefaultClause |> Node.list (Some statements)) pos.

Definition parse_case_or_default_clause : P NodeId :=
  b ← at_token Kind.CaseKeyword; if b : bool then parse_case_clause else parse_default_clause.

Definition parse_case_block : P NodeId :=
  pos ← node_pos;
  expect Kind.OpenBraceToken ;;
  clauses ← parse_list SwitchClauses parse_case_or_default_clause;
  expect Kind.CloseBraceToken ;;
  finish_node (Node.new Kind.CaseBlock |> Node.list (Some clauses)) pos.

Definition parse_switch_statement : P NodeId :=
  pos ← node_pos;
  expect Kind.SwitchKeyword ;;
  expect Kind.OpenParenToken ;;
  expression ← expression_allow_in;
  expect Kind.CloseParenToken ;;
  case_block ← parse_case_block;
  finish_node (Node.new Kind.SwitchStatement |> Node.expression (Some expression)
    |> Node.child (Some case_block)) pos.

(** A semicolon, or the error that it is missing after the expression. *)
Definition end_statement_after (expression : NodeId) : P unit :=
  b ← try_parse_semicolon;
  if b : bool then ret tt else parse_error_for_missing_semicolon_after expression.

Definition parse_throw_statement : P NodeId :=
  pos ← node_pos;
  expect Kind.ThrowKeyword ;;
  br ← has_preceding_line_break;
  expression ← (if negb br then expression_allow_in else create_missing_identifier);
  end_statement_after expression ;;
  finish_node (Node.new Kind.ThrowStatement |> Node.expression (Some expression)) pos.

Definition parse_debugger_statement : P NodeId :=
  pos ← node_pos;
  expect Kind.DebuggerKeyword ;;
  parse_semicolon ;;
  finish_node (Node.new Kind.DebuggerStatement) pos.

Definition parse_expression_or_labeled_statement : P NodeId :=
  pos ← node_pos;
  expression ← parse_expression;
  k ← kind_of expression;
  label ← (if Kind.eqb k Kind.Identifier then parse_optional Kind.ColonToken else ret false);
  if label : bool then
    statement ← rec_parse_statement;
    finish_node (Node.new Kind.LabeledStatement |> Node.child (Some expression)
      |> Node.child (Some statement)) pos
  else
    end_statement_after expression ;;
    finish_node (Node.new Kind.ExpressionStatement |> Node.expression (Some expression)) pos.

(** ** Variables *)

Definition parse_variable_declaration_worker (allow_exclamation : bool) : P NodeId :=
  pos ← node_pos;
  name ← parse_identifier_or_pattern_with_diagnostic
           (Some Private_identifiers_are_not_allowed_in_variable_declarations);
  k ← kind_of name;
  exclamation ← at_token Kind.ExclamationToken;
  br ← has_preceding_line_break;
  exclamation_token ← optionally (allow_exclamation && Kind.eqb k Kind.Identifier && exclamation && negb br)
                        parse_token_node;
  type_node ← parse_type_annotation;
  tok ← get_token;
  initializer ← (if among tok [Kind.InKeyword; Kind.OfKeyword] then ret None else parse_initializer);
  finish_checked (Node.new Kind.VariableDeclaration |> Node.name (Some name) |> Node.child exclamation_token
    |> Node.ty type_node |> Node.initializer initializer) pos.

Definition parse_variable_declaration : P NodeId := parse_variable_declaration_worker false.

(** The keyword of a declaration list; of [await using], the first. *)
Definition parse_variable_keyword : P Z :=
  tok ← get_token;
  match tok with
  | Kind.VarKeyword => ret NodeFlags.None
  | Kind.LetKeyword => ret NodeFlags.Let
  | Kind.ConstKeyword => ret NodeFlags.Const
  | Kind.UsingKeyword => ret NodeFlags.Using
  | Kind.AwaitKeyword =>
      b ← is_await_using_declaration;
      if b : bool then advance_token ;; ret NodeFlags.AwaitUsing else ret NodeFlags.None
  | _ => panic
  end.

Definition parse_variable_declaration_list (in_for_statement_initializer : bool) : P NodeId :=
  pos ← node_pos;
  flags ← parse_variable_keyword;
  advance_token ;;
  is_of ← at_token Kind.OfKeyword;
  empty ← and_then is_of (look_ahead next_is_identifier_and_close_paren);
  declarations ←
    (if empty : bool then create_missing_list
     else
       do_in_context NodeFlags.DisallowInContext in_for_statement_initializer
         (parse_delimited_list VariableDeclarations
            (parse_variable_declaration_worker (negb in_for_statement_initializer))));
  finish_node (Node.new Kind.VariableDeclarationList |> Node.list (Some declarations) |> Node.flags flags) pos.

Definition parse_variable_statement (pos : nat) (modifiers : option NodeList) : P NodeId :=
  declaration_list ← parse_variable_declaration_list false;
  parse_semicolon ;;
  finish_checked (Node.new Kind.VariableStatement |> Node.modifiers modifiers
    |> Node.child (Some declaration_list)) pos.

(** What a [for] begins with, when it is not a semicolon. *)
Definition parse_for_initializer : P NodeId :=
  tok ← get_token;
  declares ←
    (if among tok [Kind.VarKeyword; Kind.LetKeyword; Kind.ConstKeyword] then ret true
     else if Kind.eqb tok Kind.UsingKeyword then
       look_ahead next_token_is_binding_identifier_or_start_of_destructuring_on_same_line_disallow_of
     else and_then (Kind.eqb tok Kind.AwaitKeyword)
            (look_ahead next_is_using_keyword_then_binding_identifier_or_start_of_object_destructuring_on_same_line));
  if declares : bool then parse_variable_declaration_list true else parse_expression_in true.

(** After the initializer of a [for]: [of], [in] or the two semicolons. *)
Definition parse_for_rest (await_token initializer : option NodeId) : P Node :=
  is_of ← (if is_some await_token then parse_expected Kind.OfKeyword else parse_optional Kind.OfKeyword);
  if is_of : bool then
    expression ← parse_property_value;
    expect Kind.CloseParenToken ;;
    statement ← rec_parse_statement;
    ret (Node.new Kind.ForOfStatement |> Node.child await_token |> Node.initializer initializer
      |> Node.expression (Some expression) |> Node.child (Some statement))
  else
    in_ ← parse_optional Kind.InKeyword;
    if in_ : bool then
      expression ← expression_allow_in;
      expect Kind.CloseParenToken ;;
      statement ← rec_parse_statement;
      ret (Node.new Kind.ForInStatement |> Node.child None |> Node.initializer initializer
        |> Node.expression (Some expression) |> Node.child (Some statement))
    else
      expect Kind.SemicolonToken ;;
      tok ← get_token;
      condition ← optionally (negb (among tok [Kind.SemicolonToken; Kind.CloseParenToken])) expression_allow_in;
      expect Kind.SemicolonToken ;;
      close ← at_token Kind.CloseParenToken;
      incrementor ← optionally (negb close) expression_allow_in;
      expect Kind.CloseParenToken ;;
      statement ← rec_parse_statement;
      ret (Node.new Kind.ForStatement |> Node.initializer initializer |> Node.child condition
        |> Node.child incrementor |> Node.child (Some statement)).

Definition parse_for_or_for_in_or_for_of_statement : P NodeId :=
  pos ← node_pos;
  expect Kind.ForKeyword ;;
  await_token ← parse_optional_token Kind.AwaitKeyword;
  expect Kind.OpenParenToken ;;
  semicolon ← at_token Kind.SemicolonToken;
  initializer ← optionally (negb semicolon) parse_for_initializer;
  result ← parse_for_rest await_token initializer;
  finish_node result pos.

(** ** Try *)

Definition parse_catch_clause : P NodeId :=
  pos ← node_pos;
  expect Kind.CatchKeyword ;;
  paren ← parse_optional Kind.OpenParenToken;
  variable_declaration ← optionally paren (
    declaration ← parse_variable_declaration;
    expect Kind.CloseParenToken ;;
    ret declaration);
  block ← parse_block false None;
  finish_node (Node.new Kind.CatchClause |> Node.child variable_declaration |> Node.child (Some block)) pos.

Definition parse_try_statement : P NodeId :=
  pos ← node_pos;
  expect Kind.TryKeyword ;;
  try_block ← parse_block false None;
  catch ← at_token Kind.CatchKeyword;
  catch_clause ← optionally catch parse_catch_clause;
  finally ← at_token Kind.FinallyKeyword;
  finally_block ← optionally (negb (is_some catch_clause) || finally) (
    parse_expected_with_diagnostic Kind.FinallyKeyword (Some X_catch_or_finally_expected) true ;;
    parse_block false None);
  finish_node (Node.new Kind.TryStatement |> Node.child (Some try_block) |> Node.child catch_clause
    |> Node.child finally_block) pos.

(** ** Functions, interfaces, aliases and enums *)

Definition parse_function_declaration (pos : nat) (modifiers : option NodeList) : P NodeId :=
  expect Kind.FunctionKeyword ;;
  asterisk_token ← parse_optional_token Kind.AsteriskToken;
  default_ ← modifier_list_has modifiers Kind.DefaultKeyword;
  binding ← is_binding_identifier;
  name ← optionally (negb default_ || binding) parse_binding_identifier;
  is_async ← modifier_list_has modifiers Kind.AsyncKeyword;
  let flags := signature_flags (is_some asterisk_token) is_async in
  type_parameters ← parse_type_parameters;
  save_context_flags ← get_context_flags;
  export ← modifier_list_has modifiers Kind.ExportKeyword;
  when export (set_context_flags NodeFlags.AwaitContext true) ;;
  parameters ← parse_parameters flags;
  return_type ← parse_return_type Kind.ColonToken false;
  body ← parse_function_block_or_semicolon flags (Some X_or_expected);
  put_context_flags save_context_flags ;;
  finish_checked (Node.new Kind.FunctionDeclaration |> Node.modifiers modifiers |> Node.child asterisk_token
    |> Node.name name |> Node.type_parameters type_parameters |> Node.parameters (Some parameters)
    |> Node.ty return_type |> Node.body body) pos.

Definition parse_interface_declaration (pos : nat) (modifiers : option NodeList) : P NodeId :=
  expect Kind.InterfaceKeyword ;;
  name ← parse_identifier;
  type_parameters ← parse_type_parameters;
  heritage_clauses ← parse_heritage_clauses;
  members ← parse_object_type_members;
  finish_checked (Node.new Kind.InterfaceDeclaration |> Node.modifiers modifiers |> Node.name (Some name)
    |> Node.type_parameters type_parameters |> Node.list heritage_clauses |> Node.list (Some members)) pos.

Definition parse_type_alias_declaration (pos : nat) (modifiers : option NodeList) : P NodeId :=
  expect Kind.TypeKeyword ;;
  br ← has_preceding_line_break;
  when br (parse_error_at_current_token Line_break_not_permitted_here []) ;;
  name ← parse_identifier;
  type_parameters ← parse_type_parameters;
  expect Kind.EqualsToken ;;
  intrinsic ← at_token Kind.IntrinsicKeyword;
  intrinsic ← and_then intrinsic (look_ahead next_is_not_dot);
  type_node ← (if intrinsic : bool then parse_keyword_type_node else parse_type);
  parse_semicolon ;;
  finish_checked (Node.new Kind.TypeAliasDeclaration |> Node.modifiers modifiers |> Node.name (Some name)
    |> Node.type_parameters type_parameters |> Node.ty (Some type_node)) pos.

Definition parse_enum_member : P NodeId :=
  pos ← node_pos;
  name ← parse_property_name;
  initializer ← do_in_context NodeFlags.DisallowInContext false parse_initializer;
  finish_node (Node.new Kind.EnumMember |> Node.name (Some name) |> Node.initializer initializer) pos.

Definition parse_enum_declaration (pos : nat) (modifiers : option NodeList) : P NodeId :=
  keeping_await (
    expect Kind.EnumKeyword ;;
    name ← parse_identifier;
    brace ← parse_expected Kind.OpenBraceToken;
    members ←
      (if brace : bool then
         members ← do_in_context (Z.lor NodeFlags.YieldContext NodeFlags.AwaitContext) false
                     (parse_delimited_list EnumMembers parse_enum_member);
         expect Kind.CloseBraceToken ;;
         ret members
       else create_missing_list);
    finish_checked (Node.new Kind.EnumDeclaration |> Node.modifiers modifiers |> Node.name (Some name)
      |> Node.list (Some members)) pos).

(** ** Modules *)

Definition parse_module_block : P NodeId :=
  pos ← node_pos;
  brace ← parse_expected Kind.OpenBraceToken;
  statements ←
    (if brace : bool then
       statements ← parse_list BlockStatements rec_parse_statement;
       expect Kind.CloseBraceToken ;;
       ret statements
     else create_missing_list);
  finish_node (Node.new Kind.ModuleBlock |> Node.list (Some statements)) pos.

Definition parse_ambient_external_module_declaration (pos : nat) (modifiers : option NodeList) : P NodeId :=
  keeping_await (
    global ← at_token Kind.GlobalKeyword;
    name ← (if global : bool then parse_identifier else parse_literal_expression);
    brace ← at_token Kind.OpenBraceToken;
    body ← (if brace : bool then block ← parse_module_block; ret (Some block)
            else parse_semicolon ;; ret None);
    finish_node (Node.new Kind.ModuleDeclaration |> Node.modifiers modifiers
      |> Node.op (if global : bool then Kind.GlobalKeyword else Kind.ModuleKeyword) |> Node.name (Some name)
      |> Node.body body) pos).

(** [a.b]: the [export] that [b] is declared with. *)
Definition push_implicit_export : P NodeList :=
  node_pos ← node_pos;
  id ← push_node (Node.new Kind.ExportKeyword |> Node.at_range node_pos node_pos
    |> Node.with_flags NodeFlags.Reparsed);
  ret (NodeList_new node_pos node_pos [id]).

Definition parse_module_or_namespace_declaration (pos : nat) (modifiers : option NodeList) (nested : bool)
    (keyword : Kind) : P NodeId :=
  keeping_await (
    name ← (if nested then parse_identifier_name else parse_identifier);
    dot ← parse_optional Kind.DotToken;
    body ←
      (if dot : bool then
         implicit_modifiers ← push_implicit_export;
         body_pos ← node_pos;
         rec_parse_module_or_namespace_declaration body_pos (Some implicit_modifiers) true keyword
       else parse_module_block);
    finish_checked (Node.new Kind.ModuleDeclaration |> Node.modifiers modifiers |> Node.op keyword
      |> Node.name (Some name) |> Node.body (Some body)) pos).

Definition parse_module_declaration (pos : nat) (modifiers : option NodeList) : P NodeId :=
  global ← at_token Kind.GlobalKeyword;
  if global : bool then parse_ambient_external_module_declaration pos modifiers
  else
    namespace ← parse_optional Kind.NamespaceKeyword;
    if namespace : bool then parse_module_or_namespace_declaration pos modifiers false Kind.NamespaceKeyword
    else
      expect Kind.ModuleKeyword ;;
      external ← at_token Kind.StringLiteral;
      if external : bool then parse_ambient_external_module_declaration pos modifiers
      else parse_module_or_namespace_declaration pos modifiers false Kind.ModuleKeyword.

(** ** Imports *)

Definition parse_module_specifier : P NodeId :=
  b ← at_token Kind.StringLiteral; if b : bool then parse_literal_expression else parse_expression.

Definition parse_external_module_reference : P NodeId :=
  keeping_await (
    pos ← node_pos;
    expect Kind.RequireKeyword ;;
    expect Kind.OpenParenToken ;;
    expression ← parse_module_specifier;
    expect Kind.CloseParenToken ;;
    finish_node (Node.new Kind.ExternalModuleReference |> Node.expression (Some expression)) pos).

Definition parse_module_reference : P NodeId :=
  require ← at_token Kind.RequireKeyword;
  external ← and_then require (look_ahead next_token_is_open_paren);
  if external : bool then parse_external_module_reference else parse_entity_name false None.

Definition parse_import_equals_declaration (pos : nat) (modifiers : option NodeList) (identifier : NodeId)
    (is_type_only : bool) : P NodeId :=
  expect Kind.EqualsToken ;;
  module_reference ← parse_module_reference;
  parse_semicolon ;;
  finish_node (Node.new Kind.ImportEqualsDeclaration |> Node.modifiers modifiers |> Node.type_only is_type_only
    |> Node.name (Some identifier) |> Node.child (Some module_reference)) pos.

Definition parse_namespace_import : P NodeId :=
  pos ← node_pos;
  expect Kind.AsteriskToken ;;
  expect Kind.AsKeyword ;;
  name ← parse_identifier;
  finish_node (Node.new Kind.NamespaceImport |> Node.name (Some name)) pos.

Definition can_parse_module_export_name : P bool := is_import_attribute_name.

Definition parse_module_export_name (disallow_keywords : bool) : P (NodeId * bool) :=
  tok ← get_token;
  if Kind.eqb tok Kind.StringLiteral then name ← parse_literal_expression; ret (name, true)
  else
    id ← is_identifier;
    name ← parse_identifier_name;
    ret (name, negb (disallow_keywords && is_keyword tok && negb id)).

(** What a specifier is read as: type only or not, its property name, its name
    and whether that is one, and whether [as] may follow. *)
Record specifier := {
  sp_type_only : bool;
  sp_property_name : option NodeId;
  sp_name : NodeId;
  sp_name_ok : bool;
  sp_can_parse_as : bool
}.

(** A specifier that begins with the name [type]. *)
Definition parse_type_specifier (disallow_keywords : bool) (name : NodeId) (name_ok : bool) : P specifier :=
  let mk t pn n ok c :=
    {| sp_type_only := t; sp_property_name := pn; sp_name := n; sp_name_ok := ok; sp_can_parse_as := c |} in
  as_ ← at_token Kind.AsKeyword;
  if as_ : bool then
    first_as ← parse_identifier_name;
    as_ ← at_token Kind.AsKeyword;
    if as_ : bool then
      second_as ← parse_identifier_name;
      more ← can_parse_module_export_name;
      if more : bool then
        '(name, name_ok) ← parse_module_export_name disallow_keywords;
        ret (mk true (Some first_as) name name_ok false)
      else ret (mk false (Some name) second_as name_ok false)
    else
      more ← can_parse_module_export_name;
      if more : bool then
        '(name', name_ok) ← parse_module_export_name disallow_keywords;
        ret (mk false (Some name) name' name_ok false)
      else ret (mk true None first_as name_ok true)
  else
    more ← can_parse_module_export_name;
    if more : bool then
      '(name, name_ok) ← parse_module_export_name disallow_keywords;
      ret (mk true None name name_ok true)
    else ret (mk false None name name_ok true).

Definition parse_import_or_export_specifier (kind : Kind) : P (bool * option NodeId * NodeId) :=
  let disallow_keywords := Kind.eqb kind Kind.ImportSpecifier in
  '(name, name_ok) ← parse_module_export_name disallow_keywords;
  n ← node name;
  s ← (if Kind.eqb (nkind n) Kind.Identifier && (ntext n =s lit "type")
       then parse_type_specifier disallow_keywords name name_ok
       else ret {| sp_type_only := false; sp_property_name := None; sp_name := name; sp_name_ok := name_ok;
                   sp_can_parse_as := true |});
  as_ ← at_token Kind.AsKeyword;
  '(property_name, name, name_ok) ←
    (if sp_can_parse_as s && as_ then
       expect Kind.AsKeyword ;;
       '(name, name_ok) ← parse_module_export_name disallow_keywords;
       ret (Some (sp_name s), name, name_ok)
     else ret (sp_property_name s, sp_name s, sp_name_ok s));
  (if negb name_ok then
     n ← node name;
     '(start, end_) ← skip_range_trivia (npos n) (nend n);
     parse_error_at start end_ Identifier_expected []
   else ret tt) ;;
  ret (sp_type_only s, property_name, name).

Definition parse_import_specifier : P NodeId :=
  pos ← node_pos;
  '(is_type_only, property_name, name) ← parse_import_or_export_specifier Kind.ImportSpecifier;
  n ← node name;
  identifier_name ←
    (if Kind.eqb (nkind n) Kind.Identifier then ret name
     else
       '(start, end_) ← skip_range_trivia (npos n) (nend n);
       parse_error_at start end_ Identifier_expected [] ;;
       identifier ← new_identifier [];
       finish_node identifier (npos n));
  finish_checked (Node.new Kind.ImportSpecifier |> Node.type_only is_type_only |> Node.child property_name
    |> Node.name (Some identifier_name)) pos.

Definition parse_named_imports : P NodeId :=
  pos ← node_pos;
  imports ← parse_bracketed_list ImportOrExportSpecifiers parse_import_specifier Kind.OpenBraceToken
              Kind.CloseBraceToken;
  finish_node (Node.new Kind.NamedImports |> Node.list (Some imports)) pos.

Definition parse_import_clause (identifier : option NodeId) (pos : nat) (phase_modifier : Kind) : P NodeId :=
  keeping_await (
    bindings ← (if is_some identifier then parse_optional Kind.CommaToken else ret true);
    asterisk ← at_token Kind.AsteriskToken;
    named_bindings ← optionally bindings (if asterisk : bool then parse_namespace_import else parse_named_imports);
    finish_node (Node.new Kind.ImportClause |> Node.type_only (Kind.eqb phase_modifier Kind.TypeKeyword)
      |> Node.op phase_modifier |> Node.name identifier |> Node.child named_bindings) pos).

Definition try_parse_import_clause (identifier : option NodeId) (pos : nat) (phase_modifier : Kind)
    : P (option NodeId) :=
  tok ← get_token;
  optionally (is_some identifier || among tok [Kind.AsteriskToken; Kind.OpenBraceToken]) (
    import_clause ← parse_import_clause identifier pos phase_modifier;
    expect Kind.FromKeyword ;;
    ret import_clause).

Definition report_import_assertions (tok : Kind) : P unit :=
  when (Kind.eqb tok Kind.AssertKeyword)
    (parse_error_at_current_token
       Import_assertions_have_been_replaced_by_import_attributes_Use_with_instead_of_assert []).

Definition try_parse_import_attributes : P (option NodeId) :=
  tok ← get_token;
  br ← has_preceding_line_break;
  optionally (Kind.eqb tok Kind.WithKeyword || (Kind.eqb tok Kind.AssertKeyword && negb br)) (
    report_import_assertions tok ;;
    parse_import_attributes tok false).

(** The identifier after a phase modifier, if there is one. *)
Definition parse_optional_identifier : P (option NodeId) := b ← is_identifier; optionally b parse_identifier.

(** [import type ...]: the identifier read was the modifier. *)
Definition is_type_import : P bool :=
  from ← at_token Kind.FromKeyword;
  id ← is_identifier;
  follows ← (if negb from then ret true
             else and_then id (look_ahead next_token_is_from_keyword_or_equals_token));
  tok ← get_token;
  ret (follows && (id || among tok [Kind.AsteriskToken; Kind.OpenBraceToken])).

Definition is_defer_import : P bool :=
  tok ← get_token;
  if Kind.eqb tok Kind.FromKeyword then b ← look_ahead next_token_is_token_string_literal; ret (negb b)
  else ret (negb (among tok [Kind.CommaToken; Kind.EqualsToken])).

(** The identifier of an import and its phase. *)
Definition parse_import_phase (identifier : option NodeId) : P (option NodeId * Kind) :=
  text ← (match identifier with Some id => n ← node id; ret (Some (ntext n)) | None => ret None end);
  let written w := bool_decide (text = Some (lit w)) in
  type_ ← and_then (written "type"%string) is_type_import;
  if type_ : bool then identifier ← parse_optional_identifier; ret (identifier, Kind.TypeKeyword)
  else
    defer ← and_then (written "defer"%string) is_defer_import;
    if defer : bool then identifier ← parse_optional_identifier; ret (identifier, Kind.DeferKeyword)
    else ret (identifier, Kind.Unknown).

Definition parse_import_declaration_or_import_equals_declaration (pos : nat) (modifiers : option NodeList)
    : P NodeId :=
  expect Kind.ImportKeyword ;;
  after_import_pos ← node_pos;
  save_has_await_identifier ← get_has_await;
  identifier ← parse_optional_identifier;
  '(identifier, phase_modifier) ← parse_import_phase identifier;
  tok ← get_token;
  let equals := negb (among tok [Kind.CommaToken; Kind.FromKeyword])
                && negb (Kind.eqb phase_modifier Kind.DeferKeyword) in
  match equals, identifier with
  | true, Some identifier =>
      declaration ← parse_import_equals_declaration pos modifiers identifier
                      (Kind.eqb phase_modifier Kind.TypeKeyword);
      import_equals ← check_js_syntax declaration;
      put_has_await save_has_await_identifier ;;
      ret import_equals
  | _, _ =>
      import_clause ← try_parse_import_clause identifier after_import_pos phase_modifier;
      put_has_await save_has_await_identifier ;;
      module_specifier ← parse_module_specifier;
      attributes ← try_parse_import_attributes;
      parse_semicolon ;;
      finish_checked (Node.new Kind.ImportDeclaration |> Node.modifiers modifiers
        |> Node.import_clause import_clause |> Node.child (Some module_specifier)
        |> Node.child attributes) pos
  end.

(** ** Exports *)

(** [m] in an await context, the context and the await identifier kept. *)
Definition in_export {A} (m : P A) : P A :=
  save_context_flags ← get_context_flags;
  keeping_await (
    set_context_flags NodeFlags.AwaitContext true ;;
    a ← m;
    put_context_flags save_context_flags ;;
    ret a).

Definition parse_export_assignment (pos : nat) (modifiers : option NodeList) : P NodeId :=
  '(is_export_equals, expression) ← in_export (
    is_export_equals ← parse_optional Kind.EqualsToken;
    when (negb is_export_equals) (expect Kind.DefaultKeyword) ;;
    expression ← parse_assignment_expression_or_higher;
    parse_semicolon ;;
    ret (is_export_equals, expression));
  finish_checked (Node.new Kind.ExportAssignment |> Node.modifiers modifiers
    |> Node.export_equals is_export_equals |> Node.expression (Some expression)) pos.

Definition parse_namespace_export_declaration (pos : nat) (modifiers : option NodeList) : P NodeId :=
  expect Kind.AsKeyword ;;
  expect Kind.NamespaceKeyword ;;
  name ← keeping_await parse_identifier;
  parse_semicolon ;;
  finish_node (Node.new Kind.NamespaceExportDeclaration |> Node.modifiers modifiers
    |> Node.name (Some name)) pos.

Definition parse_namespace_export (pos : nat) : P NodeId :=
  '(export_name, _) ← parse_module_export_name false;
  finish_node (Node.new Kind.NamespaceExport |> Node.name (Some export_name)) pos.

Definition parse_export_specifier : P NodeId :=
  pos ← node_pos;
  '(is_type_only, property_name, name) ← parse_import_or_export_specifier Kind.ExportSpecifier;
  finish_checked (Node.new Kind.ExportSpecifier |> Node.type_only is_type_only |> Node.child property_name
    |> Node.name (Some name)) pos.

Definition parse_named_exports : P NodeId :=
  pos ← node_pos;
  exports ← parse_bracketed_list ImportOrExportSpecifiers parse_export_specifier Kind.OpenBraceToken
              Kind.CloseBraceToken;
  finish_node (Node.new Kind.NamedExports |> Node.list (Some exports)) pos.

(** [from module], the clause before it read. *)
Definition parse_from : P NodeId := expect Kind.FromKeyword ;; parse_module_specifier.

(** The clause and the module of an export. *)
Definition parse_export_clause : P (option NodeId * option NodeId) :=
  namespace_export_pos ← node_pos;
  asterisk ← parse_optional Kind.AsteriskToken;
  if asterisk : bool then
    as_ ← parse_optional Kind.AsKeyword;
    export_clause ← optionally as_ (parse_namespace_export namespace_export_pos);
    module_specifier ← parse_from;
    ret (export_clause, Some module_specifier)
  else
    export_clause ← parse_named_exports;
    tok ← get_token;
    br ← has_preceding_line_break;
    module_specifier ← optionally
      (Kind.eqb tok Kind.FromKeyword || (Kind.eqb tok Kind.StringLiteral && negb br)) parse_from;
    ret (Some export_clause, module_specifier).

Definition parse_export_declaration (pos : nat) (modifiers : option NodeList) : P NodeId :=
  '(is_type_only, export_clause, module_specifier, attributes) ← in_export (
    is_type_only ← parse_optional Kind.TypeKeyword;
    '(export_clause, module_specifier) ← parse_export_clause;
    tok ← get_token;
    br ← has_preceding_line_break;
    attributes ← optionally
      (is_some module_specifier && among tok [Kind.WithKeyword; Kind.AssertKeyword] && negb br) (
      report_import_assertions tok ;;
      parse_import_attributes tok false);
    parse_semicolon ;;
    ret (is_type_only, export_clause, module_specifier, attributes));
  finish_checked (Node.new Kind.ExportDeclaration |> Node.modifiers modifiers |> Node.type_only is_type_only
    |> Node.child export_clause |> Node.child module_specifier |> Node.child attributes) pos.

(** ** Declarations and statements *)

(** After modifiers that no declaration follows. *)
Definition parse_missing_declaration (pos : nat) (modifiers : option NodeList) : P NodeId :=
  match modifiers with
  | Some _ =>
      node_pos ← node_pos;
      parse_error_at node_pos node_pos Declaration_expected [] ;;
      finish_node (Node.new Kind.MissingDeclaration |> Node.modifiers modifiers) pos
  | None => panic
  end.

Definition parse_declaration_worker (pos : nat) (modifiers : option NodeList) : P NodeId :=
  tok ← get_token;
  match tok with
  | Kind.VarKeyword | Kind.LetKeyword | Kind.ConstKeyword | Kind.UsingKeyword =>
      parse_variable_statement pos modifiers
  | Kind.AwaitKeyword =>
      b ← is_await_using_declaration;
      if b : bool then parse_variable_statement pos modifiers else parse_missing_declaration pos modifiers
  | Kind.FunctionKeyword => parse_function_declaration pos modifiers
  | Kind.ClassKeyword => parse_class_declaration pos modifiers
  | Kind.InterfaceKeyword => parse_interface_declaration pos modifiers
  | Kind.TypeKeyword => parse_type_alias_declaration pos modifiers
  | Kind.EnumKeyword => parse_enum_declaration pos modifiers
  | Kind.GlobalKeyword | Kind.ModuleKeyword | Kind.NamespaceKeyword => parse_module_declaration pos modifiers
  | Kind.ImportKeyword => parse_import_declaration_or_import_equals_declaration pos modifiers
  | Kind.ExportKeyword =>
      k ← next_token;
      match k with
      | Kind.DefaultKeyword | Kind.EqualsToken => parse_export_assignment pos modifiers
      | Kind.AsKeyword => parse_namespace_export_declaration pos modifiers
      | _ => parse_export_declaration pos modifiers
      end
  | _ => parse_missing_declaration pos modifiers
  end.

Definition parse_declaration : P NodeId :=
  pos ← node_pos;
  modifiers ← parse_modifiers_ex true false false;
  is_ambient ← modifier_list_has modifiers Kind.DeclareKeyword;
  if is_ambient : bool then in_ambient_context modifiers (parse_declaration_worker pos modifiers)
  else parse_declaration_worker pos modifiers.

(** A statement that may begin with a keyword that is also a name. *)
Definition parse_statement_if (is_declaration : P bool) : P NodeId :=
  b ← is_declaration;
  if b : bool then pos ← node_pos; parse_variable_statement pos None
  else parse_expression_or_labeled_statement.

Definition parse_statement : P NodeId :=
  pos ← node_pos;
  tok ← get_token;
  match tok with
  | Kind.SemicolonToken => parse_empty_statement
  | Kind.OpenBraceToken => parse_block false None
  | Kind.VarKeyword => parse_variable_statement pos None
  | Kind.LetKeyword => parse_statement_if is_let_declaration
  | Kind.AwaitKeyword => parse_statement_if is_await_using_declaration
  | Kind.UsingKeyword => parse_statement_if is_using_declaration
  | Kind.FunctionKeyword => parse_function_declaration pos None
  | Kind.ClassKeyword => parse_class_declaration pos None
  | Kind.IfKeyword => parse_if_statement
  | Kind.DoKeyword => parse_do_statement
  | Kind.WhileKeyword => parse_while_statement
  | Kind.ForKeyword => parse_for_or_for_in_or_for_of_statement
  | Kind.ContinueKeyword => parse_continue_statement
  | Kind.BreakKeyword => parse_break_statement
  | Kind.ReturnKeyword => parse_return_statement
  | Kind.WithKeyword => parse_with_statement
  | Kind.SwitchKeyword => parse_switch_statement
  | Kind.ThrowKeyword => parse_throw_statement
  | Kind.TryKeyword | Kind.CatchKeyword | Kind.FinallyKeyword => parse_try_statement
  | Kind.DebuggerKeyword => parse_debugger_statement
  | Kind.AtToken => parse_declaration
  | Kind.AsyncKeyword | Kind.InterfaceKeyword | Kind.TypeKeyword | Kind.ModuleKeyword
  | Kind.NamespaceKeyword | Kind.DeclareKeyword | Kind.ConstKeyword | Kind.EnumKeyword
  | Kind.ExportKeyword | Kind.ImportKeyword | Kind.PrivateKeyword | Kind.ProtectedKeyword
  | Kind.PublicKeyword | Kind.AbstractKeyword | Kind.AccessorKeyword | Kind.StaticKeyword
  | Kind.ReadonlyKeyword | Kind.GlobalKeyword =>
      b ← is_start_of_declaration;
      if b : bool then parse_declaration else parse_expression_or_labeled_statement
  | _ => parse_expression_or_labeled_statement
  end.
End statements.
