(* ===== verification/Sorting.v ===== *)
(** * Sorting and deduplicating

    [slice::sort], [sort_by_key] and [Vec::dedup]. The standard library's sort is
    stable, so it is any stable sort: insertion. *)

From Stdlib Require Import Sorted.
From S2P Require Import Prelude.

Section sorting.
Context {A : Type} (le : A -> A -> bool).

Fixpoint insert_sorted (x : A) (l : list A) : list A :=
  match l with
  | [] => [x]
  | y :: l => if le x y then x :: y :: l else y :: insert_sorted x l
  end.
Definition stable_sort (l : list A) : list A := foldr insert_sorted [] l.

Lemma insert_sorted_perm x l : insert_sorted x l ≡ₚ x :: l.
Proof. induction l as [|y l IH]; simpl; [done|]. destruct (le x y); [done|]. rewrite IH. apply Permutation_swap. Qed.

Lemma stable_sort_perm l : stable_sort l ≡ₚ l.
Proof. induction l as [|x l IH]; simpl; [done|]. by rewrite insert_sorted_perm, IH. Qed.

Context (le_total : forall x y, le x y = false -> le y x = true)
  (le_trans : forall x y z, le x y = true -> le y z = true -> le x z = true).
Abbreviation ascending := (StronglySorted (fun x y => le x y = true)).

Lemma insert_sorted_ascending x l : ascending l -> ascending (insert_sorted x l).
Proof.
  induction 1 as [|y l Hl IH Hy]; simpl; [by repeat constructor|]. destruct (le x y) eqn:E.
  - repeat constructor; [done|done|done|]. eapply Forall_impl; [exact Hy|]. intros z. by apply le_trans.
  - constructor; [done|]. rewrite insert_sorted_perm. constructor; [by apply le_total|done].
Qed.

Lemma stable_sort_ascending l : ascending (stable_sort l).
Proof. induction l as [|x l IH]; simpl; [constructor|by apply insert_sorted_ascending]. Qed.
End sorting.

(** [Vec::dedup] with the equality of the elements: an element equal to the last
    one kept goes. *)
Section dedup.
Context {A : Type} (same : A -> A -> bool).

Fixpoint dedup_after (kept : A) (l : list A) : list A :=
  match l with
  | [] => []
  | x :: l => if same kept x then dedup_after kept l else x :: dedup_after x l
  end.
Definition dedup (l : list A) : list A := match l with [] => [] | x :: l => x :: dedup_after x l end.

Lemma dedup_after_incl kept l x : x ∈ dedup_after kept l -> x ∈ l.
Proof.
  revert kept. induction l as [|y l IH]; intros kept; simpl; [done|]. destruct (same kept y).
  - intros H%IH. by apply list_elem_of_further.
  - intros [->|H%IH]%elem_of_cons; [apply list_elem_of_here|by apply list_elem_of_further].
Qed.
Lemma dedup_incl l x : x ∈ dedup l -> x ∈ l.
Proof.
  destruct l as [|y l]; simpl; [done|]. intros [->|H%dedup_after_incl]%elem_of_cons; [apply list_elem_of_here|].
  by apply list_elem_of_further.
Qed.

(** Every element has an equal one among those kept. *)
Lemma dedup_after_covers kept l x :
  (forall y, same y y = true) -> x ∈ l -> exists y, (y = kept \/ y ∈ dedup_after kept l) /\ same y x = true.
Proof.
  intros Hrefl. revert kept. induction l as [|z l IH]; intros kept; simpl; [by intros ?%elem_of_nil|].
  intros [->|Hx]%elem_of_cons.
  - destruct (same kept z) eqn:E; [exists kept; auto|]. exists z. split; [right; apply list_elem_of_here|apply Hrefl].
  - destruct (same kept z); [by apply IH|]. destruct (IH z Hx) as (y & [->|Hy] & Hs).
    + exists z. split; [right; apply list_elem_of_here|done].
    + exists y. split; [right; by apply list_elem_of_further|done].
Qed.
Lemma dedup_covers l x : (forall y, same y y = true) -> x ∈ l -> exists y, y ∈ dedup l /\ same y x = true.
Proof.
  intros Hrefl. destruct l as [|z l]; simpl; [by intros ?%elem_of_nil|]. intros [->|Hx]%elem_of_cons.
  - exists z. split; [apply list_elem_of_here|apply Hrefl].
  - destruct (dedup_after_covers z l x Hrefl Hx) as (y & [->|Hy] & Hs);
      [exists z; split; [apply list_elem_of_here|done]|exists y; split; [by apply list_elem_of_further|done]].
Qed.

(** In order, those kept are pairwise unequal. *)
Context (le : A -> A -> bool).
Context (le_trans : forall x y z, le x y = true -> le y z = true -> le x z = true)
  (le_antisym : forall x y, le x y = true -> le y x = true -> same x y = true)
  (same_le : forall x y, same x y = true -> le x y = true)
  (same_sym : forall x y, same x y = true -> same y x = true).
Let below (x y : A) : Prop := le x y = true /\ same x y = false.

Lemma below_le_trans x y z : below x y -> le y z = true -> below x z.
Proof.
  intros [Hxy Hne] Hyz. split; [by eapply le_trans|]. destruct (same x z) eqn:E; [|done].
  rewrite <- Hne. symmetry. apply le_antisym; [done|]. eapply le_trans; [exact Hyz|]. by apply same_le, same_sym.
Qed.

Lemma dedup_after_strict kept l :
  StronglySorted (fun x y => le x y = true) (kept :: l) -> StronglySorted below (kept :: dedup_after kept l).
Proof.
  revert kept. induction l as [|y l IH]; intros kept Hl; simpl; [by repeat constructor|].
  apply StronglySorted_inv in Hl as [Hl Hk]. pose proof Hl as [Hl' Hy]%StronglySorted_inv.
  apply Forall_cons in Hk as [Hky Hk]. destruct (same kept y) eqn:E.
  - apply IH. by constructor.
  - pose proof (IH y Hl) as H. constructor; [exact H|]. constructor; [by split|].
    apply Forall_forall. intros z Hz%dedup_after_incl. apply (below_le_trans _ y); [by split|].
    rewrite Forall_forall in Hy. by apply Hy.
Qed.
Lemma dedup_strict l : StronglySorted (fun x y => le x y = true) l -> StronglySorted below (dedup l).
Proof. destruct l as [|x l]; [constructor|]. apply dedup_after_strict. Qed.
End dedup.
