(* ===== verification/Parse.v ===== *)
(** * Parsing a file ([surge-ts-tsc-syntax/src/parser/mod.rs], [lib.rs])

    The children of a node, the statements of a file with the second parse of
    those that used [await] as a name, the recursion of the productions, the
    parsed file with its parents, and what a caller of the crate asks for. *)

From stdpp Require Import gmap sets.
From S2P Require Import Prelude Utf8 RustStr Chars Kind Diagnostics ScanText ScanState Scan Rescan Spelling Sorting ParserMessages Ast ParserState ParserPredicates ParserLists JsSyntax ParseTypes ParseClasses ParseExpressions ParseJsx ParseOperators ParseStatements.

(** ** The children of a node *)

Definition list_nodes (l : option NodeList) : list NodeId :=
  match l with Some l => lnodes l | None => [] end.

Definition written_children (n : Node) : list NodeId :=
  concat (map list_nodes [nmodifiers n; ntype_parameters n; ntype_arguments n; nparameters n])
  ++ concat (map list_nodes (nlists n))
  ++ omap id [nname n; nty n; nbody n; nexpression n; ninitializer n; nquestion_token n; nimport_clause n]
  ++ omap id (nchildren n).

(** The order of the keys [(pos, end, child)]. *)
Definition child_before (nodes : list Node) (a b : NodeId) : bool :=
  let key f c := match nodes !! c with Some n => f n | None => 0%nat end in
  match (key npos a ?= key npos b)%nat with
  | Lt => true
  | Gt => false
  | Eq =>
      match (key nend a ?= key nend b)%nat with
      | Lt => true
      | Gt => false
      | Eq => (a <=? b)%nat
      end
  end.

(** [sort_by_key] reads the key of every child, of two children at least. *)
Definition child_ids (nodes : list Node) (id : NodeId) : result (list NodeId) :=
  n ← unwrap (nodes !! id);
  let children := written_children n in
  if (2 <=? length children)%nat && negb (forallb (fun c => c <? length nodes)%nat children) then Panic
  else Ok (dedup Nat.eqb (stable_sort (child_before nodes) children)).

(** How many nodes a walk from each node visits: the bound of the walks below. *)
Definition walk_sizes (nodes : list Node) : list nat :=
  fold_left (fun sizes n =>
    sizes ++ [S (sum_list (map (fun c => default 0%nat (sizes !! c)) (written_children n)))]) nodes [].

Definition walk_fuel (nodes : list Node) (stack : list NodeId) : nat :=
  let sizes := walk_sizes nodes in S (sum_list (map (fun c => default 0%nat (sizes !! c)) stack)).

Definition is_jsx_tag (n : Node) : bool :=
  among (nkind n) [Kind.JsxOpeningElement; Kind.JsxSelfClosingElement; Kind.JsxFragment].

(** A [Vec] as a stack: its top is the end of the list. *)
Definition pop (stack : list NodeId) : option (NodeId * list NodeId) :=
  match rev stack with [] => None | id :: rest => Some (id, rev rest) end.

Definition contains_jsx_tag (nodes : list Node) (statements : list NodeId) : result bool :=
  iterate (walk_fuel nodes statements) (fun stack : list NodeId =>
    match pop stack with
    | None => Ok (inr false)
    | Some (id, stack) =>
        n ← unwrap (nodes !! id);
        if is_jsx_tag n then Ok (inr true)
        else children ← child_ids nodes id; Ok (inl (stack ++ children))
    end) statements.

(** ** The statements of a file *)

Definition is_kind_of (kind : Kind) (id : NodeId) : P bool := k ← kind_of id; ret (Kind.eqb k kind).

Fixpoint any_of_kind (kind : Kind) (ids : list NodeId) : P bool :=
  match ids with
  | [] => ret false
  | id :: ids => b ← is_kind_of kind id; or_else b (any_of_kind kind ids)
  end.

Definition is_an_external_module_indicator_node (id : NodeId) : P bool :=
  n ← node id;
  exported ← any_of_kind Kind.ExportKeyword (modifier_nodes n);
  or_else exported (
    required ← and_then (Kind.eqb (nkind n) Kind.ImportEqualsDeclaration)
                 (any_of_kind Kind.ExternalModuleReference (omap (fun c => c) (nchildren n)));
    ret (required || among (nkind n) [Kind.ImportDeclaration; Kind.ExportAssignment; Kind.ExportDeclaration])).

Fixpoint any_indicator (ids : list NodeId) : P bool :=
  match ids with
  | [] => ret false
  | id :: ids => b ← is_an_external_module_indicator_node id; or_else b (any_indicator ids)
  end.

(** The spans of the statements that used [await], with the [i]th. *)
Definition push_await_span (i : nat) (spans : list nat) : list nat :=
  match last spans with
  | Some l => if (l =? i)%nat then removelast spans ++ [S i] else spans ++ [i; S i]
  | None => spans ++ [i; S i]
  end.

(** The diagnostics, and nothing else of the scanner. *)
Definition put_diagnostics (ds : list Diagnostic) : P unit := modify (fun p =>
  with_scanner (with_has_parse_error (has_parse_error (scanner p)) (with_diagnostics ds (scanner p))) p).

Fixpoint position_from (from : nat) (ds : list Diagnostic) : option nat :=
  match ds with
  | [] => None
  | d :: ds => if (from <=? dstart d)%nat then Some 0%nat else S <$> position_from from ds
  end.

(** [saved[start..end]], of the positions the closure finds. *)
Definition diagnostics_between (saved : list Diagnostic) (from : nat) (to : option nat) : list Diagnostic :=
  match position_from from saved with
  | None => []
  | Some start =>
      let rest := drop start saved in
      match to with
      | Some to => match position_from to rest with Some n => take n rest | None => rest end
      | None => rest
      end
  end.

Definition copy_range (saved : list Diagnostic) (from : nat) (to : option nat) : P unit :=
  ds ← gets (fun p => diagnostics (scanner p));
  put_diagnostics (ds ++ diagnostics_between saved from to).

(** [statements[from..to]] *)
Definition statements_between (statements : list NodeId) (from to : nat) : P (list NodeId) :=
  if (from <=? to)%nat && (to <=? length statements)%nat then ret (take (to - from) (drop from statements))
  else panic.

Definition index_of {A} (l : list A) (i : nat) : P A := lift (fun _ => unwrap (l !! i)).
Definition node_start (id : NodeId) : P nat := n ← node id; ret (npos n).
Definition node_end (id : NodeId) : P nat := n ← node id; ret (nend n).
Definition last_await_end (statements : list NodeId) (after : nat) : P nat :=
  i ← before after; id ← index_of statements i; node_end id.

Section source_file.
Context `{UnicodeId} `{UnicodeCase} `{Productions}.

Definition parse_toplevel_statement (i : nat) : P NodeId :=
  put_has_await false ;;
  statement ← rec_parse_statement;
  await ← get_has_await;
  n ← node statement;
  when (await && negb (NodeFlags.has (nflags n) NodeFlags.AwaitContext))
    (modify (fun p => with_possible_await_spans (push_await_span i (possible_await_spans p)) p)) ;;
  ret statement.

(** The statements of one span, parsed in an await context: [i] and
    [after_await_statement] as they move, and the statements so far. *)
Definition reparse_span (statements : list NodeId) (spans : list nat) (i after : nat) (reparsed : list NodeId)
  : P (nat * nat * list NodeId) :=
  loop (L := nat * nat * list NodeId) (fun '(i, after, reparsed) =>
    tok ← get_token;
    if Kind.eqb tok Kind.EndOfFile then ret (inr (i, after, reparsed))
    else
      start_pos ← node_pos;
      statement ← rec_parse_statement;
      let reparsed := reparsed ++ [statement] in
      pos ← node_pos;
      when (start_pos =? pos)%nat advance_token ;;
      if (after <? length statements)%nat then
        await_end ← last_await_end statements after;
        statement_end ← node_end statement;
        if (statement_end =? await_end)%nat then ret (inr (i, after, reparsed))
        else if (await_end <? statement_end)%nat then
          let i := (i + 2)%nat in
          after ← (if (i <? length spans)%nat then index_of spans (S i) else ret (length statements));
          ret (inl (i, after, reparsed))
        else ret (inl (i, after, reparsed))
      else ret (inl (i, after, reparsed))) (i, after, reparsed).

(** One round over the spans: the statements before the span as they are, then
    the span, parsed again. *)
Definition reparse_round (statements : list NodeId) (saved : list Diagnostic) (spans : list nat)
    (i after : nat) (reparsed : list NodeId) : P (nat * nat * list NodeId) :=
  next ← index_of spans i;
  first ← index_of statements after;
  prev_pos ← node_start first;
  again ← index_of statements next;
  next_pos ← node_start again;
  kept ← statements_between statements after next;
  copy_range saved prev_pos (Some next_pos) ;;
  state ← mark;
  flags ← get_context_flags;
  put_context_flags (Z.lor flags NodeFlags.AwaitContext) ;;
  scanning (reset_pos next_pos) ;;
  advance_token ;;
  after ← index_of spans (S i);
  '(i, after, reparsed) ← reparse_span statements spans i after (reparsed ++ kept);
  len ← gets (fun p => length (diagnostics (scanner p)));
  rewind {| scanner_state := scanner_state state; st_context_flags := st_context_flags state;
            diagnostics_len := len; js_diagnostics_len := js_diagnostics_len state;
            st_statement_has_await_identifier := st_statement_has_await_identifier state;
            st_has_parse_error := st_has_parse_error state |} ;;
  ret ((i + 2)%nat, after, reparsed).

Definition reparse_top_level_await (statements : list NodeId) : P (list NodeId) :=
  saved ← gets (fun p => diagnostics (scanner p));
  put_diagnostics [] ;;
  '(after, reparsed) ← (fun p =>
    loop_fuel (S (length (possible_await_spans p))) (fun '(i, after, reparsed) =>
      spans ← gets possible_await_spans;
      if (i <? length spans)%nat then
        l ← reparse_round statements saved spans i after reparsed; ret (inl l)
      else ret (inr (after, reparsed))) (0%nat, 0%nat, []) p);
  if (after <? length statements)%nat then
    first ← index_of statements after;
    prev_pos ← node_start first;
    copy_range saved prev_pos None ;;
    ret (reparsed ++ drop after statements)
  else ret reparsed.

Definition parse_source_file_worker : P (list NodeId * bool) :=
  declaration ← gets is_declaration_file;
  flags ← get_context_flags;
  when declaration (put_context_flags (Z.lor flags NodeFlags.Ambient)) ;;
  statements ← parse_list_index SourceElements parse_toplevel_statement;
  indicator ← any_indicator statements;
  meta ← gets (fun p => NodeFlags.has (source_flags p) NodeFlags.PossiblyContainsImportMeta);
  forces ← gets jsx_forces_module;
  tag ← and_then (negb (indicator || meta) && negb declaration && forces)
          (lift (fun p => contains_jsx_tag (nodes p) statements));
  force ← gets force_module;
  let is_module := indicator || meta || (negb declaration && (forces && tag || force)) in
  spans ← gets possible_await_spans;
  if negb declaration && is_module && negb (length spans =? 0)%nat then
    statements ← reparse_top_level_await statements; ret (statements, is_module)
  else ret (statements, is_module).
End source_file.

(** ** The recursion *)

Section parse.
Context `{UnicodeId} `{UnicodeCase}.

(** Nothing left of the bound. *)
Definition exhausted : Productions := {|
  rec_parse_type := out_of_fuel;
  rec_parse_type_operator_or_higher := out_of_fuel;
  rec_parse_identifier_or_pattern := out_of_fuel;
  rec_parse_expression := out_of_fuel;
  rec_parse_assignment_expression_or_higher_worker := fun _ => out_of_fuel;
  rec_parse_binary_expression_or_higher := fun _ => out_of_fuel;
  rec_parse_unary_expression_or_higher := out_of_fuel;
  rec_parse_simple_unary_expression := out_of_fuel;
  rec_parse_left_hand_side_expression_or_higher := out_of_fuel;
  rec_parse_primary_expression := out_of_fuel;
  rec_parse_member_expression_rest := fun _ _ _ => out_of_fuel;
  rec_parse_call_expression_rest := fun _ _ => out_of_fuel;
  rec_parse_jsx_element_or_self_closing_element_or_fragment := fun _ _ _ _ => out_of_fuel;
  rec_parse_statement := out_of_fuel;
  rec_parse_module_or_namespace_declaration := fun _ _ _ _ => out_of_fuel
|}.

(** The productions, calling back those of the round [rec]. *)
Definition round (rec : Productions) : Productions := {|
  rec_parse_type := parse_type;
  rec_parse_type_operator_or_higher := parse_type_operator_or_higher;
  rec_parse_identifier_or_pattern := parse_identifier_or_pattern;
  rec_parse_expression := parse_expression;
  rec_parse_assignment_expression_or_higher_worker := parse_assignment_expression_or_higher_worker;
  rec_parse_binary_expression_or_higher := parse_binary_expression_or_higher;
  rec_parse_unary_expression_or_higher := parse_unary_expression_or_higher;
  rec_parse_simple_unary_expression := parse_simple_unary_expression;
  rec_parse_left_hand_side_expression_or_higher := parse_left_hand_side_expression_or_higher;
  rec_parse_primary_expression := parse_primary_expression;
  rec_parse_member_expression_rest := parse_member_expression_rest;
  rec_parse_call_expression_rest := parse_call_expression_rest;
  rec_parse_jsx_element_or_self_closing_element_or_fragment :=
    parse_jsx_element_or_self_closing_element_or_fragment;
  rec_parse_statement := parse_statement;
  rec_parse_module_or_namespace_declaration := parse_module_or_namespace_declaration
|}.

Fixpoint productions (fuel : nat) : Productions :=
  match fuel with
  | O => exhausted
  | S fuel => round (productions fuel)
  end.

(** Every round of the recursion takes a byte of the text. *)
Definition recursion_bound (text : str) : nat := S (S (length text)).

(** ** The parsed file *)

Record ParsedFile := {
  file_nodes : list Node;
  file_root : NodeId;
  file_parents : list (option NodeId);
  file_diagnostics : list Diagnostic;
  file_js_diagnostics : list Diagnostic;
  file_external_module : bool;
  file_is_declaration_file : bool;
  file_jsx : bool
}.

(** The children of a popped node that have no parent yet get it. *)
Fixpoint adopt (root id : NodeId) (children : list NodeId) (parents : list (option NodeId)) (stack : list NodeId)
  : result (list (option NodeId) * list NodeId) :=
  match children with
  | [] => Ok (parents, stack)
  | child :: children =>
      p ← unwrap (parents !! child);
      if negb (is_some p) && negb (child =? root)%nat
      then adopt root id children (<[child := Some id]> parents) (stack ++ [child])
      else adopt root id children parents stack
  end.

Definition find_parents (nodes : list Node) (root : NodeId) : result (list (option NodeId)) :=
  iterate (S (S (length nodes))) (fun '(parents, stack) =>
    match pop stack with
    | None => Ok (inr parents)
    | Some (id, stack) =>
        children ← child_ids nodes id;
        s ← adopt root id children parents stack;
        Ok (inl s)
    end) (replicate (length nodes) None, [root]).

Definition initial_parser (text : str) (options : ParseOptions) : Parser :=
  let jsx := match script_kind options with Tsx | Jsx | Js => true | Ts => false end in
  {| scanner := ScanState.new text jsx; nodes := []; source_text := text; ParserState.jsx := jsx;
     js_diagnostics := []; token := Kind.Unknown; source_flags := NodeFlags.None;
     context_flags := match script_kind options with Js | Jsx => NodeFlags.JavaScriptFile | _ => NodeFlags.None end;
     parsing_contexts := 0; statement_has_await_identifier := false; not_parenthesized_arrow := ∅;
     possible_await_spans := []; force_module := Diagnostics.force_module options;
     jsx_forces_module := Diagnostics.jsx_forces_module options;
     is_declaration_file := Diagnostics.is_declaration_file options |}.

(** The statements under a root of their own. *)
Definition source_file (text : str) (statements : list NodeId) (flags : Z) : Node :=
  Node.new Kind.SourceFile |> Node.list (Some (NodeList_new 0 (length text) statements))
    |> Node.at_range 0 (length text) |> Node.with_flags flags.

Definition parse (text : str) (options : ParseOptions) : result ParsedFile :=
  let rec := productions (recursion_bound text) in
  '(statements, external_module, p) ← (advance_token ;; parse_source_file_worker) (initial_parser text options);
  let root_id := length (nodes p) in
  let all := nodes p ++ [source_file text statements (context_flags p)] in
  parents ← find_parents all root_id;
  Ok {| file_nodes := all; file_root := root_id; file_parents := parents;
        file_diagnostics := diagnostics (scanner p); file_js_diagnostics := js_diagnostics p;
        file_external_module := external_module;
        file_is_declaration_file := Diagnostics.is_declaration_file options;
        file_jsx := ParserState.jsx p |}.

Definition file_children (file : ParsedFile) (id : NodeId) : result (list NodeId) :=
  child_ids (file_nodes file) id.

Definition regular_expression_literals (file : ParsedFile) : list nat :=
  stable_sort Nat.leb
    (omap (fun '(id, n) =>
       if Kind.eqb (nkind n) Kind.RegularExpressionLiteral
          && (match file_parents file !! id with Some (Some _) => true | _ => false end
              || (id =? file_root file)%nat)
       then Some (npos n) else None) (imap pair (file_nodes file))).

(** ** The crate's function *)

Definition syntactic_diagnostics (text : str) (options : ParseOptions) : result (list SyntaxDiagnostic) :=
  parsed ← parse text options;
  Ok (render_all (file_diagnostics parsed ++ file_js_diagnostics parsed)).
End parse.
