(* ===== verification/RegExp.v ===== *)
(** * The regular expression validator ([surge-ts-tsc-syntax/src/regexp.rs])

    [RegExpParser]: it reads the body of a literal through the scanner, which is
    narrowed to it, and reports what is wrong with it. Its methods are
    computations over its own fields and the scanner; the nesting of groups and
    of class set expressions bounds their recursion. *)

From S2P Require Import Prelude Utf8 RustStr Chars Kind Diagnostics ScanText ScanState ScanEscapes Rescan.
From S2P Require Import Spelling UnicodeTables.
Import Messages.

Local Open Scope Z_scope.

Definition FLAGS_MODIFIERS : RegularExpressionFlags :=
  Z.lor (Z.lor FLAGS_IGNORE_CASE FLAGS_MULTILINE) FLAGS_DOT_ALL.

(** ** State *)

Inductive ClassSetExpressionType := ClassIntersection | ClassSubtraction.

Record GroupNameReference := mkGroupNameReference { ref_pos : nat; ref_end : nat; ref_name : str }.
Record DecimalEscapeValue := mkDecimalEscapeValue { esc_pos : nat; esc_end : nat; esc_value : Z }.

(** The sets of names are lists; the innermost scope of group names is the
    first. *)
Record RegExpParser := mkParser {
  limit : nat;
  any_unicode_mode : bool;
  unicode_sets_mode : bool;
  annex_b : bool;
  any_unicode_mode_or_non_annex_b : bool;
  named_capture_groups : bool;
  may_contain_strings : bool;
  number_of_capturing_groups : Z;
  group_specifiers : list str;
  group_name_references : list GroupNameReference;
  decimal_escapes : list DecimalEscapeValue;
  named_capturing_groups : list (list str);
  pending_low_surrogate : Z
}.

Definition new_parser (limit : nat) (reg_exp_flags : Z) (named_capture_groups : bool) : RegExpParser := {|
  limit := limit;
  any_unicode_mode := flag reg_exp_flags FLAGS_ANY_UNICODE_MODE;
  unicode_sets_mode := flag reg_exp_flags FLAGS_UNICODE_SETS;
  annex_b := true;
  any_unicode_mode_or_non_annex_b := false;
  named_capture_groups := named_capture_groups;
  may_contain_strings := false;
  number_of_capturing_groups := 0;
  group_specifiers := [];
  group_name_references := [];
  decimal_escapes := [];
  named_capturing_groups := [];
  pending_low_surrogate := 0;
|}.

(** Field updates. *)
Definition with_strict (v : bool) (r : RegExpParser) : RegExpParser :=
  let '(mkParser a b c d _ f g h i j k l m) := r in mkParser a b c d v f g h i j k l m.
Definition with_may_contain_strings (v : bool) (r : RegExpParser) : RegExpParser :=
  let '(mkParser a b c d e f _ h i j k l m) := r in mkParser a b c d e f v h i j k l m.
Definition with_number (v : Z) (r : RegExpParser) : RegExpParser :=
  let '(mkParser a b c d e f g _ i j k l m) := r in mkParser a b c d e f g v i j k l m.
Definition with_specifiers (v : list str) (r : RegExpParser) : RegExpParser :=
  let '(mkParser a b c d e f g h _ j k l m) := r in mkParser a b c d e f g h v j k l m.
Definition with_references (v : list GroupNameReference) (r : RegExpParser) : RegExpParser :=
  let '(mkParser a b c d e f g h i _ k l m) := r in mkParser a b c d e f g h i v k l m.
Definition with_escapes (v : list DecimalEscapeValue) (r : RegExpParser) : RegExpParser :=
  let '(mkParser a b c d e f g h i j _ l m) := r in mkParser a b c d e f g h i j v l m.
Definition with_scopes (v : list (list str)) (r : RegExpParser) : RegExpParser :=
  let '(mkParser a b c d e f g h i j k _ m) := r in mkParser a b c d e f g h i j k v m.
Definition with_pending (v : Z) (r : RegExpParser) : RegExpParser :=
  let '(mkParser a b c d e f g h i j k l _) := r in mkParser a b c d e f g h i j k l v.

(** ** The monad of the parser's methods *)

Definition P (A : Type) : Type := RegExpParser -> M (A * RegExpParser).

#[export] Instance P_ret : MRet P := fun A a r => ret (a, r).
#[export] Instance P_bind : MBind P := fun A B f m r => '(a, r) ← m r; f a r.

Definition pret {A} (a : A) : P A := fun r => ret (a, r).
(** A method of the scanner. *)
Definition io {A} (m : M A) : P A := fun r => a ← m; ret (a, r).
Definition ask {A} (f : RegExpParser -> A) : P A := fun r => ret (f r, r).
Definition put (f : RegExpParser -> RegExpParser) : P unit := fun r => ret (tt, f r).
Definition pwhen (b : bool) (m : P unit) : P unit := if b then m else pret tt.

(** A round of a loop consumes a byte, or emits the first half of a character
    that takes two code units, so the text left bounds the rounds twice over. *)
Definition ploop {L A} (body : L -> P (L + A)) (init : L) : P A := fun r s =>
  loop_fuel (L := L * RegExpParser) (2 * (length (text s) - pos (state s)) + 2)
    (fun '(l, r) =>
       '(next, r) ← body l r;
       ret (match next with inl l => inl (l, r) | inr a => inr (a, r) end))
    (init, r) s.

Definition pos_ : P nat := io get_pos.
Definition inc_pos (n : nat) : P unit := io (advance n).
Definition dec_pos (n : nat) : P unit := io (retreat n).
Definition char_ : P Z := io char.
Definition err (message : Message) (p length : nat) (args : list str) : P unit := io (error_at message p length args).

(** [string(ch)] as a message argument: [ch] is a byte or the end of the text, so
    the string is valid. *)
Definition rune_arg (ch : Z) : str := go_rune_string ch.

Definition two_chars : P str :=
  p ← pos_;
  limit ← ask limit;
  if (p + 1 <? limit)%nat then io (bytes_slice p (p + 2)) else pret [].

(** One of the characters of a list. *)
Definition one_of (chars : str) (ch : Z) : bool := existsb (Z.eqb ch) chars.

(** ** Leaves *)

Definition scan_expected_char (ch : Z) : P unit :=
  c ← char_;
  if c =? ch then inc_pos 1 else p ← pos_; err X_0_expected p 0 [[ch]].

(** [while pos < end && pred(char())]. *)
Definition skip_while (pred : Z -> bool) : P unit :=
  ploop (L := unit) (fun _ =>
    p ← pos_;
    limit ← ask limit;
    if (p <? limit)%nat then
      ch ← char_;
      if pred ch then inc_pos 1 ;; pret (inl tt) else pret (inr tt)
    else pret (inr tt)) tt.

Definition scan_digits : P unit :=
  start ← pos_;
  skip_while is_digit ;;
  p ← pos_;
  value ← io (text_slice start p);
  io (set_token_value value).

Definition scan_word_characters : P str :=
  start ← pos_;
  skip_while is_word_character ;;
  p ← pos_;
  io (text_slice start p).

Definition scan_source_character : P str :=
  p ← pos_;
  limit ← ask limit;
  if (limit <=? p)%nat then pret []
  else
    unicode ← ask any_unicode_mode;
    '(ch, size) ← io (gets (fun s => go_decode_rune (text s) p));
    if negb unicode then
      pending ← ask pending_low_surrogate;
      if negb (pending =? 0) then
        inc_pos size ;;
        put (with_pending 0) ;;
        pret (encode_js_string_rune pending)
      else if (ch =? RUNE_ERROR) || (size =? 0)%nat then
        inc_pos 1 ;;
        b ← io (lift (fun s => unwrap (text s !! p)));
        pret (go_rune_string b)
      else if 0x10000 <=? ch then
        let value := ch - 0x10000 in
        let high := 0xD800 + Z.land (Z.shiftr value 10) 0x3FF in
        let low := 0xDC00 + Z.land value 0x3FF in
        put (with_pending low) ;;
        pret (encode_js_string_rune high)
      else inc_pos size ;; pret (go_rune_string ch)
    else if (size =? 0)%nat then pret []
    else if ch =? RUNE_ERROR then inc_pos size ;; pret []
    else inc_pos size ;; pret (go_rune_string ch).

(** [compare_decimal_strings]: numerals of any length. *)
Definition trim_zeros (s : str) : str :=
  match drop_while (fun b => b =r "0") s with [] => lit "0" | s => s end.
Definition compare_decimal_strings (a b : str) : comparison :=
  let a := trim_zeros a in
  let b := trim_zeros b in
  if (length a =? length b)%nat then str_compare a b else Nat.compare (length a) (length b).

Definition scan_quantifier (start : nat) (is_previous_term_quantifiable : bool) : P bool :=
  inc_pos 1 ;;
  c ← char_;
  pwhen (c =r "?") (inc_pos 1) ;;
  pwhen (negb is_previous_term_quantifiable)
    (p ← pos_; err There_is_nothing_available_for_repetition start (p - start)%nat []) ;;
  pret false.

(** [BTreeSet::insert]. *)
Fixpoint insert_name (name : str) (names : list str) : list str :=
  match names with
  | [] => [name]
  | n :: ns =>
      match str_compare name n with
      | Lt => name :: n :: ns
      | Eq => n :: ns
      | Gt => n :: insert_name name ns
      end
  end.

(** The closing brace of a quantifier. *)
Definition close_braces (start : nat) (is_previous_term_quantifiable : bool) : P bool :=
  c ← char_;
  if c ≠r "}" then
    strict ← ask any_unicode_mode_or_non_annex_b;
    if strict : bool then
      p ← pos_; err X_0_expected p 0 [lit "}"] ;; dec_pos 1 ;; scan_quantifier start is_previous_term_quantifiable
    else pret true
  else scan_quantifier start is_previous_term_quantifiable.

(** A quantifier in braces, or text that looks like one; whether the term before
    what follows is quantifiable. *)
Definition scan_braces (start : nat) (ch : Z) (is_previous_term_quantifiable : bool) : P bool :=
  inc_pos 1 ;;
  digits_start ← pos_;
  scan_digits ;;
  min_str ← io get_token_value;
  strict ← ask any_unicode_mode_or_non_annex_b;
  let no_min := match min_str with [] => true | _ => false end in
  let unexpected := err Unexpected_0_Did_you_mean_to_escape_it_with_backslash start 1 [rune_arg ch] in
  let close := close_braces start is_previous_term_quantifiable in
  if negb strict && no_min then pret true
  else
    c ← char_;
    if c =r "," then
      inc_pos 1 ;;
      scan_digits ;;
      max_str ← io get_token_value;
      c ← char_;
      let no_max := match max_str with [] => true | _ => false end in
      if no_min then
        if negb no_max || (c =r "}") then err Incomplete_quantifier_Digit_expected digits_start 0 [] ;; close
        else unexpected ;; pret true
      else
        pwhen (negb no_max && match compare_decimal_strings min_str max_str with Gt => true | _ => false end
               && (strict || (c =r "}")))
          (p ← pos_; err Numbers_out_of_order_in_quantifier digits_start (p - digits_start)%nat []) ;;
        close
    else if no_min then pwhen strict unexpected ;; pret true
    else close.

Section regexp.
Context `{UnicodeId} `{UnicodeCase}.

Definition scan_pattern_modifiers (curr_flags : Z) : P Z :=
  ploop (L := Z) (fun curr_flags =>
    p ← pos_;
    limit ← ask limit;
    if (p <? limit)%nat then
      '(ch, size) ← io (gets (fun s => go_decode_rune (text s) p));
      if (ch =? RUNE_ERROR) || negb (is_identifier_part ch) then pret (inr curr_flags)
      else
        curr_flags ←
          match char_code_to_reg_exp_flag ch with
          | None => err Unknown_regular_expression_flag p size [] ;; pret curr_flags
          | Some f =>
              if flag curr_flags f then err Duplicate_regular_expression_flag p size [] ;; pret curr_flags
              else if negb (flag f FLAGS_MODIFIERS) then
                err This_regular_expression_flag_cannot_be_toggled_within_a_subpattern p size [] ;; pret curr_flags
              else io (check_regular_expression_flag_availability f p size) ;; pret (Z.lor curr_flags f)
          end;
        inc_pos size ;;
        pret (inl curr_flags)
    else pret (inr curr_flags)) curr_flags.

(** A name is in scope when a group around it, or before it in the same
    alternative, has it. *)
Definition named_capturing_groups_contains (scopes : list (list str)) (name : str) : bool :=
  existsb (fun scope => contains_name scope name) scopes.

Definition scan_group_name (is_reference : bool) : P unit :=
  token_start ← pos_;
  io (set_token_start token_start) ;;
  io (scan_identifier 0) ;;
  p ← pos_;
  name ← io get_token_value;
  scopes ← ask named_capturing_groups;
  if (p =? token_start)%nat then err Expected_a_capturing_group_name p 0 []
  else if is_reference then
    put (fun r => with_references (group_name_references r ++ [mkGroupNameReference token_start p name]) r)
  else if named_capturing_groups_contains scopes name then
    err Named_capturing_groups_with_the_same_name_must_be_mutually_exclusive_to_each_other token_start (p - token_start)%nat []
  else
    put (with_scopes (match scopes with [] => [] | scope :: scopes => (name :: scope) :: scopes end)) ;;
    put (fun r => with_specifiers (insert_name name (group_specifiers r)) r).

(** ** Escapes *)

Definition scan_decimal_escape : P bool :=
  ch ← char_;
  if between 49 57 ch then
    start ← pos_;
    scan_digits ;;
    digits ← io get_token_value;
    p ← pos_;
    let value := default i64_max (from_str_radix 10 i64_max digits) in
    put (fun r => with_escapes (decimal_escapes r ++ [mkDecimalEscapeValue start p value]) r) ;;
    pret true
  else pret false.

Definition scan_character_escape (atom_escape : bool) : P str :=
  ch ← char_;
  p ← pos_;
  if ch =? -1 then err Undetermined_character_escape (p - 1)%nat 1 [] ;; pret (lit "\")
  else if ch =r "c" then
    inc_pos 1 ;;
    ch ← char_;
    if is_ascii_letter ch then inc_pos 1 ;; pret (go_rune_string (Z.land ch 0x1f))
    else
      strict ← ask any_unicode_mode_or_non_annex_b;
      if strict : bool then
        p ← pos_; err X_c_must_be_followed_by_an_ASCII_letter (p - 2)%nat 2 [] ;; pret (go_rune_string ch)
      else if atom_escape then dec_pos 1 ;; pret (lit "\")
      else pret (go_rune_string ch)
  else if one_of (lit "^$/\.*+?()[]{}|") ch then inc_pos 1 ;; pret (go_rune_string ch)
  else
    dec_pos 1 ;;
    annex_b ← ask annex_b;
    unicode ← ask any_unicode_mode;
    let flags := ESCAPE_REGULAR_EXPRESSION in
    let flags := if annex_b : bool then Z.lor flags ESCAPE_ANNEX_B else flags in
    let flags := if unicode : bool then Z.lor flags ESCAPE_ANY_UNICODE_MODE else flags in
    let flags := if atom_escape then Z.lor flags ESCAPE_ATOM_ESCAPE else flags in
    io (scan_escape_sequence_bytes flags).

(** The report of an unknown name, with its suggestion. *)
Definition unknown_name (message : Message) (start : nat) (name : str) (candidates : list str) : P unit :=
  p ← pos_;
  err message start (p - start)%nat [] ;;
  suggestion ← io (lift (fun _ => get_spelling_suggestion_for_strings name candidates));
  pwhen (negb (suggestion =s [])) (err Did_you_mean_0 start (p - start)%nat [suggestion]).

(** [\p{Name=Value}], from the equals sign. *)
Definition scan_property_value (start : nat) (name_text : str) : P unit :=
  let property_name := non_binary_unicode_property name_text in
  p ← pos_;
  (if (p =? start)%nat then err Expected_a_Unicode_property_name p 0 []
   else pwhen (property_name =s [])
     (unknown_name Unknown_Unicode_property_name start name_text (map fst NON_BINARY_UNICODE_PROPERTIES))) ;;
  inc_pos 1 ;;
  value_start ← pos_;
  value ← scan_word_characters;
  p ← pos_;
  if (p =? value_start)%nat then err Expected_a_Unicode_property_value p 0 []
  else pwhen (negb (property_name =s []))
    match values_of_non_binary_unicode_properties property_name with
    | Some values =>
        pwhen (negb (contains_name values value)) (unknown_name Unknown_Unicode_property_value value_start value values)
    | None => pret tt
    end.

(** [\p{NameOrValue}]. *)
Definition scan_lone_property (is_character_complement : bool) (start : nat) (name : str) : P unit :=
  p ← pos_;
  sets ← ask unicode_sets_mode;
  if (p =? start)%nat then err Expected_a_Unicode_property_name_or_value p 0 []
  else if contains_name BINARY_UNICODE_PROPERTIES_OF_STRINGS name then
    if negb sets then
      err Any_Unicode_property_that_would_possibly_match_more_than_a_single_character_is_only_available_when_the_Unicode_Sets_v_flag_is_set
        start (p - start)%nat []
    else if is_character_complement then
      err Anything_that_would_possibly_match_more_than_a_single_character_is_invalid_inside_a_negated_character_class
        start (p - start)%nat []
    else put (with_may_contain_strings true)
  else pwhen (negb (contains_name GENERAL_CATEGORY_VALUES name) && negb (contains_name BINARY_UNICODE_PROPERTIES name))
    (unknown_name Unknown_Unicode_property_name_or_value start name
       (GENERAL_CATEGORY_VALUES ++ BINARY_UNICODE_PROPERTIES ++ BINARY_UNICODE_PROPERTIES_OF_STRINGS)).

Definition scan_character_class_escape : P bool :=
  p ← pos_;
  let start := (p - 1)%nat in
  ch ← char_;
  if one_of (lit "dDsSwW") ch then inc_pos 1 ;; pret true
  else if (ch =r "P") || (ch =r "p") then
    inc_pos 1 ;;
    c ← char_;
    strict ← ask any_unicode_mode_or_non_annex_b;
    if c =r "{" then
      inc_pos 1 ;;
      name_start ← pos_;
      name ← scan_word_characters;
      c ← char_;
      (if c =r "=" then scan_property_value name_start name
       else scan_lone_property (ch =r "P") name_start name) ;;
      scan_expected_char 125 ;;
      unicode ← ask any_unicode_mode;
      pwhen (negb unicode)
        (p ← pos_;
         err Unicode_property_value_expressions_are_only_available_when_the_Unicode_u_flag_or_the_Unicode_Sets_v_flag_is_set
           start (p - start)%nat []) ;;
      pret true
    else if strict : bool then
      p ← pos_;
      err X_0_must_be_followed_by_a_Unicode_property_value_expression_enclosed_in_braces (p - 2)%nat 2 [rune_arg ch] ;;
      pret true
    else dec_pos 1 ;; pret false
  else pret false.

Definition scan_atom_escape : P unit :=
  ch ← char_;
  sets ← ask unicode_sets_mode;
  if ch =r "k" then
    inc_pos 1 ;;
    c ← char_;
    strict ← ask any_unicode_mode_or_non_annex_b;
    named ← ask named_capture_groups;
    if c =r "<" then inc_pos 1 ;; scan_group_name true ;; scan_expected_char 62
    else pwhen (strict || named)
      (p ← pos_;
       err X_k_must_be_followed_by_a_capturing_group_name_enclosed_in_angle_brackets (p - 2)%nat 2 [])
  else if (ch =r "q") && sets then
    inc_pos 1 ;;
    p ← pos_;
    err X_q_is_only_available_inside_character_class (p - 2)%nat 2 []
  else
    class ← scan_character_class_escape;
    if class : bool then pret tt
    else
      decimal ← scan_decimal_escape;
      if decimal : bool then pret tt else scan_character_escape true ;; pret tt.

(** ** Character classes *)

Definition is_class_content_exit (ch : Z) : P bool :=
  p ← pos_;
  limit ← ask limit;
  pret ((ch =r "]") || (limit <=? p)%nat).

Definition scan_class_atom : P str :=
  ch ← char_;
  if ch =r "\" then
    inc_pos 1 ;;
    ch ← char_;
    if ch =r "b" then inc_pos 1 ;; pret [0x08]
    else if ch =r "-" then inc_pos 1 ;; pret (go_rune_string ch)
    else
      class ← scan_character_class_escape;
      if class : bool then pret [] else scan_character_escape false
  else scan_source_character.

(** Both bounds are one character, and in the wrong order. *)
Definition out_of_order (min_character max_character : str) : bool :=
  let '(min_value, min_size) := decode_js_string_rune min_character in
  let '(max_value, max_size) := decode_js_string_rune max_character in
  (length min_character =? min_size)%nat && (length max_character =? max_size)%nat && (max_value <? min_value).

Definition is_empty (s : str) : bool := match s with [] => true | _ => false end.

(** The maximum of a range, its minus sign taken. *)
Definition scan_range_maximum (min_start : nat) (min_character : str) : P unit :=
  strict ← ask any_unicode_mode_or_non_annex_b;
  pwhen (is_empty min_character && strict)
    (p ← pos_;
     err A_character_class_range_must_not_be_bounded_by_another_character_class min_start (p - 1 - min_start)%nat []) ;;
  max_start ← pos_;
  max_character ← scan_class_atom;
  p ← pos_;
  if is_empty max_character && strict then
    err A_character_class_range_must_not_be_bounded_by_another_character_class max_start (p - max_start)%nat []
  else if is_empty min_character then pret tt
  else pwhen (out_of_order min_character max_character)
    (err Range_out_of_order_in_character_class min_start (p - min_start)%nat []).

Definition scan_class_ranges : P unit :=
  put (with_pending 0) ;;
  c ← char_;
  pwhen (c =r "^") (inc_pos 1) ;;
  ploop (L := unit) (fun _ =>
    min_start ← pos_;
    limit ← ask limit;
    if (min_start <? limit)%nat then
      ch ← char_;
      exit ← is_class_content_exit ch;
      if exit : bool then pret (inr tt)
      else
        min_character ← scan_class_atom;
        c ← char_;
        if c =r "-" then
          inc_pos 1 ;;
          ch ← char_;
          exit ← is_class_content_exit ch;
          if exit : bool then pret (inr tt)
          else scan_range_maximum min_start min_character ;; pret (inl tt)
        else pret (inl tt)
    else pret (inr tt)) tt.

(** ** Class sets *)

Definition scan_class_set_character : P str :=
  ch ← char_;
  p ← pos_;
  limit ← ask limit;
  let single :=
    if one_of (lit "/()[]{}-|") ch then
      err Unexpected_0_Did_you_mean_to_escape_it_with_backslash p 1 [rune_arg ch] ;;
      inc_pos 1 ;;
      pret (go_rune_string ch)
    else scan_source_character in
  if ch =r "\" then
    inc_pos 1 ;;
    inner_ch ← char_;
    if inner_ch =r "b" then inc_pos 1 ;; pret [0x08]
    else if one_of (lit "&-!#%,:;<=>@`~") inner_ch then inc_pos 1 ;; pret (go_rune_string inner_ch)
    else scan_character_escape false
  else if (p + 1 <? limit)%nat then
    next ← io (byte_at (p + 1));
    if (ch =? next) && one_of (lit "&!#%*+,.:;<=>?@`~") ch then
      err A_character_class_must_not_contain_a_reserved_double_punctuator_Did_you_mean_to_escape_it_with_backslash p 2 [] ;;
      inc_pos 2 ;;
      io (bytes_slice p (p + 2))
    else single
  else single.

Definition scan_class_string_disjunction_contents : P unit :=
  ploop (L := nat) (fun character_count =>
    p ← pos_;
    limit ← ask limit;
    if (p <? limit)%nat then
      ch ← char_;
      if ch =r "}" then
        pwhen (negb (character_count =? 1)%nat) (put (with_may_contain_strings true)) ;; pret (inr tt)
      else if ch =r "|" then
        pwhen (negb (character_count =? 1)%nat) (put (with_may_contain_strings true)) ;;
        inc_pos 1 ;; pret (inl 0%nat)
      else scan_class_set_character ;; pret (inl (S character_count))
    else pret (inr tt)) 0%nat.

(** [class_set_expression] is the nested class set expression. *)
Definition scan_class_set_operand (class_set_expression : P unit) : P str :=
  put (with_may_contain_strings false) ;;
  ch ← char_;
  if ch =r "[" then
    inc_pos 1 ;;
    class_set_expression ;;
    scan_expected_char 93 ;;
    pret []
  else if ch =r "\" then
    inc_pos 1 ;;
    class ← scan_character_class_escape;
    if class : bool then pret []
    else
      c ← char_;
      if c =r "q" then
        inc_pos 1 ;;
        c ← char_;
        if c =r "{" then
          inc_pos 1 ;;
          scan_class_string_disjunction_contents ;;
          scan_expected_char 125 ;;
          pret []
        else
          p ← pos_;
          err X_q_must_be_followed_by_string_alternatives_enclosed_in_braces (p - 2)%nat 2 [] ;;
          pret (lit "q")
      else dec_pos 1 ;; scan_class_set_character
  else scan_class_set_character.

Definition Operators_must_not_be_mixed : Message :=
  Operators_must_not_be_mixed_within_a_character_class_Wrap_it_in_a_nested_class_instead.

(** An ampersand where one is not expected, [ch] as the source reports it. *)
Definition unexpected (p : nat) (ch : Z) : P unit :=
  err Unexpected_0_Did_you_mean_to_escape_it_with_backslash p 1 [rune_arg ch].

(** The operator before an operand of an intersection or a subtraction. *)
Definition scan_class_set_operator (expression_type : ClassSetExpressionType) (ch : Z) : P unit :=
  if ch =r "-" then
    inc_pos 1 ;;
    c ← char_;
    if c =r "-" then
      inc_pos 1 ;;
      p ← pos_;
      pwhen (match expression_type with ClassSubtraction => false | _ => true end)
        (err Operators_must_not_be_mixed (p - 2)%nat 2 [])
    else p ← pos_; err Operators_must_not_be_mixed (p - 1)%nat 1 []
  else if ch =r "&" then
    inc_pos 1 ;;
    c ← char_;
    if c =r "&" then
      inc_pos 1 ;;
      p ← pos_;
      pwhen (match expression_type with ClassIntersection => false | _ => true end)
        (err Operators_must_not_be_mixed (p - 2)%nat 2 []) ;;
      c ← char_;
      pwhen (c =r "&") (unexpected p ch ;; inc_pos 1)
    else p ← pos_; unexpected (p - 1)%nat ch
  else
    p ← pos_;
    match expression_type with
    | ClassSubtraction => err X_0_expected p 0 [lit "--"]
    | ClassIntersection => err X_0_expected p 0 [lit "&&"]
    end.

Definition scan_class_set_sub_expression (class_set_expression : P unit) (expression_type : ClassSetExpressionType) : P unit :=
  expression_may_contain_strings ← ask may_contain_strings;
  expression_may_contain_strings ← ploop (L := bool) (fun expression_may_contain_strings =>
    p ← pos_;
    limit ← ask limit;
    if (p <? limit)%nat then
      ch ← char_;
      exit ← is_class_content_exit ch;
      if exit : bool then pret (inr expression_may_contain_strings)
      else
        scan_class_set_operator expression_type ch ;;
        ch ← char_;
        exit ← is_class_content_exit ch;
        if exit : bool then
          p ← pos_; err Expected_a_class_set_operand p 0 [] ;; pret (inr expression_may_contain_strings)
        else
          scan_class_set_operand class_set_expression ;;
          may ← ask may_contain_strings;
          pret (inl (match expression_type with
                     | ClassIntersection => expression_may_contain_strings && may
                     | ClassSubtraction => expression_may_contain_strings
                     end))
    else pret (inr expression_may_contain_strings)) expression_may_contain_strings;
  put (with_may_contain_strings expression_may_contain_strings).

(** A negated class must not hold strings. *)
Definition check_complement (is_character_complement : bool) (start : nat) : P unit :=
  may ← ask may_contain_strings;
  pwhen (is_character_complement && may)
    (p ← pos_;
     err Anything_that_would_possibly_match_more_than_a_single_character_is_invalid_inside_a_negated_character_class
       start (p - start)%nat []).

(** The second bound of a range, its minus sign taken; whether it may hold
    strings. *)
Definition scan_class_set_range (class_set_expression : P unit) (is_character_complement : bool) (start : nat) (operand : str)
    : P bool :=
  pwhen (is_empty operand)
    (p ← pos_; err A_character_class_range_must_not_be_bounded_by_another_character_class start (p - 1 - start)%nat []) ;;
  second_start ← pos_;
  second_operand ← scan_class_set_operand class_set_expression;
  check_complement is_character_complement second_start ;;
  may ← ask may_contain_strings;
  p ← pos_;
  (if is_empty second_operand then
     err A_character_class_range_must_not_be_bounded_by_another_character_class second_start (p - second_start)%nat []
   else pwhen (negb (is_empty operand) && out_of_order operand second_operand)
     (err Range_out_of_order_in_character_class start (p - start)%nat [])) ;;
  pret may.

(** An ampersand in a union. *)
Definition scan_union_ampersand (ch : Z) : P unit :=
  inc_pos 1 ;;
  c ← char_;
  if c =r "&" then
    inc_pos 1 ;;
    p ← pos_;
    err Operators_must_not_be_mixed (p - 2)%nat 2 [] ;;
    c ← char_;
    pwhen (c =r "&") (unexpected p ch ;; inc_pos 1)
  else p ← pos_; unexpected (p - 1)%nat ch.

(** The operand that ends a round of the union, or the exit of the class. *)
Definition next_operand (class_set_expression : P unit) (may_hold : bool) : P (bool * nat * str + bool) :=
  c ← char_;
  exit ← is_class_content_exit c;
  if exit : bool then pret (inr may_hold)
  else
    start ← pos_;
    chars ← two_chars;
    if (chars =s lit "--") || (chars =s lit "&&") then
      err Operators_must_not_be_mixed start 2 [] ;;
      inc_pos 2 ;;
      operand ← io (bytes_slice start (start + 2));
      pret (inl (may_hold, start, operand))
    else
      operand ← scan_class_set_operand class_set_expression;
      pret (inl (may_hold, start, operand)).

(** One round of the union: the locals are whether it may hold strings, and the
    start and text of the last operand. *)
Definition scan_class_union_round (class_set_expression : P unit) (is_character_complement : bool)
    : bool * nat * str -> P (bool * nat * str + bool) := fun '(may_hold, start, operand) =>
  p ← pos_;
  limit ← ask limit;
  if (p <? limit)%nat then
    ch ← char_;
    if ch =r "-" then
      inc_pos 1 ;;
      ch ← char_;
      exit ← is_class_content_exit ch;
      if exit : bool then pret (inr may_hold)
      else if ch =r "-" then
        inc_pos 1 ;;
        p ← pos_;
        err Operators_must_not_be_mixed (p - 2)%nat 2 [] ;;
        operand ← io (bytes_slice (p - 2) p);
        pret (inl (may_hold, (p - 2)%nat, operand))
      else
        may ← scan_class_set_range class_set_expression is_character_complement start operand;
        next_operand class_set_expression (may_hold || may)
    else if ch =r "&" then
      start ← pos_;
      scan_union_ampersand ch ;;
      p ← pos_;
      operand ← io (bytes_slice start p);
      pret (inl (may_hold, start, operand))
    else next_operand class_set_expression may_hold
  else pret (inr may_hold).

(** A union, from the operands taken. *)
Definition scan_class_union (class_set_expression : P unit) (is_character_complement : bool) (start : nat) (operand : str)
    (may_hold : bool) : P unit :=
  may_hold ← ploop (scan_class_union_round class_set_expression is_character_complement) (may_hold, start, operand);
  put (with_may_contain_strings (negb is_character_complement && may_hold)).

(** The rest of a class set after its first operand is an intersection, a
    subtraction or a union. *)
Definition scan_class_set_rest (class_set_expression : P unit) (is_character_complement : bool) (first_ch : Z) (start : nat) (operand : str)
    : P unit :=
  let union_from := scan_class_union class_set_expression is_character_complement start operand in
  ch ← char_;
  p ← pos_;
  limit ← ask limit;
  next ← (if (p + 1 <? limit)%nat then io (byte_at (p + 1)) else pret (-1));
  if ch =r "-" then
    if next =r "-" then
      check_complement is_character_complement start ;;
      may_hold ← ask may_contain_strings;
      scan_class_set_sub_expression class_set_expression ClassSubtraction ;;
      put (with_may_contain_strings (negb is_character_complement && may_hold))
    else union_from false
  else if ch =r "&" then
    if next =r "&" then
      scan_class_set_sub_expression class_set_expression ClassIntersection ;;
      check_complement is_character_complement start ;;
      may_hold ← ask may_contain_strings;
      put (with_may_contain_strings (negb is_character_complement && may_hold))
    else unexpected p first_ch ;; union_from false
  else
    check_complement is_character_complement start ;;
    may_hold ← ask may_contain_strings;
    union_from may_hold.

Fixpoint scan_class_set_expression (fuel : nat) : P unit :=
  match fuel with
  | O => fun _ _ => OutOfFuel
  | S fuel =>
      let class_set_expression := scan_class_set_expression fuel in
      c ← char_;
      let is_character_complement := c =r "^" in
      pwhen is_character_complement (inc_pos 1) ;;
      ch ← char_;
      exit ← is_class_content_exit ch;
      if exit : bool then pret tt
      else
        start ← pos_;
        chars ← two_chars;
        operand ←
          (if (chars =s lit "--") || (chars =s lit "&&") then
             err Expected_a_class_set_operand start 0 [] ;;
             put (with_may_contain_strings false) ;;
             pret []
           else scan_class_set_operand class_set_expression);
        scan_class_set_rest class_set_expression is_character_complement ch start operand
  end.

(** ** Patterns *)

(** A group's opening, its parenthesis taken, up to its disjunction; whether the
    group is quantifiable. *)
Definition scan_group_opening : P bool :=
  c ← char_;
  if c =r "?" then
    inc_pos 1 ;;
    c ← char_;
    strict ← ask any_unicode_mode_or_non_annex_b;
    if (c =r "=") || (c =r "!") then inc_pos 1 ;; pret (negb strict)
    else if c =r "<" then
      group_name_start ← pos_;
      inc_pos 1 ;;
      c ← char_;
      if (c =r "=") || (c =r "!") then inc_pos 1 ;; pret false
      else
        scan_group_name false ;;
        scan_expected_char 62 ;;
        version ← io (gets language_version);
        pwhen (target_rank version <? target_rank ES2018)
          (p ← pos_;
           err Named_capturing_groups_are_only_available_when_targeting_ES2018_or_later
             group_name_start (p - group_name_start)%nat []) ;;
        put (fun r => with_number (number_of_capturing_groups r + 1) r) ;;
        pret true
    else
      flags_start ← pos_;
      set_flags ← scan_pattern_modifiers FLAGS_NONE;
      c ← char_;
      pwhen (c =r "-")
        (inc_pos 1 ;;
         scan_pattern_modifiers set_flags ;;
         p ← pos_;
         pwhen (p =? flags_start + 1)%nat
           (err Subpattern_flags_must_be_present_when_there_is_a_minus_sign flags_start (p - flags_start)%nat [])) ;;
      scan_expected_char 58 ;;
      pret true
  else
    put (fun r => with_number (number_of_capturing_groups r + 1) r) ;;
    pret true.

Definition scan_class (fuel : nat) : P unit :=
  sets ← ask unicode_sets_mode;
  (if sets : bool then scan_class_set_expression fuel
   else scan_class_ranges ;; put (with_pending 0)) ;;
  scan_expected_char 93.

(** One term, at a character before the limit; [disjunction] is the body of a
    group. *)
Definition scan_term (fuel : nat) (disjunction : P unit) (is_in_group is_previous_term_quantifiable : bool)
    : P (bool + unit) :=
  start ← pos_;
  ch ← char_;
  strict ← ask any_unicode_mode_or_non_annex_b;
  if (ch =r "^") || (ch =r "$") then inc_pos 1 ;; pret (inl false)
  else if ch =r "\" then
    inc_pos 1 ;;
    c ← char_;
    if (c =r "b") || (c =r "B") then inc_pos 1 ;; pret (inl false)
    else scan_atom_escape ;; pret (inl true)
  else if ch =r "(" then
    inc_pos 1 ;;
    quantifiable ← scan_group_opening;
    disjunction ;;
    scan_expected_char 41 ;;
    pret (inl quantifiable)
  else if ch =r "{" then
    quantifiable ← scan_braces start ch is_previous_term_quantifiable; pret (inl quantifiable)
  else if one_of (lit "*+?") ch then
    quantifiable ← scan_quantifier start is_previous_term_quantifiable; pret (inl quantifiable)
  else if ch =r "." then inc_pos 1 ;; pret (inl true)
  else if ch =r "[" then inc_pos 1 ;; scan_class fuel ;; pret (inl true)
  else if (ch =r ")") && is_in_group then pret (inr tt)
  else if one_of (lit ")]}") ch then
    pwhen (strict || (ch =r ")")) (unexpected start ch) ;;
    inc_pos 1 ;;
    pret (inl true)
  else if (ch =r "/") || (ch =r "|") then pret (inr tt)
  else scan_source_character ;; pret (inl true).

Definition scan_alternative (fuel : nat) (disjunction : P unit) (is_in_group : bool) : P unit :=
  ploop (L := bool) (fun is_previous_term_quantifiable =>
    p ← pos_;
    limit ← ask limit;
    if (p <? limit)%nat then scan_term fuel disjunction is_in_group is_previous_term_quantifiable
    else pret (inr tt)) false.

(** Every nested group is a parenthesis further into the body. *)
Fixpoint scan_disjunction (fuel : nat) (is_in_group : bool) : P unit :=
  match fuel with
  | O => fun _ _ => OutOfFuel
  | S fuel =>
      ploop (L := unit) (fun _ =>
        put (fun r => with_scopes ([] :: named_capturing_groups r) r) ;;
        scan_alternative fuel (scan_disjunction fuel true) is_in_group ;;
        put (fun r => with_scopes (tail (named_capturing_groups r)) r) ;;
        c ← char_;
        if c ≠r "|" then pret (inr tt) else inc_pos 1 ;; pret (inl tt)) tt
  end.

(** ** The checks after the scan *)

Definition check_reference (specifiers : list str) (g : GroupNameReference) : M unit :=
  if contains_name specifiers (ref_name g) then ret tt
  else
    error_at There_is_no_capturing_group_named_0_in_this_regular_expression (ref_pos g) (ref_end g - ref_pos g) [ref_name g] ;;
    match specifiers with
    | [] => ret tt
    | _ =>
        suggestion ← lift (fun _ => get_spelling_suggestion_for_strings (ref_name g) specifiers);
        when (negb (suggestion =s [])) (error_at Did_you_mean_0 (ref_pos g) (ref_end g - ref_pos g) [suggestion])
    end.

Definition check_decimal_escape (groups : Z) (e : DecimalEscapeValue) : M unit :=
  when (groups <? esc_value e)
    (if 0 <? groups then
       error_at This_backreference_refers_to_a_group_that_does_not_exist_There_are_only_0_capturing_groups_in_this_regular_expression
         (esc_pos e) (esc_end e - esc_pos e) [render 10 groups]
     else
       error_at This_backreference_refers_to_a_group_that_does_not_exist_There_are_no_capturing_groups_in_this_regular_expression
         (esc_pos e) (esc_end e - esc_pos e) []).

Fixpoint for_each {A} (f : A -> M unit) (l : list A) : M unit :=
  match l with [] => ret tt | a :: l => f a ;; for_each f l end.

Definition run (r : RegExpParser) : M unit := fun s =>
  (let r := with_strict (any_unicode_mode r || negb (annex_b r)) r in
   '(_, r) ← scan_disjunction (S (length (text s))) false r;
   for_each (check_reference (group_specifiers r)) (group_name_references r) ;;
   for_each (check_decimal_escape (number_of_capturing_groups r)) (decimal_escapes r)) s.

(** The validator [Rescan.re_scan_slash_token] runs. *)
Definition validate (limit : nat) (reg_exp_flags : Z) (named_capture_groups : bool) : M unit :=
  run (new_parser limit reg_exp_flags named_capture_groups).
End regexp.

(** [checkGrammarRegularExpressionLiteral] for the literal at [start]. *)
Definition regular_expression_literal_diagnostics `{UnicodeId} `{UnicodeCase} (text : str) (jsx : bool)
    (language_version : ScriptTarget) (start : nat) : result (list Diagnostic) :=
  let s := new text jsx in
  let s := {| text := ScanState.text s; end_ := end_ s; ScanState.jsx := ScanState.jsx s; skips_trivia := skips_trivia s;
              state := state s; diagnostics := diagnostics s; has_parse_error := has_parse_error s;
              ScanState.language_version := language_version |} in
  match (reset_token_state start ;; Scan.scan ;; re_scan_slash_token validate true) s with
  | Ok (_, s) => Ok (diagnostics s)
  | Panic => Panic
  | OutOfFuel => OutOfFuel
  end.

(** ** Examples *)

(** The code, start and end of each error. *)
Definition errors_of `{UnicodeId} (text : str) : result (list (Z * (nat * nat))) :=
  ds ← regular_expression_literal_diagnostics (H0 := ascii_case) text false ESNext 0;
  Ok (map (fun d => (mcode (dmessage d), (dstart d, dend d))) ds).

#[local] Existing Instance latin1.
Example validator_examples :
  errors_of (lit "/a(?<x>b)\k<x>{1,2}[a-z]/u") = Ok []
  /\ errors_of (lit "/[z-a]/") = Ok [(1517, (2, 5)%nat)]
  /\ errors_of (lit "/\1/") = Ok [(1534, (2, 3)%nat)]
  /\ errors_of (lit "/a{2,1}/") = Ok [(1506, (3, 6)%nat)]
  /\ errors_of (lit "/(?<a>x)(?<a>y)\k<b>/") = Ok [(1515, (11, 12)%nat); (1532, (18, 19)%nat)]
  /\ errors_of (lit "/[\w--[a&&b]]/v") = Ok []
  /\ errors_of (lit "/\p{Scirpt=Greek}/u") = Ok [(1524, (4, 10)%nat)]
  /\ errors_of (lit "/[𝒳-𝒴]/") = Ok [(1517, (2, 7)%nat)]
  /\ errors_of (lit "/[𝒳-𝒴]/u") = Ok []
  /\ errors_of (lit "/(?i-i:a)+?)/") = Ok [(1500, (5, 6)%nat); (1508, (11, 12)%nat)].
Proof. by vm_compute. Qed.
