(* ===== verification/RegExpLogic.v ===== *)
(** * A program logic for the regular expression validator

    The total correctness of a method of [RegExpParser] over a scanner narrowed
    to the body of a literal: the rules of the methods' building blocks, the
    rule of a loop, and the tactics that apply them. *)

From S2P Require Import Prelude Utf8 RustStr Chars Kind Diagnostics ScanText ScanState ScanEscapes Rescan.
From S2P Require Import ScanLogic ScanSafe ScanTotal Spelling UnicodeTables RegExp.

Local Open Scope nat_scope.

(** ** Decoding anywhere *)

(** The width of a character is in its first byte. *)
Lemma encode_width c b r :
  scalar c = true -> encode c = b :: r -> (128 <= b)%Z ->
  (if between 0xC2 0xDF b then Some 2 else if between 0xE0 0xEF b then Some 3
   else if between 0xF0 0xF4 b then Some 4 else None) = Some (length (encode c)).
Proof.
  intros Hs. unfold scalar in Hs. unfold encode. bools. if_split; intros He; simplify_eq; intros Hb.
  all: bools; try zlia; try done.
Qed.

(** ** Program logic *)

(** The total correctness of a method of the parser. *)
Definition wpP {A} (m : P A) (Q : A -> RegExpParser -> Scanner -> Prop) (r : RegExpParser) (s : Scanner) : Prop :=
  wp (m r) (fun '(a, r') s' => Q a r' s') s.

Lemma wpP_bind {A B} (m : P A) (f : A -> P B) Q r s :
  wpP m (fun a r' s' => wpP (f a) Q r' s') r s -> wpP (m ≫= f) Q r s.
Proof.
  intros H. unfold wpP, mbind, P_bind. apply wp_bind. eapply wp_mono; [exact H|]. by intros [a r'] s'.
Qed.

Lemma wpP_mono {A} (m : P A) (Q R : A -> RegExpParser -> Scanner -> Prop) r s :
  wpP m Q r s -> (forall a r' s', Q a r' s' -> R a r' s') -> wpP m R r s.
Proof. intros H HQ. eapply wp_mono; [exact H|]. intros [a r'] s'. apply HQ. Qed.

Lemma wpP_ret {A} (a : A) Q r s : Q a r s -> wpP (pret a) Q r s.
Proof. done. Qed.

Lemma wpP_ask {A} (f : RegExpParser -> A) Q r s : Q (f r) r s -> wpP (ask f) Q r s.
Proof. done. Qed.

Lemma wpP_io {A} (m : M A) (Q : A -> RegExpParser -> Scanner -> Prop) r s :
  wp m (fun a s' => Q a r s') s -> wpP (io m) Q r s.
Proof. intros H. unfold wpP, io. apply wp_bind. eapply wp_mono; [exact H|]. done. Qed.

(** Half a character is still to be emitted, or not. *)
Definition pend (r : RegExpParser) : nat := if (pending_low_surrogate r =? 0)%Z then 1 else 0.

Lemma pend_le r : pend r <= 1.
Proof. unfold pend. case_split; lia. Qed.

Section logic.
Context (s0 : Scanner) (Hok : text_ok s0).
Local Abbreviation t := (text s0).
Local Abbreviation len := (end_ s0).
Local Abbreviation B := (B s0).

(** The scanner while the validator runs: it moves, and sets the token's
    start, value and flags. *)
Record within (s : Scanner) : Prop := {
  in_text : text s = t;
  in_end : end_ s = len;
  in_jsx : jsx s = jsx s0;
  in_skips : skips_trivia s = skips_trivia s0;
  in_version : language_version s = language_version s0;
  in_token : token (state s) = token (state s0);
  in_full_start : full_start_pos (state s) = full_start_pos (state s0);
  in_diagnostics : diagnostics s0 `prefix_of` diagnostics s
}.

(** At a position of the body, with [k] for the half character. *)
Record st (p k : nat) (r : RegExpParser) (s : Scanner) : Prop := {
  st_in : within s;
  st_pos : pos (state s) = p;
  st_le : p <= len;
  st_limit : limit r = len;
  st_pend : pend r = k
}.

(** What every round of a loop decreases. *)
Definition left (p k : nat) : nat := 2 * (len - p) + k.

(** A method moved on from [p], to fewer than [n] rounds. *)
Definition post {A} (n p : nat) (R : A -> nat -> Prop) (a : A) (r : RegExpParser) (s : Scanner) : Prop :=
  exists p' k', st p' k' r s /\ p <= p' /\ left p' k' < n /\ R a p'.

Lemma st_pend_le p k r s : st p k r s -> k <= 1.
Proof. intros [_ _ _ _ <-]. apply pend_le. Qed.

Lemma within_ok s : within s -> text_ok s.
Proof. intros [Ht He]. destruct Hok. split; congruence. Qed.

Lemma within_at s p s' : within s -> at_ s p s' -> within s'.
Proof. intros [] []. split; try congruence. by etrans. Qed.

Lemma st_at p k r s q s' : st p k r s -> at_ s q s' -> q <= len -> st q k r s'.
Proof. intros [] Ha. split; try done; [by eapply within_at|by destruct Ha]. Qed.

Lemma st_same p k r s : st p k r s -> at_ s p s.
Proof. intros [_ <- _ _]. apply at_refl. Qed.

(** *** Rules *)

Lemma wpP_pos Q p k r s : st p k r s -> Q p r s -> wpP pos_ Q r s.
Proof. intros Hs H. apply wpP_io. eapply (wp_get_pos s); [by eapply st_same|done]. Qed.

Lemma wpP_limit Q p k r s : st p k r s -> Q len r s -> wpP (ask limit) Q r s.
Proof. intros [] H. apply wpP_ask. by rewrite st_limit0. Qed.

Lemma wpP_inc Q p k n r s :
  st p k r s -> p + n <= len -> (forall s', st (p + n) k r s' -> Q tt r s') -> wpP (inc_pos n) Q r s.
Proof.
  intros Hs Hn H. apply wpP_io. eapply (wp_advance s); [by eapply st_same|].
  intros s' Hs'. apply H. by eapply st_at.
Qed.

Lemma wpP_dec Q p k n r s :
  st p k r s -> (forall s', st (p - n) k r s' -> Q tt r s') -> wpP (dec_pos n) Q r s.
Proof.
  intros Hs H. apply wpP_io. eapply (wp_retreat s); [by eapply st_same|].
  intros s' Hs'. apply H. eapply st_at; [done..|]. destruct Hs. lia.
Qed.

Lemma char_is_within s p ch : within s -> char_is s p ch -> char_is s0 p ch.
Proof. intros [Ht He]. unfold char_is. by rewrite Ht, He. Qed.

Lemma wpP_byte_at Q p k i r s :
  st p k r s -> (forall ch, char_is s0 i ch -> Q ch r s) -> wpP (io (byte_at i)) Q r s.
Proof.
  intros Hs H. apply wpP_io. eapply (wp_byte_at s); [apply within_ok, Hs|by eapply st_same|].
  intros ch Hch. apply H. eapply char_is_within; [apply Hs|done].
Qed.

Lemma wpP_char Q p k r s : st p k r s -> (forall ch, char_is s0 p ch -> Q ch r s) -> wpP char_ Q r s.
Proof.
  intros Hs H. apply wpP_io. eapply (wp_char s); [apply within_ok, Hs|by eapply st_same|].
  intros ch Hch. apply H. eapply char_is_within; [apply Hs|done].
Qed.

Lemma wpP_err Q p k m a n args r s :
  st p k r s -> (forall s', st p k r s' -> Q tt r s') -> wpP (err m a n args) Q r s.
Proof.
  intros Hs H. apply wpP_io. eapply (wp_error_at s); [by eapply st_same|].
  intros s' Hs'. apply H. eapply st_at; [done..|apply Hs].
Qed.

Lemma wpP_set_token_value Q p k v r s :
  st p k r s -> (forall s', st p k r s' -> Q tt r s') -> wpP (io (set_token_value v)) Q r s.
Proof.
  intros Hs H. apply wpP_io. eapply (wp_set_token_value s); [by eapply st_same|].
  intros s' Hs'. apply H. eapply st_at; [done..|apply Hs].
Qed.

Lemma wpP_set_token_start Q p k v r s :
  st p k r s -> (forall s', st p k r s' -> Q tt r s') -> wpP (io (set_token_start v)) Q r s.
Proof. intros [[] ? ? ?] H. apply wpP_io. apply H. split; [by split|done..]. Qed.

Lemma wpP_token_value (Q : str -> RegExpParser -> Scanner -> Prop) r s :
  (forall v, Q v r s) -> wpP (io get_token_value) Q r s.
Proof. intros H. apply wpP_io. apply H. Qed.

Lemma wpP_gets {A} (f : Scanner -> A) (Q : A -> RegExpParser -> Scanner -> Prop) r s :
  Q (f s) r s -> wpP (io (gets f)) Q r s.
Proof. intros H. apply wpP_io. apply H. Qed.

Lemma wpP_text_slice (Q : str -> RegExpParser -> Scanner -> Prop) p k a b r s :
  st p k r s -> a <= b -> B a -> B b -> (forall v, Q v r s) -> wpP (io (text_slice a b)) Q r s.
Proof.
  intros Hs Hab Ha Hb H. apply wpP_io. pose proof Hs as [[Ht He] _]. unfold ScanLogic.B in *.
  eapply (wp_text_slice s); [apply within_ok, Hs|by eapply st_same|done| | |apply H]; unfold ScanLogic.B; by rewrite Ht, He.
Qed.

Lemma wpP_bytes_slice (Q : str -> RegExpParser -> Scanner -> Prop) p k a b r s :
  st p k r s -> a <= b -> b <= len -> (forall v, Q v r s) -> wpP (io (bytes_slice a b)) Q r s.
Proof.
  intros Hs Hab Hb H. apply wpP_io. pose proof Hs as [[Ht He] _].
  eapply (wp_bytes_slice s); [apply within_ok, Hs|by eapply st_same|done|lia|apply H].
Qed.

Lemma wpP_put Q p k f r s :
  st p k r s -> limit (f r) = limit r -> pending_low_surrogate (f r) = pending_low_surrogate r ->
  (st p k (f r) s -> Q tt (f r) s) -> wpP (put f) Q r s.
Proof.
  intros [] Hl Hp H. unfold wpP, put. apply H. split; try done; [congruence|]. unfold pend. by rewrite Hp.
Qed.

(** A character split in two, begun or finished. *)
Lemma wpP_put_pending Q p k v r s :
  st p k r s -> (st p (if (v =? 0)%Z then 1 else 0) (with_pending v r) s -> Q tt (with_pending v r) s) ->
  wpP (put (with_pending v)) Q r s.
Proof. intros [] H. unfold wpP, put. apply H. destruct r. by split. Qed.

Lemma wpP_weaken {A} (m : P A) n n' p p' (R R' : A -> nat -> Prop) r s :
  wpP m (post n p R) r s -> n <= n' -> p' <= p -> (forall a q, R a q -> R' a q) -> wpP m (post n' p' R') r s.
Proof.
  intros H Hn Hp HR. eapply wpP_mono; [exact H|]. intros a r' s' (q & k & ? & ? & ? & ?).
  exists q, k. split_and!; [done|lia|lia|auto].
Qed.

(** A loop: an invariant on the locals, the position and the half character. *)
Lemma wpP_loop {L A} (I : L -> nat -> Prop) (R : A -> nat -> Prop) (body : L -> P (L + A)) init p k r s n :
  st p k r s -> I init p -> left p k < n ->
  (forall l q j r s, st q j r s -> I l q -> left q j < n ->
     wpP (body l) (fun x r' s' => exists q' j', st q' j' r' s' /\
       match x with inl l' => I l' q' /\ left q' j' < left q j | inr a => R a q' /\ left q' j' <= left q j /\ p <= q' end) r s) ->
  wpP (ploop body init) (post n p R) r s.
Proof.
  intros Hs HI Hn Hbody. unfold wpP, ploop. cbv beta.
  eapply (wp_loop_fuel _ (fun '(l, r) s => exists q j, st q j r s /\ I l q /\ left q j < n)
            (fun '(l, r) s => left (pos (state s)) (pend r))).
  - by exists p, k.
  - pose proof (end_le s0 Hok). pose proof (st_pend_le _ _ _ _ Hs). destruct Hs as [[Ht] <- ? ? <-]. unfold left.
    rewrite Ht. lia.
  - intros [l r1] s1 (q & j & Hs1 & HI1 & Hlt). cbv beta iota. apply wp_bind.
    eapply wp_mono; [by eapply Hbody|]. intros [[l2|a] r2] s2 (q2 & j2 & Hs2 & H2); apply wp_ret.
    + destruct H2 as [HI2 Hlt2]. split; [exists q2, j2; split_and!; done || lia|].
      destruct Hs1 as [_ <- _ _ <-], Hs2 as [_ <- _ _ <-]. done.
    + destruct H2 as (HR & Hle & Hp). exists q2, j2. split_and!; done || lia.
Qed.

(** A method of the scanner that only moves. *)
Lemma wpP_scanner {A} (m : M A) (Q : A -> RegExpParser -> Scanner -> Prop) p q k r s (R : A -> nat -> Prop) :
  st p k r s ->
  (text_ok s -> at_ s p s -> (forall i c, char_is s0 i c -> char_is s i c) -> (forall i, B i -> ScanLogic.B s i) ->
     wp m (moved s q R) s) ->
  (forall a p' s', st p' k r s' -> B p' -> q <= p' -> R a p' -> Q a r s') ->
  wpP (io m) Q r s.
Proof.
  intros Hs Hm H. pose proof Hs as [[Ht He] _]. apply wpP_io. eapply wp_mono.
  - apply Hm; [apply within_ok, Hs|by eapply st_same| |].
    + intros i c. unfold char_is. by rewrite Ht, He.
    + intros i. unfold ScanLogic.B. by rewrite Ht, He.
  - cbv beta. intros a s' (p' & Ha & HB & Hq & HR). unfold ScanLogic.B in HB. rewrite Ht, He in HB.
    apply (H a p'); try done. eapply st_at; [done..|apply HB].
Qed.

(** Decoding at any position of the body stays in it. *)
Lemma go_decode_rune_in p :
  p < len -> 1 <= snd (go_decode_rune t p) /\ p + snd (go_decode_rune t p) <= len.
Proof.
  intros Hp. pose proof (end_le s0 Hok) as Hlen. pose proof (text_utf8 _ Hok) as Hu.
  unfold go_decode_rune. destruct (lookup_lt_is_Some_2 t p ltac:(lia)) as [b Hb]. rewrite Hb.
  destruct (b <? 128)%Z eqn:E1; [simpl; lia|].
  destruct (is_char_boundary t p) eqn:EB.
  - destruct (decode_at t p Hu EB ltac:(lia)) as (c & b' & Hc & Hb' & _ & Ht & _).
    assert (b' = b) as -> by congruence. destruct (encode_first c Hc) as (b' & r & Ee & _).
    assert (b' = b) as ->.
    { assert (drop p t !! 0 = Some b) as Hd by (by rewrite lookup_drop, Nat.add_0_r).
      rewrite <- (take_drop (length (encode c)) (drop p t)), Ht, Ee in Hd. simpl in Hd. congruence. }
    rewrite (encode_width c b r Hc Ee ltac:(lia)). pose proof (encode_length c).
    pose proof (boundary_gap s0 Hok p c Hc Ht Hp). destruct (slice_range _ _ _ ≫= _); simpl; lia.
  - unfold is_char_boundary in EB. destruct (p =? length t) eqn:E2; [done|]. rewrite Hb in EB.
    unfold cont in EB. bools.
    replace (between 0xC2 0xDF b) with false by lia. replace (between 0xE0 0xEF b) with false by lia.
    replace (between 0xF0 0xF4 b) with false by lia. simpl. lia.
Qed.

Lemma wpP_decode Q p k r s :
  st p k r s -> p < len -> (forall ch size, 1 <= size -> p + size <= len -> Q (ch, size) r s) ->
  wpP (io (gets (fun s => go_decode_rune (text s) p))) Q r s.
Proof.
  intros Hs Hp H. apply wpP_gets. rewrite (in_text s (st_in _ _ _ _ Hs)).
  pose proof (go_decode_rune_in p Hp) as [H1 H2]. destruct (go_decode_rune t p) as [ch size]. by apply H.
Qed.

Lemma one_of_ascii l ch : asciib l = true -> one_of l ch = true -> (0 <= ch < 128)%Z.
Proof.
  unfold asciib, one_of. rewrite forallb_forall, existsb_exists. intros Ha (x & Hx & ->%Z.eqb_eq).
  specialize (Ha x Hx). lia.
Qed.
End logic.

(** ** Symbolic execution *)

(** Positions stay in the body. *)
Ltac inside_body :=
  repeat match goal with
  | H : one_of ?l ?c = true |- _ => apply (one_of_ascii l c eq_refl) in H
  | H : st _ ?p ?k ?r ?s |- _ =>
      lazymatch goal with
      | _ : k <= 1 |- _ => fail
      | _ => pose proof (st_pend_le _ _ _ _ _ H)
      end
  | H : st ?s0 ?p ?k ?r ?s |- _ =>
      lazymatch goal with
      | _ : p <= end_ s0 |- _ => fail
      | _ => pose proof (st_le _ _ _ _ _ H)
      end
  end; inb.

Ltac arith := inside_body; unfold left in *; lia.

Ltac pbnd := inside_body; bnd.

Ltac prule :=
  lazymatch goal with
  | |- wpP (mbind _ _) _ _ _ => apply wpP_bind
  | |- wpP (pret _) _ _ _ => apply wpP_ret
  | |- wpP (pwhen _ _) _ _ _ => unfold pwhen
  | |- wpP (if ?b then _ else _) _ _ _ => let E := fresh "E" in destruct b eqn:E
  | |- wpP pos_ _ _ _ => eapply wpP_pos; [eassumption|]
  | |- wpP (ask limit) _ _ _ => eapply wpP_limit; [eassumption|]
  | |- wpP (ask _) _ _ _ => apply wpP_ask
  | |- wpP (inc_pos _) _ _ _ => eapply wpP_inc; [eassumption|try arith|intros ? ?]
  | |- wpP (dec_pos _) _ _ _ => eapply wpP_dec; [eassumption|intros ? ?]
  | |- wpP char_ _ _ _ => eapply wpP_char; [eassumption|eassumption|intros ? ?]
  | |- wpP (io (byte_at _)) _ _ _ => eapply wpP_byte_at; [eassumption|eassumption|intros ? ?]
  | |- wpP (err _ _ _ _) _ _ _ => eapply wpP_err; [eassumption|intros ? ?]
  | |- wpP (io (set_token_value _)) _ _ _ => eapply wpP_set_token_value; [eassumption|intros ? ?]
  | |- wpP (io (set_token_start _)) _ _ _ => eapply wpP_set_token_start; [eassumption|intros ? ?]
  | |- wpP (io get_token_value) _ _ _ => apply wpP_token_value; intros ?
  | |- wpP (io (gets (fun s => go_decode_rune _ _))) _ _ _ =>
      eapply wpP_decode; [eassumption|eassumption|try arith|intros ? ? ? ?]
  | |- wpP (io (gets _)) _ _ _ => apply wpP_gets
  | |- wpP (put (with_pending _)) _ _ _ => eapply wpP_put_pending; [eassumption|intros ?]
  | |- wpP (put _) _ ?r _ => let Hput := fresh in eapply wpP_put; [eassumption|by destruct r|by destruct r|intros Hput; cbv beta in Hput]
  | |- wpP (io (bytes_slice _ _)) _ _ _ => eapply wpP_bytes_slice; [eassumption|eassumption|try arith|try arith|intros ?]
  end.

Ltac pgo := repeat (cbv beta iota zeta; prule); cbv beta iota zeta.

(** The method is done: fewer rounds are left. *)
Ltac pfin :=
  match goal with
  | H : st _ ?q ?j ?r ?s |- post _ _ _ _ _ ?r ?s =>
      exists q, j; split; [exact H|]; split; [try arith|]; split; [try arith|]; try done
  | H : st _ ?q ?j ?r ?s |- exists _ _, st _ _ _ ?r ?s /\ _ => exists q, j; split; [exact H|]
  end.

(** A method that was treated before. *)
Ltac pcall lem :=
  eapply wpP_mono; [eapply lem; try eassumption; try arith|cbv beta; intros ? ? ? (? & ? & ? & ? & ? & ?)].

(** The last method of another one. *)
Ltac plast lem :=
  eapply wpP_weaken; [eapply lem; try eassumption; try arith|try arith|try arith|try done].

(** The answer is whatever it is. *)
Definition any {A} (a : A) (p : nat) : Prop := True.

(** The test for the end of a class. *)
Lemma is_class_content_exit_safe s0 ch p k r s (Q : bool -> RegExpParser -> Scanner -> Prop) :
  st s0 p k r s -> (forall b, (b = false -> p < end_ s0) -> Q b r s) -> wpP (is_class_content_exit ch) Q r s.
Proof. intros Hs H. unfold is_class_content_exit. pgo. apply H. lia. Qed.

Ltac pexit := eapply is_class_content_exit_safe; [eassumption|intros ? ?].
