(* ===== verification/RegExpSafe.v ===== *)
(** * The methods of the regular expression validator are total: leaves,
    escapes and classes

    Over a scanner narrowed to the body of a literal: no index and no slice is
    out of range, and every method goes on to fewer rounds. *)

From S2P Require Import Prelude Utf8 RustStr Chars Kind Diagnostics ScanText ScanState ScanEscapes Rescan.
From S2P Require Import ScanLogic ScanSafe ScanTotal Spelling UnicodeTables RegExp RegExpLogic.

Local Open Scope nat_scope.

Section safe.
Context (s0 : Scanner) (Hok : text_ok s0).
Local Abbreviation t := (text s0).
Local Abbreviation len := (end_ s0).
Local Abbreviation B := (B s0).
Local Abbreviation st := (st s0).
Local Abbreviation post := (post s0).
Local Abbreviation left := (left s0).

(** ** Leaves *)

Lemma two_chars_safe p k r s :
  st p k r s ->
  wpP two_chars (post (S (left p k)) p (fun v q => q = p /\ (v <> [] -> p + 2 <= len))) r s.
Proof.
  intros Hs. unfold two_chars. pgo; pfin; split; done || arith.
Qed.

Lemma scan_expected_char_safe ch p k r s :
  st p k r s -> (0 <= ch)%Z -> wpP (scan_expected_char ch) (post (S (left p k)) p any) r s.
Proof. intros Hs Hch. unfold scan_expected_char. pgo; pfin. Qed.

(** Only ASCII is skipped, so a boundary stays one. *)
Lemma skip_while_safe pred p k r s :
  st p k r s -> (forall c, pred c = true -> 0 <= c < 128)%Z ->
  wpP (skip_while pred) (post (S (left p k)) p (fun _ q => B p -> B q)) r s.
Proof.
  intros Hs Hpred. unfold skip_while.
  eapply (wpP_loop s0 Hok (fun _ q => p <= q /\ (B p -> B q)) (fun _ q => B p -> B q)); [done|done|lia|].
  intros _ q j r1 s1 Hs1 [Hq HB] Hlt. pgo.
  - apply Hpred in E0. pfin. split; [|arith]. split; [lia|]. intros _. eapply B_next; [done|done|lia].
  - pfin. split_and!; done || arith.
  - pfin. split_and!; done || arith.
Qed.

Lemma text_slice_safe a b p k r s (Q : str -> RegExpParser -> Scanner -> Prop) :
  st p k r s -> a <= b -> B a -> B b -> (forall v, Q v r s) -> wpP (io (text_slice a b)) Q r s.
Proof. by apply wpP_text_slice. Qed.

Lemma pattern_digits_safe p k r s :
  st p k r s -> B p -> wpP scan_digits (post (S (left p k)) p any) r s.
Proof.
  intros Hs HB. unfold scan_digits. pgo.
  pcall skip_while_safe; [unfold is_digit; lia|]. pgo. eapply text_slice_safe; [eassumption|done|done|auto|intros v].
  pgo. pfin.
Qed.

Lemma scan_word_characters_safe p k r s :
  st p k r s -> B p -> wpP scan_word_characters (post (S (left p k)) p (fun _ q => B q)) r s.
Proof.
  intros Hs HB. unfold scan_word_characters. pgo.
  pcall skip_while_safe; [unfold is_word_character, is_ascii_letter, is_digit; lia|].
  pgo. eapply text_slice_safe; [eassumption|done|done|auto|intros v]. pfin. auto.
Qed.

Lemma scan_source_character_safe p k r s :
  st p k r s -> p < len -> wpP scan_source_character (post (left p k) p any) r s.
Proof.
  intros Hs Hp. unfold scan_source_character. pgo; try lia.
  - change (if (0 =? 0)%Z then 1 else 0) with 1 in *. pfin.
  - apply wpP_io, wp_lift. rewrite (in_text s0 s' (st_in _ _ _ _ _ H1)).
    pose proof (end_le s0 Hok). destruct (lookup_lt_is_Some_2 t p ltac:(lia)) as [b ->]. cbn [unwrap returns]. pgo. pfin.
  - assert (k = 1) as -> by (destruct Hs as [_ _ _ _ <-]; unfold pend; by rewrite (proj1 (negb_false_iff _) E1)).
    assert (0 <= Z.land (ch - 65536) 1023)%Z by (apply Z.land_nonneg; lia).
    replace (56320 + Z.land (ch - 65536) 1023 =? 0)%Z with false in * by lia. pfin.
  - pfin.
  - pfin.
  - pfin.
Qed.

Lemma scan_quantifier_safe start b p k r s :
  st p k r s -> p < len -> wpP (scan_quantifier start b) (post (S (left (S p) k)) (S p) any) r s.
Proof. intros Hs Hp. unfold scan_quantifier. pgo; pfin. Qed.

Lemma close_braces_safe start b p q j k r s :
  st q j r s -> p < q -> left q j < left p k -> wpP (close_braces start b) (post (left p k) p any) r s.
Proof.
  intros Hs Hp Hlt. unfold close_braces. pgo.
  - plast scan_quantifier_safe.
  - pfin.
  - plast scan_quantifier_safe.
Qed.

Lemma scan_braces_safe start ch b p k r s :
  st p k r s -> char_is s0 p 123 -> wpP (scan_braces start ch b) (post (left p k) p any) r s.
Proof.
  intros Hs Hc. unfold scan_braces. pgo. pcall pattern_digits_safe; [pbnd|]. pgo.
  all: try (pcall pattern_digits_safe; [pbnd|]; pgo).
  all: try (eapply close_braces_safe; [eassumption|arith..]).
  all: pfin.
Qed.

Context {U : UnicodeId} {laws : UnicodeIdLaws U} {case : UnicodeCase}.

Lemma scan_pattern_modifiers_safe flags p k r s :
  st p k r s -> wpP (scan_pattern_modifiers flags) (post (S (left p k)) p any) r s.
Proof.
  intros Hs. unfold scan_pattern_modifiers.
  eapply (wpP_loop s0 Hok (fun _ q => p <= q) any); [done|done|lia|].
  intros f q j r1 s1 Hs1 Hq Hlt. pgo.
  - pfin. split_and!; done || arith.
  - destruct (char_code_to_reg_exp_flag ch) as [g|]; pgo.
    all: try (pfin; split_and!; done || arith).
    unfold check_regular_expression_flag_availability.
    eapply wpP_mono with (Q := fun _ r' s' => r' = r1 /\ st q j r1 s').
    + apply wpP_io, wp_bind. unfold wp at 1. cbn. case_match; [|done]. unfold when. case_split; [|done].
      eapply (wp_error_at s1); [by eapply st_same|]. intros s' Hs'. split; [done|]. eapply st_at; [done..|apply Hs1].
    + cbv beta. intros _ ? s2 [-> Hs2]. pgo. pfin. split_and!; arith.
  - pfin. split_and!; done || arith.
Qed.

Lemma scan_group_name_safe is_reference p k r s :
  st p k r s -> B p -> wpP (scan_group_name is_reference) (post (S (left p k)) p (fun _ q => B q)) r s.
Proof.
  intros Hs HB. unfold scan_group_name. pgo.
  eapply (wpP_scanner s0 Hok _ _ p p k _ _ (found_after p)); [eassumption| |].
  - intros Hok' Hat _ HBs. assert (ScanLogic.B s' (p + 0)) as HB0 by (rewrite Nat.add_0_r; by apply HBs).
    pose proof (scan_identifier_safe s' Hok' 0 p s' Hat (HBs _ HB) HB0) as Hi. rewrite Nat.add_0_r in Hi.
    eapply wp_mono; [exact Hi|]. by intros found s2 [? _].
  - intros a q s2 Hs2 HBq Hq _. pgo; pfin.
Qed.

(** ** Escapes, from after the backslash *)

Lemma pattern_decimal_escape_safe p k r s :
  st p k r s -> wpP scan_decimal_escape (post (S (left p k)) p (fun found q => found = false -> q = p)) r s.
Proof.
  intros Hs. unfold scan_decimal_escape. pgo; bools.
  - pcall pattern_digits_safe; [pbnd|]. pgo. by pfin.
  - by pfin.
Qed.

Lemma scan_character_escape_safe atom p k r s :
  st p k r s -> 1 <= p -> char_is s0 (p - 1) 92 ->
  wpP (scan_character_escape atom) (post (S (left p k)) p any) r s.
Proof.
  intros Hs Hp Hc. unfold scan_character_escape, is_ascii_letter. pgo; try pfin.
  eapply (wpP_scanner s0 Hok _ _ (p - 1) (p - 1 + 1) k _ _ anywhere); [eassumption| |].
  - intros Hok' Hat Hch _. eapply wp_mono; [eapply scan_escape_sequence_bytes_safe; [done|exact Hat|by apply Hch]|].
    intros v s2 (q & ? & ? & ? & _). by exists q.
  - intros a q s2 Hs2 HBq Hq _. pfin.
Qed.

Lemma suggestion_safe name cs (Q : str -> RegExpParser -> Scanner -> Prop) r s :
  (forall v, Q v r s) -> wpP (io (lift (fun _ => get_spelling_suggestion_for_strings name cs))) Q r s.
Proof. intros H. apply wpP_io, wp_lift. destruct (suggestion_ok name cs) as (v & -> & _). apply H. Qed.

Lemma unknown_name_safe m start name cs p k r s :
  st p k r s -> wpP (unknown_name m start name cs) (post (S (left p k)) p (fun _ q => q = p)) r s.
Proof.
  intros Hs. unfold unknown_name. pgo. apply suggestion_safe. intros v. pgo; by pfin.
Qed.

Lemma scan_property_value_safe start name p k r s :
  st p k r s -> char_is s0 p 61 -> wpP (scan_property_value start name) (post (S (left p k)) p any) r s.
Proof.
  intros Hs Hc. unfold scan_property_value. apply wpP_bind. eapply wpP_pos; [eassumption|]. apply wpP_bind.
  eapply (wpP_mono _ (post (S (left p k)) p (fun _ q => q = p))).
  - pgo; try (by pfin). by apply unknown_name_safe.
  - cbv beta. intros _ r1 s1 (q & j & Hs1 & Hq & Hlt & ->). pgo. pcall scan_word_characters_safe; [pbnd|]. pgo; try pfin.
    case_match; pgo; try pfin. plast unknown_name_safe.
Qed.

Lemma scan_lone_property_safe c start name p k r s :
  st p k r s -> wpP (scan_lone_property c start name) (post (S (left p k)) p any) r s.
Proof.
  intros Hs. unfold scan_lone_property. pgo; try pfin. plast unknown_name_safe.
Qed.

(** Nothing is taken when the answer is no. *)
Lemma scan_character_class_escape_safe p k r s :
  st p k r s -> wpP scan_character_class_escape (post (S (left p k)) p (fun found q => found = false -> q = p)) r s.
Proof.
  intros Hs. unfold scan_character_class_escape. pgo; try (by pfin).
  2: by pfin; lia.
  pcall scan_word_characters_safe; [pbnd|]. pgo.
  - pcall scan_property_value_safe; [conv|]. pgo. pcall scan_expected_char_safe. pgo; by pfin.
  - pcall scan_lone_property_safe. pgo. pcall scan_expected_char_safe. pgo; by pfin.
Qed.

Lemma scan_atom_escape_safe p k r s :
  st p k r s -> 1 <= p -> char_is s0 (p - 1) 92 -> wpP scan_atom_escape (post (S (left p k)) p any) r s.
Proof.
  intros Hs Hp Hc. unfold scan_atom_escape. pgo; try pfin.
  - pcall scan_group_name_safe; [pbnd|]. pgo. plast scan_expected_char_safe.
  - pcall scan_character_class_escape_safe. pgo; [pfin|].
    match goal with HR : false = false -> _ |- _ => specialize (HR eq_refl); subst end.
    pcall pattern_decimal_escape_safe. pgo; [pfin|].
    match goal with HR : false = false -> _ |- _ => specialize (HR eq_refl); subst end.
    pcall scan_character_escape_safe. pgo. pfin.
Qed.

(** ** Classes *)

Lemma scan_class_atom_safe p k r s :
  st p k r s -> p < len -> wpP scan_class_atom (post (left p k) p any) r s.
Proof.
  intros Hs Hp. unfold scan_class_atom. pgo; try pfin; [|plast scan_source_character_safe].
  pcall scan_character_class_escape_safe. pgo; [pfin|].
  match goal with HR : false = false -> _ |- _ => specialize (HR eq_refl); subst end.
  plast scan_character_escape_safe. conv.
Qed.

Lemma scan_range_maximum_safe start c p k r s :
  st p k r s -> p < len -> wpP (scan_range_maximum start c) (post (S (left p k)) p any) r s.
Proof.
  intros Hs Hp. unfold scan_range_maximum. pgo; (pcall scan_class_atom_safe; pgo; pfin).
Qed.

Lemma scan_class_ranges_safe p k r s :
  st p k r s -> wpP scan_class_ranges (post (S (left p 1)) p any) r s.
Proof.
  intros Hs. unfold scan_class_ranges. apply wpP_bind. eapply wpP_put_pending; [eassumption|].
  change (if (0 =? 0)%Z then 1 else 0) with 1. intros Hs1. apply wpP_bind. eapply wpP_char; [done|done|]. intros c Hc.
  apply wpP_bind. eapply (wpP_mono _ (post (S (left p 1)) p any)); [pgo; pfin|].
  cbv beta. intros _ r1 s1 (q & j & Hs2 & Hq & Hlt & _).
  apply (wpP_weaken s0 _ (S (left p 1)) _ q p any any); [|lia|lia|done].
  eapply (wpP_loop s0 Hok (fun _ q' => q <= q') any); [done|done|lia|].
  intros _ q2 j2 r2 s2 Hs3 Hq2 Hlt2. pgo; [|pfin; split_and!; done || arith]. pexit. pgo.
  - pfin. split_and!; done || arith.
  - pcall scan_class_atom_safe. pgo; [|pfin; split; arith]. pexit. pgo; [pfin; split_and!; done || arith|].
    pcall scan_range_maximum_safe. pgo. pfin. split; arith.
Qed.
End safe.
