(* ===== verification/RegExpTotal.v ===== *)
(** * The regular expression validator is total

    Class sets and patterns, whose nesting bounds the recursion of the methods,
    and the validator of a literal. Composed with [re_scan_slash_token], scanning
    a literal is total. *)

From S2P Require Import Prelude Utf8 RustStr Chars Kind Diagnostics ScanText ScanState ScanEscapes Rescan.
From S2P Require Import ScanLogic ScanSafe ScanTotal Spelling UnicodeTables RegExp RegExpLogic RegExpSafe.

Local Open Scope nat_scope.

Section sets.
Context (s0 : Scanner) (Hok : text_ok s0).
Local Abbreviation t := (text s0).
Local Abbreviation len := (end_ s0).
Local Abbreviation B := (B s0).
Local Abbreviation st := (st s0).
Local Abbreviation post := (post s0).
Local Abbreviation left := (left s0).
Context {U : UnicodeId} {laws : UnicodeIdLaws U} {case : UnicodeCase}.

(** ** Class sets *)

Lemma wpP_bytes_slice_weak a b p k r s :
  st p k r s -> a <= b -> b <= p -> wpP (io (bytes_slice a b)) (post (S (left p k)) p any) r s.
Proof. intros Hs Ha Hb. eapply wpP_bytes_slice; [done|done|done|pose proof (st_le _ _ _ _ _ Hs); lia|]. intros v. pfin. Qed.

Lemma scan_class_set_character_safe p k r s :
  st p k r s -> p < len -> wpP scan_class_set_character (post (left p k) p any) r s.
Proof.
  intros Hs Hp. unfold scan_class_set_character. pgo; try pfin.
  all: try plast scan_source_character_safe.
  all: try (plast scan_character_escape_safe; conv).
  all: pfin.
Qed.

Lemma scan_class_string_disjunction_contents_safe p k r s :
  st p k r s -> wpP scan_class_string_disjunction_contents (post (S (left p k)) p any) r s.
Proof.
  intros Hs. unfold scan_class_string_disjunction_contents.
  eapply (wpP_loop s0 Hok (fun _ q => p <= q) any); [done|done|lia|].
  intros n q j r1 s1 Hs1 Hq Hlt. pgo.
  all: try (pfin; split_and!; done || arith).
  pcall scan_class_set_character_safe. pgo. pfin. split; arith.
Qed.

(** The nested class set expression, called past [q0]. *)
Section nested.
Context (cse : P unit) (q0 : nat).
Context (Hcse : forall p k r s, st p k r s -> q0 <= p -> wpP cse (post (S (left p k)) p any) r s).

Lemma scan_class_set_operand_safe p k r s :
  st p k r s -> p < len -> q0 <= S p -> wpP (scan_class_set_operand cse) (post (left p k) p any) r s.
Proof.
  intros Hs Hp Hq0. unfold scan_class_set_operand. pgo; try pfin.
  - pcall Hcse. pgo. pcall scan_expected_char_safe. pgo. pfin.
  - pcall scan_character_class_escape_safe. pgo; try pfin.
    all: match goal with HR : false = false -> _ |- _ => specialize (HR eq_refl); subst end.
    + pcall scan_class_string_disjunction_contents_safe. pgo. pcall scan_expected_char_safe. pgo. pfin.
    + plast scan_class_set_character_safe.
  - plast scan_class_set_character_safe.
Qed.

Lemma scan_class_set_operator_safe e ch p k r s :
  st p k r s -> char_is s0 p ch -> wpP (scan_class_set_operator e ch) (post (S (left p k)) p any) r s.
Proof.
  intros Hs Hc. unfold scan_class_set_operator, unexpected. destruct e; pgo; pfin.
Qed.

Lemma scan_class_set_sub_expression_safe e p k r s :
  st p k r s -> q0 <= S p -> wpP (scan_class_set_sub_expression cse e) (post (S (left p k)) p any) r s.
Proof.
  intros Hs Hq0. unfold scan_class_set_sub_expression. pgo.
  eapply (wpP_mono _ (post (S (left p k)) p any)).
  - eapply (wpP_loop s0 Hok (fun _ q => p <= q) any); [done|done|lia|].
    intros m q j r1 s1 Hs1 Hq Hlt. pgo; [|pfin; split_and!; done || arith]. pexit. pgo.
    + pfin. split_and!; done || arith.
    + pcall scan_class_set_operator_safe. pgo. pexit. pgo.
      * pfin. split_and!; done || arith.
      * pcall scan_class_set_operand_safe. pgo. pfin. split; arith.
  - cbv beta. intros m r1 s1 (q & j & Hs1 & Hq & Hlt & _). pgo. pfin.
Qed.

Lemma check_complement_safe c start p k r s :
  st p k r s -> wpP (check_complement c start) (post (S (left p k)) p any) r s.
Proof. intros Hs. unfold check_complement. pgo; pfin. Qed.

Lemma scan_class_set_range_safe c start operand p k r s :
  st p k r s -> p < len -> q0 <= S p ->
  wpP (scan_class_set_range cse c start operand) (post (S (left p k)) p any) r s.
Proof.
  intros Hs Hp Hq0. unfold scan_class_set_range.
  pgo; (pcall scan_class_set_operand_safe; pgo; pcall check_complement_safe; pgo; pfin).
Qed.

Lemma scan_union_ampersand_safe ch p k r s :
  st p k r s -> char_is s0 p 38 -> wpP (scan_union_ampersand ch) (post (left p k) p any) r s.
Proof. intros Hs Hc. unfold scan_union_ampersand, unexpected. pgo; pfin. Qed.

(** A round of the union, from anywhere at or after [p]. *)
Definition round {A B} (p k : nat) (x : A + B) (r : RegExpParser) (s : Scanner) : Prop :=
  exists q j, st q j r s /\ p <= q /\ match x with inl _ => left q j < left p k | inr _ => left q j <= left p k end.

Lemma two_dashes v : (v =s lit "--") || (v =s lit "&&") = true -> v <> [].
Proof. by destruct v. Qed.

Lemma next_operand_safe may p k q j r s :
  st q j r s -> p <= q -> left q j <= left p k -> q0 <= S p -> wpP (next_operand cse may) (round p k) r s.
Proof.
  intros Hs Hq Hlt Hq0. unfold next_operand, round. pgo. pexit. pgo; [by exists q, j; split_and!|].
  pcall (two_chars_safe s0). destruct_and!; subst. pgo.
  - match goal with H : _ = true |- _ => apply two_dashes in H end. auto.
  - pfin. split; arith.
  - pcall scan_class_set_operand_safe. pgo. pfin. split; arith.
Qed.

Lemma scan_class_union_round_safe c l p k r s :
  st p k r s -> q0 <= S p -> wpP (scan_class_union_round cse c l) (round p k) r s.
Proof.
  intros Hs Hq0. destruct l as [[may start] operand]. unfold scan_class_union_round. pgo.
  - pexit. pgo.
    + unfold round. pfin. split; arith.
    + unfold round. pfin. split; arith.
    + pcall scan_class_set_range_safe. pgo. eapply next_operand_safe; [eassumption|arith..].
  - pcall scan_union_ampersand_safe; [conv|]. pgo. unfold round. pfin. split; arith.
  - eapply next_operand_safe; [eassumption|arith..].
  - unfold round. pfin. split; arith.
Qed.

Lemma scan_class_union_safe c start operand may p k r s :
  st p k r s -> q0 <= S p -> wpP (scan_class_union cse c start operand may) (post (S (left p k)) p any) r s.
Proof.
  intros Hs Hq0. unfold scan_class_union. pgo. eapply (wpP_mono _ (post (S (left p k)) p any)).
  - eapply (wpP_loop s0 Hok (fun _ q => p <= q) any); [done|done|lia|].
    intros l q j r1 s1 Hs1 Hq Hlt. eapply wpP_mono; [apply scan_class_union_round_safe; [done|lia]|].
    intros x r2 s2 (q2 & j2 & Hs2 & Hq2 & Hlt2). exists q2, j2. split; [done|]. destruct x; split_and!; done || lia.
  - cbv beta. intros b r1 s1 (q & j & Hs1 & Hq & Hlt & _). pgo. pfin.
Qed.

Lemma scan_class_set_rest_safe c first start operand p k r s :
  st p k r s -> q0 <= S p -> wpP (scan_class_set_rest cse c first start operand) (post (S (left p k)) p any) r s.
Proof.
  intros Hs Hq0. unfold scan_class_set_rest, unexpected. pgo.
  all: try (pcall check_complement_safe; pgo).
  all: try (pcall scan_class_set_sub_expression_safe; pgo; try (pcall check_complement_safe; pgo)).
  all: try plast scan_class_union_safe.
  all: pfin.
Qed.
End nested.

Lemma scan_class_set_expression_safe fuel p k r s :
  st p k r s -> len - p < fuel -> wpP (scan_class_set_expression fuel) (post (S (left p k)) p any) r s.
Proof.
  revert p k r s. induction fuel as [|fuel IH]; intros p k r s Hs Hfuel; [lia|].
  assert (forall q j r s, st q j r s -> S p <= q -> wpP (scan_class_set_expression fuel) (post (S (left q j)) q any) r s) as Hcse.
  { intros q j r1 s1 Hs1 Hq. apply IH; [done|]. pose proof (st_le _ _ _ _ _ Hs1). lia. }
  cbn [scan_class_set_expression]. pgo.
  all: pexit; pgo; [pfin|].
  all: pcall (two_chars_safe s0); destruct_and!; subst; pgo.
  all: try (eapply wpP_mono; [eapply (scan_class_set_operand_safe _ _ Hcse); [eassumption|auto|arith]|cbv beta; intros ? ? ? (? & ? & ? & ? & ? & ?)]).
  all: plast (scan_class_set_rest_safe _ _ Hcse).
Qed.

(** ** Patterns *)

Lemma scan_group_opening_safe p k r s :
  st p k r s -> wpP scan_group_opening (post (S (left p k)) p any) r s.
Proof.
  intros Hs. unfold scan_group_opening. pgo; try pfin.
  - pcall scan_group_name_safe; [pbnd|]. pgo. pcall scan_expected_char_safe. pgo; pfin.
  - pcall scan_pattern_modifiers_safe. pgo.
    + pcall scan_pattern_modifiers_safe. pgo; (pcall scan_expected_char_safe; pgo; pfin).
    + pcall scan_expected_char_safe. pgo. pfin.
Qed.

Lemma scan_class_safe fuel p k r s :
  st p k r s -> len - p < fuel -> wpP (scan_class fuel) (post (S (left p 1)) p any) r s.
Proof.
  intros Hs Hfuel. unfold scan_class. pgo.
  - pcall scan_class_set_expression_safe. plast scan_expected_char_safe.
  - pcall scan_class_ranges_safe. pgo. change (if (0 =? 0)%Z then 1 else 0) with 1 in *.
    plast scan_expected_char_safe.
Qed.

(** [disjunction] is the body of a nested group. *)
Lemma scan_term_safe fuel disjunction in_group quantifiable p k r s :
  st p k r s -> p < len -> len - S p < fuel ->
  (forall q j r s, st q j r s -> S p <= q -> wpP disjunction (post (S (left q j)) q any) r s) ->
  wpP (scan_term fuel disjunction in_group quantifiable) (round p k) r s.
Proof.
  intros Hs Hp Hfuel Hdisj. unfold scan_term, unexpected, round. pgo; try (pfin; split; arith).
  - pcall scan_atom_escape_safe; [conv|]. pgo. pfin. split; arith.
  - pcall scan_group_opening_safe. pgo. pcall Hdisj. pgo. pcall scan_expected_char_safe. pgo. pfin. split; arith.
  - pcall scan_braces_safe; [conv|]. pgo. pfin. split; arith.
  - pcall scan_quantifier_safe. pgo. pfin. split; arith.
  - pcall scan_class_safe. pgo. pfin. split; arith.
  - pcall scan_source_character_safe. pgo. pfin. split; arith.
Qed.

Lemma scan_alternative_safe fuel disjunction in_group p k r s :
  st p k r s -> len - p < S fuel ->
  (forall q j r s, st q j r s -> S p <= q -> wpP disjunction (post (S (left q j)) q any) r s) ->
  wpP (scan_alternative fuel disjunction in_group) (post (S (left p k)) p any) r s.
Proof.
  intros Hs Hfuel Hdisj. unfold scan_alternative.
  eapply (wpP_loop s0 Hok (fun _ q => p <= q) any); [done|done|lia|].
  intros quantifiable q j r1 s1 Hs1 Hq Hlt. pgo; [|pfin; split_and!; done || arith].
  eapply wpP_mono; [apply scan_term_safe; [done|arith|arith|]|].
  - intros q2 j2 r2 s2 Hs2 Hq2. apply Hdisj; [done|lia].
  - intros x r2 s2 (q2 & j2 & Hs2 & Hq2 & Hlt2). pfin. destruct x; split_and!; done || arith.
Qed.

Lemma scan_disjunction_safe fuel in_group p k r s :
  st p k r s -> len - p < fuel -> wpP (scan_disjunction fuel in_group) (post (S (left p k)) p any) r s.
Proof.
  revert in_group p k r s. induction fuel as [|fuel IH]; intros in_group p k r s Hs Hfuel; [lia|].
  cbn [scan_disjunction]. eapply (wpP_loop s0 Hok (fun _ q => p <= q) any); [done|done|lia|].
  intros _ q j r1 s1 Hs1 Hq Hlt. pgo.
  eapply wpP_mono; [apply scan_alternative_safe; [eassumption|arith|]|].
  - intros q2 j2 r2 s2 Hs2 Hq2. apply IH; [done|arith].
  - cbv beta. intros _ r2 s2 (q2 & j2 & Hs2 & Hq2 & Hlt2 & _). pgo; pfin; split_and!; done || arith.
Qed.
End sets.
