(* ===== verification/RegExpLiteral.v ===== *)
(** * Scanning a regular expression literal is total

    [re_scan_slash_token] with the validator: where the body ends, the flags
    after it, the validation of the body with the scanner narrowed to it, and
    the scanner restored. *)

From S2P Require Import Prelude Utf8 RustStr Chars Kind Diagnostics ScanText ScanState ScanEscapes Scan Rescan.
From S2P Require Import ScanLogic ScanSafe ScanTotal Spelling UnicodeTables RegExp RegExpLogic RegExpSafe RegExpTotal.

Local Open Scope nat_scope.

(** ** Reading backwards *)

Lemma decode_last_rune_back t a p :
  utf8 t -> is_char_boundary t a = true -> is_char_boundary t p = true -> a < p ->
  returns (decode_last_rune t p) (fun '(c, size) => 0 < size <= p - a /\ is_char_boundary t (p - size) = true).
Proof.
  intros Hu Ha Hp Hlt. pose proof (boundary_le _ _ Hp).
  destruct (utf8_split t a Hu Ha) as [(ca & Hca & Ea) _].
  destruct (slice_ok t a p Hu ltac:(lia) Ha Hp) as [_ (cs & Hcs & Es)].
  assert (take p t = encode_all (ca ++ cs)) as Et.
  { unfold encode_all. rewrite bind_app. fold (encode_all ca) (encode_all cs).
    rewrite <- Ea, <- Es. replace p with (a + (p - a)) at 1 by lia. by rewrite take_take_drop. }
  destruct cs as [|c cs _] using rev_ind.
  { apply (f_equal length) in Es. rewrite length_take, length_drop in Es. simpl in Es. lia. }
  apply Forall_app in Hcs as [Hcs Hc]. rewrite Forall_singleton in Hc.
  unfold decode_last_rune, slice. rewrite boundary_zero, Hp by done. cbn [Nat.leb andb unwrap mbind result_bind].
  rewrite Nat.sub_0_r, drop_0, Et, chars_encode_all by (apply Forall_app; split; [done|by apply Forall_app; split; [|constructor]]).
  rewrite app_assoc, last_snoc. cbn [returns].
  assert (encode_all (cs ++ [c]) = encode_all cs ++ encode c) as Ec.
  { unfold encode_all. by rewrite bind_app, bind_singleton. }
  assert (length (encode_all (cs ++ [c])) = p - a) as Hl by (rewrite <- Es, length_take, length_drop; lia).
  rewrite Ec, length_app in Hl. pose proof (encode_length c). split; [lia|].
  rewrite <- (take_drop p t), Et. unfold encode_all. rewrite app_assoc, bind_app, bind_singleton.
  rewrite <- app_assoc.
  assert (length ((ca ++ cs) ≫= encode) = p - length (encode c)) as Hl2.
  { apply (f_equal length) in Et. unfold encode_all in Et.
    rewrite app_assoc, bind_app, bind_singleton, length_app, length_take in Et. lia. }
  rewrite boundary_app, Hl2, Nat.sub_diag by lia. apply boundary_zero.
  apply utf8_cons; [done|]. by apply utf8_split.
Qed.

Lemma returns_unwrap_lookup {A B} (l : list A) i (f : A -> result B) Q :
  i < length l -> (forall a, l !! i = Some a -> returns (f a) Q) -> returns (a ← unwrap (l !! i); f a) Q.
Proof. intros Hi H. destruct (lookup_lt_is_Some_2 l i Hi) as [a E]. rewrite E. by apply H. Qed.

(** ** The body *)

Section body.
Context (t : str) (Hu : utf8 t).
Local Abbreviation len := (length t).

Lemma is_named_group_ok p ch : p < len -> returns (is_named_group t len p ch) (fun _ => True).
Proof.
  intros Hp. unfold is_named_group. case_split; [|done]. bools.
  apply returns_unwrap_lookup; [lia|]. intros b1 _. case_split; [|done]. bools.
  apply returns_unwrap_lookup; [lia|]. intros b2 _. case_split; [|done]. case_split; [done|].
  apply returns_unwrap_lookup; [lia|]. by intros b3 _.
Qed.

(** Where the body ends: at a boundary, and at a slash when it is closed. *)
Definition body_ok (start : nat) (b : body_end) : Prop :=
  start <= body_end_pos b <= len /\ is_char_boundary t (body_end_pos b) = true
  /\ (unterminated b = false -> t !! body_end_pos b = Some 47%Z).

Lemma find_body_end_ok start : start <= len -> returns (find_body_end t len start) (body_ok start).
Proof.
  intros Hs. unfold find_body_end.
  apply (iterate_returns (fun '(p, _, _, _) => start <= p <= len) (fun '(p, _, _, _) => len - p)); [|lia|lia].
  intros [[[p esc] cls] named] Hp. case_split.
  { assert (p = len) as -> by lia. split; [simpl; lia|]. split; [apply boundary_len|done]. }
  apply returns_unwrap_lookup; [lia|]. intros ch Hch.
  assert (0 <= ch)%Z as Hpos.
  { pose proof (Forall_lookup_1 _ _ _ _ (utf8_bytes _ Hu) Hch) as Hb. cbv beta in Hb. lia. }
  case_split.
  { split; [simpl; lia|]. split; [|done]. simpl. eapply boundary_ascii; [done|].
    pose proof (Forall_lookup_1 _ _ _ _ (utf8_bytes _ Hu) Hch) as Hb. cbv beta in Hb. unfold is_line_break in *. lia. }
  case_split; [simpl; lia|]. case_split.
  { bools. assert (ch = 47%Z) as -> by lia. split; [simpl; lia|].
    split; [by eapply boundary_ascii|done]. }
  case_split; [simpl; lia|]. case_split; [simpl; lia|]. case_split; [simpl; lia|].
  apply returns_bind. apply (returns_mono _ (fun _ => True)); [|intros opens _; simpl; lia].
  destruct cls; [done|]. apply is_named_group_ok. lia.
Qed.

(** Recovery stops at a closing bracket. *)
Lemma recovery_step_stops r ch : recovery_step r ch = None -> (ch < 128)%Z.
Proof. unfold recovery_step. repeat case_split; try done; bools; lia. Qed.

Lemma find_unbalanced_ok start e :
  start <= e -> is_char_boundary t e = true ->
  returns (find_unbalanced t start e) (fun p => start <= p <= e /\ is_char_boundary t p = true).
Proof.
  intros Hs He. pose proof (boundary_le _ _ He). unfold find_unbalanced.
  apply (iterate_returns (fun '(p, _) => start <= p <= e) (fun '(p, _) => e - p)); [|lia|lia].
  intros [p r] Hp. case_split; [|simpl; split; [lia|]; by replace p with e by lia].
  apply returns_unwrap_lookup; [lia|]. intros ch Hch.
  destruct (recovery_step r ch) eqn:E; [simpl; lia|]. apply recovery_step_stops in E.
  split; [lia|]. by eapply boundary_ascii.
Qed.

Lemma trim_body_ok a start p :
  a <= start -> a <= p -> is_char_boundary t a = true -> is_char_boundary t p = true ->
  returns (trim_body t start p) (fun q => a <= q <= p /\ is_char_boundary t q = true).
Proof.
  intros Has Hap Ha Hp. unfold trim_body.
  apply (iterate_returns (fun q => a <= q <= p /\ is_char_boundary t q = true) (fun q => q)); [|done|lia].
  intros q [Hq HB]. case_split; [|done]. apply returns_bind.
  eapply returns_mono; [apply (decode_last_rune_back t a q); (done || lia)|].
  intros [ch size] [Hsize HB2]. case_split; simpl; [|done]. split_and!; done || lia.
Qed.

(** The text of the literal keeps its slash. *)
Lemma trim_slash a p :
  a + 1 <= p -> is_char_boundary t a = true -> is_char_boundary t p = true ->
  returns (trim_body t (a + 1) p) (fun q => a <= q /\ is_char_boundary t q = true /\ (t !! a = Some 47%Z -> a < q)).
Proof.
  intros Hap Ha Hp. destruct (decide (t !! a = Some 47%Z)) as [Hslash|Hne].
  - pose proof (boundary_ascii_next t a _ Hu Hslash eq_refl) as Ha1. rewrite <- Nat.add_1_r in Ha1.
    eapply returns_mono; [apply (trim_body_ok (a + 1)); (done || lia)|]. cbv beta. intros q [Hq HB].
    split_and!; [lia|done|lia].
  - eapply returns_mono; [apply (trim_body_ok a); (done || lia)|]. cbv beta. intros q [Hq HB].
    split_and!; [lia|done|done].
Qed.
End body.

Lemma has_lor f g : TokenFlags.has (Z.lor f g) g = negb (g =? 0)%Z.
Proof.
  unfold TokenFlags.has. do 2 f_equal. apply Z.bits_inj'. intros i _.
  rewrite Z.land_spec, Z.lor_spec. by destruct (Z.testbit f i), (Z.testbit g i).
Qed.

(** ** The flags *)

Section flags.
Context (s0 : Scanner) (Hok : text_ok s0) (Hwhole : whole s0).
Context {U : UnicodeId} {laws : UnicodeIdLaws U}.
Local Abbreviation B := (B s0).
Local Abbreviation at_ := (at_ s0).

Lemma check_availability_safe flag p size q s :
  at_ q s -> wp (check_regular_expression_flag_availability flag p size) (fun _ s' => at_ q s') s.
Proof.
  intros Hs. unfold check_regular_expression_flag_availability. apply wp_bind. unfold wp at 1. cbn.
  case_match; [|by apply wp_ret]. unfold when. case_split; [|by apply wp_ret]. by eapply wp_error_at.
Qed.

Lemma report_flag_safe flags ch p size q s :
  at_ q s -> wp (report_flag flags ch p size) (fun _ s' => at_ q s') s.
Proof.
  intros Hs. unfold report_flag. case_match; [|by wgo].
  wgo; try done.
  wstay check_availability_safe. by wgo.
Qed.

Lemma scan_flags_safe report p q s :
  at_ q s -> B p -> wp (scan_flags report p) (fun '(e, _) s' => at_ q s' /\ B e /\ p <= e) s.
Proof.
  intros Hs Hp. unfold scan_flags.
  apply (wp_loop_fuel _ (fun '(e, _) s => at_ q s /\ B e /\ p <= e) (fun '(e, _) _ => end_ s0 - e)).
  - split_and!; done.
  - rewrite (at_end _ _ _ Hs). lia.
  - clear s Hs. intros [e flags] s (Hs & He & Hle). wgo; [|done].
    apply wp_lift. rewrite (at_text _ _ _ Hs), (at_end _ _ _ Hs), Hwhole.
    destruct (decode_rune_spec s0 Hok e He) as (ch & size & -> & Hr). cbn [returns].
    pose proof (rune_nonempty _ _ _ _ Hr ltac:(lia)).
    destruct (rune_next s0 e ch size He Hr ltac:(by right; left)) as [HB ?].
    wgo; try (split_and!; done || lia).
    wstay report_flag_safe. wgo. split_and!; done || lia.
Qed.
End flags.

(** ** The validator *)

Section validator.
Context {U : UnicodeId} {laws : UnicodeIdLaws U} {case : UnicodeCase}.

Lemma for_each_within {A} s0 (f : A -> M unit) l s :
  (forall a s, within s0 s -> wp (f a) (fun _ s' => within s0 s') s) ->
  within s0 s -> wp (for_each f l) (fun _ s' => within s0 s') s.
Proof.
  intros Hf. revert s. induction l as [|a l IH]; intros s Hs; [done|].
  cbn [for_each]. apply wp_bind. eapply (wp_mono _ (fun _ s' => within s0 s')); [by apply Hf|]. intros _ s1 Hs1. by apply IH.
Qed.

Lemma error_within s0 m p n args s : within s0 s -> wp (error_at m p n args) (fun _ s' => within s0 s') s.
Proof.
  intros Hs. eapply (wp_error_at s); [apply at_refl|]. intros s' Hs'. by eapply within_at.
Qed.

Lemma check_reference_within s0 specifiers g s :
  within s0 s -> wp (check_reference specifiers g) (fun _ s' => within s0 s') s.
Proof.
  intros Hs. unfold check_reference. case_split; [done|]. apply wp_bind.
  eapply (wp_mono _ (fun _ s' => within s0 s')); [by apply error_within|]. cbv beta. intros _ s1 Hs1. destruct specifiers as [|sp sps]; [done|].
  apply wp_bind, wp_lift. destruct (suggestion_ok (ref_name g) (sp :: sps)) as (v & -> & _). cbn [returns].
  unfold when. case_split; [by apply error_within|done].
Qed.

Lemma check_decimal_escape_within s0 groups e s :
  within s0 s -> wp (check_decimal_escape groups e) (fun _ s' => within s0 s') s.
Proof.
  intros Hs. unfold check_decimal_escape, when. repeat case_split; try done; by apply error_within.
Qed.

Lemma within_refl s : within s s.
Proof. by split. Qed.

(** Over a scanner narrowed to the body the validator answers. *)
Lemma validate_safe s flags named :
  text_ok s -> pos (state s) <= end_ s -> wp (validate (end_ s) flags named) (fun _ s' => within s s') s.
Proof.
  intros Hok Hp. unfold validate, run. set (r := with_strict _ _).
  apply wp_bind. eapply wp_mono.
  - pose proof (end_le s Hok). eapply (scan_disjunction_safe s Hok _ false (pos (state s)) _ r s); [|lia].
    split; try done.
  - intros [[] r'] s1 (q & j & Hs1 & _). apply wp_bind. eapply wp_mono.
    + apply (for_each_within s); [|apply Hs1]. intros g s2. apply check_reference_within.
    + cbv beta. intros ? s2 Hs2. apply (for_each_within s); [|done]. intros e s3. apply check_decimal_escape_within.
Qed.
End validator.

(** ** The literal *)

Section literal.
Context {U : UnicodeId} {laws : UnicodeIdLaws U} {case : UnicodeCase}.

(** The validation of a body leaves the end, the token's start and its flags as
    they were. *)
Lemma validate_body_safe s0 start e flags named q s :
  text_ok s0 -> at_ s0 q s -> start <= e -> is_char_boundary (text s0) e = true -> text s0 !! e = Some 47%Z ->
  wp (validate_body validate start e flags named) (fun _ s' => exists q', at_ s0 q' s') s.
Proof.
  intros Hok Hs Hse He Hslash. unfold validate_body.
  apply wp_bind. eapply wp_set_pos; [done|]. intros s1 Hs1.
  apply wp_bind. eapply wp_get_end; [done|].
  apply wp_bind. eapply wp_get_token_start; [done|].
  apply wp_bind. eapply wp_get_token_flags; [done|]. intros f _.
  apply wp_bind. unfold wp at 1. unfold set_end at 1. cbn [modify].
  set (s2 := {| text := text s1; end_ := e |}).
  assert (text_ok s2) as Hok2.
  { destruct Hs1 as [Ht]. split; simpl; rewrite Ht; [apply Hok|done|by right]. }
  apply wp_bind. eapply wp_mono; [apply (validate_safe s2); [done|]|].
  - simpl. by rewrite (at_pos _ _ _ Hs1).
  - intros _ s3 []. destruct Hs1. exists (pos (state s3)). simpl in *. split; simpl; try congruence. by etrans.
Qed.

(** A token scanned again: the text, the options, the token's start and the
    errors are kept; the token ends at a boundary. *)
Record rescanned (s0 : Scanner) (k : Kind) (s : Scanner) : Prop := {
  rs_text : text s = text s0;
  rs_end : end_ s = end_ s0;
  rs_jsx : jsx s = jsx s0;
  rs_skips : skips_trivia s = skips_trivia s0;
  rs_version : language_version s = language_version s0;
  rs_token : token (state s) = k;
  rs_token_start : token_start (state s) = token_start (state s0);
  rs_full_start : full_start_pos (state s) = full_start_pos (state s0);
  rs_diagnostics : diagnostics s0 `prefix_of` diagnostics s;
  rs_boundary : is_char_boundary (text s0) (pos (state s)) = true
}.

Lemma scan_regular_expression_safe s0 report q s :
  text_ok s0 -> whole s0 -> at_ s0 q s ->
  is_char_boundary (text s0) (token_start (state s0)) = true -> token_start (state s0) < length (text s0) ->
  wp (scan_regular_expression validate report (token_start (state s0) + 1))
    (fun p s' => (exists q', at_ s0 q' s') /\ is_char_boundary (text s0) p = true /\ token_start (state s0) <= p
       /\ (text s0 !! token_start (state s0) = Some 47%Z -> token_start (state s0) < p)) s.
Proof.
  intros Hok Hw Hs Hstart Hlt. set (start := token_start (state s0)) in *. unfold scan_regular_expression.
  pose proof (text_utf8 _ Hok) as Hu.
  apply wp_bind, wp_lift. rewrite (at_text _ _ _ Hs), (at_end _ _ _ Hs), Hw.
  eapply returns_mono; [apply find_body_end_ok; [done|lia]|]. intros b (Hb & HbB & Hslash).
  apply wp_bind.
  eapply (wp_mono _ (fun _ s' => at_ s0 q s' /\
    (unterminated b = true -> TokenFlags.has (token_flags (state s')) TokenFlags.Unterminated = true))).
  { unfold when. case_split; [|by split]. unfold wp, add_flags, modify. split; [destruct Hs; by split|]. intros _. cbn. by rewrite has_lor. }
  cbv beta. intros _ s1 [Hs1 Hflag]. apply wp_bind. eapply wp_get_token_flags; [done|]. intros f ->.
  case_split.
  - apply wp_bind, wp_lift. rewrite (at_text _ _ _ Hs1).
    eapply returns_mono; [apply find_unbalanced_ok; [lia|done]|]. cbv beta. intros p (Hp & HpB).
    apply wp_bind, wp_lift. rewrite (at_text _ _ _ Hs1).
    eapply returns_mono; [apply (trim_slash _ Hu start p); done || lia|]. cbv beta. intros p2 (Hp2 & HpB2 & Hp3).
    apply wp_bind. eapply wp_get_token_start; [done|]. apply wp_bind. eapply wp_error_at; [done|].
    intros s2 Hs2. split_and!; [by exists q|done|lia|done].
  - assert (text s0 !! body_end_pos b = Some 47%Z) as Hclose by (apply Hslash; destruct (unterminated b); [by rewrite Hflag in *|done]).
    assert (body_end_pos b < length (text s0)) by (by apply lookup_lt_Some in Hclose).
    apply wp_bind. eapply wp_mono; [apply (scan_flags_safe s0 Hok Hw); [done|]|].
    { split; [|lia]. rewrite Nat.add_1_r. by eapply boundary_ascii_next. }
    intros [p g] s2 (Hs2 & [HpB _] & Hp). apply wp_bind. eapply (wp_mono _ (fun _ s' => exists q', at_ s0 q' s')).
    { unfold when. case_split; [|by exists q]. eapply validate_body_safe; try done. lia. }
    cbv beta. intros _ s3 [q3 Hs3]. apply wp_bind. eapply wp_set_pos; [done|]. intros s4 Hs4.
    split_and!; [by exists p|done|lia|lia].
Qed.

(** Scanning a slash again answers. *)
Lemma re_scan_slash_ok s report :
  scanner_ok s -> is_char_boundary (text s) (token_start (state s)) = true -> token_start (state s) < length (text s) ->
  wp (re_scan_slash_token validate report) (fun k s' => rescanned s k s' /\ scanner_ok s' /\
    if Kind.eqb (token (state s)) Kind.SlashToken || Kind.eqb (token (state s)) Kind.SlashEqualsToken
    then k = Kind.RegularExpressionLiteral /\ token_start (state s) <= pos (state s')
         /\ (text s !! token_start (state s) = Some 47%Z -> token_start (state s) < pos (state s'))
    else s' = s) s.
Proof.
  intros Hs Hstart Hlt. pose proof (ok_text _ Hs) as Hok. pose proof (ok_whole _ Hs) as Hw.
  unfold re_scan_slash_token. apply wp_bind. eapply wp_get_token; [apply at_refl|].
  rewrite <- negb_orb. destruct (_ || _); simpl negb; cbv iota.
  - apply wp_bind. eapply wp_get_token_start; [apply at_refl|]. apply wp_bind.
    eapply wp_mono; [by eapply scan_regular_expression_safe; [..|apply at_refl|done|done]|]. cbv beta.
    intros p s1 ([q1 Hs1] & HpB & Hp & Hp').
    apply wp_bind. eapply wp_set_pos; [done|]. intros s2 Hs2.
    pose proof (boundary_le _ _ HpB). pose proof (boundary_le _ _ Hstart).
    apply wp_bind. eapply wp_text_slice; [done|done|done|split; [done|lia]|split; [done|lia]|].
    apply wp_bind. eapply wp_set_token_value; [done|]. intros s3 [].
    apply wp_bind. unfold wp. cbn. split; [|split; [|split; [done|]]].
    + split; simpl; try congruence.
    + destruct Hs, Hok. split; [split|..]; simpl; rewrite ?at_text0, ?at_end0, ?at_pos; try done; try congruence.
    + simpl. by rewrite at_pos.
  - destruct Hs. split; [split; done|]. split; [by split|done].
Qed.
End literal.

Section theorems.
Context {U : UnicodeId} {laws : UnicodeIdLaws U} {case : UnicodeCase}.

(** C16 Scanning a regular expression literal is total over valid text whose
    conflict marker probes stay on character boundaries: where a slash token
    starts inside the text, the literal is found, its flags are read and its body
    is validated without a failure; a literal that starts with a slash is not
    empty and ends at a boundary, the scanner's text, end and options are as
    before and the errors are kept. *)
Theorem re_scan_slash_total s report :
  scanner_ok s -> is_char_boundary (text s) (token_start (state s)) = true -> token_start (state s) < length (text s) ->
  exists k s', re_scan_slash_token validate report s = Ok (k, s') /\ rescanned s k s' /\ scanner_ok s' /\
    if Kind.eqb (token (state s)) Kind.SlashToken || Kind.eqb (token (state s)) Kind.SlashEqualsToken
    then k = Kind.RegularExpressionLiteral /\ token_start (state s) <= pos (state s')
         /\ (text s !! token_start (state s) = Some 47%Z -> token_start (state s) < pos (state s'))
    else s' = s.
Proof. intros Hs Hstart Hlt. by apply wp_ok, re_scan_slash_ok. Qed.

(** A scanner set to a boundary of its text is between tokens. *)
Lemma reset_token_state_ok s p :
  text_ok s -> whole s -> probe_safe (text s) = true -> is_char_boundary (text s) p = true ->
  wp (reset_token_state p) (fun _ s' => scanner_ok s') s.
Proof.
  intros [] Hw Hp Hb. unfold wp, reset_token_state, reset_pos. cbn. split; [by split|done..].
Qed.

(** C17 The checker's question about the literal at any character boundary of a
    valid text whose conflict marker probes stay on character boundaries has an
    answer: scanning the token, scanning it again as a literal and validating it
    never fail, whatever the text is there. (A text with a probe inside a
    character can fail already in the scan of a token.) *)
Theorem regular_expression_diagnostics_total t jsx version start :
  utf8 t -> probe_safe t = true -> is_char_boundary t start = true ->
  exists ds, regular_expression_literal_diagnostics t jsx version start = Ok ds.
Proof.
  intros Hu Hp Hb. unfold regular_expression_literal_diagnostics. set (s := {| text := _ |}).
  assert (wp (reset_token_state start ;; Scan.scan ;; re_scan_slash_token validate true) (fun _ _ => True) s) as H;
    [|apply wp_ok in H as (k & s' & -> & _); by eexists].
  assert (text_ok s /\ whole s /\ text s = t) as (Hok & Hw & Et0) by (split; [by apply text_ok_whole|done]).
  clearbody s. subst t.
  apply wp_bind. eapply wp_mono; [by apply reset_token_state_ok|]. cbv beta. intros _ s1 Hs1.
  apply wp_bind. eapply wp_mono; [by apply scan_ok|]. cbv beta.
  intros k s2 [(q & Et & _ & _ & _ & _ & _ & _ & _ & Hk & _ & _ & HBs & HB & _ & _ & Hne & _) Hs2].
  destruct (Kind.eqb k Kind.EndOfFile) eqn:Ek;
    [apply Kind.eqb_eq in Ek as ->|assert (k <> Kind.EndOfFile) as Hk' by (intros ->; by rewrite (proj2 (Kind.eqb_eq _ _) eq_refl) in Ek)].
  - unfold re_scan_slash_token. apply wp_bind. eapply wp_get_token; [apply at_refl|]. by rewrite Hk.
  - specialize (Hne Hk'). pose proof (boundary_le _ _ HB).
    eapply wp_mono; [apply re_scan_slash_ok; [done|congruence|rewrite Et; lia]|done].
Qed.
End theorems.

Lemma re_scan_slash_total_witness :
  let s := match Scan.scan (H := latin1) (new (lit "/a(b|c)*[d-e]/gi;") false) with Ok (_, s) => s | _ => new [] false end in
  exists k s', re_scan_slash_token (H := latin1) (validate (H := latin1) (H0 := ascii_case)) true s = Ok (k, s')
    /\ rescanned s k s' /\ scanner_ok s' /\
    if Kind.eqb (token (state s)) Kind.SlashToken || Kind.eqb (token (state s)) Kind.SlashEqualsToken
    then k = Kind.RegularExpressionLiteral /\ token_start (state s) <= pos (state s')
         /\ (text s !! token_start (state s) = Some 47%Z -> token_start (state s) < pos (state s'))
    else s' = s.
Proof.
  apply (re_scan_slash_total (U := latin1) (case := ascii_case)).
  - split; [split|..]; [by apply asciib_utf8; vm_compute|by vm_compute|left; by vm_compute|by vm_compute..].
  - by vm_compute.
  - vm_compute. lia.
Defined.

Lemma regular_expression_diagnostics_total_witness :
  exists ds, regular_expression_literal_diagnostics (H := latin1) (H0 := ascii_case) (lit "x = /[z-a]/;") false ESNext 4 = Ok ds.
Proof.
  apply (regular_expression_diagnostics_total (U := latin1) (case := ascii_case));
    [by apply asciib_utf8; vm_compute|by vm_compute|by vm_compute].
Defined.
