(* ===== verification/ScanAgain.v ===== *)
(** * The scanner between the calls of the parser

    [tok_ok] is what holds of the scanner whenever the parser reads it: the last
    token is a piece of the text between [token_start] and the position. Every
    method the parser calls keeps it, with the token it answers. *)

From S2P Require Import Prelude Utf8 RustStr Chars Kind Diagnostics ScanText ScanState ScanEscapes ScanNumbers Scan Rescan.
From S2P Require Import ScanLogic ScanSafe ScanTotal Spelling RegExpLiteral.

Local Open Scope nat_scope.

(** ** The scanner at a token *)

#[export] Instance kind_eq_dec : EqDecision Kind.
Proof.
  intros a b. destruct (Kind.eqb a b) eqn:E; [left; by apply Kind.eqb_eq|right].
  intros Hab. apply Kind.eqb_eq in Hab. congruence.
Defined.

Record tok_ok (t : str) (s : Scanner) : Prop := {
  to_ok : scanner_ok s;
  to_text : text s = t;
  to_full_start : is_char_boundary t (full_start_pos (state s)) = true;
  to_start : is_char_boundary t (token_start (state s)) = true;
  to_order : full_start_pos (state s) <= token_start (state s) <= pos (state s);
  to_nonempty : token (state s) <> Kind.EndOfFile -> token_start (state s) < pos (state s);
  to_opened : opened_at t (token_start (state s)) (token (state s));
  to_told : told_at t (token_start (state s)) (token (state s)) (token_value (state s))
}.

(** What no method changes, and the errors, which are only added. *)
Record scanner_frame (s s' : Scanner) : Prop := {
  sf_text : text s' = text s;
  sf_end : end_ s' = end_ s;
  sf_jsx : jsx s' = jsx s;
  sf_skips : skips_trivia s' = skips_trivia s;
  sf_version : language_version s' = language_version s;
  sf_diagnostics : diagnostics s `prefix_of` diagnostics s'
}.

Lemma frame_refl s : scanner_frame s s.
Proof. by split. Qed.

Lemma frame_trans s1 s2 s3 : scanner_frame s1 s2 -> scanner_frame s2 s3 -> scanner_frame s1 s3.
Proof. intros [] []. split; try congruence. by etrans. Qed.

Lemma at_frame s0 p s : at_ s0 p s -> scanner_frame s0 s.
Proof. by intros []. Qed.

Lemma tok_pos t s : tok_ok t s -> is_char_boundary t (pos (state s)) = true.
Proof. intros [[] <-]. done. Qed.

Lemma tok_le t s : tok_ok t s -> pos (state s) <= length t.
Proof. intros H%tok_pos. by apply boundary_le. Qed.

(** A token scanned again: it ends later or earlier, and may be another. *)
Lemma tok_again t s0 q s1 k :
  tok_ok t s0 -> at_ s0 q s1 -> is_char_boundary t q = true -> token_start (state s0) < q ->
  opened_at t (token_start (state s0)) k -> told_at t (token_start (state s0)) k (token_value (state s1)) ->
  tok_ok t (with_state (with_token k) s1).
Proof.
  intros [[[] ? ? ? ?] ? ? ? ? ? ? ?] [] Hq Hlt Ho Ht. split; simpl; try congruence; [|lia|].
  - split; [split|..]; simpl; try congruence. intros ?. lia.
  - by rewrite at_token_start.
Qed.

Lemma mute_told t p k v : mute k = true -> told_at t p k v.
Proof.
  unfold mute. intros [H1 H2]%andb_true_iff. apply negb_true_iff in H1, H2. split; [congruence|].
  intros ->. by rewrite (proj2 (Kind.eqb_eq _ _) eq_refl) in H2.
Qed.

Lemma plain_at t p k : plain k -> opened_at t p k.
Proof. intros [_ Hk] c. by rewrite Hk. Qed.

(** ** Scanning a token *)

Section again.
Context {U : UnicodeId} {laws : UnicodeIdLaws U}.

Lemma scan_between t s :
  scanner_ok s -> text s = t ->
  wp scan (fun k s' => tok_ok t s' /\ scanner_frame s s' /\ token (state s') = k
                       /\ full_start_pos (state s') = pos (state s)) s.
Proof.
  intros Hs <-. eapply wp_mono; [by apply scan_ok|]. cbv beta.
  intros k s' [(q & ? & ? & ? & ? & ? & ? & Hf & Hq & Hk & ? & ? & ? & ? & ? & ? & ? & ?) Hs'].
  split_and!; [|by split|done|done]. split; try done; try congruence; try lia.
  - rewrite Hf. apply (ok_boundary s Hs).
  - rewrite Hk, Hq. auto.
  - by rewrite Hk.
Qed.

(** ** Scanning a token again *)

Lemma token_ascii_next t s c :
  tok_ok t s -> opens (token (state s)) = Some c -> is_char_boundary t (token_start (state s) + 1) = true.
Proof.
  intros H Hc. pose proof (to_opened _ _ H _ Hc) as Hl. apply opens_ascii in Hc.
  rewrite Nat.add_1_r. eapply boundary_ascii_next; [|done|lia]. rewrite <- (to_text _ _ H). apply (to_ok _ _ H).
Qed.

(** What a method that scans the token again answers. *)
Definition again (t : str) (s : Scanner) (k : Kind) (s' : Scanner) : Prop :=
  tok_ok t s' /\ scanner_frame s s' /\ token (state s') = k
  /\ full_start_pos (state s') = full_start_pos (state s).

Lemma again_stay t s : tok_ok t s -> again t s (token (state s)) s.
Proof. intros H. by split_and!; [|apply frame_refl|..]. Qed.

Lemma again_move t s q s1 :
  tok_ok t s -> at_ s q s1 -> is_char_boundary t q = true -> token_start (state s) < q ->
  mute (token (state s)) = true -> again t s (token (state s)) s1.
Proof.
  intros H Ha Hq Hlt Hm. split_and!; [|by eapply at_frame|by destruct Ha..].
  destruct H as [[[] ? ? ? ?] ? ? ? ? ? ? ?], Ha. split; try congruence; try lia.
  - split; [split|..]; try congruence. intros ?. lia.
  - by rewrite at_token_start, at_token.
  - rewrite at_token. by apply mute_told.
Qed.

Lemma again_set t s q s1 k :
  tok_ok t s -> at_ s q s1 -> is_char_boundary t q = true -> token_start (state s) < q -> plain k ->
  mute k = true -> wp (set_token k ;; get_token) (again t s) s1.
Proof.
  intros H Ha Hq Hlt Hk Hm. unfold wp. cbn.
  split_and!; [eapply tok_again; [done|done|done|done|by apply plain_at|by apply mute_told]|by eapply at_frame in Ha as []|done|by destruct Ha].
Qed.

Lemma re_scan_less_than_between t s : tok_ok t s -> wp re_scan_less_than_token (again t s) s.
Proof.
  intros H. pose proof (at_refl s). unfold re_scan_less_than_token. wgo.
  - apply Kind.eqb_eq in E. pose proof (token_ascii_next t s 60 H ltac:(by rewrite E)).
    eapply again_set; done || lia.
  - by apply again_stay.
Qed.

Lemma re_scan_question_between t s :
  tok_ok t s -> token (state s) = Kind.QuestionQuestionToken -> wp re_scan_question_token (again t s) s.
Proof.
  intros H Ht. pose proof (at_refl s). unfold re_scan_question_token. wgo.
  pose proof (token_ascii_next t s 63 H ltac:(by rewrite Ht)). eapply again_set; done || lia.
Qed.

Lemma re_scan_asterisk_equals_between t s :
  tok_ok t s -> token (state s) = Kind.AsteriskEqualsToken -> wp re_scan_asterisk_equals_token (again t s) s.
Proof.
  intros H Ht. pose proof (at_refl s). unfold re_scan_asterisk_equals_token. wgo.
  pose proof (token_ascii_next t s 42 H ltac:(by rewrite Ht)). eapply again_set; done || lia.
Qed.

(** What the characters after a [>] make of it. *)
Definition greater_kind (k : Kind) : Prop :=
  k = Kind.GreaterThanToken \/ k = Kind.GreaterThanEqualsToken \/ k = Kind.GreaterThanGreaterThanToken
  \/ k = Kind.GreaterThanGreaterThanEqualsToken \/ k = Kind.GreaterThanGreaterThanGreaterThanToken
  \/ k = Kind.GreaterThanGreaterThanGreaterThanEqualsToken.

Lemma re_scan_greater_than_between t s : tok_ok t s ->
  wp re_scan_greater_than_token (fun k s' => again t s k s' /\ (token (state s) <> Kind.GreaterThanToken -> s' = s)
    /\ (token (state s) = Kind.GreaterThanToken -> greater_kind k)) s.
Proof.
  intros H. pose proof (at_refl s). assert (text_ok s) as Hok by apply (to_ok _ _ H).
  pose proof (ok_whole _ (to_ok _ _ H)) as Hw. pose proof (to_text _ _ H) as Ht.
  unfold re_scan_greater_than_token, retake. wgo; bools.
  all: try (split; [by apply again_stay|]; split; [done|]; intros Hk; by rewrite Hk in E).
  all: apply Kind.eqb_eq in E; pose proof (token_ascii_next t s 62 H ltac:(by rewrite E)).
  all: try (apply (wp_mono _ (fun k s' => again t s k s' /\ greater_kind k)); [|by intros ? ? [? ?]; split_and!]).
  all: try (apply wp_conj; [|unfold wp, greater_kind; cbn; by auto 7]).
  all: try (eapply again_set; [done|eassumption| |lia|done|done]).
  all: try match goal with Hc : char_is ?s ?p ?c, Hok : text_ok ?s, Ht : _ = ?t |- is_char_boundary ?t ?q = true =>
    replace q with (p + 1) by lia; rewrite <- Ht; apply (B_next s Hok p c Hc); lia end.
  split; [|split; [done|by left]].
  eapply again_move; [done|eassumption|done|lia|by rewrite E].
Qed.

(** A slash becomes a regular expression literal. *)
Lemma re_scan_slash_between (v : nat -> Z -> bool -> M unit) t s :
  tok_ok t s -> wp (re_scan_slash_token v false) (fun k s' => again t s k s' /\
    (token (state s) = Kind.SlashToken \/ token (state s) = Kind.SlashEqualsToken -> k = Kind.RegularExpressionLiteral)
    /\ (k <> Kind.RegularExpressionLiteral -> s' = s)) s.
Proof.
  intros H. pose proof (to_text _ _ H) as Ht.
  change (re_scan_slash_token v false) with (re_scan_slash_token (RegExp.validate (H0 := ascii_case)) false).
  destruct (decide (token_start (state s) < length t)) as [Hlt|Hlt].
  - eapply wp_mono; [apply re_scan_slash_ok; [apply (to_ok _ _ H)|rewrite Ht; apply (to_start _ _ H)|by rewrite Ht]|].
    cbv beta. intros k s' (Hr & Hs' & Hc). destruct (_ || _) eqn:E.
    + destruct Hc as (-> & _ & Hc). split; [|done]. assert (token_start (state s) < pos (state s')) as Hlt'.
      { apply Hc. rewrite Ht. apply (to_opened _ _ H).
        by apply orb_true_iff in E as [E|E]; apply Kind.eqb_eq in E; rewrite E. }
      destruct Hr, H as [_ _ ? ? ? _ _ _]. split; [|split; [by split|done]].
      split; try congruence; try lia; rewrite rs_token; [by apply plain_at|by apply mute_told].
    + subst s'. destruct Hr. rewrite <- rs_token. split; [by apply again_stay|]. bools. split; [|done].
      by intros [Hk|Hk]; rewrite Hk in *.
  - assert (token (state s) = Kind.EndOfFile) as Hk.
    { destruct (decide (token (state s) = Kind.EndOfFile)) as [|Hne]; [done|]. apply (to_nonempty _ _ H) in Hne.
      pose proof (tok_le _ _ H). lia. }
    unfold re_scan_slash_token. apply wp_bind. eapply wp_get_token; [apply at_refl|]. rewrite Hk. cbn.
    split; [rewrite <- Hk; by apply again_stay|]. split; [by intros [?|?]|done].
Qed.

(** ** Templates *)

Lemma template_kind_opens t p b k :
  template_kind b k -> (b = true -> t !! p = Some 96%Z) -> opened_at t p k.
Proof. destruct b; intros [->| ->] Hb c; try done. all: cbn; intros [= <-]; by apply Hb. Qed.

(** A template or the end of a substitution is scanned again from its start. *)
Lemma re_scan_template_between tagged t s c :
  tok_ok t s -> t !! token_start (state s) = Some c -> (0 <= c < 128)%Z ->
  wp (re_scan_template_token tagged) (fun k s' => again t s k s' /\ template_kind (c =? 96)%Z k
    /\ (c = 96%Z -> k = template_rest (drop (token_start (state s) + 1) t))) s.
Proof.
  intros H Hc Hc'. pose proof (at_refl s). assert (text_ok s) as Hok by apply (to_ok _ _ H).
  pose proof (ok_whole _ (to_ok _ _ H)) as Hw. pose proof (to_text _ _ H) as Ht.
  assert (char_is s (token_start (state s)) c).
  { apply char_is_lookup; [done| |by rewrite Ht]. rewrite Hw, Ht. by apply lookup_lt_Some in Hc. }
  unfold re_scan_template_token. wgo. wcall scan_template_safe.
  match goal with HB : B _ _ |- _ => destruct HB as [HB _]; rewrite Ht in HB end.
  destruct H6 as [Hk Hrest]. unfold rest_at in Hrest. rewrite Ht in Hrest.
  rewrite Ht in Hw. specialize (fun Hc96 => Hrest Hc96 Hw). unfold wp. cbn. split; [|by split].
  split_and!; [eapply tok_again; [done|done|done|lia| |]|by eapply at_frame in H3 as []|done|by destruct H3].
  - eapply template_kind_opens; [done|]. intros ->%Z.eqb_eq. done.
  - split; [by destruct (c =? 96)%Z; destruct Hk as [->| ->]|]. intros ->.
    destruct (Z.eqb_spec c 96) as [->|]; [symmetry; by apply Hrest|by destruct Hk].
Qed.

(** A template without substitutions is one again. *)
Lemma re_scan_plain_template tagged t s :
  tok_ok t s -> token (state s) = Kind.NoSubstitutionTemplateLiteral ->
  wp (re_scan_template_token tagged) (fun k s' => again t s k s' /\ k = Kind.NoSubstitutionTemplateLiteral) s.
Proof.
  intros H Hk. pose proof (to_opened _ _ H 96%Z ltac:(by rewrite Hk)) as Hc.
  eapply wp_mono; [by apply (re_scan_template_between tagged t s 96)|]. cbv beta.
  intros k s' (Ha & _ & Hr). split; [done|]. rewrite (Hr eq_refl). by apply (to_told _ _ H).
Qed.
End again.
