(* ===== verification/ParserLogic.v ===== *)
(** * A program logic for the parser's methods

    A method of the parser answers from every good state: the token of the parser
    is the one the scanner is at, and the nodes of the arena refer to nodes. The
    rules below are total: a method that runs out of rounds or panics satisfies
    none of them. Everything is over one text, of a TypeScript file without JSX. *)

From stdpp Require Import gmap sets.
From S2P Require Import Prelude Utf8 RustStr Chars Kind Diagnostics ScanText ScanState ScanEscapes ScanNumbers Scan Rescan ScanLogic ScanSafe ScanTotal ScanBlind SkipTrivia RegExpLiteral ScanAgain ParserMessages Ast ParserState.

Local Open Scope nat_scope.

(** ** The text *)

Class Source := {
  src : str;
  src_utf8 : utf8 src;
  src_probe : probe_safe src = true
}.

Section source.
Context {T : Source}.

(** A position a character begins at, or the end of the text. *)
Definition Bd (q : nat) : Prop := is_char_boundary src q = true.

Lemma Bd_le q : Bd q -> q <= length src.
Proof. apply boundary_le. Qed.

(** ** Trees

    A node refers to nodes below [N]. *)

Definition opt_ok (N : nat) (o : option NodeId) : Prop := match o with Some id => id < N | None => True end.

Record list_ok (N : nat) (l : NodeList) : Prop := {
  lk_nodes : Forall (fun id => id < N) (lnodes l);
  lk_pos : Bd (lpos l);
  lk_end : Bd (lend l)
}.

Definition optl_ok (N : nat) (o : option NodeList) : Prop :=
  match o with Some l => list_ok N l | None => True end.

(** No node is marked as one of a JavaScript file. *)
Definition ts (flags : Z) : Prop := Z.testbit flags 16 = false.

Record built (N : nat) (n : Node) : Prop := {
  bt_name : opt_ok N (nname n);
  bt_ty : opt_ok N (nty n);
  bt_body : opt_ok N (nbody n);
  bt_expression : opt_ok N (nexpression n);
  bt_initializer : opt_ok N (ninitializer n);
  bt_question : opt_ok N (nquestion_token n);
  bt_import : opt_ok N (nimport_clause n);
  bt_modifiers : optl_ok N (nmodifiers n);
  bt_tparams : optl_ok N (ntype_parameters n);
  bt_targs : optl_ok N (ntype_arguments n);
  bt_params : optl_ok N (nparameters n);
  bt_children : Forall (opt_ok N) (nchildren n);
  bt_lists : Forall (optl_ok N) (nlists n);
  bt_ts : ts (nflags n)
}.

(** What the code reads of a node after its kind. *)
Definition shaped (n : Node) : Prop :=
  match nkind n with
  | Kind.NonNullExpression => is_Some (nexpression n)
  | Kind.ExpressionWithTypeArguments =>
      is_Some (nexpression n) /\ match ntype_arguments n with Some l => 0 < lpos l | None => True end
  | Kind.TaggedTemplateExpression => is_Some (nbody n)
  | Kind.Identifier => utf8 (ntext n)
  | _ => True
  end.

Record node_ok (id : nat) (n : Node) : Prop := {
  no_built : built id n;
  no_shaped : shaped n;
  no_pos : Bd (npos n);
  no_end : Bd (nend n)
}.

(** The children of a node are before it in the arena. *)
Definition arena_ok (nodes : list Node) : Prop := forall id n, nodes !! id = Some n -> node_ok id n.

(** ** Good states *)

Definition fs (p : Parser) : nat := token_full_start (scanner p).
Definition nlen (p : Parser) : nat := length (nodes p).

Record good (p : Parser) : Prop := {
  gd_scanner : tok_ok src (scanner p);
  gd_text : source_text p = src;
  gd_token : token p = ScanState.token (state (scanner p));
  gd_nodes : arena_ok (nodes p);
  gd_jsx : jsx p = false;
  gd_flags : ts (context_flags p)
}.

(** From [p] the parser has come to [p']: further in the text, more nodes. *)
Record step (p p' : Parser) : Prop := {
  st_good : good p';
  st_fs : fs p <= fs p';
  st_nlen : nlen p <= nlen p'
}.

(** At the same token. *)
Record still (p p' : Parser) : Prop := {
  sl_state : state (scanner p') = state (scanner p);
  sl_token : token p' = token p;
  sl_flags : context_flags p' = context_flags p
}.

(** Nothing but the scanner has changed. *)
Record scans (p p' : Parser) : Prop := {
  sc_self : p' = with_scanner (scanner p') (with_token (token p') p);
  sc_frame : scanner_frame (scanner p) (scanner p')
}.

(** The recursion is [n] rounds away from its end: at most that many bytes are
    left, or fewer. *)
Definition ready (n : nat) (p : Parser) : Prop := length src <= fs p + n.
Definition deep (n : nat) (p : Parser) : Prop := length src < fs p + n.

(** ** Total correctness *)

Definition pwp {A} (m : P A) (Q : A -> Parser -> Prop) (p : Parser) : Prop :=
  match m p with Ok (a, p') => Q a p' | _ => False end.

(** What a method answers refers to the arena. *)
Class Valid (A : Type) := valid : nat -> A -> Prop.
#[export] Instance valid_id : Valid nat := fun N id => id < N.
#[export] Instance valid_opt : Valid (option NodeId) := opt_ok.
#[export] Instance valid_list : Valid NodeList := list_ok.
#[export] Instance valid_optl : Valid (option NodeList) := optl_ok.
#[export] Instance valid_ids : Valid (list NodeId) := fun N => Forall (fun id => id < N).
#[export] Instance valid_node : Valid Node := fun N n => built N n /\ shaped n.
#[export] Instance valid_pair {A B} `{Valid A} `{Valid B} : Valid (A * B) :=
  fun N '(a, b) => valid N a /\ valid N b.
#[export] Instance valid_sum {A B} `{Valid A} `{Valid B} : Valid (A + B) :=
  fun N s => match s with inl a => valid N a | inr b => valid N b end.
#[export] Instance valid_optids : Valid (option (list NodeId)) :=
  fun N o => match o with Some l => Forall (fun id => id < N) l | None => True end.
#[export] Instance valid_unit : Valid unit := fun _ _ => True.
#[export] Instance valid_bool : Valid bool := fun _ _ => True.
#[export] Instance valid_int : Valid Z := fun _ _ => True.
#[export] Instance valid_str : Valid str := fun _ _ => True.
#[export] Instance valid_kind : Valid Kind := fun _ _ => True.
#[export] Instance valid_optkind : Valid (option Kind) := fun _ _ => True.
#[export] Instance valid_optnode : Valid (option Node) := fun _ _ => True.

(** The specification of a method: from a good state that satisfies [pre] it
    answers something valid, and [post] holds. *)
Class Spec {A} `{Valid A} (m : P A) (pre : Parser -> Prop) (post : Parser -> A -> Parser -> Prop) : Prop :=
  spec : forall p, good p -> pre p -> pwp m (fun a p' => step p p' /\ valid (nlen p') a /\ post p a p') p.

(** A method that only asks: it leaves the parser as it is. *)
Class Asks {A} (m : P A) : Prop := asks : forall p, good p -> exists a, m p = Ok (a, p).

(** A method that only scans. *)
Class Scans {A} (m : P A) (pre : Parser -> Prop) (post : Parser -> A -> Parser -> Prop) : Prop :=
  scanned : forall p, good p -> pre p -> pwp m (fun a p' => good p' /\ scans p p' /\ fs p <= fs p' /\ post p a p') p.
End source.
#[global] Hint Mode Spec ! - - ! - - : typeclass_instances.
#[global] Hint Mode Asks ! - ! : typeclass_instances.
#[global] Hint Mode Scans ! - ! - - : typeclass_instances.

(** ** Trees: monotonicity and builders *)

Section trees.
Context {T : Source}.

Lemma opt_ok_mono N M o : opt_ok N o -> N <= M -> opt_ok M o.
Proof. destruct o; simpl; lia. Qed.

Lemma ids_mono N M (l : list NodeId) : Forall (fun id => id < N) l -> N <= M -> Forall (fun id => id < M) l.
Proof. intros H ?. eapply Forall_impl; [exact H|]. simpl. lia. Qed.

Lemma list_ok_mono N M l : list_ok N l -> N <= M -> list_ok M l.
Proof. intros [] ?. split; [by eapply ids_mono|done..]. Qed.

Lemma optl_ok_mono N M o : optl_ok N o -> N <= M -> optl_ok M o.
Proof. destruct o; [apply list_ok_mono|done]. Qed.

Lemma built_mono N M n : built N n -> N <= M -> built M n.
Proof.
  intros [] ?. split; try (by eapply opt_ok_mono); try (by eapply optl_ok_mono); [..|done].
  - eapply Forall_impl; [done|]. intros ? ?. by eapply opt_ok_mono.
  - eapply Forall_impl; [done|]. intros ? ?. by eapply optl_ok_mono.
Qed.

Lemma ids_snoc N (l : list NodeId) id : Forall (fun id => id < N) l -> id < N -> Forall (fun id => id < N) (l ++ [id]).
Proof. intros. apply Forall_app. by repeat constructor. Qed.

Lemma ts_lor a b : ts a -> ts b -> ts (Z.lor a b).
Proof. unfold ts. intros Ha Hb. by rewrite Z.lor_spec, Ha, Hb. Qed.

Lemma ts_without a b : ts a -> ts (NodeFlags.without a b).
Proof. unfold ts, NodeFlags.without. intros Ha. by rewrite Z.land_spec, Ha. Qed.

Lemma ts_set c f (v : bool) : ts c -> ts f -> ts (if v then Z.lor c f else NodeFlags.without c f).
Proof. destruct v; intros; [by apply ts_lor|by apply ts_without]. Qed.

Lemma ts_has c : ts c -> NodeFlags.has c NodeFlags.JavaScriptFile = false.
Proof.
  unfold ts, NodeFlags.has. intros H. apply negb_false_iff, Z.eqb_eq. apply Z.bits_inj'. intros i Hi.
  rewrite Z.land_spec, Z.bits_0. change NodeFlags.JavaScriptFile with (2 ^ 16)%Z.
  rewrite Z.pow2_bits_eqb by lia. destruct (Z.eqb_spec 16 i) as [<-|]; [by rewrite H|by rewrite andb_false_r].
Qed.

Section builders.
Context (N : nat) (n : Node) (Hn : built N n).

Lemma built_name v : opt_ok N v -> built N (Node.name v n).
Proof. destruct Hn. by split. Qed.
Lemma built_ty v : opt_ok N v -> built N (Node.ty v n).
Proof. destruct Hn. by split. Qed.
Lemma built_body v : opt_ok N v -> built N (Node.body v n).
Proof. destruct Hn. by split. Qed.
Lemma built_expression v : opt_ok N v -> built N (Node.expression v n).
Proof. destruct Hn. by split. Qed.
Lemma built_initializer v : opt_ok N v -> built N (Node.initializer v n).
Proof. destruct Hn. by split. Qed.
Lemma built_question v : opt_ok N v -> built N (Node.question v n).
Proof. destruct Hn. by split. Qed.
Lemma built_import v : opt_ok N v -> built N (Node.import_clause v n).
Proof. destruct Hn. by split. Qed.
Lemma built_modifiers v : optl_ok N v -> built N (Node.modifiers v n).
Proof. destruct Hn. by split. Qed.
Lemma built_type_parameters v : optl_ok N v -> built N (Node.type_parameters v n).
Proof. destruct Hn. by split. Qed.
Lemma built_type_arguments v : optl_ok N v -> built N (Node.type_arguments v n).
Proof. destruct Hn. by split. Qed.
Lemma built_parameters v : optl_ok N v -> built N (Node.parameters v n).
Proof. destruct Hn. by split. Qed.
Lemma built_child v : opt_ok N v -> built N (Node.child v n).
Proof. destruct Hn. split; try done. simpl. apply Forall_app. by repeat constructor. Qed.
Lemma built_list v : optl_ok N v -> built N (Node.list v n).
Proof. destruct Hn. split; try done. simpl. apply Forall_app. by repeat constructor. Qed.
Lemma built_text v : built N (Node.text v n).
Proof. destruct Hn. by split. Qed.
Lemma built_op v : built N (Node.op v n).
Proof. destruct Hn. by split. Qed.
Lemma built_token_flags v : built N (Node.token_flags v n).
Proof. destruct Hn. by split. Qed.
Lemma built_type_only v : built N (Node.type_only v n).
Proof. destruct Hn. by split. Qed.
Lemma built_export_equals v : built N (Node.export_equals v n).
Proof. destruct Hn. by split. Qed.
Lemma built_flags v : ts v -> built N (Node.flags v n).
Proof. destruct Hn. intros. split; try done. by apply ts_lor. Qed.
Lemma built_at_range a b : built N (Node.at_range a b n).
Proof. destruct Hn. by split. Qed.
Lemma built_with_kind k : built N (Node.with_kind k n).
Proof. destruct Hn. by split. Qed.
Lemma built_with_flags v : ts v -> built N (Node.with_flags v n).
Proof. destruct Hn. by split. Qed.
End builders.

Lemma list_ok_new N a b l : Forall (fun id => id < N) l -> Bd a -> Bd b -> list_ok N (NodeList_new a b l).
Proof. by split. Qed.

Lemma built_new N k : built N (Node.new k).
Proof. by split; try constructor. Qed.

(** Most kinds say nothing of the fields. *)
Definition unread_kind (k : Kind) : bool :=
  negb (among k [Kind.NonNullExpression; Kind.ExpressionWithTypeArguments; Kind.TaggedTemplateExpression; Kind.Identifier]).

Lemma shaped_plain n : unread_kind (nkind n) = true -> shaped n.
Proof. unfold shaped. by destruct (nkind n). Qed.

(** The kind of a token says nothing of the fields of its node. *)
Lemma shaped_new k : Kind.leb k Kind.LastToken = true -> shaped (Node.new k).
Proof. destruct k; try done; intros _; try exact utf8_nil. Qed.
End trees.
Create HintDb tree discriminated.
#[export] Hint Resolve built_name built_ty built_body built_expression built_initializer built_question built_import
  built_modifiers built_type_parameters built_type_arguments built_parameters built_child built_list built_text
  built_op built_token_flags built_type_only built_export_equals built_flags built_at_range built_with_kind built_with_flags built_new : tree.

(** ** Rules *)

Section rules.
Context {T : Source} {A B : Type}.
Implicit Types (m : P A) (p : Parser).

Lemma pwp_ret (a : A) (Q : A -> Parser -> Prop) p : Q a p -> pwp (ret a) Q p.
Proof. done. Qed.

Lemma pwp_bind m (k : A -> P B) Q p : pwp m (fun a => pwp (k a) Q) p -> pwp (m ≫= k) Q p.
Proof. unfold pwp, mbind, P_bind. by destruct (m p) as [[? ?]| |]. Qed.

Lemma pwp_mono m (Q R : A -> Parser -> Prop) p : pwp m Q p -> (forall a p', Q a p' -> R a p') -> pwp m R p.
Proof. unfold pwp. destruct (m p) as [[? ?]| |]; auto. Qed.

Lemma pwp_ok m Q p : pwp m Q p <-> exists a p', m p = Ok (a, p') /\ Q a p'.
Proof.
  unfold pwp. destruct (m p) as [[a' s']| |]; (split; [intros ?; try done; by eauto|]).
  all: intros (? & ? & ? & ?); by simplify_eq.
Qed.

(** What was run is known. *)
Lemma pwp_run m (Q : A -> Parser -> Prop) p :
  pwp m Q p -> pwp m (fun a p' => m p = Ok (a, p') /\ Q a p') p.
Proof. intros (a & p' & H & ?)%pwp_ok. apply pwp_ok. by exists a, p'. Qed.

Lemma pwp_gets (f : Parser -> A) Q p : Q (f p) p -> pwp (gets f) Q p.
Proof. done. Qed.

Lemma pwp_lift (f : Parser -> result A) (Q : A -> Parser -> Prop) p :
  returns (f p) (fun a => Q a p) -> pwp (lift f) Q p.
Proof. unfold pwp, lift. by destruct (f p). Qed.

(** A method by its specification. *)
Lemma pwp_use `{Valid A} m pre post Q p :
  Spec m pre post -> good p -> pre p ->
  (forall a p', step p p' -> valid (nlen p') a -> post p a p' -> Q a p') -> pwp m Q p.
Proof. intros Hs Hp Hpre HQ. eapply pwp_mono; [by apply Hs|]. cbv beta. intros a p' (? & ? & ?). auto. Qed.

Lemma pwp_ask m Q p : Asks m -> good p -> (forall a, m p = Ok (a, p) -> Q a p) -> pwp m Q p.
Proof. intros Ha Hp HQ. destruct (Ha p Hp) as [a E]. unfold pwp. rewrite E. auto. Qed.

(** What follows is proved once for all the branches of [m]. *)
Lemma pwp_join `{Valid A} (R : Parser -> A -> Parser -> Prop) m (Q : A -> Parser -> Prop) p :
  pwp m (fun a p' => step p p' /\ valid (nlen p') a /\ R p a p') p ->
  (forall a p', step p p' -> valid (nlen p') a -> R p a p' -> Q a p') -> pwp m Q p.
Proof. intros Hm HQ. eapply pwp_mono; [exact Hm|]. intros a p' (? & ? & ?). auto. Qed.
End rules.

Section rules.
Context {T : Source}.

Lemma step_refl p : good p -> step p p.
Proof. by split. Qed.

Lemma step_trans p1 p2 p3 : step p1 p2 -> step p2 p3 -> step p1 p3.
Proof. intros [] []. split; [done|lia|lia]. Qed.

Lemma step_intro p p' : good p' -> fs p <= fs p' -> nlen p <= nlen p' -> step p p'.
Proof. by split. Qed.

Lemma good_fs p : good p -> Bd (fs p).
Proof. intros [[] _ _ _ _ _]. exact to_full_start. Qed.

Lemma fs_le p : good p -> fs p <= length src.
Proof. intros H%good_fs. by apply Bd_le. Qed.

(** A loop that moves forward with every further round. *)
Lemma pwp_loop {L A} `{Valid L} `{Valid A} (I : L -> Parser -> Prop) (R : A -> Parser -> Prop) (body : L -> P (L + A)) init Q p :
  good p -> valid (nlen p) init -> I init p ->
  (forall l p1, step p p1 -> valid (nlen p1) l -> I l p1 ->
     pwp (body l) (fun r p2 => step p1 p2 /\
       match r with
       | inl l' => valid (nlen p2) l' /\ I l' p2 /\ fs p1 < fs p2
       | inr a => valid (nlen p2) a /\ R a p2
       end) p1) ->
  (forall a p', step p p' -> valid (nlen p') a -> R a p' -> Q a p') ->
  pwp (loop body init) Q p.
Proof.
  intros Hp Hv HI Hbody HQ. unfold pwp, loop, loop_fuel.
  match goal with |- match iterate ?n ?f ?x with _ => _ end =>
    assert (H1 : returns (iterate n f x) (fun '(a, p') => step p p' /\ valid (nlen p') a /\ R a p')) end.
  - eapply (iterate_returns (fun '(l, p1) => step p p1 /\ valid (nlen p1) l /\ I l p1)
              (fun '(l, p1) => length src - fs p1)).
    + intros [l1 p1] (Hs1 & Hv1 & HI1). specialize (Hbody l1 p1 Hs1 Hv1 HI1). unfold pwp in Hbody.
      destruct (body l1 p1) as [[[l2|a] p2]| |]; [| |done..]; destruct Hbody as (Hs2 & Hr); simpl.
      * destruct Hr as (? & ? & ?). split_and!; [by eapply step_trans|done|done|].
        destruct Hs2 as [Hg _ _]. apply fs_le in Hg. lia.
      * destruct Hr. split_and!; [by eapply step_trans|done..].
    + split_and!; [by apply step_refl|done..].
    + unfold rounds. destruct Hp. rewrite gd_text0. unfold fs. lia.
  - unfold returns in H1. destruct (iterate _ _ _) as [[a p']| |]; [|done..]. destruct H1 as (? & ? & ?). auto.
Qed.
End rules.

(** ** What only scans *)

Create HintDb specs discriminated.
#[export] Hint Constants Opaque : specs.
#[export] Hint Variables Opaque : specs.

(** [Looks m]: [m] only scans, from every good state. *)
Abbreviation Looks m := (Scans m (fun _ => True) (fun _ _ _ => True)).

Section scans.
Context {T : Source}.

Lemma scans_refl p : scans p p.
Proof. split; [by destruct p|apply frame_refl]. Qed.

Lemma scans_trans p1 p2 p3 : scans p1 p2 -> scans p2 p3 -> scans p1 p3.
Proof.
  intros [H1 F1] [H2 F2]. split; [|by eapply frame_trans]. etrans; [exact H2|]. by rewrite H1.
Qed.

Lemma scans_nodes p p' : scans p p' -> nodes p' = nodes p.
Proof. by intros [-> _]. Qed.

Lemma scans_flags p p' : scans p p' -> context_flags p' = context_flags p.
Proof. by intros [-> _]. Qed.

Lemma scans_step p p' : good p' -> scans p p' -> fs p <= fs p' -> step p p'.
Proof. intros Hg Hs Hf. split; [done..|]. unfold nlen. by rewrite (scans_nodes _ _ Hs). Qed.

Lemma scans_ret {A} (a : A) : Looks (ret a).
Proof. intros p Hp _. apply pwp_ret. split_and!; [done|apply scans_refl|lia|done]. Qed.

Lemma scans_asks {A} (m : P A) : Asks m -> Scans m (fun _ => True) (fun p _ p' => p' = p).
Proof.
  intros Ha p Hp _. destruct (Ha p Hp) as [a E]. unfold pwp. rewrite E.
  split_and!; [done|apply scans_refl|lia|done].
Qed.

Lemma scans_weaken {A} (m : P A) pre post pre' (post' : Parser -> A -> Parser -> Prop) :
  Scans m pre post -> (forall p, good p -> pre' p -> pre p) ->
  (forall p a p', good p -> scans p p' -> pre' p -> post p a p' -> post' p a p') -> Scans m pre' post'.
Proof.
  intros Hm Hpre Hpost p Hp Hpre'. eapply pwp_mono; [apply Hm; auto|]. cbv beta.
  intros a p' (? & ? & ? & ?). split_and!; [done..|by eapply Hpost].
Qed.

Lemma looks_of {A} (m : P A) post : Scans m (fun _ => True) post -> Looks m.
Proof. intros Hm. by eapply scans_weaken. Qed.

Lemma looks_bind {A B} (m : P A) (k : A -> P B) : Looks m -> (forall a, Looks (k a)) -> Looks (m ≫= k).
Proof.
  intros Hm Hk p Hp _. apply pwp_bind. eapply pwp_mono; [by apply Hm|]. cbv beta.
  intros a p1 (Hp1 & Hs1 & Hf1 & _). eapply pwp_mono; [by apply Hk|]. cbv beta.
  intros b p2 (? & ? & ? & _). split_and!; [done|by eapply scans_trans|lia|done].
Qed.

Lemma looks_asks {A} (m : P A) : Asks m -> Looks m.
Proof. intros Hm. by eapply looks_of, scans_asks. Qed.

Lemma asks_gets {A} (f : Parser -> A) : Asks (gets f).
Proof. intros p _. by eexists. Qed.

Lemma asks_ret {A} (a : A) : Asks (ret a).
Proof. intros p _. by eexists. Qed.

Lemma asks_bind {A B} (m : P A) (k : A -> P B) : Asks m -> (forall a, Asks (k a)) -> Asks (m ≫= k).
Proof.
  intros Hm Hk p Hp. destruct (Hm p Hp) as [a E]. destruct (Hk a p Hp) as [b E']. exists b.
  unfold mbind, P_bind. by rewrite E.
Qed.

Lemma asks_and_then b (m : P bool) : Asks m -> Asks (and_then b m).
Proof. destruct b; [done|]. intros _. apply asks_ret. Qed.

Lemma asks_or_else b (m : P bool) : Asks m -> Asks (or_else b m).
Proof. destruct b; [|done]. intros _. apply asks_ret. Qed.

Lemma looks_and_then b (m : P bool) : Looks m -> Looks (and_then b m).
Proof. destruct b; [done|]. intros _. apply scans_ret. Qed.

Lemma looks_or_else b (m : P bool) : Looks m -> Looks (or_else b m).
Proof. destruct b; [|done]. intros _. apply scans_ret. Qed.

Lemma looks_when b (m : P unit) : Looks m -> Looks (when b m).
Proof. destruct b; [done|]. intros _. apply scans_ret. Qed.

(** What [mark] takes and [rewind] puts back. *)
Definition state_of (p : Parser) : ParserState :=
  {| scanner_state := state (scanner p);
     st_context_flags := context_flags p;
     diagnostics_len := length (diagnostics (scanner p));
     js_diagnostics_len := length (js_diagnostics p);
     st_statement_has_await_identifier := statement_has_await_identifier p;
     st_has_parse_error := has_parse_error (scanner p) |}.

Definition rewound (st : ParserState) (p : Parser) : Parser :=
  with_statement_has_await_identifier (st_statement_has_await_identifier st)
    (with_js_diagnostics (take (js_diagnostics_len st) (js_diagnostics p))
       (with_context_flags (st_context_flags st)
          (with_token (ScanState.token (scanner_state st))
             (with_scanner (rewind_scanner st (scanner p)) p)))).

Lemma rewind_scanner_frame p s : scanner_frame (scanner p) s -> rewind_scanner (state_of p) s = scanner p.
Proof.
  intros [? ? ? ? ? [ds Hds]]. unfold rewind_scanner. destruct (scanner p) as [] eqn:E. simpl in *.
  unfold state_of, with_has_parse_error, with_diagnostics, with_state. rewrite E. simpl.
  rewrite Hds, take_app_length. by subst.
Qed.

Lemma rewound_self p p' : good p -> scans p p' -> rewound (state_of p) p' = p.
Proof.
  intros [_ _ Ht _ _ _] [Hs Hf]. unfold rewound. rewrite (rewind_scanner_frame _ _ Hf), Hs.
  destruct p. simpl in *. rewrite firstn_all. by subst.
Qed.

(** Looking ahead restores the parser exactly. *)
Lemma asks_look_ahead {A} (m : P A) : Looks m -> Asks (look_ahead m).
Proof.
  intros Hm p Hp. specialize (Hm p Hp I). apply pwp_ok in Hm as (a & p' & E & Hp' & Hs & _ & _). exists a.
  unfold look_ahead, mark, gets, rewind, modify, mbind, P_bind. rewrite E.
  change (Ok (a, rewound (state_of p) p') = Ok (a, p)). by rewrite rewound_self.
Qed.

(** What [look_ahead] answers is what its callback answers. *)
Lemma look_ahead_answer {A} (m : P A) p a p' :
  look_ahead m p = Ok (a, p') -> exists p1, m p = Ok (a, p1).
Proof.
  unfold look_ahead, mark, gets, rewind, modify, mbind, P_bind. destruct (m p) as [[b p1]| |]; try done.
  unfold ret. intros [= <- _]. by exists p1.
Qed.
End scans.
#[export] Hint Resolve looks_asks | 30 : specs.
#[export] Hint Resolve scans_ret looks_and_then looks_or_else looks_when | 20 : specs.
#[export] Hint Resolve asks_gets asks_ret asks_and_then asks_or_else
  asks_look_ahead : specs.

(** ** The primitives *)

Class Plain (A : Type) `{Valid A} : Prop := plain : forall N (a : A), valid N a.
#[export] Instance plain_unit : Plain unit.
Proof. done. Qed.
#[export] Instance plain_bool : Plain bool.
Proof. done. Qed.
#[export] Instance plain_str : Plain str.
Proof. done. Qed.
#[export] Instance plain_kind : Plain Kind.
Proof. done. Qed.

Section primitives.
Context {T : Source} {U : UnicodeId} {laws : UnicodeIdLaws U}.

Lemma spec_scans {A} `{Valid A} `{!Plain A} (m : P A) pre post :
  Scans m pre post -> Spec m pre (fun p a p' => scans p p' /\ nlen p' = nlen p /\ post p a p').
Proof.
  intros Hm p Hp Hpre. eapply pwp_mono; [by apply Hm|]. cbv beta. intros a p' (? & Hs & ? & ?).
  split_and!; [by apply scans_step|apply plain|done| |done]. unfold nlen. by rewrite (scans_nodes _ _ Hs).
Qed.

Lemma spec_scans_unit (m : P unit) pre post :
  Scans m pre post -> Spec m pre (fun p a p' => scans p p' /\ nlen p' = nlen p /\ post p a p').
Proof. apply spec_scans. Qed.
Lemma spec_scans_bool (m : P bool) pre post :
  Scans m pre post -> Spec m pre (fun p a p' => scans p p' /\ nlen p' = nlen p /\ post p a p').
Proof. apply spec_scans. Qed.
Lemma spec_scans_kind (m : P Kind) pre post :
  Scans m pre post -> Spec m pre (fun p a p' => scans p p' /\ nlen p' = nlen p /\ post p a p').
Proof. apply spec_scans. Qed.

Lemma pwp_scanning {A} (m : M A) (Q : A -> Parser -> Prop) p :
  wp m (fun a s => Q a (with_scanner s p)) (scanner p) -> pwp (scanning m) Q p.
Proof. unfold pwp, wp, scanning. by destruct (m (scanner p)) as [[? ?]| |]. Qed.

Lemma pwp_rescanned (m : M Kind) (Q : Kind -> Parser -> Prop) p :
  wp m (fun k s => Q k (with_scanner s (with_token k p))) (scanner p) -> pwp (rescanned m) Q p.
Proof. intros H. unfold rescanned. by apply pwp_bind, pwp_scanning. Qed.

(** Between two tokens the parser's own may lag behind the scanner's. *)
Record loose (p : Parser) : Prop := {
  ls_scanner : tok_ok src (scanner p);
  ls_text : source_text p = src;
  ls_nodes : arena_ok (nodes p);
  ls_jsx : jsx p = false;
  ls_flags : ts (context_flags p)
}.

Lemma good_loose p : good p -> loose p.
Proof. intros []. by split. Qed.

Lemma good_scanner s k p :
  loose p -> tok_ok src s -> k = ScanState.token (state s) -> good (with_scanner s (with_token k p)).
Proof. intros [] ? ->. by split. Qed.

(** The next token: further, unless the text has ended. *)
Lemma loose_next_token_without_check p : loose p ->
  pwp next_token_without_check (fun k p' => (good p' /\ scans p p' /\ fs p <= fs p') /\ k = token p' /\
    (ScanState.token (state (scanner p)) <> Kind.EndOfFile -> fs p < fs p') /\ scan (scanner p) = Ok (k, scanner p')) p.
Proof.
  intros Hp. apply pwp_rescanned.
  pose proof (scan_between src (scanner p) (to_ok _ _ (ls_scanner p Hp)) (to_text _ _ (ls_scanner p Hp))) as Hw.
  apply wp_ok in Hw as (k & s & E & Ht & Hf & Hk & Hfs). apply wp_ok. exists k, s. split; [done|].
  pose proof (to_order _ _ (ls_scanner p Hp)). pose proof (to_nonempty _ _ (ls_scanner p Hp)).
  unfold fs, token_full_start in *. simpl. split_and!; [by apply good_scanner|by split|lia|done| |done].
  intros ?. rewrite Hfs. intuition lia.
Qed.

Lemma scans_next_token_without_check :
  Scans next_token_without_check (fun _ => True) (fun p k p' =>
    k = token p' /\ (token p <> Kind.EndOfFile -> fs p < fs p') /\ scan (scanner p) = Ok (k, scanner p')).
Proof.
  intros p Hp _. eapply pwp_mono; [by apply loose_next_token_without_check, good_loose|]. cbv beta.
  intros k p' ((? & ? & ?) & ? & ? & ?). rewrite (gd_token p Hp). by split_and!.
Qed.

Lemma tok_ok_state s s' :
  tok_ok src s -> text s' = text s -> end_ s' = end_ s -> state s' = state s -> tok_ok src s'.
Proof.
  intros [[[] ? ? ? ?] ? ? ? ? ? ? ?] Ht He Hs. split; rewrite ?Hs; try done; [|congruence].
  split; [split|..]; rewrite ?Hs, ?Ht, ?He; done.
Qed.

Lemma scans_scanner_note (m : M unit) :
  (forall s, exists s', m s = Ok (tt, s') /\ scanner_frame s s' /\ state s' = state s) ->
  Scans (scanning m) (fun _ => True) (fun p _ p' => still p p').
Proof.
  intros Hm p Hp _. apply pwp_scanning. destruct (Hm (scanner p)) as (s' & E & Hf & Hs). apply wp_ok.
  exists tt, s'. split; [done|]. pose proof (gd_token p Hp).
  assert (good (with_scanner s' p)).
  { destruct Hp. split; try done; simpl; [|by rewrite Hs]. eapply tok_ok_state; [done|apply Hf..|done]. }
  split_and!; [done| | |].
  - split; [|done]. by destruct p.
  - unfold fs, token_full_start. simpl. by rewrite Hs.
  - by split.
Qed.

Lemma scans_error_at_range a b m args :
  Scans (scanning (error_at_range a b m args)) (fun _ => True) (fun p _ p' => still p p').
Proof.
  apply scans_scanner_note. intros s. eexists. split; [done|]. split; [|done]. split; try done. simpl.
  unfold push_error. destruct (last _); [case_match; [done|]|]; by eexists.
Qed.

Lemma still_refl p : still p p.
Proof. by split. Qed.

Lemma still_trans p1 p2 p3 : still p1 p2 -> still p2 p3 -> still p1 p3.
Proof. intros [] []. split; congruence. Qed.

Lemma still_fs p p' : still p p' -> fs p' = fs p.
Proof. intros [H _ _]. unfold fs, token_full_start. by rewrite H. Qed.

Lemma scans_bind_still {A B} (m : P A) (k : A -> P B) :
  Scans m (fun _ => True) (fun p _ p' => still p p') ->
  (forall a, Scans (k a) (fun _ => True) (fun p _ p' => still p p')) ->
  Scans (m ≫= k) (fun _ => True) (fun p _ p' => still p p').
Proof.
  intros Hm Hk p Hp _. apply pwp_bind. eapply pwp_mono; [by apply Hm|]. cbv beta.
  intros a p1 (Hp1 & Hs1 & Hf1 & Hst1). eapply pwp_mono; [by apply Hk|]. cbv beta.
  intros b p2 (? & ? & ? & ?). split_and!; [done|by eapply scans_trans|lia|by eapply still_trans].
Qed.

Lemma scans_asks_still {A} (m : P A) : Asks m -> Scans m (fun _ => True) (fun p _ p' => still p p').
Proof. intros Hm. eapply scans_weaken; [by apply scans_asks|done|]. cbv beta. intros ? ? ? _ _ _ ->. apply still_refl. Qed.

Lemma scans_parse_error_at_range a b m args :
  Scans (parse_error_at_range a b m args) (fun _ => True) (fun p _ p' => still p p').
Proof.
  unfold parse_error_at_range. apply scans_bind_still; [apply scans_asks_still, asks_gets|intros n].
  apply scans_bind_still; [apply scans_error_at_range|intros _; apply scans_asks_still, asks_gets].
Qed.

Lemma scans_parse_error_at a b m args :
  Scans (parse_error_at a b m args) (fun _ => True) (fun p _ p' => still p p').
Proof.
  unfold parse_error_at. apply scans_bind_still; [apply scans_parse_error_at_range|intros _; apply scans_asks_still, asks_ret].
Qed.

Lemma scans_parse_error_at_current_token m args :
  Scans (parse_error_at_current_token m args) (fun _ => True) (fun p _ p' => still p p').
Proof.
  unfold parse_error_at_current_token. apply scans_bind_still; [apply scans_asks_still, asks_gets|intros [a b]].
  apply scans_parse_error_at.
Qed.

(** [next_token] may first report an escape in a keyword. *)
Lemma scans_next_token :
  Scans next_token (fun _ => True) (fun p k p' => k = token p' /\ (token p <> Kind.EndOfFile -> fs p < fs p')).
Proof.
  intros p Hp _. unfold next_token. apply pwp_bind, pwp_gets, pwp_bind, pwp_gets, pwp_bind.
  assert (Hrest : forall p1, good p1 -> scans p p1 -> still p p1 ->
    pwp next_token_without_check (fun k p' => good p' /\ scans p p' /\ fs p <= fs p' /\
      k = token p' /\ (token p <> Kind.EndOfFile -> fs p < fs p')) p1).
  { intros p1 Hp1 Hs Hst. eapply pwp_mono; [by apply scans_next_token_without_check|]. cbv beta.
    intros k p2 (? & ? & ? & ? & ? & _). rewrite (still_fs _ _ Hst) in *. destruct Hst as [_ Ht _]. rewrite Ht in *.
    split_and!; [done|by eapply scans_trans|done..]. }
  unfold when. case_match.
  - eapply pwp_mono; [by apply scans_parse_error_at_current_token|]. cbv beta. intros _ p1 (? & ? & ? & ?). by apply Hrest.
  - apply pwp_ret, Hrest; [done|apply scans_refl|apply still_refl].
Qed.

Lemma scans_advance_token :
  Scans advance_token (fun _ => True) (fun p _ p' => token p <> Kind.EndOfFile -> fs p < fs p').
Proof.
  intros p Hp _. unfold advance_token. apply pwp_bind. eapply pwp_mono; [by apply scans_next_token|]. cbv beta.
  intros k p' (? & ? & ? & ? & ?). apply pwp_ret. by split_and!.
Qed.

(** ** Scanning the token again *)

Lemma scans_rescanned (m : M Kind) pre (post : Parser -> Kind -> Parser -> Prop) :
  (forall p, good p -> pre p -> wp m (fun k s => again src (scanner p) k s /\
    (good (with_scanner s (with_token k p)) -> post p k (with_scanner s (with_token k p)))) (scanner p)) ->
  Scans (rescanned m) pre (fun p k p' => k = token p' /\ fs p' = fs p /\ post p k p').
Proof.
  intros Hm p Hp Hpre. apply pwp_rescanned. eapply wp_mono; [by apply Hm|]. cbv beta.
  intros k s [(Ht & Hf & Hk & Hfs) Hpost]. assert (good (with_scanner s (with_token k p))) by by apply good_scanner; [apply good_loose|..].
  unfold fs, token_full_start. simpl. split_and!; [done|by split|lia|done|done|by apply Hpost].
Qed.

Lemma scans_re_scan_less_than_token :
  Scans re_scan_less_than_token (fun _ => True) (fun p k p' => k = token p' /\ fs p' = fs p /\ True).
Proof.
  apply scans_rescanned. intros p Hp _. eapply wp_mono; [by apply (re_scan_less_than_between src), Hp|]. done.
Qed.

Lemma scans_re_scan_greater_than_token :
  Scans re_scan_greater_than_token (fun _ => True) (fun p k p' => k = token p' /\ fs p' = fs p /\
    (token p <> Kind.GreaterThanToken -> p' = p) /\ (token p = Kind.GreaterThanToken -> greater_kind k)).
Proof.
  apply scans_rescanned. intros p Hp _. apply wp_ok.
  pose proof (re_scan_greater_than_between src _ (gd_scanner p Hp)) as Hw.
  apply wp_ok in Hw as (k & s & E & Ha & Hs & Hk). exists k, s. split; [done|]. split; [done|]. intros _.
  rewrite (gd_token p Hp). split; [|done]. intros Ht. rewrite (Hs Ht). destruct Ha as (_ & _ & <- & _).
  rewrite (Hs Ht), <- (gd_token p Hp). by destruct p.
Qed.

Lemma scans_re_scan_slash_token :
  Scans re_scan_slash_token (fun _ => True) (fun p k p' => k = token p' /\ fs p' = fs p /\
    (token p = Kind.SlashToken \/ token p = Kind.SlashEqualsToken -> k = Kind.RegularExpressionLiteral)).
Proof.
  apply scans_rescanned. intros p Hp _. eapply wp_mono; [by apply (re_scan_slash_between _ src), Hp|]. cbv beta.
  intros k s (Ha & Hk & _). split; [done|]. by rewrite (gd_token p Hp).
Qed.

(** A template is scanned again where it began; the rest of one, where its
    substitution ended. *)
Definition template_starts (p : Parser) : Prop :=
  token p = Kind.NoSubstitutionTemplateLiteral \/ token p = Kind.TemplateHead \/ token p = Kind.CloseBraceToken.

Lemma scans_re_scan_template_token tagged :
  Scans (re_scan_template_token tagged) template_starts (fun p k p' => k = token p' /\ fs p' = fs p /\
    (token p = Kind.NoSubstitutionTemplateLiteral -> k = Kind.NoSubstitutionTemplateLiteral) /\
    (token p = Kind.TemplateHead -> k <> Kind.EndOfFile) /\
    (token p = Kind.CloseBraceToken -> k = Kind.TemplateMiddle \/ k = Kind.TemplateTail)).
Proof.
  apply scans_rescanned. intros p Hp Hpre. pose proof (gd_token p Hp) as Ht. pose proof (gd_scanner p Hp) as Hs.
  unfold template_starts in Hpre. rewrite Ht in *.
  assert (exists c, opens (ScanState.token (state (scanner p))) = Some c /\ (0 <= c < 128)%Z /\
    ((c =? 96)%Z = false <-> ScanState.token (state (scanner p)) = Kind.CloseBraceToken)) as (c & Hc & Hr & Hc').
  { destruct Hpre as [->|[->| ->]]; eexists; (split; [done|]); (split; [lia|]); by split. }
  pose proof (re_scan_template_between tagged src _ c Hs (to_opened _ _ Hs _ Hc) Hr) as Hw.
  assert (Hsame : wp (Rescan.re_scan_template_token tagged)
    (fun k _ => ScanState.token (state (scanner p)) = Kind.NoSubstitutionTemplateLiteral ->
                k = Kind.NoSubstitutionTemplateLiteral) (scanner p)).
  { destruct (decide (ScanState.token (state (scanner p)) = Kind.NoSubstitutionTemplateLiteral)) as [Hn|Hn].
    - eapply wp_mono; [by apply (re_scan_plain_template tagged src)|]. by intros ? ? [_ ?] _.
    - eapply wp_mono; [exact Hw|]. done. }
  eapply wp_mono; [apply wp_conj; [exact Hw|exact Hsame]|].
  cbv beta. intros k s ((Ha & Hk & _) & Hplain). split; [done|]. intros _. split_and!; [done| |].
  - intros _. by eapply template_kind_not_eof.
  - intros Hcl%Hc'. rewrite Hcl in Hk. destruct Hk as [->| ->]; auto.
Qed.


(** ** The arena *)

Definition kindof (p : Parser) (id : NodeId) : option Kind := nkind <$> nodes p !! id.

Lemma arena_push l n : arena_ok l -> node_ok (length l) n -> arena_ok (l ++ [n]).
Proof.
  intros Hl Hn id m Hm. apply lookup_app_Some in Hm as [Hm|[Hle Hm]]; [by apply Hl|].
  apply list_lookup_singleton_Some in Hm as [? <-]. by replace id with (length l) by lia.
Qed.

Lemma good_push p n : good p -> node_ok (nlen p) n -> good (with_nodes (nodes p ++ [n]) p).
Proof. intros [] Hn. split; try done. by apply arena_push. Qed.

Definition finished (n : Node) (p : Parser) (id : NodeId) (p' : Parser) : Prop :=
  still p p' /\ id = nlen p /\ nlen p' = S (nlen p) /\ kindof p' id = Some (nkind n).

Lemma pwp_push_node n p (Q : NodeId -> Parser -> Prop) :
  good p -> node_ok (nlen p) n ->
  (forall p', step p p' -> finished n p (nlen p) p' -> (forall id, id < nlen p -> nodes p' !! id = nodes p !! id) -> Q (nlen p) p') ->
  pwp (push_node n) Q p.
Proof.
  intros Hp Hn HQ. unfold push_node. apply pwp_bind, pwp_gets, pwp_bind.
  change (Q (nlen p) (with_nodes (nodes p ++ [n]) p)). apply HQ.
  - split; [by apply good_push|done|]. unfold nlen. simpl. rewrite length_app. lia.
  - split_and!; [by split|done| |].
    + unfold nlen. simpl. rewrite length_app. simpl. lia.
    + unfold kindof. simpl. unfold nlen. by rewrite lookup_app_r, Nat.sub_diag by lia.
  - intros id Hid. simpl. by rewrite lookup_app_l.
Qed.

Lemma node_ok_flags f i n : ts f -> node_ok i n -> node_ok i (Node.flags f n).
Proof. intros Hf [[] ? ? ?]. split; try done. split; try done. by apply ts_lor. Qed.

Lemma spec_finish_node_with_end n pos end_ :
  Spec (finish_node_with_end n pos end_)
    (fun p => built (nlen p) n /\ shaped n /\ Bd pos /\ Bd end_) (finished n).
Proof.
  intros p Hp (Hb & Hs & Hpos & Hend). unfold finish_node_with_end.
  apply pwp_bind, pwp_gets, pwp_bind, pwp_gets. cbv zeta.
  assert (forall f, ts f -> node_ok (nlen p) (Node.flags f (Node.at_range pos end_ n))) as Hok.
  { intros f Hf. split; [by apply built_flags; [apply built_at_range|]|done..]. }
  pose proof (gd_flags p Hp) as Hts.
  case_match.
  - apply pwp_bind. unfold modify, pwp at 1.
    match goal with |- pwp _ _ ?p1 => set (p1' := p1) end.
    assert (good p1') by (destruct Hp; split; try done; by apply (tok_ok_state (scanner p))).
    apply pwp_push_node; [done| |].
    + by apply node_ok_flags, Hok.
    + intros p' [Hg Hf Hl] ([Ha Hb' Hc] & _ & Hl' & Hk) _. change (nlen p1') with (nlen p) in *.
      split_and!; [split; [exact Hg|exact Hf|exact Hl]|unfold valid, valid_id; lia|].
      split_and!; [split; [exact Ha|exact Hb'|exact Hc]|done|exact Hl'|exact Hk].
  - apply pwp_push_node; [done|by apply Hok|].
    intros p' Hst (Ha & _ & Hl' & Hk) _. split_and!; [done|unfold valid, valid_id; lia|].
    split_and!; [exact Ha|done|exact Hl'|exact Hk].
Qed.

Lemma spec_finish_node n pos :
  Spec (finish_node n pos) (fun p => built (nlen p) n /\ shaped n /\ Bd pos) (finished n).
Proof.
  intros p Hp (Hb & Hs & Hpos). unfold finish_node. apply pwp_bind, pwp_gets.
  apply spec_finish_node_with_end; [done|]. split_and!; [done..|by apply good_fs].
Qed.

Lemma pwp_node id p (Q : Node -> Parser -> Prop) :
  good p -> id < nlen p -> (forall n, nodes p !! id = Some n -> node_ok id n -> Q n p) -> pwp (node id) Q p.
Proof.
  intros Hp Hid HQ. unfold node. apply pwp_lift. destruct (lookup_lt_is_Some_2 (nodes p) id Hid) as [n Hn].
  rewrite Hn. simpl. apply HQ; [done|]. by apply (gd_nodes p Hp).
Qed.

Lemma pwp_kind_of id p (Q : Kind -> Parser -> Prop) :
  good p -> id < nlen p -> (forall k, kindof p id = Some k -> Q k p) -> pwp (kind_of id) Q p.
Proof.
  intros Hp Hid HQ. unfold kind_of. apply pwp_bind, pwp_node; [done..|]. intros n Hn _. apply pwp_ret, HQ.
  unfold kindof. by rewrite Hn.
Qed.

(** An assignment to a node that keeps it well formed. *)
Lemma spec_node_mut id f :
  (forall i n, node_ok i n -> node_ok i (f n)) ->
  Spec (node_mut id f) (fun p => id < nlen p) (fun p _ p' => still p p' /\ nlen p' = nlen p).
Proof.
  intros Hf p Hp Hid. unfold node_mut. apply pwp_bind, pwp_node; [done..|]. intros n Hn Hok.
  change (pwp ?m ?Q p) with (Q tt (with_nodes (<[id := f n]> (nodes p)) p)). cbv beta.
  assert (nlen (with_nodes (<[id := f n]> (nodes p)) p) = nlen p) by apply length_insert.
  split_and!; [|done|by split|done]. split; [|done|lia].
  destruct Hp. split; try done. simpl. intros i m Hm. apply list_lookup_insert_Some in Hm as [(<- & <- & _)|[_ Hm]].
  - by apply Hf.
  - by apply gd_nodes0.
Qed.

(** ** Going back, and the fields beside *)

(** What rewinding to a state of [p0] leaves: more nodes. *)
Lemma pwp_rewind p0 p (Q : unit -> Parser -> Prop) :
  good p0 -> good p ->
  (forall p', good p' -> still p0 p' -> fs p' = fs p0 -> nlen p' = nlen p -> nodes p' = nodes p -> Q tt p') ->
  pwp (rewind (state_of p0)) Q p.
Proof.
  intros Hp0 Hp HQ. change (Q tt (rewound (state_of p0) p)).
  assert (Htok : tok_ok src (rewind_scanner (state_of p0) (scanner p))).
  { pose proof (gd_scanner p0 Hp0) as H0. pose proof (gd_scanner p Hp) as H1.
    apply (tok_ok_state (scanner p0)); [done|..|done]; simpl.
    - by rewrite (to_text _ _ H0), (to_text _ _ H1).
    - rewrite (ok_whole _ (to_ok _ _ H0)), (ok_whole _ (to_ok _ _ H1)). by rewrite (to_text _ _ H0), (to_text _ _ H1). }
  apply HQ; try done.
  - destruct Hp, Hp0. by split.
  - split; try done. simpl. by rewrite (gd_token p0 Hp0).
Qed.

(** Where the parser only scanned, all is as it was. *)
Lemma pwp_rewind_self p0 p (Q : unit -> Parser -> Prop) :
  good p0 -> scans p0 p -> Q tt p0 -> pwp (rewind (state_of p0)) Q p.
Proof. intros Hp Hs HQ. change (Q tt (rewound (state_of p0) p)). by rewrite rewound_self. Qed.

(** Beside the scanner and the arena nothing but the flags is read. *)
Record beside (p p' : Parser) : Prop := {
  bs_scanner : scanner p' = scanner p;
  bs_nodes : nodes p' = nodes p;
  bs_token : token p' = token p
}.

Lemma beside_fs p p' : beside p p' -> fs p' = fs p /\ nlen p' = nlen p.
Proof. intros [Hs Hn _]. unfold fs, nlen. by rewrite Hs, Hn. Qed.

Lemma spec_modify f pre post :
  (forall p, good p -> pre p -> good (f p)) -> (forall p, beside p (f p)) -> (forall p, post p (f p)) ->
  Spec (modify f) pre (fun p _ p' => beside p p' /\ post p p').
Proof.
  intros Hg Hb Hpost p Hp Hpre. change (pwp (modify f) ?Q p) with (Q tt (f p)). cbv beta.
  destruct (beside_fs _ _ (Hb p)). split_and!; [|done..]. split; [by apply Hg|lia|lia].
Qed.

Lemma spec_put_context_flags c :
  Spec (put_context_flags c) (fun _ => ts c) (fun p _ p' => beside p p' /\ context_flags p' = c).
Proof. apply (spec_modify _ _ (fun p p' => context_flags p' = c)); try done. intros p [] ?. by split. Qed.

Lemma spec_set_context_flags f v :
  Spec (set_context_flags f v) (fun _ => ts f) (fun p _ p' => beside p p' /\
    context_flags p' = if v then Z.lor (context_flags p) f else NodeFlags.without (context_flags p) f).
Proof.
  intros p Hp Hf. unfold set_context_flags. apply pwp_bind, pwp_gets. apply spec_put_context_flags; [done|].
  apply ts_set; [apply Hp|done].
Qed.

Lemma spec_put_has_await b :
  Spec (put_has_await b) (fun _ => True) (fun p _ p' => beside p p' /\ still p p').
Proof. apply (spec_modify _ _ still); try done. intros p [] ?. by split. Qed.

Lemma spec_add_source_flags f :
  Spec (add_source_flags f) (fun _ => True) (fun p _ p' => beside p p' /\ still p p').
Proof. apply (spec_modify _ _ still); try done. intros p [] ?. by split. Qed.

Lemma spec_with_parsing_contexts c :
  Spec (modify (with_parsing_contexts c)) (fun _ => True) (fun p _ p' => beside p p' /\ still p p').
Proof. apply (spec_modify _ _ still); try done. intros p [] ?. by split. Qed.

(** ** Reads of the text *)

Lemma asks_scanner_token_text : Asks scanner_token_text.
Proof.
  intros p Hp. unfold scanner_token_text, lift, token_text. destruct (gd_scanner p Hp) as [[] <- ? ? ? _ _ _].
  unfold slice. replace (_ && _ && _) with true; [by eexists|]. symmetry.
  rewrite !andb_true_iff. split_and!; [lia|done..].
Qed.

Lemma pwp_skip_trivia_at pos p (Q : nat -> Parser -> Prop) :
  good p -> Bd pos -> (forall q, Bd q -> pos <= q -> Q q p) -> pwp (skip_trivia_at pos) Q p.
Proof.
  intros Hp Hpos HQ. unfold skip_trivia_at. apply pwp_lift. rewrite (gd_text p Hp).
  destruct (skip_trivia_total src src_utf8 src_probe pos Hpos) as (q & -> & ? & ?). by apply HQ.
Qed.
End primitives.

(** ** Combinators *)

Section combinators.
Context {T : Source}.

Lemma spec_when b (m : P unit) pre post :
  Spec m pre post ->
  Spec (when b m) (fun p => b = true -> pre p) (fun p a p' => (b = true -> post p a p') /\ (b = false -> p' = p)).
Proof.
  intros Hm p Hp Hpre. destruct b.
  - eapply pwp_mono; [by apply Hm; auto|]. cbv beta. intros a p' (? & ? & ?). by split_and!.
  - apply pwp_ret. split_and!; [by apply step_refl|done..].
Qed.

Lemma spec_and_then b (m : P bool) pre post :
  Spec m pre post ->
  Spec (and_then b m) (fun p => b = true -> pre p)
    (fun p a p' => (b = true -> post p a p') /\ (b = false -> a = false /\ p' = p)).
Proof.
  intros Hm p Hp Hpre. destruct b.
  - eapply pwp_mono; [by apply Hm; auto|]. cbv beta. intros a p' (? & ? & ?). by split_and!.
  - apply pwp_ret. split_and!; [by apply step_refl|done..].
Qed.

Lemma spec_or_else b (m : P bool) pre post :
  Spec m pre post ->
  Spec (or_else b m) (fun p => b = false -> pre p)
    (fun p a p' => (b = true -> a = true /\ p' = p) /\ (b = false -> post p a p')).
Proof.
  intros Hm p Hp Hpre. destruct b.
  - apply pwp_ret. split_and!; [by apply step_refl|done..].
  - eapply pwp_mono; [by apply Hm; auto|]. cbv beta. intros a p' (? & ? & ?). by split_and!.
Qed.

Lemma spec_optionally b (m : P NodeId) pre post :
  Spec m pre post ->
  Spec (optionally b m) (fun p => b = true -> pre p)
    (fun p a p' => match a with Some x => b = true /\ post p x p' | None => b = false /\ p' = p end).
Proof.
  intros Hm p Hp Hpre. destruct b.
  - apply pwp_bind. eapply pwp_mono; [by apply Hm; auto|]. cbv beta. intros a p' (? & ? & ?). apply pwp_ret. by split_and!.
  - apply pwp_ret. split_and!; [by apply step_refl|done..].
Qed.

Lemma spec_optionally_list b (m : P NodeList) pre post :
  Spec m pre post ->
  Spec (optionally b m) (fun p => b = true -> pre p)
    (fun p a p' => match a with Some x => b = true /\ post p x p' | None => b = false /\ p' = p end).
Proof.
  intros Hm p Hp Hpre. destruct b.
  - apply pwp_bind. eapply pwp_mono; [by apply Hm; auto|]. cbv beta. intros a p' (? & ? & ?). apply pwp_ret. by split_and!.
  - apply pwp_ret. split_and!; [by apply step_refl|done..].
Qed.

Lemma pwp_unwrap {A} (o : option A) a (Q : A -> Parser -> Prop) p :
  o = Some a -> Q a p -> pwp (lift (fun _ => unwrap o)) Q p.
Proof. by intros ->. Qed.

Lemma spec_weaken {A} `{Valid A} (m : P A) pre post (pre' : Parser -> Prop) (post' : Parser -> A -> Parser -> Prop) :
  Spec m pre post -> (forall p, good p -> pre' p -> pre p) ->
  (forall p a p', good p -> step p p' -> valid (nlen p') a -> pre' p -> post p a p' -> post' p a p') -> Spec m pre' post'.
Proof.
  intros Hm Hpre Hpost p Hp Hpre'. eapply pwp_mono; [apply Hm; auto|]. cbv beta.
  intros a p' (? & ? & ?). split_and!; [done..|by eapply Hpost].
Qed.

Lemma pwp_conj {A} (m : P A) (Q R : A -> Parser -> Prop) p :
  pwp m Q p -> pwp m R p -> pwp m (fun a p' => Q a p' /\ R a p') p.
Proof. unfold pwp. destruct (m p) as [[? ?]| |]; auto. Qed.

Lemma scans_spec {A} `{Valid A} (m : P A) pre post : Looks m -> Spec m pre post -> Scans m pre post.
Proof.
  intros Hl Hs p Hp Hpre. eapply pwp_mono; [apply pwp_conj; [by apply Hl|by apply Hs]|]. cbv beta.
  intros a p' ((? & ? & ? & _) & _ & _ & ?). by split_and!.
Qed.

(** A loop that only scans. *)
Lemma looks_loop {L A} (body : L -> P (L + A)) init :
  (forall l, Scans (body l) (fun _ => True) (fun p r p' => match r with inl _ => fs p < fs p' | inr _ => True end)) ->
  Looks (loop body init).
Proof.
  intros Hbody p Hp _. unfold pwp, loop, loop_fuel.
  match goal with |- match iterate ?n ?f ?x with _ => _ end =>
    assert (H1 : returns (iterate n f x) (fun '(a, p') => good p' /\ scans p p' /\ fs p <= fs p')) end.
  - eapply (iterate_returns (fun '(l, p1) => good p1 /\ scans p p1 /\ fs p <= fs p1) (fun '(l, p1) => length src - fs p1)).
    + intros [l1 p1] (Hg & Hs & Hf). specialize (Hbody l1 p1 Hg I). unfold pwp in Hbody.
      destruct (body l1 p1) as [[[l2|a] p2]| |]; [| |done..]; destruct Hbody as (Hg2 & Hs2 & ? & Hr); simpl.
      * split_and!; [done|by eapply scans_trans|lia|]. apply fs_le in Hg2. lia.
      * split_and!; [done|by eapply scans_trans|lia].
    + split_and!; [done|apply scans_refl|lia].
    + unfold rounds. destruct Hp. rewrite gd_text0. unfold fs. lia.
  - unfold returns in H1. destruct (iterate _ _ _) as [[a p']| |]; [|done..]. destruct H1 as (? & ? & ?). by split_and!.
Qed.
End combinators.

#[export] Hint Resolve spec_scans_unit spec_scans_bool spec_scans_kind | 10 : specs.
#[export] Hint Resolve scans_next_token scans_next_token_without_check scans_advance_token scans_error_at_range
  scans_parse_error_at_range scans_parse_error_at scans_parse_error_at_current_token scans_re_scan_less_than_token
  scans_re_scan_greater_than_token scans_re_scan_slash_token scans_re_scan_template_token spec_finish_node_with_end
  spec_finish_node spec_put_context_flags spec_set_context_flags spec_put_has_await spec_add_source_flags
  spec_with_parsing_contexts asks_scanner_token_text : specs.
#[export] Hint Resolve spec_when spec_and_then spec_or_else spec_optionally spec_optionally_list | 5 : specs.

(** What stays true as the parser goes on. *)
Class Monotone `{Source} (J : Parser -> Prop) : Prop := monotone : forall p p', step p p' -> J p -> J p'.

#[export] Instance monotone_true `{Source} : Monotone (fun _ => True).
Proof. done. Qed.
#[export] Instance monotone_ready `{Source} n : Monotone (ready n).
Proof. intros p p' [] ?. unfold ready in *. lia. Qed.
#[export] Instance monotone_deep `{Source} n : Monotone (deep n).
Proof. intros p p' [] ?. unfold deep in *. lia. Qed.
(** ** Automation *)

Lemma kind_neqb a b : Kind.eqb a b = false -> a <> b.
Proof. intros H ->. by rewrite (proj2 (Kind.eqb_eq b b) eq_refl) in H. Qed.

Lemma kind_eqb_refl a : Kind.eqb a a = true.
Proof. by apply Kind.eqb_eq. Qed.

Lemma eqb_true_imp a b (X : Prop) : (Kind.eqb a b = true -> X) -> a = b -> X.
Proof. intros H ->. apply H, kind_eqb_refl. Qed.

Lemma eqb_false_imp a b (X : Prop) : (Kind.eqb a b = false -> X) -> a <> b -> X.
Proof. intros H Hab. apply H. destruct (Kind.eqb a b) eqn:E; [|done]. by apply Kind.eqb_eq in E. Qed.

(** Boolean hypotheses on kinds as equations. *)
Ltac kbools :=
  bools;
  repeat match goal with
  | H : Kind.eqb _ _ = true |- _ => apply Kind.eqb_eq in H
  | H : Kind.eqb _ _ = false |- _ => apply kind_neqb in H
  | H : bool_decide _ = true |- _ => apply bool_decide_eq_true in H
  | H : bool_decide _ = false |- _ => apply bool_decide_eq_false in H
  end.

(** A token of which something is known is not the end of the text. *)
Ltac neof :=
  let H := fresh "Heof" in
  intro H;
  first
  [ congruence
  | match type of H with
    | ?k = _ => match goal with E : context [k] |- _ => lazymatch E with H => fail | _ => rewrite H in E; discriminate E end end
    end ].

(** A constant of [Kind]. *)
Ltac is_kind k := lazymatch type of k with Kind => idtac | Kind.t => idtac end; is_constructor k.

(** What a specification gives, as facts. *)
Ltac norm_step :=
  match goal with
  | H : step _ _ |- _ => destruct H as [? ? ?]
  | H : still _ _ |- _ => pose proof (still_fs _ _ H); destruct H as [? ? ?]
  | H : beside _ _ |- _ => destruct (beside_fs _ _ H); destruct H as [? ? ?]
  | H : finished _ _ _ _ |- _ =>
      let Hk := fresh "Hkind" in
      destruct H as (H & ? & ? & Hk);
      match type of Hk with kindof ?p ?i = Some ?k => let k' := eval cbn in k in change (kindof p i = Some k') in Hk end
  | H : _ /\ _ |- _ => destruct H as [? ?]
  | H : valid _ _ |- _ =>
      cbv [valid valid_id valid_opt valid_list valid_optl valid_ids valid_optids valid_node valid_pair valid_sum valid_unit valid_bool
           valid_int valid_str valid_kind valid_optkind valid_optnode] in H
  | H : opt_ok ?N (Some ?i) |- _ => change (i < N) in H
  | H : opt_ok _ None |- _ => clear H
  | H : optl_ok ?N (Some ?l) |- _ => change (list_ok N l) in H
  | H : optl_ok _ None |- _ => clear H
  | H : True |- _ => clear H
  | H : ?x = ?x |- _ => clear H
  | H : ?x = ?y |- _ => lazymatch type of x with Parser => (is_var x; subst x) || (is_var y; subst y) end
  | H : ?x = ?x -> _ |- _ => specialize (H eq_refl)
  | H : true = false |- _ => discriminate H
  | H : false = true |- _ => discriminate H
  | H : true = false -> _ |- _ => clear H
  | H : false = true -> _ |- _ => clear H
  | H : Kind.eqb _ _ = true -> _ |- _ => pose proof (eqb_true_imp _ _ _ H); clear H
  | H : Kind.eqb _ _ = false -> _ |- _ => pose proof (eqb_false_imp _ _ _ H); clear H
  | H : ?k = Kind.EndOfFile -> _ |- _ => clear H
  | H : ?a = ?b -> _, E : ?a = ?b |- _ => specialize (H E)
  | H : ?a = ?b -> _, E : ?a = ?c |- _ => is_kind b; is_kind c; clear H
  | H : ?a <> ?b -> _, E : ?a <> ?b |- _ => specialize (H E)
  | H : ?a <> ?b -> _, E : ?a = ?c |- _ => is_kind b; is_kind c; specialize (H ltac:(rewrite E; discriminate))
  | H : ?k <> Kind.EndOfFile -> _ |- _ => specialize (H ltac:(neof))
  end.
Ltac norm := repeat norm_step.

(** The conditions that facts depend on. *)
Ltac cases :=
  repeat match goal with H : ?b = true -> _ |- _ => let E := fresh "E" in destruct b eqn:E; kbools; norm end.

(** Nodes and lists built of what is in the arena. *)
Ltac bd :=
  first
  [ eassumption | apply good_fs; eassumption
  | match goal with
    | H : node_ok _ ?n |- Bd (npos ?n) => exact (no_pos _ _ H)
    | H : node_ok _ ?n |- Bd (nend ?n) => exact (no_end _ _ H)
    | H : list_ok _ ?l |- Bd (lpos ?l) => exact (lk_pos _ _ H)
    | H : list_ok _ ?l |- Bd (lend ?l) => exact (lk_end _ _ H)
    end ].

Ltac fts :=
  first
  [ eassumption | reflexivity
  | match goal with H : good ?p |- ts (context_flags ?p) => exact (gd_flags _ H) end
  | apply ts_lor; fts | apply ts_without; fts | apply ts_set; fts
  | match goal with |- ts (if ?b then _ else _) => destruct b; fts end ].

Ltac in_arena :=
  lazymatch goal with
  | |- opt_ok _ (Some _) => simpl; lia
  | |- opt_ok _ None => exact I
  | |- opt_ok _ ?o =>
      match goal with
      | H : opt_ok _ o |- _ => apply (opt_ok_mono _ _ _ H); lia
      | H : node_ok _ ?n |- _ =>
          match o with
          | nname n => apply (opt_ok_mono _ _ _ (bt_name _ _ (no_built _ _ H))); lia
          | nexpression n => apply (opt_ok_mono _ _ _ (bt_expression _ _ (no_built _ _ H))); lia
          end
      end
  | |- optl_ok ?N (Some ?l) => change (list_ok N l); in_arena
  | |- optl_ok _ None => exact I
  | |- optl_ok _ ?o =>
      match goal with
      | H : optl_ok _ o |- _ => apply (optl_ok_mono _ _ _ H); lia
      | H : node_ok _ ?n |- _ =>
          match o with ntype_arguments n => apply (optl_ok_mono _ _ _ (bt_targs _ _ (no_built _ _ H))); lia end
      end
  | |- list_ok _ (NodeList_new _ _ _) => apply list_ok_new; [in_arena|bd|bd]
  | |- list_ok _ ?l =>
      match goal with H : list_ok _ l |- _ => apply (list_ok_mono _ _ _ H); lia end
  | |- Forall _ [] => constructor
  | |- Forall _ [_] => repeat constructor; lia
  | |- Forall _ (_ ++ [_]) => apply ids_snoc; [in_arena|lia]
  | |- Forall _ ?l => match goal with H : Forall _ l |- _ => apply (ids_mono _ _ _ H); lia end
  | |- built _ (Node.new _) => apply built_new
  | |- built _ (Node.text _ _) => apply built_text; in_arena
  | |- built _ (Node.op _ _) => apply built_op; in_arena
  | |- built _ (Node.token_flags _ _) => apply built_token_flags; in_arena
  | |- built _ (Node.type_only _ _) => apply built_type_only; in_arena
  | |- built _ (Node.export_equals _ _) => apply built_export_equals; in_arena
  | |- built _ (Node.flags _ _) => apply built_flags; [in_arena|fts]
  | |- built _ (Node.name _ _) => apply built_name; in_arena
  | |- built _ (Node.ty _ _) => apply built_ty; in_arena
  | |- built _ (Node.body _ _) => apply built_body; in_arena
  | |- built _ (Node.expression _ _) => apply built_expression; in_arena
  | |- built _ (Node.initializer _ _) => apply built_initializer; in_arena
  | |- built _ (Node.question _ _) => apply built_question; in_arena
  | |- built _ (Node.import_clause _ _) => apply built_import; in_arena
  | |- built _ (Node.modifiers _ _) => apply built_modifiers; in_arena
  | |- built _ (Node.type_parameters _ _) => apply built_type_parameters; in_arena
  | |- built _ (Node.type_arguments _ _) => apply built_type_arguments; in_arena
  | |- built _ (Node.parameters _ _) => apply built_parameters; in_arena
  | |- built _ (Node.child _ _) => apply built_child; in_arena
  | |- built _ (Node.list _ _) => apply built_list; in_arena
  | |- built _ ?n => match goal with H : built _ n |- _ => apply (built_mono _ _ _ H); lia end
  end.

(** What is known of a token makes it one. *)
Ltac tokens :=
  first
  [ reflexivity | eassumption
  | match goal with E : ?b = true |- context [token ?p] =>
      lazymatch b with context [token p] => revert E; clear; destruct (token p); (discriminate || reflexivity) end end ].

(** Tokens that are known. *)
Ltac toks := repeat match goal with H : token ?p = _ |- context [token ?p] => rewrite H end.

Ltac shape := first [eassumption | exact I | by eexists | apply shaped_plain; cbn; toks; tokens | apply shaped_new; toks; tokens].

(** Side conditions. *)
Ltac side1 :=
  cbv beta iota;
  lazymatch goal with
  | |- True => exact I
  | |- _ /\ _ => split; side1
  | |- good _ => eassumption
  | |- step _ _ => apply step_intro; [eassumption|lia|lia]
  | |- valid _ _ =>
      cbv [valid valid_id valid_opt valid_list valid_optl valid_ids valid_optids valid_node valid_pair valid_sum valid_unit valid_bool
           valid_int valid_str valid_kind valid_optkind valid_optnode]; side1
  | |- ready _ _ => unfold ready, deep in *; lia
  | |- deep _ _ => unfold ready, deep in *; lia
  | |- Bd _ => bd
  | |- ts _ => fts
  | |- shaped _ => shape
  | |- is_Some _ => first
      [ eexists; reflexivity | solve [auto]
      | exfalso; match goal with H : ?P -> is_Some None, H' : ?P |- _ => by destruct (H H') end ]
  | |- utf8 _ => first [eassumption | apply utf8_nil]
  | |- built _ _ => in_arena
  | |- opt_ok _ _ => in_arena
  | |- optl_ok _ _ => in_arena
  | |- list_ok _ _ => in_arena
  | |- Forall _ _ => in_arena
  | |- kindof _ _ = _ => first [eassumption | congruence | unfold kindof in *; congruence]
  | |- ?b = true => first [eassumption | toks; tokens | congruence]
  | |- (_ < _)%nat => first [lia|exfalso; congruence]
  | |- still _ _ => first [eassumption | split; congruence]
  | |- beside _ _ => first [eassumption | split; congruence]
  | |- scans _ _ => first [eassumption | apply scans_refl | eapply scans_trans; eassumption]
  | |- exists _, scan _ = _ => first [eassumption | match goal with H : scan _ = Ok (_, ?s) |- _ => exists s; congruence end]
  | |- _ <> Kind.EndOfFile => neof
  | |- _ -> _ => let H := fresh in intros H; norm; kbools; side1
  | |- _ => first [eassumption | reflexivity | lia | congruence | match goal with H : ?J ?p1 |- ?J ?p2 => apply (monotone p1 p2); [side1|exact H] end]
  end.

(** Questions that are read off the state, by name; more are added later. *)
Ltac read_hook := fail.

(** One step of a method. *)
Ltac by_spec :=
  first
  [ eapply pwp_ask; [solve [typeclasses eauto with specs nocore]|eassumption|intros ? ?]
  | eapply pwp_use; [solve [typeclasses eauto with specs nocore]|eassumption|try (solve [side1])|intros ? ? ? ? ?; cbv beta in *; norm] ].

Ltac pstep :=
  lazymatch goal with
  | |- pwp ((match _ with _ => _ end) ≫= _) _ _ => pjoin
  | |- pwp (_ ≫= _) _ _ => apply pwp_bind
  | |- pwp (ret _) _ _ => apply pwp_ret
  | |- pwp panic _ _ => exfalso; congruence
  | |- pwp node_pos ?Q ?p => change (Q (fs p) p); cbv beta
  | |- pwp get_token ?Q ?p => change (Q (token p) p); cbv beta
  | |- pwp (at_token ?k) ?Q ?p => change (Q (Kind.eqb (token p) k) p); cbv beta
  | |- pwp get_context_flags ?Q ?p => change (Q (context_flags p) p); cbv beta
  | |- pwp get_has_await ?Q ?p => change (Q (statement_has_await_identifier p) p); cbv beta
  | |- pwp has_preceding_line_break ?Q ?p => change (Q (ScanState.has_preceding_line_break (scanner p)) p); cbv beta
  | |- pwp mark ?Q ?p => change (Q (state_of p) p); cbv beta
  | |- pwp (gets _) _ _ => apply pwp_gets; cbv beta
  | |- pwp (node _) _ _ => apply pwp_node; [eassumption|try (solve [side1])|intros ? ? ?]
  | |- pwp (kind_of _) _ _ => apply pwp_kind_of; [eassumption|try (solve [side1])|intros ? ?]
  | |- pwp (rewind (state_of _)) _ _ =>
      first [ apply pwp_rewind_self; [eassumption|first [eassumption|apply scans_refl]|]
            | apply pwp_rewind; [eassumption|eassumption|intros ? ? ? ? ? ?; norm] ]
  | |- pwp (skip_trivia_at _) _ _ => apply pwp_skip_trivia_at; [eassumption|try (solve [side1])|intros ? ? ?]
  | |- pwp (do_in_context _ _ _) _ _ => unfold do_in_context
  | |- pwp (keeping_await _) _ _ => unfold keeping_await
  | |- pwp (if ?b then _ else _) _ _ => let E := fresh "E" in destruct b eqn:E; kbools; norm
  | |- pwp (match ?x with _ => _ end) _ _ => destruct x eqn:?; norm
  | |- pwp _ _ _ => first [progress read_hook; cbv beta | by_spec]
  end
(** The branches of a condition, then what follows once for all of them. Where
    all branches only report, or only ask, that is remembered. *)
with pjoin :=
  apply pwp_bind;
  first
  [ lazymatch goal with
    | |- @pwp unit _ _ _ => eapply (pwp_join (fun p _ p' => still p p' /\ nlen p' = nlen p)); [solve [pgo; side1]|]
    | |- @pwp bool _ _ _ => eapply (pwp_join (fun p _ p' => p' = p)); [solve [pgo; side1]|]
    end
  | eapply (pwp_join (fun _ _ _ => True)) ];
  [..|intros ? ? ? ? ?; cbv beta in *; norm]
with pgo := repeat pstep.

(** A loop with the invariant [I] beside validity. *)
Ltac ploop I :=
  apply (pwp_loop I (fun _ _ => True));
  [eassumption|try solve [side1]|try solve [side1]|intros ? ? ? ? ?; norm|intros ? ? ? ? ?; norm].
