(* ===== verification/AskTotal.v ===== *)
(** * The parser's questions are total

    The predicates of [ParserPredicates] answer from every good state; those that
    look ahead leave the parser exactly as it was. *)

From stdpp Require Import gmap sets.
From S2P Require Import Prelude Utf8 RustStr Chars Kind Diagnostics ScanText ScanState Scan Rescan ScanLogic ScanSafe ScanTotal ScanAgain ParserMessages Ast ParserState ParserPredicates ParserLogic.

Local Open Scope nat_scope.

(** ** Compositions of questions *)

Ltac head_of m := lazymatch m with ?f _ => head_of f | _ => m end.

(** A method that only scans, from its parts. *)
Ltac looks :=
  lazymatch goal with
  | |- Looks (_ ≫= _) => apply looks_bind; [looks|intros ?; looks]
  | |- Looks (match ?b with _ => _ end) => destruct b; looks
  | |- Asks (_ ≫= _) => apply asks_bind; [looks|intros ?; looks]
  | |- Asks (match ?b with _ => _ end) => destruct b; looks
  | |- Asks (and_then _ _) => apply asks_and_then; looks
  | |- Asks (or_else _ _) => apply asks_or_else; looks
  | |- Asks (look_ahead _) => apply asks_look_ahead; looks
  | |- Looks (and_then _ _) => apply looks_and_then; looks
  | |- Looks (or_else _ _) => apply looks_or_else; looks
  | |- Looks (when _ _) => apply looks_when; looks
  | |- _ => cbv zeta; solve [typeclasses eauto with specs nocore]
  end.
Ltac asking :=
  lazymatch goal with
  | |- Looks ?m => let h := head_of m in unfold h; looks
  | |- Asks ?m => let h := head_of m in unfold h; looks
  end.

Section ask.
Context {T : Source} {U : UnicodeId} {laws : UnicodeIdLaws U}.

Lemma looks_next_token : Looks next_token.
Proof. eapply looks_of, scans_next_token. Qed.
Lemma looks_advance_token : Looks advance_token.
Proof. eapply looks_of, scans_advance_token. Qed.
Lemma looks_parse_error_at a b m args : Looks (parse_error_at a b m args).
Proof. eapply looks_of, scans_parse_error_at. Qed.
Lemma looks_parse_error_at_current_token m args : Looks (parse_error_at_current_token m args).
Proof. eapply looks_of, scans_parse_error_at_current_token. Qed.
Lemma asks_get_token : Asks get_token.
Proof. asking. Qed.
Lemma asks_at_token k : Asks (at_token k).
Proof. asking. Qed.
Lemma asks_node_pos : Asks node_pos.
Proof. asking. Qed.
Lemma asks_has_preceding_line_break : Asks has_preceding_line_break.
Proof. asking. Qed.
Lemma asks_in_context f : Asks (in_context f).
Proof. asking. Qed.
End ask.
#[export] Hint Resolve looks_next_token looks_advance_token looks_parse_error_at looks_parse_error_at_current_token | 20 : specs.
#[export] Hint Resolve asks_get_token asks_at_token asks_node_pos
  asks_has_preceding_line_break asks_in_context : specs.

Section ask.
Context {T : Source} {U : UnicodeId} {laws : UnicodeIdLaws U}.

Lemma looks_next_token_is ks : Looks (next_token_is ks).
Proof. asking. Qed.
Hint Resolve looks_next_token_is | 20 : specs.
Lemma asks_is_identifier : Asks is_identifier.
Proof. asking. Qed.
Hint Resolve asks_is_identifier : specs.
Lemma asks_is_binding_identifier : Asks is_binding_identifier.
Proof. asking. Qed.
Hint Resolve asks_is_binding_identifier : specs.
Lemma asks_identifier_or_keyword : Asks identifier_or_keyword.
Proof. asking. Qed.
Hint Resolve asks_identifier_or_keyword : specs.
Lemma asks_is_literal_property_name : Asks is_literal_property_name.
Proof. asking. Qed.
Hint Resolve asks_is_literal_property_name : specs.
Lemma asks_is_import_attribute_name : Asks is_import_attribute_name.
Proof. asking. Qed.
Hint Resolve asks_is_import_attribute_name : specs.
Lemma asks_is_binding_identifier_or_private_identifier_or_pattern : Asks is_binding_identifier_or_private_identifier_or_pattern.
Proof. asking. Qed.
Hint Resolve asks_is_binding_identifier_or_private_identifier_or_pattern : specs.
Lemma asks_is_binary_operator : Asks is_binary_operator.
Proof. asking. Qed.
Hint Resolve asks_is_binary_operator : specs.
Lemma asks_is_heritage_clause : Asks is_heritage_clause.
Proof. asking. Qed.
Hint Resolve asks_is_heritage_clause : specs.
Lemma asks_same_line b : Asks (same_line b).
Proof. asking. Qed.
Hint Resolve asks_same_line : specs.
Lemma looks_next_token_is_identifier : Looks next_token_is_identifier.
Proof. asking. Qed.
Hint Resolve looks_next_token_is_identifier | 20 : specs.
Lemma looks_next_token_is_identifier_on_same_line : Looks next_token_is_identifier_on_same_line.
Proof. asking. Qed.
Hint Resolve looks_next_token_is_identifier_on_same_line | 20 : specs.
Lemma looks_next_token_is_identifier_or_string_literal_on_same_line : Looks next_token_is_identifier_or_string_literal_on_same_line.
Proof. asking. Qed.
Hint Resolve looks_next_token_is_identifier_or_string_literal_on_same_line | 20 : specs.
Lemma looks_next_token_is_identifier_or_keyword : Looks next_token_is_identifier_or_keyword.
Proof. asking. Qed.
Hint Resolve looks_next_token_is_identifier_or_keyword | 20 : specs.
Lemma looks_next_token_is_identifier_or_keyword_or_greater_than : Looks next_token_is_identifier_or_keyword_or_greater_than.
Proof. asking. Qed.
Hint Resolve looks_next_token_is_identifier_or_keyword_or_greater_than | 20 : specs.
Lemma looks_next_token_is_identifier_or_keyword_on_same_line : Looks next_token_is_identifier_or_keyword_on_same_line.
Proof. asking. Qed.
Hint Resolve looks_next_token_is_identifier_or_keyword_on_same_line | 20 : specs.
Lemma looks_next_token_is_identifier_or_keyword_or_literal_on_same_line : Looks next_token_is_identifier_or_keyword_or_literal_on_same_line.
Proof. asking. Qed.
Hint Resolve looks_next_token_is_identifier_or_keyword_or_literal_on_same_line | 20 : specs.
Lemma looks_next_token_is_slash : Looks next_token_is_slash.
Proof. asking. Qed.
Hint Resolve looks_next_token_is_slash | 20 : specs.
Lemma looks_next_token_is_dot : Looks next_token_is_dot.
Proof. asking. Qed.
Hint Resolve looks_next_token_is_dot | 20 : specs.
Lemma looks_next_token_is_open_brace : Looks next_token_is_open_brace.
Proof. asking. Qed.
Hint Resolve looks_next_token_is_open_brace | 20 : specs.
Lemma looks_next_token_is_open_paren : Looks next_token_is_open_paren.
Proof. asking. Qed.
Hint Resolve looks_next_token_is_open_paren | 20 : specs.
Lemma looks_next_token_is_new_keyword : Looks next_token_is_new_keyword.
Proof. asking. Qed.
Hint Resolve looks_next_token_is_new_keyword | 20 : specs.
Lemma looks_next_is_start_of_type_of_import_type : Looks next_is_start_of_type_of_import_type.
Proof. asking. Qed.
Hint Resolve looks_next_is_start_of_type_of_import_type | 20 : specs.
Lemma looks_next_token_is_token_string_literal : Looks next_token_is_token_string_literal.
Proof. asking. Qed.
Hint Resolve looks_next_token_is_token_string_literal | 20 : specs.
Lemma looks_next_token_is_open_paren_or_less_than : Looks next_token_is_open_paren_or_less_than.
Proof. asking. Qed.
Hint Resolve looks_next_token_is_open_paren_or_less_than | 20 : specs.
Lemma looks_next_token_is_open_paren_or_less_than_or_dot : Looks next_token_is_open_paren_or_less_than_or_dot.
Proof. asking. Qed.
Hint Resolve looks_next_token_is_open_paren_or_less_than_or_dot | 20 : specs.
Lemma looks_next_token_is_from_keyword_or_equals_token : Looks next_token_is_from_keyword_or_equals_token.
Proof. asking. Qed.
Hint Resolve looks_next_token_is_from_keyword_or_equals_token | 20 : specs.
Lemma looks_next_token_is_equals_or_semicolon_or_colon_token : Looks next_token_is_equals_or_semicolon_or_colon_token.
Proof. asking. Qed.
Hint Resolve looks_next_token_is_equals_or_semicolon_or_colon_token | 20 : specs.
Lemma looks_next_token_is_numeric_or_big_int_literal : Looks next_token_is_numeric_or_big_int_literal.
Proof. asking. Qed.
Hint Resolve looks_next_token_is_numeric_or_big_int_literal | 20 : specs.
Lemma looks_next_is_not_dot : Looks next_is_not_dot.
Proof. asking. Qed.
Hint Resolve looks_next_is_not_dot | 20 : specs.
Lemma looks_next_token_is_class_keyword_on_same_line : Looks next_token_is_class_keyword_on_same_line.
Proof. asking. Qed.
Hint Resolve looks_next_token_is_class_keyword_on_same_line | 20 : specs.
Lemma looks_next_token_is_function_keyword_on_same_line : Looks next_token_is_function_keyword_on_same_line.
Proof. asking. Qed.
Hint Resolve looks_next_token_is_function_keyword_on_same_line | 20 : specs.
Lemma asks_is_next_token_open_paren_or_less_than_or_dot : Asks is_next_token_open_paren_or_less_than_or_dot.
Proof. asking. Qed.
Hint Resolve asks_is_next_token_open_paren_or_less_than_or_dot : specs.
Lemma looks_next_is_identifier_and_close_paren : Looks next_is_identifier_and_close_paren.
Proof. asking. Qed.
Hint Resolve looks_next_is_identifier_and_close_paren | 20 : specs.
Lemma asks_is_implements_clause : Asks is_implements_clause.
Proof. asking. Qed.
Hint Resolve asks_is_implements_clause : specs.
Lemma looks_next_token_is_binding_identifier_or_start_of_destructuring_on_same_line b : Looks (next_token_is_binding_identifier_or_start_of_destructuring_on_same_line b).
Proof. asking. Qed.
Hint Resolve looks_next_token_is_binding_identifier_or_start_of_destructuring_on_same_line | 20 : specs.
Lemma looks_next_token_is_binding_identifier_or_start_of_destructuring_on_same_line_disallow_of : Looks next_token_is_binding_identifier_or_start_of_destructuring_on_same_line_disallow_of.
Proof. asking. Qed.
Hint Resolve looks_next_token_is_binding_identifier_or_start_of_destructuring_on_same_line_disallow_of | 20 : specs.
Lemma asks_is_using_declaration : Asks is_using_declaration.
Proof. asking. Qed.
Hint Resolve asks_is_using_declaration : specs.
Lemma looks_next_is_using_keyword_then_binding_identifier_or_start_of_object_destructuring_on_same_line : Looks next_is_using_keyword_then_binding_identifier_or_start_of_object_destructuring_on_same_line.
Proof. asking. Qed.
Hint Resolve looks_next_is_using_keyword_then_binding_identifier_or_start_of_object_destructuring_on_same_line | 20 : specs.
Lemma asks_is_await_using_declaration : Asks is_await_using_declaration.
Proof. asking. Qed.
Hint Resolve asks_is_await_using_declaration : specs.
Lemma looks_next_token_is_binding_identifier_or_start_of_destructuring : Looks next_token_is_binding_identifier_or_start_of_destructuring.
Proof. asking. Qed.
Hint Resolve looks_next_token_is_binding_identifier_or_start_of_destructuring | 20 : specs.
Lemma asks_is_let_declaration : Asks is_let_declaration.
Proof. asking. Qed.
Hint Resolve asks_is_let_declaration : specs.

(** ** Declarations *)

Lemma looks_scan_start_of_declaration_step : Looks scan_start_of_declaration_step.
Proof. asking. Qed.

(** A round that goes on has taken a token. *)
Lemma spec_scan_start_of_declaration_step :
  Spec scan_start_of_declaration_step (fun _ => True)
    (fun p r p' => match r with inl _ => fs p < fs p' | inr _ => True end).
Proof.
  intros p Hp _. unfold scan_start_of_declaration_step. apply pwp_bind. pstep. destruct (token p) eqn:E.
  all: pgo; try solve [side1].
Qed.

Lemma looks_scan_start_of_declaration : Looks scan_start_of_declaration.
Proof. apply looks_loop. intros _. apply scans_spec, spec_scan_start_of_declaration_step. apply looks_scan_start_of_declaration_step. Qed.
Lemma asks_is_start_of_declaration : Asks is_start_of_declaration.
Proof. apply asks_look_ahead, looks_scan_start_of_declaration. Qed.
Hint Resolve asks_is_start_of_declaration : specs.

(** ** Expressions, statements and modifiers *)

Lemma asks_is_start_of_left_hand_side_expression : Asks is_start_of_left_hand_side_expression.
Proof. asking. Qed.
Hint Resolve asks_is_start_of_left_hand_side_expression : specs.
Lemma asks_is_start_of_expression : Asks is_start_of_expression.
Proof. asking. Qed.
Hint Resolve asks_is_start_of_expression : specs.
Lemma looks_next_is_start_of_expression : Looks next_is_start_of_expression.
Proof. asking. Qed.
Hint Resolve looks_next_is_start_of_expression | 20 : specs.
Lemma asks_is_heritage_clause_extends_or_implements_keyword : Asks is_heritage_clause_extends_or_implements_keyword.
Proof. asking. Qed.
Hint Resolve asks_is_heritage_clause_extends_or_implements_keyword : specs.
Lemma asks_is_start_of_expression_statement : Asks is_start_of_expression_statement.
Proof. asking. Qed.
Hint Resolve asks_is_start_of_expression_statement : specs.
Lemma asks_is_template_start_of_tagged_template : Asks is_template_start_of_tagged_template.
Proof. asking. Qed.
Hint Resolve asks_is_template_start_of_tagged_template : specs.
Lemma looks_next_token_is_identifier_or_keyword_or_open_bracket_or_template : Looks next_token_is_identifier_or_keyword_or_open_bracket_or_template.
Proof. asking. Qed.
Hint Resolve looks_next_token_is_identifier_or_keyword_or_open_bracket_or_template | 20 : specs.
Lemma asks_is_start_of_optional_property_or_element_access_chain : Asks is_start_of_optional_property_or_element_access_chain.
Proof. asking. Qed.
Hint Resolve asks_is_start_of_optional_property_or_element_access_chain : specs.
Lemma asks_can_follow_type_arguments_in_expression : Asks can_follow_type_arguments_in_expression.
Proof. asking. Qed.
Hint Resolve asks_can_follow_type_arguments_in_expression : specs.
Lemma asks_in_yield_context : Asks in_yield_context.
Proof. asking. Qed.
Hint Resolve asks_in_yield_context : specs.
Lemma asks_in_disallow_in_context : Asks in_disallow_in_context.
Proof. asking. Qed.
Hint Resolve asks_in_disallow_in_context : specs.
Lemma asks_in_disallow_conditional_types_context : Asks in_disallow_conditional_types_context.
Proof. asking. Qed.
Hint Resolve asks_in_disallow_conditional_types_context : specs.
Lemma asks_in_decorator_context : Asks in_decorator_context.
Proof. asking. Qed.
Hint Resolve asks_in_decorator_context : specs.
Lemma asks_in_await_context : Asks in_await_context.
Proof. asking. Qed.
Hint Resolve asks_in_await_context : specs.
Lemma asks_is_yield_expression : Asks is_yield_expression.
Proof. asking. Qed.
Hint Resolve asks_is_yield_expression : specs.
Lemma asks_is_await_expression : Asks is_await_expression.
Proof. asking. Qed.
Hint Resolve asks_is_await_expression : specs.
Lemma asks_is_update_expression : Asks is_update_expression.
Proof. asking. Qed.
Hint Resolve asks_is_update_expression : specs.
Lemma asks_is_start_of_statement : Asks is_start_of_statement.
Proof. asking. Qed.
Hint Resolve asks_is_start_of_statement : specs.
Lemma asks_can_parse_semicolon : Asks can_parse_semicolon.
Proof. asking. Qed.
Hint Resolve asks_can_parse_semicolon : specs.
Lemma looks_next_is_start_of_mapped_type : Looks next_is_start_of_mapped_type.
Proof. asking. Qed.
Hint Resolve looks_next_is_start_of_mapped_type | 20 : specs.
Lemma looks_next_token_is_colon_or_question_colon : Looks next_token_is_colon_or_question_colon.
Proof. asking. Qed.
Hint Resolve looks_next_token_is_colon_or_question_colon | 20 : specs.
Lemma looks_scan_start_of_named_tuple_element : Looks scan_start_of_named_tuple_element.
Proof. asking. Qed.
Hint Resolve looks_scan_start_of_named_tuple_element | 20 : specs.
Lemma looks_index_signature_follows : Looks index_signature_follows.
Proof. asking. Qed.
Hint Resolve looks_index_signature_follows | 20 : specs.
Lemma looks_next_is_unambiguously_index_signature : Looks next_is_unambiguously_index_signature.
Proof. asking. Qed.
Hint Resolve looks_next_is_unambiguously_index_signature | 20 : specs.
Lemma asks_is_index_signature : Asks is_index_signature.
Proof. asking. Qed.
Hint Resolve asks_is_index_signature : specs.
Lemma asks_can_follow_modifier : Asks can_follow_modifier.
Proof. asking. Qed.
Hint Resolve asks_can_follow_modifier : specs.
Lemma asks_can_follow_export_modifier : Asks can_follow_export_modifier.
Proof. asking. Qed.
Hint Resolve asks_can_follow_export_modifier : specs.
Lemma asks_can_follow_get_or_set_keyword : Asks can_follow_get_or_set_keyword.
Proof. asking. Qed.
Hint Resolve asks_can_follow_get_or_set_keyword : specs.
Lemma looks_next_token_is_on_same_line_and_can_follow_modifier : Looks next_token_is_on_same_line_and_can_follow_modifier.
Proof. asking. Qed.
Hint Resolve looks_next_token_is_on_same_line_and_can_follow_modifier | 20 : specs.
Lemma looks_next_token_can_follow_default_keyword : Looks next_token_can_follow_default_keyword.
Proof. asking. Qed.
Hint Resolve looks_next_token_can_follow_default_keyword | 20 : specs.
Lemma looks_next_token_can_follow_export_modifier : Looks next_token_can_follow_export_modifier.
Proof. asking. Qed.
Hint Resolve looks_next_token_can_follow_export_modifier | 20 : specs.
Lemma looks_next_token_can_follow_modifier : Looks next_token_can_follow_modifier.
Proof. asking. Qed.
Hint Resolve looks_next_token_can_follow_modifier | 20 : specs.

(** ** Types *)

(** A look ahead from this state. *)
Lemma look_ahead_at {A} (m : P A) p :
  good p -> pwp m (fun _ p' => good p' /\ scans p p' /\ fs p <= fs p') p -> pwp (look_ahead m) (fun _ p' => p' = p) p.
Proof.
  intros Hp (a & p' & E & Hp' & Hs & _)%pwp_ok. unfold pwp.
  unfold look_ahead, mark, gets, rewind, modify, mbind, P_bind. rewrite E.
  change (rewound (state_of p) p' = p). by rewrite rewound_self.
Qed.

Lemma asks_at {A} (m : P A) p : Asks m -> good p -> pwp m (fun _ p' => p' = p) p.
Proof. intros Hm Hp. by apply pwp_ask. Qed.

Section paren.
Context (paren : P bool) (p : Parser) (Hp : good p).
Context (Hparen : token p = Kind.OpenParenToken -> pwp paren (fun _ p' => good p' /\ scans p p' /\ fs p <= fs p') p).

Lemma is_start_of_type_with_at b : pwp (is_start_of_type_with paren b) (fun _ p' => p' = p) p.
Proof.
  unfold is_start_of_type_with. apply pwp_bind. pstep. case_match; [done|]. case_match; [done|].
  case_match; [destruct b; [done|]; apply asks_at; [looks|done]|].
  case_match; [|apply asks_at; [apply asks_is_identifier|done]]. kbools. destruct b; [done|]. apply look_ahead_at; auto.
Qed.

Lemma is_start_of_parameter_with_at b : pwp (is_start_of_parameter_with paren b) (fun _ p' => p' = p) p.
Proof.
  unfold is_start_of_parameter_with. apply pwp_bind. pstep. apply pwp_bind. by_spec.
  unfold or_else. case_match; [done|]. apply is_start_of_type_with_at.
Qed.
End paren.

Lemma next_is_paren_at fuel p :
  good p -> token p = Kind.OpenParenToken -> length src < fs p + fuel ->
  pwp (next_is_parenthesized_or_function_type fuel) (fun _ p' => good p' /\ scans p p' /\ fs p <= fs p') p.
Proof.
  revert p. induction fuel as [|fuel IH]; intros p Hp Ht Hf; [apply fs_le in Hp; lia|].
  cbn [next_is_parenthesized_or_function_type]. apply pwp_bind. by_spec.
  unfold or_else. case_match; [apply pwp_ret; by split_and!|]. apply pwp_bind.
  assert (Hparen : token p' = Kind.OpenParenToken ->
    pwp (next_is_parenthesized_or_function_type fuel) (fun _ p2 => good p2 /\ scans p' p2 /\ fs p' <= fs p2) p')
    by (intros ?; apply IH; [done..|lia]).
  eapply pwp_mono; [exact (is_start_of_parameter_with_at _ _ st_good Hparen false)|]. intros ? ? ->.
  case_match; [apply pwp_ret; by split_and!|].
  eapply pwp_mono; [exact (is_start_of_type_with_at _ _ st_good Hparen false)|]. intros ? ? ->. by split_and!.
Qed.

Lemma rounds_enough p : good p -> length src < fs p + rounds p.
Proof. intros []. unfold rounds, fs. rewrite gd_text. lia. Qed.

Lemma asks_is_start_of_type b : Asks (is_start_of_type b).
Proof.
  intros p Hp. unfold is_start_of_type.
  assert (pwp (is_start_of_type b) (fun _ p' => p' = p) p) as (a & ? & E & ->)%pwp_ok; [|by exists a].
  change (pwp (is_start_of_type_with (next_is_parenthesized_or_function_type (rounds p)) b) (fun _ p' => p' = p) p).
  apply is_start_of_type_with_at; [done|]. intros ?. apply next_is_paren_at; [done..|]. by apply rounds_enough.
Qed.

Lemma asks_is_start_of_parameter b : Asks (is_start_of_parameter b).
Proof.
  intros p Hp. unfold is_start_of_parameter.
  assert (pwp (is_start_of_parameter b) (fun _ p' => p' = p) p) as (a & ? & E & ->)%pwp_ok; [|by exists a].
  change (pwp (is_start_of_parameter_with (next_is_parenthesized_or_function_type (rounds p)) b) (fun _ p' => p' = p) p).
  apply is_start_of_parameter_with_at; [done|]. intros ?. apply next_is_paren_at; [done..|]. by apply rounds_enough.
Qed.
Hint Resolve asks_is_start_of_type asks_is_start_of_parameter : specs.

Lemma looks_next_is_start_of_type : Looks next_is_start_of_type.
Proof. asking. Qed.
Hint Resolve looks_next_is_start_of_type | 20 : specs.

(** ** Members *)

Lemma looks_skip_modifiers b : Looks (skip_modifiers b).
Proof.
  apply looks_loop. intros ?. apply scans_spec; [looks|].
  intros p Hp _. pgo; side1.
Qed.
Hint Resolve looks_skip_modifiers | 20 : specs.
Lemma looks_scan_type_member_start : Looks scan_type_member_start.
Proof. asking. Qed.
Hint Resolve looks_scan_type_member_start | 20 : specs.

Lemma looks_skip_class_modifiers : Looks skip_class_modifiers.
Proof.
  apply looks_loop. intros ?. apply scans_spec; [looks|].
  intros p Hp _. pgo; side1.
Qed.
Hint Resolve looks_skip_class_modifiers | 20 : specs.
Lemma looks_scan_class_member_start : Looks scan_class_member_start.
Proof. asking. Qed.
Hint Resolve looks_scan_class_member_start | 20 : specs.
Lemma looks_next_is_valid_heritage_clause_object_literal : Looks next_is_valid_heritage_clause_object_literal.
Proof. asking. Qed.
Hint Resolve looks_next_is_valid_heritage_clause_object_literal | 20 : specs.
Lemma asks_is_valid_heritage_clause_object_literal : Asks is_valid_heritage_clause_object_literal.
Proof. asking. Qed.
Hint Resolve asks_is_valid_heritage_clause_object_literal : specs.
Lemma asks_is_list_element k b : Asks (is_list_element k b).
Proof. asking. Qed.
Hint Resolve asks_is_list_element : specs.
Lemma asks_is_list_terminator k : Asks (is_list_terminator k).
Proof. asking. Qed.
Hint Resolve asks_is_list_terminator : specs.
End ask.
#[export] Hint Resolve asks_is_identifier asks_is_binding_identifier asks_identifier_or_keyword
  asks_is_literal_property_name asks_is_import_attribute_name
  asks_is_binding_identifier_or_private_identifier_or_pattern asks_is_binary_operator asks_is_heritage_clause
  asks_same_line asks_is_next_token_open_paren_or_less_than_or_dot asks_is_implements_clause
  asks_is_using_declaration asks_is_await_using_declaration asks_is_let_declaration asks_is_start_of_declaration
  asks_is_start_of_left_hand_side_expression asks_is_start_of_expression
  asks_is_heritage_clause_extends_or_implements_keyword asks_is_start_of_expression_statement
  asks_is_template_start_of_tagged_template asks_is_start_of_optional_property_or_element_access_chain
  asks_can_follow_type_arguments_in_expression asks_in_yield_context asks_in_disallow_in_context
  asks_in_disallow_conditional_types_context asks_in_decorator_context asks_in_await_context
  asks_is_yield_expression asks_is_await_expression asks_is_update_expression asks_is_start_of_statement
  asks_can_parse_semicolon asks_is_index_signature asks_can_follow_modifier asks_can_follow_export_modifier
  asks_can_follow_get_or_set_keyword asks_is_start_of_type asks_is_valid_heritage_clause_object_literal
  asks_is_list_element asks_is_list_terminator : specs.
#[export] Hint Resolve looks_next_token_is looks_next_token_is_identifier
  looks_next_token_is_identifier_on_same_line looks_next_token_is_identifier_or_string_literal_on_same_line
  looks_next_token_is_identifier_or_keyword looks_next_token_is_identifier_or_keyword_or_greater_than
  looks_next_token_is_identifier_or_keyword_on_same_line
  looks_next_token_is_identifier_or_keyword_or_literal_on_same_line looks_next_token_is_slash
  looks_next_token_is_dot looks_next_token_is_open_brace looks_next_token_is_open_paren
  looks_next_token_is_new_keyword looks_next_is_start_of_type_of_import_type
  looks_next_token_is_token_string_literal looks_next_token_is_open_paren_or_less_than
  looks_next_token_is_open_paren_or_less_than_or_dot looks_next_token_is_from_keyword_or_equals_token
  looks_next_token_is_equals_or_semicolon_or_colon_token looks_next_token_is_numeric_or_big_int_literal
  looks_next_is_not_dot looks_next_token_is_class_keyword_on_same_line
  looks_next_token_is_function_keyword_on_same_line looks_next_is_identifier_and_close_paren
  looks_next_token_is_binding_identifier_or_start_of_destructuring_on_same_line
  looks_next_token_is_binding_identifier_or_start_of_destructuring_on_same_line_disallow_of
  looks_next_is_using_keyword_then_binding_identifier_or_start_of_object_destructuring_on_same_line
  looks_next_token_is_binding_identifier_or_start_of_destructuring looks_next_is_start_of_expression
  looks_next_token_is_identifier_or_keyword_or_open_bracket_or_template looks_next_is_start_of_mapped_type
  looks_next_token_is_colon_or_question_colon looks_scan_start_of_named_tuple_element looks_index_signature_follows
  looks_next_is_unambiguously_index_signature looks_next_token_is_on_same_line_and_can_follow_modifier
  looks_next_token_can_follow_default_keyword looks_next_token_can_follow_export_modifier
  looks_next_token_can_follow_modifier looks_next_is_start_of_type looks_skip_modifiers looks_scan_type_member_start
  looks_skip_class_modifiers looks_scan_class_member_start looks_next_is_valid_heritage_clause_object_literal | 20 : specs.

(** ** Questions that take a token *)

Abbreviation Advances m := (Scans m (fun _ => True) (fun p _ p' => token p <> Kind.EndOfFile -> fs p < fs p')).

Section advance.
Context {T : Source} {U : UnicodeId} {laws : UnicodeIdLaws U}.

Lemma advances_bind {A B} (m : P A) (k : A -> P B) : Advances m -> (forall a, Looks (k a)) -> Advances (m ≫= k).
Proof.
  intros Hm Hk p Hp _. apply pwp_bind. eapply pwp_mono; [by apply Hm|]. cbv beta.
  intros a p1 (Hp1 & Hs1 & Hf1 & Hlt). eapply pwp_mono; [by apply Hk|]. cbv beta.
  intros b p2 (? & ? & ? & _). split_and!; [done|by eapply scans_trans|lia|intros ?%Hlt; lia].
Qed.

Lemma advances_next_token : Advances next_token.
Proof. eapply scans_weaken; [apply scans_next_token|done|]. cbv beta. by intros ? ? ? _ _ _ [_ ?]. Qed.

Ltac advancing :=
  lazymatch goal with
  | |- Advances (next_token ≫= _) => apply advances_bind; [apply advances_next_token|intros ?; looks]
  | |- Advances (advance_token ≫= _) => apply advances_bind; [apply scans_advance_token|intros ?; looks]
  | |- Advances ?m => let h := head_of m in unfold h; advancing
  end.

Lemma advances_next_token_is ks : Advances (next_token_is ks).
Proof. advancing. Qed.
Lemma advances_next_token_is_on_same_line_and_can_follow_modifier :
  Advances next_token_is_on_same_line_and_can_follow_modifier.
Proof. advancing. Qed.
Lemma advances_next_token_can_follow_default_keyword : Advances next_token_can_follow_default_keyword.
Proof. advancing. Qed.

Lemma advances_ask {A B} (m : P A) (k : A -> P B) : Asks m -> (forall a, Advances (k a)) -> Advances (m ≫= k).
Proof.
  intros Hm Hk p Hp _. apply pwp_bind. eapply pwp_ask; [exact Hm|done|]. intros a _. by apply (Hk a p Hp I).
Qed.

(** [next_token_can_follow_modifier] takes the modifier. *)
Lemma advances_next_token_can_follow_modifier : Advances next_token_can_follow_modifier.
Proof.
  unfold next_token_can_follow_modifier. apply advances_ask; [apply asks_get_token|]. intros tok. destruct tok.
  all: lazymatch goal with
    | |- Advances next_token_is_on_same_line_and_can_follow_modifier =>
        exact advances_next_token_is_on_same_line_and_can_follow_modifier
    | |- Advances (next_token_is _) => apply advances_next_token_is
    | |- Advances next_token_can_follow_default_keyword => exact advances_next_token_can_follow_default_keyword
    | |- _ => advancing
    end.
Qed.
End advance.
#[export] Hint Resolve advances_next_token_can_follow_modifier : specs.
