(* ===== verification/ListTotal.v ===== *)
(** * Tokens, lists and identifiers are total

    The methods that take a token, the loops over the elements of a list with
    their recovery, identifiers and leaves, from every good state. *)

From stdpp Require Import gmap sets.
From S2P Require Import Prelude Utf8 RustStr Chars Kind Diagnostics ScanText ScanState Scan Rescan ScanLogic ScanSafe ScanTotal ScanAgain ParserMessages Ast ParserState ParserPredicates ParserLists ParserLogic AskTotal.

Local Open Scope nat_scope.

(** What [is_identifier] answers. *)
Definition at_identifier (p : Parser) : bool :=
  match is_identifier p with Ok (b, _) => b | _ => false end.

Ltac read_hook ::=
  lazymatch goal with
  | |- pwp is_identifier ?Q ?p => change (Q (at_identifier p) p)
  | |- pwp identifier_or_keyword ?Q ?p => change (Q (names (token p)) p)
  | |- pwp is_binding_identifier ?Q ?p => change (Q (binding_identifier (token p)) p)
  | |- pwp is_literal_property_name ?Q ?p => change (Q (literal_property_name (token p)) p)
  | |- pwp is_heritage_clause ?Q ?p =>
      change (Q (among (token p) [Kind.ExtendsKeyword; Kind.ImplementsKeyword]) p)
  | |- pwp is_template_start_of_tagged_template ?Q ?p =>
      change (Q (among (token p) [Kind.NoSubstitutionTemplateLiteral; Kind.TemplateHead]) p)
  | |- pwp is_import_attribute_name ?Q ?p => change (Q (names (token p) || Kind.eqb (token p) Kind.StringLiteral) p)
  | |- pwp scanner_token_value ?Q ?p => change (Q (token_value (state (scanner p))) p)
  | |- pwp scanner_token_flags ?Q ?p => change (Q (ScanState.token_flags (state (scanner p))) p)
  | |- pwp scanner_token_start ?Q ?p => change (Q (token_start (state (scanner p))) p)
  end.

Section tokens.
Context {T : Source} {U : UnicodeId} {laws : UnicodeIdLaws U}.

Lemma scans_parse_expected_with_diagnostic k msg adv :
  Scans (parse_expected_with_diagnostic k msg adv) (fun _ => True) (fun p a p' =>
    (a = true -> token p = k /\ (adv = true -> k <> Kind.EndOfFile -> fs p < fs p')) /\
    (a = false -> token p <> k /\ still p p')).
Proof.
  apply scans_spec.
  - unfold parse_expected_with_diagnostic. looks.
  - intros p Hp _. unfold parse_expected_with_diagnostic. destruct msg; pgo; side1.
Qed.

Lemma scans_parse_expected k :
  Scans (parse_expected k) (fun _ => True) (fun p a p' =>
    (a = true -> token p = k /\ (k <> Kind.EndOfFile -> fs p < fs p')) /\
    (a = false -> token p <> k /\ still p p')).
Proof.
  eapply scans_weaken; [apply scans_parse_expected_with_diagnostic|done|]. cbv beta. intros. norm. side1.
Qed.
Hint Resolve scans_parse_expected_with_diagnostic scans_parse_expected : specs.
Lemma looks_parse_expected k : Looks (parse_expected k).
Proof. eapply looks_of, scans_parse_expected. Qed.
Hint Resolve looks_parse_expected | 20 : specs.

Lemma scans_expect k :
  Scans (expect k) (fun _ => True) (fun p _ p' =>
    (token p = k -> k <> Kind.EndOfFile -> fs p < fs p') /\ (token p <> k -> still p p')).
Proof.
  apply scans_spec; [asking|]. intros p Hp _. unfold expect. pgo. destruct a; norm; side1.
Qed.

Lemma scans_parse_expected_matching_brackets k :
  Scans (parse_expected_matching_brackets k) (fun _ => True) (fun p _ p' =>
    (token p = k -> k <> Kind.EndOfFile -> fs p < fs p') /\ (token p <> k -> still p p')).
Proof.
  apply scans_spec; [asking|]. intros p Hp _. unfold parse_expected_matching_brackets. pgo; side1.
Qed.

Lemma scans_parse_optional k :
  Scans (parse_optional k) (fun _ => True) (fun p a p' =>
    (a = true -> token p = k /\ (k <> Kind.EndOfFile -> fs p < fs p')) /\ (a = false -> token p <> k /\ p' = p)).
Proof.
  apply scans_spec; [asking|]. intros p Hp _. unfold parse_optional. pgo; side1.
Qed.
Lemma looks_parse_optional k : Looks (parse_optional k).
Proof. eapply looks_of, scans_parse_optional. Qed.
Hint Resolve scans_expect scans_parse_expected_matching_brackets scans_parse_optional : specs.
Hint Resolve looks_parse_optional | 20 : specs.

Lemma scans_try_parse_semicolon :
  Scans try_parse_semicolon (fun _ => True) (fun p a p' => (a = false -> p' = p /\ token p <> Kind.SemicolonToken /\
    token p <> Kind.CloseBraceToken /\ token p <> Kind.EndOfFile) /\ (token p = Kind.SemicolonToken -> fs p < fs p')).
Proof.
  apply scans_spec; [asking|]. intros p Hp _. unfold try_parse_semicolon. pgo.
  - side1.
  - injection H as H. kbools. unfold among in *. simpl in *. bools. kbools. side1.
Qed.

(** ** Tokens as nodes *)

Lemma spec_parse_token_node :
  Spec parse_token_node (fun p => Kind.leb (token p) Kind.LastToken = true)
    (fun p a p' => (token p <> Kind.EndOfFile -> fs p < fs p') /\ kindof p' a = Some (token p)).
Proof. intros p Hp Hk. unfold parse_token_node. pgo; side1. Qed.

Lemma spec_take_as k :
  Spec (take_as k) (fun p => shaped (Node.new k)) (fun p a p' =>
    (token p <> Kind.EndOfFile -> fs p < fs p') /\ kindof p' a = Some k).
Proof. intros p Hp Hk. unfold take_as. pgo; side1. Qed.
Hint Resolve spec_parse_token_node spec_take_as : specs.

Lemma spec_parse_optional_token k :
  Spec (parse_optional_token k) (fun p => Kind.leb k Kind.LastToken = true) (fun p a p' =>
    match a with
    | Some id => token p = k /\ (k <> Kind.EndOfFile -> fs p < fs p') /\ kindof p' id = Some k
    | None => token p <> k /\ p' = p
    end).
Proof.
  intros p Hp Hk. unfold parse_optional_token. pgo. destruct a; norm; kbools; side1.
Qed.
Hint Resolve spec_parse_optional_token : specs.

Lemma spec_parse_expected_token k :
  Spec (parse_expected_token k) (fun p => Kind.leb k Kind.LastToken = true) (fun p a p' =>
    (token p = k -> k <> Kind.EndOfFile -> fs p < fs p') /\ (token p <> k -> still p p') /\ kindof p' a = Some k).
Proof. intros p Hp Hk. unfold parse_expected_token. pgo; side1. Qed.

(** ** Identifiers *)

Lemma spec_new_identifier text :
  Spec (new_identifier text) (fun _ => utf8 text) (fun p n p' =>
    nkind n = Kind.Identifier /\ beside p p' /\ still p p').
Proof.
  intros p Hp Ht. unfold new_identifier. pgo. destruct (text =s lit "await"); norm; side1.
Qed.
Hint Resolve spec_new_identifier : specs.

Lemma spec_create_missing_identifier :
  Spec create_missing_identifier (fun _ => True) (fun p a p' => still p p' /\ kindof p' a = Some Kind.Identifier).
Proof. intros p Hp _. unfold create_missing_identifier. pgo. side1. Qed.
Hint Resolve spec_create_missing_identifier : specs.

(** A name's value is text. *)
Lemma names_utf8 p : good p -> names (token p) = true -> utf8 (token_value (state (scanner p))).
Proof. intros Hp. rewrite (gd_token p Hp). apply (to_told _ _ (gd_scanner p Hp)). Qed.

Lemma spec_parse_private_identifier :
  Spec parse_private_identifier (fun _ => True) (fun p a p' =>
    (token p <> Kind.EndOfFile -> fs p < fs p') /\ kindof p' a = Some Kind.PrivateIdentifier).
Proof. intros p Hp _. unfold parse_private_identifier, scanner_token_value. pgo. side1. Qed.

Lemma spec_take_identifier :
  Spec take_identifier (fun p => names (token p) = true) (fun p a p' =>
    fs p < fs p' /\ kindof p' a = Some Kind.Identifier /\ exists s, scan (scanner p) = Ok (token p', s)).
Proof.
  intros p Hp Hn. pose proof (names_utf8 p Hp Hn). unfold take_identifier, scanner_token_value. pgo. side1.
Qed.
Hint Resolve spec_parse_private_identifier spec_take_identifier : specs.

(** The identifier at the token, or a missing one with the parser where it was. *)
Definition identifier_post (taken : bool) (p : Parser) (a : NodeId) (p' : Parser) : Prop :=
  (taken = true -> fs p < fs p' /\ kindof p' a = Some Kind.Identifier /\ exists s, scan (scanner p) = Ok (token p', s)) /\
  (taken = false -> kindof p' a = Some Kind.Identifier /\
    (token p = Kind.PrivateIdentifier -> fs p < fs p') /\ (token p <> Kind.PrivateIdentifier -> still p p')).

Lemma spec_create_identifier_with_diagnostic b d1 d2 :
  Spec (create_identifier_with_diagnostic b d1 d2) (fun p => b = true -> names (token p) = true) (identifier_post b).
Proof.
  intros p Hp Hn. unfold create_identifier_with_diagnostic, identifier_post. destruct b.
  - specialize (Hn eq_refl). by_spec. side1.
  - clear Hn. destruct d1; pgo; side1.
Qed.
Hint Resolve spec_create_identifier_with_diagnostic : specs.

Lemma at_identifier_names p : at_identifier p = true -> names (token p) = true.
Proof.
  unfold at_identifier, is_identifier, gets. destruct (token p); try done.
Qed.

Lemma binding_identifier_names k : binding_identifier k = true -> names k = true.
Proof. by destruct k. Qed.

Lemma spec_parse_identifier_with_diagnostic d1 d2 :
  Spec (parse_identifier_with_diagnostic d1 d2) (fun _ => True) (fun p => identifier_post (at_identifier p) p).
Proof.
  intros p Hp _. unfold parse_identifier_with_diagnostic. apply pwp_bind.
  by apply (spec_create_identifier_with_diagnostic (at_identifier p) d1 d2 p Hp), at_identifier_names.
Qed.

Lemma spec_parse_identifier : Spec parse_identifier (fun _ => True) (fun p => identifier_post (at_identifier p) p).
Proof. exact (spec_parse_identifier_with_diagnostic None None). Qed.

Lemma spec_parse_identifier_name_with_diagnostic d :
  Spec (parse_identifier_name_with_diagnostic d) (fun _ => True) (fun p => identifier_post (names (token p)) p).
Proof.
  intros p Hp _. unfold parse_identifier_name_with_diagnostic. apply pwp_bind.
  by apply (spec_create_identifier_with_diagnostic (names (token p)) d None p Hp).
Qed.

Lemma spec_parse_identifier_name : Spec parse_identifier_name (fun _ => True) (fun p => identifier_post (names (token p)) p).
Proof. exact (spec_parse_identifier_name_with_diagnostic None). Qed.
Hint Resolve spec_parse_identifier_with_diagnostic spec_parse_identifier spec_parse_identifier_name_with_diagnostic
  spec_parse_identifier_name : specs.

Lemma spec_parse_identifier_name_error_on_unicode_escape_sequence :
  Spec parse_identifier_name_error_on_unicode_escape_sequence (fun _ => True) (fun _ _ _ => True).
Proof.
  intros p Hp _. unfold parse_identifier_name_error_on_unicode_escape_sequence, create_identifier. pgo; side1.
Qed.

Lemma spec_parse_binding_identifier_with_diagnostic d :
  Spec (parse_binding_identifier_with_diagnostic d) (fun _ => True) (fun p a p' =>
    kindof p' a = Some Kind.Identifier /\ (binding_identifier (token p) = true -> fs p < fs p')).
Proof.
  intros p Hp _. unfold parse_binding_identifier_with_diagnostic. pgo.
  unfold identifier_post in *. destruct (binding_identifier (token p)); norm; side1.
Qed.

Lemma spec_parse_binding_identifier :
  Spec parse_binding_identifier (fun _ => True) (fun p a p' =>
    kindof p' a = Some Kind.Identifier /\ (binding_identifier (token p) = true -> fs p < fs p')).
Proof. exact (spec_parse_binding_identifier_with_diagnostic None). Qed.
Hint Resolve spec_parse_identifier_name_error_on_unicode_escape_sequence spec_parse_binding_identifier_with_diagnostic
  spec_parse_binding_identifier : specs.

Lemma spec_parse_optional_binding_identifier :
  Spec parse_optional_binding_identifier (fun _ => True) (fun _ _ _ => True).
Proof. intros p Hp _. unfold parse_optional_binding_identifier. pgo. side1. Qed.

Lemma spec_parse_identifier_unless_at_semicolon :
  Spec parse_identifier_unless_at_semicolon (fun _ => True) (fun _ _ _ => True).
Proof. intros p Hp _. unfold parse_identifier_unless_at_semicolon. pgo. side1. Qed.

Lemma spec_parse_right_side_of_dot a b c :
  Spec (parse_right_side_of_dot a b c) (fun _ => True) (fun _ _ _ => True).
Proof. intros p Hp _. unfold parse_right_side_of_dot. cbv zeta. pgo; side1. Qed.
End tokens.
#[export] Hint Resolve scans_parse_expected_with_diagnostic scans_parse_expected scans_expect
  scans_parse_expected_matching_brackets scans_parse_optional scans_try_parse_semicolon spec_parse_token_node spec_take_as
  spec_parse_optional_token spec_parse_expected_token spec_new_identifier spec_create_missing_identifier
  spec_parse_private_identifier spec_take_identifier spec_create_identifier_with_diagnostic
  spec_parse_identifier_with_diagnostic spec_parse_identifier spec_parse_identifier_name_with_diagnostic
  spec_parse_identifier_name spec_parse_identifier_name_error_on_unicode_escape_sequence
  spec_parse_binding_identifier_with_diagnostic spec_parse_binding_identifier spec_parse_optional_binding_identifier
  spec_parse_identifier_unless_at_semicolon spec_parse_right_side_of_dot : specs.
#[export] Hint Resolve looks_parse_expected looks_parse_optional | 20 : specs.

(** ** Lists *)

#[export] Hint Resolve monotone_true monotone_ready monotone_deep : specs.

Section lists.
Context {T : Source} {U : UnicodeId} {laws : UnicodeIdLaws U}.

(** A list that has not ended is not at the end of the text. *)
Lemma terminator_eof k p : is_list_terminator k p = Ok (false, p) -> token p <> Kind.EndOfFile.
Proof. intros H E. unfold is_list_terminator, get_token, gets, mbind, P_bind in H. by rewrite E in H. Qed.

Lemma looks_in_some_parsing_context ks : Asks (in_some_parsing_context ks).
Proof. induction ks as [|k ks IH]; cbn [in_some_parsing_context]; looks. Qed.

Lemma looks_is_in_some_parsing_context : Asks is_in_some_parsing_context.
Proof. apply looks_in_some_parsing_context. Qed.
Hint Resolve looks_is_in_some_parsing_context : specs.

Lemma scans_parsing_context_errors k : Scans (parsing_context_errors k) (fun _ => True) (fun p _ p' => still p p').
Proof.
  unfold parsing_context_errors. apply scans_bind_still; [apply scans_asks_still, asks_get_token|]. intros tok.
  destruct (list_message k tok). apply scans_parse_error_at_current_token.
Qed.
Hint Resolve scans_parsing_context_errors : specs.

Lemma spec_abort_parsing_list_or_move_to_next_token k :
  Spec (abort_parsing_list_or_move_to_next_token k) (fun _ => True) (fun p b p' =>
    b = false -> token p <> Kind.EndOfFile -> fs p < fs p').
Proof. intros p Hp _. unfold abort_parsing_list_or_move_to_next_token. pgo; side1. Qed.
Hint Resolve spec_abort_parsing_list_or_move_to_next_token : specs.

Section list.
Context (J : Parser -> Prop) `{!Monotone J} (kind : PC).

Ltac ended := match goal with H : is_list_terminator _ ?p = Ok (false, ?p) |- _ => pose proof (terminator_eof _ _ H) end; norm.

Lemma spec_parse_list_index elem :
  (forall i, Spec (elem i) (fun p => J p /\ token p <> Kind.EndOfFile /\ is_list_element kind false p = Ok (true, p))
     (fun p _ p' => fs p < fs p')) ->
  Spec (parse_list_index kind elem) J (fun _ _ _ => True).
Proof.
  intros He p Hp HJ. unfold parse_list_index, in_parsing_context. pgo.
  apply (pwp_loop (fun _ => J) (fun _ _ => True)); [done|constructor|by eapply monotone|..].
  - intros l p1 Hs Hv HJ1. norm. pgo; try ended; side1.
  - intros. norm. pgo. side1.
Qed.

Lemma spec_parse_list elem :
  Spec elem (fun p => J p /\ token p <> Kind.EndOfFile /\ is_list_element kind false p = Ok (true, p))
    (fun p _ p' => fs p < fs p') ->
  Spec (parse_list kind elem) J (fun _ _ _ => True).
Proof.
  intros He p Hp HJ. unfold parse_list. pgo.
  eapply pwp_use; [apply spec_parse_list_index; intros ?; exact He|done|done|]. intros. norm. pgo. side1.
Qed.

Lemma spec_recover_delimiter pos :
  Spec (recover_delimiter kind pos) (fun p => token p <> Kind.EndOfFile /\ pos <= fs p)
    (fun p _ p' => pos < fs p').
Proof.
  intros p Hp [Hk Hpos]. unfold recover_delimiter. apply pwp_bind. pstep.
  apply pwp_bind. eapply (pwp_join (fun p _ p' => token p' = token p \/ fs p < fs p')).
  - pgo; (split; [side1|]); (split; [done|]).
    all: destruct (decide (token p = Kind.CommaToken)); norm; first [left; side1 | right; side1].
  - intros a p1 Hs _ Ht. norm. pgo. split; [side1|]. split; [done|]. destruct Ht as [Ht|Ht]; [|lia].
    assert (token p1 <> Kind.EndOfFile) by congruence. norm. cases; lia.
Qed.
Hint Resolve spec_recover_delimiter : specs.

(** A list whose elements are all there is there. *)
Lemma spec_parse_delimited_list_opt (sure : Prop) elem :
  Spec elem J (fun _ a _ => sure -> is_Some a) ->
  Spec (parse_delimited_list_opt kind elem) J (fun _ a _ => sure -> is_Some a).
Proof.
  intros He p Hp HJ. unfold parse_delimited_list_opt, in_parsing_context. pgo.
  apply (pwp_loop (fun _ => J) (fun a _ => sure -> is_Some a)); [done|constructor|by eapply monotone|..].
  - intros l p1 Hs Hv HJ1. norm. pgo; try ended; try side1.
  - intros r p1 ? ? ?. norm. pgo; side1.
Qed.

Lemma spec_parse_delimited_list elem post :
  Spec elem J post -> Spec (parse_delimited_list kind elem) J (fun _ _ _ => True).
Proof.
  intros He p Hp HJ. unfold parse_delimited_list. apply pwp_bind. eapply pwp_use.
  - apply (spec_parse_delimited_list_opt True). intros p1 Hp1 HJ1. apply pwp_bind.
    eapply pwp_use; [exact He|done|done|]. intros. norm. pgo. side1.
  - done.
  - done.
  - intros a p' Hs Hv Ha. norm. destruct (Ha I) as [l ->]. norm. apply pwp_ret. side1.
Qed.

Lemma spec_create_missing_list :
  Spec create_missing_list (fun _ => True) (fun p _ p' => p' = p).
Proof. intros p Hp _. unfold create_missing_list. pgo. split; [side1|]. split; [|done]. split; [constructor|simpl; bd..]. Qed.
Hint Resolve spec_create_missing_list : specs.

Lemma spec_parse_bracketed_list elem post opening closing :
  Spec elem J post ->
  Spec (parse_bracketed_list kind elem opening closing) J (fun p l p' =>
    token p = opening -> opening <> Kind.EndOfFile -> fs p < fs p').
Proof.
  intros He p Hp HJ. unfold parse_bracketed_list. pstep. by_spec. pstep.
  - apply pwp_bind. eapply pwp_use; [by eapply spec_parse_delimited_list|done|side1|]. intros. norm. pgo. side1.
  - pgo. side1.
Qed.

Lemma spec_parse_empty_node_list : Spec parse_empty_node_list (fun _ => True) (fun p _ p' => p' = p).
Proof. intros p Hp _. unfold parse_empty_node_list. pgo. side1. Qed.
End list.
End lists.
#[export] Hint Resolve spec_parse_delimited_list spec_parse_bracketed_list spec_create_missing_list
  spec_parse_empty_node_list : specs.

(** ** Names and leaves *)

Section leaves.
Context {T : Source} {U : UnicodeId} {laws : UnicodeIdLaws U}.

Lemma spec_parse_entity_name b d :
  Spec (parse_entity_name b d) (fun _ => True) (fun p a p' =>
    (if b then names (token p) else at_identifier p) = true -> fs p < fs p').
Proof.
  intros p Hp _. unfold parse_entity_name. pstep. pstep. apply pwp_bind. destruct b.
  all: by_spec; ploop (fun (_ : NodeId) (_ : Parser) => True); pgo; try side1.
  all: unfold identifier_post in *; match goal with H : context [if ?b then _ else _] |- _ => idtac | |- context [?b = true -> _] => destruct b; norm; side1 end.
Qed.

Lemma spec_parse_literal_expression :
  Spec parse_literal_expression
    (fun p => among (token p) [Kind.StringLiteral; Kind.NumericLiteral; Kind.BigIntLiteral;
                Kind.RegularExpressionLiteral; Kind.NoSubstitutionTemplateLiteral] = true)
    (fun p a p' => fs p < fs p' /\ kindof p' a = Some (token p)).
Proof.
  intros p Hp Hk. unfold parse_literal_expression. pgo; side1.
Qed.
End leaves.
#[export] Hint Resolve spec_parse_entity_name spec_parse_literal_expression : specs.
#[export] Hint Extern 5 (Spec parse_keyword_type_node _ _) => exact spec_parse_token_node : specs.
#[export] Hint Extern 5 (Spec parse_keyword_expression _ _) => exact spec_parse_token_node : specs.
