(* ===== verification/ParserStart.v ===== *)
(** * The parser at the first token

    The first token of a TypeScript file leaves the parser in a good state; from
    any good state the loop over the elements of a list ends, however the
    elements are written. *)

From stdpp Require Import gmap sets.
From S2P Require Import Prelude Utf8 RustStr Chars Kind Diagnostics ScanText ScanState Scan Rescan ScanLogic ScanSafe ScanTotal ScanAgain ParserMessages Ast ParserState ParserPredicates ParserLists ParserLogic AskTotal ListTotal Parse.

Local Open Scope nat_scope.

Section start.
Context {T : Source} {U : UnicodeId} {laws : UnicodeIdLaws U}.

(** The first token. *)
Lemma first_token_good options :
  script_kind options = Ts -> pwp advance_token (fun _ p => good p /\ nodes p = []) (initial_parser src options).
Proof.
  intros Hts. unfold initial_parser. rewrite Hts. set (p0 := Build_Parser _ _ _ _ _ _ _ _ _ _ _ _ _ _ _).
  assert (Hs : scanner_ok (scanner p0)). { exact (new_ok _ _ src_utf8 src_probe). }
  unfold advance_token. apply pwp_bind. unfold next_token. do 2 (apply pwp_bind, pwp_gets). cbn [is_keyword].
  apply pwp_bind, pwp_ret, pwp_rescanned.
  eapply wp_mono; [by apply (scan_between src (scanner p0))|]. cbv beta. intros k s (Ht & _ & Hk & _).
  apply pwp_ret. split; [|done]. split; try done.
Qed.
End start.

(** The list loops of the parser, whatever the text at them: the elements, the
    delimiters that are missing, and the tokens that are skipped. *)
Section lists.
Context {T : Source} {U : UnicodeId} {laws : UnicodeIdLaws U}.

(** C18 Parsing a delimited list ends: from every good state, for every list and
    every method for its elements that answers from the states it is run in, the
    loop answers a list of nodes of the arena, at the token it has come to, whatever
    commas are missing and whatever stands between the elements. *)
Theorem delimited_list_total kind elem (J : Parser -> Prop) `{!Monotone J} post p :
  Spec elem J post -> good p -> J p ->
  exists l p', parse_delimited_list kind elem p = Ok (l, p') /\ good p' /\ fs p <= fs p' /\ list_ok (nlen p') l.
Proof.
  intros He Hp HJ. pose proof (spec_parse_delimited_list J kind elem post He p Hp HJ) as H.
  apply pwp_ok in H as (l & p' & E & [] & ? & _). by exists l, p'.
Qed.
End lists.

(** Names with a comma missing, a stray token and a comma at the end. *)
Definition sample_text : str := lit "a, b c ; d,".

Lemma sample_utf8 : utf8 sample_text.
Proof. by apply asciib_utf8. Qed.

Definition sample : Source := {| src := sample_text; src_utf8 := sample_utf8;
  src_probe := eq_refl |}.

Definition sample_options : ParseOptions :=
  Build_ParseOptions Ts false false false ES2015 None.

Lemma delimited_list_total_witness :
  exists p l p', advance_token (H := latin1) (initial_parser sample_text sample_options) = Ok (tt, p)
    /\ parse_delimited_list (H := latin1) ArrayBindingElements (parse_identifier (H := latin1)) p = Ok (l, p').
Proof.
  pose proof (first_token_good (T := sample) (U := latin1) sample_options eq_refl) as H.
  apply pwp_ok in H as ([] & p & E & Hp & _).
  destruct (delimited_list_total (T := sample) (U := latin1) ArrayBindingElements (parse_identifier (H := latin1)) (fun _ => True) _ p
    (spec_parse_identifier (U := latin1)) Hp I) as (l & p' & E' & _).
  by exists p, l, p'.
Defined.
