(* ===== verification/Decimal.v ===== *)
(** * Total orders and decimal numerals

    The class of comparison functions that are total orders, with the
    combinators the components compare by, and the lemmas on the integer
    parser and printer of the standard library. *)

From S2P Require Import Prelude Utf8 RustStr.

Local Open Scope Z_scope.

(** ** Comparison functions *)

Class TotalCompare {A} (c : A -> A -> comparison) : Prop := {
  tc_eq a b : c a b = Eq <-> a = b;
  tc_antisym a b : c b a = CompOpp (c a b);
  tc_trans a b d : c a b = Lt -> c b d = Lt -> c a d = Lt
}.

Lemma tc_refl `{TotalCompare A c} a : c a a = Eq.
Proof. by apply tc_eq. Qed.

#[export] Instance Z_total : TotalCompare Z.compare.
Proof.
  split; [apply Z.compare_eq_iff| intros; apply Z.compare_antisym|].
  intros a b d. rewrite !Z.compare_lt_iff. lia.
Qed.

#[export] Instance nat_total : TotalCompare Nat.compare.
Proof.
  split; [apply Nat.compare_eq_iff| intros; apply Nat.compare_antisym|].
  intros a b d. rewrite !Nat.compare_lt_iff. lia.
Qed.

#[export] Instance str_total : TotalCompare str_compare.
Proof. split; [apply str_compare_eq|intros; apply str_compare_antisym|intros a b d; apply str_compare_lt_trans]. Qed.

(** The order pulled back along an injection. *)
Lemma total_inj {A B} (f : A -> B) c `{!TotalCompare c} :
  Inj (=) (=) f -> TotalCompare (fun a b => c (f a) (f b)).
Proof.
  intros Hf. split.
  - intros a b. rewrite tc_eq. split; [apply Hf|by intros ->].
  - intros a b. apply tc_antisym.
  - intros a b d. apply tc_trans.
Qed.

(** [Ordering::then]. *)
Definition then_ (a b : comparison) : comparison := match a with Eq => b | c => c end.

Definition compare_pair {A B} (c : A -> A -> comparison) (d : B -> B -> comparison) (x y : A * B) :=
  then_ (c x.1 y.1) (d x.2 y.2).

#[export] Instance pair_total {A B} (c : A -> A -> comparison) (d : B -> B -> comparison)
  `{!TotalCompare c, !TotalCompare d} : TotalCompare (compare_pair c d).
Proof.
  unfold compare_pair. split.
  - intros [a b] [a' b']; simpl. destruct (c a a') eqn:E; simpl.
    + apply tc_eq in E as ->. rewrite tc_eq. split; congruence.
    + split; [done|]. intros [= -> ->]. by rewrite tc_refl in E.
    + split; [done|]. intros [= -> ->]. by rewrite tc_refl in E.
  - intros [a b] [a' b']; simpl. rewrite (tc_antisym a a').
    destruct (c a a') eqn:E; simpl; [apply tc_antisym|done|done].
  - intros [a b] [a' b'] [a'' b'']; simpl.
    destruct (c a a') eqn:E, (c a' a'') eqn:E'; simpl; try done.
    + apply tc_eq in E as ->. rewrite E'. simpl. apply tc_trans.
    + apply tc_eq in E as ->. by rewrite E'.
    + apply tc_eq in E' as <-. by rewrite E.
    + by rewrite (tc_trans _ _ _ E E').
Qed.

Fixpoint compare_list {A} (c : A -> A -> comparison) (x y : list A) : comparison :=
  match x, y with
  | [], [] => Eq
  | [], _ :: _ => Lt
  | _ :: _, [] => Gt
  | a :: x, b :: y => then_ (c a b) (compare_list c x y)
  end.

#[export] Instance list_total {A} (c : A -> A -> comparison) `{!TotalCompare c} :
  TotalCompare (compare_list c).
Proof.
  split.
  - intros x; induction x as [|a x IH]; intros [|b y]; simpl; try (split; congruence).
    destruct (c a b) eqn:E; simpl.
    + apply tc_eq in E as ->. rewrite IH. split; congruence.
    + split; [done|]. intros [= -> ->]. by rewrite tc_refl in E.
    + split; [done|]. intros [= -> ->]. by rewrite tc_refl in E.
  - intros x; induction x as [|a x IH]; intros [|b y]; simpl; try done.
    rewrite (tc_antisym a b). destruct (c a b); simpl; [apply IH|done|done].
  - intros x; induction x as [|a x IH]; intros [|b y] [|d z]; simpl; try done.
    destruct (c a b) eqn:E, (c b d) eqn:E'; simpl; try done.
    + apply tc_eq in E as ->. rewrite E'. simpl. apply IH.
    + apply tc_eq in E as ->. by rewrite E'.
    + apply tc_eq in E' as <-. by rewrite E.
    + by rewrite (tc_trans _ _ _ E E').
Qed.

Definition compare_sum {A B} (c : A -> A -> comparison) (d : B -> B -> comparison) (x y : A + B) :=
  match x, y with
  | inl a, inl b => c a b
  | inl _, inr _ => Lt
  | inr _, inl _ => Gt
  | inr a, inr b => d a b
  end.

#[export] Instance sum_total {A B} (c : A -> A -> comparison) (d : B -> B -> comparison)
  `{!TotalCompare c, !TotalCompare d} : TotalCompare (compare_sum c d).
Proof.
  split.
  - intros [a|a] [b|b]; simpl; rewrite ?tc_eq; split; congruence.
  - intros [a|a] [b|b]; simpl; [apply tc_antisym|done|done|apply tc_antisym].
  - intros [a|a] [b|b] [e|e]; simpl; try done; apply tc_trans.
Qed.

(** ** Decimal numerals *)

Definition is_digits (s : str) : bool := forallb is_ascii_digit s.

(** The value of digits read after the number [acc]. *)
Fixpoint value_from (acc : Z) (s : str) : Z :=
  match s with
  | [] => acc
  | b :: s => value_from (acc * 10 + (b - 48)) s
  end.
Definition value : str -> Z := value_from 0.

Lemma digit_value_digit b : is_ascii_digit b = true -> digit_value b = Some (b - 48).
Proof. unfold is_ascii_digit, digit_value. by intros ->. Qed.

Lemma value_from_lower acc s : is_digits s = true -> 0 <= acc -> acc * 10 ^ Z.of_nat (length s) <= value_from acc s.
Proof.
  unfold is_digits. revert acc; induction s as [|b s IH]; simpl; intros acc Hs Ha; [lia|].
  bools. unfold is_ascii_digit in *. bools.
  etrans; [|apply IH; [done|lia]].
  rewrite Nat2Z.inj_succ, Z.pow_succ_r by lia. nia.
Qed.

Lemma value_from_upper acc s :
  is_digits s = true -> 0 <= acc -> value_from acc s < (acc + 1) * 10 ^ Z.of_nat (length s).
Proof.
  unfold is_digits. revert acc; induction s as [|b s IH]; simpl; intros acc Hs Ha; [lia|].
  bools. unfold is_ascii_digit in *. bools.
  eapply Z.lt_le_trans; [apply IH; [done|lia]|].
  rewrite Nat2Z.inj_succ, Z.pow_succ_r by lia. nia.
Qed.

Lemma value_from_mono acc s : is_digits s = true -> 0 <= acc -> acc <= value_from acc s.
Proof.
  intros Hs Ha. pose proof (value_from_lower acc s Hs Ha).
  assert (1 <= 10 ^ Z.of_nat (length s)) by (apply (Z.pow_le_mono_r 10 0); lia). nia.
Qed.

Lemma parse_digits_value max acc s :
  is_digits s = true -> 0 <= acc <= max ->
  parse_digits 10 max acc s = if value_from acc s <=? max then Some (value_from acc s) else None.
Proof.
  unfold is_digits. revert acc; induction s as [|b s IH]; simpl; intros acc Hs Ha.
  { by replace (acc <=? max) with true by lia. }
  bools. rewrite digit_value_digit by done. unfold is_ascii_digit in *. bools.
  replace (b - 48 <? 10) with true by lia.
  destruct (acc * 10 + (b - 48) <=? max) eqn:E; [apply IH; [done|lia]|].
  pose proof (value_from_mono (acc * 10 + (b - 48)) s).
  by replace (value_from (acc * 10 + (b - 48)) s <=? max) with false by (unfold is_digits in *; lia).
Qed.

(** The parser of a digit string: the value, or the overflow error. *)
Lemma from_str_radix_value max s :
  is_digits s = true -> s <> [] -> 0 <= max ->
  from_str_radix 10 max s = if value s <=? max then Some (value s) else None.
Proof.
  intros Hs Hne Hmax. destruct s as [|b s]; [done|]. unfold from_str_radix.
  assert ((b =r "+") = false) as ->.
  { unfold is_digits in Hs. simpl in Hs. bools. unfold is_ascii_digit in *. lia. }
  apply (parse_digits_value max 0 (b :: s)); [done|lia].
Qed.

(** Digit strings of one length are ordered as their values; a longer one
    without a leading zero is greater. *)
Lemma value_compare acc acc' s t :
  is_digits s = true -> is_digits t = true -> length s = length t -> 0 <= acc -> 0 <= acc' ->
  (value_from acc s ?= value_from acc' t) = then_ (acc ?= acc') (str_compare s t).
Proof.
  unfold is_digits. revert acc acc' t; induction s as [|b s IH]; intros acc acc' [|b' t]; simpl; try done.
  { intros. by destruct (acc ?= acc'). }
  intros Hs Ht [= Hl] Ha Ha'. bools. unfold is_ascii_digit in *. bools.
  rewrite IH by (done || lia).
  destruct (Z.compare_spec acc acc') as [->| |]; simpl.
  - destruct (Z.compare_spec b b') as [->| |]; simpl; [by rewrite Z.compare_refl| |].
    + by rewrite (proj2 (Z.compare_lt_iff _ _)) by lia.
    + by rewrite (proj2 (Z.compare_gt_iff _ _)) by lia.
  - by rewrite (proj2 (Z.compare_lt_iff _ _)) by lia.
  - by rewrite (proj2 (Z.compare_gt_iff _ _)) by lia.
Qed.

(** A numeral is its digits without a leading zero. *)
Definition numeral (s : str) : Prop :=
  is_digits s = true /\ s <> [] /\ (s = lit "0" \/ starts_with (lit "0") s = false).

Lemma numeral_lower s : numeral s -> s <> lit "0" -> 10 ^ Z.of_nat (length s - 1) <= value s.
Proof.
  intros (Hd & Hne & Hz) H0. destruct Hz as [|Hz]; [done|].
  destruct s as [|b s]; [done|]. unfold is_digits in Hd. simpl in Hd, Hz |- *. bools.
  unfold is_ascii_digit in *. bools. rewrite Nat.sub_0_r, andb_true_r in *.
  unfold value. simpl. etrans; [|apply value_from_lower; [done|lia]].
  assert (b <> 48) by (intros ->; done).
  pose proof (Z.pow_pos_nonneg 10 (Z.of_nat (length s))). nia.
Qed.

Lemma numeral_upper s : numeral s -> value s < 10 ^ Z.of_nat (length s).
Proof. intros (Hd & _ & _). pose proof (value_from_upper 0 s Hd). unfold value. lia. Qed.

Lemma numeral_shorter s t : numeral s -> numeral t -> (length s < length t)%nat -> value s < value t.
Proof.
  intros Hs Ht Hl. pose proof (numeral_upper s Hs).
  assert (t <> lit "0") as H0.
  { intros ->. destruct Hs as (_ & ? & _). destruct s; simpl in *; [done|lia]. }
  pose proof (numeral_lower t Ht H0).
  assert (10 ^ Z.of_nat (length s) <= 10 ^ Z.of_nat (length t - 1)) by (apply Z.pow_le_mono_r; lia). lia.
Qed.

Lemma numeral_compare s t :
  numeral s -> numeral t ->
  (value s ?= value t) = then_ (Nat.compare (length s) (length t)) (str_compare s t).
Proof.
  intros Hs Ht. destruct (Nat.compare_spec (length s) (length t)); simpl.
  - destruct Hs as (? & _), Ht as (? & _). unfold value. by rewrite value_compare.
  - apply Z.compare_lt_iff. by apply numeral_shorter.
  - apply Z.compare_gt_iff. by apply numeral_shorter.
Qed.

Lemma value_inj s t : numeral s -> numeral t -> value s = value t -> s = t.
Proof.
  intros Hs Ht E. pose proof (numeral_compare s t Hs Ht) as H.
  rewrite E, Z.compare_refl in H.
  destruct (Nat.compare (length s) (length t)); simpl in H; try done. by apply str_compare_eq.
Qed.

(** ** The printer *)

Lemma value_from_app acc s t : value_from acc (s ++ t) = value_from (value_from acc s) t.
Proof. revert acc; induction s; simpl; auto. Qed.

Lemma digit_char_digit d : 0 <= d < 10 -> digit_char d = 48 + d.
Proof. unfold digit_char. intros. by replace (d <? 10) with true by lia. Qed.

Lemma render_digits_app fuel r n acc : render_digits fuel r n acc = render_digits fuel r n [] ++ acc.
Proof.
  revert n acc; induction fuel as [|fuel IH]; intros n acc; simpl; [done|].
  case_split; [done|]. rewrite IH, (IH _ [_]), <- app_assoc. done.
Qed.

Lemma render_digits_numeral fuel n :
  0 <= n < 2 ^ Z.of_nat fuel -> (0 < fuel)%nat ->
  numeral (render_digits fuel 10 n []) /\ value (render_digits fuel 10 n []) = n.
Proof.
  revert n; induction fuel as [|fuel IH]; intros n Hn Hf; [lia|]. simpl.
  rewrite digit_char_digit by zlia.
  destruct (n / 10 =? 0) eqn:E.
  - assert (n < 10) by zlia. rewrite Z.mod_small by lia. split; [|unfold value; simpl; lia].
    split_and!; [|done|].
    + unfold is_digits, is_ascii_digit. cbn [forallb]. lia.
    + destruct (decide (n = 0)) as [->|]; [by left|right].
      change (lit "0") with [48]. cbn [starts_with]. lia.
  - rewrite Nat2Z.inj_succ, Z.pow_succ_r in Hn by lia.
    destruct (decide (fuel = 0%nat)) as [->|Hf0].
    { change (2 ^ Z.of_nat 0) with 1 in Hn. zlia. }
    destruct (IH (n / 10)) as [(Hd & Hne & Hz) Hv]; [zlia|lia|].
    rewrite render_digits_app. set (s := render_digits fuel 10 (n / 10) []) in *.
    split; [split_and!|].
    + unfold is_digits in *. rewrite forallb_app, Hd. cbn [forallb andb]. unfold is_ascii_digit. zlia.
    + by destruct s.
    + right. destruct Hz as [Hz|Hz].
      * rewrite Hz in Hv. change (value (lit "0")) with 0 in Hv. zlia.
      * destruct s; [done|]. exact Hz.
    + unfold value in *. rewrite value_from_app, Hv. simpl. zlia.
Qed.

Lemma render_numeral n : 0 <= n -> numeral (render 10 n) /\ value (render 10 n) = n.
Proof.
  intros Hn. unfold render. apply render_digits_numeral; [|lia]. split; [done|].
  rewrite Nat2Z.inj_succ, Z2Nat.id by apply Z.log2_nonneg.
  destruct (decide (n = 0)) as [->|]; [done|]. by apply Z.log2_spec; lia.
Qed.

(** Printing and parsing back. *)
Lemma from_str_render max n : 0 <= n <= max -> from_str_radix 10 max (render 10 n) = Some n.
Proof.
  intros Hn. destruct (render_numeral n) as [(Hd & Hne & _) Hv]; [lia|].
  rewrite from_str_radix_value by (done || lia). rewrite Hv. by replace (n <=? max) with true by lia.
Qed.
