(* ===== verification/Semver.v ===== *)
(** * npm semantic versions and ranges (crates/surge-ts/src/semver.rs)

    [Version::parse], the ordering of versions, the parser of ranges and the
    test of a version against a range. [u32] arithmetic is that of the release
    profile, which wraps around. *)

From S2P Require Import Prelude Utf8 RustStr Decimal.

Local Open Scope Z_scope.

Definition dot : Z := 46.
Definition dash : Z := 45.
Definition plus : Z := 43.

Module Semver.

(** ** Components and identifiers *)

Definition is_numeric_identifier (text : str) : bool :=
  negb (text =s []) && forallb is_ascii_digit text
  && ((text =s lit "0") || negb (starts_with (lit "0") text)).

Definition numeric_component (text : str) : option Z :=
  if negb (is_numeric_identifier text) then None else from_str_radix 10 u32_max text.

Definition is_identifier_byte (byte : Z) : bool := is_ascii_alphanumeric byte || (byte =? dash).

Definition is_prerelease_identifier (text : str) : bool :=
  is_numeric_identifier text
  || match text with
     | [] => false
     | b :: _ => negb (is_ascii_digit b) && forallb is_identifier_byte text
     end.

Definition is_wildcard (text : str) : bool :=
  (text =s lit "*") || (text =s lit "x") || (text =s lit "X").

(** [core[-pre][+build]]. *)
Definition split_qualifiers (text : str) : str * option str * option str :=
  let '(head, build) :=
    match split_once plus text with
    | Some (head, build) => (head, Some build)
    | None => (text, None)
    end in
  match split_once dash head with
  | Some (core, prerelease) => (core, Some prerelease, build)
  | None => (head, None, build)
  end.

(** ** Versions *)

Record Version := mkVersion {
  major : Z;
  minor : Z;
  patch : Z;
  prerelease : list str
}.

#[export] Instance Version_eq_dec : EqDecision Version.
Proof. solve_decision. Defined.

Definition release (major minor patch : Z) : Version := mkVersion major minor patch [].
Definition increment_major (v : Version) : Version := release (wrap_u32 (major v + 1)) 0 0.
Definition increment_minor (v : Version) : Version := release (major v) (wrap_u32 (minor v + 1)) 0.
Definition increment_patch (v : Version) : Version := release (major v) (minor v) (wrap_u32 (patch v + 1)).
Definition with_prerelease_zero (v : Version) : Version :=
  mkVersion (major v) (minor v) (patch v) [lit "0"].

(** [components.next().map(numeric_component).unwrap_or(Some(0))?]. *)
Definition next_component (components : list str) : option (Z * list str) :=
  match components with
  | [] => Some (0, [])
  | c :: rest => n ← numeric_component c; Some (n, rest)
  end.

Definition parse (text : str) : option Version :=
  let '(core, prerelease, build) := split_qualifiers text in
  match split_byte dot core with
  | [] => None
  | first :: components =>
      major ← numeric_component first;
      '(minor, components) ← next_component components;
      '(patch, components) ← next_component components;
      if negb (bool_decide (components = [])) then None else
      let dots := count_byte dot core in
      if (dots <? 2)%nat && (bool_decide (is_Some prerelease) || bool_decide (is_Some build)) then None else
      prerelease ←
        match prerelease with
        | Some text =>
            let parts := split_byte dot text in
            if forallb is_prerelease_identifier parts then Some parts else None
        | None => Some []
        end;
      if match build with
         | Some build =>
             negb (forallb (fun part => negb (part =s []) && forallb is_identifier_byte part) (split_byte dot build))
         | None => false
         end
      then None
      else Some (mkVersion major minor patch prerelease)
  end.

(** ** Ordering *)

Definition compare_prerelease_identifier (a b : str) : comparison :=
  if a =s b then Eq
  else
    match is_numeric_identifier a, is_numeric_identifier b with
    | true, true =>
        match from_str_radix 10 u32_max a, from_str_radix 10 u32_max b with
        | Some left_number, Some right_number => left_number ?= right_number
        | _, _ => then_ (Nat.compare (length a) (length b)) (str_compare a b)
        end
    | true, false => Lt
    | false, true => Gt
    | false, false => str_compare a b
    end.

(** The loop over the zipped identifiers, then [a.len().cmp(&b.len())]. *)
Fixpoint compare_identifiers (a b : list str) : comparison :=
  match a, b with
  | l :: ls, r :: rs =>
      match compare_prerelease_identifier l r with
      | Eq => compare_identifiers ls rs
      | ordering => ordering
      end
  | _, _ => Nat.compare (length a) (length b)
  end.

Definition compare_prerelease (a b : list str) : comparison :=
  match a, b with
  | [], [] => Eq
  | [], _ => Gt
  | _, [] => Lt
  | _, _ => compare_identifiers a b
  end.

Definition compare (self other : Version) : comparison :=
  then_ (then_ (then_ (major self ?= major other) (minor self ?= minor other))
               (patch self ?= patch other))
        (compare_prerelease (prerelease self) (prerelease other)).

(** ** Comparators and ranges *)

Inductive Operator := Less | LessEqual | Equal | GreaterEqual | Greater.

Record Comparator := mkComparator { operator : Operator; operand : Version }.

Definition comparator_test (self : Comparator) (version : Version) : bool :=
  match operator self, compare version (operand self) with
  | Less, Lt => true
  | LessEqual, (Lt | Eq) => true
  | Equal, Eq => true
  | GreaterEqual, (Eq | Gt) => true
  | Greater, Gt => true
  | _, _ => false
  end.

Definition is_range_operand (text : str) : bool :=
  negb (text =s [])
  && forallb (fun byte => is_ascii_alphanumeric byte || (byte =? dash) || (byte =? plus)
                          || (byte =? dot) || (byte =r "*")) text.

(** Exactly three words, the middle one a dash. *)
Definition hyphen_bounds (range : str) : option (str * str) :=
  match split_ascii_whitespace range with
  | [l; d; r] =>
      if d =s [dash] then
        if is_range_operand l && is_range_operand r then Some (l, r) else None
      else None
  | _ => None
  end.

Definition split_simple (simple : str) : option (str * str) :=
  let operator_len :=
    if starts_with (lit "<=") simple || starts_with (lit ">=") simple then 2%nat
    else match simple with
         | b :: _ =>
             if (b =r "~") || (b =r "^") || (b =r "<") || (b =r ">") || (b =r "=") then 1%nat else 0%nat
         | [] => 0%nat
         end in
  let operator := take operator_len simple in
  let operand := drop operator_len simple in
  if is_range_operand operand then Some (operator, operand) else None.

Record PartialVersion := mkPartial {
  version : Version;
  major_is_wildcard : bool;
  minor_is_wildcard : bool;
  patch_is_wildcard : bool
}.

(** [text.is_none_or(is_wildcard)] and [text.and_then(numeric_component).unwrap_or(0)]. *)
Definition wildcard_or_missing (text : option str) : bool :=
  match text with Some t => is_wildcard t | None => true end.
Definition component (text : option str) : Z :=
  match text with
  | Some t => match numeric_component t with Some n => n | None => 0 end
  | None => 0
  end.

Definition bad_component (text : option str) : bool :=
  match text with
  | Some t => negb (is_wildcard t) && negb (bool_decide (is_Some (numeric_component t)))
  | None => false
  end.
Definition bad_qualifier (text : option str) : bool :=
  match text with
  | Some q => (q =s []) || negb (forallb (fun byte => is_identifier_byte byte || (byte =? dot)) q)
  | None => false
  end.

Definition parse_partial (text : str) : option PartialVersion :=
  let '(core, prerelease, build) := split_qualifiers text in
  match split_byte dot core with
  | [] => None
  | major_text :: rest =>
      let minor_text := rest !! 0%nat in
      let patch_text := rest !! 1%nat in
      if negb (bool_decide (rest !! 2%nat = None)) then None else
      if bool_decide (patch_text = None)
         && (bool_decide (is_Some prerelease) || bool_decide (is_Some build)) then None else
      if bad_component (Some major_text) || bad_component minor_text || bad_component patch_text then None else
      if bad_qualifier prerelease || bad_qualifier build then None else
      let major_is_wildcard := is_wildcard major_text in
      let minor_is_wildcard := wildcard_or_missing minor_text in
      let patch_is_wildcard := wildcard_or_missing patch_text in
      let v :=
        if major_is_wildcard then release 0 0 0
        else if minor_is_wildcard then release (component (Some major_text)) 0 0
        else if patch_is_wildcard then release (component (Some major_text)) (component minor_text) 0
        else release (component (Some major_text)) (component minor_text) (component patch_text) in
      let v :=
        match prerelease with
        | Some prerelease => mkVersion (major v) (minor v) (patch v) (split_byte dot prerelease)
        | None => v
        end in
      Some (mkPartial v major_is_wildcard minor_is_wildcard patch_is_wildcard)
  end.

Definition parse_hyphen (ltext rtext : str) : option (list Comparator) :=
  l ← parse_partial ltext;
  r ← parse_partial rtext;
  let lower :=
    if major_is_wildcard l then [] else [mkComparator GreaterEqual (version l)] in
  let upper :=
    if major_is_wildcard r then []
    else if minor_is_wildcard r then [mkComparator Less (increment_major (version r))]
    else if patch_is_wildcard r then [mkComparator Less (increment_minor (version r))]
    else [mkComparator LessEqual (version r)] in
  Some (lower ++ upper).

(** The arms of the [match operator] of [parse_comparator]. *)
Definition tilde_range (p : PartialVersion) : list Comparator :=
  let upper :=
    if minor_is_wildcard p then increment_major (version p) else increment_minor (version p) in
  [mkComparator GreaterEqual (version p); mkComparator Less upper].

Definition caret_range (p : PartialVersion) : list Comparator :=
  let v := version p in
  let upper :=
    if (0 <? major v) || minor_is_wildcard p then increment_major v
    else if (0 <? minor v) || patch_is_wildcard p then increment_minor v
    else increment_patch v in
  [mkComparator GreaterEqual v; mkComparator Less upper].

Definition lower_range (op : str) (p : PartialVersion) : list Comparator :=
  let any_wildcard := minor_is_wildcard p || patch_is_wildcard p in
  let operand := if any_wildcard then with_prerelease_zero (version p) else version p in
  [mkComparator (if op =s lit "<" then Less else GreaterEqual) operand].

Definition upper_range (op : str) (p : PartialVersion) : list Comparator :=
  let inclusive_upper := op =s lit "<=" in
  if minor_is_wildcard p then
    [mkComparator (if inclusive_upper then Less else GreaterEqual)
                  (with_prerelease_zero (increment_major (version p)))]
  else if patch_is_wildcard p then
    [mkComparator (if inclusive_upper then Less else GreaterEqual)
                  (with_prerelease_zero (increment_minor (version p)))]
  else [mkComparator (if inclusive_upper then LessEqual else Greater) (version p)].

Definition equal_range (p : PartialVersion) : list Comparator :=
  if minor_is_wildcard p || patch_is_wildcard p then
    let upper :=
      if minor_is_wildcard p then increment_major (version p) else increment_minor (version p) in
    [mkComparator GreaterEqual (with_prerelease_zero (version p));
     mkComparator Less (with_prerelease_zero upper)]
  else [mkComparator Equal (version p)].

Definition operator_range (op : str) (p : PartialVersion) : list Comparator :=
  if op =s lit "~" then tilde_range p
  else if op =s lit "^" then caret_range p
  else if (op =s lit "<") || (op =s lit ">=") then lower_range op p
  else if (op =s lit "<=") || (op =s lit ">") then upper_range op p
  else equal_range p.

Definition parse_comparator (op operand : str) : option (list Comparator) :=
  p ← parse_partial operand;
  if major_is_wildcard p then
    Some (if (op =s lit "<") || (op =s lit ">")
          then [mkComparator Less (with_prerelease_zero (release 0 0 0))] else [])
  else
    Some (operator_range op p).

(** An empty disjunction or an empty set matches every version. *)
Record VersionRange := mkRange { alternatives : list (list Comparator) }.

(** The comparators of the simple ranges of one alternative. *)
Fixpoint parse_simples (simples : list str) : option (list Comparator) :=
  match simples with
  | [] => Some []
  | simple :: rest =>
      '(op, operand) ← split_simple simple;
      cs ← parse_comparator op operand;
      more ← parse_simples rest;
      Some (cs ++ more)
  end.

Definition parse_alternative (range : str) : option (list Comparator) :=
  match hyphen_bounds range with
  | Some (l, r) => parse_hyphen l r
  | None => parse_simples (split_ascii_whitespace range)
  end.

Fixpoint parse_alternatives (ranges : list str) : option (list (list Comparator)) :=
  match ranges with
  | [] => Some []
  | range :: rest =>
      let range := trim range in
      if range =s [] then parse_alternatives rest
      else
        comparators ← parse_alternative range;
        more ← parse_alternatives rest;
        Some (comparators :: more)
  end.

Definition parse_range (text : str) : option VersionRange :=
  alts ← parse_alternatives (split_str (lit "||") (trim text));
  Some (mkRange alts).

Definition range_test (self : VersionRange) (version : Version) : bool :=
  bool_decide (alternatives self = [])
  || existsb (fun comparators => forallb (fun c => comparator_test c version) comparators)
             (alternatives self).

(** The cases of the source's unit tests. *)
Definition matches (range version : str) : option bool :=
  r ← parse_range range; v ← parse version; Some (range_test r v).

Example unit_tests :
  (matches (lit ">=4") (lit "7.0.2"), matches (lit "<4") (lit "7.0.2"), matches (lit "*") (lit "7.0.2"),
   matches (lit "7") (lit "7.0.2"), matches (lit "7.1") (lit "7.0.2"), matches (lit "^7.0.0") (lit "7.0.2"),
   matches (lit "~7.0") (lit "7.0.2"), matches (lit ">7.0") (lit "7.0.2"), matches (lit "<=7.0") (lit "7.0.2"),
   matches (lit "<5.0 || >=7.0") (lit "7.0.2"), matches (lit "6.0 - 7.0") (lit "7.0.2"),
   matches (lit "6.0 - 6.9") (lit "7.0.2"), matches (lit ">=7.0.2") (lit "7.0.2-dev"),
   matches (lit ">=7.0") (lit "7.0.2-dev"))
  = (Some true, Some false, Some true, Some true, Some false, Some true, Some true, Some false, Some true,
     Some true, Some true, Some false, Some false, Some true)
  /\ (parse_range (lit ">= 4"), parse_range (lit "latest"), parse_range (lit "01.2")) = (None, None, None).
Proof. vm_compute. done. Qed.

(** ** The order of versions *)

Lemma is_numeric_identifier_spec s : is_numeric_identifier s = true <-> numeral s.
Proof.
  unfold is_numeric_identifier, numeral, is_digits.
  rewrite !andb_true_iff, orb_true_iff, !negb_true_iff, str_eqb_spec.
  unfold str_eqb. rewrite bool_decide_eq_false. tauto.
Qed.

(** What an identifier is ordered by: a number below every word. *)
Definition identifier_key (s : str) : Z + str :=
  if is_numeric_identifier s then inl (value s) else inr s.

Lemma identifier_key_inj : Inj (=) (=) identifier_key.
Proof.
  intros a b. unfold identifier_key.
  destruct (is_numeric_identifier a) eqn:Ha, (is_numeric_identifier b) eqn:Hb; try congruence.
  intros [= E]. apply value_inj; [by apply is_numeric_identifier_spec..|done].
Qed.

Lemma compare_prerelease_identifier_key a b :
  compare_prerelease_identifier a b = compare_sum Z.compare str_compare (identifier_key a) (identifier_key b).
Proof.
  unfold compare_prerelease_identifier. destruct (a =s b) eqn:E.
  { apply str_eqb_spec in E as ->. symmetry. by apply tc_eq. }
  unfold identifier_key.
  destruct (is_numeric_identifier a) eqn:Ha, (is_numeric_identifier b) eqn:Hb; try done. simpl.
  apply is_numeric_identifier_spec in Ha, Hb.
  rewrite <- numeral_compare by done.
  destruct Ha as (Ha & Ha' & _), Hb as (Hb & Hb' & _).
  rewrite !from_str_radix_value by done. by repeat case_split.
Qed.

#[export] Instance identifier_total : TotalCompare compare_prerelease_identifier.
Proof.
  pose proof (total_inj identifier_key (compare_sum Z.compare str_compare) identifier_key_inj) as [H1 H2 H3].
  split; intros *; rewrite !compare_prerelease_identifier_key; [apply H1|apply H2|apply H3].
Qed.

Lemma compare_identifiers_list a b :
  compare_identifiers a b = compare_list compare_prerelease_identifier a b.
Proof.
  revert b; induction a as [|x a IH]; intros [|y b]; simpl; try done. rewrite IH.
  by destruct (compare_prerelease_identifier x y).
Qed.

#[export] Instance unit_total : TotalCompare (fun _ _ : unit => Eq).
Proof. split; [by intros [] []|done..]. Qed.

(** A release follows all its prereleases. *)
Definition prerelease_key (l : list str) : list str + unit :=
  match l with [] => inr tt | _ => inl l end.

Lemma compare_prerelease_key a b :
  compare_prerelease a b
  = compare_sum (compare_list compare_prerelease_identifier) (fun _ _ => Eq) (prerelease_key a) (prerelease_key b).
Proof. destruct a, b; try done. unfold compare_prerelease. by rewrite compare_identifiers_list. Qed.

#[export] Instance prerelease_total : TotalCompare compare_prerelease.
Proof.
  assert (Inj (=) (=) prerelease_key) as Hi by (intros [] []; naive_solver).
  pose proof (total_inj prerelease_key
    (compare_sum (compare_list compare_prerelease_identifier) (fun _ _ => Eq)) Hi) as [H1 H2 H3].
  split; intros *; rewrite !compare_prerelease_key; [apply H1|apply H2|apply H3].
Qed.

(** The order is lexicographic on the four fields. *)
Definition version_key (v : Version) : Z * Z * Z * list str := (major v, minor v, patch v, prerelease v).

Lemma compare_key v w :
  compare v w
  = compare_pair (compare_pair (compare_pair Z.compare Z.compare) Z.compare) compare_prerelease
      (version_key v) (version_key w).
Proof. done. Qed.

#[export] Instance version_total : TotalCompare compare.
Proof.
  assert (Inj (=) (=) version_key) as Hi by (intros [] [] [=]; by subst).
  pose proof (total_inj version_key
    (compare_pair (compare_pair (compare_pair Z.compare Z.compare) Z.compare) compare_prerelease) Hi) as [H1 H2 H3].
  split; intros *; rewrite !compare_key; [apply H1|apply H2|apply H3].
Qed.

(** Membership in the half-open interval of two comparators. *)
Lemma interval_test lo hi v :
  comparator_test (mkComparator GreaterEqual lo) v && (comparator_test (mkComparator Less hi) v && true) = true
  <-> compare v lo <> Lt /\ compare v hi = Lt.
Proof.
  simpl. unfold comparator_test; simpl. rewrite andb_true_r, andb_true_iff.
  split; intros [H1 H2]; destruct (compare v lo), (compare v hi); try done; by split.
Qed.

Lemma compare_lt v w :
  compare v w = Lt <->
  major v < major w \/ (major v = major w /\
    (minor v < minor w \/ (minor v = minor w /\
      (patch v < patch w \/ (patch v = patch w /\ compare_prerelease (prerelease v) (prerelease w) = Lt))))).
Proof.
  unfold compare, then_.
  destruct (Z.compare_spec (major v) (major w)); [|split; [by left|done]|split; [done|lia]].
  destruct (Z.compare_spec (minor v) (minor w)); [|split; [intros; right; split; [done|by left]|done]|split; [done|lia]].
  destruct (Z.compare_spec (patch v) (patch w)).
  - split; [intros ?; repeat (right; split; [done|])|]; intuition lia.
  - split; [intros _; lia|done].
  - split; [done|lia].
Qed.

(** ** Printing and parsing back *)

(** The text of a version with build metadata [build], none when empty. *)
Definition core_text (v : Version) : str :=
  join [dot] [render 10 (major v); render 10 (minor v); render 10 (patch v)].
Definition qualifier_text (mark : Z) (ids : list str) : str :=
  match ids with [] => [] | _ => mark :: join [dot] ids end.
Definition to_text (v : Version) (build : list str) : str :=
  core_text v ++ qualifier_text dash (prerelease v) ++ qualifier_text plus build.

Definition in_u32 (n : Z) : Prop := 0 <= n <= u32_max.
Definition valid (v : Version) : Prop :=
  in_u32 (major v) /\ in_u32 (minor v) /\ in_u32 (patch v)
  /\ Forall (fun id => is_prerelease_identifier id = true) (prerelease v).
Definition valid_build (build : list str) : Prop :=
  Forall (fun part => part <> [] /\ forallb is_identifier_byte part = true) build.

Lemma digits_no b n : is_ascii_digit b = false -> 0 <= n -> contains_byte b (render 10 n) = false.
Proof. intros Hb Hn. eapply contains_byte_class; [exact Hb|]. apply (render_numeral n Hn). Qed.

Lemma numeric_component_render n : in_u32 n -> numeric_component (render 10 n) = Some n.
Proof.
  unfold in_u32. intros Hn. destruct (render_numeral n) as [Hnum _]; [lia|].
  unfold numeric_component. rewrite (proj2 (is_numeric_identifier_spec _) Hnum). by apply from_str_render.
Qed.

Lemma prerelease_identifier_bytes id :
  is_prerelease_identifier id = true -> forallb is_identifier_byte id = true.
Proof.
  unfold is_prerelease_identifier. rewrite orb_true_iff. intros [H|H].
  - apply is_numeric_identifier_spec in H as [Hd _]. unfold is_digits in Hd.
    rewrite forallb_forall in *. intros x Hx. unfold is_identifier_byte, is_ascii_alphanumeric.
    by rewrite (Hd x Hx).
  - destruct id; [done|]. by bools.
Qed.

Lemma identifiers_no b ids :
  is_identifier_byte b = false -> Forall (fun id => forallb is_identifier_byte id = true) ids ->
  Forall (fun id => contains_byte b id = false) ids.
Proof. intros Hb Hf. eapply Forall_impl; [exact Hf|]. intros id. by apply contains_byte_class. Qed.

Lemma core_text_no b v :
  is_ascii_digit b = false -> b <> dot -> in_u32 (major v) -> in_u32 (minor v) -> in_u32 (patch v) ->
  contains_byte b (core_text v) = false.
Proof.
  unfold in_u32. intros Hb Hd H1 H2 H3. apply contains_byte_join; [simpl; unfold dot in *; lia|].
  repeat constructor; apply digits_no; done || lia.
Qed.

Lemma prerelease_bytes v : valid v -> Forall (fun id => forallb is_identifier_byte id = true) (prerelease v).
Proof. intros (_ & _ & _ & H). eapply Forall_impl; [exact H|]. intros id. apply prerelease_identifier_bytes. Qed.

Lemma qualifier_text_no b mark ids :
  is_identifier_byte b = false -> b <> mark -> b <> dot ->
  Forall (fun id => forallb is_identifier_byte id = true) ids ->
  contains_byte b (qualifier_text mark ids) = false.
Proof.
  intros Hb Hm Hd Hids. destruct ids as [|i ids]; [done|].
  change (contains_byte b (qualifier_text mark (i :: ids)))
    with ((b =? mark) || contains_byte b (join [dot] (i :: ids))).
  rewrite contains_byte_join; [lia|simpl; lia|]. by apply identifiers_no.
Qed.

Definition qualifier (ids : list str) : option str :=
  match ids with [] => None | _ => Some (join [dot] ids) end.

Lemma split_qualifiers_to_text v build :
  valid v -> valid_build build ->
  split_qualifiers (to_text v build) = (core_text v, qualifier (prerelease v), qualifier build).
Proof.
  intros Hv Hb. pose proof (prerelease_bytes v Hv) as Hp. destruct Hv as (H1 & H2 & H3 & _).
  assert (contains_byte plus (core_text v ++ qualifier_text dash (prerelease v)) = false) as Hplus.
  { rewrite contains_byte_app, core_text_no, qualifier_text_no by done. done. }
  assert (contains_byte dash (core_text v) = false) as Hdash by by apply core_text_no.
  assert (forall build' : option str, match split_once dash (core_text v ++ qualifier_text dash (prerelease v)) with
    | Some (core, pre) => (core, Some pre, build')
    | None => (core_text v ++ qualifier_text dash (prerelease v), None, build')
    end = (core_text v, qualifier (prerelease v), build')) as Hhead.
  { intros build'. destruct (prerelease v) as [|i ids]; cbn [qualifier_text qualifier].
    - rewrite app_nil_r, split_once_none by done. done.
    - rewrite split_once_app by done. done. }
  unfold split_qualifiers, to_text. rewrite app_assoc.
  destruct build as [|i ids]; cbn [qualifier_text qualifier].
  - rewrite app_nil_r, split_once_none by done. apply Hhead.
  - rewrite split_once_app by done. apply Hhead.
Qed.

Lemma split_core v :
  in_u32 (major v) -> in_u32 (minor v) -> in_u32 (patch v) ->
  split_byte dot (core_text v) = [render 10 (major v); render 10 (minor v); render 10 (patch v)].
Proof.
  unfold in_u32. intros. apply split_byte_join; [done|]. repeat constructor; apply digits_no; done || lia.
Qed.

Lemma count_byte_split b s : S (count_byte b s) = length (split_byte b s).
Proof.
  unfold count_byte. induction s as [|x s IH]; [done|]. simpl.
  destruct (split_byte_cons b s) as (w & ws & E). rewrite E in *.
  rewrite filter_cons. destruct (Z.eqb_spec x b); case_decide; try done; simpl in *; lia.
Qed.

Lemma split_ids ids :
  ids <> [] -> Forall (fun id => forallb is_identifier_byte id = true) ids ->
  split_byte dot (join [dot] ids) = ids.
Proof. intros Hne Hids. apply split_byte_join; [done|]. by apply identifiers_no. Qed.

(** C3 Parsing the text of a valid version, with or without prerelease
    identifiers and build metadata, gives the version back. *)
Theorem parse_to_text v build : valid v -> valid_build build -> parse (to_text v build) = Some v.
Proof.
  intros Hv Hb. unfold parse. rewrite split_qualifiers_to_text by done.
  pose proof (prerelease_bytes v Hv) as Hp. destruct Hv as (H1 & H2 & H3 & H4).
  rewrite split_core by done. simpl. do 3 (rewrite numeric_component_render by done; simpl).
  pose proof (count_byte_split dot (core_text v)) as Hc. rewrite split_core in Hc by done.
  simpl in Hc. injection Hc as ->. simpl.
  assert (match qualifier (prerelease v) with
    | Some text =>
        if forallb is_prerelease_identifier (split_byte dot text) then Some (split_byte dot text) else None
    | None => Some [] end = Some (prerelease v)) as ->.
  { destruct (prerelease v) as [|i ids] eqn:E; cbn [qualifier]; [done|].
    rewrite split_ids by done. by rewrite (proj2 (forallb_Forall _ _) H4). }
  simpl. destruct build as [|i ids]; cbn [qualifier]; [by destruct v|].
  rewrite split_ids; [|done|eapply Forall_impl; [exact Hb|by intros ? [? ?]]].
  rewrite (proj2 (forallb_Forall _ _)); [by destruct v|].
  eapply Forall_impl; [exact Hb|]. intros part [Hne ->]. rewrite andb_true_r.
  by destruct part.
Qed.

(** ** What ranges accept *)

(** The numbers of a partial version, one to three of them. *)
Definition numbers_text (ns : list Z) : str := join [dot] (map (render 10) ns).

Lemma is_wildcard_render n : in_u32 n -> is_wildcard (render 10 n) = false.
Proof.
  unfold in_u32. intros Hn. destruct (render_numeral n) as [(Hd & _) _]; [lia|].
  unfold is_wildcard. destruct (_ || _) eqn:E; [|done].
  rewrite !orb_true_iff, !str_eqb_spec in E. by destruct E as [[E|E]|E]; rewrite E in Hd.
Qed.

Lemma numbers_text_split ns :
  ns <> [] -> Forall in_u32 ns ->
  split_qualifiers (numbers_text ns) = (numbers_text ns, None, None)
  /\ split_byte dot (numbers_text ns) = map (render 10) ns.
Proof.
  intros Hne Hns.
  assert (forall b, is_ascii_digit b = false ->
    Forall (fun w => contains_byte b w = false) (map (render 10) ns)) as Hno.
  { intros b Hb. apply Forall_map. eapply Forall_impl; [exact Hns|]. unfold in_u32; simpl.
    intros n Hn. apply digits_no; [done|lia]. }
  split.
  - unfold split_qualifiers, numbers_text.
    rewrite split_once_none by (apply contains_byte_join; [done|by apply Hno]).
    rewrite split_once_none by (apply contains_byte_join; [done|by apply Hno]). done.
  - apply split_byte_join; [by destruct ns|by apply Hno].
Qed.

Definition missing (o : option Z) : bool := match o with Some _ => false | None => true end.
Definition default_zero (o : option Z) : Z := match o with Some n => n | None => 0 end.

Lemma bad_component_render (o : option Z) :
  (forall n, o = Some n -> in_u32 n) -> bad_component (render 10 <$> o) = false.
Proof.
  intros Ho. destruct o as [n|]; [|done]. specialize (Ho n eq_refl). simpl.
  by rewrite is_wildcard_render, numeric_component_render.
Qed.

Lemma wildcard_or_missing_render (o : option Z) :
  (forall n, o = Some n -> in_u32 n) -> wildcard_or_missing (render 10 <$> o) = missing o.
Proof.
  intros Ho. destruct o as [n|]; [|done]. specialize (Ho n eq_refl). simpl. by rewrite is_wildcard_render.
Qed.

Lemma component_render (o : option Z) :
  (forall n, o = Some n -> in_u32 n) -> component (render 10 <$> o) = default_zero o.
Proof.
  intros Ho. destruct o as [n|]; [|done]. specialize (Ho n eq_refl). simpl. by rewrite numeric_component_render.
Qed.

Lemma parse_partial_numbers n ns :
  Forall in_u32 (n :: ns) -> (length ns <= 2)%nat ->
  parse_partial (numbers_text (n :: ns))
  = Some (mkPartial (release n (default_zero (ns !! 0%nat)) (default_zero (ns !! 1%nat)))
            false (missing (ns !! 0%nat)) (missing (ns !! 1%nat))).
Proof.
  intros Hns Hl. unfold parse_partial.
  destruct (numbers_text_split (n :: ns)) as [-> ->]; [done|done|].
  apply Forall_cons in Hns as [Hn Hns].
  assert (forall i k, ns !! i = Some k -> in_u32 k) as Hi by (intros i k; by apply Forall_lookup_1).
  cbn [map]. rewrite !list_lookup_fmap.
  assert (ns !! 2%nat = None) as -> by (by apply lookup_ge_None).
  change (Some (render 10 n)) with (render 10 <$> Some n).
  rewrite (bad_component_render (Some n)) by congruence.
  rewrite !bad_component_render, !wildcard_or_missing_render by apply Hi.
  rewrite (component_render (Some n)), !component_render by (apply Hi || congruence).
  rewrite is_wildcard_render by done. simpl.
  rewrite andb_false_r. simpl. do 2 f_equal.
  destruct ns as [|? [|? []]]; done.
Qed.

(** Which versions a comparator text accepts. *)
Definition accepts (op text : str) (v : Version) : option bool :=
  cs ← parse_comparator op text; Some (forallb (fun c => comparator_test c v) cs).

Lemma accepts_numbers op n ns v :
  Forall in_u32 (n :: ns) -> (length ns <= 2)%nat ->
  accepts op (numbers_text (n :: ns)) v
  = Some (forallb (fun c => comparator_test c v)
      (operator_range op
         (mkPartial (release n (default_zero (ns !! 0%nat)) (default_zero (ns !! 1%nat)))
            false (missing (ns !! 0%nat)) (missing (ns !! 1%nat))))).
Proof. intros H1 H2. unfold accepts, parse_comparator. by rewrite parse_partial_numbers. Qed.

(** Versions read as triples of numbers. *)
Definition triple_le (a b c : Z) (v : Version) : Prop :=
  a < major v \/ (a = major v /\ (b < minor v \/ (b = minor v /\ c <= patch v))).

Lemma release_ge a b c v :
  prerelease v = [] -> compare v (release a b c) <> Lt <-> triple_le a b c v.
Proof. intros Hp. rewrite compare_lt, Hp. unfold triple_le. simpl. intuition (lia || congruence). Qed.

Lemma release_lt a b c v :
  prerelease v = [] -> compare v (release a b c) = Lt <-> ~ triple_le a b c v.
Proof. intros Hp. rewrite compare_lt, Hp. unfold triple_le. simpl. intuition (lia || congruence). Qed.

(** The prerelease [0] is below every other prerelease and the release. *)
Lemma prerelease_zero_least pre : compare_prerelease pre [lit "0"] <> Lt.
Proof.
  destruct pre as [|x xs]; [done|].
  cbn [compare_prerelease compare_identifiers]. rewrite compare_prerelease_identifier_key.
  assert (identifier_key (lit "0") = inl 0) as -> by done. unfold identifier_key.
  destruct (is_numeric_identifier x) eqn:E; [|done]. cbn [compare_sum].
  apply is_numeric_identifier_spec in E as (Hd & _).
  pose proof (value_from_mono 0 x Hd). unfold value.
  destruct (Z.compare_spec (value_from 0 x) 0); [by destruct xs|lia|done].
Qed.

Lemma with_zero_lt a b c v :
  compare v (with_prerelease_zero (release a b c)) = Lt <-> ~ triple_le a b c v.
Proof.
  rewrite compare_lt. unfold triple_le. simpl. pose proof (prerelease_zero_least (prerelease v)).
  intuition lia.
Qed.

Definition below_max (n : Z) : Prop := 0 <= n < u32_max.

Lemma below_max_in_u32 n : below_max n -> in_u32 n.
Proof. unfold below_max, in_u32. lia. Qed.

Lemma wrap_below_max n : below_max n -> wrap_u32 (n + 1) = n + 1.
Proof. unfold below_max. intros. apply wrap_u32_small. lia. Qed.

Lemma Some_true_iff (b : bool) : Some b = Some true <-> b = true.
Proof. split; congruence. Qed.

(** *** A range of one word *)

(** The bytes no separator of ranges is made of. *)
Definition word_byte (b : Z) : bool := between 33 126 b && negb (b =? 124).

Lemma drop_while_head f x l : f x = false -> drop_while f (x :: l) = x :: l.
Proof. intros H. simpl. by rewrite H. Qed.

Lemma encode_all_ascii s : Forall (fun b => 0 <= b < 128) s -> encode_all s = s.
Proof.
  induction 1 as [|b s Hb _ IH]; [done|]. change (encode_all (b :: s)) with (encode b ++ encode_all s). rewrite IH.
  unfold encode. by replace (b <? 0x80) with true by lia.
Qed.

Lemma trim_word s : forallb word_byte s = true -> trim s = s.
Proof.
  intros H. rewrite forallb_Forall in H.
  assert (Forall (fun b => 0 <= b < 128) s) as Ha.
  { eapply Forall_impl; [exact H|]. unfold word_byte. intros; bools; lia. }
  assert (Forall (fun b => is_whitespace b = false) s) as Hw.
  { eapply Forall_impl; [exact H|]. unfold word_byte, is_whitespace. intros; bools; lia. }
  assert (forall l, Forall (fun b => is_whitespace b = false) l -> drop_while is_whitespace l = l) as Hd.
  { intros l. by destruct 1; [|apply drop_while_head]. }
  assert (chars s = s) as Hc.
  { rewrite <- (encode_all_ascii s Ha) at 1. apply chars_encode_all. eapply Forall_impl; [exact Ha|].
    cbv beta. intros b Hb. unfold scalar. lia. }
  unfold trim. rewrite Hc, (Hd s Hw), (Hd (rev s)) by (by apply Forall_rev). by rewrite rev_involutive, encode_all_ascii.
Qed.

Lemma split_bars_word s : forallb word_byte s = true -> split_str (lit "||") s = [s].
Proof.
  unfold split_str. induction s as [|b s IH]; [done|]. cbn [forallb]. intros [Hb Hs]%andb_true_iff.
  cbn [split_str_go]. assert (starts_with (lit "||") (b :: s) = false) as ->; [|by rewrite IH].
  unfold word_byte in Hb. change (lit "||") with [124; 124]. cbn [starts_with]. bools. by destruct (Z.eqb_spec 124 b); [lia|].
Qed.

Lemma ascii_words_word s : s <> [] -> forallb word_byte s = true -> split_ascii_whitespace s = [s].
Proof.
  intros Hne H. assert (ascii_words s = [s]) as E.
  { clear Hne. induction s as [|b s IH]; [done|]. cbn [forallb] in H. apply andb_true_iff in H as [Hb Hs].
    cbn [ascii_words]. rewrite IH by done. unfold word_byte, is_ascii_whitespace in *; bools.
    by replace (_ || _) with false by lia. }
  unfold split_ascii_whitespace. rewrite E. by rewrite filter_cons_True.
Qed.

Lemma parse_range_word s :
  s <> [] -> forallb word_byte s = true ->
  parse_range s = '(op, operand) ← split_simple s; cs ← parse_comparator op operand; Some (mkRange [cs]).
Proof.
  intros Hne H. unfold parse_range. rewrite trim_word, split_bars_word by done. cbn [parse_alternatives].
  rewrite trim_word by done. assert ((s =s []) = false) as -> by (by destruct s).
  unfold parse_alternative, hyphen_bounds. rewrite ascii_words_word by done. cbn [parse_simples].
  destruct (split_simple s) as [[op operand]|]; [|done]. cbn [mbind option_bind].
  destruct (parse_comparator op operand); [|done]. cbn [mbind option_bind]. by rewrite app_nil_r.
Qed.

(** The bytes of the numbers of a partial version. *)
Lemma numbers_bytes ns :
  Forall in_u32 ns -> forallb (fun b => is_ascii_digit b || (b =? dot)) (numbers_text ns) = true.
Proof.
  unfold numbers_text. induction 1 as [|n ns Hn Hns IH]; [done|]. cbn [map join].
  assert (forallb (fun b => is_ascii_digit b || (b =? dot)) (render 10 n) = true) as Hr.
  { unfold in_u32 in Hn. destruct (render_numeral n) as [(Hd & _) _]; [lia|]. unfold is_digits in Hd.
    rewrite forallb_Forall in Hd |- *. eapply Forall_impl; [exact Hd|]. by intros b ->. }
  destruct (map (render 10) ns); [done|]. rewrite !forallb_app, Hr. cbn [forallb]. rewrite IH. done.
Qed.

Lemma split_caret t : split_simple (lit "^" ++ t) = if is_range_operand t then Some (lit "^", t) else None.
Proof. done. Qed.

(** A caret and numbers, parsed as a range and tested. *)
Lemma caret_range_test n ns v :
  Forall in_u32 (n :: ns) -> (length ns <= 2)%nat ->
  exists r, parse_range (lit "^" ++ numbers_text (n :: ns)) = Some r
    /\ accepts (lit "^") (numbers_text (n :: ns)) v = Some (range_test r v).
Proof.
  intros Hns Hl. pose proof (numbers_bytes _ Hns) as Hb.
  assert (numbers_text (n :: ns) <> []) as Hne.
  { intros E. pose proof (parse_partial_numbers n ns Hns Hl) as H. by rewrite E in H. }
  rewrite parse_range_word; [|done|].
  - rewrite split_caret. assert (is_range_operand (numbers_text (n :: ns)) = true) as Ho.
    { unfold is_range_operand. rewrite andb_true_iff, negb_true_iff, forallb_Forall. split; [by apply bool_decide_eq_false|].
      rewrite forallb_Forall in Hb. eapply Forall_impl; [exact Hb|]. unfold is_ascii_alphanumeric, is_ascii_digit, between, dot.
      intros; zlia. }
    rewrite Ho. unfold accepts, parse_comparator. cbn [mbind option_bind].
    rewrite parse_partial_numbers by done. cbn [mbind option_bind major_is_wildcard]. eexists. split; [done|].
    unfold range_test. cbn [alternatives existsb]. by rewrite orb_false_r.
  - cbn [app lit forallb]. rewrite forallb_Forall in Hb. apply andb_true_iff. split; [done|]. rewrite forallb_Forall.
    eapply Forall_impl; [exact Hb|]. unfold word_byte, is_ascii_digit, dot. intros; bools; lia.
Qed.

(** C21 The text [^a.b.c] of three [u32] numbers parses as a range, and the
    range accepts a release exactly when it is not below [a.b.c] and agrees
    with it up to its leftmost non-zero number, provided that number (the last
    one where all are zero) is below the largest [u32]. *)
Theorem caret_accepts a b c v :
  in_u32 a -> in_u32 b -> in_u32 c -> (if 0 <? a then a else if 0 <? b then b else c) < u32_max ->
  valid v -> prerelease v = [] ->
  exists r, parse_range (lit "^" ++ numbers_text [a; b; c]) = Some r
  /\ (range_test r v = true <->
      triple_le a b c v
      /\ (if 0 <? a then major v = a
          else if 0 <? b then major v = a /\ minor v = b
          else major v = a /\ minor v = b /\ patch v = c)).
Proof.
  intros Ha Hb Hc Hmax (V1 & V2 & V3 & _) Hp. assert (Forall in_u32 [a; b; c]) as Hns by (by rewrite !Forall_cons, Forall_nil).
  destruct (caret_range_test a [b; c] v Hns ltac:(simpl; lia)) as (r & Hr & Hacc). exists r. split; [exact Hr|].
  rewrite accepts_numbers in Hacc by (done || simpl; lia). injection Hacc as <-.
  change (operator_range (lit "^")) with caret_range.
  unfold caret_range, increment_major, increment_minor, increment_patch; simpl. rewrite !orb_false_r.
  unfold in_u32 in *.
  destruct (0 <? a) eqn:Ea; [|destruct (0 <? b) eqn:Eb]; rewrite wrap_below_max by (unfold below_max; lia).
  all: rewrite interval_test, release_ge, release_lt by done; unfold triple_le; lia.
Qed.

(** [~a.b] and [~a.b.c] accept a release exactly when it is not below the
    bound and has the same major and minor numbers. *)
Theorem tilde_accepts a b ns v :
  below_max a -> below_max b -> Forall in_u32 ns -> (length ns <= 1)%nat -> valid v -> prerelease v = [] ->
  accepts (lit "~") (numbers_text (a :: b :: ns)) v = Some true <->
  triple_le a b (default_zero (ns !! 0%nat)) v /\ major v = a /\ minor v = b.
Proof.
  intros Ha Hb Hns Hl (V1 & V2 & V3 & _) Hp.
  rewrite accepts_numbers; [|repeat constructor; try done; by apply below_max_in_u32|simpl; lia].
  rewrite Some_true_iff. change (operator_range (lit "~")) with tilde_range.
  unfold tilde_range, increment_minor; simpl. rewrite !wrap_below_max by done.
  unfold below_max, in_u32 in *. rewrite interval_test, release_ge, release_lt by done.
  unfold triple_le; lia.
Qed.

(** The x-ranges [a] and [a.b] accept exactly the versions, prereleases
    included, that begin with those numbers. *)
Theorem xrange_accepts a ns v :
  below_max a -> Forall below_max ns -> (length ns <= 1)%nat -> valid v ->
  accepts (lit "") (numbers_text (a :: ns)) v = Some true <->
  major v = a /\ (forall b, ns !! 0%nat = Some b -> minor v = b).
Proof.
  intros Ha Hns Hl (V1 & V2 & V3 & _).
  rewrite accepts_numbers; [|constructor; [by apply below_max_in_u32|]; eapply Forall_impl; [exact Hns|apply below_max_in_u32]|lia].
  rewrite Some_true_iff. change (operator_range (lit "")) with equal_range.
  assert (ns !! 1%nat = None) as -> by (by apply lookup_ge_None).
  unfold equal_range; simpl. rewrite orb_true_r.
  cbn [forallb]. rewrite interval_test. unfold below_max, in_u32 in *.
  destruct ns as [|b [|]]; simpl in *; [| |lia];
    unfold increment_major, increment_minor; simpl.
  - rewrite wrap_below_max, !with_zero_lt by done. unfold triple_le.
    split; [intros; split; [lia|done]|lia].
  - apply Forall_cons in Hns as [Hb _]. rewrite wrap_below_max, !with_zero_lt by done.
    unfold triple_le, below_max in *. split.
    + intros. split; [lia|]. intros ? [= <-]. lia.
    + intros [H1 H2]. specialize (H2 b eq_refl). lia.
Qed.

(** C22 [Version::compare] is a total order in which only equal versions
    compare equal. *)
Theorem compare_total_order u v w :
  (compare u v = Eq <-> u = v)
  /\ compare v u = CompOpp (compare u v)
  /\ (compare u v = Lt -> compare v w = Lt -> compare u w = Lt).
Proof. split_and!; [apply tc_eq|apply tc_antisym|apply tc_trans]. Qed.

Lemma compare_total_order_witness :
  compare (mkVersion 1 0 0 [lit "alpha"; lit "2"]) (mkVersion 1 0 0 [lit "alpha"; lit "10"]) = Lt
  /\ compare (mkVersion 1 0 0 [lit "alpha"; lit "2"]) (release 1 0 0) = Lt.
Proof.
  split; [done|].
  apply (compare_total_order _ (mkVersion 1 0 0 [lit "alpha"; lit "10"])); by vm_compute.
Defined.

(** Prerelease identifiers compare as numbers when both are numerals, of
    any size, as byte strings when neither is, and a numeral is below a word:
    the fallback for numerals beyond [u32] is not observable. *)
Theorem identifier_order a b :
  compare_prerelease_identifier a b
  = match is_numeric_identifier a, is_numeric_identifier b with
    | true, true => value a ?= value b
    | true, false => Lt
    | false, true => Gt
    | false, false => str_compare a b
    end.
Proof.
  rewrite compare_prerelease_identifier_key. unfold identifier_key. by repeat case_split.
Qed.

Lemma parse_to_text_witness :
  parse (to_text (mkVersion 7 0 2 [lit "dev"; lit "20260101"]) [lit "x-1"])
  = Some (mkVersion 7 0 2 [lit "dev"; lit "20260101"]).
Proof.
  apply (parse_to_text (mkVersion 7 0 2 [lit "dev"; lit "20260101"]) [lit "x-1"]).
  - split_and!; try (unfold below_max, in_u32, u32_max; simpl; lia). by repeat constructor.
  - by repeat constructor.
Defined.

Lemma caret_accepts_witness :
  exists r, parse_range (lit "^0.2.4294967295") = Some r
    /\ range_test r (release 0 2 u32_max) = true /\ range_test r (release 0 2 9) = false.
Proof.
  destruct (caret_accepts 0 2 u32_max (release 0 2 u32_max)) as (r & Hr & H).
  all: try (unfold in_u32, u32_max; simpl; lia).
  - split_and!; [unfold in_u32, u32_max; simpl; lia..|by repeat constructor].
  - done.
  - change (lit "^" ++ numbers_text [0; 2; u32_max]) with (lit "^0.2.4294967295") in Hr.
    exists r. split; [exact Hr|]. split; [apply H; split; [unfold triple_le; simpl; lia|done]|].
    assert (option_map (fun r => range_test r (release 0 2 9)) (parse_range (lit "^0.2.4294967295")) = Some false) as E
      by (vm_compute; reflexivity). rewrite Hr in E. by injection E.
Defined.

Lemma tilde_accepts_witness :
  accepts (lit "~") (numbers_text [7; 1]) (release 7 1 4) = Some true.
Proof.
  apply (tilde_accepts 7 1 [] (release 7 1 4)).
  all: try (unfold below_max, in_u32, u32_max; simpl; lia).
  - constructor.
  - split_and!; [unfold in_u32, u32_max; simpl; lia..|by repeat constructor].
  - done.
  - unfold triple_le; simpl. lia.
Defined.

Lemma xrange_accepts_witness :
  accepts (lit "") (numbers_text [7; 0]) (mkVersion 7 0 2 [lit "dev"]) = Some true.
Proof.
  apply (xrange_accepts 7 [0] (mkVersion 7 0 2 [lit "dev"])).
  - unfold below_max, u32_max; lia.
  - repeat constructor; unfold u32_max; lia.
  - simpl. lia.
  - split_and!; [unfold in_u32, u32_max; simpl; lia..|by repeat constructor].
  - split; [done|]. intros b Hb. by simplify_eq/=.
Defined.

(** C25 The increment of the largest [u32] wraps around: a caret range with the
    largest major number accepts no release, its own base version included. *)
Theorem caret_overflow b c v :
  in_u32 b -> in_u32 c -> valid v -> prerelease v = [] ->
  accepts (lit "^") (numbers_text [u32_max; b; c]) v = Some false.
Proof.
  intros Hb Hc (V1 & V2 & V3 & _) Hp.
  rewrite accepts_numbers; [|repeat first [done|apply Forall_cons; split|constructor]; unfold in_u32, u32_max; lia|simpl; lia].
  f_equal. apply not_true_is_false.
  change (operator_range (lit "^")) with caret_range.
  assert (forall l h, caret_range (mkPartial (release u32_max b c) false l h)
          = [mkComparator GreaterEqual (release u32_max b c); mkComparator Less (release 0 0 0)]) as ->
    by (intros l h; unfold caret_range; cbn; done).
  cbn [forallb]. rewrite interval_test.
  intros [_ H]. apply release_lt in H; [|done]. apply H. unfold triple_le, in_u32 in *. lia.
Qed.

Lemma caret_overflow_witness :
  accepts (lit "^") (numbers_text [u32_max; 0; 0]) (release u32_max 0 0) = Some false.
Proof.
  apply (caret_overflow 0 0 (release u32_max 0 0)); try (unfold in_u32, u32_max; simpl; lia).
  - split_and!; [unfold in_u32, u32_max; simpl; lia..|by repeat constructor].
  - done.
Defined.

End Semver.
