(* ===== verification/LineIndex.v ===== *)
(** * Line and column lookup (crates/surge-ts-diagnostics/src/line_index.rs)

    The index of line starts, its queries by binary search, and the linear
    scans the unit tests of the source compare them with. *)

From S2P Require Import Prelude Utf8.

Local Open Scope nat_scope.

Definition newline : Z := 10.

(** [s.char_indices()]. *)
Fixpoint char_offsets (i : nat) (cs : list Z) : list (nat * Z) :=
  match cs with
  | [] => []
  | c :: cs => (i, c) :: char_offsets (i + length (encode c)) cs
  end.
Definition char_indices (s : str) : list (nat * Z) := char_offsets 0 (chars s).

(** [partition_point] of a slice whose elements satisfying [f] come first, and
    the number of elements [take_while] keeps. *)
Fixpoint partition_point {A} (f : A -> bool) (l : list A) : nat :=
  match l with
  | [] => 0
  | x :: l => if f x then S (partition_point f l) else 0
  end.

Module LineIndex.

Record t := mk { line_starts : list nat }.

(** The loop of [new] from the byte index [i]. *)
Fixpoint starts_after (i : nat) (bytes : str) : list nat :=
  match bytes with
  | [] => []
  | byte :: bytes =>
      if (byte =? newline)%Z then (i + 1) :: starts_after (i + 1) bytes
      else starts_after (i + 1) bytes
  end.

Definition new (source_text : str) : t := mk (0 :: starts_after 0 source_text).

Definition line_col (self : t) (source_text : str) (offset : nat) : result (nat * nat) :=
  let target := offset `min` length source_text in
  let line_number := partition_point (fun start => start <=? target) (line_starts self) in
  line_start ← unwrap (line_starts self !! (line_number - 1));
  text ← unwrap (slice_from source_text line_start);
  let column :=
    partition_point (fun '(byte_index, _) => line_start + byte_index <? target) (char_indices text) + 1 in
  Ok (line_number, column).

Definition line_bounds (self : t) (source_text : str) (offset : nat) : result (nat * nat) :=
  let target := offset `min` length source_text in
  let line_number := partition_point (fun start => start <=? target) (line_starts self) in
  line_start ← unwrap (line_starts self !! (line_number - 1));
  let line_end :=
    match line_starts self !! line_number with
    | Some next_start => next_start - 1
    | None => length source_text
    end in
  Ok (line_start, line_end).

Definition line_text (self : t) (source_text : str) (offset : nat) : result str :=
  '(line_start, line_end) ← line_bounds self source_text offset;
  unwrap (slice source_text line_start line_end).

(** ** The linear scans of the tests *)

Fixpoint naive_col_loop (target line column : nat) (cs : list (nat * Z)) : nat * nat :=
  match cs with
  | [] => (line, column)
  | (byte_index, ch) :: cs =>
      if target <=? byte_index then (line, column)
      else if (ch =? newline)%Z then naive_col_loop target (line + 1) 1 cs
      else naive_col_loop target line (column + 1) cs
  end.

Definition naive_line_col (source_text : str) (offset : nat) : nat * nat :=
  naive_col_loop (offset `min` length source_text) 1 1 (char_indices source_text).

Fixpoint naive_start_loop (target line_start : nat) (cs : list (nat * Z)) : nat :=
  match cs with
  | [] => line_start
  | (byte_index, ch) :: cs =>
      if target <=? byte_index then line_start
      else if (ch =? newline)%Z then naive_start_loop target (byte_index + length (encode ch)) cs
      else naive_start_loop target line_start cs
  end.

Fixpoint naive_end_loop (line_start line_end : nat) (cs : list (nat * Z)) : nat :=
  match cs with
  | [] => line_end
  | (byte_index, ch) :: cs =>
      if (ch =? newline)%Z then line_start + byte_index else naive_end_loop line_start line_end cs
  end.

Definition naive_line_bounds (source_text : str) (offset : nat) : result (nat * nat) :=
  let target := offset `min` length source_text in
  let line_start := naive_start_loop target 0 (char_indices source_text) in
  text ← unwrap (slice_from source_text line_start);
  Ok (line_start, naive_end_loop line_start (length source_text) (char_indices text)).

(** ** Line starts by character *)

Abbreviation scalars cs := (Forall (fun c => scalar c = true) cs).

Lemma starts_after_app i a b :
  starts_after i (a ++ b) = starts_after i a ++ starts_after (i + length a) b.
Proof.
  revert i; induction a as [|x a IH]; intros i; simpl; [by rewrite Nat.add_0_r|].
  rewrite IH. replace (i + 1 + length a) with (i + S (length a)) by lia. by case_split.
Qed.

Lemma starts_after_none i s : Forall (fun b => b <> newline) s -> starts_after i s = [].
Proof.
  revert i; induction s as [|b s IH]; intros i Hs; [done|]. apply Forall_cons in Hs as [Hb Hs].
  simpl. destruct (Z.eqb_spec b newline); [done|]. by apply IH.
Qed.

Lemma encode_no_newline c : scalar c = true -> c <> newline -> Forall (fun b => b <> newline) (encode c).
Proof.
  unfold scalar, encode, newline. intros Hs Hc. bools. if_split; repeat constructor; zlia.
Qed.

Lemma starts_after_cons i c cs :
  scalar c = true ->
  starts_after i (encode_all (c :: cs))
  = if (c =? newline)%Z then (i + 1) :: starts_after (i + 1) (encode_all cs)
    else starts_after (i + length (encode c)) (encode_all cs).
Proof.
  intros Hc. change (encode_all (c :: cs)) with (encode c ++ encode_all cs).
  rewrite starts_after_app. destruct (Z.eqb_spec c newline) as [->|Hne]; [done|].
  by rewrite starts_after_none by (by apply encode_no_newline).
Qed.

Lemma starts_after_above i s : Forall (fun start => i < start) (starts_after i s).
Proof.
  revert i; induction s as [|b s IH]; intros i; simpl; [constructor|].
  assert (Forall (fun start => i < start) (starts_after (i + 1) s)).
  { eapply Forall_impl; [apply IH|]. simpl; lia. }
  case_split; [constructor; [lia|done]|done].
Qed.

Lemma partition_none {A} (f : A -> bool) l : Forall (fun x => f x = false) l -> partition_point f l = 0.
Proof. destruct 1 as [|x l Hx]; simpl; [done|]. by rewrite Hx. Qed.

Lemma partition_le {A} (f : A -> bool) l : partition_point f l <= length l.
Proof. induction l as [|x l IH]; simpl; [done|]. case_split; lia. Qed.

Lemma partition_offsets target st i cs :
  partition_point (fun '(byte_index, _) => st + byte_index <? target) (char_offsets i cs)
  = partition_point (fun '(byte_index, _) => byte_index <? target) (char_offsets (st + i) cs).
Proof.
  revert i; induction cs as [|c cs IH]; intros i; simpl; [done|].
  case_split; [|done]. by rewrite IH, Nat.add_assoc.
Qed.

(** The scan from a position is the query on the starts after it: [st] is the
    start of the line of [target] and [rest] the text from it. *)
Lemma locate target cs : scalars cs -> forall i line column ls,
  let starts := starts_after i (encode_all cs) in
  let m := partition_point (fun start => start <=? target) starts in
  exists st rest,
    scalars rest /\ i <= st /\ st - i <= length (encode_all cs) /\
    drop (st - i) (encode_all cs) = encode_all rest /\
    starts_after st (encode_all rest) = drop m starts /\
    (if m =? 0 then st = i /\ rest = cs else starts !! (m - 1) = Some st) /\
    naive_col_loop target line column (char_offsets i cs)
    = (line + m, (if m =? 0 then column else 1)
                 + partition_point (fun '(byte_index, _) => byte_index <? target) (char_offsets st rest)) /\
    naive_start_loop target ls (char_offsets i cs) = (if m =? 0 then ls else st).
Proof.
  induction 1 as [|c cs Hc Hcs IH]; intros i line column ls starts m; subst starts m.
  { exists i, []. rewrite Nat.sub_diag. simpl. split_and!; (done || constructor || (f_equal; lia)). }
  cbn [char_offsets naive_col_loop naive_start_loop].
  rewrite starts_after_cons by done.
  change (encode_all (c :: cs)) with (encode c ++ encode_all cs).
  destruct (target <=? i) eqn:Et.
  { exists i, (c :: cs).
    assert (partition_point (fun start => start <=? target)
      (if (c =? newline)%Z then (i + 1) :: starts_after (i + 1) (encode_all cs)
       else starts_after (i + length (encode c)) (encode_all cs)) = 0) as ->.
    { rewrite <- starts_after_cons by done. apply partition_none.
      eapply Forall_impl; [apply starts_after_above|]. simpl; lia. }
    rewrite Nat.sub_diag, starts_after_cons by done. simpl.
    replace (i <? target) with false by lia.
    split_and!; try done; try lia; [by constructor|f_equal; lia]. }
  destruct (Z.eqb_spec c newline) as [->|Hne].
  - destruct (IH (i + 1) (line + 1) 1 (i + 1)) as (st & rest & H1 & H2 & H3 & H4 & H5 & H6 & H7 & H8).
    change (length (encode newline)) with 1.
    cbn [partition_point]. replace (i + 1 <=? target) with true by lia.
    set (m := partition_point _ (starts_after (i + 1) _)) in *.
    exists st, rest. rewrite H7, H8.
    replace (S m - 1) with m by lia. change (S m =? 0) with false. cbn iota.
    split_and!; try done; try lia.
    + simpl. lia.
    + replace (st - i) with (S (st - (i + 1))) by lia. exact H4.
    + destruct (m =? 0) eqn:Em.
      * destruct H6 as [-> _]. by replace m with 0 by lia.
      * rewrite lookup_cons_ne_0 by lia. rewrite <- H6. f_equal. lia.
    + f_equal; [lia|]. by destruct (m =? 0).
    + destruct (m =? 0); [by destruct H6 as [-> _]|done].
  - pose proof (encode_length c).
    destruct (IH (i + length (encode c)) line (column + 1) ls) as (st & rest & H1 & H2 & H3 & H4 & H5 & H6 & H7 & H8).
    set (m := partition_point _ (starts_after (i + length (encode c)) _)) in *.
    destruct (m =? 0) eqn:Em.
    + destruct H6 as [-> ->]. exists i, (c :: cs). rewrite Nat.sub_diag, starts_after_cons by done.
      replace (c =? newline)%Z with false by (symmetry; by apply Z.eqb_neq).
      replace m with 0 in * by lia. rewrite H7, H8.
      split_and!; try done; try lia; [by constructor|].
      cbn [char_offsets partition_point]. replace (i <? target) with true by lia. f_equal; lia.
    + exists st, rest. split_and!; try done; [lia|rewrite length_app; lia|].
      replace (st - i) with (length (encode c) + (st - (i + length (encode c)))) by lia.
      rewrite <- drop_drop, drop_app_length. done.
Qed.

(** [locate] at the start of the text, for the queries of the index. *)
Lemma locate_text s offset :
  utf8 s ->
  let target := offset `min` length s in
  let line_number := partition_point (fun start => start <=? target) (line_starts (new s)) in
  exists st rest,
    scalars rest /\ drop st s = encode_all rest /\ st <= length s /\ 0 < line_number /\
    line_starts (new s) !! (line_number - 1) = Some st /\
    drop line_number (line_starts (new s)) = starts_after st (encode_all rest) /\
    naive_line_col s offset
    = (line_number, 1 + partition_point (fun '(byte_index, _) => byte_index <? target) (char_offsets st rest)) /\
    naive_start_loop target 0 (char_indices s) = st.
Proof.
  intros (cs & Hcs & ->). cbv zeta. set (s := encode_all cs). set (target := offset `min` length s).
  destruct (locate target cs Hcs 0 1 1 0) as (st & rest & H1 & H2 & H3 & H4 & H5 & H6 & H7 & H8).
  unfold naive_line_col, char_indices. fold target.
  replace (chars s) with cs by (symmetry; by apply chars_encode_all). cbn [line_starts new partition_point].
  fold s in H3, H4, H5, H6, H7, H8. rewrite Nat.sub_0_r in *.
  set (m := partition_point _ (starts_after 0 s)) in *.
  change (0 <=? target) with true. cbn iota.
  exists st, rest. split_and!; try done; try lia.
  - replace (S m - 1) with m by lia. destruct (m =? 0) eqn:Em.
    + destruct H6 as [-> _]. by replace m with 0 by lia.
    + rewrite lookup_cons_ne_0 by lia. rewrite <- H6. f_equal. lia.
  - rewrite H7. by destruct (m =? 0).
  - rewrite H8. destruct (m =? 0); [by destruct H6 as [-> _]|done].
Qed.

Lemma drop_encoded_boundary s st rest :
  scalars rest -> drop st s = encode_all rest -> st <= length s -> is_char_boundary s st = true.
Proof. intros Hr Hd Hle. apply boundary_drop; [rewrite Hd; by exists rest|done]. Qed.

(** C20 The indexed line and column of every offset, past the end included, are
    those of the linear scan; no index or slice of the query panics. *)
Theorem line_col_naive s offset : utf8 s -> line_col (new s) s offset = Ok (naive_line_col s offset).
Proof.
  intros Hs. destruct (locate_text s offset Hs) as (st & rest & H1 & H2 & H3 & H4 & H5 & H6 & H7 & _).
  unfold line_col. rewrite H5, H7. simpl. unfold slice_from.
  rewrite (drop_encoded_boundary s st rest), H2 by done. simpl. unfold char_indices.
  rewrite chars_encode_all, partition_offsets, Nat.add_0_r by done. do 2 f_equal. lia.
Qed.

Definition sample : str := lit "a한" ++ [newline; 98%Z].

Lemma line_col_naive_witness :
  line_col (new sample) sample 99 = Ok (naive_line_col sample 99) /\ naive_line_col sample 99 = (2, 2).
Proof.
  split; [|by vm_compute]. apply (line_col_naive sample 99).
  exists [97; 54620; 10; 98]%Z. split; [by repeat constructor|by vm_compute].
Defined.

(** The first newline of the text after a line start. *)
Lemma naive_end_starts i cs le :
  scalars cs -> naive_end_loop i le (char_offsets 0 cs)
  = match starts_after i (encode_all cs) with [] => le | next :: _ => next - 1 end.
Proof.
  intros Hcs.
  enough (forall k, naive_end_loop i le (char_offsets k cs)
    = match starts_after (i + k) (encode_all cs) with [] => le | next :: _ => next - 1 end) as H.
  { by rewrite H, Nat.add_0_r. }
  induction Hcs as [|c cs Hc Hcs IH]; intros k; [done|].
  rewrite starts_after_cons by done. cbn [char_offsets naive_end_loop].
  case_split; [lia|]. rewrite IH. by rewrite Nat.add_assoc.
Qed.

(** C23 The bounds of the line of every offset are those of the linear scan. *)
Theorem line_bounds_naive s offset :
  utf8 s -> exists bounds, line_bounds (new s) s offset = Ok bounds /\ naive_line_bounds s offset = Ok bounds.
Proof.
  intros Hs. destruct (locate_text s offset Hs) as (st & rest & H1 & H2 & H3 & H4 & H5 & H6 & _ & H8).
  unfold line_bounds, naive_line_bounds. rewrite H5, H8. unfold slice_from.
  rewrite (drop_encoded_boundary s st rest), H2 by done. cbn [unwrap mbind result_bind]. eexists. split; [done|].
  unfold char_indices. rewrite chars_encode_all, naive_end_starts by done.
  rewrite <- H6. set (n := partition_point _ _). set (l := line_starts (new s)).
  assert (l !! n = drop n l !! 0) as -> by (by rewrite lookup_drop, Nat.add_0_r). by destruct (drop n l).
Qed.

Lemma line_bounds_naive_witness :
  exists bounds, line_bounds (new (lit "ab")) (lit "ab") 7 = Ok bounds
    /\ naive_line_bounds (lit "ab") 7 = Ok bounds.
Proof. apply (line_bounds_naive (lit "ab") 7). by apply asciib_utf8. Defined.

(** ** The text of a line *)

Lemma starts_after_head i bytes :
  match starts_after i bytes with
  | [] => (newline ∉ bytes)
  | next :: _ => exists a b, bytes = a ++ newline :: b /\ (newline ∉ a) /\ next = i + length a + 1
  end.
Proof.
  revert i; induction bytes as [|x bytes IH]; intros i; simpl; [by apply not_elem_of_nil|].
  destruct (Z.eqb_spec x newline) as [->|Hne].
  - exists [], bytes. split_and!; [done|by apply not_elem_of_nil|simpl; lia].
  - specialize (IH (i + 1)). destruct (starts_after (i + 1) bytes) as [|next l].
    + rewrite not_elem_of_cons. by split.
    + destruct IH as (a & b & -> & Ha & ->). exists (x :: a), b.
      split_and!; [done|by rewrite not_elem_of_cons|simpl; lia].
Qed.

Lemma starts_after_elem i bytes x :
  x ∈ starts_after i bytes -> exists k, x = i + k + 1 /\ bytes !! k = Some newline.
Proof.
  revert i; induction bytes as [|b bytes IH]; intros i; simpl; [by intros ?%not_elem_of_nil|].
  intros Hx. assert (x ∈ starts_after (i + 1) bytes \/ x = i + 1 /\ b = newline) as [H|[-> ->]].
  { destruct (Z.eqb_spec b newline); [apply elem_of_cons in Hx as [->|]; [by right|by left]|by left]. }
  - destruct (IH _ H) as (k & -> & Hk). exists (S k). split; [lia|done].
  - exists 0. split; [lia|done].
Qed.

Lemma partition_below {A} (f : A -> bool) l i x : i < partition_point f l -> l !! i = Some x -> f x = true.
Proof.
  revert i; induction l as [|y l IH]; intros i; simpl; [lia|].
  destruct (f y) eqn:E; [|lia]. intros Hi Hx. destruct i; [by simplify_eq/=|]. apply (IH i); [lia|done].
Qed.

Lemma partition_at {A} (f : A -> bool) l x : l !! partition_point f l = Some x -> f x = false.
Proof.
  induction l as [|y l IH]; simpl; [done|]. destruct (f y) eqn:E; simpl; [done|]. by intros [= <-].
Qed.

(** [t] is the line of [s] at byte [target]. *)
Definition is_line_at (s : str) (target : nat) (t : str) : Prop :=
  exists pre post, s = pre ++ t ++ post /\ (newline ∉ t)
    /\ (pre = [] \/ last pre = Some newline) /\ (post = [] \/ head post = Some newline)
    /\ length pre <= target <= length pre + length t.

(** The line text of every offset is the maximal newline-free segment of the
    source around it, and a valid string. *)
Theorem line_text_spec s offset :
  utf8 s ->
  returns (line_text (new s) s offset) (fun t => is_line_at s (offset `min` length s) t /\ utf8 t).
Proof.
  intros Hs. destruct (locate_text s offset Hs) as (st & rest & H1 & H2 & H3 & H4 & H5 & H6 & _ & _).
  unfold line_text, line_bounds. set (target := offset `min` length s) in *.
  set (n := partition_point _ _) in *. set (l := line_starts (new s)) in *.
  pose proof (drop_encoded_boundary s st rest H1 H2 H3) as Hst.
  assert (st <= target) as Hlo.
  { assert ((st <=? target) = true); [|lia].
    apply (partition_below (fun start => start <=? target) l (n - 1)); [fold n; lia|done]. }
  assert (take st s = [] \/ last (take st s) = Some newline) as Hpre.
  { destruct (decide (st = 0)) as [->|Hne]; [by left|right].
    apply list_elem_of_lookup_2, elem_of_cons in H5 as [|Hin]; [done|].
    apply starts_after_elem in Hin as (k & -> & Hk). simpl in *.
    rewrite Nat.add_1_r, (take_S_r _ _ _ Hk), last_snoc. done. }
  rewrite H5. cbn [unwrap mbind result_bind].
  assert (l !! n = head (starts_after st (drop st s))) as ->.
  { rewrite H2, <- H6. rewrite <- (Nat.add_0_r n) at 1. rewrite <- lookup_drop. by destruct (drop n l). }
  pose proof (starts_after_head st (drop st s)) as Hh.
  destruct (starts_after st (drop st s)) as [|next tl] eqn:Estarts; cbn [head].
  - rewrite (proj1 (slice_ok s st (length s) Hs H3 Hst (boundary_len s))). cbn [unwrap].
    rewrite take_ge by (rewrite length_drop; lia). split; [|rewrite H2; by exists rest].
    exists (take st s), []. rewrite app_nil_r, take_drop, length_take, length_drop.
    split_and!; try done; [by left|lia..].
  - destruct Hh as (a & b & Hab & Ha & ->). replace (st + length a + 1 - 1) with (st + length a) by lia.
    assert (s !! (st + length a) = Some newline) as Hnl.
    { rewrite <- lookup_drop, Hab, lookup_app_r by lia. by rewrite Nat.sub_diag. }
    pose proof (boundary_ascii _ _ _ Hnl ltac:(done)) as Hend.
    destruct (slice_ok s st (st + length a) Hs ltac:(lia) Hst Hend) as [-> Hu]. cbn [unwrap].
    rewrite Hab in Hu |- *. replace (st + length a - st) with (length a) in Hu |- * by lia.
    rewrite take_app_length in Hu |- *. split; [|done].
    exists (take st s), (newline :: b). rewrite <- Hab, take_drop, length_take.
    split_and!; try done; [by right|lia|].
    assert (l !! n = Some (st + length a + 1)) as Hat.
    { rewrite <- (Nat.add_0_r n). rewrite <- lookup_drop, H6, <- H2, Estarts. done. }
    apply partition_at in Hat. lia.
Qed.

Lemma line_text_spec_witness :
  line_text (new sample) sample 2 = Ok (lit "a한")
  /\ returns (line_text (new sample) sample 2) (fun t => is_line_at sample (2 `min` length sample) t /\ utf8 t).
Proof.
  split; [by vm_compute|]. apply (line_text_spec sample 2).
  exists [97; 54620; 10; 98]%Z. split; [by repeat constructor|by vm_compute].
Defined.

(** ** Positions determine offsets *)

Definition before (p q : nat * nat) : Prop := p.1 < q.1 \/ (p.1 = q.1 /\ p.2 < q.2).

Lemma naive_col_ge target line column cs :
  let p := naive_col_loop target line column cs in line < p.1 \/ (line = p.1 /\ column <= p.2).
Proof.
  revert line column; induction cs as [|[i c] cs IH]; intros line column; simpl; [lia|].
  case_split; [simpl; lia|]. case_split.
  - specialize (IH (line + 1) 1). simpl in IH. lia.
  - specialize (IH line (column + 1)). simpl in IH. lia.
Qed.

Lemma naive_col_before a b cs :
  scalars cs -> forall i line column,
  i <= a -> a - i < length (encode_all cs) -> is_char_boundary (encode_all cs) (a - i) = true -> a < b ->
  before (naive_col_loop a line column (char_offsets i cs)) (naive_col_loop b line column (char_offsets i cs)).
Proof.
  intros Hcs. induction Hcs as [|c cs Hc Hcs IH]; intros i line column Hi Hl Hb Hab; [simpl in *; lia|].
  cbn [char_offsets naive_col_loop]. replace (b <=? i) with false by lia.
  change (encode_all (c :: cs)) with (encode c ++ encode_all cs) in *. rewrite length_app in Hl.
  destruct (a <=? i) eqn:Ea.
  - unfold before; simpl. case_split.
    + pose proof (naive_col_ge b (line + 1) 1 (char_offsets (i + length (encode c)) cs)). simpl in *. lia.
    + pose proof (naive_col_ge b line (column + 1) (char_offsets (i + length (encode c)) cs)). simpl in *. lia.
  - destruct (decide (a - i < length (encode c))) as [Hlt|Hge].
    { by rewrite boundary_inside in Hb by (done || lia). }
    rewrite boundary_app in Hb by lia. replace (a - i - length (encode c)) with (a - (i + length (encode c))) in Hb by lia.
    case_split; apply IH; done || lia.
Qed.

(** Line and column are strictly increasing on the character boundaries of
    the source: different positions are reported differently. *)
Theorem line_col_increasing s a b :
  utf8 s -> is_char_boundary s a = true -> a < b -> b <= length s ->
  exists p q, line_col (new s) s a = Ok p /\ line_col (new s) s b = Ok q /\ before p q.
Proof.
  intros Hs Ha Hab Hb.
  assert (forall o, o <= length s -> line_col (new s) s o = Ok (naive_col_loop o 1 1 (char_indices s))) as Heq.
  { intros o Ho. destruct (locate_text s o Hs) as (st & rest & H1 & H2 & H3 & H4 & H5 & H6 & H7 & _).
    unfold naive_line_col in H7. rewrite (Nat.min_l o) in H7 by done. rewrite H7.
    unfold line_col. rewrite H5. unfold slice_from. cbn [unwrap mbind result_bind].
    rewrite (drop_encoded_boundary s st rest), H2 by done. cbn [unwrap mbind result_bind]. unfold char_indices.
    rewrite chars_encode_all, partition_offsets, Nat.add_0_r, (Nat.min_l o) by done. do 2 f_equal. lia. }
  eexists _, _. split; [apply Heq; lia|]. split; [by apply Heq|].
  destruct Hs as (cs & Hcs & ->). unfold char_indices. rewrite chars_encode_all by done.
  apply naive_col_before; try done; [lia|lia|by rewrite Nat.sub_0_r].
Qed.


End LineIndex.
