(* ===== verification/PathMapping.v ===== *)
(** * Path mappings and path normalization (crates/surge-ts-config)

    [select_path_mapping_targets] of [src/mapping.rs] and
    [normalize_path_string] of [src/paths.rs]. A path is its text. *)

From S2P Require Import Prelude Utf8 RustStr.

Local Open Scope Z_scope.

Definition star : Z := 42.
Definition slash : Z := 47.
Definition backslash : Z := 92.
Definition colon : Z := 58.

(** ** Selecting a mapping *)

Record PathMapping := mkMapping { pattern : str; substitutions : list str }.

Definition single_star_parts (pattern : str) : option (str * str) :=
  first ← find_byte star pattern;
  if contains_byte star (drop (S first) pattern) then None
  else Some (take first pattern, drop (S first) pattern).

(** The first loop: an exact key. *)
Fixpoint exact_mapping (specifier : str) (mappings : list PathMapping) : option (list str) :=
  match mappings with
  | [] => None
  | mapping :: rest =>
      if negb (contains_byte star (pattern mapping)) && (pattern mapping =s specifier)
      then Some (substitutions mapping)
      else exact_mapping specifier rest
  end.

Definition pattern_matches (specifier prefix suffix : str) : bool :=
  negb ((length specifier <? length prefix + length suffix)%nat
        || negb (starts_with prefix specifier) || negb (ends_with suffix specifier)).

(** One round of the second loop. *)
Definition better_mapping (specifier : str) (best : option (nat * PathMapping * str)) (mapping : PathMapping)
    : result (option (nat * PathMapping * str)) :=
  match single_star_parts (pattern mapping) with
  | None => Ok best
  | Some (prefix, suffix) =>
      if negb (pattern_matches specifier prefix suffix) then Ok best
      else
        captured ← unwrap (slice specifier (length prefix) (length specifier - length suffix));
        let more_specific :=
          match best with
          | Some (best_prefix_len, _, _) => (best_prefix_len <? length prefix)%nat
          | None => true
          end in
        Ok (if more_specific then Some (length prefix, mapping, captured) else best)
  end.

Fixpoint best_mapping (specifier : str) (best : option (nat * PathMapping * str)) (mappings : list PathMapping)
    : result (option (nat * PathMapping * str)) :=
  match mappings with
  | [] => Ok best
  | mapping :: rest =>
      best ← better_mapping specifier best mapping;
      best_mapping specifier best rest
  end.

Definition substitute (captured : str) (substitutions : list str) : list str :=
  map (replace [star] captured) (filter (fun s => (count_byte star s <= 1)%nat) substitutions).

Definition select_path_mapping_targets (specifier : str) (mappings : list PathMapping)
    : result (option (list str)) :=
  match exact_mapping specifier mappings with
  | Some targets => Ok (Some targets)
  | None =>
      best ← best_mapping specifier None mappings;
      Ok (match best with
          | Some (_, mapping, captured) => Some (substitute captured (substitutions mapping))
          | None => None
          end)
  end.

(** ** Normalizing a path *)

(** One round of the loop over the segments. *)
Definition push_segment (anchored : bool) (segments : list str) (segment : str) : list str :=
  if (segment =s []) || (segment =s lit ".") then segments
  else if segment =s lit ".." then
    match last segments with
    | Some l => if l =s lit ".." then if anchored then segments else segments ++ [segment]
                else take (length segments - 1) segments
    | None => if anchored then segments else segments ++ [segment]
    end
  else segments ++ [segment].

Definition normalize_path_string (path : str) : result str :=
  let path := replace [backslash] [slash] path in
  let is_absolute := starts_with [slash] path in
  '(drive_letter, path_to_split) ←
    (if bool_decide (chars path !! 1%nat = Some colon) then
       drive ← unwrap (slice path 0 2);
       rest ← unwrap (slice_from path 2);
       Ok (drive, rest)
     else Ok ([], path));
  let anchored := is_absolute || negb (drive_letter =s []) in
  let segments := fold_left (push_segment anchored) (split_byte slash path_to_split) [] in
  let root :=
    if negb (drive_letter =s []) then
      drive_letter ++ (if starts_with [slash] path_to_split then [slash] else [])
    else if is_absolute then [slash] else [] in
  let result := root ++ join [slash] segments in
  Ok (if result =s [] then (if is_absolute then [slash] else lit ".") else result).

Example normalize_samples :
  map normalize_path_string [lit "/a/./b/../c"; lit "../x/.."; lit "c:\a\..\..\b"; lit "a/.."; lit "/.."; lit "./c:../x"]
  = [Ok (lit "/a/c"); Ok (lit ".."); Ok (lit "c:/b"); Ok (lit "."); Ok (lit "/"); Ok (lit "c:../x")].
Proof. vm_compute. done. Qed.

(** ** The winning mapping *)

Lemma single_star_parts_spec p pre suf :
  single_star_parts p = Some (pre, suf) ->
  p = pre ++ star :: suf /\ contains_byte star pre = false /\ contains_byte star suf = false.
Proof.
  unfold single_star_parts. destruct (find_byte star p) as [i|] eqn:E; simpl; [|done].
  case_split; [done|]. intros [= <- <-].
  apply position_spec in E as (x & Hx & Hs & Hlt). assert (x = star) as -> by lia.
  split_and!; [|destruct (contains_byte star (take i p)) eqn:Ec|done].
  - rewrite <- (drop_S _ _ _ Hx). by rewrite take_drop.
  - unfold contains_byte in Ec. apply existsb_exists in Ec as (y & Hy & Hyeq).
    apply list_elem_of_In, list_elem_of_lookup in Hy as [j Hj].
    apply lookup_take_Some in Hj as [Hj Hji]. specialize (Hlt j y Hji Hj). lia.
  - done.
Qed.

Lemma single_star_parts_utf8 p pre suf :
  utf8 p -> single_star_parts p = Some (pre, suf) -> utf8 pre /\ utf8 suf.
Proof.
  intros Hu Hp. apply single_star_parts_spec in Hp as (-> & _ & _).
  assert ((pre ++ star :: suf) !! length pre = Some star) as Hl
    by (rewrite lookup_app_r by lia; by rewrite Nat.sub_diag).
  pose proof (boundary_ascii _ _ _ Hl ltac:(done)) as Hb.
  pose proof (boundary_ascii_next _ _ _ Hu Hl ltac:(done)) as Hn.
  pose proof (proj1 (utf8_split _ _ Hu Hb)) as H1. rewrite take_app_length in H1.
  pose proof (proj2 (utf8_split _ _ Hu Hn)) as H2.
  rewrite cons_middle, app_assoc, drop_app_length' in H2 by (rewrite length_app; simpl; lia). done.
Qed.

Lemma pattern_matches_spec specifier pre suf :
  pattern_matches specifier pre suf = true <-> exists cap, specifier = pre ++ cap ++ suf.
Proof.
  unfold pattern_matches. rewrite negb_true_iff, !orb_false_iff, !negb_false_iff, starts_with_spec, ends_with_spec.
  split.
  - intros [[Hl [t ->]] [u Hu]]. rewrite length_app in Hl.
    assert (length u = length pre + (length t - length suf))%nat as Hlu.
    { apply (f_equal length) in Hu. rewrite !length_app in Hu. lia. }
    exists (take (length t - length suf) t).
    assert (drop (length t - length suf) t = suf) as Hd.
    { apply (f_equal (drop (length u))) in Hu. rewrite drop_app_length, Hlu, <- drop_drop, drop_app_length in Hu. done. }
    rewrite <- Hd at 2. by rewrite take_drop.
  - intros [cap ->]. rewrite !length_app. split_and!; [lia|by eexists|exists (pre ++ cap); by rewrite app_assoc].
Qed.

(** [m] is the pattern the specification selects among [mappings]: the first
    of those with the longest prefix. *)
Definition matching (specifier : str) (m : PathMapping) (pre cap suf : str) : Prop :=
  single_star_parts (pattern m) = Some (pre, suf) /\ specifier = pre ++ cap ++ suf.

Definition winner (specifier : str) (mappings : list PathMapping) (m : PathMapping) (n : nat) (cap : str) : Prop :=
  exists i pre suf, mappings !! i = Some m /\ matching specifier m pre cap suf /\ n = length pre
    /\ forall j m' pre' cap' suf', mappings !! j = Some m' -> matching specifier m' pre' cap' suf' ->
       (length pre' <= length pre)%nat /\ ((j < i)%nat -> (length pre' < length pre)%nat).

Definition best_is (specifier : str) (mappings : list PathMapping) (best : option (nat * PathMapping * str)) : Prop :=
  match best with
  | Some (n, m, cap) => winner specifier mappings m n cap
  | None => forall m pre cap suf, m ∈ mappings -> ~ matching specifier m pre cap suf
  end.

Lemma captured_slice specifier pre cap suf :
  utf8 specifier -> utf8 pre -> utf8 suf -> specifier = pre ++ cap ++ suf ->
  slice specifier (length pre) (length specifier - length suf) = Some cap.
Proof.
  intros Hu Hp Hs ->. rewrite !length_app.
  replace (length pre + (length cap + length suf) - length suf)%nat with (length pre + length cap)%nat by lia.
  assert (is_char_boundary (pre ++ cap ++ suf) (length pre) = true) as H1.
  { apply boundary_drop; [|rewrite length_app; lia]. rewrite drop_app_length. by apply (utf8_app_inv pre). }
  assert (is_char_boundary (pre ++ cap ++ suf) (length pre + length cap) = true) as H2.
  { apply boundary_drop; [|rewrite !length_app; lia].
    by rewrite <- drop_drop, drop_app_length, drop_app_length. }
  rewrite (proj1 (slice_ok (pre ++ cap ++ suf) (length pre) (length pre + length cap)%nat Hu ltac:(lia) H1 H2)).
  rewrite drop_app_length. replace (length pre + length cap - length pre)%nat with (length cap) by lia.
  by rewrite take_app_length.
Qed.

Lemma better_mapping_spec specifier done_ best m :
  utf8 specifier -> utf8 (pattern m) -> best_is specifier done_ best ->
  returns (better_mapping specifier best m) (best_is specifier (done_ ++ [m])).
Proof.
  intros Hu Hp Hbest. unfold better_mapping.
  assert ((forall pre cap suf, ~ matching specifier m pre cap suf) -> best_is specifier (done_ ++ [m]) best) as Hskip.
  { intros Hno. destruct best as [[[n b] c]|]; simpl in *.
    - destruct Hbest as (i & pre & suf & Hi & Hm & -> & Hall). exists i, pre, suf.
      split_and!; [by apply lookup_app_l_Some|done|done|]. intros j m' pre' cap' suf' Hj Hm'.
      apply lookup_app_Some in Hj as [Hj|[_ Hj]]; [by eapply Hall|].
      apply list_lookup_singleton_Some in Hj as [_ <-]. by apply Hno in Hm'.
    - intros m' pre cap suf Hin Hm'. apply elem_of_app in Hin as [Hin|Hin]; [by eapply Hbest|].
      apply list_elem_of_singleton in Hin as ->. by eapply Hno. }
  destruct (single_star_parts (pattern m)) as [[pre suf]|] eqn:Eparts.
  2: { apply Hskip. intros pre cap suf [H _]. congruence. }
  destruct (single_star_parts_utf8 _ _ _ Hp Eparts) as [Hpre Hsuf].
  destruct (pattern_matches specifier pre suf) eqn:Em; simpl.
  2: { apply Hskip. intros pre' cap suf' [H Heq]. rewrite Eparts in H. injection H as <- <-.
       assert (pattern_matches specifier pre suf = true) by (apply pattern_matches_spec; by eexists). congruence. }
  apply pattern_matches_spec in Em as [cap Hcap].
  rewrite (captured_slice specifier pre cap suf) by done. cbn [unwrap mbind result_bind returns].
  assert (forall pre' cap' suf', matching specifier m pre' cap' suf' -> pre' = pre) as Hpre'
    by (intros pre' cap' suf' [H _]; congruence).
  destruct best as [[[n b] c]|]; simpl in *.
  - destruct Hbest as (i & bpre & bsuf & Hi & Hm & -> & Hall).
    destruct (length bpre <? length pre)%nat eqn:E.
    + exists (length done_), pre, suf. split_and!; try done.
      { by rewrite lookup_app_r, Nat.sub_diag by lia. }
      intros j m' pre' cap' suf' Hj Hm'. apply lookup_app_Some in Hj as [Hj|[Hge Hj]].
      * destruct (Hall _ _ _ _ _ Hj Hm') as [? _]. lia.
      * apply list_lookup_singleton_Some in Hj as [? <-]. rewrite (Hpre' _ _ _ Hm'). lia.
    + exists i, bpre, bsuf. split_and!; [by apply lookup_app_l_Some|done|done|].
      intros j m' pre' cap' suf' Hj Hm'. apply lookup_app_Some in Hj as [Hj|[Hge Hj]].
      * by eapply Hall.
      * apply list_lookup_singleton_Some in Hj as [? <-]. rewrite (Hpre' _ _ _ Hm').
        apply lookup_lt_Some in Hi. lia.
  - exists (length done_), pre, suf. split_and!; try done.
    { by rewrite lookup_app_r, Nat.sub_diag by lia. }
    intros j m' pre' cap' suf' Hj Hm'. apply lookup_app_Some in Hj as [Hj|[Hge Hj]].
    + apply list_elem_of_lookup_2 in Hj. by apply Hbest in Hm'.
    + apply list_lookup_singleton_Some in Hj as [? <-]. rewrite (Hpre' _ _ _ Hm'). lia.
Qed.

Lemma best_mapping_spec specifier mappings done_ best :
  utf8 specifier -> Forall (fun m => utf8 (pattern m)) mappings -> best_is specifier done_ best ->
  returns (best_mapping specifier best mappings) (best_is specifier (done_ ++ mappings)).
Proof.
  intros Hu Hall. revert done_ best; induction Hall as [|m mappings Hm Hall IH]; intros done_ best Hbest; simpl.
  { by rewrite app_nil_r. }
  apply returns_bind. eapply returns_mono; [by apply better_mapping_spec|]. intros best' Hbest'.
  rewrite cons_middle, app_assoc. by apply IH.
Qed.

Definition exact (specifier : str) (m : PathMapping) : Prop :=
  contains_byte star (pattern m) = false /\ pattern m = specifier.

Lemma exact_mapping_spec specifier mappings :
  match exact_mapping specifier mappings with
  | Some targets =>
      exists before m after, mappings = before ++ m :: after /\ exact specifier m
        /\ targets = substitutions m /\ Forall (fun b => ~ exact specifier b) before
  | None => Forall (fun b => ~ exact specifier b) mappings
  end.
Proof.
  induction mappings as [|m mappings IH]; simpl; [constructor|].
  destruct (negb (contains_byte star (pattern m)) && (pattern m =s specifier)) eqn:E.
  - bools. apply str_eqb_spec in H0. exists [], m, mappings. by split_and!.
  - assert (~ exact specifier m) as Hm.
    { intros [H1 H2]. rewrite H1, H2, str_eqb_refl in E. done. }
    destruct (exact_mapping specifier mappings).
    + destruct IH as (before & m' & after & -> & H1 & H2 & H3). exists (m :: before), m', after.
      split_and!; try done. by constructor.
    + by constructor.
Qed.

(** C4 The selection never panics; it answers the substitutions of the first
    exact key if there is one, else those of the first of the matching patterns
    with the longest prefix, the captured text in place of their star, and
    nothing when no pattern matches. *)
Theorem select_path_mapping_targets_spec specifier mappings :
  utf8 specifier -> Forall (fun m => utf8 (pattern m)) mappings ->
  exists targets, select_path_mapping_targets specifier mappings = Ok targets /\
    ((exists before m after, mappings = before ++ m :: after /\ exact specifier m
        /\ Forall (fun b => ~ exact specifier b) before /\ targets = Some (substitutions m))
     \/ (Forall (fun b => ~ exact specifier b) mappings /\
         ((exists m n cap, winner specifier mappings m n cap
             /\ targets = Some (substitute cap (substitutions m)))
          \/ ((forall m pre cap suf, m ∈ mappings -> ~ matching specifier m pre cap suf) /\ targets = None)))).
Proof.
  intros Hu Hall. apply returns_iff. unfold select_path_mapping_targets.
  pose proof (exact_mapping_spec specifier mappings) as He.
  destruct (exact_mapping specifier mappings) as [targets|].
  - destruct He as (before & m & after & H1 & H2 & -> & H3). left. by exists before, m, after.
  - apply returns_bind. eapply returns_mono; [apply (best_mapping_spec specifier mappings [] None); [done|done|by intros ???? Hin%elem_of_nil]|].
    intros [[[n m] cap]|] Hbest; simpl; right; split; try done; [left|by right].
    by exists m, n, cap.
Qed.

Definition sample_mappings : list PathMapping :=
  [mkMapping (lit "@/*") [lit "fallback/*"]; mkMapping (lit "@/core/*") [lit "core/*"]].

Lemma select_path_mapping_targets_spec_witness :
  exists targets, select_path_mapping_targets (lit "@/core/value") sample_mappings = Ok targets
    /\ targets = Some [lit "core/value"].
Proof.
  destruct (select_path_mapping_targets_spec (lit "@/core/value") sample_mappings) as (targets & H & _).
  - by apply asciib_utf8.
  - repeat constructor; by apply asciib_utf8.
  - exists targets. split; [done|]. vm_compute in H. injection H as <-. done.
Defined.

Lemma replace_byte_none b captured s : contains_byte b s = false -> replace [b] captured s = s.
Proof.
  unfold contains_byte, replace. induction s as [|x s IH]; [done|].
  cbn [existsb replace_go starts_with]. intros H. bools.
  rewrite IH by done. destruct (Z.eqb_spec b x); [congruence|done].
Qed.

Lemma replace_byte b captured pre suf :
  contains_byte b pre = false -> contains_byte b suf = false ->
  replace [b] captured (pre ++ b :: suf) = pre ++ captured ++ suf.
Proof.
  intros Hpre Hsuf. revert Hpre. unfold contains_byte, replace. induction pre as [|x pre IH];
    cbn [app existsb replace_go starts_with length Nat.sub].
  - intros _. rewrite Z.eqb_refl. cbn [andb]. f_equal. by apply replace_byte_none.
  - intros H. bools. rewrite IH by done. destruct (Z.eqb_spec b x); [congruence|done].
Qed.

Lemma count_byte_none b s : contains_byte b s = false -> count_byte b s = 0%nat.
Proof.
  unfold contains_byte, count_byte. induction s as [|x s IH]; simpl; [done|]. intros H. bools.
  rewrite filter_cons_False by lia. auto.
Qed.

(** A pattern mapped to itself maps every specifier it matches to itself:
    the captured text is what the star stands for. *)
Theorem identity_mapping specifier m pre cap suf :
  utf8 specifier -> utf8 (pattern m) -> matching specifier m pre cap suf -> ~ exact specifier m ->
  substitutions m = [pattern m] ->
  select_path_mapping_targets specifier [m] = Ok (Some [specifier]).
Proof.
  intros Hu Hp [Hparts Hspec] Hne Hsub. destruct (single_star_parts_utf8 _ _ _ Hp Hparts) as [Hpre Hsuf].
  destruct (single_star_parts_spec _ _ _ Hparts) as (Hpat & H1 & H2).
  unfold select_path_mapping_targets, exact_mapping.
  replace (contains_byte star (pattern m)) with true.
  2: { rewrite Hpat, contains_byte_app. unfold contains_byte. simpl. by rewrite orb_true_r. }
  cbn [negb andb best_mapping]. unfold better_mapping. rewrite Hparts.
  rewrite (proj2 (pattern_matches_spec specifier pre suf)) by by eexists. cbn [negb].
  rewrite (captured_slice specifier pre cap suf) by done. cbn [unwrap mbind result_bind].
  rewrite Hsub. unfold substitute. rewrite filter_cons_True.
  2: { rewrite Hpat. unfold count_byte. rewrite filter_app, length_app.
       fold (count_byte star pre). rewrite filter_cons_True by done. cbn [length].
       fold (count_byte star suf). rewrite !count_byte_none by done. lia. }
  rewrite filter_nil. cbn [map]. by rewrite Hpat, replace_byte, Hspec.
Qed.

Lemma identity_mapping_witness :
  select_path_mapping_targets (lit "lib/x.ts") [mkMapping (lit "lib/*.ts") [lit "lib/*.ts"]]
  = Ok (Some [lit "lib/x.ts"]).
Proof.
  apply (identity_mapping _ _ (lit "lib/") (lit "x") (lit ".ts")); try (by apply asciib_utf8); try done.
  intros [? _]. done.
Defined.

(** ** What normalization promises *)

Definition unified (path : str) : str := replace [backslash] [slash] path.
Definition drive_free (path : str) : Prop := chars (unified path) !! 1%nat <> Some colon.

Definition rendered (absolute : bool) (segments : list str) : str :=
  let result := (if absolute then [slash] else []) ++ join [slash] segments in
  if result =s [] then (if absolute then [slash] else lit ".") else result.

Definition segments_of (absolute : bool) (path : str) : list str :=
  fold_left (push_segment absolute) (split_byte slash path) [].

Lemma normalize_drive_free path :
  drive_free path ->
  normalize_path_string path
  = Ok (rendered (starts_with [slash] (unified path)) (segments_of (starts_with [slash] (unified path)) (unified path))).
Proof.
  intros H. unfold normalize_path_string, rendered, segments_of, drive_free in *. cbv zeta.
  rewrite bool_decide_eq_false_2 by done. cbn [mbind result_bind]. cbn [str_eqb negb orb].
  fold (unified path). rewrite str_eqb_refl. cbn [negb]. by rewrite orb_false_r.
Qed.

(** A drive: one ASCII character and a colon. *)
Definition drive (d : str) : Prop := exists c, d = [c; colon] /\ 0 <= c < 128.

(** What follows the drive, normalized. *)
Definition rendered_below (rest : str) (segments : list str) : str :=
  (if starts_with [slash] rest then [slash] else []) ++ join [slash] segments.

Lemma normalize_drive path d rest :
  drive d -> utf8 rest -> unified path = d ++ rest ->
  normalize_path_string path = Ok (d ++ rendered_below rest (segments_of true rest)).
Proof.
  intros (c & -> & Hc) (cs & Hcs & ->) E. unfold normalize_path_string. cbv zeta. fold (unified path). rewrite E.
  assert (encode c = [c]) as Hec by (unfold encode; repeat case_split; try done; zlia).
  assert (scalar c = true) as Hs by (unfold_utf8; zlia).
  assert ([c; colon] ++ encode_all cs = encode_all (c :: colon :: cs)) as Hall.
  { change (encode_all (c :: colon :: cs)) with (encode c ++ encode colon ++ encode_all cs). by rewrite Hec. }
  rewrite bool_decide_eq_true_2 by (rewrite Hall, chars_encode_all; [done|by repeat constructor]).
  assert (utf8 ([c; colon] ++ encode_all cs)) as Hu by (exists (c :: colon :: cs); split; [by repeat constructor|done]).
  assert (is_char_boundary ([c; colon] ++ encode_all cs) 2 = true) as Hb.
  { apply (boundary_ascii_next _ 1 colon Hu); done. }
  unfold slice, slice_from.
  assert (is_char_boundary ([c; colon] ++ encode_all cs) 0 = true) as -> by (apply (boundary_ascii _ _ c); [done|lia]).
  rewrite Hb. cbn [unwrap mbind result_bind Nat.leb andb]. cbn [app Nat.sub]. rewrite !drop_0. cbn [take drop app].
  assert (forall t, (c :: t =s []) = false) as Hn by done. rewrite !Hn. cbn [negb app]. rewrite orb_true_r, Hn.
  unfold rendered_below, segments_of. by rewrite take_0, drop_0.
Qed.

(** A segment the loop keeps. *)
Definition name_segment (s : str) : Prop := s <> [] /\ s <> lit "." /\ contains_byte slash s = false.

(** The segments the loop builds: leading parent steps, only where there is no
    root to absorb them, then names. *)
Definition canonical (anchored : bool) (segments : list str) : Prop :=
  exists n names, segments = replicate n (lit "..") ++ names /\ (anchored = true -> n = 0%nat)
    /\ Forall (fun s => name_segment s /\ s <> lit "..") names.

Lemma eq_str a b : (a =s b) = bool_decide (a = b).
Proof.
  destruct (decide (a = b)) as [->|H]; [by rewrite str_eqb_refl, bool_decide_eq_true_2|].
  rewrite bool_decide_eq_false_2 by done. destruct (a =s b) eqn:E; [|done]. by apply str_eqb_spec in E.
Qed.

Lemma push_dotdot anchored l :
  push_segment anchored l (lit "..")
  = match last l with
    | Some x => if x =s lit ".." then if anchored then l else l ++ [lit ".."] else take (length l - 1) l
    | None => if anchored then l else l ++ [lit ".."]
    end.
Proof. done. Qed.

Lemma push_parent anchored n :
  push_segment anchored (replicate n (lit "..")) (lit "..")
  = if anchored then replicate n (lit "..") else replicate (S n) (lit "..").
Proof.
  rewrite push_dotdot, (replicate_S_end n). destruct n as [|n]; [done|].
  replace (last (replicate (S n) (lit ".."))) with (Some (lit "..")); [done|].
  rewrite replicate_S_end. by rewrite last_snoc.
Qed.

Lemma push_after_name anchored l s : s <> lit ".." -> push_segment anchored (l ++ [s]) (lit "..") = l.
Proof.
  intros H. rewrite push_dotdot, last_snoc, eq_str, bool_decide_eq_false_2 by done.
  by rewrite length_app, Nat.add_sub, take_app_length.
Qed.

Lemma push_name anchored l s : name_segment s -> s <> lit ".." -> push_segment anchored l s = l ++ [s].
Proof.
  intros (H1 & H2 & _) H3. unfold push_segment. by rewrite !eq_str, !bool_decide_eq_false_2 by done.
Qed.

Lemma push_canonical anchored segments s :
  contains_byte slash s = false -> canonical anchored segments -> canonical anchored (push_segment anchored segments s).
Proof.
  intros Hs (n & names & -> & Hn & Hall).
  destruct (decide (s = [] \/ s = lit ".")) as [Hskip|Hkeep].
  { exists n, names. split_and!; [|done..]. unfold push_segment. by destruct Hskip as [->| ->]. }
  assert (name_segment s) as Hname by (split_and!; naive_solver).
  destruct (decide (s = lit "..")) as [->|Hp].
  - destruct names as [|x names _] using rev_ind.
    + rewrite app_nil_r, push_parent. destruct anchored; [exists n, []|exists (S n), []]; by rewrite app_nil_r.
    + apply Forall_app in Hall as [Hall [[_ Hx] _]%Forall_cons]. rewrite app_assoc, push_after_name by done. by exists n, names.
  - rewrite push_name by done. exists n, (names ++ [s]). rewrite app_assoc. split_and!; [done|done|].
    apply Forall_app. split; [done|]. by apply Forall_singleton.
Qed.

Lemma split_byte_pieces b s : Forall (fun w => contains_byte b w = false) (split_byte b s).
Proof.
  induction s as [|x s IH]; simpl; [by repeat constructor|].
  destruct (split_byte_cons b s) as (w & ws & E). rewrite E in *.
  destruct (Z.eqb_spec x b); [by constructor|].
  apply Forall_cons in IH as [H1 H2]. constructor; [|done].
  unfold contains_byte in *. cbn [existsb]. rewrite H1. destruct (Z.eqb_spec b x); [congruence|done].
Qed.

Lemma segments_canonical absolute path : canonical absolute (segments_of absolute path).
Proof.
  unfold segments_of. pose proof (split_byte_pieces slash path) as Hall.
  assert (canonical absolute []) as H by (by exists 0%nat, []). revert H. generalize (@nil str).
  induction Hall as [|s l Hs Hall IH]; intros acc Hacc; simpl; [done|]. apply IH. by apply push_canonical.
Qed.

(** Running the loop over canonical segments changes nothing. *)
Lemma push_all_canonical anchored segments :
  canonical anchored segments -> fold_left (push_segment anchored) segments [] = segments.
Proof.
  intros (n & names & -> & Hn & Hall). rewrite fold_left_app.
  assert (fold_left (push_segment anchored) (replicate n (lit "..")) [] = replicate n (lit "..")) as ->.
  { destruct anchored; [by rewrite Hn|]. clear.
    change (@nil str) with (replicate 0 (lit "..")) at 1. change n with (0 + n)%nat at 2. generalize 0%nat.
    induction n as [|n IH]; intros m; simpl; [by rewrite Nat.add_0_r|]. rewrite (push_parent false), IH.
    f_equal. lia. }
  generalize (replicate n (lit "..")). clear Hn. induction Hall as [|s l [Hs Hp] Hall IH]; intros acc; simpl.
  - by rewrite app_nil_r.
  - rewrite push_name, IH, <- app_assoc by done. done.
Qed.

Lemma canonical_segment anchored segments :
  canonical anchored segments -> Forall (fun s => s <> [] /\ contains_byte slash s = false) segments.
Proof.
  intros (n & names & -> & _ & Hall). apply Forall_app. split.
  - apply Forall_replicate. done.
  - eapply Forall_impl; [exact Hall|]. intros s [(? & ? & ?) ?]. done.
Qed.

Lemma join_nil_iff segments :
  Forall (fun s => s <> [] /\ contains_byte slash s = false) segments -> join [slash] segments = [] -> segments = [].
Proof. intros [|s [|] [] _]; simpl; [done|done|]. intros [? _]%app_eq_nil. done. Qed.

Lemma rendered_cases absolute segments :
  Forall (fun s => s <> [] /\ contains_byte slash s = false) segments ->
  rendered absolute segments
  = if absolute then slash :: join [slash] segments
    else if bool_decide (segments = []) then lit "." else join [slash] segments.
Proof.
  intros H. unfold rendered. destruct absolute; [done|]. rewrite eq_str. cbn [app].
  destruct (decide (segments = [])) as [->|Hne]; [done|].
  rewrite !bool_decide_eq_false_2; [done|done|]. intros E. by apply join_nil_iff in E.
Qed.

Lemma starts_with_rendered absolute segments :
  canonical absolute segments -> starts_with [slash] (rendered absolute segments) = absolute.
Proof.
  intros H. apply canonical_segment in H. rewrite rendered_cases by done. destruct absolute; [done|].
  destruct H as [|s l [Hne Hs] _]; [done|]. rewrite bool_decide_eq_false_2 by done.
  destruct s as [|x s]; [done|]. unfold contains_byte in Hs. cbn [existsb] in Hs. bools.
  destruct l; cbn [join app starts_with]; rewrite andb_true_r; done.
Qed.

Lemma split_join_fold absolute segments acc :
  Forall (fun s => s <> [] /\ contains_byte slash s = false) segments ->
  fold_left (push_segment absolute) (split_byte slash (join [slash] segments)) acc
  = fold_left (push_segment absolute) segments acc.
Proof.
  intros H. destruct (decide (segments = [])) as [->|Hne]; [done|].
  rewrite split_byte_join; [done|done|]. eapply Forall_impl; [exact H|]. by intros s [_ ?].
Qed.

Lemma segments_rendered absolute segments :
  canonical absolute segments -> segments_of absolute (rendered absolute segments) = segments.
Proof.
  intros H. pose proof (canonical_segment _ _ H) as Hs. unfold segments_of. rewrite rendered_cases by done.
  transitivity (fold_left (push_segment absolute) segments []); [|by apply push_all_canonical]. destruct absolute.
  - change (split_byte slash (slash :: ?s)) with ([] :: split_byte slash s). cbn [fold_left].
    change (push_segment true [] []) with (@nil str). by apply split_join_fold.
  - case_bool_decide; [by subst|]. by apply split_join_fold.
Qed.

Lemma contains_byte_In b s : contains_byte b s = true <-> b ∈ s.
Proof.
  unfold contains_byte. rewrite existsb_exists. split.
  - intros (x & Hx & E). apply list_elem_of_In in Hx. by replace b with x by lia.
  - intros H. exists b. rewrite Z.eqb_refl. by apply list_elem_of_In in H.
Qed.

Lemma unified_no_backslash path : contains_byte backslash (unified path) = false.
Proof.
  unfold unified, replace. induction path as [|x path IH]; [done|].
  cbn [replace_go starts_with length Nat.sub]. destruct (Z.eqb_spec backslash x).
  - cbn [andb app]. unfold contains_byte in *. cbn [existsb]. by rewrite IH.
  - cbn [andb]. unfold contains_byte in *. cbn [existsb]. rewrite IH. by destruct (Z.eqb_spec backslash x).
Qed.

(** The pieces of a text without [b] have none either. *)
Lemma split_byte_class b c s :
  contains_byte b s = false -> Forall (fun w => contains_byte b w = false) (split_byte c s).
Proof.
  unfold contains_byte. induction s as [|x s IH]; cbn [existsb split_byte]; intros H; [by repeat constructor|].
  apply orb_false_iff in H as [Hx H]. specialize (IH H). destruct (x =? c); [by constructor|].
  destruct (split_byte c s) as [|w ws]; [|apply Forall_cons in IH as [Hw Hws]]; repeat constructor; cbn [existsb];
    [by rewrite Hx|by rewrite Hx|done].
Qed.

Lemma push_class (P : str -> Prop) anchored segments s :
  P s -> Forall P segments -> Forall P (push_segment anchored segments s).
Proof.
  intros Hs H. assert (Forall P (segments ++ [s])) by (apply Forall_app; split; [done|by apply Forall_singleton]).
  unfold push_segment. repeat case_match; try done. by apply Forall_take.
Qed.

Lemma segments_class (P : str -> Prop) absolute path :
  Forall P (split_byte slash path) -> Forall P (segments_of absolute path).
Proof.
  unfold segments_of. assert (Forall P []) as H by constructor. revert H. generalize (@nil str).
  intros acc Hacc Hall. revert acc Hacc. induction Hall as [|s l Hs Hall IH]; intros acc Hacc; simpl; [done|].
  apply IH. by apply push_class.
Qed.

Lemma unified_rendered absolute segments :
  Forall (fun s => contains_byte backslash s = false) segments ->
  unified (rendered absolute segments) = rendered absolute segments.
Proof.
  intros H. apply replace_byte_none. unfold rendered.
  assert (contains_byte backslash ((if absolute then [slash] else []) ++ join [slash] segments) = false) as H1.
  { rewrite contains_byte_app, (contains_byte_join _ _ segments) by done. by destruct absolute. }
  destruct (_ =s []); [by destruct absolute|done].
Qed.

(** The pieces of a text at an ASCII byte are texts. *)
Lemma split_byte_prefix b w s :
  contains_byte b w = false ->
  split_byte b (w ++ s) = match split_byte b s with [] => [w] | w' :: ws => (w ++ w') :: ws end.
Proof.
  unfold contains_byte. induction w as [|x w IH]; intros H; cbn [app split_byte].
  - by destruct (split_byte_cons b s) as (w' & ws & ->).
  - cbn [existsb] in H. apply orb_false_iff in H as [Hx H]. rewrite Z.eqb_sym, Hx, IH by done. by destruct (split_byte b s).
Qed.

Lemma split_byte_utf8 b s : b < 128 -> utf8 s -> Forall utf8 (split_byte b s).
Proof.
  intros Hb (cs & Hcs & ->). induction Hcs as [|c cs Hc Hcs IH]; [by apply Forall_singleton, utf8_nil|].
  change (encode_all (c :: cs)) with (encode c ++ encode_all cs). destruct (Z.eqb_spec c b) as [->|Hne].
  - assert (encode b = [b]) as -> by (unfold_utf8; repeat case_split; try done; zlia).
    cbn [app split_byte]. rewrite Z.eqb_refl. constructor; [apply utf8_nil|done].
  - rewrite split_byte_prefix.
    + assert (utf8 (encode c)) by (rewrite <- (app_nil_r (encode c)); apply utf8_cons; [done|apply utf8_nil]).
      destruct (split_byte b (encode_all cs)) as [|w ws]; [by apply Forall_singleton|].
      apply Forall_cons in IH as [Hw Hws]. constructor; [by apply utf8_app|done].
    + apply not_true_iff_false. rewrite contains_byte_In. intros Hin.
      assert (Forall (fun x => x <> b) (encode c)) as H by (unfold_utf8; repeat case_split; repeat constructor; zlia).
      rewrite Forall_forall in H. by apply (H b).
Qed.

Lemma join_utf8 l : Forall utf8 l -> utf8 (join [slash] l).
Proof.
  induction 1 as [|w l Hw Hl IH]; [apply utf8_nil|]. destruct l; [done|].
  apply utf8_app; [done|]. apply utf8_app; [by apply asciib_utf8|done].
Qed.

(** Below a drive: the rendering has the root the path has, and its segments. *)
Lemma starts_with_join segments :
  Forall (fun s => s <> [] /\ contains_byte slash s = false) segments -> starts_with [slash] (join [slash] segments) = false.
Proof.
  destruct 1 as [|s l [Hne Hs] _]; [done|]. destruct s as [|x s]; [done|].
  unfold contains_byte in Hs. cbn [existsb] in Hs. bools. destruct l; cbn [join app starts_with]; rewrite andb_true_r; done.
Qed.

Lemma starts_with_below rest segments :
  canonical true segments -> starts_with [slash] (rendered_below rest segments) = starts_with [slash] rest.
Proof.
  intros H%canonical_segment. unfold rendered_below. destruct (starts_with [slash] rest); [done|]. by apply starts_with_join.
Qed.

Lemma segments_below rest segments : canonical true segments -> segments_of true (rendered_below rest segments) = segments.
Proof.
  intros H. pose proof (canonical_segment _ _ H) as Hs. rewrite <- (push_all_canonical true segments H) at 2.
  unfold segments_of, rendered_below. destruct (starts_with [slash] rest); [|by apply split_join_fold].
  change (split_byte slash ([slash] ++ ?s)) with ([] :: split_byte slash s). cbn [fold_left].
  change (push_segment true [] []) with (@nil str). by apply split_join_fold.
Qed.

(** C6 A path normalizes to its canonical rendering. Without a drive, that is
    with a second character other than a colon: the result is absolute exactly
    when the path is, its segments are parent steps followed by names, with no
    parent step under a root, and normalizing the result again changes nothing
    provided that it does not read as a path with a drive itself, as the result
    [c:../x] of [./c:../x] does. With a drive, an ASCII character and a colon:
    the result keeps the drive, is rooted below it exactly when the path is, its
    segments are names only, and normalizing it again changes nothing. *)
Theorem normalize_canonical path :
  (drive_free path ->
   exists segments, let absolute := starts_with [slash] (unified path) in
     canonical absolute segments /\ normalize_path_string path = Ok (rendered absolute segments)
     /\ (drive_free (rendered absolute segments) ->
         normalize_path_string (rendered absolute segments) = Ok (rendered absolute segments)))
  /\ (forall d rest, drive d -> utf8 rest -> unified path = d ++ rest ->
      exists segments, canonical true segments /\ normalize_path_string path = Ok (d ++ rendered_below rest segments)
        /\ normalize_path_string (d ++ rendered_below rest segments) = Ok (d ++ rendered_below rest segments)).
Proof.
  split.
  - intros H. set (absolute := starts_with [slash] (unified path)).
    pose proof (segments_canonical absolute (unified path)) as Hc.
    exists (segments_of absolute (unified path)). split_and!; [done|by apply normalize_drive_free|].
    intros H'. rewrite normalize_drive_free by done.
    rewrite unified_rendered, starts_with_rendered, segments_rendered by
      (first [done|apply segments_class, split_byte_class, unified_no_backslash]).
    done.
  - intros d rest Hd Hu E. set (segments := segments_of true rest).
    pose proof (segments_canonical true rest) as Hc. exists segments. split; [done|].
    split; [by apply normalize_drive|].
    assert (contains_byte backslash (d ++ rest) = false) as Hb by (rewrite <- E; apply unified_no_backslash).
    rewrite contains_byte_app in Hb. apply orb_false_iff in Hb as [Hbd Hb].
    assert (Forall (fun s => contains_byte backslash s = false) segments) as Hbs by (by apply segments_class, split_byte_class).
    assert (utf8 (rendered_below rest segments)) as Hus.
    { apply utf8_app; [destruct (starts_with [slash] rest); by apply asciib_utf8|].
      by apply join_utf8, segments_class, split_byte_utf8. }
    rewrite (normalize_drive _ d (rendered_below rest segments)); [|done|done|].
    + unfold rendered_below at 1. by rewrite starts_with_below, segments_below.
    + apply replace_byte_none. rewrite contains_byte_app, Hbd. unfold rendered_below.
      rewrite contains_byte_app, (contains_byte_join _ _ segments) by done. by destruct (starts_with [slash] rest).
Qed.

Example drive_like_result :
  normalize_path_string (lit "./c:../x") = Ok (lit "c:../x") /\ normalize_path_string (lit "c:../x") = Ok (lit "c:x").
Proof. vm_compute. done. Qed.

Lemma normalize_canonical_witness :
  normalize_path_string (lit "..\src/./a/../b") = Ok (lit "../src/b")
  /\ normalize_path_string (lit "../src/b") = Ok (lit "../src/b")
  /\ exists segments, normalize_path_string (lit "c:/x/../../y") = Ok (lit "c:" ++ rendered_below (lit "/x/../../y") segments).
Proof.
  assert (drive_free (lit "..\src/./a/../b")) as H by (vm_compute; congruence).
  destruct (normalize_canonical (lit "..\src/./a/../b")) as [Hfree _].
  destruct (Hfree H) as (segments & _ & H1 & H2). cbv zeta in *.
  change (starts_with [slash] (unified (lit "..\src/./a/../b"))) with false in *.
  assert (normalize_path_string (lit "..\src/./a/../b") = Ok (lit "../src/b")) as E by (vm_compute; done).
  split; [done|]. split.
  - pose proof (eq_trans (eq_sym H1) E) as [= Er]. rewrite Er in H2. apply H2. vm_compute. congruence.
  - destruct (normalize_canonical (lit "c:/x/../../y")) as [_ Hd].
    destruct (Hd (lit "c:") (lit "/x/../../y")) as (l & _ & H3 & _);
      [by exists 99|by apply asciib_utf8|done|by exists l].
Defined.

(** ** A normalized path names the same place *)

(** Where a path leads from the directory [base], a list of names from the
    root: the lexical reading of a path, a parent step of the root being the
    root. *)
Definition step (place : list str) (segment : str) : list str :=
  if decide (segment = [] \/ segment = lit ".") then place
  else if decide (segment = lit "..") then take (length place - 1) place
  else place ++ [segment].
Definition place (base : list str) (path : str) : list str :=
  fold_left step (split_byte slash path) (if starts_with [slash] path then [] else base).

Lemma step_name l s : name_segment s -> s <> lit ".." -> step l s = l ++ [s].
Proof.
  intros [Hne [Hdot _]] Hp. unfold step. by rewrite decide_False, decide_False by tauto.
Qed.

Lemma step_push absolute base segments s :
  (absolute = true -> base = []) -> contains_byte slash s = false -> canonical absolute segments ->
  step (fold_left step segments base) s = fold_left step (push_segment absolute segments s) base.
Proof.
  intros Hb Hs (n & names & -> & Hn & Hall).
  destruct (decide (s = [] \/ s = lit ".")) as [Hskip|Hkeep]; [by destruct Hskip as [->| ->]|].
  assert (name_segment s) as Hname by (split_and!; naive_solver).
  destruct (decide (s = lit "..")) as [->|Hp].
  - destruct names as [|x names _] using rev_ind.
    + rewrite app_nil_r, push_parent. destruct absolute.
      * rewrite Hn, Hb by done. done.
      * by rewrite replicate_S_end, fold_left_app.
    + apply Forall_app in Hall as [Hall [[Hx Hxp] _]%Forall_cons].
      rewrite app_assoc, push_after_name, fold_left_app by done. cbn [fold_left].
      rewrite (step_name _ x) by done. change (step ?l (lit "..")) with (take (length l - 1) l).
      by rewrite length_app, Nat.add_sub, take_app_length.
  - rewrite push_name by done. by rewrite (fold_left_app step _ [s]).
Qed.

Lemma place_segments absolute base path :
  (absolute = true -> base = []) ->
  fold_left step (split_byte slash path) base = fold_left step (segments_of absolute path) base.
Proof.
  intros Hb. unfold segments_of. pose proof (split_byte_pieces slash path) as Hall.
  assert (canonical absolute []) as H by (by exists 0%nat, []).
  change base with (fold_left step [] base) at 1. revert H. generalize (@nil str).
  induction Hall as [|s l Hs Hall IH]; intros acc Hacc; simpl; [done|].
  rewrite (step_push absolute) by done. apply IH. by apply push_canonical.
Qed.

(** C5 Normalizing a path keeps the place it names, read segment by segment.
    A path without a drive, that is with a second character other than a colon,
    names the same place from every base directory. A path with a drive, an
    ASCII character and a colon, keeps the drive and whether it is rooted below
    it, and names the same place from the top of the drive. *)
Theorem normalize_same_place path :
  (drive_free path ->
   exists path', normalize_path_string path = Ok path' /\ forall base, place base path' = place base (unified path))
  /\ (forall d rest, drive d -> utf8 rest -> unified path = d ++ rest ->
      exists rest', normalize_path_string path = Ok (d ++ rest')
        /\ starts_with [slash] rest' = starts_with [slash] rest /\ place [] rest' = place [] rest).
Proof.
  split.
  - intros H. rewrite normalize_drive_free by done. eexists. split; [done|]. intros base.
    set (absolute := starts_with [slash] (unified path)). unfold place.
    pose proof (segments_canonical absolute (unified path)) as Hc.
    rewrite starts_with_rendered by done. fold absolute.
    assert (absolute = true -> (if absolute then [] else base) = []) as Hb by (by intros ->).
    rewrite !(place_segments absolute) by done. by rewrite segments_rendered.
  - intros d rest Hd Hu E. eexists. split; [by apply normalize_drive|].
    pose proof (segments_canonical true rest) as Hc. split; [by apply starts_with_below|].
    assert (forall b : bool, (if b then [] else @nil str) = []) as Hn by (by intros []).
    unfold place. rewrite !Hn, !(place_segments true) by done. by rewrite segments_below.
Qed.

Lemma normalize_same_place_witness :
  (exists path', normalize_path_string (lit "../../x/./y/..") = Ok path'
    /\ place [lit "a"; lit "b"; lit "c"] path' = [lit "a"; lit "x"])
  /\ exists rest', normalize_path_string (lit "c:/../x") = Ok (lit "c:" ++ rest') /\ place [] rest' = [lit "x"].
Proof.
  split.
  - destruct (normalize_same_place (lit "../../x/./y/..")) as [Hfree _]. destruct Hfree as (path' & H & E);
      [vm_compute; congruence|].
    exists path'. split; [exact H|]. rewrite E. vm_compute. done.
  - destruct (normalize_same_place (lit "c:/../x")) as [_ Hd]. destruct (Hd (lit "c:") (lit "/../x")) as (rest' & H & _ & E);
      [by exists 99|by apply asciib_utf8|done|].
    exists rest'. split; [exact H|]. rewrite E. vm_compute. done.
Defined.

Lemma unified_cons x t : unified (x :: t) = (if backslash =? x then slash else x) :: unified t.
Proof. unfold unified, replace. cbn [replace_go starts_with length Nat.sub]. by destruct (Z.eqb_spec backslash x). Qed.

Lemma unified_encode c t :
  scalar c = true -> unified (encode c ++ t) = encode (if backslash =? c then slash else c) ++ unified t.
Proof.
  intros Hc. destruct (Z.eqb_spec backslash c) as [<-|Hne].
  { change (encode backslash ++ t) with (backslash :: t). by rewrite unified_cons. }
  assert (Forall (fun x => x <> backslash) (encode c)) as H.
  { unfold backslash in *. unfold_utf8. repeat case_split; repeat constructor; zlia. }
  induction H as [|x l Hx Hl IH]; [done|]. cbn [app]. rewrite unified_cons, IH.
  destruct (Z.eqb_spec backslash x); [congruence|done].
Qed.

Lemma unified_utf8 t : utf8 t -> utf8 (unified t).
Proof.
  intros (cs & Hcs & ->). induction Hcs as [|c cs Hc Hcs IH]; [apply utf8_nil|].
  change (encode_all (c :: cs)) with (encode c ++ encode_all cs).
  rewrite unified_encode by done. apply utf8_cons; [|done]. by case_split.
Qed.

(** C26 The drive test counts characters, the slices count bytes: a path whose
    first character takes more than two bytes and is followed by a colon has no
    normalization. *)
Theorem normalize_panic c t :
  scalar c = true -> 0x800 <= c -> utf8 t -> normalize_path_string (encode c ++ colon :: t) = Panic.
Proof.
  intros Hc Hge Ht. destruct (unified_utf8 t Ht) as (cs & Hcs & Et).
  unfold normalize_path_string. cbv zeta. fold (unified (encode c ++ colon :: t)).
  rewrite unified_encode, unified_cons by done.
  replace (backslash =? c) with false by (unfold backslash; lia). change (backslash =? colon) with false.
  cbn iota. change (encode c ++ colon :: unified t) with (encode c ++ encode colon ++ unified t).
  rewrite Et. change (encode c ++ encode colon ++ encode_all cs) with (encode_all (c :: colon :: cs)).
  rewrite chars_encode_all by (by repeat constructor). rewrite bool_decide_eq_true_2 by done.
  change (encode_all (c :: colon :: cs)) with (encode c ++ encode colon ++ encode_all cs).
  unfold slice. rewrite (boundary_inside c _ 2), andb_false_r; [done|done|].
  unfold encode. repeat case_split; simpl; lia.
Qed.

Lemma normalize_panic_witness : normalize_path_string (lit "한:x") = Panic.
Proof. apply (normalize_panic 0xD55C (lit "x")); [done|done|by apply asciib_utf8]. Defined.
