(* ===== verification/UnixPath.v ===== *)
(** * Paths of the standard library of Rust on Unix

    The methods of [std::path::Path] and [PathBuf] the modelled code calls. A
    path is its text; its components are the segments between slashes, a
    repeated or final slash and an inner [.] being none. *)

From S2P Require Import Prelude Utf8 RustStr.

Local Open Scope Z_scope.

Definition separator : Z := 47.
Definition full_stop : Z := 46.

Definition is_absolute (p : str) : bool := starts_with [separator] p.

(** Whether the path has a root, and the texts between the slashes after it. *)
Definition path_segments (p : str) : bool * list str :=
  if is_absolute p then (true, split_byte separator (drop 1 p)) else (false, split_byte separator p).

Definition from_segments (absolute : bool) (segments : list str) : str :=
  (if absolute then [separator] else []) ++ join [separator] segments.

(** The segments without the final ones that are no component; only a leading
    [.] of a relative path is one. *)
Fixpoint trim_right (leading_dot : bool) (segments : list str) : list str :=
  match segments with
  | [] => []
  | s :: rest =>
      match trim_right false rest with
      | [] => if (s =s []) || negb leading_dot && (s =s lit ".") then [] else [s]
      | rest => s :: rest
      end
  end.

Definition trimmed (p : str) : bool * list str :=
  let '(absolute, segments) := path_segments p in (absolute, trim_right (negb absolute) segments).

(** [Path::parent]: [None] for a root and for the empty path. *)
Definition parent (p : str) : option str :=
  let '(absolute, segments) := trimmed p in
  match segments with
  | [] => None
  | _ => Some (from_segments absolute (trim_right (negb absolute) (removelast segments)))
  end.

(** [Path::file_name]: the last component when it is a name. *)
Definition file_name (p : str) : option str :=
  match last (snd (trimmed p)) with
  | Some name => if (name =s lit ".") || (name =s lit "..") then None else Some name
  | None => None
  end.

(** [Path::join]. *)
Definition path_join (base p : str) : str :=
  if is_absolute p then p
  else if (base =s []) || ends_with [separator] base then base ++ p
  else base ++ [separator] ++ p.

(** [Path::with_file_name]. *)
Definition with_file_name (p name : str) : str :=
  match file_name p with
  | Some _ => path_join (default [] (parent p)) name
  | None => path_join p name
  end.

(** [Path::extension] and [Path::file_stem]: a name is split at its last dot
    unless that begins it. *)
Definition split_name (name : str) : str * option str :=
  match rsplit_once full_stop name with
  | Some ([], _) | None => (name, None)
  | Some (stem, extension) => (stem, Some extension)
  end.
Definition extension (p : str) : option str := name ← file_name p; snd (split_name name).

(** [Path::with_extension] for a non-empty extension. *)
Definition with_extension (p ext : str) : str :=
  match file_name p with
  | None => p
  | Some name =>
      let '(absolute, segments) := trimmed p in
      from_segments absolute (removelast segments ++ [fst (split_name name)]) ++ [full_stop] ++ ext
  end.

(** [Path::ancestors]: the path and its parents. A parent is shorter, so the
    length of the path is fuel enough. *)
Fixpoint ancestors_fuel (fuel : nat) (p : str) : list str :=
  p :: match fuel, parent p with
       | S fuel, Some q => ancestors_fuel fuel q
       | _, _ => []
       end.
Definition ancestors (p : str) : list str := ancestors_fuel (length p) p.

Example parent_samples :
  map parent [lit "/a/b"; lit "/a"; lit "/"; lit "a"; lit ""; lit "./a"; lit "."; lit "a/./b/"; lit "//a//b"; lit ".."]
  = [Some (lit "/a"); Some (lit "/"); None; Some []; None; Some (lit "."); Some []; Some (lit "a"); Some (lit "//a");
     Some []].
Proof. done. Qed.

Example extension_samples :
  map extension [lit "/a.b/c.d.ts"; lit ".json"; lit "x."; lit "a/b"; lit ".."]
  = [Some (lit "ts"); None; Some []; None; None]
  /\ with_extension (lit "base/") (lit "json") = lit "base.json"
  /\ with_file_name (lit "/a/b.js") (lit "b.ts") = lit "/a/b.ts"
  /\ ancestors (lit "/a/b") = [lit "/a/b"; lit "/a"; lit "/"].
Proof. done. Qed.

(** ** Lemmas *)

Lemma from_segments_path p : from_segments (fst (path_segments p)) (snd (path_segments p)) = p.
Proof.
  unfold path_segments, from_segments, is_absolute. destruct (starts_with [separator] p) eqn:E; simpl.
  - apply starts_with_spec in E as [t ->]. simpl. by rewrite drop_0, join_split_byte.
  - by rewrite join_split_byte.
Qed.

Lemma length_join_cons w ws : ws <> [] -> length (join [separator] (w :: ws)) = (length w + 1 + length (join [separator] ws))%nat.
Proof. destruct ws; [done|]. intros _. simpl. rewrite length_app. simpl. lia. Qed.

Lemma trim_right_length leading segments :
  (length (join [separator] (trim_right leading segments)) <= length (join [separator] segments))%nat.
Proof.
  revert leading; induction segments as [|s rest IH]; intros leading; [done|].
  cbn [trim_right]. destruct (trim_right false rest) as [|s' rest'] eqn:E.
  - assert (length s <= length (join [separator] (s :: rest)))%nat as Hs.
    { destruct rest; simpl; [lia|]. rewrite length_app. lia. }
    destruct ((s =s []) || negb leading && (s =s lit ".")); simpl; [lia|simpl in Hs; lia].
  - specialize (IH false). rewrite E in IH. destruct rest as [|r rest]; [done|].
    rewrite (length_join_cons s (s' :: rest')), (length_join_cons s (r :: rest)) by done. lia.
Qed.

Lemma trim_right_last leading segments s :
  last (trim_right leading segments) = Some s -> s <> [].
Proof.
  revert leading; induction segments as [|x rest IH]; intros leading; [done|].
  cbn [trim_right]. destruct (trim_right false rest) as [|s' rest'] eqn:E.
  - destruct ((x =s []) || negb leading && (x =s lit ".")) eqn:Ex; [done|].
    intros [= <-]. apply orb_false_iff in Ex as [Ex _]. intros ->. by rewrite str_eqb_refl in Ex.
  - intros H. apply (IH false). by rewrite E.
Qed.

Lemma removelast_join segments s :
  last segments = Some s -> s <> [] ->
  (length (join [separator] (removelast segments)) < length (join [separator] segments))%nat.
Proof.
  induction segments as [|x rest IH]; [done|]. destruct rest as [|y rest].
  - intros [= ->] Hs. destruct s; simpl; [done|lia].
  - intros Hl Hs. specialize (IH Hl Hs). change (removelast (x :: y :: rest)) with (x :: removelast (y :: rest)).
    rewrite (length_join_cons x (y :: rest)) by done.
    destruct (removelast (y :: rest)) as [|z r]; [simpl; lia|].
    rewrite length_join_cons by done. lia.
Qed.

(** A parent is shorter than its child. *)
Lemma parent_length p q : parent p = Some q -> (length q < length p)%nat.
Proof.
  unfold parent, trimmed. pose proof (from_segments_path p) as Hp.
  destruct (path_segments p) as [absolute segments]. simpl in Hp.
  destruct (trim_right (negb absolute) segments) as [|s rest] eqn:E; [done|]. intros [= <-].
  destruct (last (s :: rest)) as [z|] eqn:Ez; [|by apply last_None in Ez].
  pose proof Ez as Hz. rewrite <- E in Hz. apply trim_right_last in Hz.
  pose proof (removelast_join _ _ Ez Hz) as H1.
  pose proof (trim_right_length (negb absolute) segments) as H2. rewrite E in H2.
  pose proof (trim_right_length (negb absolute) (removelast (s :: rest))) as H3.
  cbn [removelast] in *. rewrite <- Hp. unfold from_segments. rewrite !length_app. lia.
Qed.
