(* ===== verification/Json.v ===== *)
(** * JSON values

    [serde_json::Value] as the loader reads it. An object keeps its keys in the
    order they were written in (the feature [preserve_order]); a number is its
    text. Parsing is that library's. *)

From S2P Require Import Prelude.

#[local] Unset Elimination Schemes.
Inductive Value :=
| VNull
| VBool (b : bool)
| VNumber (text : str)
| VString (s : str)
| VArray (items : list Value)
| VObject (map : list (str * Value)).
#[local] Set Elimination Schemes.

(** Induction with the hypothesis for every value directly inside. *)
Fixpoint value_ind (P : Value -> Prop) (leaf : forall v, match v with VArray _ | VObject _ => False | _ => True end -> P v)
    (array : forall items, Forall P items -> P (VArray items))
    (object : forall m, Forall (fun e => P (snd e)) m -> P (VObject m)) (v : Value) : P v :=
  match v with
  | VArray items =>
      array items ((fix go l : Forall P l :=
        match l with [] => List.Forall_nil _ | v :: l => List.Forall_cons _ _ _ (value_ind P leaf array object v) (go l) end) items)
  | VObject m =>
      object m ((fix go l : Forall (fun e => P (snd e)) l :=
        match l with [] => List.Forall_nil _ | e :: l => List.Forall_cons _ e _ (value_ind P leaf array object (snd e)) (go l) end) m)
  | v => leaf v I
  end.

(** The key order is that of the text: [Map::get]. *)
Fixpoint map_get {A} (key : str) (m : list (str * A)) : option A :=
  match m with
  | [] => None
  | (k, v) :: m => if key =s k then Some v else map_get key m
  end.

Definition as_str (v : Value) : option str := match v with VString s => Some s | _ => None end.
Definition as_array (v : Value) : option (list Value) := match v with VArray l => Some l | _ => None end.
Definition as_object (v : Value) : option (list (str * Value)) := match v with VObject m => Some m | _ => None end.

(** [Value::get] with a key: none of a value that is no object. *)
Definition value_get (key : str) (v : Value) : option Value := m ← as_object v; map_get key m.

(** [IndexMap::insert] and [extend]: a key that is there keeps its place. *)
Fixpoint map_insert {A} (key : str) (v : A) (m : list (str * A)) : list (str * A) :=
  match m with
  | [] => [(key, v)]
  | (k, w) :: m => if key =s k then (k, v) :: m else (k, w) :: map_insert key v m
  end.
Definition map_extend {A} (m entries : list (str * A)) : list (str * A) :=
  foldl (fun m '(k, v) => map_insert k v m) m entries.

Lemma map_get_insert {A} key key' (v : A) m :
  map_get key (map_insert key' v m) = if key =s key' then Some v else map_get key m.
Proof.
  induction m as [|[k w] m IH]; simpl; [done|]. destruct (key' =s k) eqn:E; simpl.
  - apply str_eqb_spec in E as ->. by destruct (key =s k).
  - rewrite IH. destruct (key =s k) eqn:E1, (key =s key') eqn:E2; try done.
    apply str_eqb_spec in E1 as ->, E2 as ->. by rewrite str_eqb_refl in E.
Qed.

(** The later entries win; the keys of [entries] are distinct. *)
Lemma map_get_extend {A} key (m entries : list (str * A)) :
  NoDup entries.*1 ->
  map_get key (map_extend m entries) = match map_get key entries with Some v => Some v | None => map_get key m end.
Proof.
  unfold map_extend. revert m. induction entries as [|[k v] entries IH]; intros m; simpl; [done|].
  intros [Hk Hnd]%NoDup_cons. rewrite IH, map_get_insert by done. destruct (key =s k) eqn:E; [|done].
  apply str_eqb_spec in E as ->. destruct (map_get k entries) as [w|] eqn:Ew; [|done].
  destruct Hk. clear -Ew. induction entries as [|[k' v'] entries IH]; simpl in *; [done|].
  destruct (k =s k') eqn:E; [apply str_eqb_spec in E as ->; by left|right; auto].
Qed.

Lemma map_get_elem {A} key (m : list (str * A)) v : map_get key m = Some v -> (key, v) ∈ m.
Proof.
  induction m as [|[k w] m IH]; simpl; [done|]. destruct (key =s k) eqn:E.
  - apply str_eqb_spec in E as ->. intros [= ->]. apply list_elem_of_here.
  - intros H. apply list_elem_of_further. auto.
Qed.

Lemma map_get_none {A} key (m : list (str * A)) : map_get key m = None -> key ∉ m.*1.
Proof.
  induction m as [|[k w] m IH]; simpl; [intros _; apply not_elem_of_nil|]. destruct (key =s k) eqn:E; [done|].
  intros H. apply not_elem_of_cons. split; [|auto]. intros ->. by rewrite str_eqb_refl in E.
Qed.

Lemma map_get_unique {A} key (m : list (str * A)) v : NoDup m.*1 -> (key, v) ∈ m -> map_get key m = Some v.
Proof.
  induction m as [|[k w] m IH]; simpl; [intros _ []%elem_of_nil|]. intros [Hk Hnd]%NoDup_cons.
  intros [[= -> ->]|Hin]%elem_of_cons; [by rewrite str_eqb_refl|]. destruct (key =s k) eqn:E; [|auto].
  apply str_eqb_spec in E as ->. destruct Hk. apply list_elem_of_fmap. by exists (k, v).
Qed.
