(* ===== verification/Probe.v ===== *)
(** * File existence probes ([surge-ts/src/probe.rs], [host_fs.rs])

    The memo of the probes of a load: answers by path, a listing of a directory
    that was probed often, and the directories known to exist. The file system
    does not change during a load: it is the class [HostFs], whose laws are what
    the listing relies on. *)

From stdpp Require Import gmap sets.
From S2P Require Import Prelude Utf8 RustStr UnixPath.

(** ** The file system *)

Inductive FileType := PlainFile | Directory | OtherType | UnknownType.

(** [std::fs::read_dir]: the entries that could be read. *)
Inductive Listing :=
| Entries (entries : list (str * FileType))
| NotFound
| Unreadable.

(** A host's file system where one is installed ([host_*]), and the process's own
    ([std_*]), which they are otherwise. *)
Class HostFs := {
  is_custom : bool;
  host_is_file : str -> bool;
  host_is_dir : str -> bool;
  host_read_to_string : str -> option str;
  std_read_dir : str -> Listing;
  std_canonicalize : str -> option str;
  std_exists : str -> bool;
  std_is_file : str -> bool;
  std_is_dir : str -> bool;
  std_read_to_string : str -> option str;
}.

(** A path below some directory that does not end in a separator: the loader
    asks for nothing else. *)
Definition plainly_spelled (path : str) : Prop :=
  parent path <> Some [] /\ forall name, file_name path = Some name -> ends_with name path = true.

Definition is_ascii (name : str) : bool := forallb (fun b => (b <? 128)%Z) name.

(** What the process's own file system keeps: what is above a file or a
    directory is one, a directory that is listed can be searched, and its
    listing tells the plain files and misses no file, whatever case it is asked
    for in; a directory that is not there has no files. Nothing is said of the
    empty path, the parent of a bare name: it cannot be listed, and yet the
    names below it are those of the current directory. *)
Class HostFsLaws (Fs : HostFs) := {
  above_file path dir : host_is_file path = true -> parent path = Some dir -> dir <> [] -> host_is_dir dir = true;
  above_dir path dir : host_is_dir path = true -> parent path = Some dir -> dir <> [] -> host_is_dir dir = true;
  listed_file path dir name entries :
    std_read_dir dir = Entries entries -> parent path = Some dir -> file_name path = Some name ->
    plainly_spelled path -> (name, PlainFile) ∈ entries -> host_is_file path = true;
  file_listed path dir name entries :
    std_read_dir dir = Entries entries -> parent path = Some dir -> file_name path = Some name ->
    is_ascii name = true -> host_is_file path = true ->
    exists name' t, (name', t) ∈ entries /\ t <> Directory /\ to_ascii_lowercase name' = to_ascii_lowercase name;
  missing_dir path dir :
    std_read_dir dir = NotFound -> parent path = Some dir -> dir <> [] -> host_is_file path = false;
}.

(** ** The cache *)

Record DirListing := mkListing { files : gset str; maybe_lower : gset str; unlisted : bool }.

Record ProbeCache := mkProbe {
  paths : gmap str bool;
  dir_probe_counts : gmap str nat;
  dir_listings : gmap str DirListing;
  dir_exists_memo : gmap str bool;
}.

(** [ProbeCache::default] and [clear_probe_cache]. *)
Definition empty_cache : ProbeCache := mkProbe ∅ ∅ ∅ ∅.

Definition DIR_LISTING_THRESHOLD : nat := 16.

Section probe.
Context `{Fs : HostFs}.

(** [stat_is_file] without its counters. *)
Definition stat_is_file (path : str) : bool := host_is_file path.

(** A directory's ancestors are asked for first; they are shorter, so its
    length bounds the recursion. *)
Fixpoint dir_exists (fuel : nat) (dir : str) (cache : ProbeCache) : result (bool * ProbeCache) :=
  match fuel with
  | O => OutOfFuel
  | S fuel =>
      match dir_exists_memo cache !! dir with
      | Some hit => Ok (hit, cache)
      | None =>
          '(ruled_out, cache) ←
            (match parent dir with
             | Some above =>
                 if above =s [] then Ok (false, cache)
                 else '(above, cache) ← dir_exists fuel above cache; Ok (negb above, cache)
             | None => Ok (false, cache)
             end);
          let answer := if ruled_out : bool then false else host_is_dir dir in
          Ok (answer, mkProbe (paths cache) (dir_probe_counts cache) (dir_listings cache)
                        (<[dir := answer]> (dir_exists_memo cache)))
      end
  end.

(** One entry of the listing. *)
Definition list_entry (listing : DirListing) (entry : str * FileType) : DirListing :=
  let '(name, t) := entry in
  let lower := {[to_ascii_lowercase name]} in
  match t with
  | Directory => listing
  | PlainFile => mkListing ({[name]} ∪ files listing) (lower ∪ maybe_lower listing) (unlisted listing)
  | _ => mkListing (files listing) (lower ∪ maybe_lower listing) (unlisted listing)
  end.

Definition build_dir_listing (dir : str) : DirListing :=
  let listing := mkListing ∅ ∅ false in
  if is_custom then mkListing ∅ ∅ true
  else match std_read_dir dir with
       | Entries entries => foldl list_entry listing entries
       | NotFound => listing
       | Unreadable => mkListing ∅ ∅ true
       end.

Definition answer (listing : DirListing) (path name : str) : bool :=
  if unlisted listing then stat_is_file path
  else if decide (name ∈ files listing) then true
  else if decide (to_ascii_lowercase name ∈ maybe_lower listing) then stat_is_file path
  else false.

(** A name under an existing directory: from the listing once there is one. *)
Definition probe_listed (path dir name : str) (cache : ProbeCache) : bool * ProbeCache :=
  match dir_listings cache !! dir with
  | Some listing => (answer listing path name, cache)
  | None =>
      let count := match dir_probe_counts cache !! dir with Some count => S count | None => 1 end in
      let counts := <[dir := count]> (dir_probe_counts cache) in
      if (DIR_LISTING_THRESHOLD <=? count)%nat then
        let listing := build_dir_listing dir in
        (answer listing path name,
         mkProbe (paths cache) counts (<[dir := listing]> (dir_listings cache)) (dir_exists_memo cache))
      else (stat_is_file path, mkProbe (paths cache) counts (dir_listings cache) (dir_exists_memo cache))
  end.

Definition is_existing_file (path : str) (cache : ProbeCache) : result (bool * ProbeCache) :=
  match paths cache !! path with
  | Some hit => Ok (hit, cache)
  | None =>
      '(is_file, cache) ←
        (match is_custom, parent path, file_name path with
         | false, Some dir, Some name =>
             if is_ascii name then
               '(dir_is_there, cache) ← dir_exists (S (length dir)) dir cache;
               Ok (if dir_is_there : bool then probe_listed path dir name cache else (false, cache))
             else Ok (stat_is_file path, cache)
         | _, _, _ => Ok (stat_is_file path, cache)
         end);
      Ok (is_file, mkProbe (<[path := is_file]> (paths cache)) (dir_probe_counts cache) (dir_listings cache)
                     (dir_exists_memo cache))
  end.

(** The answers of a sequence of probes. *)
Fixpoint probes (asked : list str) (cache : ProbeCache) : result (list bool * ProbeCache) :=
  match asked with
  | [] => Ok ([], cache)
  | path :: asked =>
      '(hit, cache) ← is_existing_file path cache;
      '(hits, cache) ← probes asked cache;
      Ok (hit :: hits, cache)
  end.

(** ** The cache tells the truth

    The recursion on ancestors ends, whatever the cache holds. *)

Lemma dir_exists_ends fuel dir cache :
  (length dir < fuel)%nat -> returns (dir_exists fuel dir cache) (fun _ => True).
Proof.
  revert dir cache. induction fuel as [|fuel IH]; intros dir cache Hf; [lia|]. cbn [dir_exists].
  destruct (dir_exists_memo cache !! dir) as [hit|]; [done|]. apply returns_bind.
  apply (returns_mono _ (fun _ => True)); [|by intros [? ?]].
  destruct (parent dir) as [above|] eqn:Ep; [|done]. destruct (above =s []); [done|].
  apply returns_bind. apply parent_length in Ep.
  apply (returns_mono _ _ _ (IH above cache ltac:(lia))). by intros [? ?].
Qed.

Lemma is_existing_file_ends path cache : returns (is_existing_file path cache) (fun _ => True).
Proof.
  unfold is_existing_file. destruct (paths cache !! path); [done|]. apply returns_bind.
  apply (returns_mono _ (fun _ => True)); [|by intros [? ?]].
  destruct is_custom; [done|]. destruct (parent path) as [dir|]; [|done].
  destruct (file_name path) as [name|]; [|done]. destruct (is_ascii name); [|done]. apply returns_bind.
  apply (returns_mono _ _ _ (dir_exists_ends (S (length dir)) dir cache ltac:(lia))).
  by intros [there ?] _; destruct there.
Qed.

Record truthful (cache : ProbeCache) : Prop := {
  true_paths path hit : paths cache !! path = Some hit -> plainly_spelled path -> hit = host_is_file path;
  true_listings dir listing : dir_listings cache !! dir = Some listing -> listing = build_dir_listing dir;
  true_dirs dir hit : dir_exists_memo cache !! dir = Some hit -> hit = host_is_dir dir;
}.

Lemma truthful_empty : truthful empty_cache.
Proof. by split. Qed.

Context {Laws : HostFsLaws Fs}.

Lemma dir_exists_true fuel dir cache :
  truthful cache -> (length dir < fuel)%nat ->
  returns (dir_exists fuel dir cache) (fun '(hit, cache) => hit = host_is_dir dir /\ truthful cache).
Proof.
  revert dir cache. induction fuel as [|fuel IH]; intros dir cache Ht Hf; [lia|]. cbn [dir_exists].
  destruct (dir_exists_memo cache !! dir) as [hit|] eqn:E; [split; [by apply (true_dirs _ Ht)|done]|].
  apply returns_bind.
  apply (returns_mono _ (fun '(ruled_out, cache) => truthful cache /\ (ruled_out = true -> host_is_dir dir = false))).
  - destruct (parent dir) as [above|] eqn:Ep; [|done]. destruct (above =s []) eqn:Ea; [done|].
    apply returns_bind, returns_mono with (1 := IH above cache Ht ltac:(apply parent_length in Ep; lia)).
    intros [b cache'] [-> Ht']. split; [done|]. intros Hb%negb_true_iff.
    destruct (host_is_dir dir) eqn:Ed; [|done]. rewrite (above_dir _ _ Ed Ep) in Hb; [done|].
    intros ->. by rewrite str_eqb_refl in Ea.
  - intros [ruled_out cache'] [Ht' Hr]. simpl.
    assert ((if ruled_out then false else host_is_dir dir) = host_is_dir dir) as Ha
      by (destruct ruled_out; [by rewrite Hr|done]).
    rewrite Ha. split; [done|]. destruct Ht' as [H1 H2 H3]. split; simpl; [done..|].
    intros d hit. destruct (decide (dir = d)) as [->|]; [rewrite lookup_insert_eq; congruence|].
    rewrite lookup_insert_ne by done. apply H3.
Qed.

(** What folding the entries collects. *)
Lemma list_entries_spec entries l :
  let l' := foldl list_entry l entries in
  unlisted l' = unlisted l
  /\ (forall name, name ∈ files l' -> name ∈ files l \/ (name, PlainFile) ∈ entries)
  /\ (forall lower, lower ∈ maybe_lower l -> lower ∈ maybe_lower l')
  /\ (forall name t, (name, t) ∈ entries -> t <> Directory -> to_ascii_lowercase name ∈ maybe_lower l').
Proof.
  revert l. induction entries as [|[name t] entries IH]; intros l; simpl.
  - split_and!; [done|auto|done|intros ?? []%elem_of_nil].
  - destruct (IH (list_entry l (name, t))) as (Hu & Hf & Hm & He). split_and!.
    + etransitivity; [exact Hu|]. by destruct t.
    + intros n [Hn|Hn]%Hf; [|right; by apply list_elem_of_further].
      destruct t; simpl in Hn; try (by left).
      apply elem_of_union in Hn as [->%elem_of_singleton|?]; [right; apply list_elem_of_here|by left].
    + intros lower Hl. apply Hm. destruct t; simpl; rewrite ?elem_of_union; auto.
    + intros n t' [[= -> ->]|Hin]%elem_of_cons Ht; [|by eapply He].
      apply Hm. destruct t; simpl; rewrite ?elem_of_union, ?elem_of_singleton; solve [auto | done].
Qed.

Lemma answer_true path dir name :
  parent path = Some dir -> file_name path = Some name -> is_ascii name = true -> plainly_spelled path ->
  answer (build_dir_listing dir) path name = host_is_file path.
Proof.
  intros Hp Hn Ha Hs. unfold answer, build_dir_listing, stat_is_file. destruct is_custom; [done|].
  destruct (std_read_dir dir) as [entries| |] eqn:E; simpl.
  - destruct (list_entries_spec entries (mkListing ∅ ∅ false)) as (-> & Hf & _ & Hm). simpl.
    destruct (decide (name ∈ files _)) as [Hin|_].
    { destruct (Hf _ Hin) as [?|Hin']; [set_solver|]. symmetry. by eapply listed_file. }
    destruct (decide (to_ascii_lowercase name ∈ maybe_lower _)) as [|Hno]; [done|].
    destruct (host_is_file path) eqn:Ef; [|done].
    destruct (file_listed _ _ _ _ E Hp Hn Ha Ef) as (n' & t & Hin & Ht & Hl).
    exfalso. apply Hno. rewrite <- Hl. by eapply Hm.
  - rewrite (missing_dir _ _ E Hp); [done|]. intros ->. by destruct Hs.
  - done.
Qed.

Lemma probe_listed_true path dir name cache :
  truthful cache -> parent path = Some dir -> file_name path = Some name -> is_ascii name = true ->
  let '(hit, cache) := probe_listed path dir name cache in
  (plainly_spelled path -> hit = host_is_file path) /\ truthful cache.
Proof.
  intros Ht Hp Hn Ha. unfold probe_listed. destruct (dir_listings cache !! dir) as [listing|] eqn:E.
  { rewrite (true_listings _ Ht _ _ E). split; [by apply answer_true|done]. }
  destruct Ht as [H1 H2 H3].
  destruct (_ <=? _)%nat; (split; [by try apply answer_true|split; [done| |done]]); [|done].
  intros d l. simpl. destruct (decide (dir = d)) as [->|]; [rewrite lookup_insert_eq; congruence|].
  rewrite lookup_insert_ne by done. apply H2.
Qed.

Lemma is_existing_file_true path cache :
  truthful cache ->
  returns (is_existing_file path cache)
    (fun '(hit, cache) => (plainly_spelled path -> hit = host_is_file path) /\ truthful cache).
Proof.
  intros Ht. unfold is_existing_file.
  destruct (paths cache !! path) as [hit|] eqn:E; [split; [by apply (true_paths _ Ht)|done]|].
  apply returns_bind.
  apply (returns_mono _ (fun '(hit, cache) => (plainly_spelled path -> hit = host_is_file path) /\ truthful cache)).
  - destruct is_custom; [done|]. destruct (parent path) as [dir|] eqn:Ep; [|done].
    destruct (file_name path) as [name|] eqn:En; [|done]. destruct (is_ascii name) eqn:Ea; [|done].
    apply returns_bind, returns_mono with (1 := dir_exists_true (S (length dir)) dir cache Ht ltac:(lia)).
    intros [there cache'] [-> Ht']. destruct (host_is_dir dir) eqn:Ed; simpl.
    { by apply probe_listed_true. }
    split; [|done]. intros [Hs _]. destruct (host_is_file path) eqn:Ef; [|done].
    rewrite (above_file _ _ Ef Ep) in Ed; [done|congruence].
  - intros [hit cache'] [Hhit [H1 H2 H3]]. split; [done|]. split; simpl; [|done..].
    intros q h. destruct (decide (path = q)) as [->|]; [rewrite lookup_insert_eq; naive_solver|].
    rewrite lookup_insert_ne by done. apply H1.
Qed.
End probe.

(** ** The claim *)

(** C37 From an empty memo, any sequence of probes of paths below a directory
    that are spelled without a separator at the end answers for each path what
    asking the file system would, however many probes a directory has had, where
    the file system keeps the laws of [HostFsLaws] and does not change. *)
Theorem probes_are_stats `{Fs : HostFs} `{!HostFsLaws Fs} asked :
  Forall plainly_spelled asked ->
  exists cache, probes asked empty_cache = Ok (map host_is_file asked, cache).
Proof.
  intros Hs. cut (forall cache, truthful cache -> exists cache', probes asked cache = Ok (map host_is_file asked, cache')).
  { intros H. by apply H, truthful_empty. }
  induction Hs as [|path asked Hp _ IH]; intros cache Ht; [by eexists|].
  pose proof (is_existing_file_true path cache Ht) as H. simpl.
  destruct (is_existing_file path cache) as [[hit cache']| |]; simpl in *; [|done..].
  destruct H as [Hhit Ht']. rewrite (Hhit Hp). destruct (IH _ Ht') as [cache'' ->]. simpl. by eexists.
Qed.

(** A file system with the directories [/] and [/p], the file [a.ts] in the
    latter, which is the current directory, and nothing else to list. *)
Definition sample_is_file (p : str) : bool :=
  bool_decide (parent p = Some (lit "/p") \/ parent p = Some []) && bool_decide (file_name p = Some (lit "a.ts"))
  && ends_with (lit "a.ts") p.
Definition sample_fs : HostFs := {|
  is_custom := false;
  host_is_file := sample_is_file;
  host_is_dir := fun p => (p =s lit "/") || (p =s lit "/p");
  host_read_to_string := fun p => if sample_is_file p then Some [] else None;
  std_read_dir := fun d =>
    if d =s lit "/p" then Entries [(lit "a.ts", PlainFile)]
    else if d =s lit "/" then Entries [(lit "p", Directory)] else NotFound;
  std_canonicalize := fun p => if sample_is_file p then Some (lit "/p/a.ts") else None;
  std_exists := sample_is_file;
  std_is_file := sample_is_file;
  std_is_dir := fun _ => false;
  std_read_to_string := fun _ => None;
|}.

Lemma sample_is_file_spec p :
  sample_is_file p = true <->
  (parent p = Some (lit "/p") \/ parent p = Some []) /\ file_name p = Some (lit "a.ts") /\ ends_with (lit "a.ts") p = true.
Proof. unfold sample_is_file. rewrite !andb_true_iff, !bool_decide_eq_true. tauto. Qed.

Lemma sample_fs_laws : HostFsLaws sample_fs.
Proof.
  split; cbn [host_is_file host_is_dir std_read_dir sample_fs]; intros *.
  - intros (Hp & _)%sample_is_file_spec Hd Hne. rewrite Hd in Hp. destruct Hp as [[= ->]|[= ->]]; done.
  - intros [->%str_eqb_spec| ->%str_eqb_spec]%orb_true_iff Hd _; vm_compute in Hd; by simplify_eq.
  - destruct (dir =s lit "/p") eqn:E.
    + apply str_eqb_spec in E as ->. intros [= <-] Hp Hn [_ He] Hin.
      apply sample_is_file_spec. apply list_elem_of_singleton in Hin. injection Hin as ->. by auto.
    + destruct (dir =s lit "/"); [|done]. intros [= <-] _ _ _ Hin. by apply list_elem_of_singleton in Hin.
  - destruct (dir =s lit "/p") eqn:E.
    + intros [= <-] Hp Hn _ (_ & Hf & _)%sample_is_file_spec.
      rewrite Hf in Hn. injection Hn as <-. exists (lit "a.ts"), PlainFile. split_and!; [apply list_elem_of_here|done..].
    + destruct (dir =s lit "/") eqn:E'; [|done]. apply str_eqb_spec in E' as ->. intros _ Hp _ _ ([H|H] & _)%sample_is_file_spec;
        rewrite Hp in H; vm_compute in H; discriminate.
  - destruct (dir =s lit "/p") eqn:E; [done|]. destruct (dir =s lit "/"); [done|]. intros _ Hp Hne.
    apply not_true_iff_false. intros ([H|H] & _)%sample_is_file_spec; rewrite Hp in H; injection H as ->; done.
Qed.

(** Seventeen missing names and the file, the last two from the listing. *)
Definition sample_probes : list str :=
  map (fun c => lit "/p/" ++ [c]) (map Z.of_nat (seq 97 17)) ++ [lit "/p/a.ts"].

Lemma probes_are_stats_witness :
  Forall plainly_spelled sample_probes
  /\ (exists cache, @probes sample_fs sample_probes empty_cache = Ok (map (@host_is_file sample_fs) sample_probes, cache))
  /\ last (map (@host_is_file sample_fs) sample_probes) = Some true.
Proof.
  assert (Forall plainly_spelled sample_probes) as Hs.
  { repeat constructor; try discriminate; vm_compute; intros ? [= <-]; done. }
  split; [done|]. split; [|done]. exact (@probes_are_stats sample_fs sample_fs_laws sample_probes Hs).
Defined.
