(* ===== verification/ModuleCandidates.v ===== *)
(** * Module specifiers and their candidate files

    [surge-ts-checker/src/modules/candidates.rs], the extension substitution all
    resolvers share, and [surge-ts/src/specifier.rs]. *)

From S2P Require Import Prelude RustStr.

Local Open Scope Z_scope.

(** ** Specifiers ([specifier.rs]) *)

Definition is_relative_specifier (specifier : str) : bool :=
  (specifier =s lit ".") || (specifier =s lit "..")
  || starts_with (lit "./") specifier || starts_with (lit "../") specifier
  || starts_with (lit ".\") specifier || starts_with (lit "..\") specifier.

Definition is_external_specifier (specifier : str) : bool := negb (is_relative_specifier specifier).

(** ** Candidates ([candidates.rs]) *)

Inductive RelativeSpecifierShape :=
| ExplicitTs | ExplicitTsx | ExplicitJs | ExplicitMjs | ExplicitCjs | Extensionless | ExplicitJson.

Definition strip_extension (path : str) : str :=
  match rsplit_once 46 path with Some (head, _) => head | None => path end.

Definition strip_ts_extension (path : str) : str :=
  match strip_suffix (lit ".d.ts") path, strip_suffix (lit ".d.mts") path, strip_suffix (lit ".d.cts") path with
  | Some stem, _, _ | None, Some stem, _ | None, None, Some stem => stem
  | None, None, None => strip_extension path
  end.

Definition classify_relative_specifier (specifier : str) : RelativeSpecifierShape :=
  let last_segment := last_part 47 specifier in
  if (last_segment =s lit ".") || (last_segment =s lit "..") then Extensionless
  else if ends_with (lit ".json") last_segment then ExplicitJson
  else if ends_with (lit ".tsx") last_segment then ExplicitTsx
  else if ends_with (lit ".ts") last_segment then ExplicitTs
  else if ends_with (lit ".js") last_segment || ends_with (lit ".jsx") last_segment then ExplicitJs
  else if ends_with (lit ".mjs") last_segment || ends_with (lit ".mts") last_segment then ExplicitMjs
  else if ends_with (lit ".cjs") last_segment || ends_with (lit ".cts") last_segment then ExplicitCjs
  else Extensionless.

Definition substitution_candidates_js (stem : str) : list str :=
  [stem ++ lit ".ts"; stem ++ lit ".tsx"; stem ++ lit ".d.ts"].
Definition substitution_candidates_mjs (stem : str) : list str := [stem ++ lit ".mts"; stem ++ lit ".d.mts"].
Definition substitution_candidates_cjs (stem : str) : list str := [stem ++ lit ".cts"; stem ++ lit ".d.cts"].

Definition with_exact (exact : str) (substitutions : list str) : list str := exact :: substitutions.

Definition module_flavor_candidates (joined runtime_extension : str) (substitutions : str -> list str) : list str :=
  let stem := strip_ts_extension joined in
  if ends_with runtime_extension joined then with_exact joined (substitutions stem) else substitutions stem.

Definition directory_index_candidates (base : str) : list str :=
  [base ++ lit "/index.ts"; base ++ lit "/index.tsx"; base ++ lit "/index.d.ts"].

Definition extensionless_candidates (base : str) : list str :=
  [base; base ++ lit ".ts"; base ++ lit ".tsx"; base ++ lit ".d.ts"] ++ directory_index_candidates base.

(** The source answers [Some] always. *)
Definition relative_import_candidates (joined specifier : str) : option (list str) :=
  Some match classify_relative_specifier specifier with
       | ExplicitTs => substitution_candidates_js (strip_ts_extension joined)
       | ExplicitTsx =>
           let stem := strip_extension joined in [stem ++ lit ".tsx"; stem ++ lit ".ts"; stem ++ lit ".d.ts"]
       | ExplicitJs => with_exact joined (substitution_candidates_js (strip_extension joined))
       | ExplicitMjs => module_flavor_candidates joined (lit ".mjs") substitution_candidates_mjs
       | ExplicitCjs => module_flavor_candidates joined (lit ".cjs") substitution_candidates_cjs
       | ExplicitJson => [joined]
       | Extensionless => extensionless_candidates joined
       end.

Definition mapped_target_candidates (target : str) : list str :=
  let lower := to_ascii_lowercase target in
  if ends_with (lit ".d.ts") lower || ends_with (lit ".d.mts") lower || ends_with (lit ".d.cts") lower then [target]
  else if ends_with (lit ".ts") lower || ends_with (lit ".tsx") lower then [target]
  else if ends_with (lit ".js") lower || ends_with (lit ".jsx") lower then
    substitution_candidates_js (strip_extension target)
  else if ends_with (lit ".mjs") lower then substitution_candidates_mjs (strip_extension target)
  else if ends_with (lit ".cjs") lower then substitution_candidates_cjs (strip_extension target)
  else extensionless_candidates target.

Definition relative_specifier_names_directory (specifier : str) : bool :=
  ends_with (lit "/") specifier || ends_with (lit "\") specifier
  || let last_segment := last_part 92 (last_part 47 specifier) in
     (last_segment =s lit ".") || (last_segment =s lit "..").

(** The unit tests of the source. *)
Example explicit_candidates :
  map (fun '(joined, specifier) => relative_import_candidates (lit joined) (lit specifier))
    [("src/foo.mjs", "./foo.mjs"); ("src/foo.d.ts", "./foo.d.ts"); ("src/foo.d.cts", "./foo.d.cts");
     ("src/x.json", "./x.json"); ("src/foo.test.js", "./foo.test.js")]%string
  = map (fun l => Some (map lit l))
      [["src/foo.mjs"; "src/foo.mts"; "src/foo.d.mts"]; ["src/foo.ts"; "src/foo.tsx"; "src/foo.d.ts"];
       ["src/foo.cts"; "src/foo.d.cts"]; ["src/x.json"];
       ["src/foo.test.js"; "src/foo.test.ts"; "src/foo.test.tsx"; "src/foo.test.d.ts"]]%string.
Proof. vm_compute. done. Qed.

Example specifier_classes :
  map (fun s => is_relative_specifier (lit s)) [".."; ".\x"; ".pnpm"; "@scope/pkg"]%string = [true; true; false; false]
  /\ map (fun s => relative_specifier_names_directory (lit s)) ["./"; "../.."; "a\."; "./a"]%string
     = [true; true; true; false]
  /\ classify_relative_specifier (lit "./v1.2/foo") = Extensionless.
Proof. vm_compute. done. Qed.

