(* ===== verification/ImportGraph.v ===== *)
(** * The import graph ([surge-ts/src/import_graph.rs])

    The loader reads the files the sources of a project import, wave by wave:
    the specifiers of a wave's sources are resolved in order, through a memo of
    existence probes, and what was not known is read and becomes the next wave.

    A resolution is a tree of probes, so that it can be run on the memo, as the
    loader does, and be read as a function of which files exist. The
    specifiers of a source are what its parse says and a parameter; so is the
    parser of [serde_json]. Paths are texts, and the memo of canonical paths of
    [surge-ts-config/src/paths.rs], whose only effect is time, is left out. *)

From stdpp Require Import gmap sets.
From S2P Require Import Prelude Utf8 RustStr Json PathMapping UnixPath Probe ModuleCandidates.

(** ** Resolutions *)

Inductive Resolution (A : Type) : Type :=
| Answer (r : result A)
| Ask (candidate : str) (k : bool -> Resolution A).
Arguments Answer {A} _.
Arguments Ask {A} _ _.

Fixpoint resolution_bind {A B} (f : A -> Resolution B) (m : Resolution A) : Resolution B :=
  match m with
  | Answer (Ok a) => f a
  | Answer Panic => Answer Panic
  | Answer OutOfFuel => Answer OutOfFuel
  | Ask candidate k => Ask candidate (fun hit => resolution_bind f (k hit))
  end.
#[export] Instance resolution_ret : MRet Resolution := fun A a => Answer (Ok a).
#[export] Instance resolution_mbind : MBind Resolution := @resolution_bind.

(** [candidate_is_existing_file] at the call. *)
Definition ask (candidate : str) : Resolution bool := Ask candidate (fun hit => Answer (Ok hit)).

(** The resolution where the files that exist are these. *)
Fixpoint resolve_among {A} (existing : str -> bool) (m : Resolution A) : result A :=
  match m with
  | Answer r => r
  | Ask candidate k => resolve_among existing (k (existing candidate))
  end.

Section graph.
Context `{Fs : HostFs}.

(** [ImportGraphState::probe_cache] over the memo of the probe layer. *)
Record Probing := mkProbing { probe_cache : gmap str bool; layer : ProbeCache }.

Definition candidate_is_existing_file (candidate : str) (cache : Probing) : result (bool * Probing) :=
  match probe_cache cache !! candidate with
  | Some hit => Ok (hit, cache)
  | None =>
      '(is_file, l) ← is_existing_file candidate (layer cache);
      Ok (is_file, mkProbing (<[candidate := is_file]> (probe_cache cache)) l)
  end.

Fixpoint resolve_cached {A} (m : Resolution A) (cache : Probing) : result (A * Probing) :=
  match m with
  | Answer r => a ← r; Ok (a, cache)
  | Ask candidate k =>
      '(hit, cache) ← candidate_is_existing_file candidate cache;
      resolve_cached (k hit) cache
  end.

(** ** Paths *)

Definition path_ends_with_ignore_ascii_case (path suffix : str) : bool :=
  ends_with (to_ascii_lowercase suffix) (to_ascii_lowercase path).
Definition path_contains_ignore_ascii_case (path needle : str) : bool :=
  contains (to_ascii_lowercase needle) (to_ascii_lowercase path).

Definition is_loadable_graph_file (path : str) (resolve_json_module : bool) : bool :=
  if path_ends_with_ignore_ascii_case path (lit ".json") then resolve_json_module
  else path_ends_with_ignore_ascii_case path (lit ".ts") || path_ends_with_ignore_ascii_case path (lit ".tsx")
       || path_ends_with_ignore_ascii_case path (lit ".mts") || path_ends_with_ignore_ascii_case path (lit ".cts").

Definition is_dependency_javascript_source_file (path : str) : bool :=
  (path_contains_ignore_ascii_case path (lit "/node_modules/")
   || path_contains_ignore_ascii_case path (lit "\node_modules\"))
  && (path_ends_with_ignore_ascii_case path (lit ".js") || path_ends_with_ignore_ascii_case path (lit ".jsx")
      || path_ends_with_ignore_ascii_case path (lit ".mjs") || path_ends_with_ignore_ascii_case path (lit ".cjs")).

Definition is_javascript_file (path : str) : bool :=
  existsb (path_ends_with_ignore_ascii_case path) (map lit [".js"; ".jsx"; ".mjs"; ".cjs"]%string).

Definition loadable (resolve_json_module : bool) (path : str) : bool :=
  negb (is_dependency_javascript_source_file path || negb (is_loadable_graph_file path resolve_json_module)).

(** [canonicalize_if_exists] and [canonicalize_if_exists_string] of
    [surge-ts-config/src/paths.rs], where the leaf probe of macOS is off. *)
Definition canonicalize_if_exists (path : str) : result str :=
  match std_canonicalize path with
  | Some canonical => normalize_path_string canonical
  | None => normalize_path_string path
  end.
Definition canonicalize_if_exists_string (path : str) : result str :=
  canonical ← canonicalize_if_exists path;
  Ok (replace [backslash] [slash] canonical).

(** ** Resolving a specifier *)

Context (resolve_json_module : bool) (parse_json : str -> option Value).

(** The loop over candidates of [resolve_relative_candidate] and
    [probe_loadable_candidates]. *)
Fixpoint first_loadable (candidates : list str) : Resolution (option str) :=
  match candidates with
  | [] => mret None
  | candidate :: rest =>
      there ← ask candidate;
      if negb there then first_loadable rest
      else if negb (loadable resolve_json_module candidate) then first_loadable rest
      else mret (Some candidate)
  end.

Definition resolve_relative_candidate (importer_file specifier : str) : Resolution (option str) :=
  let importer_dir := default [] (parent importer_file) in
  normalized_specifier ← Answer (normalize_path_string specifier);
  joined ← Answer (normalize_path_string (path_join importer_dir normalized_specifier));
  match (if relative_specifier_names_directory specifier then Some (directory_index_candidates joined)
         else relative_import_candidates joined normalized_specifier) with
  | Some candidates => first_loadable candidates
  | None => mret None
  end.

Fixpoint first_existing (candidates : list str) : Resolution (option str) :=
  match candidates with
  | [] => mret None
  | candidate :: rest =>
      there ← ask candidate;
      if there : bool then mret (Some candidate) else first_existing rest
  end.

Definition removable : list str :=
  map lit [".d.ts"; ".d.mts"; ".d.cts"; ".mjs"; ".mts"; ".cjs"; ".cts"; ".ts"; ".js"; ".tsx"; ".jsx"; ".json"]%string.

(** What replaces a known extension. *)
Definition replacements (extension : str) : list str :=
  let eq e := extension =s lit e in
  if eq ".mjs"%string || eq ".mts"%string || eq ".d.mts"%string then map lit [".mts"; ".d.mts"; ".mjs"]%string
  else if eq ".cjs"%string || eq ".cts"%string || eq ".d.cts"%string then map lit [".cts"; ".d.cts"; ".cjs"]%string
  else if eq ".json"%string then
    if resolve_json_module then map lit [".d.json.ts"; ".json"]%string else [lit ".d.json.ts"]
  else if eq ".tsx"%string || eq ".jsx"%string then map lit [".tsx"; ".ts"; ".d.ts"; ".jsx"; ".js"]%string
  else if eq ".ts"%string || eq ".d.ts"%string || eq ".js"%string then
    map lit [".ts"; ".tsx"; ".d.ts"; ".js"; ".jsx"]%string
  else [lit ".d" ++ extension ++ lit ".ts"].

Definition module_file_candidates (candidate name : str) : list str :=
  match rsplit_once full_stop name with
  | Some (head, tail) =>
      let extension :=
        match find (fun extension => ends_with extension name) removable with
        | Some extension => extension
        | None => full_stop :: tail
        end in
      let stem := take (length name - length extension) name in
      map (fun replacement => with_file_name candidate (stem ++ replacement)) (replacements extension)
  | None => []
  end
  ++ map (fun extension => with_file_name candidate (name ++ extension))
       (map lit [".ts"; ".tsx"; ".d.ts"; ".js"; ".jsx"]%string).

Definition module_file_on_disk (candidate : str) : Resolution (option str) :=
  match file_name candidate with
  | Some name => first_existing (module_file_candidates candidate name)
  | None => mret None
  end.

(** The field of [package.json] that names the entry. *)
Definition entry_field (json : Value) : option str :=
  foldr (fun field rest => match value_get field json ≫= as_str with Some entry => Some entry | None => rest end)
    None (map lit ["typings"; "types"; "main"]%string).

Definition package_json_entry (directory : str) : result (option str) :=
  match text ← host_read_to_string (path_join directory (lit "package.json")); json ← parse_json text; entry_field json with
  | Some entry => normalized ← normalize_path_string (path_join directory entry); Ok (Some normalized)
  | None => Ok None
  end.

(** [module_on_disk]: the recursive call on the entry of [package.json] does not
    look for another one, so it is [entry_on_disk]. *)
Definition on_disk (entry : Resolution (option str)) (candidate : str) : Resolution (option str) :=
  file ← module_file_on_disk candidate;
  match file with
  | Some file => mret (Some file)
  | None =>
      if negb (host_is_dir candidate) then mret None
      else
        entry ← entry;
        match entry with
        | Some file => mret (Some file)
        | None => module_file_on_disk (path_join candidate (lit "index"))
        end
  end.
Definition entry_on_disk (candidate : str) : Resolution (option str) := on_disk (mret None) candidate.
Definition module_on_disk (candidate : str) : Resolution (option str) :=
  on_disk (entry ← Answer (package_json_entry candidate);
           match entry with Some entry => entry_on_disk entry | None => mret None end) candidate.

Definition resolve_relative_javascript (importer_file specifier : str) : Resolution (option str) :=
  let importer_dir := default [] (parent importer_file) in
  normalized_specifier ← Answer (normalize_path_string specifier);
  candidate ← Answer (normalize_path_string (path_join importer_dir normalized_specifier));
  resolved ← module_on_disk candidate;
  mret (match resolved with
        | Some resolved => if is_javascript_file resolved then Some resolved else None
        | None => None
        end).

Context (paths_ : list PathMapping) (base_url : option str) (root_dir : str).

Definition probe_loadable_candidates (target : str) : Resolution (option str) :=
  first_loadable (mapped_target_candidates target).

Fixpoint first_target (mapping_base : str) (targets : list str) : Resolution (option str) :=
  match targets with
  | [] => mret None
  | target :: rest =>
      joined ← Answer (normalize_path_string (path_join mapping_base target));
      found ← probe_loadable_candidates joined;
      match found with
      | Some candidate => mret (Some candidate)
      | None => first_target mapping_base rest
      end
  end.

Definition resolve_paths_alias_candidate (specifier : str) : Resolution (option str) :=
  let mapping_base := default root_dir base_url in
  targets ← Answer (select_path_mapping_targets specifier paths_);
  match targets with
  | Some targets => first_target mapping_base targets
  | None =>
      match base_url with
      | Some base_url =>
          joined ← Answer (normalize_path_string (path_join base_url specifier));
          probe_loadable_candidates joined
      | None => mret None
      end
  end.

(** What one specifier of a source resolves to: a file of the graph, or the
    JavaScript file a relative specifier lands on. *)
Definition resolve_specifier (file_path specifier : str) : Resolution (option str * option str) :=
  if is_relative_specifier specifier then
    candidate ← resolve_relative_candidate file_path specifier;
    match candidate with
    | Some candidate => mret (Some candidate, None)
    | None => javascript ← resolve_relative_javascript file_path specifier; mret (None, javascript)
    end
  else candidate ← resolve_paths_alias_candidate specifier; mret (candidate, None).

(** ** The expansion *)

Record Source := mkSource { src_path : str; src_name : str; src_text : str }.
Record SourceFileInput := mkInput { input_name : str; input_text : str }.

(** The state with the vectors the expansion appends to. *)
Record Graph := mkGraph {
  known_files : gset str;
  probing : Probing;
  next_source_index : nat;
  synced_inputs : nat;
  inputs : list SourceFileInput;
  sources : list Source;
  javascript_modules : list (str * str * str);
}.

(** The specifiers [ModuleSpecifierScanner] finds in a file. *)
Context (specifiers : str -> str -> list str).

Definition set_probing (g : Graph) (p : Probing) : Graph :=
  mkGraph (known_files g) p (next_source_index g) (synced_inputs g) (inputs g) (sources g) (javascript_modules g).
Definition push_javascript (g : Graph) (entry : str * str * str) : Graph :=
  mkGraph (known_files g) (probing g) (next_source_index g) (synced_inputs g) (inputs g) (sources g)
    (javascript_modules g ++ [entry]).
Definition add_known (g : Graph) (file : str) : Graph :=
  mkGraph ({[file]} ∪ known_files g) (probing g) (next_source_index g) (synced_inputs g) (inputs g) (sources g)
    (javascript_modules g).
Definition set_next (g : Graph) (n : nat) : Graph :=
  mkGraph (known_files g) (probing g) n (synced_inputs g) (inputs g) (sources g) (javascript_modules g).
Definition sync (g : Graph) : Graph :=
  mkGraph (known_files g) (probing g) (next_source_index g) (length (inputs g)) (inputs g) (sources g)
    (javascript_modules g).
Definition push_source (g : Graph) (path text : str) : Graph :=
  mkGraph (known_files g) (probing g) (next_source_index g) (synced_inputs g) (inputs g ++ [mkInput path text])
    (sources g ++ [mkSource path path text]) (javascript_modules g).

(** One specifier of one source; [discovered] collects the wave's new files. *)
Definition visit_specifier (source : Source) (acc : Graph * list str) (specifier : str) : result (Graph * list str) :=
  let '(g, discovered) := acc in
  '((candidate, javascript), p) ← resolve_cached (resolve_specifier (src_path source) specifier) (probing g);
  let g := set_probing g p in
  g ← (match javascript with
       | Some javascript =>
           normalized ← canonicalize_if_exists_string javascript;
           Ok (push_javascript g (src_name source, specifier, normalized))
       | None => Ok g
       end);
  match candidate with
  | None => Ok (g, discovered)
  | Some candidate =>
      if is_dependency_javascript_source_file candidate || negb (is_loadable_graph_file candidate resolve_json_module)
      then Ok (g, discovered)
      else
        canonical ← canonicalize_if_exists candidate;
        normalized ← canonicalize_if_exists_string canonical;
        if decide (normalized ∈ known_files g) then Ok (g, discovered)
        else Ok (add_known g normalized, discovered ++ [canonical])
  end.

Fixpoint visit_specifiers (source : Source) (acc : Graph * list str) (specs : list str) : result (Graph * list str) :=
  match specs with
  | [] => Ok acc
  | specifier :: specs => acc ← visit_specifier source acc specifier; visit_specifiers source acc specs
  end.

(** The sources of a wave, [next_source_index] up to its end. *)
Fixpoint visit_sources (wave : list Source) (acc : Graph * list str) : result (Graph * list str) :=
  match wave with
  | [] => Ok acc
  | source :: wave =>
      let '(g, discovered) := acc in
      let g := set_next g (S (next_source_index g)) in
      acc ← visit_specifiers source (g, discovered) (specifiers (src_name source) (src_text source));
      visit_sources wave acc
  end.

(** The pool reads the files of a wave and answers in their order. *)
Definition read_discovered_sources (paths : list str) : list (str * option str) :=
  map (fun path => (path, host_read_to_string path)) paths.

Definition append_source (acc : Graph * nat) (read : str * option str) : Graph * nat :=
  let '(g, added) := acc in
  match read with
  | (path, Some text) => (push_source g path text, S added)
  | (_, None) => (g, added)
  end.

(** One round of the outer loop. *)
Definition wave (acc : Graph * nat) : result ((Graph * nat) + (Graph * nat)) :=
  let '(g, added) := acc in
  if negb (next_source_index g <? length (sources g))%nat then Ok (inr (g, added))
  else
    '(g, discovered) ← visit_sources (drop (next_source_index g) (sources g)) (g, []);
    Ok (inl (foldl append_source (g, added) (read_discovered_sources discovered))).

(** The inputs other scanners have appended since the last call. *)
Fixpoint fold_inputs (g : Graph) (new : list SourceFileInput) : result Graph :=
  match new with
  | [] => Ok g
  | input :: new =>
      normalized ← canonicalize_if_exists_string (input_name input);
      fold_inputs (add_known g normalized) new
  end.

Definition expand_project_inputs (fuel : nat) (g : Graph) : result (Graph * nat) :=
  new ← unwrap (slice_range (inputs g) (synced_inputs g) (length (inputs g)));
  g ← fold_inputs g new;
  '(g, added) ← iterate fuel wave (g, 0%nat);
  Ok (sync g, added).
End graph.
