(* ===== verification/GraphReach.v ===== *)
(** * The import graph is loaded to its closure

    The expansion ends, and the sources it loads are the readable files the
    sources it starts from reach by their imports, each key once. What exists
    is what the probe memo says, which is the truth about every path spelled
    plainly. *)

From stdpp Require Import gmap sets.
From S2P Require Import Prelude UnixPath Json PathMapping Probe ModuleCandidates ImportGraph.

(** ** Resolutions on the memo *)

Definition agrees (existing : str -> bool) (p : Probing) : Prop :=
  forall candidate hit, probe_cache p !! candidate = Some hit -> existing candidate = hit.

Section memo.
Context `{Fs : HostFs}.

(** A resolution never diverges by itself. *)
Fixpoint ending {A} (m : Resolution A) : Prop :=
  match m with
  | Answer r => r <> OutOfFuel
  | Ask _ k => forall hit, ending (k hit)
  end.

Lemma ending_bind {A B} (m : Resolution A) (f : A -> Resolution B) :
  ending m -> (forall a, ending (f a)) -> ending (m ≫= f).
Proof. induction m as [[a| |]|candidate k IH]; simpl; intros Hm Hf; auto; congruence. Qed.

Lemma candidate_spec candidate p :
  returns (candidate_is_existing_file candidate p)
    (fun '(hit, p') => probe_cache p ⊆ probe_cache p' /\ probe_cache p' !! candidate = Some hit).
Proof.
  unfold candidate_is_existing_file. destruct (probe_cache p !! candidate) as [hit|] eqn:E; [done|].
  apply returns_bind, returns_mono with (1 := is_existing_file_ends candidate (layer p)).
  intros [hit l] _. simpl. split; [by apply insert_subseteq|]. apply lookup_insert_eq.
Qed.

(** On the memo a resolution answers as it does among the files the memo says
    exist. *)
Lemma resolve_cached_spec {A} (m : Resolution A) p :
  ending m ->
  ends (resolve_cached m p) (fun '(a, p') =>
    probe_cache p ⊆ probe_cache p' /\ forall existing, agrees existing p' -> resolve_among existing m = Ok a).
Proof.
  revert p. induction m as [r|candidate k IH]; intros p Hm; simpl.
  - destruct r; simpl; [split; [done|by intros]|done|done].
  - apply ends_bind. pose proof (candidate_spec candidate p) as Hc. apply returns_ends in Hc.
    apply (ends_mono _ _ _ Hc). intros [hit p'] [Hsub Hhit].
    apply (ends_mono _ _ _ (IH hit p' (Hm hit))). intros [a p''] [Hsub' Ha].
    split; [by transitivity (probe_cache p')|]. intros existing Hag.
    rewrite (Hag candidate hit); [by apply Ha|]. by eapply lookup_weaken.
Qed.

(** The memo is true of the paths spelled plainly. *)
Definition sound_probing (p : Probing) : Prop :=
  truthful (layer p)
  /\ forall candidate hit, probe_cache p !! candidate = Some hit -> plainly_spelled candidate -> hit = host_is_file candidate.

Context {Laws : HostFsLaws Fs}.

Lemma resolve_cached_sound {A} (m : Resolution A) p a p' :
  sound_probing p -> resolve_cached m p = Ok (a, p') -> sound_probing p'.
Proof.
  revert p. induction m as [r|candidate k IH]; intros p Hp; simpl.
  - destruct r; simpl; congruence.
  - unfold candidate_is_existing_file. destruct Hp as [Ht Hp].
    destruct (probe_cache p !! candidate) as [hit|]; simpl; [by apply IH|].
    pose proof (is_existing_file_true candidate (layer p) Ht) as Hf.
    destruct (is_existing_file candidate (layer p)) as [[hit l]| |]; simpl in *; [|done..].
    destruct Hf as [Hhit Hl]. apply IH. split; [done|]. simpl. intros c h.
    destruct (decide (candidate = c)) as [->|]; [rewrite lookup_insert_eq; naive_solver|].
    rewrite lookup_insert_ne by done. apply Hp.
Qed.
End memo.

(** ** The resolver's trees end *)

Lemma normalize_ends path : normalize_path_string path <> OutOfFuel.
Proof.
  unfold normalize_path_string. destruct (bool_decide _); simpl; [|done].
  destruct (Utf8.slice _ 0 2); simpl; [|done]. by destruct (Utf8.slice_from _ 2).
Qed.

Lemma select_ends specifier mappings : select_path_mapping_targets specifier mappings <> OutOfFuel.
Proof.
  unfold select_path_mapping_targets. destruct (exact_mapping specifier mappings); [done|].
  assert (forall best, best_mapping specifier best mappings <> OutOfFuel) as H.
  { induction mappings as [|m mappings IH]; intros best; simpl; [done|].
    destruct (better_mapping specifier best m) as [b| |] eqn:E; simpl; [apply IH|done|].
    exfalso. revert E. unfold better_mapping. destruct (single_star_parts _) as [[]|]; [|done].
    destruct (negb _); [done|]. by destruct (Utf8.slice _ _ _). }
  specialize (H None). by destruct (best_mapping specifier None mappings).
Qed.

Section resolver.
Context `{Fs : HostFs} (resolve_json_module : bool) (parse_json : str -> option Value).
Context (paths_ : list PathMapping) (base_url : option str) (root_dir : str).

Lemma first_loadable_ends candidates : ending (first_loadable resolve_json_module candidates).
Proof. induction candidates as [|c candidates IH]; simpl; [done|]. intros []; simpl; [by case_match|done]. Qed.

Lemma first_existing_ends candidates : ending (first_existing candidates).
Proof. induction candidates as [|c candidates IH]; simpl; [done|]. by intros []. Qed.

Lemma module_file_ends candidate : ending (module_file_on_disk resolve_json_module candidate).
Proof. unfold module_file_on_disk. case_match; [apply first_existing_ends|done]. Qed.

Lemma on_disk_ends entry candidate : ending entry -> ending (on_disk resolve_json_module entry candidate).
Proof.
  intros He. apply ending_bind; [apply module_file_ends|]. intros []; [done|]. case_match; [done|].
  apply ending_bind; [done|]. intros []; [done|]. apply module_file_ends.
Qed.

Lemma resolve_specifier_ends file specifier :
  ending (resolve_specifier resolve_json_module parse_json paths_ base_url root_dir file specifier).
Proof.
  assert (forall path, @ending str (Answer (normalize_path_string path))) as Hn by (intros; apply normalize_ends).
  unfold resolve_specifier. case_match; apply ending_bind.
  - apply ending_bind; [apply Hn|]. intros ns. apply ending_bind; [apply Hn|]. intros joined.
    case_match; [apply first_loadable_ends|done].
  - intros []; [done|]. apply ending_bind; [|done].
    apply ending_bind; [apply Hn|]. intros ns. apply ending_bind; [apply Hn|]. intros candidate.
    apply ending_bind; [|done]. apply on_disk_ends, ending_bind.
    + unfold package_json_entry; simpl. case_match; [|done].
      match goal with |- context [normalize_path_string ?p] => pose proof (normalize_ends p) end.
      by destruct (normalize_path_string _).
    + intros []; [|done]. by apply on_disk_ends.
  - apply ending_bind; [apply select_ends|]. intros [targets|].
    + induction targets as [|t targets IH]; [done|]. apply ending_bind; [apply Hn|]. intros joined.
      apply ending_bind; [apply first_loadable_ends|]. by intros [].
    + case_match; [|done]. apply ending_bind; [apply Hn|]. intros. apply first_loadable_ends.
  - done.
Qed.

Lemma canonicalize_ends path : canonicalize_if_exists path <> OutOfFuel.
Proof. unfold canonicalize_if_exists. case_match; apply normalize_ends. Qed.

Lemma canonicalize_string_ends path : canonicalize_if_exists_string path <> OutOfFuel.
Proof.
  unfold canonicalize_if_exists_string. pose proof (canonicalize_ends path).
  by destruct (canonicalize_if_exists path).
Qed.
End resolver.

Lemma ends_any {A} (r : result A) : r <> OutOfFuel -> ends r (fun _ => True).
Proof. by destruct r. Qed.

(** ** The closure *)

Section reach.
Context `{Fs : HostFs} (resolve_json_module : bool) (parse_json : str -> option Value).
Context (paths_ : list PathMapping) (base_url : option str) (root_dir : str).
Context (specifiers : str -> str -> list str).

(** [s] imports the file at [target.1], known by [target.2], by [specifier],
    where [existing] files exist. *)
Definition imports_by (s : Source) (specifier : str) (existing : str -> bool) (target : str * str) : Prop :=
  exists candidate javascript,
    resolve_among existing
      (resolve_specifier resolve_json_module parse_json paths_ base_url root_dir (src_path s) specifier)
    = Ok (Some candidate, javascript)
    /\ loadable resolve_json_module candidate = true
    /\ canonicalize_if_exists candidate = Ok target.1
    /\ canonicalize_if_exists_string target.1 = Ok target.2.

Definition imports (s : Source) (existing : str -> bool) (target : str * str) : Prop :=
  exists specifier, specifier ∈ specifiers (src_name s) (src_text s) /\ imports_by s specifier existing target.

Definition source_of (canonical : str) : option Source :=
  text ← host_read_to_string canonical; Some (mkSource canonical canonical text).

(** The sources reached from [start]: by imports of readable files that were not
    known before. *)
Inductive loaded (existing : str -> bool) (start : list Source) (known : gset str) : Source -> Prop :=
| loaded_start s : s ∈ start -> loaded existing start known s
| loaded_import s target s' :
    loaded existing start known s -> imports s existing target -> target.2 ∉ known ->
    source_of target.1 = Some s' -> loaded existing start known s'.

(** No two of the files reached are known by one key. *)
Definition keys_tell_apart (existing : str -> bool) (start : list Source) (known : gset str) : Prop :=
  forall s target s' target', loaded existing start known s -> imports s existing target ->
    loaded existing start known s' -> imports s' existing target' -> target.2 = target'.2 -> target.2 ∉ known ->
    target.1 = target'.1.

(** What a resolution does to the memo. *)
Definition probed (p p' : Probing) : Prop :=
  probe_cache p ⊆ probe_cache p' /\ exists (m : Resolution (option str * option str)) a, resolve_cached m p = Ok (a, p').

Lemma probed_subseteq p p' : rtc probed p p' -> probe_cache p ⊆ probe_cache p'.
Proof. induction 1 as [p|p p' p'' [Hsub _] _ IH]; [done|]. by transitivity (probe_cache p'). Qed.

(** What visiting [n] sources whose imports are [P] does to the graph and the
    discovered files. *)
Definition grows (n : nat) (P : (str -> bool) -> str * str -> Prop) (from to : Graph * list str) : Prop :=
  let '(g, d) := from in
  let '(g', d') := to in
  sources g' = sources g /\ inputs g' = inputs g /\ next_source_index g' = (n + next_source_index g)%nat
  /\ rtc probed (probing g) (probing g')
  /\ exists new,
       d' = d ++ new.*1 /\ known_files g' = list_to_set new.*2 ∪ known_files g
       /\ NoDup new.*2 /\ Forall (fun c => c.2 ∉ known_files g) new
       /\ Forall (fun c => canonicalize_if_exists_string c.1 = Ok c.2) new
       /\ forall existing, agrees existing (probing g') ->
            Forall (P existing) new /\ forall c, P existing c -> c.2 ∈ known_files g'.

Lemma agrees_mono existing p p' : probe_cache p ⊆ probe_cache p' -> agrees existing p' -> agrees existing p.
Proof. intros Hsub H c hit Hc. apply H. by eapply lookup_weaken. Qed.

Lemma grows_mono n (P Q : (str -> bool) -> str * str -> Prop) from to :
  (forall existing c, P existing c <-> Q existing c) -> grows n P from to -> grows n Q from to.
Proof.
  destruct from as [g d], to as [g' d']. intros HPQ (?&?&?&?& new &?&?&?&?&?& H). split_and!; [done..|].
  exists new. split_and!; [done..|]. intros existing Hag. destruct (H existing Hag) as [Hnew Hall]. split.
  - eapply Forall_impl; [exact Hnew|]. intros c. apply HPQ.
  - intros c Hc. by apply Hall, HPQ.
Qed.

Lemma grows_refl (P : (str -> bool) -> str * str -> Prop) from : (forall existing c, ~ P existing c) -> grows 0 P from from.
Proof.
  destruct from as [g d]. intros HP. split_and!; [done..|]. exists []. rewrite app_nil_r.
  split_and!; [done|set_solver|constructor|constructor|constructor|]. intros existing _. split; [constructor|naive_solver].
Qed.

Lemma grows_trans n m P Q a b c :
  grows n P a b -> grows m Q b c -> grows (m + n) (fun existing x => P existing x \/ Q existing x) a c.
Proof.
  destruct a as [g1 d1], b as [g2 d2], c as [g3 d3].
  intros (Hs & Hi & Hn & Hp & new & Hd & Hk & Hnd & Hf & Hc & HP)
    (Hs' & Hi' & Hn' & Hp' & new' & Hd' & Hk' & Hnd' & Hf' & Hc' & HQ).
  split_and!; [congruence|congruence|lia|by transitivity (probing g2)|].
  exists (new ++ new'). rewrite Hd', Hd, Hk', Hk, !fmap_app, app_assoc, list_to_set_app_L.
  split_and!; [done|set_solver| | |by apply Forall_app|].
  - apply NoDup_app. split_and!; [done| |done]. intros x Hx (c & -> & Hx')%list_elem_of_fmap. rewrite Forall_forall in Hf'.
    specialize (Hf' c Hx'). rewrite Hk in Hf'. set_solver.
  - apply Forall_app. split; [done|]. eapply Forall_impl; [exact Hf'|]. intros x. rewrite Hk. set_solver.
  - intros existing Hag. destruct (HQ existing Hag) as [HQ1 HQ2].
    destruct (HP existing (agrees_mono _ _ _ (probed_subseteq _ _ Hp') Hag)) as [HP1 HP2]. split.
    + apply Forall_app. split; eapply Forall_impl; eauto.
    + intros x [Hx|Hx]; [apply HP2 in Hx|apply HQ2 in Hx]; set_solver.
Qed.

Abbreviation visit_one := (visit_specifier resolve_json_module parse_json paths_ base_url root_dir).
Abbreviation visit_file := (visit_specifiers resolve_json_module parse_json paths_ base_url root_dir).
Abbreviation visit_wave := (visit_sources resolve_json_module parse_json paths_ base_url root_dir specifiers).

Lemma grows_same (P : (str -> bool) -> str * str -> Prop) g d g' :
  sources g' = sources g -> inputs g' = inputs g -> next_source_index g' = next_source_index g ->
  rtc probed (probing g) (probing g') -> known_files g' = known_files g ->
  (forall existing, agrees existing (probing g') -> forall c, P existing c -> c.2 ∈ known_files g) ->
  grows 0 P (g, d) (g', d).
Proof.
  intros Hs Hi Hn Hp Hk HP. split_and!; [done..|]. exists []. rewrite app_nil_r.
  split_and!; [done|rewrite Hk; set_solver|constructor|constructor|constructor|]. intros existing Hag. split; [constructor|].
  rewrite Hk. eauto.
Qed.

Lemma visit_specifier_grows source acc specifier :
  ends (visit_one source acc specifier) (grows 0 (imports_by source specifier) acc).
Proof.
  destruct acc as [g d]. unfold visit_specifier. apply ends_bind.
  pose proof (resolve_cached_spec _ (probing g)
    (resolve_specifier_ends resolve_json_module parse_json paths_ base_url root_dir (src_path source) specifier)) as Hr.
  apply (ends_mono _ _ _ (ends_eq _ _ Hr)). clear Hr. intros [[candidate javascript] p] (Hrun & Hsub & Hres). apply ends_bind.
  apply (ends_mono _ (fun g' => g' = set_probing g p \/ exists entry, g' = push_javascript (set_probing g p) entry)).
  { destruct javascript as [j|]; simpl; [|by left]. apply ends_bind.
    apply (ends_mono _ _ _ (ends_any _ (canonicalize_string_ends j))). intros normalized _. right. by eexists. }
  intros g' Hg'.
  assert (sources g' = sources g /\ inputs g' = inputs g /\ next_source_index g' = next_source_index g
          /\ probing g' = p /\ known_files g' = known_files g) as (Hs & Hi & Hn & Hp & Hk)
    by (destruct Hg' as [->|[? ->]]; done).
  clear Hg'. assert (rtc probed (probing g) (probing g')) as Hrtc
    by (rewrite Hp; apply rtc_once; split; [done|by eexists _, _]). clear Hrun Hsub.
  assert (forall existing, agrees existing (probing g') -> forall c, imports_by source specifier existing c ->
            exists cand, candidate = Some cand /\ loadable resolve_json_module cand = true
                         /\ canonicalize_if_exists cand = Ok c.1 /\ canonicalize_if_exists_string c.1 = Ok c.2) as Himp.
  { intros existing Hag c (cand & js & He & Hl & Hc & Hkey). rewrite Hp in Hag. rewrite (Hres existing Hag) in He.
    simplify_eq. by eexists. }
  destruct candidate as [cand|]; simpl.
  2: { apply grows_same; try done. intros existing Hag c Hc. by destruct (Himp existing Hag c Hc) as (? & ? & _). }
  fold (loadable resolve_json_module cand).
  assert (is_dependency_javascript_source_file cand || negb (is_loadable_graph_file cand resolve_json_module)
          = negb (loadable resolve_json_module cand)) as -> by (unfold loadable; by rewrite negb_involutive).
  destruct (loadable resolve_json_module cand) eqn:El; simpl.
  2: { apply grows_same; try done. intros existing Hag c Hc.
       destruct (Himp existing Hag c Hc) as (? & ? & ? & _). congruence. }
  apply ends_bind. apply (ends_mono _ _ _ (ends_eq _ _ (ends_any _ (canonicalize_ends cand)))).
  intros canonical [Hc _]. apply ends_bind.
  apply (ends_mono _ _ _ (ends_eq _ _ (ends_any _ (canonicalize_string_ends canonical)))). intros key [Hkey _].
  assert (forall existing, agrees existing (probing g') -> forall c, imports_by source specifier existing c -> c = (canonical, key)) as Hone.
  { intros existing Hag [c k] Hi'. destruct (Himp existing Hag _ Hi') as (? & ? & _ & ? & ?). simpl in *. congruence. }
  destruct (decide _) as [Hin|Hin]; simpl.
  - apply grows_same; try done. intros existing Hag c Hi'. rewrite (Hone existing Hag c Hi'). by rewrite <- Hk.
  - rewrite Hk in Hin. split_and!; [done..|]. exists [(canonical, key)]. simpl. rewrite Hk.
    split_and!; [done|set_solver|by apply NoDup_singleton|by apply Forall_singleton|by apply Forall_singleton|].
    intros existing Hag. split.
    + apply Forall_singleton. exists cand, javascript. rewrite <- Hp in Hres. by rewrite (Hres existing Hag).
    + intros c Hi'. rewrite (Hone existing Hag c Hi'). simpl. rewrite !elem_of_union, elem_of_singleton. auto.
Qed.

Lemma visit_specifiers_grows source specs acc :
  ends (visit_file source acc specs)
    (grows 0 (fun existing c => exists specifier, specifier ∈ specs /\ imports_by source specifier existing c) acc).
Proof.
  revert acc. induction specs as [|spec specs IH]; intros acc; simpl.
  - apply grows_refl. intros existing c (spec & []%elem_of_nil & _).
  - apply ends_bind. apply (ends_mono _ _ _ (visit_specifier_grows source acc spec)). intros acc' H1.
    apply (ends_mono _ _ _ (IH acc')). intros acc'' H2. pose proof (grows_trans _ _ _ _ _ _ _ H1 H2) as H3.
    revert H3. apply grows_mono. intros existing c. setoid_rewrite elem_of_cons. naive_solver.
Qed.

Lemma visit_sources_grows wave acc :
  ends (visit_wave wave acc)
    (grows (length wave) (fun existing c => exists s, s ∈ wave /\ imports s existing c) acc).
Proof.
  revert acc. induction wave as [|s wave IH]; intros [g d]; simpl.
  - refine (grows_refl _ (g, d) _). intros existing c (s & []%elem_of_nil & _).
  - apply ends_bind.
    apply (ends_mono _ _ _ (visit_specifiers_grows s (specifiers (src_name s) (src_text s)) (set_next g (S (next_source_index g)), d))).
    intros acc' H1. apply (ends_mono _ _ _ (IH acc')). intros acc'' H2.
    assert (grows 1 (imports s) (g, d) acc') as H1'.
    { destruct acc' as [g' d']. destruct H1 as (?&?& Hn &?& H1). simpl in Hn. split_and!; [done..|lia|done|done]. }
    pose proof (grows_trans _ _ _ _ _ _ _ H1' H2) as H3.
    replace (S (length wave)) with (length wave + 1)%nat by lia. revert H3. apply grows_mono. intros existing c.
    setoid_rewrite elem_of_cons. naive_solver.
Qed.

(** What the reads append. *)
Lemma append_sources d g added :
  let '(g', added') := foldl append_source (g, added) (read_discovered_sources d) in
  let new := omap source_of d in
  sources g' = sources g ++ new
  /\ inputs g' = inputs g ++ map (fun s => mkInput (src_path s) (src_text s)) new
  /\ added' = (added + length new)%nat
  /\ next_source_index g' = next_source_index g /\ probing g' = probing g /\ known_files g' = known_files g.
Proof.
  revert g added. induction d as [|c d IH]; intros g added; simpl; [by rewrite !app_nil_r, Nat.add_0_r|].
  destruct (host_read_to_string c) as [text|] eqn:E.
  2: { assert (source_of c = None) as -> by (unfold source_of; by rewrite E). apply IH. }
  assert (source_of c = Some (mkSource c c text)) as -> by (unfold source_of; by rewrite E).
  specialize (IH (push_source g c text) (S added)). destruct (foldl _ _ _) as [g' added'].
  destruct IH as (-> & -> & -> & -> & -> & ->). simpl. rewrite <- !app_assoc. by split_and!.
Qed.

Section from_start.
Context (g0 : Graph) (start_ok : (next_source_index g0 <= length (sources g0))%nat).

Definition start : list Source := drop (next_source_index g0) (sources g0).

(** Between two waves: the files discovered so far, [d], are known, and the
    readable ones are the sources appended. *)
Record between (acc : Graph * nat) (d : list (str * str)) : Prop := {
  b_sources : sources (fst acc) = sources g0 ++ omap source_of d.*1;
  b_inputs : inputs (fst acc) = inputs g0 ++ map (fun s => mkInput (src_path s) (src_text s)) (omap source_of d.*1);
  b_added : snd acc = length (omap source_of d.*1);
  b_next : (next_source_index g0 <= next_source_index (fst acc) <= length (sources (fst acc)))%nat;
  b_known : known_files (fst acc) = list_to_set d.*2 ∪ known_files g0;
  b_distinct : NoDup d.*2;
  b_fresh : Forall (fun c => c.2 ∉ known_files g0) d;
  b_keys : Forall (fun c => canonicalize_if_exists_string c.1 = Ok c.2) d;
  b_probing : rtc probed (probing g0) (probing (fst acc));
  b_reached existing : agrees existing (probing (fst acc)) ->
    Forall (fun c => exists s, loaded existing start (known_files g0) s /\ imports s existing c) d;
  b_closed existing : agrees existing (probing (fst acc)) ->
    forall i s c, (next_source_index g0 <= i < next_source_index (fst acc))%nat ->
      sources (fst acc) !! i = Some s -> imports s existing c -> c.2 ∈ known_files (fst acc);
}.

Lemma between_start : between (g0, 0%nat) [].
Proof.
  split; simpl; rewrite ?app_nil_r; try done; try lia; try constructor.
  - set_solver.
Qed.

(** Every source from [start] on is loaded. *)
Lemma between_loaded acc d existing i s :
  between acc d -> agrees existing (probing (fst acc)) ->
  (next_source_index g0 <= i)%nat -> sources (fst acc) !! i = Some s -> loaded existing start (known_files g0) s.
Proof.
  intros B Hag Hi Hs. rewrite (b_sources _ _ B) in Hs. apply lookup_app_Some in Hs as [Hs|[_ Hs]].
  - apply loaded_start, list_elem_of_lookup. exists (i - next_source_index g0)%nat. unfold start.
    rewrite lookup_drop. by replace (next_source_index g0 + (i - next_source_index g0))%nat with i by lia.
  - apply list_elem_of_lookup_2, list_elem_of_omap in Hs as (path & (c & -> & Hc)%list_elem_of_fmap & Hsrc).
    pose proof (b_reached _ _ B existing Hag) as Hr. rewrite Forall_forall in Hr.
    destruct (Hr c Hc) as (s' & Hl & Hi'). apply (loaded_import _ _ _ s' c); try done.
    pose proof (b_fresh _ _ B) as Hf. rewrite Forall_forall in Hf. by apply Hf.
Qed.

Lemma visit_between acc d g' new :
  between acc d ->
  let w := drop (next_source_index (fst acc)) (sources (fst acc)) in
  grows (length w) (fun existing c => exists s, s ∈ w /\ imports s existing c) (fst acc, []) (g', new) ->
  (exists new', new = new'.*1 /\ between (foldl append_source (g', snd acc) (read_discovered_sources new)) (d ++ new'))
  /\ next_source_index (fst (foldl append_source (g', snd acc) (read_discovered_sources new))) = length (sources (fst acc)).
Proof.
  destruct acc as [g added]. intros B w (Hs & Hi & Hn & Hp & new' & Hd & Hk & Hnd & Hf & Hkeys & Hall). simpl in Hd. subst new.
  rename new' into new. pose proof (append_sources new.*1 g' added) as Ha. destruct (foldl _ _ _) as [g'' added''].
  destruct Ha as (Hs' & Hi' & Hadd & Hn' & Hp' & Hk'). pose proof B as [Bs Bi Ba Bn Bk Bd Bf Bke Bp Br Bc]. simpl in *.
  assert (next_source_index g'' = length (sources g)) as Hnext.
  { rewrite Hn', Hn. unfold w. rewrite length_drop. lia. }
  split; [|done]. exists new. split; [done|]. split; simpl; rewrite ?fmap_app.
  - by rewrite Hs', Hs, Bs, omap_app, app_assoc.
  - by rewrite Hi', Hi, Bi, omap_app, map_app, app_assoc.
  - rewrite Hadd, Ba, omap_app, length_app. done.
  - rewrite Hnext, Hs', Hs, length_app. lia.
  - rewrite Hk', Hk, Bk, list_to_set_app_L. set_solver.
  - apply NoDup_app. split_and!; [done| |done]. intros x Hx (c & -> & Hx')%list_elem_of_fmap. rewrite Forall_forall in Hf.
    specialize (Hf c Hx'). rewrite Bk in Hf. set_solver.
  - apply Forall_app. split; [done|]. eapply Forall_impl; [exact Hf|]. intros x. rewrite Bk. set_solver.
  - by apply Forall_app.
  - rewrite Hp'. by transitivity (probing g).
  - rewrite Hp'. intros existing Hag. destruct (Hall existing Hag) as [Hnew _].
    pose proof (agrees_mono _ _ _ (probed_subseteq _ _ Hp) Hag) as Hag'. apply Forall_app. split; [by apply Br|].
    eapply Forall_impl; [exact Hnew|]. intros c (s & Hw & Himp). exists s. split; [|done].
    apply list_elem_of_lookup in Hw as [j Hj]. unfold w in Hj. rewrite lookup_drop in Hj.
    eapply (between_loaded _ _ _ _ _ B); [done| |exact Hj]. simpl. lia.
  - rewrite Hp'. intros existing Hag i s c Hi'' Hs'' Himp. destruct (Hall existing Hag) as [_ Hcl].
    pose proof (agrees_mono _ _ _ (probed_subseteq _ _ Hp) Hag) as Hag'. rewrite Hs', Hs in Hs''. rewrite lookup_app_l in Hs'' by lia.
    rewrite Hk'. destruct (decide (i < next_source_index g)%nat) as [Hlt|Hge].
    + rewrite Hk. apply elem_of_union_r. eapply Bc; [done| |done|done]. lia.
    + apply Hcl. exists s. split; [|done]. apply list_elem_of_lookup. exists (i - next_source_index g)%nat.
      unfold w. rewrite lookup_drop. by replace (next_source_index g + (i - next_source_index g))%nat with i by lia.
Qed.

(** A path has one key, so the paths are distinct as the keys are. *)
Lemma between_paths acc d : between acc d -> NoDup d.*1.
Proof.
  intros B. pose proof (b_distinct _ _ B) as Hd. pose proof (b_keys _ _ B) as Hk. clear B.
  induction d as [|c d IH]; simpl in *; [constructor|]. apply NoDup_cons in Hd as [Hc Hd]. apply Forall_cons in Hk as [Hkc Hk].
  apply NoDup_cons. split; [|by apply IH]. intros (c' & E & Hc')%list_elem_of_fmap. apply Hc.
  rewrite Forall_forall in Hk. specialize (Hk c' Hc'). apply list_elem_of_fmap. exists c'. split; [congruence|done].
Qed.

Context (readable : list str) (readable_ok : forall path, host_read_to_string path <> None -> path ∈ readable).

Lemma source_of_path c s : source_of c = Some s -> src_path s = c /\ c ∈ readable.
Proof.
  unfold source_of. destruct (host_read_to_string c) as [text|] eqn:E; [|done]. intros [= <-].
  split; [done|]. apply readable_ok. by rewrite E.
Qed.

Lemma source_paths d : map src_path (omap source_of d) = filter (fun c => is_Some (source_of c)) d.
Proof.
  induction d as [|c d IH]; simpl; [done|]. destruct (source_of c) as [s|] eqn:E.
  - rewrite filter_cons_True by (rewrite E; by eexists). simpl.
    f_equal; [by apply source_of_path|exact IH].
  - rewrite filter_cons_False by (rewrite E; by intros []). exact IH.
Qed.

Lemma source_paths_distinct d : NoDup d -> NoDup (map src_path (omap source_of d)).
Proof. intros Hd. rewrite source_paths. by apply NoDup_filter. Qed.

(** There are no more new sources than readable files. *)
Lemma sources_bound d : NoDup d -> (length (omap source_of d) <= length readable)%nat.
Proof.
  intros Hd. rewrite <- (length_map src_path). apply submseteq_length, NoDup_submseteq.
  - by apply source_paths_distinct.
  - intros x. rewrite source_paths, list_elem_of_filter. intros [[s Hs] _]. by apply (source_of_path _ _ Hs).
Qed.

Definition remaining (acc : Graph * nat) : nat :=
  2 * (length readable - snd acc) + (if (next_source_index (fst acc) <? length (sources (fst acc)))%nat then 1 else 0).

Lemma expansion_ends fuel :
  (2 * length readable + 1 < fuel)%nat ->
  ends (iterate fuel (wave resolve_json_module parse_json paths_ base_url root_dir specifiers) (g0, 0%nat))
    (fun acc => (exists d, between acc d) /\ next_source_index (fst acc) = length (sources (fst acc))).
Proof.
  intros Hfuel. apply (iterate_ends (fun acc => exists d, between acc d) remaining).
  - intros [g added] [d B]. unfold wave.
    destruct (negb (next_source_index g <? length (sources g))%nat) eqn:En; simpl.
    { split; [by exists d|]. pose proof (b_next _ _ B). simpl in *. lia. }
    apply ends_bind. apply (ends_mono _ _ _ (visit_sources_grows (drop (next_source_index g) (sources g)) (g, []))).
    intros [g' new] Hg. destruct (visit_between (g, added) d g' new B Hg) as [(new' & Hnew & B') Hn]. simpl.
    split; [by exists (d ++ new')|].
    pose proof (append_sources new g' added) as Ha. simpl in B', Hn. unfold remaining.
    pose proof (b_added _ _ B') as Hadd. pose proof (sources_bound _ (between_paths _ _ B')) as Hb.
    pose proof (b_added _ _ B) as Hadd0. destruct (foldl _ _ _) as [g'' added'']. simpl in *.
    destruct Ha as (Hs & _ & Hadd' & _ & _ & _). rewrite Hn, Hs, length_app, (proj1 Hg).
    destruct (next_source_index g <? length (sources g))%nat eqn:E1; [|done].
    destruct (omap source_of new) as [|s l] eqn:Eo; simpl in *.
    + rewrite (Nat.add_0_r (length (sources g))), Nat.ltb_irrefl. lia.
    + destruct (length (sources g) <? length (sources g) + _)%nat; lia.
  - exists []. apply between_start.
  - unfold remaining. simpl. destruct (_ <? _)%nat; lia.
Qed.
End from_start.
End reach.

(** ** The expansion *)

Section expansion.
Context `{Fs : HostFs} {Laws : HostFsLaws Fs} (resolve_json_module : bool) (parse_json : str -> option Value).
Context (paths_ : list PathMapping) (base_url : option str) (root_dir : str).
Context (specifiers : str -> str -> list str).

Lemma fold_inputs_spec g new :
  ends (fold_inputs g new) (fun g' =>
    sources g' = sources g /\ inputs g' = inputs g /\ next_source_index g' = next_source_index g
    /\ probing g' = probing g
    /\ forall k, k ∈ known_files g' <->
         k ∈ known_files g \/ exists input, input ∈ new /\ canonicalize_if_exists_string (input_name input) = Ok k).
Proof.
  revert g. induction new as [|input new IH]; intros g; simpl.
  - split_and!; try done. intros k. setoid_rewrite elem_of_nil. naive_solver.
  - apply ends_bind. apply (ends_mono _ _ _ (ends_eq _ _ (ends_any _ (canonicalize_string_ends (input_name input))))).
    intros normalized [Hn _]. apply (ends_mono _ _ _ (IH (add_known g normalized))).
    intros g' (-> & -> & -> & -> & Hk). split_and!; try done. intros k. rewrite Hk. simpl.
    rewrite elem_of_union, elem_of_singleton. setoid_rewrite elem_of_cons. split.
    + intros [[->|?]|(i & Hi & Hc)]; [right; by eauto|by left|right; by eauto].
    + intros [?|(i & [->|Hi] & Hc)]; [auto|left; left; congruence|right; by eauto].
Qed.

Lemma probed_sound p p' : rtc probed p p' -> sound_probing p -> sound_probing p'.
Proof.
  induction 1 as [p|p p' p'' (_ & m & a & Hrun) _ IH]; [done|]. intros Hp.
  by eapply IH, resolve_cached_sound.
Qed.

(** The files that exist as far as the memo says. *)
Definition memo_answers (p : Probing) (candidate : str) : bool := default (host_is_file candidate) (probe_cache p !! candidate).

Lemma memo_agrees p : agrees (memo_answers p) p.
Proof. intros candidate hit H. unfold memo_answers. by rewrite H. Qed.

Lemma memo_true p candidate : sound_probing p -> plainly_spelled candidate -> memo_answers p candidate = host_is_file candidate.
Proof.
  intros [_ H] Hc. unfold memo_answers. destruct (probe_cache p !! candidate) as [hit|] eqn:E; [|done].
  exact (H _ _ E Hc).
Qed.

(** The sources from the first unvisited one on, once the waves are over. *)
Lemma expansion_between g0 g' added d :
  (next_source_index g0 <= length (sources g0))%nat ->
  between resolve_json_module parse_json paths_ base_url root_dir specifiers g0 (g', added) d ->
  next_source_index g' = length (sources g') ->
  let existing := memo_answers (probing g') in
  let start := drop (next_source_index g0) (sources g0) in
  let reached := loaded resolve_json_module parse_json paths_ base_url root_dir specifiers existing start (known_files g0) in
  let imports := imports resolve_json_module parse_json paths_ base_url root_dir specifiers in
  (forall s, s ∈ drop (next_source_index g0) (sources g') -> reached s)
  /\ (forall s c, s ∈ drop (next_source_index g0) (sources g') -> imports s existing c -> c.2 ∈ known_files g0 \/ c.2 ∈ d.*2)
  /\ (keys_tell_apart resolve_json_module parse_json paths_ base_url root_dir specifiers existing start (known_files g0) ->
      forall s, reached s -> s ∈ drop (next_source_index g0) (sources g')).
Proof.
  intros Hstart B Hend. cbv zeta. pose proof (memo_agrees (probing g')) as Hag.
  pose proof (b_sources _ _ _ _ _ _ _ _ _ B) as Hsrcs. pose proof (b_known _ _ _ _ _ _ _ _ _ B) as Hkn. simpl in *.
  assert (forall s, s ∈ drop (next_source_index g0) (sources g') ->
    loaded resolve_json_module parse_json paths_ base_url root_dir specifiers (memo_answers (probing g'))
      (drop (next_source_index g0) (sources g0)) (known_files g0) s) as Hsound.
  { intros s [j Hj]%list_elem_of_lookup. rewrite lookup_drop in Hj.
    eapply (between_loaded _ _ _ _ _ _ g0 Hstart (g', added) d); [exact B|exact Hag| |exact Hj]. lia. }
  assert (forall s c, s ∈ drop (next_source_index g0) (sources g') ->
    imports resolve_json_module parse_json paths_ base_url root_dir specifiers s (memo_answers (probing g')) c ->
    c.2 ∈ known_files g0 \/ c.2 ∈ d.*2) as Hclosed.
  { intros s c [j Hj]%list_elem_of_lookup Himp. rewrite lookup_drop in Hj.
    pose proof (b_closed _ _ _ _ _ _ _ _ _ B _ Hag (next_source_index g0 + j)%nat s c) as Hc. simpl in Hc.
    apply lookup_lt_Some in Hj as Hlt. specialize (Hc ltac:(lia) Hj Himp). rewrite Hkn in Hc.
    apply elem_of_union in Hc as [Hc|Hc]; [right; by apply elem_of_list_to_set in Hc|by left]. }
  split_and!; [done|done|]. intros Htell s. induction 1 as [s Hin|s c s' Hl IH Himp Hnew Hsrc].
  - rewrite Hsrcs, drop_app_le by done. apply elem_of_app. by left.
  - destruct (Hclosed s c IH Himp) as [?|(c' & Ekey & Hc')%list_elem_of_fmap]; [done|].
    pose proof (b_reached _ _ _ _ _ _ _ _ _ B _ Hag) as Hr. rewrite Forall_forall in Hr. destruct (Hr c' Hc') as (s'' & Hl' & Himp').
    rewrite Hsrcs, drop_app_le by done. apply elem_of_app. right. apply list_elem_of_omap. exists c'.1.
    split; [by apply list_elem_of_fmap_2|]. by rewrite <- (Htell s c s'' c' Hl Himp Hl' Himp' Ekey Hnew).
Qed.

(** The known files when the expansion of [g] begins. *)
Definition known_at_start (g : Graph) (k : str) : Prop :=
  k ∈ known_files g
  \/ exists input, input ∈ drop (synced_inputs g) (inputs g) /\ canonicalize_if_exists_string (input_name input) = Ok k.

(** C34 Where finitely many files can be read, expanding the import graph ends,
    within twice as many waves as there are readable files, unless a path on the
    way has no normalization. It discovers files by the keys they are known by,
    each key once and none that was known: every file discovered is imported by a
    loaded source, every import of a source from the first unvisited one on was
    known or discovered, and the new sources are the discovered files that can be
    read. So all these sources are reached from the unvisited ones by imports of
    files that were not known, and where no two of the files reached are known by
    one key they are all that are reached. What exists is the truth about every
    path spelled plainly. *)
Theorem expansion_loads_closure g fuel readable :
  (forall path, host_read_to_string path <> None -> path ∈ readable) ->
  (next_source_index g <= length (sources g))%nat -> sound_probing (probing g) ->
  (2 * length readable + 1 < fuel)%nat ->
  ends (expand_project_inputs resolve_json_module parse_json paths_ base_url root_dir specifiers fuel g)
    (fun '(g', added) => exists existing known discovered,
      let new := omap source_of discovered.*1 in
      let start := drop (next_source_index g) (sources g) in
      let reached := loaded resolve_json_module parse_json paths_ base_url root_dir specifiers existing start known in
      let imports := imports resolve_json_module parse_json paths_ base_url root_dir specifiers in
      (forall path, plainly_spelled path -> existing path = host_is_file path)
      /\ (forall k, k ∈ known <-> known_at_start g k)
      /\ NoDup discovered.*2 /\ (forall k, k ∈ discovered.*2 -> k ∉ known)
      /\ (forall c, c ∈ discovered -> exists s, reached s /\ imports s existing c)
      /\ (forall s c, s ∈ drop (next_source_index g) (sources g') -> imports s existing c -> c.2 ∈ known \/ c.2 ∈ discovered.*2)
      /\ sources g' = sources g ++ new /\ length new = added /\ NoDup (map src_path new)
      /\ next_source_index g' = length (sources g') /\ synced_inputs g' = length (inputs g')
      /\ sound_probing (probing g')
      /\ (forall s, s ∈ drop (next_source_index g) (sources g') -> reached s)
      /\ (keys_tell_apart resolve_json_module parse_json paths_ base_url root_dir specifiers existing start known ->
          forall s, reached s -> s ∈ drop (next_source_index g) (sources g'))).
Proof.
  intros Hread Hstart Hsound Hfuel. unfold expand_project_inputs.
  destruct (slice_range _ _ _) as [new_inputs|] eqn:Esl; simpl; [|done].
  assert (new_inputs = drop (synced_inputs g) (inputs g)) as ->.
  { revert Esl. unfold slice_range. case_match; [|done]. intros [= <-]. apply take_ge. by rewrite length_drop. }
  apply ends_bind, (ends_mono _ _ _ (fold_inputs_spec g _)). intros g0 (Hs & Hi & Hn & Hp & Hk).
  rewrite <- Hn, <- Hs in Hstart. apply ends_bind.
  apply (ends_mono _ _ _ (expansion_ends resolve_json_module parse_json paths_ base_url root_dir specifiers
    g0 Hstart readable Hread fuel Hfuel)).
  intros [g' added] [[d B] Hend]. simpl in *. rewrite <- Hs, <- Hn.
  exists (memo_answers (probing g')), (known_files g0), d.
  pose proof (expansion_between g0 g' added d Hstart B Hend) as (Hreached & Hclosed & Hall).
  assert (sound_probing (probing g')) as Hsound'.
  { eapply probed_sound; [exact (b_probing _ _ _ _ _ _ _ _ _ B)|]. by rewrite Hp. }
  split_and!; try done.
  - intros path Hplain. by apply memo_true.
  - exact (b_distinct _ _ _ _ _ _ _ _ _ B).
  - intros k (c & -> & Hc)%list_elem_of_fmap. pose proof (b_fresh _ _ _ _ _ _ _ _ _ B) as Hf.
    rewrite Forall_forall in Hf. by apply Hf.
  - intros c Hc. pose proof (b_reached _ _ _ _ _ _ _ _ _ B _ (memo_agrees (probing g'))) as Hr.
    rewrite Forall_forall in Hr. by apply Hr.
  - exact (b_sources _ _ _ _ _ _ _ _ _ B).
  - symmetry. exact (b_added _ _ _ _ _ _ _ _ _ B).
  - apply (source_paths_distinct readable Hread). by eapply between_paths.
Qed.
End expansion.

(** Two files that import each other and a missing one. *)
Definition file_a : str := lit "/p/a.ts".
Definition file_b : str := lit "/p/b.ts".
Definition is_sample (p : str) : bool := (p =s file_a) || (p =s file_b).
Definition two_files : HostFs := {|
  is_custom := false;
  host_is_file := is_sample;
  host_is_dir := fun p => (p =s lit "/") || (p =s lit "/p");
  host_read_to_string := fun p => if is_sample p then Some (lit "text") else None;
  std_read_dir := fun d => if (d =s lit "/") || (d =s lit "/p") then Unreadable else NotFound;
  std_canonicalize := fun p => if is_sample p then Some p else None;
  std_exists := is_sample;
  std_is_file := is_sample;
  std_is_dir := fun _ => false;
  std_read_to_string := fun _ => None;
|}.
Definition sample_specifiers (name _ : str) : list str :=
  if name =s file_a then [lit "./b"; lit "./b.js"; lit "pkg"] else [lit "./a"; lit "./c"].
Definition sample_graph : Graph :=
  mkGraph ∅ (mkProbing ∅ empty_cache) 0 0 [mkInput file_a (lit "text")] [mkSource file_a file_a (lit "text")] [].
Definition sample_expansion : result (Graph * nat) :=
  @expand_project_inputs two_files true (fun _ => None) [] None (lit "/p") sample_specifiers 6 sample_graph.

Lemma is_sample_spec p : is_sample p = true <-> p = file_a \/ p = file_b.
Proof. unfold is_sample. by rewrite orb_true_iff, !str_eqb_spec. Qed.

Lemma two_files_laws : HostFsLaws two_files.
Proof.
  split; cbn [host_is_file host_is_dir std_read_dir two_files]; intros *.
  - intros [->| ->]%is_sample_spec Hd _; vm_compute in Hd; by simplify_eq.
  - intros [->%str_eqb_spec| ->%str_eqb_spec]%orb_true_iff Hd _; vm_compute in Hd; by simplify_eq.
  - by destruct (_ || _).
  - by destruct (_ || _).
  - destruct (_ || _) eqn:E; [done|]. intros _ Hp _. apply not_true_iff_false.
    intros [->| ->]%is_sample_spec; vm_compute in Hp; by simplify_eq.
Qed.

Lemma two_files_readable path : @host_read_to_string two_files path <> None -> path ∈ [file_a; file_b].
Proof.
  cbn [host_read_to_string two_files]. destruct (is_sample path) eqn:E; [|done]. intros _.
  apply is_sample_spec in E. rewrite !elem_of_cons. tauto.
Qed.

Lemma expansion_loads_closure_witness :
  (exists g, sample_expansion = Ok (g, 1%nat) /\ map src_path (sources g) = [file_a; file_b])
  /\ exists g added existing known discovered,
       sample_expansion = Ok (g, added)
       /\ sources g = sources sample_graph ++ omap (source_of (Fs := two_files)) discovered.*1
       /\ NoDup discovered.*2
       /\ (forall s, s ∈ drop 0 (sources g) ->
            @loaded two_files true (fun _ => None) [] None (lit "/p") sample_specifiers existing
              (drop 0 (sources sample_graph)) known s)
       /\ forall s c, s ∈ drop 0 (sources g) ->
            @imports two_files true (fun _ => None) [] None (lit "/p") sample_specifiers s existing c ->
            c.2 ∈ known \/ c.2 ∈ discovered.*2.
Proof.
  assert (exists g, sample_expansion = Ok (g, 1%nat) /\ map src_path (sources g) = [file_a; file_b]) as Hrun
    by (eexists; split; vm_compute; reflexivity).
  split; [exact Hrun|].
  pose proof (@expansion_loads_closure two_files two_files_laws true (fun _ => None) [] None (lit "/p") sample_specifiers
    sample_graph 6 [file_a; file_b]) as H.
  destruct Hrun as (g & Hrun & _). pose proof Hrun as Hrun'. unfold sample_expansion in Hrun. rewrite Hrun in H.
  destruct H as (existing & known & discovered & _ & _ & Hd & _ & _ & Hc & Hs & _ & _ & _ & _ & _ & Hl & _).
  - exact two_files_readable.
  - simpl. lia.
  - split; [apply (@truthful_empty two_files)|]. intros candidate hit. simpl. by rewrite lookup_empty.
  - simpl. lia.
  - exists g, 1%nat, existing, known, discovered. split; [exact Hrun'|]. split_and!; [exact Hs|exact Hd|exact Hl|exact Hc].
Defined.
