(* ===== verification/CompilerOptions.v ===== *)
(** * Compiler options ([surge-ts-config/src/model.rs], [options.rs])

    The options of a project after normalization, and the table of the options a
    configuration may hold. The boolean options are one function from their
    names, [Flag], and so are the names a JSX tag refers to. *)

From S2P Require Import Prelude RustStr Json PathMapping.

(** ** Values *)

Inductive ScriptTarget :=
| ES2015 | ES2016 | ES2017 | ES2018 | ES2019 | ES2020 | ES2021 | ES2022 | ES2023 | ES2024 | ES2025 | ESNext.

(** The derived order of [ScriptTarget] is that of its constructors. *)
Definition target_rank (t : ScriptTarget) : nat :=
  match t with
  | ES2015 => 0 | ES2016 => 1 | ES2017 => 2 | ES2018 => 3 | ES2019 => 4 | ES2020 => 5 | ES2021 => 6
  | ES2022 => 7 | ES2023 => 8 | ES2024 => 9 | ES2025 => 10 | ESNext => 11
  end.
Definition target_ge (t minimum : ScriptTarget) : bool := (target_rank minimum <=? target_rank t)%nat.

Inductive ModuleKind :=
| ModuleCommonJS | ModuleES2015 | ModuleES2020 | ModuleES2022 | ModuleESNext
| ModuleNode16 | ModuleNode18 | ModuleNode20 | ModuleNodeNext | ModulePreserve.

Inductive ModuleResolutionKind := Node16 | Node20 | NodeNext | Bundler.

Inductive ModuleDetectionKind := DetectAuto | DetectLegacy | DetectForce.

Inductive JsxMode := JsxPreserve | JsxReact | JsxReactJsx | JsxReactJsxDev | JsxReactNative.

(** The fields of type [bool]. *)
Inductive Flag :=
| strict | no_implicit_any | no_implicit_this | strict_null_checks | strict_bind_call_apply
| strict_builtin_iterator_return | strict_property_initialization | use_unknown_in_catch_variables
| no_implicit_returns | no_fallthrough_cases_in_switch | no_implicit_override | declaration | composite
| isolated_declarations | isolated_modules | verbatim_module_syntax | no_property_access_from_index_signature
| no_unchecked_indexed_access | no_unchecked_side_effect_imports | exact_optional_property_types
| allow_importing_ts_extensions | rewrite_relative_import_extensions | allow_arbitrary_extensions
| experimental_decorators | import_helpers | emit_decorator_metadata | no_unused_locals | no_unused_parameters
| allow_unreachable_code | report_unreachable_code | use_define_for_class_fields | allow_js | erasable_syntax_only
| no_emit | no_check | no_resolve | skip_lib_check | es_module_interop | allow_synthetic_default_imports
| allow_umd_global_access | no_lib | resolve_package_json_exports | resolve_package_json_imports | resolve_json_module
| lib_replacement.

#[export] Instance flag_eq_dec : EqDecision Flag.
Proof. solve_decision. Defined.

Inductive JsxName := jsx_factory | jsx_fragment_factory | react_namespace | jsx_import_source.
#[export] Instance jsx_name_eq_dec : EqDecision JsxName.
Proof. solve_decision. Defined.

(** A function changed at one name. *)
Definition update {K A} `{EqDecision K} (f : K -> A) (k : K) (a : A) : K -> A :=
  fun k' => if decide (k' = k) then a else f k'.

Lemma update_at {K A} `{EqDecision K} (f : K -> A) k a : update f k a k = a.
Proof. unfold update. by rewrite decide_True. Qed.
Lemma update_other {K A} `{EqDecision K} (f : K -> A) k a k' : k' <> k -> update f k a k' = f k'.
Proof. intros. unfold update. by rewrite decide_False. Qed.

Record NormalizedCompilerOptions := mkCompilerOptions {
  flag : Flag -> bool;
  allow_unused_labels : option bool;
  target : ScriptTarget;
  module : ModuleKind;
  emit_module : ModuleKind;
  module_resolution : ModuleResolutionKind;
  jsx : option JsxMode;
  jsx_names : JsxName -> option str;
  check_js : option bool;
  module_detection : ModuleDetectionKind;
  lib : list str;
  paths : list PathMapping;
  base_url : option str;
  type_roots : list str;
  types : option (list str);
  custom_conditions : list str;
}.

Definition default_flag (f : Flag) : bool :=
  match f with
  | strict | no_implicit_any | no_implicit_this | strict_null_checks | strict_bind_call_apply
  | strict_builtin_iterator_return | strict_property_initialization | use_unknown_in_catch_variables
  | no_unchecked_side_effect_imports | use_define_for_class_fields | resolve_package_json_exports
  | resolve_package_json_imports | resolve_json_module => true
  | _ => false
  end.

Definition default_options : NormalizedCompilerOptions :=
  mkCompilerOptions default_flag None ES2024 ModulePreserve ModuleES2022 Bundler None (fun _ => None) None DetectAuto
    [] [] None [] None [].

Definition set_flag (v : Flag -> bool) (o : NormalizedCompilerOptions) : NormalizedCompilerOptions :=
  mkCompilerOptions v (allow_unused_labels o) (target o) (module o) (emit_module o) (module_resolution o) (jsx o)
  (jsx_names o) (check_js o) (module_detection o) (lib o) (paths o) (base_url o) (type_roots o) (types o)
  (custom_conditions o).
Definition set_allow_unused_labels (v : option bool) (o : NormalizedCompilerOptions) : NormalizedCompilerOptions :=
  mkCompilerOptions (flag o) v (target o) (module o) (emit_module o) (module_resolution o) (jsx o) (jsx_names o)
  (check_js o) (module_detection o) (lib o) (paths o) (base_url o) (type_roots o) (types o) (custom_conditions o).
Definition set_target (v : ScriptTarget) (o : NormalizedCompilerOptions) : NormalizedCompilerOptions :=
  mkCompilerOptions (flag o) (allow_unused_labels o) v (module o) (emit_module o) (module_resolution o) (jsx o)
  (jsx_names o) (check_js o) (module_detection o) (lib o) (paths o) (base_url o) (type_roots o) (types o)
  (custom_conditions o).
Definition set_module (v : ModuleKind) (o : NormalizedCompilerOptions) : NormalizedCompilerOptions :=
  mkCompilerOptions (flag o) (allow_unused_labels o) (target o) v (emit_module o) (module_resolution o) (jsx o)
  (jsx_names o) (check_js o) (module_detection o) (lib o) (paths o) (base_url o) (type_roots o) (types o)
  (custom_conditions o).
Definition set_emit_module (v : ModuleKind) (o : NormalizedCompilerOptions) : NormalizedCompilerOptions :=
  mkCompilerOptions (flag o) (allow_unused_labels o) (target o) (module o) v (module_resolution o) (jsx o)
  (jsx_names o) (check_js o) (module_detection o) (lib o) (paths o) (base_url o) (type_roots o) (types o)
  (custom_conditions o).
Definition set_module_resolution (v : ModuleResolutionKind) (o : NormalizedCompilerOptions) : NormalizedCompilerOptions :=
  mkCompilerOptions (flag o) (allow_unused_labels o) (target o) (module o) (emit_module o) v (jsx o) (jsx_names o)
  (check_js o) (module_detection o) (lib o) (paths o) (base_url o) (type_roots o) (types o) (custom_conditions o).
Definition set_jsx (v : option JsxMode) (o : NormalizedCompilerOptions) : NormalizedCompilerOptions :=
  mkCompilerOptions (flag o) (allow_unused_labels o) (target o) (module o) (emit_module o) (module_resolution o) v
  (jsx_names o) (check_js o) (module_detection o) (lib o) (paths o) (base_url o) (type_roots o) (types o)
  (custom_conditions o).
Definition set_jsx_names (v : JsxName -> option str) (o : NormalizedCompilerOptions) : NormalizedCompilerOptions :=
  mkCompilerOptions (flag o) (allow_unused_labels o) (target o) (module o) (emit_module o) (module_resolution o)
  (jsx o) v (check_js o) (module_detection o) (lib o) (paths o) (base_url o) (type_roots o) (types o)
  (custom_conditions o).
Definition set_check_js (v : option bool) (o : NormalizedCompilerOptions) : NormalizedCompilerOptions :=
  mkCompilerOptions (flag o) (allow_unused_labels o) (target o) (module o) (emit_module o) (module_resolution o)
  (jsx o) (jsx_names o) v (module_detection o) (lib o) (paths o) (base_url o) (type_roots o) (types o)
  (custom_conditions o).
Definition set_module_detection (v : ModuleDetectionKind) (o : NormalizedCompilerOptions) : NormalizedCompilerOptions :=
  mkCompilerOptions (flag o) (allow_unused_labels o) (target o) (module o) (emit_module o) (module_resolution o)
  (jsx o) (jsx_names o) (check_js o) v (lib o) (paths o) (base_url o) (type_roots o) (types o) (custom_conditions o).
Definition set_lib (v : list str) (o : NormalizedCompilerOptions) : NormalizedCompilerOptions :=
  mkCompilerOptions (flag o) (allow_unused_labels o) (target o) (module o) (emit_module o) (module_resolution o)
  (jsx o) (jsx_names o) (check_js o) (module_detection o) v (paths o) (base_url o) (type_roots o) (types o)
  (custom_conditions o).
Definition set_paths (v : list PathMapping) (o : NormalizedCompilerOptions) : NormalizedCompilerOptions :=
  mkCompilerOptions (flag o) (allow_unused_labels o) (target o) (module o) (emit_module o) (module_resolution o)
  (jsx o) (jsx_names o) (check_js o) (module_detection o) (lib o) v (base_url o) (type_roots o) (types o)
  (custom_conditions o).
Definition set_base_url (v : option str) (o : NormalizedCompilerOptions) : NormalizedCompilerOptions :=
  mkCompilerOptions (flag o) (allow_unused_labels o) (target o) (module o) (emit_module o) (module_resolution o)
  (jsx o) (jsx_names o) (check_js o) (module_detection o) (lib o) (paths o) v (type_roots o) (types o)
  (custom_conditions o).
Definition set_type_roots (v : list str) (o : NormalizedCompilerOptions) : NormalizedCompilerOptions :=
  mkCompilerOptions (flag o) (allow_unused_labels o) (target o) (module o) (emit_module o) (module_resolution o)
  (jsx o) (jsx_names o) (check_js o) (module_detection o) (lib o) (paths o) (base_url o) v (types o)
  (custom_conditions o).
Definition set_types (v : option (list str)) (o : NormalizedCompilerOptions) : NormalizedCompilerOptions :=
  mkCompilerOptions (flag o) (allow_unused_labels o) (target o) (module o) (emit_module o) (module_resolution o)
  (jsx o) (jsx_names o) (check_js o) (module_detection o) (lib o) (paths o) (base_url o) (type_roots o) v
  (custom_conditions o).
Definition set_custom_conditions (v : list str) (o : NormalizedCompilerOptions) : NormalizedCompilerOptions :=
  mkCompilerOptions (flag o) (allow_unused_labels o) (target o) (module o) (emit_module o) (module_resolution o)
  (jsx o) (jsx_names o) (check_js o) (module_detection o) (lib o) (paths o) (base_url o) (type_roots o) (types o) v.
Definition set_flag_to (f : Flag) (b : bool) (o : NormalizedCompilerOptions) : NormalizedCompilerOptions :=
  set_flag (update (flag o) f b) o.

(** ** The table of options ([options.rs]) *)

Inductive TsConfigOptionSupport := Supported | KnownNoop | UnsupportedLegacy.
Inductive TsConfigOptionValueKind :=
| BooleanValue | StringValue | StringArrayValue | StringMapToStringArray | ObjectArray.

Record TsConfigOptionDefinition := mkDefinition {
  option_name : str;
  value_kind : TsConfigOptionValueKind;
  support : TsConfigOptionSupport;
}.

Definition TS_CONFIG_OPTION_DEFINITIONS : list TsConfigOptionDefinition :=
  map (fun '(name, kind, support) => mkDefinition (lit name) kind support)
    [("strict", BooleanValue, Supported); ("noImplicitAny", BooleanValue, Supported);
     ("useUnknownInCatchVariables", BooleanValue, Supported); ("target", StringValue, Supported);
     ("module", StringValue, Supported); ("moduleResolution", StringValue, Supported);
     ("jsx", StringValue, Supported); ("jsxFactory", StringValue, Supported);
     ("jsxFragmentFactory", StringValue, Supported); ("reactNamespace", StringValue, Supported);
     ("jsxImportSource", StringValue, Supported); ("allowJs", BooleanValue, Supported);
     ("checkJs", BooleanValue, Supported); ("noEmit", BooleanValue, Supported); ("noCheck", BooleanValue, Supported);
     ("noResolve", BooleanValue, Supported); ("skipLibCheck", BooleanValue, Supported);
     ("paths", StringMapToStringArray, Supported); ("typeRoots", StringArrayValue, Supported);
     ("types", StringArrayValue, Supported); ("resolvePackageJsonExports", BooleanValue, Supported);
     ("resolvePackageJsonImports", BooleanValue, Supported); ("customConditions", StringArrayValue, Supported);
     ("rootDir", StringValue, KnownNoop); ("outDir", StringValue, KnownNoop);
     ("declarationDir", StringValue, KnownNoop); ("declaration", BooleanValue, KnownNoop);
     ("declarationMap", BooleanValue, KnownNoop); ("emitDeclarationOnly", BooleanValue, KnownNoop);
     ("sourceMap", BooleanValue, KnownNoop); ("inlineSourceMap", BooleanValue, KnownNoop);
     ("removeComments", BooleanValue, KnownNoop); ("experimentalDecorators", BooleanValue, KnownNoop);
     ("emitDecoratorMetadata", BooleanValue, KnownNoop); ("pretty", BooleanValue, KnownNoop);
     ("noErrorTruncation", BooleanValue, KnownNoop); ("allowImportingTsExtensions", BooleanValue, Supported);
     ("isolatedDeclarations", BooleanValue, KnownNoop); ("importHelpers", BooleanValue, KnownNoop);
     ("isolatedModules", BooleanValue, KnownNoop); ("verbatimModuleSyntax", BooleanValue, KnownNoop);
     ("moduleDetection", StringValue, Supported); ("resolveJsonModule", BooleanValue, Supported);
     ("esModuleInterop", BooleanValue, KnownNoop); ("allowSyntheticDefaultImports", BooleanValue, KnownNoop);
     ("allowUmdGlobalAccess", BooleanValue, Supported); ("forceConsistentCasingInFileNames", BooleanValue, KnownNoop);
     ("noUncheckedIndexedAccess", BooleanValue, Supported); ("exactOptionalPropertyTypes", BooleanValue, Supported);
     ("strictNullChecks", BooleanValue, Supported); ("strictFunctionTypes", BooleanValue, KnownNoop);
     ("strictBindCallApply", BooleanValue, KnownNoop); ("strictBuiltinIteratorReturn", BooleanValue, Supported);
     ("strictPropertyInitialization", BooleanValue, KnownNoop); ("noImplicitThis", BooleanValue, KnownNoop);
     ("alwaysStrict", BooleanValue, KnownNoop); ("noImplicitReturns", BooleanValue, Supported);
     ("noFallthroughCasesInSwitch", BooleanValue, Supported); ("noUnusedLocals", BooleanValue, Supported);
     ("noUnusedParameters", BooleanValue, Supported); ("allowUnreachableCode", BooleanValue, Supported);
     ("allowUnusedLabels", BooleanValue, Supported); ("noImplicitOverride", BooleanValue, Supported);
     ("noPropertyAccessFromIndexSignature", BooleanValue, Supported);
     ("noUncheckedSideEffectImports", BooleanValue, Supported); ("useDefineForClassFields", BooleanValue, KnownNoop);
     ("erasableSyntaxOnly", BooleanValue, Supported); ("newLine", StringValue, KnownNoop);
     ("stripInternal", BooleanValue, KnownNoop); ("noEmitOnError", BooleanValue, KnownNoop);
     ("noLib", BooleanValue, Supported); ("lib", StringArrayValue, Supported); ("plugins", ObjectArray, KnownNoop);
     ("incremental", BooleanValue, KnownNoop); ("composite", BooleanValue, KnownNoop);
     ("tsBuildInfoFile", StringValue, KnownNoop); ("baseUrl", StringValue, Supported);
     ("downlevelIteration", BooleanValue, UnsupportedLegacy); ("outFile", StringValue, UnsupportedLegacy)]%string.

Definition find_tsconfig_option (name : str) : option TsConfigOptionDefinition :=
  List.find (fun definition => option_name definition =s name) TS_CONFIG_OPTION_DEFINITIONS.
