(* ===== verification/PackageExports.v ===== *)
(** * Package entry points ([surge-ts/src/package_resolution.rs])

    The [exports] and [imports] maps of a [package.json] with their conditional
    targets and patterns, and [typesVersions]. A computation over JSON values;
    probing the targets is the caller's. The TypeScript version whose
    declarations are bundled is written by a build script and a parameter. *)

From S2P Require Import Prelude Utf8 RustStr Json PathMapping Semver CompilerOptions.

(** The options that decide the conditions. *)
Record ResolverOptions := mkOptions { module_resolution : ModuleResolutionKind; custom_conditions : list str }.

Definition active_conditions (options : ResolverOptions) (importer_is_esm : bool) : list str :=
  [if importer_is_esm then lit "import" else lit "require"; lit "types"]
  ++ match module_resolution options with Bundler => [] | _ => [lit "node"] end
  ++ custom_conditions options.

Section resolution.
Context (typescript_version : Semver.Version).

Definition is_applicable_versioned_types_key (key : str) : bool :=
  match strip_prefix (lit "types@") key ≫= Semver.parse_range with
  | Some range => Semver.range_test range typescript_version
  | None => false
  end.

Definition has_condition (condition : str) (conditions : list str) : bool := existsb (str_eqb condition) conditions.

Definition condition_matches (condition : str) (conditions : list str) : bool :=
  if (condition =s lit "default") || has_condition condition conditions then true
  else has_condition (lit "types") conditions && is_applicable_versioned_types_key condition.

(** [collect_targets_into]: the targets pushed, and whether the caller may go
    on to the next alternative. *)
Fixpoint collect_targets_into (value : Value) (conditions : list str) : list str * bool :=
  match value with
  | VString s => ([s], true)
  | VArray items => (concat (map (fun item => fst (collect_targets_into item conditions)) items), true)
  | VObject m =>
      (fix entries m :=
         match m with
         | [] => ([], true)
         | (condition, target) :: m =>
             if condition_matches condition conditions then
               let '(targets, on) := collect_targets_into target conditions in
               if on then let '(more, on) := entries m in (targets ++ more, on) else (targets, false)
             else entries m
         end) m
  | VNull => ([], false)
  | _ => ([], true)
  end.
Definition collect_targets (value : Value) (conditions : list str) : list str := fst (collect_targets_into value conditions).

Definition match_star (value prefix suffix : str) : result (option str) :=
  if (length value <? length prefix + length suffix)%nat then Ok None
  else if negb (starts_with prefix value) || negb (ends_with suffix value) then Ok None
  else captured ← unwrap (slice value (length prefix) (length value - length suffix)); Ok (Some captured).

Definition substitute_star (template captured : str) : str := replace [star] captured template.

(** One round of the loops over a map of patterns. *)
Definition better_entry {V} (key : str) (best : option (str * V * str)) (entry : str * V) : result (option (str * V * str)) :=
  let '(pattern, value) := entry in
  match single_star_parts pattern with
  | None => Ok best
  | Some (prefix, suffix) =>
      captured ← match_star key prefix suffix;
      match captured with
      | None => Ok best
      | Some captured =>
          let more_specific :=
            match best with
            | Some (best_prefix, _, _) => (length best_prefix <? length prefix)%nat
            | None => true
            end in
          Ok (if more_specific then Some (prefix, value, captured) else best)
      end
  end.

Fixpoint best_entry {V} (key : str) (best : option (str * V * str)) (entries : list (str * V))
    : result (option (str * V * str)) :=
  match entries with
  | [] => Ok best
  | entry :: entries => best ← better_entry key best entry; best_entry key best entries
  end.

Definition select_all_from_subpath_map (m : list (str * Value)) (key : str) (conditions : list str) : result (list str) :=
  match map_get key m with
  | Some value => Ok (collect_targets value conditions)
  | None =>
      best ← best_entry key None m;
      Ok (match best with
          | None => []
          | Some (_, value, captured) =>
              map (fun target => substitute_star target captured) (collect_targets value conditions)
          end)
  end.

Definition is_subpath_map (m : list (str * Value)) (prefix : str) : bool := existsb (fun '(k, _) => starts_with prefix k) m.

Definition select_export_targets (exports : Value) (subpath_key : str) (conditions : list str) : result (list str) :=
  match exports with
  | VString _ | VArray _ => Ok (if subpath_key =s lit "." then collect_targets exports conditions else [])
  | VObject m =>
      if is_subpath_map m (lit ".") then select_all_from_subpath_map m subpath_key conditions
      else Ok (if subpath_key =s lit "." then collect_targets exports conditions else [])
  | _ => Ok []
  end.

Definition select_export_target (exports : Value) (subpath_key : str) (conditions : list str) : result (option str) :=
  targets ← select_export_targets exports subpath_key conditions; Ok (head targets).

Definition select_import_targets (imports : Value) (specifier : str) (conditions : list str) : result (list str) :=
  match imports with
  | VObject m => if is_subpath_map m (lit "#") then select_all_from_subpath_map m specifier conditions else Ok []
  | _ => Ok []
  end.

Definition string_list (value : Value) : list str :=
  match value with
  | VString s => [s]
  | VArray items => omap as_str items
  | _ => []
  end.

Definition match_types_versions_paths (paths : list (str * Value)) (subpath : str) : result (list str) :=
  match map_get subpath paths with
  | Some targets => Ok (string_list targets)
  | None =>
      best ← best_entry subpath None paths;
      Ok (match best with
          | None => []
          | Some (_, targets, captured) => map (fun target => substitute_star target captured) (string_list targets)
          end)
  end.

(** The loop over the version keys. *)
Fixpoint version_paths (versions : list (str * Value)) (subpath : str) : result (list str) :=
  match versions with
  | [] => Ok []
  | (version_range, mapping) :: versions =>
      match Semver.parse_range version_range with
      | None => version_paths versions subpath
      | Some range =>
          if negb (Semver.range_test range typescript_version) then version_paths versions subpath
          else match mapping with
               | VObject paths => match_types_versions_paths paths subpath
               | _ => Ok []
               end
      end
  end.

Definition types_versions_candidates (types_versions : Value) (subpath : str) : result (list str) :=
  match types_versions with
  | VObject versions => version_paths versions subpath
  | _ => Ok []
  end.
End resolution.

(** The unit tests of the source, for TypeScript 7.0.2. *)
Definition sample_version : Semver.Version := Semver.release 7 0 2.
Definition bundler : list str := active_conditions (mkOptions Bundler []) true.
Definition targets_of (types import : String.string) : Value :=
  VObject [(lit "types", VString (lit types)); (lit "import", VString (lit import))].
Example export_samples :
  let select exports key := select_export_target sample_version exports (lit key) bundler in
  select (VObject [(lit ".", targets_of "./a.d.ts" "./a.js")]) "."%string = Ok (Some (lit "./a.d.ts"))
  /\ select (VString (lit "./a.d.ts")) "./server"%string = Ok None
  /\ select (VObject [(lit "./*", targets_of "./dist/*.d.ts" "b"); (lit "./features/*", targets_of "./f/*.d.ts" "b")])
       "./features/auth"%string = Ok (Some (lit "./f/auth.d.ts"))
  /\ select (VObject [(lit "./blocked", VNull)]) "./blocked"%string = Ok None
  /\ select (VObject [(lit "./yep", VObject [(lit "types@>=4", VString (lit "./types/foo.d.ts"))])]) "./yep"%string
     = Ok (Some (lit "./types/foo.d.ts")).
Proof. vm_compute. done. Qed.

Example types_versions_samples :
  let candidates versions subpath := types_versions_candidates sample_version (VObject versions) (lit subpath) in
  let dist := VObject [(lit "*", VArray [VString (lit "dist/*")])] in
  candidates [(lit "<7.0", VObject []); (lit "latest", VObject []); (lit ">=7.0", dist)] "index.d.ts"%string
  = Ok [lit "dist/index.d.ts"].
Proof. vm_compute. done. Qed.

(** Of two patterns with the prefix [./] the first wins, where Node orders keys
    with equal bases by their length and takes the second. *)
Example equal_prefixes_first_wins :
  select_export_target sample_version
    (VObject [(lit "./*", VString (lit "./any/*")); (lit "./*.js", VString (lit "./js/*"))]) (lit "./x.js") bundler
  = Ok (Some (lit "./any/x.js")).
Proof. vm_compute. done. Qed.

(** ** What is selected *)

Section spec.
Context (typescript_version : Semver.Version) (conditions : list str).

(** The target a value stands for, resolved lazily as Node does: an explicit
    [null] under a condition that holds blocks, the first entry of an array that
    resolves is taken. *)
Inductive Target := Resolved (template : str) | Blocked | Undefined.

Fixpoint target_resolve (value : Value) : Target :=
  match value with
  | VString s => Resolved s
  | VArray items =>
      (fix first l :=
         match l with
         | [] => Undefined
         | item :: l => match target_resolve item with Resolved s => Resolved s | _ => first l end
         end) items
  | VObject m =>
      (fix first m :=
         match m with
         | [] => Undefined
         | (condition, target) :: m =>
             if condition_matches typescript_version condition conditions then
               match target_resolve target with Undefined => first m | r => r end
             else first m
         end) m
  | VNull => Blocked
  | _ => Undefined
  end.

Definition first_of (targets : list str) (on : bool) : Target :=
  match targets with template :: _ => Resolved template | [] => if on then Undefined else Blocked end.

Lemma collect_targets_resolve value :
  target_resolve value
  = let '(targets, on) := collect_targets_into typescript_version value conditions in first_of targets on.
Proof.
  induction value as [v Hv|items IH|m IH] using value_ind; [by destruct v| |]; cbn [target_resolve collect_targets_into].
  - induction IH as [|item items Hi _ IH]; [done|]. simpl. rewrite IH, Hi.
    destruct (collect_targets_into _ item _) as [[|t ts] []]; done.
  - induction IH as [|[condition target] m Ht _ IH]; [done|]. simpl in Ht.
    destruct (condition_matches _ _ _); [|exact IH]. rewrite Ht.
    destruct (collect_targets_into _ target _) as [[|t ts] []]; simpl; try done.
    + rewrite IH. by match goal with |- context [?f m] => destruct (f m) as [[] []] end.
    + by match goal with |- context [?f m] => destruct (f m) as [? []] end.
Qed.

(** ** The entry a subpath designates *)

(** [entries] at [i] is the pattern selected: the first of the matching ones with the
    longest prefix. *)
Definition pattern_winner {V} (key : str) (entries : list (str * V)) (v : V) (captured : str) : Prop :=
  exists i pattern pre suf,
    entries !! i = Some (pattern, v) /\ single_star_parts pattern = Some (pre, suf) /\ key = pre ++ captured ++ suf
    /\ forall j pattern' v' pre' cap' suf', entries !! j = Some (pattern', v') ->
         single_star_parts pattern' = Some (pre', suf') -> key = pre' ++ cap' ++ suf' ->
         (length pre' <= length pre)%nat /\ ((j < i)%nat -> (length pre' < length pre)%nat).

Definition no_match {V} (key : str) (entries : list (str * V)) : Prop :=
  forall pattern v pre cap suf, (pattern, v) ∈ entries -> single_star_parts pattern = Some (pre, suf) -> key <> pre ++ cap ++ suf.

(** The loop is the one of the path mappings, with the value of the entry. *)
Definition as_mapping {V} (entry : str * V) : PathMapping := mkMapping (fst entry) [].

Definition same_best {V} (entries : list (str * V)) (best : option (str * V * str)) (best' : option (nat * PathMapping * str)) : Prop :=
  match best, best' with
  | Some (pre, v, cap), Some (n, m, cap') => n = length pre /\ cap = cap' /\ (pattern m, v) ∈ entries
  | None, None => True
  | _, _ => False
  end.

Lemma better_entry_mapping {V} key (entries : list (str * V)) best best' entry :
  entry ∈ entries -> same_best entries best best' ->
  match better_entry key best entry, better_mapping key best' (as_mapping entry) with
  | Ok b, Ok b' => same_best entries b b'
  | Panic, Panic => True
  | _, _ => False
  end.
Proof.
  destruct entry as [k v]. intros Hin Hs. unfold better_entry, better_mapping, match_star, pattern_matches. simpl.
  destruct (single_star_parts k) as [[pre suf]|]; [|done].
  destruct (length key <? length pre + length suf)%nat; simpl; [done|].
  destruct (negb (starts_with pre key) || negb (ends_with suf key)); simpl; [done|].
  destruct (slice key _ _) as [cap|]; simpl; [|done].
  destruct best as [[[bpre bv] bcap]|], best' as [[[n m] bcap']|]; simpl in Hs; try done.
  destruct Hs as (-> & <- & Hm). by destruct (length bpre <? length pre)%nat.
Qed.

Lemma best_entry_mapping {V} key (entries rest : list (str * V)) best best' :
  rest ⊆ entries -> same_best entries best best' ->
  match best_entry key best rest, best_mapping key best' (map as_mapping rest) with
  | Ok b, Ok b' => same_best entries b b'
  | Panic, Panic => True
  | _, _ => False
  end.
Proof.
  revert best best'. induction rest as [|entry rest IH]; intros best best' Hsub Hs; simpl; [done|].
  assert (entry ∈ entries) as Hin by (apply Hsub, list_elem_of_here).
  pose proof (better_entry_mapping key entries best best' entry Hin Hs) as Hb.
  destruct (better_entry key best entry) as [b| |], (better_mapping key best' (as_mapping entry)) as [b'| |];
    simpl; try done.
  apply IH; [|done]. intros x Hx. by apply Hsub, list_elem_of_further.
Qed.

Lemma entries_lookup {V} (entries : list (str * V)) j pattern v :
  entries !! j = Some (pattern, v) -> map as_mapping entries !! j = Some (mkMapping pattern []).
Proof. intros H. by rewrite list_lookup_fmap, H. Qed.

Lemma mappings_lookup {V} (entries : list (str * V)) j m :
  map as_mapping entries !! j = Some m -> exists v, entries !! j = Some (pattern m, v).
Proof. rewrite list_lookup_fmap. destruct (entries !! j) as [[k v]|]; simpl; [intros [= <-]; by exists v|done]. Qed.

Lemma best_entry_spec {V} key (entries : list (str * V)) :
  utf8 key -> Forall (fun e => utf8 (fst e)) entries -> NoDup entries.*1 ->
  returns (best_entry key None entries) (fun best =>
    match best with
    | Some (_, v, captured) => pattern_winner key entries v captured
    | None => no_match key entries
    end).
Proof.
  intros Hk He Hnd. pose proof (best_entry_mapping key entries entries None None ltac:(done) I) as Hsim.
  pose proof (best_mapping_spec key (map as_mapping entries) [] None Hk) as Hbest.
  assert (Forall (fun m => utf8 (pattern m)) (map as_mapping entries)) as Hu by (by apply Forall_map).
  specialize (Hbest Hu ltac:(by intros ???? Hin%elem_of_nil)). simpl in Hbest.
  destruct (best_entry key None entries) as [b| |], (best_mapping key None (map as_mapping entries)) as [b'| |]; try done.
  simpl in *. destruct b as [[[pre v] cap]|], b' as [[[n m] cap']|]; simpl in Hsim; try done; simpl in Hbest.
  - destruct Hsim as (-> & <- & Hin). destruct Hbest as (i & pre' & suf & Hi & [Hparts Hcap] & _ & Hall).
    destruct (mappings_lookup _ _ _ Hi) as [w Hw].
    assert (w = v) as ->.
    { apply list_elem_of_lookup in Hin as [j Hj]. 
      assert (entries.*1 !! i = Some (pattern m)) as H1 by (by rewrite list_lookup_fmap, Hw).
      assert (entries.*1 !! j = Some (pattern m)) as H2 by (by rewrite list_lookup_fmap, Hj).
      rewrite (NoDup_lookup _ _ _ _ Hnd H1 H2) in Hw. congruence. }
    exists i, (pattern m), pre', suf. split_and!; try done. intros j k' v' p' c' s' Hj Hp' Hkey.
    apply (Hall j (mkMapping k' []) p' c' s'); [by eapply entries_lookup|by split].
  - intros k v pre cap suf Hin Hp Hkey. apply (Hbest (mkMapping k []) pre cap suf); [|by split].
    apply list_elem_of_fmap. by exists (k, v).
Qed.

(** The value a subpath of an [exports] field designates, and what the star of its
    key captured. *)
Inductive designated (subpath : str) : Value -> Value -> option str -> Prop :=
| designated_whole exports :
    match exports with VString _ | VArray _ => True | VObject m => is_subpath_map m (lit ".") = false | _ => False end ->
    subpath = lit "." -> designated subpath exports exports None
| designated_exact m v :
    is_subpath_map m (lit ".") = true -> (subpath, v) ∈ m -> designated subpath (VObject m) v None
| designated_pattern m v captured :
    is_subpath_map m (lit ".") = true -> subpath ∉ m.*1 -> pattern_winner subpath m v captured ->
    designated subpath (VObject m) v (Some captured).

Definition filled (captured : option str) (template : str) : str :=
  match captured with Some captured => substitute_star template captured | None => template end.

(** The keys of an object are distinct texts. *)
Definition keys_ok (v : Value) : Prop :=
  match v with VObject m => NoDup m.*1 /\ Forall (fun e => utf8 (fst e)) m | _ => True end.

Lemma pattern_winner_unique {V} key (entries : list (str * V)) v cap v' cap' :
  pattern_winner key entries v cap -> pattern_winner key entries v' cap' -> v' = v /\ cap' = cap.
Proof.
  intros (i & p & pre & suf & Hi & Hp & Hk & Hall) (i' & p' & pre' & suf' & Hi' & Hp' & Hk' & Hall').
  destruct (Hall _ _ _ _ _ _ Hi' Hp' Hk') as [H1 H2]. destruct (Hall' _ _ _ _ _ _ Hi Hp Hk) as [H3 H4].
  assert (i' = i) as ->.
  { destruct (decide (i' < i)%nat); [specialize (H2 ltac:(done)); lia|].
    destruct (decide (i < i')%nat); [specialize (H4 ltac:(done)); lia|lia]. }
  rewrite Hi in Hi'. injection Hi' as <- <-. rewrite Hp in Hp'. injection Hp' as <- <-. split; [done|].
  rewrite Hk in Hk'. apply app_inv_head, app_inv_tail in Hk'. done.
Qed.

(** What a subpath designates is determined. *)
Lemma designated_unique subpath exports v cap v' cap' :
  keys_ok exports -> designated subpath exports v cap -> designated subpath exports v' cap' -> v' = v /\ cap' = cap.
Proof.
  intros Hok H H'. destruct H as [exports Hw ->|m v Hm Hin|m v c Hm Hno Hp]; inversion H'; subst; try done; try congruence.
  - destruct Hok as [Hnd _]. apply map_get_unique in Hin; [|done].
    match goal with H : (subpath, v') ∈ m |- _ => apply map_get_unique in H; [|done] end. split; congruence.
  - match goal with H : subpath ∉ m.*1 |- _ => destruct H end. apply list_elem_of_fmap. by exists (subpath, v).
  - destruct Hno. apply list_elem_of_fmap. by exists (subpath, v').
  - match goal with H : pattern_winner _ _ v' _ |- _ => destruct (pattern_winner_unique _ _ _ _ _ _ Hp H) as [-> ->] end.
    done.
Qed.

Lemma head_collected captured value :
  match target_resolve value with
  | Resolved template => head (map (filled captured) (collect_targets typescript_version value conditions)) = Some (filled captured template)
  | _ => collect_targets typescript_version value conditions = []
  end.
Proof.
  rewrite collect_targets_resolve. unfold collect_targets.
  by destruct (collect_targets_into _ value _) as [[|t ts] []].
Qed.

(** [select_export_targets] collects the targets of what the subpath designates. *)
Lemma select_export_targets_designated exports subpath :
  utf8 subpath -> keys_ok exports ->
  returns (select_export_targets typescript_version exports subpath conditions) (fun targets =>
    (exists v captured, designated subpath exports v captured
      /\ targets = map (filled captured) (collect_targets typescript_version v conditions))
    \/ (targets = [] /\ forall v captured, ~ designated subpath exports v captured)).
Proof.
  intros Hu Hok. assert (forall l, map (filled None) l = l) as Hid by (intros l; apply map_id).
  assert (forall v w, match v with VArray _ | VString _ => True | VObject m => is_subpath_map m (lit ".") = false | _ => False end ->
    w = (if subpath =s lit "." then collect_targets typescript_version v conditions else []) ->
    (exists u captured, designated subpath v u captured
      /\ w = map (filled captured) (collect_targets typescript_version u conditions))
    \/ (w = [] /\ forall u captured, ~ designated subpath v u captured)) as Hwhole.
  { intros v w Hv ->. destruct (subpath =s lit ".") eqn:E.
    - apply str_eqb_spec in E as ->. left. exists v, None. rewrite Hid. split; [by apply designated_whole; destruct v|done].
    - right. split; [done|]. intros u captured Hd. inversion Hd; subst; [by rewrite str_eqb_refl in E|congruence..]. }
  destruct exports as [|b|t|s|items|m]; cbn [select_export_targets]; try (right; split; [done|]; intros v c Hd; by inversion Hd).
  - by apply (Hwhole (VString s)).
  - by apply (Hwhole (VArray items)).
  - destruct (is_subpath_map m (lit ".")) eqn:Em; [|exact (Hwhole (VObject m) _ Em eq_refl)].
    unfold select_all_from_subpath_map. destruct Hok as [Hnd Hk].
    destruct (map_get subpath m) as [v|] eqn:Eg; simpl.
    + left. exists v, None. rewrite Hid. split; [|done]. apply designated_exact; [done|by apply map_get_elem].
    + apply map_get_none in Eg. apply returns_bind, (returns_mono _ _ _ (best_entry_spec subpath m Hu Hk Hnd)).
      intros [[[pre v] captured]|] Hb; simpl.
      * left. exists v, (Some captured). split; [by apply designated_pattern|done].
      * right. split; [done|]. intros v captured Hd. inversion Hd as [? Hw Hs|? ? Hm Hin|? ? c Hm Hno Hp]; subst.
        -- congruence.
        -- destruct Eg. apply list_elem_of_fmap. by exists (subpath, v).
        -- destruct Hp as (i & p & pre & suf & Hi & Hp & Hkey & _). apply list_elem_of_lookup_2 in Hi.
           by apply (Hb p v pre c suf Hi Hp).
Qed.
End spec.

(** C35 The target of a subpath is that of the one entry it designates, resolved
    lazily under the conditions: the whole value for the root of a field without
    subpaths, else its exact key, else the first of the matching patterns with the
    longest prefix, with the captured text in place of the stars; and there is
    none when no entry is designated or it blocks or resolves to nothing. *)
Theorem select_export_target_resolves typescript_version conditions exports subpath :
  utf8 subpath -> keys_ok exports ->
  exists answer, select_export_target typescript_version exports subpath conditions = Ok answer /\
    match answer with
    | Some target => exists v captured template,
        designated subpath exports v captured
        /\ target_resolve typescript_version conditions v = Resolved template /\ target = filled captured template
    | None => forall v captured template,
        designated subpath exports v captured -> target_resolve typescript_version conditions v <> Resolved template
    end.
Proof.
  intros Hu Hok. apply returns_iff. unfold select_export_target. apply returns_bind.
  apply (returns_mono _ _ _ (select_export_targets_designated typescript_version conditions exports subpath Hu Hok)).
  intros targets [(v & captured & Hd & ->)|[-> Hno]]; simpl; [|by intros v captured template Hd%Hno].
  pose proof (head_collected typescript_version conditions captured v) as Hh.
  destruct (target_resolve _ _ v) as [template| |] eqn:Er.
  - rewrite Hh. by exists v, captured, template.
  - rewrite Hh. simpl. intros v' captured' template' Hd' Hr.
    destruct (designated_unique _ _ _ _ _ _ Hok Hd Hd') as [-> _]. congruence.
  - rewrite Hh. simpl. intros v' captured' template' Hd' Hr.
    destruct (designated_unique _ _ _ _ _ _ Hok Hd Hd') as [-> _]. congruence.
Qed.

(** A pattern beside a longer one, whose first condition does not hold. *)
Definition sample_exports : Value :=
  VObject [(lit "./*", VString (lit "./any/*"));
           (lit "./lib/*", VObject [(lit "require", VString (lit "./cjs/*")); (lit "types", VString (lit "./types/*.d.ts"))])].

Lemma select_export_target_resolves_witness :
  exists answer, select_export_target sample_version sample_exports (lit "./lib/a") bundler = Ok answer
    /\ answer = Some (lit "./types/a.d.ts").
Proof.
  destruct (select_export_target_resolves sample_version bundler sample_exports (lit "./lib/a")) as (answer & H & _).
  - by apply asciib_utf8.
  - split; [|repeat constructor; by apply asciib_utf8].
    apply NoDup_cons. split; [|by apply NoDup_singleton]. intros Hin%list_elem_of_singleton. vm_compute in Hin. discriminate.
  - exists answer. split; [exact H|]. vm_compute in H. by injection H as <-.
Defined.
