(* ===== verification/TsConfig.v ===== *)
(** * Loading a configuration and what it extends

    [surge-ts-config/src/extends.rs] and, from [parse.rs], the reading of one
    config and the merge. The keys of the configs on the chain are kept, so that
    a chain that comes back to one of them is cut. Parsing the text is the work of
    the crate [jsonc_parser] and a parameter. *)

From stdpp Require Import gmap sets.
From S2P Require Import Prelude RustStr Json PathMapping UnixPath Probe ImportGraph.

Inductive ConfigDiagnosticCode :=
| ConfigFileNotFound | ConfigParseError | ExtendsCycle | ExtendsFileNotFound | UnknownCompilerOption
| InvalidCompilerOptionValue | UnsupportedLegacyCompilerOptionValue | UnsupportedLegacyCompilerOption
| InvalidFilesEntry | InvalidIncludeEntry | InvalidExcludeEntry.

Record ConfigDiagnostic := mkDiagnostic { code : ConfigDiagnosticCode; message : str; diagnostic_file : str }.

Record RawTsConfig := mkRaw {
  compiler_options : option (list (str * Value));
  files : option (list Value);
  include : option (list Value);
  exclude : option (list Value);
}.
Definition default_config : RawTsConfig := mkRaw None None None None.

(** ** Reading one config ([parse.rs]) *)

Definition parse_string_array_entry (value : option Value) (config_path : str) (c : ConfigDiagnosticCode)
    : option (list Value) * list ConfigDiagnostic :=
  match value with
  | None => (None, [])
  | Some value =>
      match as_array value with
      | None => (None, [mkDiagnostic c (lit "expected an array of strings") config_path])
      | Some items => (Some items, [])
      end
  end.

Definition parse_current_config (config_path : str) (object : list (str * Value)) : RawTsConfig * list ConfigDiagnostic :=
  let '(options, d) :=
    match map_get (lit "compilerOptions") object with
    | Some (VObject options) => (Some options, [])
    | Some _ =>
        (None, [mkDiagnostic InvalidCompilerOptionValue (lit "`compilerOptions` must be a JSON object") config_path])
    | None => (None, [])
    end in
  let '(files, d1) := parse_string_array_entry (map_get (lit "files") object) config_path InvalidFilesEntry in
  let '(include, d2) := parse_string_array_entry (map_get (lit "include") object) config_path InvalidIncludeEntry in
  let '(exclude, d3) := parse_string_array_entry (map_get (lit "exclude") object) config_path InvalidExcludeEntry in
  (mkRaw options files include exclude, d ++ d1 ++ d2 ++ d3).

Definition or_else {A} (a b : option A) : option A := match a with Some a => Some a | None => b end.

Definition merge_configs (base : option RawTsConfig) (child : RawTsConfig) : RawTsConfig :=
  let inherited := default [] (base ← base; compiler_options base) in
  let options := match compiler_options child with Some own => map_extend inherited own | None => inherited end in
  mkRaw (match options with [] => None | _ => Some options end)
    (or_else (files child) (base ← base; files base))
    (or_else (include child) (base ← base; include base))
    (or_else (exclude child) (base ← base; exclude base)).

Section load.
Context `{Fs : HostFs} (parse_to_serde_value : str -> str + Value).

Definition cycle_key (path : str) : result str := canonicalize_if_exists path.

(** ** What [extends] names *)

Definition cannot_resolve (extends_spec config_path : str) : str :=
  lit "Cannot resolve extends '" ++ extends_spec ++ lit "' from " ++ config_path.

Definition resolve_relative_extends (config_path extends_spec : str) : str + option str :=
  let base_dir := default (lit ".") (parent config_path) in
  let primary := path_join base_dir extends_spec in
  if std_exists primary then inr (Some primary)
  else
    let json_candidate := match extension primary with Some _ => primary | None => with_extension primary (lit "json") end in
    if std_exists json_candidate then inr (Some json_candidate) else inl (cannot_resolve extends_spec config_path).

Definition split_package_specifier (specifier : str) : option (str * str) :=
  match filter (fun segment => segment <> []) (split_byte 47 specifier) with
  | [] => None
  | first :: rest =>
      '(package_name, subpath_segments) ←
        (if starts_with (lit "@") first then
           match rest with second :: rest => Some (first ++ lit "/" ++ second, rest) | [] => None end
         else Some (first, rest));
      Some (package_name, match subpath_segments with [] => lit "tsconfig.json" | _ => join (lit "/") subpath_segments end)
  end.

Definition resolve_existing_config_candidate (candidate : str) : result (option str) :=
  let found path := canonical ← canonicalize_if_exists path; Ok (Some canonical) in
  let json_candidate := with_extension candidate (lit "json") in
  let directory_default := path_join candidate (lit "tsconfig.json") in
  if std_exists candidate && std_is_file candidate then found candidate
  else if bool_decide (extension candidate = None) && (std_exists json_candidate && std_is_file json_candidate) then
    found json_candidate
  else if std_exists candidate && std_is_dir candidate
          && (std_exists directory_default && std_is_file directory_default) then found directory_default
  else Ok None.

Fixpoint first_config (package_name subpath : str) (directories : list str) : result (option str) :=
  match directories with
  | [] => Ok None
  | ancestor :: directories =>
      let package_root := path_join (path_join ancestor (lit "node_modules")) package_name in
      resolved ← resolve_existing_config_candidate (path_join package_root subpath);
      match resolved with
      | Some resolved => Ok (Some resolved)
      | None => first_config package_name subpath directories
      end
  end.

Definition resolve_package_extends (specifier from_dir : str) : result (option str) :=
  match split_package_specifier specifier with
  | Some (package_name, subpath) => first_config package_name subpath (ancestors from_dir)
  | None => Ok None
  end.

(** [Err] on the left. *)
Definition resolve_extends (config_path extends_spec : str) : result (str + option str) :=
  if is_absolute extends_spec then
    Ok (if std_exists extends_spec then inr (Some extends_spec) else inl (cannot_resolve extends_spec config_path))
  else if starts_with (lit "./") extends_spec || starts_with (lit "../") extends_spec || starts_with (lit "/") extends_spec
  then Ok (resolve_relative_extends config_path extends_spec)
  else
    let from_dir := default (lit ".") (parent config_path) in
    resolved ← resolve_package_extends extends_spec from_dir;
    Ok (match resolved with
        | Some resolved => inr (Some resolved)
        | None => inl (cannot_resolve extends_spec config_path)
        end).

(** ** Loading *)

(** The object a config file holds, or the diagnostic of its loading. *)
Definition read_config (config_path : str) : ConfigDiagnostic + list (str * Value) :=
  match std_read_to_string config_path with
  | None => inl (mkDiagnostic ConfigFileNotFound (lit "could not read " ++ config_path) config_path)
  | Some text =>
      match parse_to_serde_value text with
      | inl error => inl (mkDiagnostic ConfigParseError error config_path)
      | inr value =>
          match as_object value with
          | None => inl (mkDiagnostic ConfigParseError (lit "tsconfig.json must contain a JSON object") config_path)
          | Some object => inr object
          end
      end
  end.

(** The diagnostics pushed and the set of visited keys are the state. *)
Definition State : Type := list ConfigDiagnostic * gset str.

(** [merge_config_object], with the recursive call as an argument. *)
Definition merge_config_object (load : str -> State -> result (RawTsConfig * State)) (config_path : str)
    (object : list (str * Value)) (s : State) : result (RawTsConfig * State) :=
  let '(diagnostics, visited) := s in
  let '(parsed, pushed) := parse_current_config config_path object in
  let diagnostics := diagnostics ++ pushed in
  '(base, s) ←
    (match map_get (lit "extends") object ≫= as_str with
     | None => Ok (None, (diagnostics, visited))
     | Some extends_spec =>
         resolved ← resolve_extends config_path extends_spec;
         match resolved with
         | inr (Some base_path) =>
             '(base, s) ← load base_path (diagnostics, visited);
             Ok (Some base, s)
         | inr None => Ok (None, (diagnostics, visited))
         | inl message => Ok (None, (diagnostics ++ [mkDiagnostic ExtendsFileNotFound message config_path], visited))
         end
     end);
  Ok (merge_configs base parsed, s).

Fixpoint load_merged_config (fuel : nat) (config_path : str) (s : State) : result (RawTsConfig * State) :=
  match fuel with
  | O => OutOfFuel
  | S fuel =>
      let '(diagnostics, visited) := s in
      config_key ← cycle_key config_path;
      if decide (config_key ∈ visited) then
        Ok (default_config,
            (diagnostics ++ [mkDiagnostic ExtendsCycle (lit "detected tsconfig extends cycle") config_path], visited))
      else
        let visited := {[config_key]} ∪ visited in
        match read_config config_path with
        | inl diagnostic => Ok (default_config, (diagnostics ++ [diagnostic], visited ∖ {[config_key]}))
        | inr object =>
            '(merged, (diagnostics, visited)) ←
              merge_config_object (load_merged_config fuel) config_path object (diagnostics, visited);
            Ok (merged, (diagnostics, visited ∖ {[config_key]}))
        end
  end.
End load.
