(* ===== verification/ConfigChain.v ===== *)
(** * A configuration is what its chain of [extends] defines

    Loading ends: the keys of the configs being loaded are distinct. What it
    answers is read off the chain of configs from the given one on: an option is
    that of the nearest config that sets it, and a chain that returns to a config
    is cut there, with one diagnostic. *)

From stdpp Require Import gmap sets.
From S2P Require Import Prelude UnixPath RustStr Json PathMapping Probe ImportGraph GraphReach TsConfig.

(** An option of a config, and the first definition along a chain. *)
Definition option_of (name : str) (c : RawTsConfig) : option Value := options ← compiler_options c; map_get name options.
Definition first_defined {A} (f : RawTsConfig -> option A) (configs : list RawTsConfig) : option A :=
  foldr (fun c rest => or_else (f c) rest) None configs.

(** The keys of the objects in a value are distinct, as in every parsed text. *)
#[local] Unset Elimination Schemes.
Inductive keyed (v : Value) : Prop :=
| keyed_object m : v = VObject m -> NoDup m.*1 -> Forall (fun e => keyed (snd e)) m -> keyed v
| keyed_other : (forall m, v <> VObject m) -> keyed v.
#[local] Set Elimination Schemes.

Fixpoint keyedb (v : Value) : bool :=
  match v with
  | VObject m => bool_decide (NoDup m.*1) && forallb (fun e => keyedb (snd e)) m
  | _ => true
  end.

Lemma keyedb_keyed v : keyedb v = true -> keyed v.
Proof.
  induction v as [v Hv|items _|m IH] using value_ind; intros H; try (apply keyed_other; by destruct v || by intros).
  simpl in H. apply andb_true_iff in H as [Hnd%bool_decide_eq_true Hall]. apply (keyed_object _ m); [done|done|].
  apply forallb_Forall in Hall. rewrite Forall_forall in *. intros e He. by apply IH, Hall.
Qed.

Section chain.
Context `{Fs : HostFs} (parse_to_serde_value : str -> str + Value).

Definition extended (config_path : str) (object : list (str * Value)) : result (option str) :=
  match map_get (lit "extends") object ≫= as_str with
  | None => Ok None
  | Some extends_spec =>
      resolved ← resolve_extends config_path extends_spec;
      Ok (match resolved with inr (Some base_path) => Some base_path | _ => None end)
  end.

(** The configs from the one at a path on, with their keys, and whether the chain
    comes back to one of them or to a visited one. *)
Inductive chain (visited : gset str) (path : str) : list (str * RawTsConfig) -> bool -> Prop :=
| chain_cut key : cycle_key path = Ok key -> key ∈ visited -> chain visited path [] true
| chain_unread key d :
    cycle_key path = Ok key -> key ∉ visited -> read_config parse_to_serde_value path = inl d -> chain visited path [] false
| chain_last key object :
    cycle_key path = Ok key -> key ∉ visited -> read_config parse_to_serde_value path = inr object ->
    extended path object = Ok None -> chain visited path [(key, fst (parse_current_config path object))] false
| chain_next key object base_path l cut :
    cycle_key path = Ok key -> key ∉ visited -> read_config parse_to_serde_value path = inr object ->
    extended path object = Ok (Some base_path) -> chain ({[key]} ∪ visited) base_path l cut ->
    chain visited path ((key, fst (parse_current_config path object)) :: l) cut.

Lemma chain_keys visited path l cut : chain visited path l cut -> NoDup l.*1 /\ Forall (fun key => key ∉ visited) l.*1.
Proof.
  induction 1 as [| |? ? ? ? ? ? Hk|? ? key ? ? l ? ? Hk ? ? _ [IH1 IH2]]; simpl.
  - by split; [apply NoDup_nil|].
  - by split; [apply NoDup_nil|].
  - split; [by apply NoDup_singleton|by repeat constructor].
  - split.
    + apply NoDup_cons. split; [|done]. intros Hin. rewrite Forall_forall in IH2. specialize (IH2 _ Hin). set_solver.
    + constructor; [done|]. eapply Forall_impl; [exact IH2|]. set_solver.
Qed.

(** ** Merging *)

Lemma merge_options name base child :
  (forall options, compiler_options child = Some options -> NoDup options.*1) ->
  option_of name (merge_configs base child) = or_else (option_of name child) (base ≫= option_of name).
Proof.
  intros Hnd. unfold option_of, merge_configs. simpl.
  assert (forall options : list (str * Value),
            mbind (M:=option) (map_get name) (match options with [] => None | _ => Some options end) = map_get name options)
    as Hg by (by intros []).
  rewrite Hg. destruct (compiler_options child) as [own|] eqn:E; simpl.
  - rewrite map_get_extend by (by apply Hnd). unfold or_else. destruct (map_get name own); [done|].
    destruct base as [b|]; simpl; [|done]. by destruct (compiler_options b).
  - destruct base as [b|]; simpl; [|done]. by destruct (compiler_options b).
Qed.

(** What merging along a chain leaves. *)
Definition merges (merged : RawTsConfig) (configs : list RawTsConfig) : Prop :=
  (forall name, option_of name merged = first_defined (option_of name) configs)
  /\ files merged = first_defined files configs
  /\ include merged = first_defined include configs
  /\ exclude merged = first_defined exclude configs.

Lemma merges_cons base child configs :
  (forall options, compiler_options child = Some options -> NoDup options.*1) ->
  match base with Some base => merges base configs | None => configs = [] end ->
  merges (merge_configs base child) (child :: configs).
Proof.
  intros Hnd Hb. split.
  - intros name. rewrite merge_options by done. simpl. destruct base as [b|]; [by rewrite <- (proj1 Hb)|by subst].
  - destruct base as [b|]; [|by subst]. destruct Hb as (_ & Hf & Hi & He). simpl. by rewrite <- Hf, <- Hi, <- He.
Qed.

Definition is_cycle (d : ConfigDiagnostic) : bool := match code d with ExtendsCycle => true | _ => false end.
Definition cycles (ds : list ConfigDiagnostic) : nat := length (filter (fun d => is_cycle d = true) ds).

Lemma cycles_app a b : cycles (a ++ b) = (cycles a + cycles b)%nat.
Proof. unfold cycles. by rewrite filter_app, length_app. Qed.

Lemma parse_current_no_cycle path object : cycles (snd (parse_current_config path object)) = 0%nat.
Proof.
  unfold parse_current_config, parse_string_array_entry.
  assert (forall v c, c <> ExtendsCycle -> cycles (snd (parse_string_array_entry v path c)) = 0%nat) as H.
  { intros [v|] c Hc; simpl; [|done]. destruct (as_array v); [done|]. by destruct c. }
  pose proof (H (map_get (lit "files") object) InvalidFilesEntry ltac:(done)) as H1.
  pose proof (H (map_get (lit "include") object) InvalidIncludeEntry ltac:(done)) as H2.
  pose proof (H (map_get (lit "exclude") object) InvalidExcludeEntry ltac:(done)) as H3.
  fold (parse_string_array_entry (map_get (lit "files") object) path InvalidFilesEntry).
  fold (parse_string_array_entry (map_get (lit "include") object) path InvalidIncludeEntry).
  fold (parse_string_array_entry (map_get (lit "exclude") object) path InvalidExcludeEntry).
  destruct (parse_string_array_entry (map_get (lit "files") object) path InvalidFilesEntry),
    (parse_string_array_entry (map_get (lit "include") object) path InvalidIncludeEntry),
    (parse_string_array_entry (map_get (lit "exclude") object) path InvalidExcludeEntry).
  destruct (map_get (lit "compilerOptions") object) as [[]|]; cbn [snd] in *; rewrite !cycles_app, H1, H2, H3; done.
Qed.

Lemma read_config_no_cycle path d : read_config parse_to_serde_value path = inl d -> is_cycle d = false.
Proof.
  unfold read_config. destruct (std_read_to_string path); [|by intros [= <-]].
  destruct (parse_to_serde_value _) as [e|v]; [by intros [= <-]|]. destruct (as_object v); [done|by intros [= <-]].
Qed.

Lemma resolve_extends_ends path spec : resolve_extends path spec <> OutOfFuel.
Proof.
  unfold resolve_extends. destruct (is_absolute spec); [done|].
  destruct (_ || _); [done|]. unfold resolve_package_extends. destruct (split_package_specifier spec) as [[name sub]|]; [|done].
  assert (forall candidate, resolve_existing_config_candidate candidate <> OutOfFuel) as Hc.
  { intros c. unfold resolve_existing_config_candidate.
    assert (forall p, (canonical ← canonicalize_if_exists p; Ok (Some canonical)) <> OutOfFuel) as Hf.
    { intros p. pose proof (canonicalize_ends p). by destruct (canonicalize_if_exists p). }
    destruct (_ && _); [apply Hf|]. destruct (_ && _); [apply Hf|]. destruct (_ && _); [apply Hf|done]. }
  assert (forall directories, first_config name sub directories <> OutOfFuel) as Hl.
  { induction directories as [|a l IH]; simpl; [done|].
    specialize (Hc (path_join (path_join (path_join a (lit "node_modules")) name) sub)).
    by destruct (resolve_existing_config_candidate _) as [[r|]| |]. }
  specialize (Hl (ancestors (default (lit ".") (parent path)))).
  by destruct (first_config name sub _).
Qed.

(** ** Loading *)

Context (parsed_keyed : forall text value, parse_to_serde_value text = inr value -> keyed value).

Lemma parsed_options path object options :
  read_config parse_to_serde_value path = inr object ->
  compiler_options (fst (parse_current_config path object)) = Some options -> NoDup options.*1.
Proof.
  unfold read_config. destruct (std_read_to_string path) as [text|]; [|done].
  destruct (parse_to_serde_value text) as [|v] eqn:Ep; [done|]. destruct v as [| | | | |m]; simpl; try done.
  intros [= <-]. apply parsed_keyed in Ep. inversion Ep as [m' [= <-] _ Hall|Hno]; [|by destruct (Hno m)].
  unfold parse_current_config, parse_string_array_entry.
  destruct (map_get (lit "compilerOptions") m) as [v|] eqn:Ev; [|by repeat case_match].
  assert (keyed v) as Hv.
  { rewrite Forall_forall in Hall. exact (Hall (lit "compilerOptions", v) (map_get_elem _ _ _ Ev)). }
  inversion Hv as [o -> Hnd _|Hno]; subst.
  - repeat case_match; simpl in *; simplify_eq; congruence.
  - destruct v; try (by repeat case_match; simpl in *; simplify_eq). by destruct (Hno map).
Qed.

(** Finitely many configs can be read. *)
Context (keys : gset str) (readable_keys : forall path key,
  std_read_to_string path <> None -> cycle_key path = Ok key -> key ∈ keys).

Lemma merges_default : merges default_config [].
Proof. by split_and!. Qed.

Lemma load_chain fuel path diagnostics visited :
  (size (keys ∖ visited) < fuel)%nat ->
  ends (load_merged_config parse_to_serde_value fuel path (diagnostics, visited))
    (fun '(merged, (diagnostics', visited')) =>
       visited' = visited /\ exists l cut new, chain visited path l cut /\ diagnostics' = diagnostics ++ new
         /\ cycles new = (if cut : bool then 1 else 0)%nat /\ merges merged l.*2).
Proof.
  revert path diagnostics visited. induction fuel as [|fuel IH]; intros path diagnostics visited Hf; [lia|].
  cbn [load_merged_config]. apply ends_bind.
  apply (ends_mono _ _ _ (ends_eq _ _ (ends_any _ (canonicalize_ends path)))). intros key [Hkey _].
  destruct (decide (key ∈ visited)) as [Hin|Hin]; cbn [ends].
  { split; [done|]. eexists [], true, _. split_and!; [by eapply chain_cut|done|done|apply merges_default]. }
  assert (({[key]} ∪ visited) ∖ {[key]} = visited) as Hback by (apply set_eq; set_solver).
  destruct (read_config parse_to_serde_value path) as [d|object] eqn:Er; cbn [ends].
  { rewrite Hback. split; [done|]. eexists [], false, _. split_and!; [by eapply chain_unread|done| |apply merges_default].
    unfold cycles. rewrite filter_cons_False; [done|]. by rewrite (read_config_no_cycle _ _ Er). }
  assert (key ∈ keys) as Hkeys.
  { apply (readable_keys path); [|done]. intros Hn. unfold read_config in Er. by rewrite Hn in Er. }
  apply ends_bind. unfold merge_config_object.
  pose proof (parse_current_no_cycle path object) as Hcur.
  pose proof (fun options => parsed_options path object options Er) as Hnd.
  destruct (parse_current_config path object) as [parsed pushed] eqn:Eparse. simpl in Hcur, Hnd.
  apply ends_bind.
  assert (parsed = fst (parse_current_config path object)) as Hparsed by (by rewrite Eparse).
  destruct (map_get (lit "extends") object ≫= as_str) as [spec|] eqn:Eext; simpl.
  2: { rewrite Hback. split; [done|]. exists [(key, parsed)], false, pushed. rewrite Hparsed. split_and!; [|done|done|].
       - eapply chain_last; try done. unfold extended. by rewrite Eext.
       - rewrite <- Hparsed. by apply (merges_cons None). }
  apply ends_bind. apply (ends_mono _ _ _ (ends_eq _ _ (ends_any _ (resolve_extends_ends path spec)))).
  intros resolved [Hres _]. destruct resolved as [msg|[base_path|]]; simpl.
  - rewrite Hback. split; [done|]. eexists [(key, parsed)], false, _. rewrite <- app_assoc. split_and!; [|done| |].
    + rewrite Hparsed. eapply chain_last; try done. unfold extended. by rewrite Eext, Hres.
    + by rewrite cycles_app, Hcur.
    + by apply (merges_cons None).
  - apply ends_bind. eapply ends_mono.
    { apply (IH base_path (diagnostics ++ pushed) ({[key]} ∪ visited)).
      assert (keys ∖ ({[key]} ∪ visited) ⊂ keys ∖ visited) as Hsub by set_solver.
      apply subset_size in Hsub. lia. }
    intros [base [d' v']] (-> & l & cut & new & Hch & -> & Hcy & Hm). simpl. rewrite Hback. split; [done|].
    exists ((key, parsed) :: l), cut, (pushed ++ new). split_and!.
    + rewrite Hparsed. eapply chain_next; try done. unfold extended. by rewrite Eext, Hres.
    + by rewrite app_assoc.
    + by rewrite cycles_app, Hcur.
    + by apply (merges_cons (Some base)).
  - rewrite Hback. split; [done|]. exists [(key, parsed)], false, pushed. split_and!; [|done|done|].
    + rewrite Hparsed. eapply chain_last; try done. unfold extended. by rewrite Eext, Hres.
    + by apply (merges_cons None).
Qed.
End chain.

(** C36 Where finitely many configs can be read, loading one ends after at most
    one round more than there are, and unless a path on the way has no
    normalization, what it answers is what the chain of its
    [extends] defines: every option, and the files, are those of the nearest
    config that sets them. No config is on the chain twice: where it comes back to
    one it is cut, and this is reported once. *)
Theorem config_is_its_chain `{Fs : HostFs} (parse_to_serde_value : str -> str + Value) (keys : gset str) fuel path :
  (forall text value, parse_to_serde_value text = inr value -> keyed value) ->
  (forall path key, std_read_to_string path <> None -> cycle_key path = Ok key -> key ∈ keys) ->
  (size keys < fuel)%nat ->
  ends (load_merged_config parse_to_serde_value fuel path ([], ∅)) (fun '(merged, (diagnostics, visited)) =>
    visited = ∅ /\ exists l cut, chain parse_to_serde_value ∅ path l cut /\ NoDup l.*1 /\ merges merged l.*2
      /\ cycles diagnostics = (if cut : bool then 1 else 0)%nat).
Proof.
  intros Hkeyed Hkeys Hfuel. eapply ends_mono.
  { apply (load_chain parse_to_serde_value Hkeyed keys Hkeys). by rewrite difference_empty_L. }
  intros [merged [diagnostics visited]] (-> & l & cut & new & Hch & -> & Hcy & Hm). split; [done|].
  exists l, cut. split_and!; [done|by eapply chain_keys|done|done].
Qed.

(** Two configs that extend each other. *)
Definition config_a : str := lit "/p/a.json".
Definition config_b : str := lit "/p/b.json".
Definition config_read (p : str) : option str :=
  if (p =s config_a) || (p =s lit "/p/./a.json") then Some (lit "A")
  else if (p =s config_b) || (p =s lit "/p/./b.json") then Some (lit "B") else None.
Definition config_parse (text : str) : str + Value :=
  if text =s lit "A" then
    inr (VObject [(lit "extends", VString (lit "./b.json")); (lit "compilerOptions", VObject [(lit "strict", VBool true)])])
  else
    inr (VObject [(lit "extends", VString (lit "./a.json")); (lit "files", VArray []);
                  (lit "compilerOptions", VObject [(lit "strict", VBool false); (lit "target", VString (lit "es2022"))])]).
Definition config_fs : HostFs := {|
  is_custom := false;
  host_is_file := fun _ => false;
  host_is_dir := fun _ => false;
  host_read_to_string := fun _ => None;
  std_read_dir := fun _ => Unreadable;
  std_canonicalize := fun _ => None;
  std_exists := fun p => bool_decide (config_read p <> None);
  std_is_file := fun p => bool_decide (config_read p <> None);
  std_is_dir := fun _ => false;
  std_read_to_string := config_read;
|}.

Lemma config_parse_keyed text value : config_parse text = inr value -> keyed value.
Proof.
  intros H. apply keyedb_keyed. revert H. unfold config_parse. destruct (text =s lit "A"); by intros [= <-].
Qed.

Lemma config_fs_keys path key :
  @std_read_to_string config_fs path <> None -> @cycle_key config_fs path = Ok key -> key ∈ ({[config_a; config_b]} : gset str).
Proof.
  cbn [std_read_to_string config_fs]. unfold config_read.
  destruct ((path =s config_a) || (path =s lit "/p/./a.json")) eqn:Ea.
  { intros _. apply orb_true_iff in Ea as [->%str_eqb_spec| ->%str_eqb_spec]; vm_compute; intros [= <-]; reflexivity. }
  destruct ((path =s config_b) || (path =s lit "/p/./b.json")) eqn:Eb; [|done].
  intros _. apply orb_true_iff in Eb as [->%str_eqb_spec| ->%str_eqb_spec]; vm_compute; intros [= <-]; reflexivity.
Qed.

Lemma config_is_its_chain_witness :
  exists merged diagnostics l cut,
    @load_merged_config config_fs config_parse 3 config_a ([], ∅) = Ok (merged, (diagnostics, ∅))
    /\ chain (Fs := config_fs) config_parse ∅ config_a l cut /\ merges merged l.*2
    /\ option_of (lit "strict") merged = Some (VBool true) /\ option_of (lit "target") merged = Some (VString (lit "es2022"))
    /\ map code diagnostics = [ExtendsCycle].
Proof.
  pose proof (@config_is_its_chain config_fs config_parse {[config_a; config_b]} 3 config_a config_parse_keyed config_fs_keys
    ltac:(vm_compute; lia)) as H.
  destruct (@load_merged_config config_fs config_parse 3 config_a ([], ∅)) as [[merged [diagnostics visited]]| |] eqn:E;
    [|vm_compute in E; discriminate..].
  destruct H as (Hv & l & cut & Hch & _ & Hm & _). subst visited.
  exists merged, diagnostics, l, cut. split; [reflexivity|]. split; [exact Hch|]. split; [exact Hm|].
  vm_compute in E. injection E as <- <-. vm_compute. done.
Defined.
