(* ===== verification/PathComponents.v ===== *)
(** * Paths as components

    [Path::components] and the methods that compare paths by them: equality,
    order, [starts_with] and [strip_prefix]. *)

From Stdlib Require Import Sorted.
From S2P Require Import Prelude Utf8 RustStr UnixPath.

Inductive Component := RootDir | CurDir | ParentDir | Normal (name : str).
#[export] Instance component_eq_dec : EqDecision Component.
Proof. solve_decision. Defined.

(** [Component::as_os_str]. *)
Definition component_text (c : Component) : str :=
  match c with RootDir => [separator] | CurDir => lit "." | ParentDir => lit ".." | Normal name => name end.

(** The component a segment between slashes is; [leading] says it begins a
    relative path. *)
Definition segment_component (leading : bool) (segment : str) : option Component :=
  if segment =s [] then None
  else if segment =s lit "." then if leading then Some CurDir else None
  else if segment =s lit ".." then Some ParentDir
  else Some (Normal segment).

Definition option_list {A} (o : option A) : list A := match o with Some a => [a] | None => [] end.

Fixpoint body_components (leading : bool) (segments : list str) : list Component :=
  match segments with
  | [] => []
  | segment :: segments => option_list (segment_component leading segment) ++ body_components false segments
  end.

Definition components (p : str) : list Component :=
  let '(absolute, segments) := path_segments p in
  (if absolute then [RootDir] else []) ++ body_components (negb absolute) segments.

(** ** Order and equality *)

Definition component_compare (a b : Component) : comparison :=
  match a, b with
  | RootDir, RootDir | CurDir, CurDir | ParentDir, ParentDir => Eq
  | RootDir, _ => Lt | _, RootDir => Gt
  | CurDir, _ => Lt | _, CurDir => Gt
  | ParentDir, _ => Lt | _, ParentDir => Gt
  | Normal a, Normal b => str_compare a b
  end.

Fixpoint components_compare (a b : list Component) : comparison :=
  match a, b with
  | [], [] => Eq
  | [], _ :: _ => Lt
  | _ :: _, [] => Gt
  | x :: a, y :: b => match component_compare x y with Eq => components_compare a b | c => c end
  end.

Definition path_le (p q : str) : bool :=
  match components_compare (components p) (components q) with Gt => false | _ => true end.
Definition path_eqb (p q : str) : bool := bool_decide (components p = components q).

(** ** Prefixes *)

Fixpoint component_prefix (prefix l : list Component) : bool :=
  match prefix, l with
  | [], _ => true
  | x :: prefix, y :: l => bool_decide (x = y) && component_prefix prefix l
  | _ :: _, [] => false
  end.

Definition path_starts_with (p base : str) : bool := component_prefix (components base) (components p).

(** [Components::as_path] drops what is no component from both ends. *)
Fixpoint trim_left (segments : list str) : list str :=
  match segments with
  | [] => []
  | segment :: rest => match segment_component false segment with Some _ => segments | None => trim_left rest end
  end.

(** What is left of the segments after [n] of their components. *)
Fixpoint after_components (leading : bool) (n : nat) (segments : list str) : list str :=
  match n, segments with
  | O, _ => trim_left segments
  | S _, [] => []
  | S n', segment :: rest =>
      match segment_component leading segment with
      | Some _ => after_components false n' rest
      | None => after_components false n rest
      end
  end.

Definition path_strip_prefix (p base : str) : option str :=
  if path_starts_with p base then
    let '(absolute, segments) := path_segments p in
    Some (match absolute, length (components base) with
          | _, O => from_segments absolute (trim_right (negb absolute) segments)
          | true, S n => from_segments false (trim_right false (after_components false n segments))
          | false, n => from_segments false (trim_right false (after_components true n segments))
          end)
  else None.

Example strip_samples :
  map (fun '(p, base) => path_strip_prefix (lit p) (lit base))
    [("/a/b/c", "/a"); ("/a//./b//c/", "/a/"); ("/a/b", "/"); ("/a", "/a"); ("./a", "."); ("/ab", "/a"); ("a/b", "")]%string
  = [Some (lit "b/c"); Some (lit "b//c"); Some (lit "a/b"); Some []; Some (lit "a"); None; Some (lit "a/b")].
Proof. done. Qed.

(** ** Lemmas *)

Lemma component_prefix_spec prefix l : component_prefix prefix l = true <-> exists rest, l = prefix ++ rest.
Proof.
  revert l. induction prefix as [|x prefix IH]; intros l; simpl; [split; [by exists l|done]|].
  destruct l as [|y l]; simpl; [split; [done|by intros [? ?]]|]. rewrite andb_true_iff, bool_decide_eq_true, IH. split.
  - intros [-> [rest ->]]. by exists rest.
  - intros [rest [= -> ->]]. eauto.
Qed.

Lemma body_trim_right leading segments : body_components leading (trim_right leading segments) = body_components leading segments.
Proof.
  revert leading. induction segments as [|s rest IH]; intros leading; [done|]. cbn [trim_right body_components].
  specialize (IH false). destruct (trim_right false rest) as [|s' rest'] eqn:E.
  - rewrite <- IH. cbn [body_components]. rewrite app_nil_r.
    assert (forall b : bool, (b = true -> segment_component leading s = None) ->
              body_components leading (if b then [] else [s]) = option_list (segment_component leading s)) as H.
    { intros [] Hb; cbn [body_components]; [by rewrite Hb|by rewrite app_nil_r]. }
    apply H. unfold segment_component. destruct (s =s []); [done|]. intros [Hl Hd]%andb_true_iff. rewrite Hd.
    by destruct leading.
  - cbn [body_components]. by rewrite <- IH.
Qed.
Lemma body_trim_left segments : body_components false (trim_left segments) = body_components false segments.
Proof.
  induction segments as [|s rest IH]; simpl; [done|]. destruct (segment_component false s) eqn:E; simpl; by rewrite ?E.
Qed.
Lemma body_after leading n segments :
  n <= length (body_components leading segments) -> (n <> 0 \/ leading = false) ->
  body_components false (after_components leading n segments) = drop n (body_components leading segments).
Proof.
  revert leading n. induction segments as [|s rest IH]; intros leading n Hn Hl.
  - by destruct n.
  - destruct n as [|n]; cbn [after_components].
    + destruct Hl as [| ->]; [done|]. by rewrite body_trim_left.
    + cbn [body_components] in Hn |- *. destruct (segment_component leading s) as [c|]; simpl in *; apply IH; auto; lia.
Qed.

Lemma after_components_head leading n segments :
  (n <> 0 \/ leading = false) ->
  match after_components leading n segments with [] => True | s :: _ => segment_component false s <> None end.
Proof.
  assert (forall segments, match trim_left segments with [] => True | s :: _ => segment_component false s <> None end) as Ht.
  { clear. induction segments as [|s rest IH]; simpl; [done|]. destruct (segment_component false s) eqn:E; [congruence|done]. }
  revert leading n. induction segments as [|s rest IH]; intros leading n Hl; [by destruct n|].
  destruct n as [|n]; cbn [after_components]; [apply Ht|].
  destruct (segment_component leading s); apply IH; auto.
Qed.

Lemma after_components_incl leading n segments s : s ∈ after_components leading n segments -> s ∈ segments.
Proof.
  assert (forall segments, s ∈ trim_left segments -> s ∈ segments) as Ht.
  { clear. induction segments as [|x rest IH]; simpl; [done|]. destruct (segment_component false x); [done|].
    intros H. apply list_elem_of_further. auto. }
  revert leading n. induction segments as [|x rest IH]; intros leading n; [by destruct n|].
  destruct n as [|n]; cbn [after_components]; [apply Ht|].
  destruct (segment_component leading x); intros H; apply list_elem_of_further; eauto.
Qed.

Lemma trim_right_incl leading segments s : s ∈ trim_right leading segments -> s ∈ segments.
Proof.
  revert leading. induction segments as [|x rest IH]; intros leading; [done|]. cbn [trim_right].
  specialize (IH false). destruct (trim_right false rest) as [|y l].
  - destruct (_ || _); [by intros ?%elem_of_nil|]. intros ->%list_elem_of_singleton. apply list_elem_of_here.
  - intros [->|H]%elem_of_cons; [apply list_elem_of_here|]. apply list_elem_of_further. auto.
Qed.

Lemma trim_right_head s rest :
  segment_component false s <> None -> exists rest', trim_right false (s :: rest) = s :: rest'.
Proof.
  intros Hs. cbn [trim_right]. destruct (trim_right false rest) as [|y l]; [|by eexists].
  unfold segment_component in Hs. destruct (s =s []); [done|]. destruct (s =s lit "."); [done|]. by eexists.
Qed.

(** A relative text that begins with a component in its own right reads the same
    wherever it stands. *)
Lemma components_relative s segments :
  Forall (fun s => contains_byte separator s = false) (s :: segments) -> segment_component false s <> None ->
  components (join [separator] (s :: segments)) = body_components false (s :: segments).
Proof.
  intros Hs Hc. pose proof Hs as [Hsep _]%Forall_cons. unfold segment_component in Hc.
  assert (is_absolute (join [separator] (s :: segments)) = false) as Habs.
  { destruct s as [|b s]; [done|]. unfold is_absolute. unfold contains_byte in Hsep. cbn in Hsep.
    apply orb_false_iff in Hsep as [Hb _]. destruct segments; cbn; by rewrite Hb. }
  unfold components, path_segments. rewrite Habs, split_byte_join by done. cbn [body_components negb app]. f_equal.
  unfold segment_component. destruct (s =s []); [done|]. by destruct (s =s lit ".").
Qed.

Lemma split_byte_free b s : Forall (fun w => contains_byte b w = false) (split_byte b s).
Proof.
  induction s as [|x s IH]; simpl; [by repeat constructor|]. destruct (Z.eqb_spec x b) as [->|Hx].
  - by constructor.
  - destruct (split_byte b s) as [|w ws]; [by constructor; [simpl; destruct (Z.eqb_spec b x)|]|].
    apply Forall_cons in IH as [Hw Hws]. constructor; [|done]. unfold contains_byte in *. simpl.
    by destruct (Z.eqb_spec b x).
Qed.

Lemma stripped_components leading n segments :
  Forall (fun s => contains_byte separator s = false) segments -> (n <> 0 \/ leading = false) ->
  n <= length (body_components leading segments) ->
  components (from_segments false (trim_right false (after_components leading n segments)))
  = drop n (body_components leading segments).
Proof.
  intros Hf Hl Hn. rewrite <- body_after, <- (body_trim_right false) by done.
  pose proof (after_components_head leading n segments Hl) as Hh.
  assert (Forall (fun s => contains_byte separator s = false) (trim_right false (after_components leading n segments))) as Hf'.
  { rewrite Forall_forall in *. intros s H%trim_right_incl%after_components_incl. auto. }
  destruct (after_components leading n segments) as [|s rest]; [done|].
  destruct (trim_right_head s rest Hh) as [rest' E]. rewrite E in *. by apply components_relative.
Qed.

Lemma path_segments_free p : Forall (fun s => contains_byte separator s = false) (snd (path_segments p)).
Proof. unfold path_segments. destruct (is_absolute p); apply split_byte_free. Qed.

(** Only the empty path and the absolute ones begin with an empty segment. *)
Lemma relative_head p s rest : path_segments p = (false, s :: rest) -> s = [] -> rest = [].
Proof.
  unfold path_segments. destruct (is_absolute p) eqn:E; [done|]. intros [= H] ->. destruct p as [|b p]; [simpl in H; congruence|].
  cbn [split_byte] in H. destruct (Z.eqb_spec b separator) as [->|Hb]; [done|]. by destruct (split_byte separator p).
Qed.

Lemma path_segments_join absolute segments :
  Forall (fun s => contains_byte separator s = false) segments -> (absolute = false -> head segments <> Some []) ->
  path_segments (from_segments absolute segments) = (absolute, match segments with [] => [[]] | _ => segments end).
Proof.
  intros Hf Hh. unfold path_segments, from_segments.
  assert (split_byte separator (join [separator] segments) = match segments with [] => [[]] | _ => segments end) as Hs.
  { destruct segments as [|s l]; [done|]. by apply split_byte_join. }
  destruct absolute; simpl.
  - by rewrite drop_0, Hs.
  - destruct (is_absolute (join [separator] segments)) eqn:E; [|by rewrite Hs]. exfalso.
    destruct segments as [|s l]; [done|]. destruct s as [|b s]; [by apply Hh|].
    apply Forall_cons in Hf as [Hf _]. unfold contains_byte in Hf. cbn in Hf. apply orb_false_iff in Hf as [Hb _].
    unfold is_absolute in E. destruct l; cbn in E; by rewrite Hb in E.
Qed.

Lemma trim_right_first leading segments s : head (trim_right leading segments) = Some s -> head segments = Some s.
Proof.
  destruct segments as [|x rest]; [done|]. cbn [trim_right]. destruct (trim_right false rest) as [|y l]; [|done].
  by destruct (_ || _).
Qed.

Lemma components_trimmed p :
  let '(absolute, segments) := path_segments p in
  components (from_segments absolute (trim_right (negb absolute) segments)) = components p.
Proof.
  pose proof (path_segments_free p) as Hf. unfold components at 2. destruct (path_segments p) as [absolute segments] eqn:E.
  cbn [snd] in Hf. unfold components. rewrite path_segments_join.
  - f_equal. rewrite <- (body_trim_right _ segments). by destruct (trim_right _ segments), absolute.
  - rewrite Forall_forall in *. intros s H%trim_right_incl. auto.
  - intros ->. intros H. pose proof (trim_right_first _ _ _ H) as Hh. destruct segments as [|s rest]; [done|].
    injection Hh as ->. pose proof (relative_head _ _ _ E eq_refl) as ->. done.
Qed.

(** Stripping a prefix leaves the path of the components after those of the
    prefix. *)
Lemma path_strip_components p base r : path_strip_prefix p base = Some r -> components p = components base ++ components r.
Proof.
  unfold path_strip_prefix, path_starts_with. destruct (component_prefix _ _) eqn:E; [|done].
  apply component_prefix_spec in E as [rest E]. pose proof (path_segments_free p) as Hf. pose proof (components_trimmed p) as Ht.
  assert (length (components base) <= length (components p)) as Hn by (rewrite E, length_app; lia).
  assert (rest = drop (length (components base)) (components p)) as Hrest by (by rewrite E, drop_app_length).
  unfold components in Hn, Hrest. fold (components base) in Hn, Hrest.
  destruct (path_segments p) as [absolute segments] eqn:Ep. cbn [snd] in Hf.
  intros H. rewrite E. f_equal. rewrite Hrest. destruct (length (components base)) as [|n] eqn:En.
  - assert (r = from_segments absolute (trim_right (negb absolute) segments)) as -> by (by destruct absolute; simplify_eq).
    rewrite Ht. unfold components. by rewrite Ep, drop_0.
  - destruct absolute; simplify_eq; cbn [negb app drop] in *; symmetry; apply stripped_components; auto. simpl in Hn. lia.
Qed.

(** [Path::file_name] is the last component when that is a name. *)
Lemma trim_right_component leading segments :
  match last (trim_right leading segments) with
  | None => body_components leading segments = []
  | Some s => exists cs c, body_components leading segments = cs ++ [c]
      /\ c = (if s =s lit "." then CurDir else if s =s lit ".." then ParentDir else Normal s)
  end.
Proof.
  rewrite <- (body_trim_right leading segments). revert leading. induction segments as [|s rest IH]; intros leading; [done|].
  cbn [trim_right]. specialize (IH false). destruct (trim_right false rest) as [|s' rest'].
  - destruct ((s =s []) || negb leading && (s =s lit ".")) eqn:E; [done|]. apply orb_false_iff in E as [E1 E2].
    cbn [last body_components]. unfold segment_component. rewrite E1.
    destruct (s =s lit "."); [destruct leading; [by exists [], CurDir|done]|].
    destruct (s =s lit ".."); [by exists [], ParentDir|by exists [], (Normal s)].
  - change (last (s :: s' :: rest')) with (last (s' :: rest')). destruct (last (s' :: rest')) as [z|] eqn:Ez.
    + destruct IH as (cs & c & Hb & Hc). exists (option_list (segment_component leading s) ++ cs), c. split; [|done].
      cbn [body_components] in Hb |- *. by rewrite Hb, app_assoc.
    + by apply last_None in Ez.
Qed.

Lemma file_name_component p :
  file_name p = match last (components p) with Some (Normal name) => Some name | _ => None end.
Proof.
  unfold file_name, trimmed, components. destruct (path_segments p) as [absolute segments]. cbn [snd].
  pose proof (trim_right_component (negb absolute) segments) as H.
  destruct (last (trim_right _ _)) as [s|].
  - destruct H as (cs & c & -> & ->). rewrite app_assoc, last_snoc. by destruct (s =s lit "."), (s =s lit "..").
  - rewrite H. by destruct absolute.
Qed.

(** The order of paths. *)
Lemma component_compare_eq a b : component_compare a b = Eq <-> a = b.
Proof. destruct a, b; simpl; try done. rewrite str_compare_eq. split; congruence. Qed.
Lemma component_compare_antisym a b : component_compare b a = CompOpp (component_compare a b).
Proof. destruct a, b; simpl; try done. apply str_compare_antisym. Qed.
Lemma component_compare_trans a b c : component_compare a b = Lt -> component_compare b c = Lt -> component_compare a c = Lt.
Proof. destruct a, b, c; simpl; try done. apply str_compare_lt_trans. Qed.

Lemma components_compare_eq a b : components_compare a b = Eq <-> a = b.
Proof.
  revert b. induction a as [|x a IH]; intros [|y b]; simpl; try done.
  destruct (component_compare x y) eqn:E; [apply component_compare_eq in E as ->; rewrite IH|..]; split; intros H; try congruence.
  - injection H as -> ->. by rewrite (proj2 (component_compare_eq y y) eq_refl) in E.
  - injection H as -> ->. by rewrite (proj2 (component_compare_eq y y) eq_refl) in E.
Qed.
Lemma components_compare_antisym a b : components_compare b a = CompOpp (components_compare a b).
Proof.
  revert b. induction a as [|x a IH]; intros [|y b]; simpl; try done. rewrite (component_compare_antisym x y).
  destruct (component_compare x y); simpl; auto.
Qed.
Lemma components_compare_trans a b c :
  components_compare a b = Lt -> components_compare b c = Lt -> components_compare a c = Lt.
Proof.
  revert b c. induction a as [|x a IH]; intros [|y b] [|z c]; simpl; try done.
  destruct (component_compare x y) eqn:E1; [apply component_compare_eq in E1 as ->| |done];
    destruct (component_compare y z) eqn:E2; try done.
  - apply IH.
  - apply component_compare_eq in E2 as ->. by rewrite E1.
  - by rewrite (component_compare_trans _ _ _ E1 E2).
Qed.

Lemma path_le_total p q : path_le p q = false -> path_le q p = true.
Proof. unfold path_le. rewrite (components_compare_antisym (components p) (components q)). by destruct (components_compare _ _). Qed.
Lemma path_le_trans p q r : path_le p q = true -> path_le q r = true -> path_le p r = true.
Proof.
  unfold path_le. destruct (components_compare (components p) (components q)) eqn:E1; try done;
    [apply components_compare_eq in E1 as ->; done|].
  destruct (components_compare (components q) (components r)) eqn:E2; try done.
  - apply components_compare_eq in E2 as <-. by rewrite E1.
  - by rewrite (components_compare_trans _ _ _ E1 E2).
Qed.
Lemma path_le_antisym p q : path_le p q = true -> path_le q p = true -> path_eqb p q = true.
Proof.
  unfold path_le, path_eqb. rewrite (components_compare_antisym (components p) (components q)).
  destruct (components_compare _ _) eqn:E; try done. apply components_compare_eq in E as ->. by rewrite bool_decide_true.
Qed.
Lemma path_eqb_spec p q : path_eqb p q = true <-> components p = components q.
Proof. apply bool_decide_eq_true. Qed.
Lemma path_eqb_le p q : path_eqb p q = true -> path_le p q = true.
Proof. unfold path_le. intros ->%path_eqb_spec. by rewrite (proj2 (components_compare_eq _ _) eq_refl). Qed.
