(* ===== verification/Normalize.v ===== *)
(** * Normalizing compiler options ([surge-ts-config/src/normalize.rs])

    The entries of [compilerOptions] are read in the order they are written in;
    what an unwritten option defaults to is decided after the last of them. The
    outcome does not depend on that order: it is read off the object key by key. *)

From S2P Require Import Prelude RustStr Json PathMapping UnixPath TsConfig CompilerOptions.

Definition resolve_path (base_dir raw : str) : str := if is_absolute raw then raw else path_join base_dir raw.

(** A value and the diagnostics pushed. *)
Abbreviation parsed A := (A * list ConfigDiagnostic)%type.

Definition quoted (name : str) : str := lit "`" ++ name ++ lit "`".
Definition invalid (message file_name : str) : ConfigDiagnostic := mkDiagnostic InvalidCompilerOptionValue message file_name.
Definition legacy_value (message file_name : str) : ConfigDiagnostic :=
  mkDiagnostic UnsupportedLegacyCompilerOptionValue message file_name.

(** ** The values of the options *)

Definition as_bool (v : Value) : option bool := match v with VBool b => Some b | _ => None end.

Definition parse_bool_option (key : str) (value : Value) (file_name : str) : parsed (option bool) :=
  match as_bool value with
  | Some b => (Some b, [])
  | None => (None, [invalid (quoted key ++ lit " must be a boolean") file_name])
  end.

(** The [match] over the lower-cased text. *)
Definition keyword {A} (words : list (String.string * A)) (raw : str) : option A :=
  map_get (to_ascii_lowercase raw) (map (fun '(word, a) => (lit word, a)) words).

Definition parse_target_option (value : Value) (file_name : str) : parsed ScriptTarget :=
  match as_str value with
  | None => (ES2015, [invalid (lit "`target` must be a string") file_name])
  | Some raw =>
      match keyword [("es6", Some ES2015); ("es2015", Some ES2015); ("es2016", Some ES2016); ("es2017", Some ES2017);
                     ("es2018", Some ES2018); ("es2019", Some ES2019); ("es2020", Some ES2020); ("es2021", Some ES2021);
                     ("es2022", Some ES2022); ("es2023", Some ES2023); ("es2024", Some ES2024); ("es2025", Some ES2025);
                     ("esnext", Some ESNext); ("es3", None); ("es5", None)]%string raw with
      | Some (Some t) => (t, [])
      | Some None =>
          (ES2015, [legacy_value (lit "legacy target " ++ quoted raw ++ lit " is not supported; using es2015") file_name])
      | None => (ES2015, [invalid (lit "unsupported target " ++ quoted (to_ascii_lowercase raw)) file_name])
      end
  end.

Definition parse_module_option (value : Value) (file_name : str) : parsed ModuleKind :=
  match as_str value with
  | None => (ModulePreserve, [invalid (lit "`module` must be a string") file_name])
  | Some raw =>
      match keyword [("commonjs", Some ModuleCommonJS); ("es6", Some ModuleES2015); ("es2015", Some ModuleES2015);
                     ("es2020", Some ModuleES2020); ("es2022", Some ModuleES2022); ("esnext", Some ModuleESNext);
                     ("node16", Some ModuleNode16); ("node18", Some ModuleNode18); ("node20", Some ModuleNode20);
                     ("nodenext", Some ModuleNodeNext); ("preserve", Some ModulePreserve);
                     ("amd", None); ("umd", None); ("system", None); ("systemjs", None); ("none", None)]%string raw with
      | Some (Some m) => (m, [])
      | Some None =>
          (ModulePreserve,
           [legacy_value (lit "legacy module kind " ++ quoted raw ++ lit " is not supported; using preserve") file_name])
      | None => (ModulePreserve, [invalid (lit "unsupported module kind " ++ quoted (to_ascii_lowercase raw)) file_name])
      end
  end.

Definition parse_module_resolution_option (value : Value) (file_name : str) : parsed (option ModuleResolutionKind) :=
  match as_str value with
  | None => (None, [invalid (lit "`moduleResolution` must be a string") file_name])
  | Some raw =>
      match keyword [("node16", Some Node16); ("node20", Some Node20); ("nodenext", Some NodeNext);
                     ("bundler", Some Bundler); ("classic", None); ("node", None); ("node10", None)]%string raw with
      | Some (Some kind) => (Some kind, [])
      | Some None =>
          (None, [legacy_value (lit "legacy moduleResolution " ++ quoted raw
                                ++ lit " is not supported; the module kind decides") file_name])
      | None => (None, [invalid (lit "unsupported moduleResolution " ++ quoted (to_ascii_lowercase raw)) file_name])
      end
  end.

Definition parse_jsx_option (value : Value) (file_name : str) : parsed (option JsxMode) :=
  match as_str value with
  | None => (None, [invalid (lit "`jsx` must be a string") file_name])
  | Some raw =>
      match keyword [("preserve", JsxPreserve); ("react", JsxReact); ("react-jsx", JsxReactJsx);
                     ("react-jsxdev", JsxReactJsxDev); ("react-native", JsxReactNative)]%string raw with
      | Some mode => (Some mode, [])
      | None => (None, [invalid (lit "unsupported jsx mode " ++ quoted (to_ascii_lowercase raw)) file_name])
      end
  end.

Definition parse_module_detection_option (value : Value) (file_name : str) : parsed (option ModuleDetectionKind) :=
  match as_str value with
  | None => (None, [invalid (lit "`moduleDetection` must be a string") file_name])
  | Some raw =>
      match keyword [("auto", DetectAuto); ("legacy", DetectLegacy); ("force", DetectForce)]%string raw with
      | Some kind => (Some kind, [])
      | None => (None, [invalid (lit "unsupported moduleDetection " ++ quoted (to_ascii_lowercase raw)) file_name])
      end
  end.

Definition parse_jsx_name_option (key : str) (value : Value) (file_name : str) : parsed (option str) :=
  match as_str value with
  | Some text => (Some text, [])
  | None => (None, [invalid (quoted key ++ lit " must be a string") file_name])
  end.

Definition parse_base_url_option (value : Value) (config_dir : str) : parsed (option str) :=
  match as_str value with
  | None => (None, [invalid (lit "`baseUrl` must be a string") config_dir])
  | Some raw => (Some (resolve_path config_dir raw), [])
  end.

(** A loop over entries that keeps the strings and reports the others. *)
Fixpoint string_entries (entries : list Value) (complaint : ConfigDiagnostic) : parsed (list str) :=
  match entries with
  | [] => ([], [])
  | entry :: entries =>
      let '(values, diagnostics) := string_entries entries complaint in
      match as_str entry with
      | Some raw => (raw :: values, diagnostics)
      | None => (values, complaint :: diagnostics)
      end
  end.

Definition parse_path_list_option (value : Value) (config_dir : str) : parsed (list str) :=
  match as_array value with
  | None => ([], [invalid (lit "`typeRoots` must be an array of strings") config_dir])
  | Some entries =>
      let '(paths, diagnostics) := string_entries entries (invalid (lit "`typeRoots` entries must be strings") config_dir) in
      (map (resolve_path config_dir) paths, diagnostics)
  end.

Definition parse_string_list_option (value : Value) (file_name : str) : parsed (list str) :=
  match as_array value with
  | None => ([], [invalid (lit "expected an array of strings") file_name])
  | Some entries => string_entries entries (invalid (lit "array entries must be strings") file_name)
  end.

Fixpoint path_entries (object : list (str * Value)) (file_name : str) : parsed (list PathMapping) :=
  match object with
  | [] => ([], [])
  | (pattern, substitutions_value) :: object =>
      let '(paths, diagnostics) := path_entries object file_name in
      match as_array substitutions_value with
      | None => (paths, invalid (lit "paths entry " ++ quoted pattern ++ lit " must be an array of strings") file_name :: diagnostics)
      | Some substitutions_array =>
          let '(substitutions, pushed) :=
            string_entries substitutions_array
              (invalid (lit "paths entry " ++ quoted pattern ++ lit " contains a non-string substitution") file_name) in
          (mkMapping pattern substitutions :: paths, pushed ++ diagnostics)
      end
  end.

Definition parse_paths_option (value : Value) (file_name : str) : parsed (list PathMapping) :=
  match as_object value with
  | None => ([], [invalid (lit "`paths` must be an object") file_name])
  | Some object => path_entries object file_name
  end.

(** ** Options that change nothing *)

Definition validate_tsconfig_option_value (definition : TsConfigOptionDefinition) (value : Value) (config_dir : str)
    : list ConfigDiagnostic :=
  match value_kind definition with
  | BooleanValue => snd (parse_bool_option (option_name definition) value config_dir)
  | StringValue =>
      match as_str value with
      | None => [invalid (quoted (option_name definition) ++ lit " must be a string") config_dir]
      | Some _ => []
      end
  | StringArrayValue => snd (parse_string_list_option value config_dir)
  | StringMapToStringArray => snd (parse_paths_option value config_dir)
  | ObjectArray =>
      match as_array value with
      | None => [invalid (quoted (option_name definition) ++ lit " must be an array of objects") config_dir]
      | Some entries =>
          if forallb (fun entry => match as_object entry with Some _ => true | None => false end) entries then []
          else [invalid (quoted (option_name definition) ++ lit " entries must be objects") config_dir]
      end
  end.

Definition handle_legacy_tsconfig_option (definition : TsConfigOptionDefinition) (value : Value) (config_dir : str)
    : list ConfigDiagnostic :=
  let legacy :=
    mkDiagnostic UnsupportedLegacyCompilerOption
      (lit "legacy compiler option " ++ quoted (option_name definition) ++ lit " is not supported") config_dir in
  if option_name definition =s lit "outFile" then
    match as_str value with
    | None => [invalid (quoted (option_name definition) ++ lit " must be a string") config_dir]
    | Some _ => [legacy]
    end
  else if option_name definition =s lit "downlevelIteration" then
    match as_bool value with
    | None => [invalid (lit "`downlevelIteration` must be a boolean") config_dir]
    | Some _ => [legacy]
    end
  else validate_tsconfig_option_value definition value config_dir.

(** The last arm. *)
Definition other_option (key : str) (value : Value) (config_dir : str) : list ConfigDiagnostic :=
  let unknown := mkDiagnostic UnknownCompilerOption (lit "unknown compiler option " ++ quoted key) config_dir in
  match find_tsconfig_option key with
  | Some definition =>
      match support definition with
      | KnownNoop => validate_tsconfig_option_value definition value config_dir
      | UnsupportedLegacy => handle_legacy_tsconfig_option definition value config_dir
      | Supported => [unknown]
      end
  | None => [unknown]
  end.

(** ** One entry *)

(** What an arm of the [match] does with its option: sets a flag; keeps what was
    written of a flag for the end, setting it too or not; or its own. *)
Inductive Slot :=
| Sets (f : Flag) | Explicit (f : Flag) (written : bool)
| UnreachableCode | UnusedLabels | Target | EmittedModule | Resolution | Jsx | Detection | Names (n : JsxName) | CheckJs
| Paths | BaseUrl | Lib | TypeRoots | Types | CustomConditions.

(** The arms, in their order. *)
Definition arms : list (str * Slot) :=
  map (fun '(key, slot) => (lit key, slot))
    [("strict", Sets strict); ("noImplicitAny", Explicit no_implicit_any true);
     ("noImplicitThis", Explicit no_implicit_this false); ("strictNullChecks", Explicit strict_null_checks false);
     ("strictBindCallApply", Explicit strict_bind_call_apply false);
     ("strictBuiltinIteratorReturn", Explicit strict_builtin_iterator_return false);
     ("strictPropertyInitialization", Explicit strict_property_initialization true);
     ("useUnknownInCatchVariables", Explicit use_unknown_in_catch_variables true);
     ("noImplicitReturns", Sets no_implicit_returns);
     ("noFallthroughCasesInSwitch", Sets no_fallthrough_cases_in_switch);
     ("noImplicitOverride", Sets no_implicit_override); ("declaration", Sets declaration);
     ("composite", Sets composite); ("isolatedDeclarations", Sets isolated_declarations);
     ("isolatedModules", Sets isolated_modules); ("verbatimModuleSyntax", Sets verbatim_module_syntax);
     ("noPropertyAccessFromIndexSignature", Sets no_property_access_from_index_signature);
     ("noUncheckedSideEffectImports", Sets no_unchecked_side_effect_imports);
     ("noUncheckedIndexedAccess", Sets no_unchecked_indexed_access);
     ("exactOptionalPropertyTypes", Sets exact_optional_property_types);
     ("allowImportingTsExtensions", Sets allow_importing_ts_extensions);
     ("rewriteRelativeImportExtensions", Sets rewrite_relative_import_extensions);
     ("allowArbitraryExtensions", Sets allow_arbitrary_extensions);
     ("experimentalDecorators", Sets experimental_decorators); ("importHelpers", Sets import_helpers);
     ("emitDecoratorMetadata", Sets emit_decorator_metadata); ("noUnusedLocals", Sets no_unused_locals);
     ("noUnusedParameters", Sets no_unused_parameters); ("allowUnreachableCode", UnreachableCode);
     ("allowUnusedLabels", UnusedLabels); ("target", Target); ("module", EmittedModule);
     ("useDefineForClassFields", Explicit use_define_for_class_fields false); ("moduleResolution", Resolution);
     ("jsx", Jsx); ("moduleDetection", Detection); ("jsxFactory", Names jsx_factory);
     ("jsxFragmentFactory", Names jsx_fragment_factory); ("reactNamespace", Names react_namespace);
     ("jsxImportSource", Names jsx_import_source); ("allowJs", Sets allow_js);
     ("erasableSyntaxOnly", Sets erasable_syntax_only); ("checkJs", CheckJs); ("noEmit", Sets no_emit);
     ("noCheck", Sets no_check); ("noResolve", Sets no_resolve); ("skipLibCheck", Sets skip_lib_check);
     ("esModuleInterop", Sets es_module_interop);
     ("allowSyntheticDefaultImports", Sets allow_synthetic_default_imports);
     ("allowUmdGlobalAccess", Sets allow_umd_global_access); ("noLib", Sets no_lib); ("paths", Paths);
     ("baseUrl", BaseUrl); ("lib", Lib); ("typeRoots", TypeRoots); ("types", Types);
     ("resolveJsonModule", Explicit resolve_json_module false);
     ("resolvePackageJsonExports", Sets resolve_package_json_exports);
     ("resolvePackageJsonImports", Sets resolve_package_json_imports); ("customConditions", CustomConditions);
     ("libReplacement", Sets lib_replacement)]%string.
Definition slot_of (key : str) : option Slot := map_get key arms.

(** The options so far and the [explicit_*] variables. *)
Record Pending := mkPending {
  normalized : NormalizedCompilerOptions;
  explicit : Flag -> option bool;
  explicit_module : option ModuleKind;
  explicit_module_resolution : option ModuleResolutionKind;
}.
Definition start : Pending := mkPending default_options (fun _ => None) None None.

Definition modify (f : NormalizedCompilerOptions -> NormalizedCompilerOptions) (p : Pending) : Pending :=
  mkPending (f (normalized p)) (explicit p) (explicit_module p) (explicit_module_resolution p).
Definition set_some {A} (set : A -> NormalizedCompilerOptions -> NormalizedCompilerOptions) (a : option A) : Pending -> Pending :=
  match a with Some a => modify (set a) | None => id end.

Definition apply_slot (slot : Slot) (key : str) (value : Value) (config_dir : str) (p : Pending) : parsed Pending :=
  match slot with
  | Sets f =>
      let '(b, d) := parse_bool_option key value config_dir in (set_some (set_flag_to f) b p, d)
  | Explicit f written =>
      let '(b, d) := parse_bool_option key value config_dir in
      let p := mkPending (normalized p) (update (explicit p) f b) (explicit_module p) (explicit_module_resolution p) in
      (if written : bool then set_some (set_flag_to f) b p else p, d)
  | UnreachableCode =>
      let '(b, d) := parse_bool_option key value config_dir in
      (set_some (fun allow o => set_flag_to report_unreachable_code (negb allow) (set_flag_to allow_unreachable_code allow o)) b p, d)
  | UnusedLabels =>
      let '(b, d) := parse_bool_option key value config_dir in
      (modify (fun o => set_allow_unused_labels (or_else b (allow_unused_labels o)) o) p, d)
  | Target => let '(t, d) := parse_target_option value config_dir in (modify (set_target t) p, d)
  | EmittedModule =>
      let '(m, d) := parse_module_option value config_dir in
      let p := modify (set_module m) p in
      (mkPending (normalized p) (explicit p) (Some m) (explicit_module_resolution p), d)
  | Resolution =>
      let '(r, d) := parse_module_resolution_option value config_dir in
      (mkPending (normalized p) (explicit p) (explicit_module p) r, d)
  | Jsx => let '(j, d) := parse_jsx_option value config_dir in (modify (set_jsx j) p, d)
  | Detection =>
      let '(k, d) := parse_module_detection_option value config_dir in (set_some set_module_detection k p, d)
  | Names n =>
      let '(text, d) := parse_jsx_name_option key value config_dir in
      (set_some (fun text o => set_jsx_names (update (jsx_names o) n (Some text)) o) text p, d)
  | CheckJs =>
      let '(b, d) := parse_bool_option key value config_dir in (set_some (fun b => set_check_js (Some b)) b p, d)
  | Paths => let '(l, d) := parse_paths_option value config_dir in (modify (set_paths l) p, d)
  | BaseUrl => let '(u, d) := parse_base_url_option value config_dir in (modify (set_base_url u) p, d)
  | Lib => let '(l, d) := parse_string_list_option value config_dir in (modify (set_lib l) p, d)
  | TypeRoots => let '(l, d) := parse_path_list_option value config_dir in (modify (set_type_roots l) p, d)
  | Types => let '(l, d) := parse_string_list_option value config_dir in (modify (set_types (Some l)) p, d)
  | CustomConditions =>
      let '(l, d) := parse_string_list_option value config_dir in (modify (set_custom_conditions l) p, d)
  end.

Definition apply_entry (config_dir : str) (s : parsed Pending) (entry : str * Value) : parsed Pending :=
  let '(p, diagnostics) := s in
  let '(key, value) := entry in
  match slot_of key with
  | Some slot => let '(p, d) := apply_slot slot key value config_dir p in (p, diagnostics ++ d)
  | None => (p, diagnostics ++ other_option key value config_dir)
  end.

(** ** After the last entry *)

Definition target_module (t : ScriptTarget) : ModuleKind :=
  match t with
  | ESNext => ModuleESNext
  | t => if target_ge t ES2022 then ModuleES2022 else if target_ge t ES2020 then ModuleES2020 else ModuleES2015
  end.
Definition module_resolver (m : ModuleKind) : ModuleResolutionKind :=
  match m with
  | ModuleNode16 | ModuleNode18 | ModuleNode20 => Node16
  | ModuleNodeNext => NodeNext
  | _ => Bundler
  end.

(** [explicit_f.unwrap_or(..)], the fallback being read off the options. *)
Definition settle (p : Pending) (f : Flag) (fallback : NormalizedCompilerOptions -> bool) (o : NormalizedCompilerOptions)
    : NormalizedCompilerOptions :=
  set_flag_to f (default (fallback o) (explicit p f)) o.
Definition strictness (o : NormalizedCompilerOptions) : bool := flag o strict.
Definition reads_json (o : NormalizedCompilerOptions) : bool :=
  match emit_module o, module_resolution o with
  | ModuleNode20, _ | ModuleNodeNext, _ | _, Bundler => true
  | _, _ => false
  end.
Definition settle_emit_module (p : Pending) (o : NormalizedCompilerOptions) : NormalizedCompilerOptions :=
  set_emit_module (default (target_module (target o)) (explicit_module p)) o.
Definition settle_module_resolution (p : Pending) (o : NormalizedCompilerOptions) : NormalizedCompilerOptions :=
  set_module_resolution (default (module_resolver (emit_module o)) (explicit_module_resolution p)) o.
Definition settle_synthetic (o : NormalizedCompilerOptions) : NormalizedCompilerOptions :=
  if flag o es_module_interop then set_flag_to allow_synthetic_default_imports true o else o.

Definition finish (p : Pending) : NormalizedCompilerOptions :=
  let o := normalized p in
  let o := settle p no_implicit_any strictness o in
  let o := settle p no_implicit_this strictness o in
  let o := settle_emit_module p o in
  let o := settle p use_define_for_class_fields (fun o => target_ge (target o) ES2022) o in
  let o := settle p strict_null_checks strictness o in
  let o := settle p strict_bind_call_apply strictness o in
  let o := settle p strict_builtin_iterator_return strictness o in
  let o := settle p strict_property_initialization strictness o in
  let o := settle p use_unknown_in_catch_variables strictness o in
  let o := settle_module_resolution p o in
  let o := settle p resolve_json_module reads_json o in
  settle_synthetic o.

Definition normalize_compiler_options (compiler_options : option (list (str * Value))) (config_dir : str)
    : parsed NormalizedCompilerOptions :=
  match compiler_options with
  | None => (default_options, [])
  | Some compiler_options =>
      let '(p, diagnostics) := foldl (apply_entry config_dir) (start, []) compiler_options in
      (finish p, diagnostics)
  end.

(** ** Reading the options key by key *)

#[export] Instance slot_eq_dec : EqDecision Slot.
Proof. solve_decision. Defined.

(** The key a flag is written under. *)
Definition flag_key (f : Flag) : str :=
  match f with
  | strict => lit "strict" | no_implicit_any => lit "noImplicitAny" | no_implicit_this => lit "noImplicitThis"
  | strict_null_checks => lit "strictNullChecks" | strict_bind_call_apply => lit "strictBindCallApply"
  | strict_builtin_iterator_return => lit "strictBuiltinIteratorReturn"
  | strict_property_initialization => lit "strictPropertyInitialization"
  | use_unknown_in_catch_variables => lit "useUnknownInCatchVariables"
  | no_implicit_returns => lit "noImplicitReturns"
  | no_fallthrough_cases_in_switch => lit "noFallthroughCasesInSwitch"
  | no_implicit_override => lit "noImplicitOverride" | declaration => lit "declaration" | composite => lit "composite"
  | isolated_declarations => lit "isolatedDeclarations" | isolated_modules => lit "isolatedModules"
  | verbatim_module_syntax => lit "verbatimModuleSyntax"
  | no_property_access_from_index_signature => lit "noPropertyAccessFromIndexSignature"
  | no_unchecked_indexed_access => lit "noUncheckedIndexedAccess"
  | no_unchecked_side_effect_imports => lit "noUncheckedSideEffectImports"
  | exact_optional_property_types => lit "exactOptionalPropertyTypes"
  | allow_importing_ts_extensions => lit "allowImportingTsExtensions"
  | rewrite_relative_import_extensions => lit "rewriteRelativeImportExtensions"
  | allow_arbitrary_extensions => lit "allowArbitraryExtensions"
  | experimental_decorators => lit "experimentalDecorators" | import_helpers => lit "importHelpers"
  | emit_decorator_metadata => lit "emitDecoratorMetadata" | no_unused_locals => lit "noUnusedLocals"
  | no_unused_parameters => lit "noUnusedParameters" | allow_unreachable_code => lit "allowUnreachableCode"
  | report_unreachable_code => lit "allowUnreachableCode"
  | use_define_for_class_fields => lit "useDefineForClassFields" | allow_js => lit "allowJs"
  | erasable_syntax_only => lit "erasableSyntaxOnly" | no_emit => lit "noEmit" | no_check => lit "noCheck"
  | no_resolve => lit "noResolve" | skip_lib_check => lit "skipLibCheck" | es_module_interop => lit "esModuleInterop"
  | allow_synthetic_default_imports => lit "allowSyntheticDefaultImports"
  | allow_umd_global_access => lit "allowUmdGlobalAccess" | no_lib => lit "noLib"
  | resolve_package_json_exports => lit "resolvePackageJsonExports"
  | resolve_package_json_imports => lit "resolvePackageJsonImports" | resolve_json_module => lit "resolveJsonModule"
  | lib_replacement => lit "libReplacement"
  end.
Definition jsx_name_key (n : JsxName) : str :=
  match n with
  | jsx_factory => lit "jsxFactory" | jsx_fragment_factory => lit "jsxFragmentFactory"
  | react_namespace => lit "reactNamespace" | jsx_import_source => lit "jsxImportSource"
  end.

Section spec.
Context (written : str -> option Value) (config_dir : str).

Definition written_flag (f : Flag) : option bool := written (flag_key f) ≫= as_bool.
Definition read {A} (key : str) (parse : Value -> str -> parsed A) (unwritten : A) : A :=
  match written key with Some value => fst (parse value config_dir) | None => unwritten end.

Definition target_by_key : ScriptTarget := read (lit "target") parse_target_option ES2024.
Definition emit_module_by_key : ModuleKind := read (lit "module") parse_module_option (target_module target_by_key).
Definition module_resolution_by_key : ModuleResolutionKind :=
  default (module_resolver emit_module_by_key) (read (lit "moduleResolution") parse_module_resolution_option None).

(** The value of a boolean option: the one written, or what it defaults to. *)
Definition flag_by_key (f : Flag) : bool :=
  match f with
  | no_implicit_any | no_implicit_this | strict_null_checks | strict_bind_call_apply | strict_builtin_iterator_return
  | strict_property_initialization | use_unknown_in_catch_variables =>
      default (default true (written_flag strict)) (written_flag f)
  | use_define_for_class_fields => default (target_ge target_by_key ES2022) (written_flag f)
  | resolve_json_module =>
      default (match emit_module_by_key, module_resolution_by_key with
               | ModuleNode20, _ | ModuleNodeNext, _ | _, Bundler => true
               | _, _ => false
               end) (written_flag f)
  | allow_synthetic_default_imports => default false (written_flag es_module_interop) || default false (written_flag f)
  | report_unreachable_code => match written_flag f with Some allow => negb allow | None => false end
  | f => default (default_flag f) (written_flag f)
  end.

Definition options_by_key : NormalizedCompilerOptions :=
  mkCompilerOptions flag_by_key
    (written (lit "allowUnusedLabels") ≫= as_bool)
    target_by_key
    (read (lit "module") parse_module_option ModulePreserve)
    emit_module_by_key module_resolution_by_key
    (read (lit "jsx") parse_jsx_option None)
    (fun n => written (jsx_name_key n) ≫= as_str)
    (written (lit "checkJs") ≫= as_bool)
    (default DetectAuto (read (lit "moduleDetection") parse_module_detection_option None))
    (read (lit "lib") parse_string_list_option [])
    (read (lit "paths") parse_paths_option [])
    (read (lit "baseUrl") parse_base_url_option None)
    (read (lit "typeRoots") parse_path_list_option [])
    (read (lit "types") (fun v d => let '(l, pushed) := parse_string_list_option v d in (Some l, pushed)) None)
    (read (lit "customConditions") parse_string_list_option []).
End spec.

(** Options are compared by their values at every name. *)
Definition same_options (o o' : NormalizedCompilerOptions) : Prop :=
  (forall f, flag o f = flag o' f) /\ (forall n, jsx_names o n = jsx_names o' n)
  /\ set_jsx_names (fun _ => None) (set_flag default_flag o) = set_jsx_names (fun _ => None) (set_flag default_flag o').

(** What an entry pushes, whatever was read before. *)
Definition entry_diagnostics (config_dir : str) (entry : str * Value) : list ConfigDiagnostic :=
  snd (apply_entry config_dir (start, []) entry).

(** ** Each arm has its own key *)

(** The slots the values of a flag and of a name come from. *)
Definition flag_slot (f : Flag) : Slot :=
  match f with
  | no_implicit_any | strict_property_initialization | use_unknown_in_catch_variables => Explicit f true
  | no_implicit_this | strict_null_checks | strict_bind_call_apply | strict_builtin_iterator_return
  | use_define_for_class_fields | resolve_json_module => Explicit f false
  | allow_unreachable_code | report_unreachable_code => UnreachableCode
  | f => Sets f
  end.

Lemma flag_arm f : slot_of (flag_key f) = Some (flag_slot f).
Proof. by destruct f. Qed.
Lemma jsx_name_arm n : slot_of (jsx_name_key n) = Some (Names n).
Proof. by destruct n. Qed.

Lemma slots_distinct : NoDup arms.*2.
Proof. apply (bool_decide_unpack _). vm_compute. exact I. Qed.

Lemma slot_key_unique key key' slot : slot_of key = Some slot -> slot_of key' = Some slot -> key = key'.
Proof.
  unfold slot_of. intros H%map_get_elem H'%map_get_elem. pose proof slots_distinct as Hnd.
  apply list_elem_of_lookup in H as [i Hi], H' as [j Hj].
  assert (i = j) as <-.
  { eapply NoDup_lookup; [exact Hnd| |]; rewrite list_lookup_fmap; [rewrite Hi|rewrite Hj]; done. }
  congruence.
Qed.

(** A slot that is a flag's is the slot of that flag. *)
Definition own_slot (slot : Slot) : bool :=
  match slot with Sets f => bool_decide (flag_slot f = slot) | Explicit f _ => bool_decide (flag_slot f = slot) | _ => true end.

Lemma arms_own key slot : slot_of key = Some slot -> own_slot slot = true.
Proof.
  intros H%map_get_elem. assert (forallb (fun e => own_slot (snd e)) arms = true) as Hall by (vm_compute; reflexivity).
  apply forallb_Forall in Hall. rewrite Forall_forall in Hall. exact (Hall _ H).
Qed.

(** The key of a slot. *)
Definition slot_key (slot : Slot) : str :=
  match slot with
  | Sets f | Explicit f _ => flag_key f
  | UnreachableCode => lit "allowUnreachableCode" | UnusedLabels => lit "allowUnusedLabels"
  | Target => lit "target" | EmittedModule => lit "module" | Resolution => lit "moduleResolution"
  | Jsx => lit "jsx" | Detection => lit "moduleDetection" | Names n => jsx_name_key n | CheckJs => lit "checkJs"
  | Paths => lit "paths" | BaseUrl => lit "baseUrl" | Lib => lit "lib" | TypeRoots => lit "typeRoots"
  | Types => lit "types" | CustomConditions => lit "customConditions"
  end.

Lemma slot_arm slot : own_slot slot = true -> slot_of (slot_key slot) = Some slot.
Proof.
  destruct slot as [f|f b| | | | | | | |n| | | | | | |]; cbn [own_slot slot_key]; intros H; try done.
  - apply bool_decide_eq_true in H. by rewrite flag_arm, H.
  - apply bool_decide_eq_true in H. by rewrite flag_arm, H.
  - apply jsx_name_arm.
Qed.

Lemma arm_key key slot : slot_of key = Some slot -> key = slot_key slot.
Proof. intros H. apply (slot_key_unique _ _ slot); [done|]. by eapply slot_arm, arms_own. Qed.

(** ** What was read so far *)

Section so_far.
Context (config_dir : str).

(** The part of the options a slot decides is what the entries say under its key. *)
Definition holds (slot : Slot) (w : str -> option Value) (p : Pending) : Prop :=
  let o := normalized p in
  match slot with
  | Sets f => flag o f = default (default_flag f) (written_flag w f)
  | Explicit f _ => explicit p f = written_flag w f
  | UnreachableCode =>
      flag o allow_unreachable_code = default false (written_flag w allow_unreachable_code)
      /\ flag o report_unreachable_code = match written_flag w allow_unreachable_code with Some b => negb b | None => false end
  | UnusedLabels => allow_unused_labels o = (w (lit "allowUnusedLabels") ≫= as_bool)
  | Target => target o = target_by_key w config_dir
  | EmittedModule =>
      module o = read w config_dir (lit "module") parse_module_option ModulePreserve
      /\ explicit_module p = option_map (fun v => fst (parse_module_option v config_dir)) (w (lit "module"))
  | Resolution => explicit_module_resolution p = read w config_dir (lit "moduleResolution") parse_module_resolution_option None
  | Jsx => jsx o = read w config_dir (lit "jsx") parse_jsx_option None
  | Detection =>
      module_detection o = default DetectAuto (read w config_dir (lit "moduleDetection") parse_module_detection_option None)
  | Names n => jsx_names o n = (w (jsx_name_key n) ≫= as_str)
  | CheckJs => check_js o = (w (lit "checkJs") ≫= as_bool)
  | Paths => paths o = read w config_dir (lit "paths") parse_paths_option []
  | BaseUrl => base_url o = read w config_dir (lit "baseUrl") parse_base_url_option None
  | Lib => lib o = read w config_dir (lit "lib") parse_string_list_option []
  | TypeRoots => type_roots o = read w config_dir (lit "typeRoots") parse_path_list_option []
  | Types =>
      types o = read w config_dir (lit "types") (fun v d => let '(l, pushed) := parse_string_list_option v d in (Some l, pushed)) None
  | CustomConditions => custom_conditions o = read w config_dir (lit "customConditions") parse_string_list_option []
  end.

Lemma holds_start slot : holds slot (fun _ => None) start.
Proof. by destruct slot. Qed.

(** It depends on what is written under that key only. *)
Lemma holds_written slot w w' p : w' (slot_key slot) = w (slot_key slot) -> holds slot w p -> holds slot w' p.
Proof.
  intros Hw. destruct slot; cbn [slot_key] in Hw; unfold holds, written_flag, target_by_key, read; try (by rewrite Hw).
  by change (flag_key allow_unreachable_code) with (lit "allowUnreachableCode"); rewrite Hw.
Qed.

Lemma parse_bool_value key value : fst (parse_bool_option key value config_dir) = as_bool value.
Proof. unfold parse_bool_option. by destruct (as_bool value). Qed.

Ltac read_it := unfold holds, written_flag, target_by_key, read; cbn [slot_key].

(** An arm does its own part, *)
Lemma arm_holds slot w value p :
  w (slot_key slot) = Some value -> holds slot (fun _ => None) p ->
  holds slot w (fst (apply_slot slot (slot_key slot) value config_dir p)).
Proof.
  intros Hw Hp. destruct slot as [f|f b| | | | | | | |n| | | | | | |]; revert Hw Hp; read_it; intros Hw Hp; cbn [apply_slot].
  - rewrite Hw. simpl. rewrite <- (parse_bool_value (flag_key f) value).
    destruct (parse_bool_option _ _ _) as [[b|] d]; simpl; [apply update_at|exact Hp].
  - rewrite Hw. simpl. rewrite <- (parse_bool_value (flag_key f) value).
    destruct (parse_bool_option _ _ _) as [[b'|] d], b; simpl; apply update_at.
  - change (flag_key allow_unreachable_code) with (lit "allowUnreachableCode"). rewrite Hw. simpl.
    rewrite <- (parse_bool_value (lit "allowUnreachableCode") value).
    destruct (parse_bool_option _ _ _) as [[b|] d]; simpl; [|exact Hp].
    by rewrite update_other, !update_at by done.
  - rewrite Hw. simpl. rewrite <- (parse_bool_value (lit "allowUnusedLabels") value).
    destruct (parse_bool_option _ _ _) as [[b|] d]; simpl; [done|exact Hp].
  - rewrite Hw. by destruct (parse_target_option _ _).
  - rewrite Hw. simpl. by destruct (parse_module_option _ _).
  - rewrite Hw. by destruct (parse_module_resolution_option _ _).
  - rewrite Hw. by destruct (parse_jsx_option _ _).
  - rewrite Hw. by destruct (parse_module_detection_option _ _) as [[k|] d].
  - rewrite Hw. simpl. unfold parse_jsx_name_option. destruct (as_str value); simpl; [apply update_at|exact Hp].
  - rewrite Hw. simpl. rewrite <- (parse_bool_value (lit "checkJs") value).
    by destruct (parse_bool_option _ _ _) as [[b|] d].
  - rewrite Hw. by destruct (parse_paths_option _ _).
  - rewrite Hw. by destruct (parse_base_url_option _ _).
  - rewrite Hw. by destruct (parse_string_list_option _ _).
  - rewrite Hw. by destruct (parse_path_list_option _ _).
  - rewrite Hw. by destruct (parse_string_list_option _ _).
  - rewrite Hw. by destruct (parse_string_list_option _ _).
Qed.

(** The fields a slot reads of the options; an arm leaves those of the others. *)
Definition same_part (slot : Slot) (p p' : Pending) : Prop :=
  let o := normalized p in
  let o' := normalized p' in
  match slot with
  | Sets f => flag o f = flag o' f
  | Explicit f _ => explicit p f = explicit p' f
  | UnreachableCode =>
      flag o allow_unreachable_code = flag o' allow_unreachable_code
      /\ flag o report_unreachable_code = flag o' report_unreachable_code
  | UnusedLabels => allow_unused_labels o = allow_unused_labels o'
  | Target => target o = target o'
  | EmittedModule => module o = module o' /\ explicit_module p = explicit_module p'
  | Resolution => explicit_module_resolution p = explicit_module_resolution p'
  | Jsx => jsx o = jsx o'
  | Detection => module_detection o = module_detection o'
  | Names n => jsx_names o n = jsx_names o' n
  | CheckJs => check_js o = check_js o'
  | Paths => paths o = paths o'
  | BaseUrl => base_url o = base_url o'
  | Lib => lib o = lib o'
  | TypeRoots => type_roots o = type_roots o'
  | Types => types o = types o'
  | CustomConditions => custom_conditions o = custom_conditions o'
  end.

Lemma same_part_refl slot p : same_part slot p p.
Proof. by destruct slot. Qed.

Lemma same_part_holds slot w p p' : same_part slot p p' -> holds slot w p -> holds slot w p'.
Proof. destruct slot; unfold same_part, holds; intros; destruct_and?; split_and?; congruence. Qed.

Lemma same_part_trans slot p p' p'' : same_part slot p p' -> same_part slot p' p'' -> same_part slot p p''.
Proof. destruct slot; unfold same_part; intros; destruct_and?; split_and?; congruence. Qed.

(** Setting a flag changes the part of the slot of that flag only. *)
Lemma set_flag_part slot f b p :
  own_slot slot = true -> flag_slot f <> slot -> same_part slot p (modify (set_flag_to f b) p).
Proof.
  intros Hown Hne. destruct slot as [f'|f' w| | | | | | | |n| | | | | | |]; try done; unfold same_part; simpl.
  - apply bool_decide_eq_true in Hown. rewrite update_other; [done|]. by intros ->.
  - rewrite !update_other; [done| |]; by intros <-.
Qed.

Lemma set_some_part slot f b p :
  own_slot slot = true -> flag_slot f <> slot -> same_part slot p (set_some (set_flag_to f) b p).
Proof. intros. destruct b; [by apply set_flag_part|apply same_part_refl]. Qed.

Lemma arm_part slot slot' value p :
  own_slot slot = true -> own_slot slot' = true -> slot <> slot' ->
  same_part slot p (fst (apply_slot slot' (slot_key slot') value config_dir p)).
Proof.
  intros Hown Hown' Hne.
  destruct slot' as [f|f b| | | | | | | |n| | | | | | |]; cbn [apply_slot slot_key];
    repeat match goal with |- context [let '(_, _) := ?parsed in _] => destruct parsed as [? ?] end; cbn [fst].
  - apply bool_decide_eq_true in Hown'. apply set_some_part; congruence.
  - apply bool_decide_eq_true in Hown'.
    apply (same_part_trans _ _ (mkPending (normalized p) (update (explicit p) f o) (explicit_module p)
                                  (explicit_module_resolution p))).
    { destruct slot as [f'|f' w| | | | | | | |n| | | | | | |]; try done; unfold same_part; simpl.
      rewrite update_other; [done|]. intros ->. apply bool_decide_eq_true in Hown. congruence. }
    destruct b; [apply set_some_part; congruence|apply same_part_refl].
  - destruct o as [allow|]; [|apply same_part_refl].
    change (set_some _ (Some allow) p)
      with (modify (set_flag_to report_unreachable_code (negb allow)) (modify (set_flag_to allow_unreachable_code allow) p)).
    apply (same_part_trans _ _ (modify (set_flag_to allow_unreachable_code allow) p));
      (apply set_flag_part; [done|cbn; congruence]).
  - by destruct slot.
  - by destruct slot.
  - by destruct slot.
  - by destruct slot.
  - by destruct slot.
  - destruct o; by destruct slot.
  - destruct o; [|by destruct slot]. destruct slot as [f|f b| | | | | | | |n'| | | | | | |]; try done.
    unfold same_part. simpl. rewrite update_other; [done|congruence].
  - destruct o; by destruct slot.
  - by destruct slot.
  - by destruct slot.
  - by destruct slot.
  - by destruct slot.
  - by destruct slot.
  - by destruct slot.
Qed.

(** ** The entries in turn *)

Lemma written_entry key (value : Value) options k :
  map_get key options = None ->
  map_get k (options ++ [(key, value)]) = if k =s key then Some value else map_get k options.
Proof.
  induction options as [|[k' v'] options IH]; simpl; [done|]. destruct (key =s k') eqn:E; [done|]. intros H.
  rewrite IH by done. destruct (k =s k') eqn:E1; [|done].
  apply str_eqb_spec in E1 as ->. destruct (k' =s key) eqn:E2; [|done].
  apply str_eqb_spec in E2 as ->. by rewrite str_eqb_refl in E.
Qed.

Lemma slot_pushes slot key value p p' : snd (apply_slot slot key value config_dir p) = snd (apply_slot slot key value config_dir p').
Proof. destruct slot; cbn [apply_slot]; by repeat match goal with |- context [let '(_, _) := ?parsed in _] => destruct parsed as [? ?] end. Qed.

Lemma apply_entry_pushes p diagnostics entry :
  snd (apply_entry config_dir (p, diagnostics) entry) = diagnostics ++ entry_diagnostics config_dir entry.
Proof.
  unfold entry_diagnostics, apply_entry. destruct entry as [key value]. destruct (slot_of key) as [slot|]; [|done].
  pose proof (slot_pushes slot key value p start) as H.
  destruct (apply_slot _ _ _ _ p), (apply_slot _ _ _ _ start); simpl in *; congruence.
Qed.

Definition so_far (options : list (str * Value)) (p : Pending) : Prop :=
  forall slot, own_slot slot = true -> holds slot (fun k => map_get k options) p.

Lemma so_far_entry options key value p diagnostics :
  map_get key options = None -> so_far options p ->
  so_far (options ++ [(key, value)]) (fst (apply_entry config_dir (p, diagnostics) (key, value))).
Proof.
  intros Hfresh Hp slot Hown. unfold apply_entry.
  pose proof (fun k => written_entry key value options k Hfresh) as Hw. specialize (Hp slot Hown).
  destruct (slot_of key) as [slot'|] eqn:Es.
  - pose proof (arm_key _ _ Es) as Hkey. pose proof (arms_own _ _ Es) as Hown'.
    destruct (decide (slot = slot')) as [<-|Hne].
    + pose proof (arm_holds slot (fun k => map_get k (options ++ [(key, value)])) value p) as H.
      rewrite <- Hkey in H. destruct (apply_slot _ _ _ _ _). apply H.
      * by rewrite Hw, str_eqb_refl.
      * eapply holds_written; [|exact Hp]. by rewrite <- Hkey.
    + pose proof (arm_part slot slot' value p Hown Hown' Hne) as H. rewrite <- Hkey in H.
      destruct (apply_slot _ _ _ _ _). apply (same_part_holds _ _ _ _ H). eapply holds_written; [|exact Hp].
      cbv beta. rewrite Hw. destruct (slot_key slot =s key) eqn:E; [|done]. apply str_eqb_spec in E.
      pose proof (slot_arm _ Hown) as Harm. congruence.
  - apply (holds_written _ _ _ _) with (2 := Hp). cbv beta. rewrite Hw.
    destruct (slot_key slot =s key) eqn:E; [|done]. apply str_eqb_spec in E. pose proof (slot_arm _ Hown). congruence.
Qed.
End so_far.

Lemma foldl_so_far config_dir options before p diagnostics :
  so_far config_dir before p -> NoDup (before ++ options).*1 ->
  let s := foldl (apply_entry config_dir) (p, diagnostics) options in
  so_far config_dir (before ++ options) (fst s) /\ snd s = diagnostics ++ concat (map (entry_diagnostics config_dir) options).
Proof.
  revert before p diagnostics. induction options as [|[key value] options IH]; intros before p diagnostics Hp Hnd; cbn [foldl map concat].
  - by rewrite !app_nil_r.
  - pose proof (apply_entry_pushes config_dir p diagnostics (key, value)) as Hd.
    pose proof (so_far_entry config_dir before key value p diagnostics) as Hs.
    destruct (apply_entry config_dir (p, diagnostics) (key, value)) as [p' diagnostics'] eqn:E. cbn [fst snd] in Hs, Hd. subst diagnostics'.
    rewrite (cons_middle (key, value) before options), (app_assoc before). rewrite (cons_middle (key, value)), app_assoc in Hnd.
    rewrite (app_assoc diagnostics). apply IH; [|done]. apply Hs; [|done].
    rewrite !fmap_app in Hnd. apply NoDup_app in Hnd as [Hnd _]. apply NoDup_app in Hnd as (_ & Hnd & _).
    destruct (map_get key before) as [v|] eqn:Ev; [|done]. apply map_get_elem in Ev.
    destruct (Hnd key); [|apply list_elem_of_here]. apply list_elem_of_fmap. by exists (key, v).
Qed.

(** What [finish] leaves of the fields other than the flags, *)
Definition settled_emit_module (p : Pending) : ModuleKind :=
  default (target_module (target (normalized p))) (explicit_module p).
Definition settled_resolution (p : Pending) : ModuleResolutionKind :=
  default (module_resolver (settled_emit_module p)) (explicit_module_resolution p).

Lemma finish_fields p :
  exists f, finish p =
    set_flag f (set_module_resolution (settled_resolution p) (set_emit_module (settled_emit_module p) (normalized p))).
Proof.
  assert (forall f fallback o, exists g, settle p f fallback o = set_flag g o) as Hs by (intros; by eexists).
  assert (forall f o, exists g, settle_synthetic (set_flag f o) = set_flag g o) as Hl.
  { intros f o. unfold settle_synthetic. destruct (flag _ _); by eexists. }
  unfold finish. cbv zeta.
  repeat match goal with
         | |- context [settle p ?f ?fallback ?o] =>
             lazymatch o with context [settle] => fail | _ => destruct (Hs f fallback o) as [? ->] end
         end.
  match goal with |- context [settle_synthetic (set_flag ?f ?o)] => destruct (Hl f o) as [g ->] end. by exists g.
Qed.

(** and of a flag. *)
Lemma settle_at p f fallback o : flag (settle p f fallback o) f = default (fallback o) (explicit p f).
Proof. apply update_at. Qed.
Lemma settle_other p f fallback o f' : f' <> f -> flag (settle p f fallback o) f' = flag o f'.
Proof. apply update_other. Qed.

Lemma settle_module_resolution_flag p o : flag (settle_module_resolution p o) = flag o.
Proof. done. Qed.
Lemma settle_emit_module_flag p o : flag (settle_emit_module p o) = flag o.
Proof. done. Qed.
Create Rewrite HintDb settle.
#[local] Hint Rewrite settle_at settle_module_resolution_flag settle_emit_module_flag : settle.
#[local] Hint Rewrite settle_other using done : settle.

Definition settled_flag (p : Pending) (f : Flag) : bool :=
  match f with
  | no_implicit_any | no_implicit_this | strict_null_checks | strict_bind_call_apply | strict_builtin_iterator_return
  | strict_property_initialization | use_unknown_in_catch_variables => default (flag (normalized p) strict) (explicit p f)
  | use_define_for_class_fields => default (target_ge (target (normalized p)) ES2022) (explicit p f)
  | resolve_json_module =>
      default (match settled_emit_module p, settled_resolution p with
               | ModuleNode20, _ | ModuleNodeNext, _ | _, Bundler => true
               | _, _ => false
               end) (explicit p f)
  | allow_synthetic_default_imports => flag (normalized p) es_module_interop || flag (normalized p) f
  | f => flag (normalized p) f
  end.

Lemma finish_flag p f : flag (finish p) f = settled_flag p f.
Proof.
  unfold finish, settle_synthetic. cbv zeta.
  match goal with |- flag (if flag ?o _ then _ else _) _ = _ => set (staged := o) end.
  assert (forall f', flag staged f' = if decide (f' = allow_synthetic_default_imports) then flag (normalized p) f' else settled_flag p f') as Hs.
  { intros f'. unfold staged, strictness. destruct f'; autorewrite with settle; try reflexivity. }
  rewrite Hs. rewrite decide_False by done. cbn [settled_flag].
  destruct (decide (f = allow_synthetic_default_imports)) as [->|Hne].
  - cbn [settled_flag]. destruct (flag (normalized p) es_module_interop); [apply update_at|]. by rewrite Hs, decide_True.
  - transitivity (flag staged f); [|by rewrite Hs, decide_False].
    destruct (flag (normalized p) es_module_interop); [by apply update_other|done].
Qed.

Lemma so_far_flag config_dir options p f :
  so_far config_dir options p ->
  match flag_slot f with
  | Explicit _ _ => explicit p f = written_flag (fun k => map_get k options) f
  | UnreachableCode => True
  | _ => flag (normalized p) f = default (default_flag f) (written_flag (fun k => map_get k options) f)
  end.
Proof.
  intros H. specialize (H (flag_slot f)).
  assert (own_slot (flag_slot f) = true) as Hown by (by destruct f). specialize (H Hown).
  by destruct f.
Qed.

Lemma finish_target config_dir options p :
  so_far config_dir options p ->
  let w := fun k => map_get k options in
  target (finish p) = target_by_key w config_dir
  /\ emit_module (finish p) = emit_module_by_key w config_dir
  /\ module_resolution (finish p) = module_resolution_by_key w config_dir.
Proof.
  intros Hp w. pose proof (Hp Target eq_refl) as Ht. pose proof (Hp EmittedModule eq_refl) as [_ Hm].
  pose proof (Hp Resolution eq_refl) as Hr. change (fun k => map_get k options) with w in Ht, Hm, Hr.
  unfold holds in Ht, Hr. change (map_get (lit "module") options) with (w (lit "module")) in Hm. clearbody w.
  assert (settled_emit_module p = emit_module_by_key w config_dir) as He.
  { unfold settled_emit_module. rewrite Ht, Hm. unfold emit_module_by_key, read. by destruct (w (lit "module")). }
  destruct (finish_fields p) as [f ->]. unfold settled_resolution. rewrite He, Hr. by rewrite <- Ht.
Qed.

(** Reading key by key: an unwritten or ill-typed option of the strict family
    follows [strict], and the emitted module, the resolver and
    [resolveJsonModule] follow the target and one another. *)
Lemma normalize_reads_keys config_dir options :
  NoDup options.*1 ->
  let '(normalized, diagnostics) := normalize_compiler_options (Some options) config_dir in
  same_options normalized (options_by_key (fun key => map_get key options) config_dir)
  /\ diagnostics = concat (map (entry_diagnostics config_dir) options).
Proof.
  intros Hnd. unfold normalize_compiler_options.
  pose proof (foldl_so_far config_dir options [] start [] (fun slot _ => holds_start config_dir slot) Hnd) as [Hp Hd].
  destruct (foldl (apply_entry config_dir) (start, []) options) as [p diagnostics]. cbn [fst snd app] in Hp, Hd.
  split; [|exact Hd]. pose proof (finish_target config_dir options p Hp) as (Ht & He & Hr).
  assert (settled_emit_module p = emit_module (finish p) /\ settled_resolution p = module_resolution (finish p)
          /\ target (normalized p) = target (finish p)) as (He' & Hr' & Ht') by (by destruct (finish_fields p) as [f ->]).
  split_and!.
  - intros f. rewrite finish_flag. pose proof (so_far_flag config_dir options p strict Hp) as Hs.
    pose proof (so_far_flag config_dir options p es_module_interop Hp) as Hi.
    pose proof (so_far_flag config_dir options p f Hp) as Hf. pose proof (Hp UnreachableCode eq_refl) as [Ha Hrep].
    cbn [flag_slot] in Hs, Hi. cbn [flag options_by_key]. destruct f; cbn [flag_slot default_flag settled_flag flag_by_key] in *;
      rewrite ?Hs, ?Hi, ?Hf, ?Ha, ?Hrep, ?He', ?Hr', ?Ht', ?Ht, ?He, ?Hr; done.
  - intros n. pose proof (Hp (Names n) eq_refl) as H. unfold holds in H. cbn [jsx_names options_by_key]. rewrite <- H.
    by destruct (finish_fields p) as [f ->].
  - unfold options_by_key. rewrite <- Ht, <- He, <- Hr. destruct (finish_fields p) as [f ->].
    unfold set_jsx_names, set_flag. f_equal; try done;
      first [exact (Hp UnusedLabels eq_refl)|exact (proj1 (Hp EmittedModule eq_refl))|exact (Hp Jsx eq_refl)
            |exact (Hp CheckJs eq_refl)|exact (Hp Detection eq_refl)|exact (Hp Lib eq_refl)|exact (Hp Paths eq_refl)
            |exact (Hp BaseUrl eq_refl)|exact (Hp TypeRoots eq_refl)|exact (Hp Types eq_refl)|exact (Hp CustomConditions eq_refl)].
Qed.

(** The defaults of [resolveJsonModule] follow the module too: with [node20] it
    is on under the resolver [node16]. And [esModuleInterop] overrides what is
    written of [allowSyntheticDefaultImports]. *)
Lemma node20_reads_json config_dir :
  let o := fst (normalize_compiler_options (Some [(lit "module", VString (lit "node20"))]) config_dir) in
  module_resolution o = Node16 /\ flag o resolve_json_module = true.
Proof. vm_compute. done. Qed.

Lemma interop_allows_synthetic config_dir :
  let o := fst (normalize_compiler_options
    (Some [(lit "esModuleInterop", VBool true); (lit "allowSyntheticDefaultImports", VBool false)]) config_dir) in
  flag o allow_synthetic_default_imports = true.
Proof. vm_compute. done. Qed.
