(* ===== verification/ConfigFiles.v ===== *)
(** * The files of a project ([surge-ts-config/src/files.rs])

    The files a configuration lists, or those a walk of its directories finds
    that its patterns include. Globs are the crate [globset]'s and the walk is
    [walkdir]'s: they are the classes [GlobLib] and [WalkDir]. *)

From S2P Require Import Prelude RustStr Json PathMapping UnixPath Probe ImportGraph TsConfig CompilerOptions Normalize Sorting PathComponents.

(** ** The libraries *)

Class GlobLib := {
  Glob : Type;
  GlobSet : Type;
  glob_new : str -> str + Glob;
  globset_build : list Glob -> str + GlobSet;
  set_matches : GlobSet -> str -> list nat;
  set_is_match : GlobSet -> str -> bool;
}.

(** What is documented of them: a set matches what its globs match. *)
Class GlobLibLaws (L : GlobLib) := {
  glob_match : Glob -> str -> bool;
  set_matches_spec globs set path i :
    globset_build globs = inr set ->
    i ∈ set_matches set path <-> exists glob, globs !! i = Some glob /\ glob_match glob path = true;
  set_is_match_spec globs set path :
    globset_build globs = inr set ->
    set_is_match set path = true <-> exists glob, glob ∈ globs /\ glob_match glob path = true;
}.

Record DirEntry := mkEntry { entry_path : str; entry_type : FileType; entry_file_name : str }.

(** [WalkDir::new(root).follow_links(false)] with [filter_entry(keep)]: the
    entries that could be read. *)
Class WalkDir := { walk : str -> (DirEntry -> bool) -> list DirEntry }.

Definition everything (W : WalkDir) (root : str) : list DirEntry := walk root (fun _ => true).

(** What the walk has above an entry, itself included. *)
Definition above (W : WalkDir) (root : str) (entry : DirEntry) : list DirEntry :=
  List.filter (fun a => path_starts_with (entry_path entry) (entry_path a)) (everything W root).

(** An entry that is not kept is not gone below. *)
Class WalkDirLaws (W : WalkDir) := {
  walk_filter root keep :
    walk root keep = List.filter (fun entry => forallb keep (above W root entry)) (everything W root);
  walk_names root entry :
    entry ∈ everything W root -> entry_file_name entry = default (entry_path entry) (file_name (entry_path entry));
}.

(** ** Patterns *)

(** [pattern.split(['/', '\\'])]. *)
Definition pattern_segments (pattern : str) : list str :=
  split_byte slash (map (fun b => if (b =? backslash)%Z then slash else b) pattern).

(** The folder of [escaping_depth]: the depth reached and how often it was left. *)
Definition escape_step (s : nat * nat) (segment : str) : nat * nat :=
  let '(depth, escaped) := s in
  if (segment =s []) || (segment =s lit ".") then (depth, escaped)
  else if segment =s lit ".." then match depth with O => (depth, S escaped) | S depth => (depth, escaped) end
  else (S depth, escaped).
Definition escaping_depth (pattern : str) : nat := snd (foldl escape_step (O, O) (pattern_segments pattern)).

Definition lexical_ancestor (root_dir : str) (depth : nat) : option (str * str) :=
  ancestor ← ancestors root_dir !! depth;
  below ← path_strip_prefix root_dir ancestor;
  Some (ancestor, join (lit "/") (map component_text (components below))).

Definition rebase_step (segments : list str) (segment : str) : list str :=
  if (segment =s []) || (segment =s lit ".") then segments
  else if segment =s lit ".." then
    match last segments with
    | Some name => if name =s lit ".." then segments ++ [lit ".."] else removelast segments
    | None => segments ++ [lit ".."]
    end
  else segments ++ [segment].
Definition rebase_pattern (prefix pattern : str) : str :=
  join (lit "/") (foldl rebase_step [] (split_byte slash prefix ++ pattern_segments pattern)).

Definition is_metacharacter (b : Z) : bool := contains_byte b (lit "*?[]{}").
Definition contains_glob_metacharacters (pattern : str) : bool := existsb is_metacharacter pattern.

(** [components().position(..)] or their number. *)
Fixpoint literal_depth {A} (text : A -> str) (parts : list A) : nat :=
  match parts with
  | [] => O
  | part :: parts => if contains_glob_metacharacters (text part) then O else S (literal_depth text parts)
  end.
Definition literal_component_depth (pattern : str) : nat := literal_depth component_text (components pattern).

Definition is_hidden (name : str) : bool := starts_with (lit ".") name.

Definition wildcard_segments_are_visible (relative : str) (literal_depth : nat) : bool :=
  forallb (fun c => negb (is_hidden (component_text c))) (drop literal_depth (components relative)).

Definition is_under_any_include_root (relative : str) (include_roots : list str) : bool :=
  existsb (fun root => path_starts_with relative root && wildcard_segments_are_visible relative (length (components root)))
    include_roots.

Definition is_supported_source_file (path : str) (allow_js : bool) : bool :=
  match extension path with
  | None => false
  | Some ext =>
      existsb (str_eqb ext) (map lit ["ts"; "tsx"; "mts"; "cts"]%string)
      || (allow_js && existsb (str_eqb ext) (map lit ["js"; "jsx"; "mjs"; "cjs"]%string))
  end.

(** The strings of a list of patterns. *)
Definition parse_pattern_list (values : list Value) (file_name : str) (c : ConfigDiagnosticCode) : parsed (list str) :=
  string_entries values (mkDiagnostic c (lit "pattern entries must be strings") file_name).

Section files.
Context `{Fs : HostFs} `{Globs : GlobLib} `{Walk : WalkDir}.

(** ** Where to walk *)

Definition literal_include_root (root_dir pattern : str) : option str :=
  if contains_glob_metacharacters pattern then None
  else
    let last_component := default [] (component_text <$> last (components pattern)) in
    if contains_byte full_stop last_component then None
    else
      let candidate := resolve_path root_dir pattern in
      if std_exists candidate && std_is_dir candidate then Some (default candidate (path_strip_prefix candidate root_dir))
      else None.
Definition collect_literal_include_roots (root_dir : str) (patterns : list str) : list str :=
  omap (literal_include_root root_dir) patterns.

Definition include_walk_root (base_dir pattern : str) : option str :=
  let segments := split_byte slash pattern in
  let literal := literal_depth id segments in
  let root := foldl path_join base_dir (take literal segments) in
  let root := if (literal =? length segments)%nat && negb (std_is_dir root) then default root (parent root) else root in
  if std_is_dir root then Some root else None.

(** The roots not below one kept before them. *)
Definition keep_outermost (outermost : list str) (root : str) : list str :=
  if existsb (path_starts_with root) outermost then outermost else outermost ++ [root].

Definition include_walk_roots (base_dir : str) (patterns : list str) : list str :=
  let roots := dedup path_eqb (stable_sort path_le (omap (include_walk_root base_dir) patterns)) in
  foldl keep_outermost [] roots.

(** ** The sets of globs *)

Definition glob_error (pattern error file_name : str) : ConfigDiagnostic :=
  invalid (lit "invalid glob " ++ quoted pattern ++ lit ": " ++ error) file_name.

(** The globs of the patterns that are well-formed, with those patterns. *)
Fixpoint accepted_globs (patterns : list str) (file_name : str) : parsed (list (Glob * str)) :=
  match patterns with
  | [] => ([], [])
  | pattern :: patterns =>
      let '(accepted, diagnostics) := accepted_globs patterns file_name in
      match glob_new pattern with
      | inr glob => ((glob, pattern) :: accepted, diagnostics)
      | inl error => (accepted, glob_error pattern error file_name :: diagnostics)
      end
  end.

Definition build_set (globs : list Glob) (file_name : str) : parsed (option GlobSet) :=
  match globset_build globs with
  | inr set => (Some set, [])
  | inl error => (None, [invalid (lit "failed to build globset: " ++ error) file_name])
  end.

Definition build_include_globset (patterns : list str) (file_name : str) : parsed (option GlobSet * list nat) :=
  let '(accepted, malformed) := accepted_globs patterns file_name in
  let '(set, failed) := build_set accepted.*1 file_name in
  ((set, match set with Some _ => map (fun a => literal_component_depth (snd a)) accepted | None => [] end), malformed ++ failed).

Definition build_globset (patterns : list str) (file_name : str) : parsed (option GlobSet) :=
  let '(accepted, malformed) := accepted_globs patterns file_name in
  let '(set, failed) := build_set accepted.*1 file_name in (set, malformed ++ failed).

(** ** The walk *)

Definition should_prune (path root_dir : str) (exclude_set : option GlobSet) : bool :=
  if path_eqb path root_dir then false
  else match path_strip_prefix path root_dir with
       | None => false
       | Some relative => match exclude_set with Some set => set_is_match set relative | None => false end
       end.

Definition is_unreachable_dot_directory (entry : DirEntry) (root_dir : str) (include_depths : list nat) (include_roots : list str)
    : bool :=
  match entry_type entry, path_strip_prefix (entry_path entry) root_dir with
  | Directory, Some relative =>
      match length (components relative) with
      | O => false
      | S literal_reach =>
          if negb (is_hidden (entry_file_name entry)) then false
          else negb (existsb (fun d => literal_reach <? d)%nat include_depths)
               && negb (existsb (fun root => literal_reach <? length (components root))%nat include_roots)
      end
  | _, _ => false
  end.

(** [matched.iter().any(..)], which indexes [include_depths]. *)
Fixpoint any_visible (relative : str) (include_depths : list nat) (matched : list nat) : result bool :=
  match matched with
  | [] => Ok false
  | index :: matched =>
      depth ← unwrap (include_depths !! index);
      if wildcard_segments_are_visible relative depth then Ok true else any_visible relative include_depths matched
  end.

Definition is_included (relative : str) (include_set : option GlobSet) (include_depths : list nat) (include_roots : list str)
    : result bool :=
  match include_set with
  | None => Ok true
  | Some set =>
      by_pattern ← any_visible relative include_depths (set_matches set relative);
      Ok (by_pattern || is_under_any_include_root relative include_roots)
  end.

(** The body of the loop over the entries: the file it pushes. *)
Definition source_file (base_dir : str) (include_set : option GlobSet) (include_depths : list nat) (include_roots : list str)
    (allow_js : bool) (entry : DirEntry) : result (option str) :=
  match entry_type entry, path_strip_prefix (entry_path entry) base_dir with
  | PlainFile, Some relative =>
      included ← is_included relative include_set include_depths include_roots;
      if negb included then Ok None
      else if is_supported_source_file (entry_path entry) allow_js then
        canonical ← canonicalize_if_exists (entry_path entry);
        Ok (Some canonical)
      else Ok None
  | _, _ => Ok None
  end.

Fixpoint source_files (f : DirEntry -> result (option str)) (entries : list DirEntry) : result (list str) :=
  match entries with
  | [] => Ok []
  | entry :: entries =>
      file ← f entry;
      files ← source_files f entries;
      Ok (option_list file ++ files)
  end.

(** ** The files of a configuration *)

(** The set [seen] is that of the results. *)
Fixpoint resolve_explicit_files (root_dir : str) (files : list Value) (allow_js : bool) (results : list str)
    : result (parsed (list str)) :=
  match files with
  | [] => Ok (results, [])
  | file :: files =>
      match as_str file with
      | None =>
          '(results, d) ← resolve_explicit_files root_dir files allow_js results;
          Ok (results, mkDiagnostic InvalidFilesEntry (lit "files entries must be strings") root_dir :: d)
      | Some raw =>
          let candidate := resolve_path root_dir raw in
          if negb (std_exists candidate) || negb (std_is_file candidate) then
            '(results, d) ← resolve_explicit_files root_dir files allow_js results;
            Ok (results, mkDiagnostic InvalidFilesEntry (lit "file " ++ quoted raw ++ lit " does not exist") root_dir :: d)
          else if negb (is_supported_source_file candidate allow_js) then resolve_explicit_files root_dir files allow_js results
          else
            candidate ← canonicalize_if_exists candidate;
            resolve_explicit_files root_dir files allow_js
              (if existsb (path_eqb candidate) results then results else results ++ [candidate])
      end
  end.

Definition default_excludes : list str :=
  map lit ["**/node_modules"; "**/node_modules/**"; "**/bower_components"; "**/bower_components/**";
           "**/jspm_packages"; "**/jspm_packages/**"]%string.

(** The base directory, the roots to walk and the patterns relative to it. *)
Definition walk_plan (root_dir : str) (include_patterns exclude_patterns : list str) : str * list str * list str * list str :=
  let escape_depth := foldr Nat.max O (map escaping_depth include_patterns) in
  match (if (0 <? escape_depth)%nat then lexical_ancestor root_dir escape_depth else None) with
  | Some (ancestor, prefix) =>
      let include_patterns := map (rebase_pattern prefix) include_patterns in
      (ancestor, include_walk_roots ancestor include_patterns, include_patterns, map (rebase_pattern prefix) exclude_patterns)
  | None => (root_dir, [root_dir], include_patterns, exclude_patterns)
  end.

Definition walk_files (base_dir : str) (walk_roots : list str) (keep : DirEntry -> bool) (f : DirEntry -> result (option str))
    : result (list str) :=
  found ← source_files f (concat (map (fun root => walk root keep) walk_roots));
  Ok (dedup path_eqb (stable_sort path_le found)).

Definition pattern_list (entries : option (list Value)) (unwritten : list str) (root_dir : str) (c : ConfigDiagnosticCode)
    : parsed (list str) :=
  match entries with Some entries => parse_pattern_list entries root_dir c | None => (unwritten, []) end.

Definition resolve_source_files (root_dir : str) (files include exclude : option (list Value))
    (options : NormalizedCompilerOptions) : result (parsed (list str)) :=
  let allow_js := flag options allow_js || match check_js options with Some true => true | _ => false end in
  match files with
  | Some files => resolve_explicit_files root_dir files allow_js []
  | None =>
      let '(include_patterns, d1) := pattern_list include [lit "**/*"] root_dir InvalidIncludeEntry in
      let '(user_exclude_patterns, d2) := pattern_list exclude [] root_dir InvalidExcludeEntry in
      let '(base_dir, walk_roots, include_patterns, user_exclude_patterns) :=
        walk_plan root_dir include_patterns user_exclude_patterns in
      let include_roots := collect_literal_include_roots base_dir include_patterns in
      let '((include_set, include_depths), d3) := build_include_globset include_patterns root_dir in
      let '(exclude_set, d4) := build_globset (default_excludes ++ user_exclude_patterns) root_dir in
      let keep entry :=
        negb (should_prune (entry_path entry) base_dir exclude_set)
        && negb (is_unreachable_dot_directory entry base_dir include_depths include_roots) in
      found ← walk_files base_dir walk_roots keep (source_file base_dir include_set include_depths include_roots allow_js);
      Ok (found, d1 ++ d2 ++ d3 ++ d4)
  end.
End files.
