(* ===== verification/FilesFound.v ===== *)
(** * The files a walk finds

    What [resolve_source_files] answers is read off the file system and the
    patterns: a supported file that no excluded directory is above and that a
    pattern includes. That hidden directories no pattern spells out are not
    entered changes nothing. *)

From Stdlib Require Import Sorted.
From S2P Require Import Prelude RustStr Json PathMapping UnixPath Probe ImportGraph GraphReach TsConfig CompilerOptions Normalize Sorting PathComponents ConfigFiles.

(** ** Hidden directories *)

(** The name of an entry is hidden when its last component is. *)
Lemma hidden_name p c cs :
  components p = cs ++ [c] -> is_hidden (default p (file_name p)) = true -> is_hidden (component_text c) = true.
Proof.
  intros E. rewrite file_name_component, E, last_snoc. destruct c; try done. simpl. intros H.
  assert (is_absolute p = false) as Ha.
  { apply starts_with_spec in H as [t ->]. done. }
  exfalso. revert E. unfold components, path_segments. rewrite Ha. cbn [negb app].
  assert (forall leading segments, RootDir ∉ body_components leading segments) as Hn.
  { intros leading segments. revert leading. induction segments as [|s rest IH]; intros leading; simpl; [by apply not_elem_of_nil|].
    rewrite elem_of_app. intros [Hs|Hs]; [|by apply IH in Hs]. revert Hs. unfold segment_component.
    destruct (s =s []); [by intros ?%elem_of_nil|]. destruct (s =s lit ".").
    - destruct leading; simpl; [by intros ?%list_elem_of_singleton|by intros ?%elem_of_nil].
    - by destruct (s =s lit ".."); intros ?%list_elem_of_singleton. }
  intros E. apply (Hn true (split_byte separator p)). rewrite E. apply elem_of_app. right. apply list_elem_of_here.
Qed.

(** A file below a hidden directory no pattern reaches is included by none. *)
Lemma hidden_invisible rel c rest before depth :
  components rel = before ++ c :: rest -> is_hidden (component_text c) = true -> depth <= length before ->
  wildcard_segments_are_visible rel depth = false.
Proof.
  intros E Hc Hd. unfold wildcard_segments_are_visible. rewrite E, drop_app_le by done.
  rewrite forallb_app. cbn [forallb]. by rewrite Hc, andb_false_r.
Qed.

Lemma reached_above_kept base depths roots a e rel :
  path_strip_prefix (entry_path e) base = Some rel -> path_starts_with (entry_path e) (entry_path a) = true ->
  entry_file_name a = default (entry_path a) (file_name (entry_path a)) ->
  existsb (wildcard_segments_are_visible rel) depths || is_under_any_include_root rel roots = true ->
  is_unreachable_dot_directory a base depths roots = false.
Proof.
  intros He Hpre Hname Hin. unfold is_unreachable_dot_directory. destruct (entry_type a); try done.
  destruct (path_strip_prefix (entry_path a) base) as [ra|] eqn:Ea; [|done].
  destruct (length (components ra)) as [|n] eqn:En; [done|].
  destruct (is_hidden (entry_file_name a)) eqn:Eh; [|done]. cbn [negb].
  apply path_strip_components in He, Ea. apply component_prefix_spec in Hpre as [rest Hpre].
  destruct (components ra) as [|c cs _] using rev_ind; [done|]. rewrite length_app in En. simpl in En.
  rewrite Ea, app_assoc in Hpre. rewrite Hname in Eh. rewrite app_assoc in Ea.
  pose proof (hidden_name _ _ _ Ea Eh) as Hc.
  rewrite He, <- !app_assoc in Hpre. apply app_inv_head in Hpre. cbn [app] in Hpre.
  destruct (existsb (fun d => n <? d)%nat depths) eqn:Ed; [done|].
  destruct (existsb (fun root => n <? length (components root))%nat roots) eqn:Er; [done|]. exfalso.
  apply orb_true_iff in Hin as [Hin|Hin]; apply existsb_exists in Hin as [x [Hx Hv]].
  - rewrite (hidden_invisible rel c rest cs) in Hv; [done|exact Hpre|exact Hc|].
    apply not_true_iff_false in Ed. destruct (Nat.le_gt_cases x (length cs)); [done|]. destruct Ed. apply existsb_exists.
    exists x. split; [done|]. apply Nat.ltb_lt. lia.
  - apply andb_true_iff in Hv as [_ Hv]. rewrite (hidden_invisible rel c rest cs) in Hv; [done|exact Hpre|exact Hc|].
    apply not_true_iff_false in Er. destruct (Nat.le_gt_cases (length (components x)) (length cs)); [done|]. destruct Er.
    apply existsb_exists. exists x. split; [done|]. apply Nat.ltb_lt. lia.
Qed.

(** ** The loop *)

Lemma lookup_map {A B} (f : A -> B) l i : map f l !! i = option_map f (l !! i).
Proof. apply list_lookup_fmap. Qed.

Lemma source_files_spec f entries :
  (forall e, f e <> OutOfFuel) ->
  ends (source_files f entries) (fun found =>
    (forall e, e ∈ entries -> exists o, f e = Ok o) /\ forall c, c ∈ found <-> exists e, e ∈ entries /\ f e = Ok (Some c)).
Proof.
  intros Hf. induction entries as [|e entries IH]; cbn [source_files].
  - split; [by intros ? ?%elem_of_nil|]. intros c. split; [by intros ?%elem_of_nil|]. by intros (? & ?%elem_of_nil & _).
  - specialize (Hf e). destruct (f e) as [o| |] eqn:E; [|done|done]. cbn [mbind result_bind].
    apply ends_bind. apply (ends_mono _ _ _ IH). intros found [Hall Hin]. split.
    + intros e' [->|He']%elem_of_cons; eauto.
    + intros c. rewrite elem_of_app, Hin. split.
      * intros [Hc|(e' & He' & Hfe')]; [|exists e'; split; [by apply list_elem_of_further|done]].
        exists e. split; [apply list_elem_of_here|]. destruct o; [|by apply elem_of_nil in Hc].
        apply list_elem_of_singleton in Hc as ->. done.
      * intros (e' & [->|He']%elem_of_cons & Hfe'); [left|right; eauto].
        rewrite E in Hfe'. injection Hfe' as ->. apply list_elem_of_here.
Qed.

(** The loop fails only where an entry does. *)
Lemma source_files_panic f entries : source_files f entries = Panic -> exists e, e ∈ entries /\ f e = Panic.
Proof.
  induction entries as [|e entries IH]; cbn [source_files]; [done|]. destruct (f e) as [o| |] eqn:E; cbn [mbind result_bind]; [|intros _; exists e; split; [apply list_elem_of_here|done]|done].
  destruct (source_files f entries) as [found| |]; cbn [mbind result_bind]; [done| |done]. intros _.
  destruct (IH eq_refl) as (e' & He' & Hf). exists e'. split; [by apply list_elem_of_further|done].
Qed.

Lemma any_visible_spec relative depths matched :
  (forall i, i ∈ matched -> exists d, depths !! i = Some d) ->
  exists b, any_visible relative depths matched = Ok b
  /\ (b = true <-> exists i d, i ∈ matched /\ depths !! i = Some d /\ wildcard_segments_are_visible relative d = true).
Proof.
  induction matched as [|i matched IH]; intros Hi; cbn [any_visible].
  - exists false. split; [done|]. split; [done|]. by intros (? & ? & ?%elem_of_nil & _).
  - destruct (Hi i) as [d Hd]; [apply list_elem_of_here|]. rewrite Hd. cbn [unwrap mbind result_bind].
    destruct (wildcard_segments_are_visible relative d) eqn:Ev.
    + exists true. split; [done|]. split; [|done]. intros _. exists i, d. split; [apply list_elem_of_here|done].
    + destruct IH as (b & -> & Hb); [intros j Hj; apply Hi; by apply list_elem_of_further|]. exists b. split; [done|].
      rewrite Hb. split.
      * intros (j & d' & Hj & H). exists j, d'. split; [by apply list_elem_of_further|done].
      * intros (j & d' & [->|Hj]%elem_of_cons & H & Hv); [congruence|eauto].
Qed.

Section found.
Context `{Fs : HostFs} `{Globs : GlobLib} {GlobLaws : GlobLibLaws Globs} `{Walk : WalkDir} {WalkLaws : WalkDirLaws Walk}.

Lemma accepted_globs_elem patterns file_name glob pattern :
  (glob, pattern) ∈ fst (accepted_globs patterns file_name) <-> pattern ∈ patterns /\ glob_new pattern = inr glob.
Proof.
  induction patterns as [|p patterns IH]; cbn [accepted_globs].
  - split; [by intros ?%elem_of_nil|by intros [?%elem_of_nil _]].
  - destruct (accepted_globs patterns file_name) as [accepted d]. cbn [fst] in IH.
    destruct (glob_new p) as [e|g] eqn:E; cbn [fst]; rewrite elem_of_cons.
    + rewrite IH. split; [by intros [? ?]; auto|]. intros [[->|?] ?]; [congruence|done].
    + rewrite elem_of_cons, IH. split.
      * intros [[= -> ->]|[? ?]]; auto.
      * intros [[->|?] Hgl]; [left; congruence|auto].
Qed.

(** A pattern includes a path: its glob matches it, and wildcards match no hidden
    component. *)
Definition matches_pattern (relative pattern : str) : Prop :=
  exists glob, glob_new pattern = inr glob /\ glob_match glob relative = true.
Definition includes (relative pattern : str) : Prop :=
  matches_pattern relative pattern /\ wildcard_segments_are_visible relative (literal_component_depth pattern) = true.

Lemma is_included_spec relative patterns file_name set roots :
  globset_build (fst (accepted_globs patterns file_name)).*1 = inr set ->
  let '((include_set, depths), _) := build_include_globset patterns file_name in
  include_set = Some set
  /\ exists b, is_included relative include_set depths roots = Ok b
     /\ (b = true <-> (exists pattern, pattern ∈ patterns /\ includes relative pattern)
                      \/ is_under_any_include_root relative roots = true)
     /\ (b = true -> existsb (wildcard_segments_are_visible relative) depths || is_under_any_include_root relative roots = true).
Proof.
  intros Hset. unfold build_include_globset, build_set. pose proof (accepted_globs_elem patterns file_name) as Hacc.
  destruct (accepted_globs patterns file_name) as [accepted d]. cbn [fst] in *. rewrite Hset. split; [done|].
  unfold is_included.
  destruct (any_visible_spec relative (map (fun a => literal_component_depth (snd a)) accepted) (set_matches set relative))
    as (b & -> & Hb).
  { intros i Hi%(set_matches_spec _ _ _ _ Hset). destruct Hi as (glob & Hg & _).
    rewrite list_lookup_fmap in Hg. destruct (accepted !! i) as [a|] eqn:Ea; [|done].
    exists (literal_component_depth (snd a)). by rewrite lookup_map, Ea. }
  exists (b || is_under_any_include_root relative roots). split; [done|]. split.
  - rewrite orb_true_iff, Hb. apply or_iff_compat_r. split.
    + intros (i & dep & Hi%(set_matches_spec _ _ _ _ Hset) & Hd & Hv). destruct Hi as (glob & Hg & Hm).
      rewrite list_lookup_fmap in Hg. rewrite lookup_map in Hd.
      destruct (accepted !! i) as [[g p]|] eqn:Ea; [|done]. simpl in Hg, Hd. simplify_eq.
      destruct (proj1 (Hacc glob p)) as [Hp Hn]; [by eapply list_elem_of_lookup_2|]. exists p.
      split; [done|]. split; [by exists glob|done].
    + intros (p & Hp & (glob & Hn & Hm) & Hv). pose proof (proj2 (Hacc glob p) (conj Hp Hn)) as [i Hi]%list_elem_of_lookup.
      exists i, (literal_component_depth p). split_and!; [|by rewrite lookup_map, Hi|done].
      apply (set_matches_spec _ _ _ _ Hset). exists glob. split; [by rewrite list_lookup_fmap, Hi|done].
  - intros [Ht|Ht]%orb_true_iff; [|by rewrite Ht, orb_true_r]. apply Hb in Ht as (i & dep & _ & Hd & Hv).
    apply orb_true_iff. left. apply existsb_exists. exists dep. split; [|done].
    apply list_elem_of_In. by eapply list_elem_of_lookup_2.
Qed.

(** ** What is found *)

(** An entry below an excluded one, or one itself. *)
Definition excluded (base_dir : str) (patterns : list str) (path : str) : Prop :=
  path_eqb path base_dir = false
  /\ exists relative pattern, path_strip_prefix path base_dir = Some relative /\ pattern ∈ patterns /\ matches_pattern relative pattern.

(** A supported file that a pattern or a directory of the configuration includes
    and that nothing excluded is above. *)
Definition selected (base_dir : str) (include_patterns exclude_patterns : list str) (allow_js : bool) (root : str) (entry : DirEntry)
    : Prop :=
  entry_type entry = PlainFile
  /\ is_supported_source_file (entry_path entry) allow_js = true
  /\ (forall a, a ∈ above Walk root entry -> ~ excluded base_dir exclude_patterns (entry_path a))
  /\ exists relative, path_strip_prefix (entry_path entry) base_dir = Some relative
     /\ ((exists pattern, pattern ∈ include_patterns /\ includes relative pattern)
         \/ is_under_any_include_root relative (collect_literal_include_roots base_dir include_patterns) = true).

Lemma should_prune_spec base_dir patterns file_name set path :
  globset_build (fst (accepted_globs patterns file_name)).*1 = inr set ->
  should_prune path base_dir (Some set) = true <-> excluded base_dir patterns path.
Proof.
  intros Hset. unfold should_prune, excluded. destruct (path_eqb path base_dir); [by split; [|intros []]|].
  destruct (path_strip_prefix path base_dir) as [relative|]; [|by split; [|intros [_ (? & ? & ? & _)]]].
  rewrite (set_is_match_spec _ _ _ Hset). split.
  - intros (glob & Hin & Hm). apply list_elem_of_fmap in Hin as ([g p] & -> & Hin). apply accepted_globs_elem in Hin as [Hp Hg].
    split; [done|]. exists relative, p. split_and!; [done|done|]. by exists g.
  - intros (_ & rel & p & [= <-] & Hp & glob & Hg & Hm). exists glob. split; [|done]. apply list_elem_of_fmap.
    exists (glob, p). split; [done|]. by apply accepted_globs_elem.
Qed.

Lemma above_entry root entry a :
  a ∈ above Walk root entry <-> a ∈ everything Walk root /\ path_starts_with (entry_path entry) (entry_path a) = true.
Proof. unfold above. by rewrite !list_elem_of_In, filter_In. Qed.

Lemma source_file_ends base_dir set depths roots allow_js entry :
  (forall relative, is_included relative set depths roots <> OutOfFuel) ->
  source_file base_dir set depths roots allow_js entry <> OutOfFuel.
Proof.
  intros H. unfold source_file. destruct (entry_type entry); try done. destruct (path_strip_prefix _ _) as [relative|]; [|done].
  specialize (H relative). destruct (is_included _ _ _ _) as [b| |]; [|done|done]. cbn [mbind result_bind]. destruct b; [|done].
  destruct (is_supported_source_file _ _); [|done]. pose proof (canonicalize_ends (entry_path entry)) as Hc.
  by destruct (canonicalize_if_exists (entry_path entry)).
Qed.

(** The files of [walk_files] are the sorted ones of the loop. *)
Lemma walk_files_spec base_dir walk_roots keep f :
  (forall e, f e <> OutOfFuel) ->
  ends (walk_files base_dir walk_roots keep f) (fun found =>
    StronglySorted (fun x y => path_le x y = true /\ path_eqb x y = false) found
    /\ (forall c, c ∈ found -> exists root e, root ∈ walk_roots /\ e ∈ walk root keep /\ f e = Ok (Some c))
    /\ forall root e, root ∈ walk_roots -> e ∈ walk root keep ->
         exists o, f e = Ok o /\ forall c, o = Some c -> exists c', c' ∈ found /\ path_eqb c' c = true).
Proof.
  intros Hf. unfold walk_files. apply ends_bind. apply (ends_mono _ _ _ (source_files_spec f _ Hf)).
  intros found [Hall Hin]. cbn [ends].
  assert (forall root e, root ∈ walk_roots -> e ∈ walk root keep -> e ∈ concat (map (fun root => walk root keep) walk_roots)) as Hcat.
  { intros root e Hr He. apply list_elem_of_In, in_concat. exists (walk root keep).
    split; [|by apply list_elem_of_In]. apply in_map_iff. exists root. split; [done|by apply list_elem_of_In]. }
  split_and!.
  - apply dedup_strict; eauto using path_le_trans, path_le_antisym, path_eqb_le, stable_sort_ascending, path_le_total.
    intros x y. rewrite !path_eqb_spec. congruence.
  - intros c Hc%dedup_incl. rewrite (stable_sort_perm path_le) in Hc. apply Hin in Hc as (e & He & Hfe).
    apply list_elem_of_In, in_concat in He as (l & Hl & He). apply in_map_iff in Hl as (root & <- & Hr).
    exists root, e. split_and!; [by apply list_elem_of_In|by apply list_elem_of_In|done].
  - intros root e Hr He. destruct (Hall e (Hcat _ _ Hr He)) as [o Ho]. exists o. split; [done|]. intros c ->.
    apply dedup_covers; [intros y; by apply path_eqb_spec|]. rewrite (stable_sort_perm path_le). apply Hin.
    exists e. split; [by eapply Hcat|done].
Qed.

(** The loop on the entries the walk yields, and on the selected ones. *)
Lemma source_file_selected root base_dir patterns excludes file_name set set' allow_js entry :
  globset_build (fst (accepted_globs patterns file_name)).*1 = inr set ->
  globset_build (fst (accepted_globs excludes file_name)).*1 = inr set' ->
  let '((include_set, depths), _) := build_include_globset patterns file_name in
  let roots := collect_literal_include_roots base_dir patterns in
  let keep entry := negb (should_prune (entry_path entry) base_dir (Some set'))
                    && negb (is_unreachable_dot_directory entry base_dir depths roots) in
  let f := source_file base_dir include_set depths roots allow_js in
  (entry ∈ walk root keep -> f entry <> Ok None ->
     entry ∈ everything Walk root /\ selected base_dir patterns excludes allow_js root entry
     /\ f entry = (canonical ← canonicalize_if_exists (entry_path entry); Ok (Some canonical)))
  /\ (entry ∈ everything Walk root -> selected base_dir patterns excludes allow_js root entry ->
      entry ∈ walk root keep
      /\ forall o, f entry = Ok o -> exists canonical, o = Some canonical /\ canonicalize_if_exists (entry_path entry) = Ok canonical).
Proof.
  intros Hset Hset'.
  pose proof (fun relative roots => is_included_spec relative patterns file_name set roots Hset) as Hinc.
  destruct (build_include_globset patterns file_name) as [[include_set depths] d]. intros roots keep f.
  assert (include_set = Some set) as -> by (by destruct (Hinc [] [])).
  assert (forall relative, exists b, is_included relative (Some set) depths roots = Ok b
     /\ (b = true <-> (exists pattern, pattern ∈ patterns /\ includes relative pattern)
                      \/ is_under_any_include_root relative roots = true)
     /\ (b = true -> existsb (wildcard_segments_are_visible relative) depths || is_under_any_include_root relative roots = true))
    as Hb by (intros relative; by destruct (Hinc relative roots)).
  clear Hinc. assert (entry ∈ walk root keep <-> entry ∈ everything Walk root /\ forallb keep (above Walk root entry) = true) as Hw
    by (by rewrite walk_filter, !list_elem_of_In, filter_In).
  subst f keep. unfold source_file, selected. split.
  - intros [Hin Hkeep]%Hw Hf. split; [done|].
    destruct (entry_type entry); try done. destruct (path_strip_prefix (entry_path entry) base_dir) as [relative|]; [|done].
    destruct (Hb relative) as (b & Eb & Hiff & _). rewrite Eb in Hf. cbn [mbind result_bind] in Hf.
    rewrite Eb. cbn [mbind result_bind]. destruct b; [|done]. cbn [negb] in Hf |- *.
    destruct (is_supported_source_file _ _); [|done]. split; [|done]. split_and!; try done.
    + intros a Ha Hex. apply (should_prune_spec _ _ _ _ _ Hset') in Hex. apply forallb_forall with (x := a) in Hkeep;
        [|by apply list_elem_of_In]. by rewrite Hex in Hkeep.
    + exists relative. split; [done|]. by apply Hiff.
  - intros Hin (Ht & Hs & Hex & relative & Hrel & Hincl). rewrite Ht, Hrel, Hs. cbv match.
    destruct (Hb relative) as (b & -> & Hiff & Hreach). apply Hiff in Hincl as ->. cbn [mbind result_bind negb]. split.
    + apply Hw. split; [done|]. apply forallb_forall. intros a Ha. apply list_elem_of_In in Ha.
      pose proof Ha as [Hall Hpre]%above_entry. apply andb_true_iff. split.
      * apply negb_true_iff, not_true_iff_false. rewrite (should_prune_spec _ _ _ _ _ Hset'). by apply Hex.
      * apply negb_true_iff. eapply reached_above_kept; [exact Hrel|exact Hpre|by eapply walk_names|by apply Hreach].
    + intros o. destruct (canonicalize_if_exists (entry_path entry)) as [c| |]; [|done|done]. intros [= <-]. by exists c.
Qed.

(** In order and each once, the canonical paths of the selected entries. *)
Definition found_exactly (base_dir : str) (walk_roots includes excludes : list str) (allow_js : bool) (found : list str) : Prop :=
  StronglySorted (fun x y => path_le x y = true /\ path_eqb x y = false) found
  /\ (forall canonical, canonical ∈ found ->
        exists root entry, root ∈ walk_roots /\ entry ∈ everything Walk root
        /\ selected base_dir includes excludes allow_js root entry
        /\ canonicalize_if_exists (entry_path entry) = Ok canonical)
  /\ (forall root entry, root ∈ walk_roots -> entry ∈ everything Walk root ->
        selected base_dir includes excludes allow_js root entry ->
        exists canonical found_as, canonicalize_if_exists (entry_path entry) = Ok canonical
        /\ found_as ∈ found /\ path_eqb found_as canonical = true).

(** C39 A configuration without [files], whose include patterns and whose exclude patterns each build a set of globs,
    gets, in order and each once, the canonical paths of exactly the selected files of the directories walked: supported
    files that a pattern or a bare directory of [include] reaches without a wildcard standing for a hidden component, and
    that are not, nor are below, anything excluded. So leaving out hidden directories no pattern spells out only saves
    work. The depths are never indexed outside their bounds: the one way to fail is a selected file whose canonical path
    has no normalization. *)
Theorem source_files_found root_dir include exclude options set set' :
  let include_patterns := fst (pattern_list include [lit "**/*"] root_dir InvalidIncludeEntry) in
  let exclude_patterns := fst (pattern_list exclude [] root_dir InvalidExcludeEntry) in
  let '(base_dir, walk_roots, includes, excludes) := walk_plan root_dir include_patterns exclude_patterns in
  let allow := flag options allow_js || match check_js options with Some true => true | _ => false end in
  globset_build (fst (accepted_globs includes root_dir)).*1 = inr set ->
  globset_build (fst (accepted_globs (default_excludes ++ excludes) root_dir)).*1 = inr set' ->
  (exists found diagnostics, resolve_source_files root_dir None include exclude options = Ok (found, diagnostics)
     /\ found_exactly base_dir walk_roots includes (default_excludes ++ excludes) allow found)
  \/ (resolve_source_files root_dir None include exclude options = Panic
     /\ exists root entry, root ∈ walk_roots /\ entry ∈ everything Walk root
        /\ selected base_dir includes (default_excludes ++ excludes) allow root entry
        /\ canonicalize_if_exists (entry_path entry) = Panic).
Proof.
  cbv zeta. unfold resolve_source_files.
  destruct (pattern_list include _ _ _) as [include_patterns d1]. destruct (pattern_list exclude _ _ _) as [exclude_patterns d2].
  cbn [fst]. destruct (walk_plan root_dir include_patterns exclude_patterns) as [[[base_dir walk_roots] includes] excludes].
  intros Hset Hset'. set (allow := flag options allow_js || _).
  pose proof (fun root entry => source_file_selected root base_dir includes (default_excludes ++ excludes) root_dir set set' allow entry
                Hset Hset') as Hsel.
  pose proof (fun relative roots => is_included_spec relative includes root_dir set roots Hset) as Hinc.
  destruct (build_include_globset includes root_dir) as [[include_set depths] d3].
  unfold build_globset, build_set. destruct (accepted_globs (default_excludes ++ excludes) root_dir) as [accepted d4].
  cbn [fst] in Hset'. rewrite Hset'. set (keep := fun entry => _ && _). set (f := source_file _ _ _ _ _).
  assert (forall e, f e <> OutOfFuel) as Hf.
  { intros e. apply source_file_ends. intros relative.
    destruct (Hinc relative (collect_literal_include_roots base_dir includes)) as (-> & b & Hb & _). by rewrite Hb. }
  pose proof (walk_files_spec base_dir walk_roots keep f Hf) as Hwalk.
  destruct (walk_files base_dir walk_roots keep f) as [found| |] eqn:Ew; [left|right|done].
  - destruct Hwalk as (Hsorted & Hfound & Hcover). eexists _, _. split; [reflexivity|]. split_and!; [exact Hsorted| |].
    + intros canonical Hc. destruct (Hfound canonical Hc) as (root & e & Hr & He & Hfe). exists root, e.
      destruct (Hsel root e) as [H _]. destruct (H He) as (? & ? & Efe); [fold f; by rewrite Hfe|]. fold f in Efe. rewrite Hfe in Efe.
      split_and!; try done. destruct (canonicalize_if_exists (entry_path e)); [|done..]. by injection Efe as ->.
    + intros root e Hr He Hse. destruct (Hsel root e) as [_ H]. destruct (H He Hse) as [Hw Ho].
      destruct (Hcover root e Hr Hw) as (o & Hfe & Hfa). destruct (Ho o Hfe) as (canonical & -> & Hcan).
      destruct (Hfa canonical eq_refl) as (c' & Hc' & Heq). by exists canonical, c'.
  - split; [reflexivity|]. unfold walk_files in Ew.
    destruct (source_files f _) as [found| |] eqn:Es; [done| |done]. apply source_files_panic in Es as (e & He & Hfe).
    apply list_elem_of_In, in_concat in He as (l & Hl & He). apply in_map_iff in Hl as (root & <- & Hr).
    exists root, e. destruct (Hsel root e) as [H _]. destruct (H (proj2 (list_elem_of_In _ _) He)) as (? & ? & Efe);
      [fold f; by rewrite Hfe|]. fold f in Efe. rewrite Hfe in Efe.
    split_and!; [by apply list_elem_of_In|done|done|]. by destruct (canonicalize_if_exists (entry_path e)).
Qed.
End found.

(** ** A project with a hidden and an excluded directory *)

Definition sample_match (glob path : str) : bool := (glob =s lit "**/*") || (glob =s lit "**/" ++ path).
Definition sample_matches (globs : list str) (path : str) : list nat :=
  List.filter (fun i => match globs !! i with Some glob => sample_match glob path | None => false end) (seq 0 (length globs)).
Definition sample_globs : GlobLib := {|
  Glob := str; GlobSet := list str; glob_new := inr; globset_build := inr; set_matches := sample_matches;
  set_is_match := fun globs path => existsb (fun glob => sample_match glob path) globs;
|}.

Lemma sample_matches_spec globs path i :
  i ∈ sample_matches globs path <-> exists glob, globs !! i = Some glob /\ sample_match glob path = true.
Proof.
  unfold sample_matches. rewrite list_elem_of_In, filter_In, in_seq. split.
  - intros [_ H]. destruct (globs !! i) as [glob|]; [by exists glob|done].
  - intros (glob & Hi & Hm). rewrite Hi. split; [|done]. pose proof (lookup_lt_Some _ _ _ Hi). lia.
Qed.

Lemma sample_globs_laws : GlobLibLaws sample_globs.
Proof.
  apply (Build_GlobLibLaws sample_globs sample_match).
  - intros globs set path i [= <-]. apply sample_matches_spec.
  - intros globs set path [= <-]. cbn [set_is_match sample_globs]. rewrite existsb_exists.
    split; intros (g & Hg & H); exists g; (split; [by apply (list_elem_of_In globs g)|exact H]).
Qed.

Definition sample_entries : list DirEntry :=
  map (fun '(p, t) => let p := lit p in mkEntry p t (default p (file_name p)))
    [("/p", Directory); ("/p/.git", Directory); ("/p/.git/b.ts", PlainFile); ("/p/a.ts", PlainFile);
     ("/p/node_modules", Directory); ("/p/node_modules/c.ts", PlainFile); ("/p/readme", PlainFile)]%string.
Definition sample_walk : WalkDir := {|
  walk := fun _ keep =>
    List.filter (fun e => forallb keep (List.filter (fun a => path_starts_with (entry_path e) (entry_path a)) sample_entries))
      sample_entries
|}.

Lemma sample_walk_laws : WalkDirLaws sample_walk.
Proof.
  assert (forall root, everything sample_walk root = sample_entries) as He.
  { intros root. unfold everything. cbn [walk sample_walk]. apply List.forallb_filter_id. apply forallb_forall. intros e _.
    by apply forallb_forall. }
  constructor.
  - intros root keep. unfold above. by rewrite !He.
  - intros root entry. rewrite He. intros H. assert (Forall (fun e => entry_file_name e = default (entry_path e) (file_name (entry_path e)))
      sample_entries) as Hall by (repeat (constructor; [reflexivity|]); constructor).
    rewrite Forall_forall in Hall. by apply Hall.
Qed.

Lemma source_files_found_witness :
  @resolve_source_files sample_fs sample_globs sample_walk (lit "/p") None None None default_options = Ok ([lit "/p/a.ts"], [])
  /\ @found_exactly sample_fs sample_globs sample_globs_laws sample_walk (lit "/p") [lit "/p"] [lit "**/*"] default_excludes false
       [lit "/p/a.ts"].
Proof.
  assert (@resolve_source_files sample_fs sample_globs sample_walk (lit "/p") None None None default_options
          = Ok ([lit "/p/a.ts"], [])) as E by (vm_compute; reflexivity).
  split; [exact E|].
  pose proof (@source_files_found sample_fs sample_globs sample_globs_laws sample_walk sample_walk_laws (lit "/p") None None
                default_options [lit "**/*"] default_excludes eq_refl eq_refl) as H.
  rewrite E in H. destruct H as [(found & ds & [= <- <-] & H)|[? _]]; [exact H|discriminate].
Defined.
