(* ===== verification/Rebase.v ===== *)
(** * Includes that leave the directory of the configuration

    When an include climbs, the patterns are rewritten below the ancestor it
    climbs to: a rewritten pattern without a root names the same place, and no
    include climbs any more. A pattern with a root is misplaced. *)

From S2P Require Import Prelude RustStr PathMapping UnixPath Probe TsConfig Normalize PathComponents ConfigFiles.

Definition plain_name (s : str) : Prop := s <> [] /\ s <> lit "." /\ s <> lit "..".

(** ** One segment *)

Lemma unequal (a b : str) : a <> b -> (a =s b) = false.
Proof. intros. by apply bool_decide_eq_false. Qed.

Lemma rebase_name l s : plain_name s -> rebase_step l s = l ++ [s].
Proof. intros (H1 & H2 & H3). unfold rebase_step. by rewrite !unequal. Qed.
Lemma rebase_parent l s : plain_name s -> rebase_step (l ++ [s]) (lit "..") = l.
Proof. intros (_ & _ & H). unfold rebase_step. cbn -[lit str_eqb]. rewrite last_snoc, (unequal s) by done. apply removelast_last. Qed.

(** A segment is none, a parent or a name. *)
Lemma segment_cases s :
  (forall l, rebase_step l s = l) /\ (forall d, escape_step d s = d)
  \/ s = lit ".."
  \/ plain_name s /\ forall d e, escape_step (d, e) s = (S d, e).
Proof.
  unfold rebase_step, escape_step, plain_name. destruct (s =s []) eqn:E1; [left; by split; [|intros []]|].
  destruct (s =s lit ".") eqn:E2; [left; by split; [|intros []]|].
  destruct (s =s lit "..") eqn:E3; [right; left; by apply str_eqb_spec|].
  right; right. split; [|done]. split_and!; intros ->; by rewrite str_eqb_refl in *.
Qed.

(** ** Climbing *)

(** The segments below [names] after some of a pattern: what it left of the names
    or the parents it went beyond them, and its own. *)
Definition climbed (names : list str) (escaped : nat) : list str :=
  repeat (lit "..") (escaped - length names) ++ take (length names - escaped) names.

Lemma climbed_parent names escaped :
  Forall plain_name names -> rebase_step (climbed names escaped) (lit "..") = climbed names (S escaped).
Proof.
  intros Hn. unfold climbed. destruct (Nat.le_gt_cases (length names) escaped) as [Hle|Hlt].
  - replace (length names - escaped) with 0 by lia. replace (length names - S escaped) with 0 by lia.
    rewrite !take_0, !app_nil_r. replace (S escaped - length names) with (S (escaped - length names)) by lia.
    assert (repeat (lit "..") (S (escaped - length names)) = repeat (lit "..") (escaped - length names) ++ [lit ".."]) as ->.
    { by rewrite <- repeat_cons. }
    unfold rebase_step. cbn -[lit str_eqb repeat]. destruct (last (repeat (lit "..") (escaped - length names))) as [s|] eqn:E; [|done].
    apply last_Some in E as [l E]. assert (s ∈ repeat (lit "..") (escaped - length names)) as H.
    { rewrite E. apply elem_of_app. right. apply list_elem_of_here. }
    apply list_elem_of_In, repeat_spec in H as ->. done.
  - replace (escaped - length names) with 0 by lia. replace (S escaped - length names) with 0 by lia. cbn [repeat app].
    replace (length names - escaped) with (S (length names - S escaped)) by lia.
    destruct (lookup_lt_is_Some_2 names (length names - S escaped)) as [s Hs]; [lia|].
    rewrite (take_S_r _ _ _ Hs). apply rebase_parent. rewrite Forall_forall in Hn. apply Hn. by eapply list_elem_of_lookup_2.
Qed.

Lemma fold_climb segments depth escaped own :
  Forall plain_name own -> length own = depth ->
  let '(depth', escaped') := foldl escape_step (depth, escaped) segments in
  exists own', Forall plain_name own' /\ length own' = depth'
  /\ forall names, Forall plain_name names ->
       foldl rebase_step (climbed names escaped ++ own) segments = climbed names escaped' ++ own'.
Proof.
  revert depth escaped own. induction segments as [|s segments IH]; intros depth escaped own Hown Hd; cbn [foldl].
  - by exists own.
  - destruct (segment_cases s) as [[Hr He]|[->|[Hs He]]].
    + rewrite He. specialize (IH depth escaped own Hown Hd). destruct (foldl escape_step _ _) as [d' e'].
      destruct IH as (own' & ? & ? & H). exists own'. split_and!; [done|done|]. intros names Hn. rewrite Hr. by apply H.
    + destruct own as [|x own _] using rev_ind; subst depth; rewrite ?length_app.
      * specialize (IH O (S escaped) [] Hown eq_refl). change (escape_step (length [], escaped) (lit "..")) with (O, S escaped).
        destruct (foldl escape_step _ _) as [d' e']. destruct IH as (own' & ? & ? & H). exists own'. split_and!; [done|done|].
        intros names Hn. specialize (H names Hn). rewrite app_nil_r in H |- *. by rewrite climbed_parent.
      * apply Forall_app in Hown as [Hown [Hx _]%Forall_cons]. specialize (IH (length own) escaped own Hown eq_refl).
        rewrite Nat.add_comm. change (escape_step (length [x] + length own, escaped) (lit "..")) with (length own, escaped).
        destruct (foldl escape_step _ _) as [d' e']. destruct IH as (own' & ? & ? & H). exists own'. split_and!; [done|done|].
        intros names Hn. rewrite app_assoc, rebase_parent by done. by apply H.
    + rewrite He. specialize (IH (S depth) escaped (own ++ [s])). destruct (foldl escape_step _ _) as [d' e'].
      destruct IH as (own' & ? & ? & H).
      { apply Forall_app. split; [done|by apply Forall_singleton]. }
      { rewrite length_app. simpl. lia. }
      exists own'. split_and!; [done|done|]. intros names Hn. rewrite rebase_name, <- app_assoc by done. by apply H.
Qed.

Lemma fold_names names l : Forall plain_name names -> foldl rebase_step l names = l ++ names.
Proof.
  revert l. induction names as [|s names IH]; intros l; simpl; [by rewrite app_nil_r|].
  intros [Hs Hn]%Forall_cons. rewrite rebase_name, IH, <- app_assoc by done. done.
Qed.

(** What rebasing makes of a pattern: what it leaves of the names, and its own. *)
Lemma rebase_spec pattern :
  exists own, Forall plain_name own
  /\ forall names, Forall plain_name names -> Forall (fun s => contains_byte slash s = false) names ->
       rebase_pattern (join [slash] names) pattern = join [slash] (climbed names (escaping_depth pattern) ++ own).
Proof.
  unfold escaping_depth, rebase_pattern.
  pose proof (fold_climb (pattern_segments pattern) O O [] (Forall_nil_2 _) eq_refl) as H.
  destruct (foldl escape_step (O, O) (pattern_segments pattern)) as [depth escaped]. destruct H as (own & Hown & _ & H).
  exists own. split; [done|]. cbn [snd].
  intros names Hn Hs. rewrite foldl_app. specialize (H names Hn). unfold climbed at 1 in H.
  rewrite Nat.sub_0_l, Nat.sub_0_r, firstn_all, app_nil_r in H. cbn [repeat app] in H.
  assert (foldl rebase_step [] (split_byte slash (join [slash] names)) = names) as ->; [|by rewrite H].
  destruct names as [|s names]; [done|]. rewrite split_byte_join by done. by rewrite fold_names.
Qed.

(** ** The place a pattern names *)

(** The loop is that of [normalize_path_string] on a path without a root. *)
Lemma rebase_push l s : rebase_step l s = push_segment false l s.
Proof.
  unfold rebase_step, push_segment. destruct ((s =s []) || (s =s lit ".")); [done|].
  destruct (s =s lit "..") eqn:E; [|done]. apply str_eqb_spec in E as ->.
  destruct l as [|x l _] using rev_ind; [done|]. rewrite last_snoc. destruct (x =s lit ".."); [done|].
  by rewrite removelast_last, length_app, Nat.add_sub, take_app_length.
Qed.

Lemma pattern_segments_unified pattern : pattern_segments pattern = split_byte slash (unified pattern).
Proof.
  unfold pattern_segments. f_equal. induction pattern as [|b pattern IH]; [done|]. cbn [map]. rewrite unified_cons, IH.
  by rewrite (Z.eqb_sym b).
Qed.

(** Stepping through the pieces is stepping through what the loop makes of them. *)
Lemma step_pieces base pieces :
  Forall (fun s => contains_byte slash s = false) pieces ->
  canonical false (foldl rebase_step [] pieces)
  /\ fold_left step pieces base = fold_left step (foldl rebase_step [] pieces) base.
Proof.
  intros Hf. assert (canonical false []) as H by (by exists 0, []).
  change base with (fold_left step [] base) at 1. revert H. generalize (@nil str).
  induction Hf as [|s pieces Hs Hf IH]; intros acc Hacc; simpl; [done|].
  rewrite (step_push false) by done. rewrite rebase_push. apply IH. by apply push_canonical.
Qed.

Lemma place_join base segments : canonical false segments -> place base (join [slash] segments) = fold_left step segments base.
Proof.
  intros H%canonical_segment. unfold place. rewrite starts_with_join by done.
  destruct (decide (segments = [])) as [->|Hne]; [done|]. rewrite split_byte_join; [done|done|].
  eapply Forall_impl; [exact H|]. by intros s [_ ?].
Qed.

Lemma step_names names base : Forall plain_name names -> fold_left step names base = base ++ names.
Proof.
  intros Hn. revert base. induction Hn as [|s names (H1 & H2 & H3) Hn IH]; intros base; simpl; [by rewrite app_nil_r|].
  rewrite IH. unfold step. rewrite !decide_False by tauto. by rewrite <- app_assoc.
Qed.

(** From the ancestor, a rewritten pattern names what its segments lead to from
    the directory of the configuration, whether the pattern has a root or not. *)
Lemma rebased_place kept gone pattern :
  Forall (fun s => plain_name s /\ contains_byte slash s = false) gone ->
  place kept (rebase_pattern (join [slash] gone) pattern) = fold_left step (split_byte slash (unified pattern)) (kept ++ gone).
Proof.
  intros Hg. unfold rebase_pattern. rewrite pattern_segments_unified.
  destruct (step_pieces kept (split_byte slash (join [slash] gone) ++ split_byte slash (unified pattern))) as [Hc Hs].
  { apply Forall_app. split; apply split_byte_pieces. }
  rewrite place_join, <- Hs by done. rewrite fold_left_app. f_equal.
  assert (Forall plain_name gone) as Hn by (eapply Forall_impl; [exact Hg|]; by intros ? []).
  destruct gone as [|s gone]; [simpl; by rewrite app_nil_r|]. rewrite split_byte_join; [by apply step_names|done|].
  eapply Forall_impl; [exact Hg|]. by intros ? [].
Qed.

(** A pattern without a root, whichever slashes it is written with. *)
Definition rootless (pattern : str) : Prop := starts_with [slash] (unified pattern) = false.

(** The rewriting reads a pattern with a root as one without, so that an
    absolute include no longer names its place once another include climbs. *)
Lemma absolute_include_misplaced prefix pattern : rebase_pattern prefix (slash :: pattern) = rebase_pattern prefix pattern.
Proof.
  unfold rebase_pattern. rewrite !pattern_segments_unified, unified_cons. change (backslash =? slash)%Z with false. cbn iota.
  change (split_byte slash (slash :: ?t)) with ([] :: split_byte slash t). by rewrite !foldl_app.
Qed.

Example absolute_include_lost :
  rebase_pattern (lit "app") (lit "/repo/app/src") = lit "app/repo/app/src"
  /\ place [lit "repo"; lit "app"] (lit "/repo/app/src") = [lit "repo"; lit "app"; lit "src"]
  /\ place [lit "repo"] (lit "app/repo/app/src") = [lit "repo"; lit "app"; lit "repo"; lit "app"; lit "src"].
Proof. vm_compute. done. Qed.

(** ** Ancestors *)

Lemma body_app leading a b :
  body_components leading (a ++ b) = body_components leading a ++ body_components (leading && match a with [] => true | _ => false end) b.
Proof.
  revert leading. induction a as [|s a IH]; intros leading; cbn [app body_components].
  - by rewrite andb_true_r.
  - by rewrite IH, andb_false_r, app_assoc.
Qed.

Lemma trim_right_snoc leading segments init z :
  trim_right leading segments = init ++ [z] -> exists c, segment_component (leading && match init with [] => true | _ => false end) z = Some c.
Proof.
  revert leading init. induction segments as [|s rest IH]; intros leading init; cbn [trim_right]; [by destruct init|].
  specialize (IH false). destruct (trim_right false rest) as [|s' rest'].
  - destruct ((s =s []) || negb leading && (s =s lit ".")) eqn:E; [by destruct init|]. apply orb_false_iff in E as [E1 E2].
    destruct init as [|x init]; [|by destruct init]. intros [= ->]. unfold segment_component. rewrite E1.
    destruct (z =s lit "."); [destruct leading; [by eexists|done]|]. destruct (z =s lit ".."); by eexists.
  - destruct init as [|x init]; [done|]. intros [= _ H]. rewrite andb_false_r. by destruct (IH init H) as [c Hc]; exists c.
Qed.

Lemma parent_components p :
  match parent p with
  | Some q => exists c, c <> RootDir /\ components p = components q ++ [c]
  | None => components p = [] \/ components p = [RootDir]
  end.
Proof.
  unfold parent, trimmed. pose proof (path_segments_free p) as Hf. unfold components at 1 3 4.
  destruct (path_segments p) as [absolute segments] eqn:Ep. cbn [snd] in Hf. rewrite <- (body_trim_right _ segments).
  assert (Forall (fun s => contains_byte separator s = false) (trim_right (negb absolute) segments)) as Hft.
  { rewrite Forall_forall in *. intros s H%trim_right_incl. auto. }
  assert (absolute = false -> head (trim_right (negb absolute) segments) <> Some []) as Hhead.
  { intros ->. intros H. pose proof (trim_right_first _ _ _ H) as Hh. destruct segments as [|s rest]; [done|].
    injection Hh as ->. by pose proof (relative_head _ _ _ Ep eq_refl) as ->. }
  pose proof (trim_right_snoc (negb absolute) segments) as Hlast.
  destruct (trim_right (negb absolute) segments) as [|z init _] using rev_ind; [destruct absolute; [by right|by left]|].
  destruct (Hlast init z eq_refl) as [c Hc]. rewrite removelast_last, body_app. cbn [body_components]. rewrite Hc.
  assert (components (from_segments absolute (trim_right (negb absolute) init))
          = (if absolute then [RootDir] else []) ++ body_components (negb absolute) init) as Hq.
  { apply Forall_app in Hft as [Hft _]. unfold components. rewrite path_segments_join.
    - f_equal. rewrite <- (body_trim_right _ init). by destruct (trim_right _ init), absolute.
    - rewrite Forall_forall in *. intros s H%trim_right_incl. auto.
    - intros Ha H%trim_right_first. apply (Hhead Ha). by destruct init. }
  destruct (init ++ [z]) as [|y l] eqn:E; [by destruct init|]. exists c. split; [|by rewrite Hq, <- app_assoc].
  intros ->. revert Hc. unfold segment_component. by repeat case_match.
Qed.

Lemma ancestors_lookup fuel p cs ds :
  length p <= fuel -> components p = cs ++ ds -> RootDir ∉ ds ->
  exists q, ancestors_fuel fuel p !! length ds = Some q /\ components q = cs.
Proof.
  revert fuel p. induction ds as [|c ds IH] using rev_ind; intros fuel p Hfuel Hp Hroot.
  - exists p. rewrite app_nil_r in Hp. by destruct fuel.
  - pose proof (parent_components p) as Hpar. destruct (parent p) as [q|] eqn:Eq.
    + destruct Hpar as (c' & _ & Hq). rewrite Hp, app_assoc in Hq. apply app_inj_tail in Hq as [Hq _].
      pose proof (parent_length _ _ Eq). destruct fuel as [|fuel]; [lia|]. cbn [ancestors_fuel]. rewrite Eq.
      rewrite length_app. cbn [length]. rewrite Nat.add_1_r. cbn [lookup list_lookup]. apply IH; [lia|done|].
      intros Hin. apply Hroot, elem_of_app. by left.
    + exfalso. rewrite Hp, app_assoc in Hpar. destruct Hpar as [H|H].
      * by destruct (cs ++ ds).
      * apply (app_inj_tail _ []) in H as [_ ->]. apply Hroot, elem_of_app. right. apply list_elem_of_here.
Qed.

(** There is no ancestor above the root. *)
Lemma ancestors_above fuel p n q :
  ancestors_fuel fuel p !! n = Some q -> exists ds, components p = components q ++ ds /\ length ds = n /\ RootDir ∉ ds.
Proof.
  revert p n. induction fuel as [|fuel IH]; intros p [|n]; cbn [ancestors_fuel lookup list_lookup].
  1, 3: intros [= ->]; exists []; rewrite app_nil_r; split_and!; [done..|apply not_elem_of_nil].
  - done.
  - pose proof (parent_components p) as Hpar. destruct (parent p) as [r|]; [|done]. destruct Hpar as (c & Hc & ->).
    intros (ds & -> & <- & Hr)%IH. exists (ds ++ [c]). rewrite length_app, app_assoc. cbn [length].
    split_and!; [done|lia|]. rewrite elem_of_app, list_elem_of_singleton. intros [?|?]; [done|congruence].
Qed.

Lemma no_ancestor root_dir names depth :
  components root_dir = RootDir :: map Normal names -> length names < depth -> lexical_ancestor root_dir depth = None.
Proof.
  intros Hroot Hd. unfold lexical_ancestor, ancestors.
  destruct (ancestors_fuel (length root_dir) root_dir !! depth) as [q|] eqn:E; [|done]. exfalso.
  apply ancestors_above in E as (ds & Hc & Hl & Hr). rewrite Hroot in Hc.
  destruct (components q) as [|c cs].
  - apply Hr. cbn [app] in Hc. rewrite <- Hc. apply list_elem_of_here.
  - apply (f_equal length) in Hc. rewrite length_cons, length_map, length_app, length_cons in Hc. lia.
Qed.

Lemma component_names p name : Normal name ∈ components p -> plain_name name /\ contains_byte slash name = false.
Proof.
  unfold components. pose proof (path_segments_free p) as Hf. destruct (path_segments p) as [absolute segments]. cbn [snd] in Hf.
  rewrite elem_of_app. intros [H|H]; [destruct absolute; [by apply list_elem_of_singleton in H|by apply elem_of_nil in H]|].
  revert H. generalize (negb absolute). induction segments as [|s rest IH]; intros leading; cbn [body_components];
    [by intros ?%elem_of_nil|].
  apply Forall_cons in Hf as [Hs Hf]. rewrite elem_of_app. intros [H|H]; [|by eapply IH].
  unfold segment_component in H. destruct (s =s []) eqn:E1; [by apply elem_of_nil in H|].
  destruct (s =s lit ".") eqn:E2; [destruct leading; [by apply list_elem_of_singleton in H|by apply elem_of_nil in H]|].
  destruct (s =s lit "..") eqn:E3; apply list_elem_of_singleton in H; [done|]. injection H as ->. split; [|done].
  unfold plain_name. split_and!; intros ->; by rewrite str_eqb_refl in *.
Qed.

Lemma lexical_ancestor_spec root_dir kept gone :
  components root_dir = RootDir :: map Normal (kept ++ gone) ->
  exists ancestor, lexical_ancestor root_dir (length gone) = Some (ancestor, join [slash] gone)
  /\ components ancestor = RootDir :: map Normal kept.
Proof.
  intros Hroot. rewrite map_app, app_comm_cons in Hroot.
  destruct (ancestors_lookup (length root_dir) root_dir _ (map Normal gone) (le_n _) Hroot) as (ancestor & Ha & Hc).
  { intros Hin. apply list_elem_of_In, in_map_iff in Hin as (? & ? & _). done. }
  rewrite length_map in Ha. exists ancestor. split; [|done]. unfold lexical_ancestor, ancestors. rewrite Ha. cbn [mbind option_bind].
  assert (exists below, path_strip_prefix root_dir ancestor = Some below) as [below Hb].
  { unfold path_strip_prefix, path_starts_with. rewrite (proj2 (component_prefix_spec _ _)).
    - destruct (path_segments root_dir). by eexists.
    - exists (map Normal gone). by rewrite Hroot, Hc. }
  rewrite Hb. cbn [mbind option_bind]. apply path_strip_components in Hb. rewrite Hroot, Hc in Hb. apply app_inv_head in Hb.
  rewrite <- Hb, map_map. cbn [component_text]. by rewrite map_id.
Qed.

(** ** The plan of a walk *)

Lemma max_depth patterns pattern : pattern ∈ patterns -> escaping_depth pattern <= foldr Nat.max 0 (map escaping_depth patterns).
Proof.
  induction patterns as [|p patterns IH]; [by intros ?%elem_of_nil|]. cbn [map foldr].
  intros [->|H]%elem_of_cons; [lia|]. specialize (IH H). lia.
Qed.

(** C40 When an include climbs out of the configuration's directory, an absolute path of names, the walk is based at the
    ancestor the highest climbing include climbs to, where there is one. Every include and exclude without a root is
    rewritten to name from there, read segment by segment, the place it names from the configuration's directory, and no
    parent is left in an include. A pattern with a root is rewritten as if it had none. Where an include climbs above the
    root of the file system nothing is rewritten. *)
Theorem climbing_includes_rebased {Fs : HostFs} root_dir names includes excludes :
  components root_dir = RootDir :: map Normal names ->
  let depth := foldr Nat.max 0 (map escaping_depth includes) in
  0 < depth ->
  (length names < depth -> walk_plan root_dir includes excludes = (root_dir, [root_dir], includes, excludes))
  /\ forall kept gone, names = kept ++ gone -> length gone = depth ->
     let rebase := rebase_pattern (join [slash] gone) in
     exists base_dir roots,
       walk_plan root_dir includes excludes = (base_dir, roots, map rebase includes, map rebase excludes)
       /\ components base_dir = RootDir :: map Normal kept
       /\ (forall pattern, pattern ∈ includes ++ excludes -> rootless pattern ->
            place kept (rebase pattern) = place (kept ++ gone) (unified pattern))
       /\ (forall pattern, pattern ∈ includes -> exists segments, rebase pattern = join [slash] segments /\ Forall plain_name segments)
       /\ (forall pattern, rebase (slash :: pattern) = rebase pattern).
Proof.
  intros Hroot depth Hpos. split.
  { intros Hd. unfold walk_plan. fold depth. by rewrite (proj2 (Nat.ltb_lt _ _) Hpos), (no_ancestor root_dir names). }
  intros kept gone -> Hmax rebase. destruct (lexical_ancestor_spec _ _ _ Hroot) as (ancestor & Ha & Hc).
  unfold walk_plan. fold depth. rewrite <- Hmax in Hpos |- *. rewrite (proj2 (Nat.ltb_lt _ _) Hpos), Ha.
  assert (Forall (fun name => plain_name name /\ contains_byte slash name = false) gone) as Hn.
  { apply Forall_forall. intros name Hname. apply (component_names root_dir). rewrite Hroot. apply list_elem_of_further.
    apply list_elem_of_In, in_map, list_elem_of_In, elem_of_app. by right. }
  eexists _, _. split; [reflexivity|]. split; [exact Hc|]. split_and!.
  - intros pattern _ Hr. subst rebase. cbv beta. rewrite rebased_place by done. unfold place. by rewrite Hr.
  - intros pattern Hin. destruct (rebase_spec pattern) as (own & Hown & Hre).
    pose proof (max_depth _ _ Hin) as Hle. fold depth in Hle. rewrite <- Hmax in Hle.
    exists (take (length gone - escaping_depth pattern) gone ++ own). split.
    + subst rebase. cbv beta. rewrite Hre by (eapply Forall_impl; [exact Hn|]; by intros ? []). unfold climbed.
      by replace (escaping_depth pattern - length gone) with 0 by lia.
    + apply Forall_app. split; [|done]. apply Forall_take. eapply Forall_impl; [exact Hn|]. by intros ? [].
  - apply absolute_include_misplaced.
Qed.

Lemma climbing_includes_rebased_witness :
  exists base_dir roots,
  @walk_plan sample_fs (lit "/repo/app/x") [lit "../../lib/**/*"; lit "src/../../y"] [lit "..\out"]
    = (base_dir, roots, [lit "lib/**/*"; lit "app/y"], [lit "app/out"])
  /\ components base_dir = [RootDir; Normal (lit "repo")]
  /\ place [lit "repo"] (lit "app/y") = place [lit "repo"; lit "app"; lit "x"] (lit "src/../../y")
  /\ @walk_plan sample_fs (lit "/p") [lit "../../x"] [] = (lit "/p", [lit "/p"], [lit "../../x"], []).
Proof.
  destruct (@climbing_includes_rebased sample_fs (lit "/repo/app/x") [lit "repo"; lit "app"; lit "x"]
              [lit "../../lib/**/*"; lit "src/../../y"] [lit "..\out"] eq_refl ltac:(vm_compute; lia)) as [_ H].
  destruct (H [lit "repo"] [lit "app"; lit "x"] eq_refl eq_refl) as (base & roots & E & Hc & Hp & _).
  exists base, roots. split; [|split; [exact Hc|split]].
  - rewrite E. repeat f_equal; vm_compute; reflexivity.
  - assert (lit "src/../../y" ∈ [lit "../../lib/**/*"; lit "src/../../y"] ++ [lit "..\out"]) as Hin
      by (apply elem_of_app; left; apply list_elem_of_further, list_elem_of_here).
    pose proof (Hp (lit "src/../../y") Hin eq_refl) as Hpl.
    assert (rebase_pattern (join [slash] [lit "app"; lit "x"]) (lit "src/../../y") = lit "app/y") as Er by (vm_compute; reflexivity).
    rewrite Er in Hpl. exact Hpl.
  - destruct (@climbing_includes_rebased sample_fs (lit "/p") [lit "p"] [lit "../../x"] [] eq_refl ltac:(vm_compute; lia)) as [Hup _].
    apply Hup. vm_compute. lia.
Defined.
