(* ===== verification/RemovedOptions.v ===== *)
(** * Removed options and ill-written enum options
    ([surge-ts-config/src/removed_options.rs])

    What is reported of options the compiler no longer takes, and where. The
    syntax tree of a configuration file, with its byte ranges, is what the crate
    [jsonc_parser] parses; its objects, strings and other values are the type
    [AstValue], the parser a parameter. *)

From Stdlib Require Import Sorted.
From S2P Require Import Prelude RustStr Json UnixPath Probe CompilerOptions Normalize Sorting.

Definition Range : Type := nat * nat.

Record RemovedCompilerOption := mkRemoved { removed_name : str; removed_value : option str; removed_at : Range }.

Definition REMOVED_OPTIONS : list str := map lit ["baseUrl"; "downlevelIteration"; "outFile"]%string.
Definition REMOVED_FALSE_OPTIONS : list str := map lit ["allowSyntheticDefaultImports"; "alwaysStrict"; "esModuleInterop"]%string.
Definition REMOVED_ENUM_VALUES : list (str * str * str) :=
  map (fun '(option, removed, canonical) => (lit option, lit removed, lit canonical))
    [("target", "es5", "ES5"); ("module", "amd", "AMD"); ("module", "system", "System"); ("module", "umd", "UMD");
     ("moduleResolution", "classic", "Classic"); ("moduleResolution", "node", "node10");
     ("moduleResolution", "node10", "node10")]%string.

Definition removal_for (name : str) (value : Value) : option (option str) :=
  if existsb (str_eqb name) REMOVED_OPTIONS then Some None
  else if existsb (str_eqb name) REMOVED_FALSE_OPTIONS && bool_decide (as_bool value = Some false) then Some (Some (lit "false"))
  else
    written ← to_ascii_lowercase <$> as_str value;
    '(_, _, canonical) ← List.find (fun '(option, removed, _) => (option =s name) && (removed =s written)) REMOVED_ENUM_VALUES;
    Some (Some canonical).

(** ** The syntax tree *)

#[local] Unset Elimination Schemes.
Inductive AstValue :=
| AstObject (properties : list (str * Range * AstValue)) (range : Range)
| AstString (text : str) (range : Range)
| AstOther (range : Range).
#[local] Set Elimination Schemes.
Definition value_range (v : AstValue) : Range := match v with AstObject _ r | AstString _ r | AstOther r => r end.

Definition property (name : str) (properties : list (str * Range * AstValue)) : option (str * Range * AstValue) :=
  List.find (fun '(n, _, _) => n =s name) properties.

Record ConfigOptionRanges := mkRanges { compiler_options_key : Range; entries : list (str * Range * Range) }.

Section removed.
Context `{Fs : HostFs} (parse_to_ast : str -> option AstValue).

(** The key and the entries of [compilerOptions]. *)
Definition compiler_options_object (text : str) : option (Range * list (str * Range * AstValue)) :=
  match parse_to_ast text with
  | Some (AstObject root _) =>
      match property (lit "compilerOptions") root with
      | Some (_, key, AstObject options _) => Some (key, options)
      | _ => None
      end
  | _ => None
  end.

Definition collect_option_ranges (text : str) : option ConfigOptionRanges :=
  '(key, options) ← compiler_options_object text;
  Some (mkRanges key (map (fun '(name, key, value) => (name, key, value_range value)) options)).

Definition entry_of (name : str) (ranges : ConfigOptionRanges) : option (str * Range * Range) :=
  List.find (fun '(option, _, _) => option =s name) (entries ranges).

Definition option_value_range (config_path name : str) : option Range :=
  text ← std_read_to_string config_path;
  ranges ← collect_option_ranges text;
  Some (match entry_of name ranges with Some (_, _, value) => value | None => compiler_options_key ranges end).

(** The reports of one removed option: local where the file has it. *)
Definition locate (ranges : ConfigOptionRanges) (removed : str * option str) : RemovedCompilerOption + RemovedCompilerOption :=
  let '(name, value) := removed in
  match entry_of name ranges with
  | Some (_, key, option_value) => inl (mkRemoved name value (match value with Some _ => option_value | None => key end))
  | None => inr (mkRemoved name value (compiler_options_key ranges))
  end.

Definition removed_among (compiler_options : list (str * Value)) : list (str * option str) :=
  omap (fun '(name, value) => value ← removal_for name value; Some (name, value)) compiler_options.

Definition lefts {A B} (l : list (A + B)) : list A := omap (fun x => match x with inl a => Some a | inr _ => None end) l.
Definition rights {A B} (l : list (A + B)) : list B := omap (fun x => match x with inl _ => None | inr b => Some b end) l.

Definition starts_before (a b : RemovedCompilerOption) : bool := (fst (removed_at a) <=? fst (removed_at b))%nat.

Definition collect_removed_options (config_path : str) (compiler_options : option (list (str * Value)))
    : list RemovedCompilerOption :=
  match compiler_options with
  | None => []
  | Some compiler_options =>
      match removed_among compiler_options with
      | [] => []
      | removed =>
          match collect_option_ranges (default [] (std_read_to_string config_path)) with
          | None => []
          | Some ranges =>
              let located := map (locate ranges) removed in
              stable_sort starts_before (lefts located) ++ rights located
          end
      end
  end.

(** ** Values of enum options *)

Record InvalidEnumOption := mkInvalid { invalid_name : str; keys : str; invalid_at : Range }.

Definition ENUM_OPTIONS : list (str * list str * list str) :=
  map (fun '(name, keys, deprecated) => (lit name, map lit keys, map lit deprecated))
    [("module", ["commonjs"; "amd"; "system"; "umd"; "es6"; "es2015"; "es2020"; "es2022"; "esnext"; "node16"; "node18";
                 "node20"; "nodenext"; "preserve"], ["none"; "amd"; "system"; "umd"]);
     ("moduleResolution", ["node16"; "nodenext"; "bundler"; "classic"; "node"; "node10"], ["node"; "classic"; "node10"]);
     ("target", ["es5"; "es6"; "es2015"; "es2016"; "es2017"; "es2018"; "es2019"; "es2020"; "es2021"; "es2022"; "es2023";
                 "es2024"; "es2025"; "esnext"], ["es5"]);
     ("moduleDetection", ["auto"; "legacy"; "force"], []);
     ("jsx", ["preserve"; "react-native"; "react-jsx"; "react-jsxdev"; "react"], []);
     ("newLine", ["crlf"; "lf"], [])]%string.

Definition invalid_enum_option (entry : str * Range * AstValue) : option InvalidEnumOption :=
  let '(name, _, value) := entry in
  '(_, keys, deprecated) ← List.find (fun '(n, _, _) => n =s name) ENUM_OPTIONS;
  match value with
  | AstString text range =>
      let written := to_ascii_lowercase text in
      if (written =s []) || existsb (str_eqb written) keys then None
      else
        let listed := filter (fun key => existsb (str_eqb key) deprecated = false) keys in
        Some (mkInvalid name (join (lit ", ") (map (fun key => lit "'" ++ key ++ lit "'") listed)) range)
  | _ => None
  end.

Definition invalid_enum_options (config_path : str) : list InvalidEnumOption :=
  match std_read_to_string config_path ≫= compiler_options_object with
  | Some (_, options) => omap invalid_enum_option options
  | None => []
  end.

(** ** Each removed option is reported once *)

Lemma locate_perm ranges removed :
  lefts (map (locate ranges) removed) ++ rights (map (locate ranges) removed)
  ≡ₚ map (fun r => match locate ranges r with inl o | inr o => o end) removed.
Proof.
  induction removed as [|r removed IH]; [done|]. cbn [map]. rewrite <- IH. unfold lefts, rights. cbn [omap list_omap].
  destruct (locate ranges r); [done|]. by rewrite <- Permutation_middle.
Qed.

(** Where the file can be parsed, the reports are those of the removed options,
    the ones it holds first and in the order of the text. *)
Lemma removed_options_reported config_path compiler_options ranges :
  collect_option_ranges (default [] (std_read_to_string config_path)) = Some ranges ->
  let reported := collect_removed_options config_path (Some compiler_options) in
  reported ≡ₚ map (fun r => match locate ranges r with inl o | inr o => o end) (removed_among compiler_options)
  /\ exists local inherited, reported = local ++ inherited /\ StronglySorted (fun a b => starts_before a b = true) local
     /\ Forall (fun o => entry_of (removed_name o) ranges <> None) local
     /\ Forall (fun o => entry_of (removed_name o) ranges = None) inherited.
Proof.
  intros Hr. cbv zeta.
  assert (collect_removed_options config_path (Some compiler_options)
          = stable_sort starts_before (lefts (map (locate ranges) (removed_among compiler_options)))
            ++ rights (map (locate ranges) (removed_among compiler_options))) as ->.
  { unfold collect_removed_options. rewrite Hr. by destruct (removed_among _). }
  split; [by rewrite stable_sort_perm, locate_perm|]. eexists _, _. split; [reflexivity|]. split_and!.
  - apply stable_sort_ascending; unfold starts_before; intros *; rewrite ?Nat.leb_le, ?Nat.leb_gt; lia.
  - rewrite stable_sort_perm. apply Forall_forall. intros o Ho. apply list_elem_of_omap in Ho as (x & Hx & Ho).
    apply list_elem_of_In, in_map_iff in Hx as ([name value] & <- & _). unfold locate in Ho.
    destruct (entry_of name ranges) as [[[n k] v]|] eqn:E; [|done]. injection Ho as <-. simpl. congruence.
  - apply Forall_forall. intros o Ho. apply list_elem_of_omap in Ho as (x & Hx & Ho).
    apply list_elem_of_In, in_map_iff in Hx as ([name value] & <- & _). unfold locate in Ho.
    destruct (entry_of name ranges) as [[[n k] v]|] eqn:E; [done|]. by injection Ho as <-.
Qed.
End removed.

(** The keys the compiler lists are read by the normalizer, as themselves or as
    legacy values; it also takes some it does not list. *)
Example enum_keys_are_read :
  forallb (fun '(name, keys, _) =>
    forallb (fun key =>
      forallb (fun d => negb (starts_with (lit "unsupported") (TsConfig.message d)))
        (entry_diagnostics [] (name, VString key))) keys) ENUM_OPTIONS = true.
Proof. vm_compute. reflexivity. Qed.
