(* ===== verification/LoadTsConfig.v ===== *)
(** * Loading a configuration ([surge-ts-config/src/parse.rs], [paths.rs])

    The whole of [load_tsconfig]: the chain of configs is merged, its options
    normalized, its files found and its removed options located. *)

From stdpp Require Import gmap sets.
From S2P Require Import Prelude RustStr Json PathMapping UnixPath Probe ImportGraph GraphReach TsConfig ConfigChain CompilerOptions Normalize ConfigFiles FilesFound RemovedOptions.

(** The fields of [LoadedTsConfig]. *)
Record LoadedTsConfig := mkLoaded {
  config_path : str;
  root_dir : str;
  source_files : list str;
  normalized_options : NormalizedCompilerOptions;
  diagnostics : list ConfigDiagnostic;
  removed_options : list RemovedCompilerOption;
}.

Section load.
Context `{Fs : HostFs} `{Globs : GlobLib} `{Walk : WalkDir}.
Context (current_dir : option str) (parse_to_serde_value : str -> str + Value) (parse_to_ast : str -> option AstValue).

Definition absolutize (path : str) : str :=
  if is_absolute path then path else match current_dir with Some dir => path_join dir path | None => path end.

Definition resolve_project_path (project : str) : result (str * str) :=
  let project := absolutize project in
  if std_exists project && std_is_file project then
    project ← canonicalize_if_exists project;
    Ok (project, default project (parent project))
  else if std_exists project && std_is_dir project then
    project ← canonicalize_if_exists project;
    Ok (path_join project (lit "tsconfig.json"), project)
  else if bool_decide (file_name project = Some (lit "tsconfig.json")) || bool_decide (extension project = Some (lit "json")) then
    Ok (project, match parent project with Some root_dir => root_dir | None => default (lit ".") current_dir end)
  else Ok (path_join project (lit "tsconfig.json"), project).

Definition finish_loaded_config (config_path root_dir : str) (merged : RawTsConfig) (diagnostics : list ConfigDiagnostic)
    : result LoadedTsConfig :=
  let '(options, d1) := normalize_compiler_options (compiler_options merged) root_dir in
  '(files, d2) ← resolve_source_files root_dir (files merged) (include merged) (exclude merged) options;
  Ok (mkLoaded config_path root_dir files options (diagnostics ++ d1 ++ d2)
        (collect_removed_options parse_to_ast config_path (compiler_options merged))).

Definition load_tsconfig (fuel : nat) (project : str) : result LoadedTsConfig :=
  '(config_path, root_dir) ← resolve_project_path project;
  '(merged, (diagnostics, _)) ← load_merged_config parse_to_serde_value fuel config_path ([], ∅);
  finish_loaded_config config_path root_dir merged diagnostics.

Definition load_tsconfig_from_value (fuel : nat) (value : Value) (config_path : str)
    : result (LoadedTsConfig * list (str * Value)) :=
  let root_dir := default [] (parent config_path) in
  '(merged, diagnostics) ←
    (match as_object value with
     | Some object =>
         '(merged, (diagnostics, _)) ←
           merge_config_object (load_merged_config parse_to_serde_value fuel) config_path object ([], ∅);
         Ok (merged, diagnostics)
     | None =>
         Ok (default_config, [mkDiagnostic ConfigParseError (lit "tsconfig.json must contain a JSON object") config_path])
     end);
  loaded ← finish_loaded_config config_path root_dir merged diagnostics;
  Ok (loaded, default [] (compiler_options merged)).

Definition normalize_compiler_options_json (options : list (str * Value)) (config_dir : str)
    : NormalizedCompilerOptions * list ConfigDiagnostic :=
  normalize_compiler_options (Some options) config_dir.
End load.

(** ** The options a configuration ends up with *)

(** Reading by key depends on what is written under each key. *)
Lemma options_by_key_ext w w' config_dir :
  (forall key, w key = w' key) -> same_options (options_by_key w config_dir) (options_by_key w' config_dir).
Proof.
  intros Hw. assert (forall A key (parse : Value -> str -> parsed A) a, read w config_dir key parse a = read w' config_dir key parse a) as Hr
    by (intros; unfold read; by rewrite Hw).
  assert (forall f, written_flag w f = written_flag w' f) as Hf by (intros; unfold written_flag; by rewrite Hw).
  assert (target_by_key w config_dir = target_by_key w' config_dir) as Ht by apply Hr.
  assert (emit_module_by_key w config_dir = emit_module_by_key w' config_dir) as Hm by (unfold emit_module_by_key; by rewrite Ht, Hr).
  assert (module_resolution_by_key w config_dir = module_resolution_by_key w' config_dir) as Hs
    by (unfold module_resolution_by_key; by rewrite Hm, Hr).
  split_and!.
  - intros f. unfold options_by_key. cbn [flag]. unfold flag_by_key. destruct f; by rewrite ?Hf, ?Ht, ?Hm, ?Hs.
  - intros n. cbn [jsx_names options_by_key]. by rewrite Hw.
  - unfold options_by_key, set_jsx_names, set_flag. cbn -[read target_by_key emit_module_by_key module_resolution_by_key].
    by rewrite !Hr, !Hw, Ht, Hm, Hs.
Qed.

Lemma same_options_trans o o' o'' : same_options o o' -> same_options o' o'' -> same_options o o''.
Proof. intros (H1 & H2 & H3) (H1' & H2' & H3'). split_and!; [intros f; by rewrite H1|intros n; by rewrite H2|by rewrite H3]. Qed.

(** Nothing written leaves the defaults. *)
Lemma unwritten_options config_dir : same_options default_options (options_by_key (fun _ => None) config_dir).
Proof. split_and!; [by intros []|by intros []|done]. Qed.

(** ** Distinct keys *)

Lemma map_insert_keys {A} key (v : A) m : NoDup m.*1 -> NoDup (map_insert key v m).*1 /\ forall k, k ∈ (map_insert key v m).*1 -> k = key \/ k ∈ m.*1.
Proof.
  induction m as [|[k w] m IH]; simpl.
  - split; [apply NoDup_singleton|]. intros k ->%list_elem_of_singleton. by left.
  - intros [Hk Hnd]%NoDup_cons. destruct (key =s k) eqn:E; simpl; rewrite NoDup_cons.
    + split; [done|]. auto.
    + destruct (IH Hnd) as [Hnd' Hin]. split.
      * split; [|done]. intros [->|H]%Hin; [by rewrite str_eqb_refl in E|done].
      * intros k'. rewrite !elem_of_cons. intros [->|[->|H]%Hin]; auto.
Qed.

Lemma map_extend_keys {A} (m entries : list (str * A)) : NoDup m.*1 -> NoDup (map_extend m entries).*1.
Proof.
  unfold map_extend. revert m. induction entries as [|[k v] entries IH]; intros m Hm; simpl; [done|].
  by apply IH, map_insert_keys.
Qed.

Definition distinct_options (c : RawTsConfig) : Prop := forall options, compiler_options c = Some options -> NoDup options.*1.

Lemma merge_distinct base child :
  (forall b, base = Some b -> distinct_options b) -> distinct_options child -> distinct_options (merge_configs base child).
Proof.
  intros Hb Hc options. unfold merge_configs. cbn [compiler_options].
  assert (NoDup (default [] (base ← base; compiler_options base)).*1) as Hi.
  { destruct base as [b|]; [|by apply NoDup_nil]. simpl. destruct (compiler_options b) as [o|] eqn:E; [|by apply NoDup_nil].
    by eapply Hb. }
  destruct (compiler_options child) as [own|] eqn:E.
  - pose proof (map_extend_keys (default [] (base ← base; compiler_options base)) own Hi) as Hx.
    destruct (map_extend _ own); [done|]. by intros [= <-].
  - destruct (default [] _) as [|e l]; [done|]. by intros [= <-].
Qed.

Section follow.
Context `{Fs : HostFs} `{Globs : GlobLib} `{Walk : WalkDir}.
Context (parse_to_serde_value : str -> str + Value).
Context (parsed_keyed : forall text value, parse_to_serde_value text = inr value -> keyed value).

Lemma loaded_distinct fuel path state merged state' :
  load_merged_config parse_to_serde_value fuel path state = Ok (merged, state') -> distinct_options merged.
Proof.
  revert path state merged state'. induction fuel as [|fuel IH]; intros path [diagnostics visited] merged state'; [done|].
  cbn [load_merged_config]. destruct (cycle_key path) as [key| |]; [|done|done]. cbn [mbind result_bind].
  destruct (decide (key ∈ visited)); [by intros [= <- _]|].
  destruct (read_config parse_to_serde_value path) as [d|object] eqn:Er; [by intros [= <- _]|].
  pose proof (parsed_options parse_to_serde_value parsed_keyed path object) as Hown. unfold merge_config_object.
  destruct (parse_current_config path object) as [parsed pushed] eqn:Ep. cbn [fst] in Hown.
  assert (distinct_options parsed) as Hc by (intros options; by apply Hown).
  destruct (map_get (lit "extends") object ≫= as_str) as [spec|].
  - destruct (resolve_extends path spec) as [[message|[base_path|]]| |]; cbn [mbind result_bind]; try done.
    + intros [= <- _]. by apply merge_distinct.
    + destruct (load_merged_config parse_to_serde_value fuel base_path _) as [[base [d v]]| |] eqn:El; [|done|done].
      cbn [mbind result_bind]. intros [= <- _]. apply merge_distinct; [|done]. intros b [= <-]. by eapply IH.
    + intros [= <- _]. by apply merge_distinct.
  - intros [= <- _]. by apply merge_distinct.
Qed.

Lemma any_visible_ends relative depths matched : any_visible relative depths matched <> OutOfFuel.
Proof.
  induction matched as [|i matched IH]; cbn [any_visible]; [done|]. destruct (depths !! i); cbn; [|done].
  by destruct (wildcard_segments_are_visible _ _).
Qed.

Lemma explicit_files_end root_dir files allow_js results : resolve_explicit_files root_dir files allow_js results <> OutOfFuel.
Proof.
  revert results. induction files as [|file files IH]; intros results; cbn [resolve_explicit_files]; [done|].
  specialize (IH results) as IH0.
  destruct (as_str file) as [raw|]; [|by destruct (resolve_explicit_files _ _ _ results) as [[? ?]| |]].
  destruct (_ || _); [by destruct (resolve_explicit_files _ _ _ results) as [[? ?]| |]|].
  destruct (negb _); [done|]. pose proof (canonicalize_ends (resolve_path root_dir raw)) as Hc.
  destruct (canonicalize_if_exists _); [apply IH|done|done].
Qed.

Lemma source_files_end root_dir files include exclude options :
  resolve_source_files root_dir files include exclude options <> OutOfFuel.
Proof.
  unfold resolve_source_files. destruct files; [apply explicit_files_end|].
  destruct (pattern_list _ _ _ _) as [i d1], (pattern_list _ _ _ _) as [e d2].
  destruct (walk_plan _ _ _) as [[[base roots] i'] e']. destruct (build_include_globset _ _) as [[set depths] d3].
  destruct (build_globset _ _) as [set' d4].
  match goal with |- context [walk_files ?b ?r ?k ?f] => pose proof (walk_files_spec b r k f) as H end.
  assert (forall r Q, ends r Q -> r <> @OutOfFuel (list str)) as He by (by intros [] ?).
  match goal with |- context [walk_files ?b ?r ?k ?f] => destruct (walk_files b r k f) eqn:E end; try done.
  exfalso. apply H. intros e0. apply source_file_ends. intros relative. unfold is_included. destruct set; [|done].
  pose proof (any_visible_ends relative depths (set_matches g relative)). by destruct (any_visible _ _ _).
Qed.
End follow.

Lemma resolve_project_path_ends `{Fs : HostFs} current_dir project : resolve_project_path current_dir project <> OutOfFuel.
Proof.
  unfold resolve_project_path. pose proof (canonicalize_ends (absolutize current_dir project)) as H.
  destruct (_ && _); [by destruct (canonicalize_if_exists _)|].
  destruct (_ && _); [by destruct (canonicalize_if_exists _)|]. by destruct (_ || _).
Qed.

(** The options of a merged config, read key by key. *)
Lemma merged_options_by_key config_dir merged :
  distinct_options merged ->
  same_options (fst (normalize_compiler_options (compiler_options merged) config_dir))
    (options_by_key (fun key => option_of key merged) config_dir).
Proof.
  intros Hnd. unfold option_of. destruct (compiler_options merged) as [options|] eqn:E.
  - pose proof (normalize_reads_keys config_dir options (Hnd options E)) as H.
    destruct (normalize_compiler_options (Some options) config_dir). exact (proj1 H).
  - apply unwritten_options.
Qed.

(** C38 Where finitely many configs can be read, loading a project ends, and unless a path on the way has no
    normalization, its options are those of [options_by_key] on what the chain of [extends] writes, each key with the
    value of the nearest config that writes it: an option reads as its own key says, and otherwise has its default, which
    for the strict family follows [strict], for the emitted module and [useDefineForClassFields] the target, for the
    resolver the emitted module, and for [resolveJsonModule] is on for the bundler and for the modules node20 and
    nodenext; the one option that does not read as written is [allowSyntheticDefaultImports], which [esModuleInterop]
    turns on whatever is written. *)
Theorem loaded_options_follow_chain `{Fs : HostFs} `{Globs : GlobLib} `{Walk : WalkDir} (current_dir : option str)
    (parse_to_serde_value : str -> str + Value) (parse_to_ast : str -> option AstValue) (keys : gset str) (fuel : nat)
    (project : str) :
  (forall text value, parse_to_serde_value text = inr value -> keyed value) ->
  (forall path key, std_read_to_string path <> None -> cycle_key path = Ok key -> key ∈ keys) ->
  (size keys < fuel)%nat ->
  ends (load_tsconfig current_dir parse_to_serde_value parse_to_ast fuel project) (fun loaded =>
    resolve_project_path current_dir project = Ok (config_path loaded, root_dir loaded)
    /\ exists l cut, chain parse_to_serde_value ∅ (config_path loaded) l cut
       /\ same_options (normalized_options loaded)
            (options_by_key (fun key => first_defined (option_of key) l.*2) (root_dir loaded))).
Proof.
  intros Hkeyed Hkeys Hfuel. unfold load_tsconfig. apply ends_bind.
  apply (ends_mono _ _ _ (ends_eq _ _ (ends_any _ (resolve_project_path_ends current_dir project)))).
  intros [path root] [Hpath _]. apply ends_bind.
  eapply ends_mono.
  { apply ends_eq, (load_chain parse_to_serde_value Hkeyed keys Hkeys). by rewrite difference_empty_L. }
  intros [merged [ds visited]] (Hload & _ & l & cut & new & Hch & _ & _ & Hm & _).
  pose proof (loaded_distinct parse_to_serde_value Hkeyed _ _ _ _ _ Hload) as Hnd.
  unfold finish_loaded_config. pose proof (merged_options_by_key root merged Hnd) as Hopt.
  destruct (normalize_compiler_options (compiler_options merged) root) as [options d1]. cbn [fst] in Hopt.
  apply ends_bind. apply (ends_mono _ _ _ (ends_any _ (source_files_end root (files merged) (include merged) (exclude merged) options))).
  intros [found d2] _. cbn [ends]. split; [exact Hpath|]. exists l, cut. split; [exact Hch|].
  eapply same_options_trans; [exact Hopt|]. apply options_by_key_ext. exact Hm.
Qed.

(** The two configs that extend each other, loaded as a project. *)
Lemma loaded_options_follow_chain_witness :
  exists loaded l cut,
    @load_tsconfig config_fs sample_globs sample_walk None config_parse (fun _ => None) 3 config_a = Ok loaded
    /\ chain (Fs := config_fs) config_parse ∅ (config_path loaded) l cut
    /\ same_options (normalized_options loaded)
         (options_by_key (fun key => first_defined (option_of key) l.*2) (root_dir loaded))
    /\ target (normalized_options loaded) = ES2022 /\ root_dir loaded = lit "/p".
Proof.
  pose proof (@loaded_options_follow_chain config_fs sample_globs sample_walk None config_parse (fun _ => None)
    {[config_a; config_b]} 3 config_a config_parse_keyed config_fs_keys ltac:(vm_compute; lia)) as H.
  destruct (@load_tsconfig config_fs sample_globs sample_walk None config_parse (fun _ => None) 3 config_a) as [loaded| |] eqn:E;
    [|vm_compute in E; discriminate..].
  destruct H as (_ & l & cut & Hch & Hs). exists loaded, l, cut. split; [reflexivity|]. split; [exact Hch|]. split; [exact Hs|].
  assert ((loaded ← @load_tsconfig config_fs sample_globs sample_walk None config_parse (fun _ => None) 3 config_a;
           Ok (target (normalized_options loaded), root_dir loaded)) = Ok (ES2022, lit "/p")) as Ht by (vm_compute; reflexivity).
  rewrite E in Ht. injection Ht as Ht Hr. split; [exact Ht|exact Hr].
Defined.
