(* ===== verification/TypeModel.v ===== *)
(** * The type representation and its equality ([surge-ts-types/src])

    [Type] of [ty.rs] with its payloads of [function.rs], [object.rs],
    [reference.rs] and [union.rs], and the equality those files derive or write
    out. A payload is a record over the type of types, so the recursion goes
    through it; an [Arc] is its value. The handle of a function or union (names,
    declarations, overloads: display and provenance) and the resolver of a
    reference take no part in equality, hashing or union construction and are
    left out. *)

From S2P Require Import Prelude.
From stdpp Require Import sets.

Local Open Scope Z_scope.

(** ** Payloads *)

Record FunctionTypePayload {T : Type} := mkFunction {
  parameters : list T;
  parameter_list_id : option Z;
  return_type : T;
  is_variadic : bool;
  required_parameter_count : nat;
}.
#[global] Arguments FunctionTypePayload : clear implicits.

Record MemberRestriction := mkRestriction { private : bool; owner : str }.

Record ObjectProperty {T : Type} := mkProperty {
  prop_ty : T;
  optional : bool;
  method : bool;
  readonly : bool;
  restriction : option MemberRestriction;
  index_slot : bool;
}.
#[global] Arguments ObjectProperty : clear implicits.

(** An [IndexMap]: entries in insertion order, the keys distinct ([wf] below). *)
Definition PropertyMap (T : Type) : Type := list (str * ObjectProperty T).

Record ObjectType {T : Type} := mkObject {
  properties : PropertyMap T;
  property_map_id : option Z;
  string_index_type : option T;
  number_index_type : option T;
  string_index_readonly : bool;
  number_index_readonly : bool;
  alias_name : option str;
  alias_id : option str;
  construct_signature : option (FunctionTypePayload T);
  call_signature : option (FunctionTypePayload T);
  is_intersection : bool;
  synthetic_open_index : bool;
  non_primitive : bool;
  without_inferable_index : bool;
  intersection_operands : option (list T);
}.
#[global] Arguments ObjectType : clear implicits.

Record OpenTupleType {T : Type} := mkOpenTuple { leading : list T; rest : T; trailing : list T }.
#[global] Arguments OpenTupleType : clear implicits.

Record UnionTypePayload {T : Type} := mkUnion { types : list T; list_id : option Z }.
#[global] Arguments UnionTypePayload : clear implicits.

Record TypeReference {T : Type} := mkReference { ref_id : str; display : str; arguments : list T }.
#[global] Arguments TypeReference : clear implicits.

#[local] Unset Elimination Schemes.
Inductive ty : Type :=
  | String | Number | Boolean | BigInt | Symbol | Undefined | Null | Void | Any | Unknown | GenuineUnknown
  | ErrorType
  | TypeParameter (name : str) (owner : Z)
  | Never
  | StringLiteral (value : str)
  | NumberLiteral (value : str)
  | BooleanLiteral (value : bool)
  | Function_ (f : FunctionTypePayload ty)
  | Object (o : ObjectType ty)
  | Array (element : ty)
  | Tuple (elements : list ty)
  | OpenTuple (t : OpenTupleType ty)
  | Union (u : UnionTypePayload ty)
  | Reference (r : TypeReference ty).
#[local] Set Elimination Schemes.

(** [ObjectType::new] without a program store, and [ObjectProperty::required]. *)
Definition object_new {T} (ps : PropertyMap T) (index : option T) : ObjectType T :=
  mkObject _ ps None index None false false None None None None false false false false None.
Definition required {T} (t : T) : ObjectProperty T := mkProperty _ t false false false None false.
Definition with_intersection_operands {T} (operands : list T) (o : ObjectType T) : ObjectType T :=
  mkObject _ (properties o) (property_map_id o) (string_index_type o) (number_index_type o)
    (string_index_readonly o) (number_index_readonly o) (alias_name o) (alias_id o) (construct_signature o)
    (call_signature o) (is_intersection o) (synthetic_open_index o) (non_primitive o) (without_inferable_index o)
    (match operands with [] => None | _ => Some operands end).
Definition with_intersection_marker {T} (o : ObjectType T) : ObjectType T :=
  mkObject _ (properties o) (property_map_id o) (string_index_type o) (number_index_type o)
    (string_index_readonly o) (number_index_readonly o) (alias_name o) (alias_id o) (construct_signature o)
    (call_signature o) true (synthetic_open_index o) (non_primitive o) (without_inferable_index o)
    (intersection_operands o).

(** ** Equality *)

Section equality.
Context {T : Type} (eqb : T -> T -> bool).

Definition list_eqb : list T -> list T -> bool :=
  fix go l l' :=
    match l, l' with
    | [], [] => true
    | x :: l, y :: l' => eqb x y && go l l'
    | _, _ => false
    end.

Definition option_eqb {A} (f : A -> A -> bool) (a b : option A) : bool :=
  match a, b with
  | Some a, Some b => f a b
  | None, None => true
  | _, _ => false
  end.

Definition function_eqb (f g : FunctionTypePayload T) : bool :=
  list_eqb (parameters f) (parameters g)
  && option_eqb Z.eqb (parameter_list_id f) (parameter_list_id g)
  && eqb (return_type f) (return_type g)
  && Bool.eqb (is_variadic f) (is_variadic g)
  && (required_parameter_count f =? required_parameter_count g)%nat.

Definition restriction_eqb (a b : MemberRestriction) : bool :=
  Bool.eqb (private a) (private b) && (owner a =s owner b).

Definition property_eqb (p q : ObjectProperty T) : bool :=
  eqb (prop_ty p) (prop_ty q)
  && Bool.eqb (optional p) (optional q)
  && Bool.eqb (method p) (method q)
  && Bool.eqb (readonly p) (readonly q)
  && option_eqb restriction_eqb (restriction p) (restriction q)
  && Bool.eqb (index_slot p) (index_slot q).

(** [IndexMap::get]. *)
Definition property_get {A} (name : str) : list (str * A) -> option A :=
  fix go m :=
    match m with
    | [] => None
    | (k, p) :: m => if name =s k then Some p else go m
    end.

(** [IndexMap] equality: as many entries, each of them in the other map. *)
Definition property_map_eqb (m m' : PropertyMap T) : bool :=
  (length m =? length m')%nat
  && forallb (fun '(k, p) => match property_get k m' with Some p' => property_eqb p p' | None => false end) m.

Definition is_memberless_intersection (o : ObjectType T) : bool :=
  is_intersection o
  && match properties o with [] => true | _ => false end
  && match string_index_type o with None => true | _ => false end
  && match number_index_type o with None => true | _ => false end
  && match intersection_operands o with Some _ => true | None => false end.

Definition object_eqb (o p : ObjectType T) : bool :=
  property_map_eqb (properties o) (properties p)
  && option_eqb eqb (string_index_type o) (string_index_type p)
  && option_eqb eqb (number_index_type o) (number_index_type p)
  && Bool.eqb (string_index_readonly o) (string_index_readonly p)
  && Bool.eqb (number_index_readonly o) (number_index_readonly p)
  && option_eqb function_eqb (construct_signature o) (construct_signature p)
  && option_eqb function_eqb (call_signature o) (call_signature p)
  && (negb (is_memberless_intersection o || is_memberless_intersection p)
      || option_eqb list_eqb (intersection_operands o) (intersection_operands p)
         && Bool.eqb (non_primitive o) (non_primitive p)).

Definition open_tuple_eqb (t u : OpenTupleType T) : bool :=
  list_eqb (leading t) (leading u) && eqb (rest t) (rest u) && list_eqb (trailing t) (trailing u).

Definition union_eqb (u v : UnionTypePayload T) : bool :=
  list_eqb (types u) (types v) && option_eqb Z.eqb (list_id u) (list_id v).

Definition nominal_eq (r s : TypeReference T) : bool :=
  (ref_id r =s ref_id s) && list_eqb (arguments r) (arguments s).
End equality.

Fixpoint type_eqb (a b : ty) {struct a} : bool :=
  match a, b with
  | String, String | Number, Number | Boolean, Boolean | BigInt, BigInt | Symbol, Symbol
  | Undefined, Undefined | Null, Null | Void, Void | Any, Any | Unknown, Unknown
  | GenuineUnknown, GenuineUnknown | ErrorType, ErrorType | Never, Never => true
  | TypeParameter n o, TypeParameter n' o' => (n =s n') && (o =? o')
  | StringLiteral s, StringLiteral s' => s =s s'
  | NumberLiteral s, NumberLiteral s' => s =s s'
  | BooleanLiteral v, BooleanLiteral v' => Bool.eqb v v'
  | Function_ f, Function_ g => function_eqb type_eqb f g
  | Object o, Object p => object_eqb type_eqb o p
  | Array e, Array e' => type_eqb e e'
  | Tuple es, Tuple es' => list_eqb type_eqb es es'
  | OpenTuple t, OpenTuple t' => open_tuple_eqb type_eqb t t'
  | Union u, Union u' => union_eqb type_eqb u u'
  | Reference r, Reference r' => nominal_eq type_eqb r r'
  | _, _ => false
  end.

Infix "==" := type_eqb (at level 70, no associativity) : surge_scope.

Example property_order_is_irrelevant :
  let p := (lit "a", required String) in let q := (lit "b", required Number) in
  (Object (object_new [p; q] None) == Object (object_new [q; p] None)) = true.
Proof. done. Qed.

(** The operands of an intersection without members decide its equality. *)
Example memberless_intersections_differ :
  let merged operands := Object (with_intersection_operands operands (with_intersection_marker (object_new [] None))) in
  (merged [TypeParameter (lit "T") 1; Null] == merged [TypeParameter (lit "T") 1; Undefined]) = false.
Proof. done. Qed.

(** ** The types inside a type *)

Definition opt_list {A} (o : option A) : list A := match o with Some a => [a] | None => [] end.

Definition function_types {T} (f : FunctionTypePayload T) : list T := return_type f :: parameters f.
Definition signature_types {T} (o : option (FunctionTypePayload T)) : list T :=
  match o with Some f => function_types f | None => [] end.
Definition property_types {T} (m : PropertyMap T) : list T := map (fun e => prop_ty (snd e)) m.
Definition object_types {T} (o : ObjectType T) : list T :=
  property_types (properties o) ++ opt_list (string_index_type o) ++ opt_list (number_index_type o)
  ++ signature_types (construct_signature o) ++ signature_types (call_signature o)
  ++ default [] (intersection_operands o).

Definition children (t : ty) : list ty :=
  match t with
  | Function_ f => function_types f
  | Object o => object_types o
  | Array e => [e]
  | Tuple es => es
  | OpenTuple t => rest t :: leading t ++ trailing t
  | Union u => types u
  | Reference r => arguments r
  | _ => []
  end.

Definition sum (l : list nat) : nat := foldr Nat.add 0%nat l.

Definition function_size {T} (size : T -> nat) (f : FunctionTypePayload T) : nat :=
  (size (return_type f) + sum (map size (parameters f)))%nat.
Definition opt_size {A} (size : A -> nat) (o : option A) : nat := match o with Some a => size a | None => 0%nat end.
Definition object_size {T} (size : T -> nat) (o : ObjectType T) : nat :=
  (sum (map (fun e => size (prop_ty (snd e))) (properties o))
   + (opt_size size (string_index_type o) + (opt_size size (number_index_type o)
   + (opt_size (function_size size) (construct_signature o) + (opt_size (function_size size) (call_signature o)
   + opt_size (fun l => sum (map size l)) (intersection_operands o))))))%nat.

Fixpoint size (t : ty) : nat :=
  S match t with
    | Function_ f => function_size size f
    | Object o => object_size size o
    | Array e => size e
    | Tuple es => sum (map size es)
    | OpenTuple t => size (rest t) + (sum (map size (leading t)) + sum (map size (trailing t)))
    | Union u => sum (map size (types u))
    | Reference r => sum (map size (arguments r))
    | _ => 0
    end.

Lemma sum_app l l' : sum (l ++ l') = (sum l + sum l')%nat.
Proof. induction l; simpl; lia. Qed.

Lemma size_children t : size t = S (sum (map size (children t))).
Proof.
  assert (forall o, sum (map size (opt_list o)) = opt_size size o) as Ho by (intros []; simpl; lia).
  assert (forall o, sum (map size (signature_types o)) = opt_size (function_size size) o) as Hs by (by intros []).
  destruct t; cbn [size children]; try done; f_equal.
  - unfold object_size, object_types. rewrite !map_app, !sum_app, !Ho, !Hs.
    unfold property_types. rewrite map_map. by destruct (intersection_operands o).
  - cbn [map sum foldr]. by rewrite map_app, <- sum_app.
Qed.

Lemma size_child c t : c ∈ children t -> (size c < size t)%nat.
Proof.
  intros H. rewrite (size_children t). induction H as [c l|c d l H IH]; simpl; lia.
Qed.

(** Induction on a type with the hypothesis for every type directly inside. *)
Lemma ty_ind (P : ty -> Prop) : (forall t, (forall c, c ∈ children t -> P c) -> P t) -> forall t, P t.
Proof.
  intros H t. remember (size t) as n eqn:E. revert t E. induction (lt_wf n) as [n _ IH]. intros t ->.
  apply H. intros c Hc. exact (IH (size c) (size_child c t Hc) c eq_refl).
Qed.

(** ** Well-formed types *)

(** What the constructors of the source maintain: the keys of a property map
    are distinct, and only an object marked as an intersection has operands. *)
Definition node_ok (t : ty) : Prop :=
  match t with
  | Object o => NoDup (map fst (properties o)) /\ (is_Some (intersection_operands o) -> is_intersection o = true)
  | _ => True
  end.

#[local] Unset Elimination Schemes.
Inductive wf (t : ty) : Prop :=
  wf_intro : node_ok t -> Forall wf (children t) -> wf t.
#[local] Set Elimination Schemes.

Lemma wf_child c t : wf t -> c ∈ children t -> wf c.
Proof. intros [_ H] Hc. by eapply Forall_forall in H. Qed.

Lemma wf_node t : wf t -> node_ok t.
Proof. by intros []. Qed.

(** ** Property maps *)

Lemma property_get_In {A} name (m : list (str * A)) p : property_get name m = Some p -> (name, p) ∈ m.
Proof.
  induction m as [|[k q] m IH]; simpl; [done|]. destruct (name =s k) eqn:E.
  - apply str_eqb_spec in E as ->. intros [= ->]. apply list_elem_of_here.
  - intros H. apply list_elem_of_further. auto.
Qed.

Lemma property_get_unique {A} name (m : list (str * A)) p :
  NoDup (map fst m) -> (name, p) ∈ m -> property_get name m = Some p.
Proof.
  induction m as [|[k q] m IH]; simpl; intros Hnd H; [by apply elem_of_nil in H|].
  apply NoDup_cons in Hnd as [Hk Hnd]. apply elem_of_cons in H as [[= -> ->]|H]; [by rewrite str_eqb_refl|].
  destruct (name =s k) eqn:E; [|by apply IH]. apply str_eqb_spec in E as ->.
  destruct Hk. by apply (list_elem_of_fmap_2 fst) in H.
Qed.

Lemma property_map_eqb_spec {T} (eqb : T -> T -> bool) m m' :
  property_map_eqb eqb m m' = true <->
  length m = length m'
  /\ forall k p, (k, p) ∈ m -> exists p', property_get k m' = Some p' /\ property_eqb eqb p p' = true.
Proof.
  unfold property_map_eqb. rewrite andb_true_iff, Nat.eqb_eq, forallb_Forall, Forall_forall.
  split; intros [Hl H]; (split; [done|]).
  - intros k p Hin. specialize (H (k, p) Hin). simpl in H. destruct (property_get k m'); [by eexists|done].
  - intros [k p] Hin. by destruct (H k p Hin) as (p' & -> & ?).
Qed.

(** Equal maps have the same keys. *)
Lemma property_map_keys {T} (eqb : T -> T -> bool) m m' :
  NoDup (map fst m) -> property_map_eqb eqb m m' = true -> map fst m' ⊆ map fst m.
Proof.
  intros Hnd [Hl H]%property_map_eqb_spec k Hk.
  apply list_elem_of_In. apply list_elem_of_In in Hk. revert k Hk.
  apply NoDup_length_incl; [by apply NoDup_ListNoDup|rewrite !length_map; lia|].
  intros k Hk%list_elem_of_In. apply list_elem_of_fmap in Hk as ([k' p] & -> & Hin).
  destruct (H k' p Hin) as (p' & Hget & _). apply list_elem_of_In.
  by apply property_get_In, (list_elem_of_fmap_2 fst) in Hget.
Qed.

(** ** Equality is an equivalence *)

Lemma str_eqb_sym (a b : str) : (a =s b) = (b =s a).
Proof. unfold str_eqb. by apply bool_decide_ext. Qed.

Section combinators.
Context {T : Type} (eqb : T -> T -> bool).

Lemma list_eqb_Forall2 l l' : list_eqb eqb l l' = true <-> Forall2 (fun x y => eqb x y = true) l l'.
Proof.
  revert l'; induction l as [|x l IH]; intros [|y l']; simpl; split; intros H; try done; try by inversion H.
  - apply andb_true_iff in H as [? ?]. constructor; [done|]. by apply IH.
  - inversion H; subst. apply andb_true_iff. split; [done|]. by apply IH.
Qed.

Lemma list_eqb_refl l : (forall x, x ∈ l -> eqb x x = true) -> list_eqb eqb l l = true.
Proof.
  induction l as [|x l IH]; intros H; [done|]. simpl. rewrite H by apply list_elem_of_here. simpl.
  apply IH. intros y Hy. apply H. by apply list_elem_of_further.
Qed.

Lemma list_eqb_comm l l' :
  (forall x y, x ∈ l -> y ∈ l' -> eqb x y = eqb y x) -> list_eqb eqb l l' = list_eqb eqb l' l.
Proof.
  revert l'; induction l as [|x l IH]; intros [|y l'] H; try done. simpl.
  rewrite H, IH; [done|set_solver..].
Qed.

Lemma list_eqb_trans l l' l'' :
  (forall x y z, x ∈ l -> y ∈ l' -> z ∈ l'' -> eqb x y = true -> eqb y z = true -> eqb x z = true) ->
  list_eqb eqb l l' = true -> list_eqb eqb l' l'' = true -> list_eqb eqb l l'' = true.
Proof.
  revert l' l''; induction l as [|x l IH]; intros [|y l'] [|z l''] H; try done. simpl.
  rewrite !andb_true_iff. intros [? ?] [? ?]. split; [eapply H; eauto using list_elem_of_here|].
  eapply IH; [|done|done]. intros. eapply H; eauto using list_elem_of_further.
Qed.
End combinators.

Section option_combinators.
Context {A : Type} (f : A -> A -> bool).

Lemma option_eqb_refl o : (forall x, x ∈ opt_list o -> f x x = true) -> option_eqb f o o = true.
Proof. destruct o; [|done]. intros H. apply H. apply list_elem_of_here. Qed.

Lemma option_eqb_comm o o' :
  (forall x y, o = Some x -> o' = Some y -> f x y = f y x) -> option_eqb f o o' = option_eqb f o' o.
Proof. destruct o, o'; try done. intros H. by apply H. Qed.

Lemma option_eqb_trans o o' o'' :
  (forall x y z, o = Some x -> o' = Some y -> o'' = Some z -> f x y = true -> f y z = true -> f x z = true) ->
  option_eqb f o o' = true -> option_eqb f o' o'' = true -> option_eqb f o o'' = true.
Proof. destruct o, o', o''; try done. intros H. by apply H. Qed.
End option_combinators.

Lemma restriction_eqb_eq a b : restriction_eqb a b = true <-> a = b.
Proof.
  destruct a, b. unfold restriction_eqb. simpl. rewrite andb_true_iff, eqb_true_iff, str_eqb_spec.
  split; [by intros [-> ->]|by intros [= -> ->]].
Qed.

Lemma option_eqb_eq {A} (f : A -> A -> bool) o o' :
  (forall x y, f x y = true <-> x = y) -> option_eqb f o o' = true <-> o = o'.
Proof. intros H. destruct o, o'; simpl; try (split; congruence). rewrite H. split; congruence. Qed.

Lemma opt_Z_eqb_eq o o' : option_eqb Z.eqb o o' = true <-> o = o'.
Proof. apply option_eqb_eq. apply Z.eqb_eq. Qed.

Lemma opt_restriction_eqb_eq o o' : option_eqb restriction_eqb o o' = true <-> o = o'.
Proof. apply option_eqb_eq. apply restriction_eqb_eq. Qed.

(** Membership in the types of an object. *)
Section inside.
Context {T : Type} (o : ObjectType T) (x : T).

Lemma in_properties : x ∈ property_types (properties o) -> x ∈ object_types o.
Proof. unfold object_types. rewrite !elem_of_app. tauto. Qed.
Lemma in_string_index : string_index_type o = Some x -> x ∈ object_types o.
Proof. unfold object_types. rewrite !elem_of_app. intros ->. simpl. rewrite list_elem_of_singleton. tauto. Qed.
Lemma in_number_index : number_index_type o = Some x -> x ∈ object_types o.
Proof. unfold object_types. rewrite !elem_of_app. intros ->. simpl. rewrite list_elem_of_singleton. tauto. Qed.
Lemma in_construct : x ∈ signature_types (construct_signature o) -> x ∈ object_types o.
Proof. unfold object_types. rewrite !elem_of_app. tauto. Qed.
Lemma in_call : x ∈ signature_types (call_signature o) -> x ∈ object_types o.
Proof. unfold object_types. rewrite !elem_of_app. tauto. Qed.
Lemma in_operands l : intersection_operands o = Some l -> x ∈ l -> x ∈ object_types o.
Proof. unfold object_types. rewrite !elem_of_app. intros ->. simpl. tauto. Qed.
End inside.

Create HintDb inside.
#[export] Hint Resolve in_properties in_string_index in_number_index in_construct in_call in_operands : inside.
#[export] Hint Resolve list_elem_of_here list_elem_of_further : inside.

Lemma in_leading {T} (t : OpenTupleType T) x : x ∈ leading t -> x ∈ rest t :: leading t ++ trailing t.
Proof. rewrite elem_of_cons, elem_of_app. tauto. Qed.
Lemma in_trailing {T} (t : OpenTupleType T) x : x ∈ trailing t -> x ∈ rest t :: leading t ++ trailing t.
Proof. rewrite elem_of_cons, elem_of_app. tauto. Qed.
#[export] Hint Resolve in_leading in_trailing : inside.

Lemma opt_list_Some {A} (o : option A) x : x ∈ opt_list o -> o = Some x.
Proof. destruct o; simpl; [|by intros ?%elem_of_nil]. by intros ->%list_elem_of_singleton. Qed.
#[export] Hint Resolve opt_list_Some : inside.

Section payloads.
Context {T : Type} (eqb : T -> T -> bool).

Lemma function_eqb_spec f g :
  function_eqb eqb f g = true <->
  list_eqb eqb (parameters f) (parameters g) = true /\ parameter_list_id f = parameter_list_id g
  /\ eqb (return_type f) (return_type g) = true /\ is_variadic f = is_variadic g
  /\ required_parameter_count f = required_parameter_count g.
Proof. unfold function_eqb. rewrite !andb_true_iff, opt_Z_eqb_eq, eqb_true_iff, Nat.eqb_eq. tauto. Qed.

Lemma property_eqb_spec p q :
  property_eqb eqb p q = true <->
  eqb (prop_ty p) (prop_ty q) = true /\ optional p = optional q /\ method p = method q
  /\ readonly p = readonly q /\ restriction p = restriction q /\ index_slot p = index_slot q.
Proof. unfold property_eqb. rewrite !andb_true_iff, opt_restriction_eqb_eq, !eqb_true_iff. tauto. Qed.

Lemma object_eqb_spec o p :
  object_eqb eqb o p = true <->
  property_map_eqb eqb (properties o) (properties p) = true
  /\ option_eqb eqb (string_index_type o) (string_index_type p) = true
  /\ option_eqb eqb (number_index_type o) (number_index_type p) = true
  /\ string_index_readonly o = string_index_readonly p /\ number_index_readonly o = number_index_readonly p
  /\ option_eqb (function_eqb eqb) (construct_signature o) (construct_signature p) = true
  /\ option_eqb (function_eqb eqb) (call_signature o) (call_signature p) = true
  /\ (is_memberless_intersection o = true \/ is_memberless_intersection p = true ->
      option_eqb (list_eqb eqb) (intersection_operands o) (intersection_operands p) = true
      /\ non_primitive o = non_primitive p).
Proof.
  unfold object_eqb. rewrite !andb_true_iff, !eqb_true_iff, orb_true_iff, andb_true_iff, negb_true_iff,
    orb_false_iff, eqb_true_iff.
  destruct (is_memberless_intersection o), (is_memberless_intersection p); intuition congruence.
Qed.

Lemma function_eqb_refl f : (forall x, x ∈ function_types f -> eqb x x = true) -> function_eqb eqb f f = true.
Proof.
  intros H. apply function_eqb_spec. split_and!; try done.
  - apply list_eqb_refl. intros. apply H. by apply list_elem_of_further.
  - apply H, list_elem_of_here.
Qed.

Lemma function_eqb_comm f g :
  (forall x y, x ∈ function_types f -> y ∈ function_types g -> eqb x y = eqb y x) ->
  function_eqb eqb f g = function_eqb eqb g f.
Proof.
  intros H. apply eq_true_iff_eq. rewrite !function_eqb_spec, (H (return_type f) (return_type g)),
    (list_eqb_comm _ (parameters f)) by eauto with inside. intuition congruence.
Qed.

Lemma function_eqb_trans f g h :
  (forall x y z, x ∈ function_types f -> y ∈ function_types g -> z ∈ function_types h ->
     eqb x y = true -> eqb y z = true -> eqb x z = true) ->
  function_eqb eqb f g = true -> function_eqb eqb g h = true -> function_eqb eqb f h = true.
Proof.
  unfold function_types. intros H. rewrite !function_eqb_spec. intros (? & ? & ? & ? & ?) (? & ? & ? & ? & ?).
  split_and!; try congruence.
  - eapply list_eqb_trans; [|done|done]. eauto with inside.
  - eapply H; [..|done|done]; apply list_elem_of_here.
Qed.

Lemma property_map_eqb_refl m :
  NoDup (map fst m) -> (forall x, x ∈ property_types m -> eqb x x = true) -> property_map_eqb eqb m m = true.
Proof.
  intros Hnd H. apply property_map_eqb_spec. split; [done|]. intros k p Hin. exists p.
  split; [by apply property_get_unique|]. apply property_eqb_spec. split_and!; try done.
  apply H. by apply (list_elem_of_fmap_2 (fun e => prop_ty (snd e)) _ (k, p)).
Qed.

Lemma in_property_types (m : PropertyMap T) k p : (k, p) ∈ m -> prop_ty p ∈ property_types m.
Proof. apply (list_elem_of_fmap_2 (fun e => prop_ty (snd e)) _ (k, p)). Qed.

Lemma property_map_eqb_sym m m' :
  NoDup (map fst m) -> NoDup (map fst m') ->
  (forall x y, x ∈ property_types m -> y ∈ property_types m' -> eqb x y = true -> eqb y x = true) ->
  property_map_eqb eqb m m' = true -> property_map_eqb eqb m' m = true.
Proof.
  intros Hnd Hnd' H Heq. pose proof (property_map_keys _ _ _ Hnd Heq) as Hkeys.
  apply property_map_eqb_spec in Heq as [Hl Hm]. apply property_map_eqb_spec. split; [done|].
  intros k p' Hin. assert (k ∈ map fst m) as Hk by (apply Hkeys; by apply (list_elem_of_fmap_2 fst) in Hin).
  apply list_elem_of_fmap in Hk as ([k' p] & -> & Hp). exists p. split; [by apply property_get_unique|].
  destruct (Hm k' p Hp) as (q & Hq & Heq). simpl in Hin. rewrite (property_get_unique _ _ _ Hnd' Hin) in Hq.
  injection Hq as <-. apply property_eqb_spec in Heq as (He & ? & ? & ? & ? & ?).
  apply property_eqb_spec. split_and!; try congruence.
  apply H; [by eapply in_property_types|by eapply in_property_types|done].
Qed.

Lemma property_map_eqb_trans m m' m'' :
  (forall x y z, x ∈ property_types m -> y ∈ property_types m' -> z ∈ property_types m'' ->
     eqb x y = true -> eqb y z = true -> eqb x z = true) ->
  property_map_eqb eqb m m' = true -> property_map_eqb eqb m' m'' = true -> property_map_eqb eqb m m'' = true.
Proof.
  rewrite !property_map_eqb_spec. intros H [Hl Hm] [Hl' Hm']. split; [congruence|].
  intros k p Hin. destruct (Hm k p Hin) as (p' & Hget & Heq). apply property_get_In in Hget as Hin'.
  destruct (Hm' k p' Hin') as (p'' & Hget' & Heq'). apply property_get_In in Hget' as Hin''.
  exists p''. split; [done|].
  apply property_eqb_spec in Heq as (He & ? & ? & ? & ? & ?). apply property_eqb_spec in Heq' as (He' & ? & ? & ? & ? & ?).
  apply property_eqb_spec. split_and!; try congruence.
  eapply H; [..|exact He|exact He']; by eapply in_property_types.
Qed.
End payloads.

Lemma memberless_iff {T} (o : ObjectType T) :
  is_memberless_intersection o = true <->
  is_intersection o = true /\ properties o = [] /\ string_index_type o = None /\ number_index_type o = None
  /\ is_Some (intersection_operands o).
Proof.
  unfold is_memberless_intersection. rewrite !andb_true_iff.
  destruct (properties o), (string_index_type o), (number_index_type o), (intersection_operands o); simpl;
    intuition (done || (exfalso; by eapply is_Some_None) || eauto).
Qed.

Section objects.
Context {T : Type} (eqb : T -> T -> bool).

Definition object_ok (o : ObjectType T) : Prop :=
  NoDup (map fst (properties o)) /\ (is_Some (intersection_operands o) -> is_intersection o = true).

Lemma object_eqb_refl o :
  object_ok o -> (forall x, x ∈ object_types o -> eqb x x = true) -> object_eqb eqb o o = true.
Proof.
  intros [Hnd _] H. apply object_eqb_spec.
  assert (forall s, (forall x, x ∈ signature_types s -> eqb x x = true) -> option_eqb (function_eqb eqb) s s = true) as Hs.
  { intros s Hs. apply option_eqb_refl. intros f Hf%opt_list_Some. apply function_eqb_refl. by subst. }
  split_and!; try done.
  - apply property_map_eqb_refl; [done|]. eauto with inside.
  - apply option_eqb_refl. eauto with inside.
  - apply option_eqb_refl. eauto with inside.
  - apply Hs. eauto with inside.
  - apply Hs. eauto with inside.
  - intros _. split; [|done]. apply option_eqb_refl. intros l Hl. apply list_eqb_refl. eauto with inside.
Qed.

(** Among equal objects, being an intersection without members is a matter of
    the operands. *)
Lemma memberless_transfer o p :
  object_ok p -> object_eqb eqb o p = true -> is_memberless_intersection o = true ->
  is_memberless_intersection p = true.
Proof.
  intros [_ Hok] Heq Ho. apply object_eqb_spec in Heq as (Hm & Hs & Hn & _ & _ & _ & _ & Hops).
  destruct (Hops (or_introl Ho)) as [Hops' _]. apply memberless_iff in Ho as (_ & Hp & Hsi & Hni & [l Hl]).
  rewrite Hp in Hm. rewrite Hsi in Hs. rewrite Hni in Hn. rewrite Hl in Hops'. apply memberless_iff.
  destruct (intersection_operands p) as [l'|] eqn:El; [|done].
  destruct (properties p); [|done]. destruct (string_index_type p); [done|]. destruct (number_index_type p); [done|].
  split_and!; try done. apply Hok. done.
Qed.

Lemma object_eqb_sym o p :
  object_ok o -> object_ok p ->
  (forall x y, x ∈ object_types o -> y ∈ object_types p -> eqb x y = eqb y x) ->
  object_eqb eqb o p = true -> object_eqb eqb p o = true.
Proof.
  intros [Hnd _] [Hnd' _] H. rewrite !object_eqb_spec. intros (Hm & Hs & Hn & ? & ? & Hc & Hca & Hops).
  assert (forall s s', (forall x y, x ∈ signature_types s -> y ∈ signature_types s' -> eqb x y = eqb y x) ->
     option_eqb (function_eqb eqb) s s' = option_eqb (function_eqb eqb) s' s) as Hsig.
  { intros s s' Hss. apply option_eqb_comm. intros f g -> ->. by apply function_eqb_comm. }
  split_and!; try congruence.
  - revert Hm. apply property_map_eqb_sym; [done..|]. intros x y Hx Hy. rewrite H; eauto with inside.
  - rewrite <- Hs. symmetry. apply option_eqb_comm. eauto with inside.
  - rewrite <- Hn. symmetry. apply option_eqb_comm. eauto with inside.
  - rewrite <- Hc. symmetry. apply Hsig. eauto with inside.
  - rewrite <- Hca. symmetry. apply Hsig. eauto with inside.
  - intros Hor. destruct Hops as [Hops Hnp]; [tauto|]. split; [|congruence]. rewrite <- Hops. symmetry.
    apply option_eqb_comm. intros l l' E E'. apply list_eqb_comm. eauto with inside.
Qed.

Lemma object_eqb_trans o p q :
  object_ok o -> object_ok p -> object_ok q ->
  (forall x y z, x ∈ object_types o -> y ∈ object_types p -> z ∈ object_types q ->
     eqb x y = true -> eqb y z = true -> eqb x z = true) ->
  (object_eqb eqb q p = true) ->
  object_eqb eqb o p = true -> object_eqb eqb p q = true -> object_eqb eqb o q = true.
Proof.
  intros Ho Hp Hq H Hqp Hop Hpq.
  assert (is_memberless_intersection o = true \/ is_memberless_intersection q = true ->
          is_memberless_intersection p = true) as Hmem.
  { intros [Hm|Hm]; [by apply (memberless_transfer o p)|by apply (memberless_transfer q p)]. }
  apply object_eqb_spec in Hop as (Hm & Hs & Hn & ? & ? & Hc & Hca & Hops).
  apply object_eqb_spec in Hpq as (Hm' & Hs' & Hn' & ? & ? & Hc' & Hca' & Hops').
  assert (forall s s' s'', (forall x y z, x ∈ signature_types s -> y ∈ signature_types s' -> z ∈ signature_types s'' ->
       eqb x y = true -> eqb y z = true -> eqb x z = true) ->
     option_eqb (function_eqb eqb) s s' = true -> option_eqb (function_eqb eqb) s' s'' = true ->
     option_eqb (function_eqb eqb) s s'' = true) as Hsig.
  { intros s s' s'' Hss. apply option_eqb_trans. intros f g h -> -> ->. by apply function_eqb_trans. }
  apply object_eqb_spec. split_and!; try congruence.
  - eapply property_map_eqb_trans; [|exact Hm|exact Hm']. intros x y z ???. apply (H x y z); auto with inside.
  - eapply option_eqb_trans; [|exact Hs|exact Hs']. intros x y z ???. apply (H x y z); auto with inside.
  - eapply option_eqb_trans; [|exact Hn|exact Hn']. intros x y z ???. apply (H x y z); auto with inside.
  - eapply Hsig; [|exact Hc|exact Hc']. intros x y z ???. apply (H x y z); auto with inside.
  - eapply Hsig; [|exact Hca|exact Hca']. intros x y z ???. apply (H x y z); auto with inside.
  - intros Hor. specialize (Hmem Hor). destruct Hops as [Hops ?], Hops' as [Hops' ?]; [tauto..|].
    split; [|congruence]. eapply option_eqb_trans; [|exact Hops|exact Hops'].
    intros l l' l'' E E' E''. apply list_eqb_trans. eauto with inside.
Qed.
End objects.

Lemma node_object_ok o : wf (Object o) -> object_ok o.
Proof. apply wf_node. Qed.

Lemma type_eqb_refl a : wf a -> (a == a) = true.
Proof.
  induction a as [a IH] using ty_ind. intros Hwf.
  assert (forall x, x ∈ children a -> type_eqb x x = true) as H by (intros x Hx; apply IH; eauto using wf_child).
  destruct a; cbn [type_eqb children] in *; try done.
  - by rewrite str_eqb_refl, Z.eqb_refl.
  - apply str_eqb_refl.
  - apply str_eqb_refl.
  - by apply eqb_true_iff.
  - by apply function_eqb_refl.
  - apply object_eqb_refl; [by apply node_object_ok|done].
  - eauto with inside.
  - by apply list_eqb_refl.
  - unfold open_tuple_eqb. rewrite !list_eqb_refl, H by eauto with inside. done.
  - unfold union_eqb. rewrite list_eqb_refl by done. by apply opt_Z_eqb_eq.
  - unfold nominal_eq. by rewrite str_eqb_refl, list_eqb_refl.
Qed.

Lemma type_eqb_sym a b : wf a -> wf b -> (a == b) = (b == a).
Proof.
  revert b. induction a as [a IH] using ty_ind. intros b Ha Hb.
  assert (forall x y, x ∈ children a -> y ∈ children b -> (x == y) = (y == x)) as H
    by (intros x y Hx Hy; apply IH; eauto using wf_child).
  destruct a, b; cbn [type_eqb children] in *; try done.
  - by rewrite str_eqb_sym, Z.eqb_sym.
  - apply str_eqb_sym.
  - apply str_eqb_sym.
  - by destruct value, value0.
  - by apply function_eqb_comm.
  - apply node_object_ok in Ha, Hb. apply eq_true_iff_eq.
    split; apply object_eqb_sym; try done. intros x y Hx Hy. symmetry. by apply H.
  - eauto with inside.
  - by apply list_eqb_comm.
  - unfold open_tuple_eqb. rewrite (H (rest t) (rest t0)), (list_eqb_comm _ (leading t)), (list_eqb_comm _ (trailing t));
      eauto with inside.
  - unfold union_eqb. rewrite list_eqb_comm by done. f_equal. apply eq_true_iff_eq. rewrite !opt_Z_eqb_eq. done.
  - unfold nominal_eq. by rewrite str_eqb_sym, list_eqb_comm.
Qed.

Lemma type_eqb_trans a b c : wf a -> wf b -> wf c -> (a == b) = true -> (b == c) = true -> (a == c) = true.
Proof.
  revert b c. induction a as [a IH] using ty_ind. intros b c Ha Hb Hc.
  assert (forall x y z, x ∈ children a -> y ∈ children b -> z ∈ children c ->
     (x == y) = true -> (y == z) = true -> (x == z) = true) as H
    by (intros x y z Hx Hy Hz; apply IH; eauto using wf_child).
  destruct a, b; try done; destruct c; cbn [type_eqb children] in *; try done.
  - rewrite !andb_true_iff, !str_eqb_spec, !Z.eqb_eq. intuition congruence.
  - rewrite !str_eqb_spec. congruence.
  - rewrite !str_eqb_spec. congruence.
  - rewrite !eqb_true_iff. congruence.
  - by apply function_eqb_trans.
  - intros H1 H2. apply node_object_ok in Ha as Hao, Hb as Hbo, Hc as Hco.
    assert (object_eqb type_eqb o1 o0 = true) as H3 by (change ((Object o1 == Object o0) = true); by rewrite type_eqb_sym).
    revert H1 H2. by apply object_eqb_trans.
  - eauto with inside.
  - by apply list_eqb_trans.
  - unfold open_tuple_eqb. rewrite !andb_true_iff. intros [[? ?] ?] [[? ?] ?]. split_and!.
    + eapply list_eqb_trans; [|done|done]. intros x y z ???. apply (H x y z); auto with inside.
    + apply (H (rest t) (rest t0) (rest t1)); auto with inside.
    + eapply list_eqb_trans; [|done|done]. intros x y z ???. apply (H x y z); auto with inside.
  - unfold union_eqb. rewrite !andb_true_iff, !opt_Z_eqb_eq. intros [? ?] [? ?]. split; [by eapply list_eqb_trans|congruence].
  - unfold nominal_eq. rewrite !andb_true_iff, !str_eqb_spec. intros [? ?] [? ?]. split; [congruence|by eapply list_eqb_trans].
Qed.

(** C12 Type equality is an equivalence relation on well-formed types. *)
Theorem type_eqb_equivalence a b c :
  wf a -> wf b -> wf c ->
  (a == a) = true /\ (a == b) = (b == a) /\ ((a == b) = true -> (b == c) = true -> (a == c) = true).
Proof. intros. split_and!; [by apply type_eqb_refl|by apply type_eqb_sym|by apply type_eqb_trans]. Qed.

(** The objects [{ a: string, b?: [T] }] in the two orders of their members. *)
Definition sample_object (reversed : bool) : ty :=
  let p := (lit "a", required String) in
  let q := (lit "b", mkProperty _ (Tuple [TypeParameter (lit "T") 0]) true false false None false) in
  Object (object_new (if reversed then [q; p] else [p; q]) None).

Lemma sample_object_wf reversed : wf (sample_object reversed).
Proof.
  destruct reversed; constructor; simpl.
  all: try (split; [apply NoDup_ListNoDup; repeat constructor; simpl; intuition discriminate|by intros [? ?]]).
  all: repeat first [constructor; simpl | done].
Qed.

Lemma type_eqb_equivalence_witness :
  (sample_object false == sample_object true) = true
  /\ (sample_object false == sample_object true) = (sample_object true == sample_object false).
Proof.
  split; [done|].
  apply (type_eqb_equivalence (sample_object false) (sample_object true) Never); try apply sample_object_wf.
  by repeat constructor.
Defined.

(** The invariant is needed: operands on an object not marked as an
    intersection make the equality intransitive. *)
Example unmarked_operands_intransitive :
  let plain := Object (object_new [] None) in
  let operands := with_intersection_operands [TypeParameter (lit "T") 1] (object_new [] None) in
  let unmarked := Object operands in
  let marked := Object (with_intersection_marker operands) in
  (plain == unmarked) = true /\ (unmarked == marked) = true /\ (plain == marked) = false.
Proof. done. Qed.
