(* ===== verification/TypeDigest.v ===== *)
(** * Structural digests of types

    The hasher of [surge-ts-types/src/fx.rs] and the two digests of
    [union.rs]: [dedup_key], the bucket key of the hashed deduplication, and
    [type_conflict_digest], the key of the speculative conflict tracking. Equal
    types have equal digests.

    A [Hash] implementation of the standard library feeds the hasher as it
    documents: a [str] its bytes and then 0xff, a [bool] one byte, a length one
    word, an enum's discriminant one word, an [Option] its discriminant and then
    its content. *)

From S2P Require Import Prelude TypeModel.

Local Open Scope Z_scope.

(** ** The hasher *)

Definition word (x : Z) : Z := x mod 2 ^ 64.
Definition wrapping_add (a b : Z) : Z := word (a + b).
Definition wrapping_mul (a b : Z) : Z := word (a * b).
Definition rotate_left (a n : Z) : Z := word (Z.lor (Z.shiftl a n) (Z.shiftr a (64 - n))).

Definition SEED : Z := 0x517cc1b727220a95.

Definition add_to_hash (hash word : Z) : Z := wrapping_mul (Z.lxor (rotate_left hash 5) word) SEED.

(** [from_le_bytes]. *)
Fixpoint from_le_bytes (bytes : str) : Z :=
  match bytes with
  | [] => 0
  | b :: bytes => b + 256 * from_le_bytes bytes
  end.

(** The tail of [write], less than eight bytes. *)
Definition write_tail (hash : Z) (bytes : str) : Z :=
  let '(hash, bytes) :=
    if (4 <=? length bytes)%nat then (add_to_hash hash (from_le_bytes (take 4 bytes)), drop 4 bytes)
    else (hash, bytes) in
  let '(hash, bytes) :=
    if (2 <=? length bytes)%nat then (add_to_hash hash (from_le_bytes (take 2 bytes)), drop 2 bytes)
    else (hash, bytes) in
  match bytes with
  | byte :: _ => add_to_hash hash byte
  | [] => hash
  end.

(** [write]: each round of its loop takes eight bytes. *)
Fixpoint write_fuel (fuel : nat) (hash : Z) (bytes : str) : Z :=
  match fuel with
  | S fuel =>
      if (8 <=? length bytes)%nat
      then write_fuel fuel (add_to_hash hash (from_le_bytes (take 8 bytes))) (drop 8 bytes)
      else write_tail hash bytes
  | O => write_tail hash bytes
  end.
Definition write (hash : Z) (bytes : str) : Z := write_fuel (length bytes) hash bytes.

Definition hash_u8 (value hash : Z) : Z := add_to_hash hash value.
Definition hash_u64 (value hash : Z) : Z := add_to_hash hash value.
Definition hash_usize (value : nat) (hash : Z) : Z := add_to_hash hash (word (Z.of_nat value)).
Definition hash_bool (value : bool) (hash : Z) : Z := hash_u8 (Z.b2z value) hash.
Definition hash_str (value : str) (hash : Z) : Z := hash_u8 0xff (write hash value).
Definition hash_option (value : option Z) (hash : Z) : Z :=
  match value with
  | None => add_to_hash hash 0
  | Some id => hash_u64 id (add_to_hash hash 1)
  end.

(** ** The keys *)

(** The discriminants of [Type]. *)
Definition discriminant (t : ty) : Z :=
  match t with
  | String => 0 | Number => 1 | Boolean => 2 | BigInt => 3 | Symbol => 4 | Undefined => 5 | Null => 6 | Void => 7
  | Any => 8 | Unknown => 9 | GenuineUnknown => 10 | ErrorType => 11 | TypeParameter _ _ => 12 | Never => 13
  | StringLiteral _ => 14 | NumberLiteral _ => 15 | BooleanLiteral _ => 16 | Function_ _ => 17 | Object _ => 18
  | Array _ => 19 | Tuple _ => 20 | OpenTuple _ => 21 | Union _ => 22 | Reference _ => 23
  end.

(** A list hashed in order, over any state of the walk. *)
Definition hash_all {T S} (key : T -> S -> S) : list T -> S -> S :=
  fix go l s := match l with [] => s | x :: l => go l (key x s) end.

(** An optional index signature. *)
Definition hash_index {T S} (byte : Z -> S -> S) (key : T -> S -> S) (o : option T) (s : S) : S :=
  match o with
  | Some index => key index (byte 1 s)
  | None => byte 0 s
  end.

(** The properties, each under a fresh hasher, summed. *)
Definition property_hasher {T} (name : str) (p : ObjectProperty T) : Z := hash_bool (optional p) (hash_str name 0).
Definition hash_properties {T} (key : T -> Z -> Z) (m : PropertyMap T) : Z :=
  fold_left wrapping_add (map (fun '(name, p) => key (prop_ty p) (property_hasher name p)) m) 0.

Fixpoint dedup_key_into (t : ty) (depth : nat) (hash : Z) {struct t} : Z :=
  let hash := add_to_hash hash (discriminant t) in
  if (3 <=? depth)%nat then hash else
  let key t := dedup_key_into t (S depth) in
  match t with
  | StringLiteral value => hash_str value hash
  | NumberLiteral value => hash_str value hash
  | BooleanLiteral value => hash_bool value hash
  | Reference r => hash_all key (arguments r) (hash_usize (length (arguments r)) (hash_str (ref_id r) hash))
  | Array element => key element hash
  | OpenTuple t =>
      let hash := hash_usize (length (trailing t)) (hash_usize (length (leading t)) hash) in
      key (rest t) (hash_all key (trailing t) (hash_all key (leading t) hash))
  | Tuple elements => hash_all key elements (hash_usize (length elements) hash)
  | Union u => hash_all key (types u) (hash_usize (length (types u)) hash)
  | Object o =>
      let hash := hash_u64 (hash_properties key (properties o)) (hash_usize (length (properties o)) hash) in
      hash_index hash_u8 key (string_index_type o) (hash_index hash_u8 key (number_index_type o) hash)
  | Function_ f =>
      let hash := hash_usize (length (parameters f)) hash in
      let hash := hash_usize (required_parameter_count f) (hash_bool (is_variadic f) hash) in
      key (return_type f) (hash_all key (parameters f) hash)
  | _ => hash
  end.

Definition dedup_key (t : ty) : Z := dedup_key_into t 0 0.

(** The finer digest threads a budget of nodes with the hash. *)
Definition FINE_KEY_NODE_BUDGET : nat := 64.
Definition FINE_KEY_MAX_DEPTH : nat := 8.
Definition FINE_KEY_PROPERTY_BUDGET : nat := 32.

Definition budgeted (f : Z -> Z) : Z * nat -> Z * nat := fun '(hash, budget) => (f hash, budget).

Definition fine_u8 (value : Z) : Z * nat -> Z * nat := budgeted (hash_u8 value).

Fixpoint fine_key_into (t : ty) (depth : nat) (s : Z * nat) {struct t} : Z * nat :=
  let '(hash, budget) := s in
  let hash := add_to_hash hash (discriminant t) in
  if (FINE_KEY_MAX_DEPTH <=? depth)%nat || (budget =? 0)%nat then (hash, budget) else
  let budget := (budget - 1)%nat in
  let key t := fine_key_into t (S depth) in
  match t with
  | StringLiteral value => (hash_str value hash, budget)
  | NumberLiteral value => (hash_str value hash, budget)
  | BooleanLiteral value => (hash_bool value hash, budget)
  | Reference r => hash_all key (arguments r) (hash_usize (length (arguments r)) (hash_str (ref_id r) hash), budget)
  | Array element => key element (hash, budget)
  | Tuple elements => hash_all key elements (hash_usize (length elements) hash, budget)
  | Union u => hash_all key (types u) (hash_usize (length (types u)) (hash_option (list_id u) hash), budget)
  | Object o =>
      let hash := hash_u64 (hash_properties (fun t hash => fst (key t (hash, FINE_KEY_PROPERTY_BUDGET))) (properties o))
                     (hash_usize (length (properties o)) hash) in
      hash_index fine_u8 key (string_index_type o) (hash_index fine_u8 key (number_index_type o) (hash, budget))
  | Function_ f =>
      let hash := hash_usize (length (parameters f)) (hash_option (parameter_list_id f) hash) in
      let s := key (return_type f) (hash_all key (parameters f) (hash, budget)) in
      budgeted (fun hash => hash_usize (required_parameter_count f) (hash_bool (is_variadic f) hash)) s
  | _ => (hash, budget)
  end.

Definition type_conflict_digest (t : ty) : Z := fst (fine_key_into t 0 (0, FINE_KEY_NODE_BUDGET)).

Example keys_of_samples :
  dedup_key (sample_object false) = dedup_key (sample_object true)
  /\ dedup_key (sample_object false) <> dedup_key (Object (object_new [] None)).
Proof. vm_compute. split; congruence. Qed.

(** ** Equal types have equal digests *)

Section consistency.
Context {T S : Type} (eqb : T -> T -> bool) (key : T -> S -> S).

Lemma hash_all_eq l l' s :
  (forall x y, x ∈ l -> y ∈ l' -> eqb x y = true -> forall s, key x s = key y s) ->
  list_eqb eqb l l' = true -> hash_all key l s = hash_all key l' s.
Proof.
  revert l' s; induction l as [|x l IH]; intros [|y l'] s H; try done. simpl. rewrite andb_true_iff. intros [Hx Hl].
  rewrite (H x y) by auto with inside. apply IH; [|done]. intros. apply H; auto with inside.
Qed.

Lemma list_eqb_length l l' : list_eqb eqb l l' = true -> length l = length l'.
Proof.
  revert l'; induction l as [|x l IH]; intros [|y l']; try done. simpl. rewrite andb_true_iff. intros [_ H].
  by rewrite (IH l').
Qed.

Lemma hash_index_eq (byte : Z -> S -> S) o o' s :
  (forall x y, o = Some x -> o' = Some y -> eqb x y = true -> forall s, key x s = key y s) ->
  option_eqb eqb o o' = true -> hash_index byte key o s = hash_index byte key o' s.
Proof. destruct o, o'; try done. intros H Heq. by apply H. Qed.
End consistency.

Lemma sum_word l acc : fold_left wrapping_add l acc = match l with [] => acc | _ => word (acc + foldr Z.add 0 l) end.
Proof.
  revert acc; induction l as [|x l IH]; intros acc; [done|]. cbn [fold_left foldr]. rewrite IH.
  unfold wrapping_add, word. destruct l; [simpl; f_equal; lia|]. rewrite Zplus_mod_idemp_l. f_equal. lia.
Qed.

Lemma sum_permutation l l' acc : Permutation l l' -> fold_left wrapping_add l acc = fold_left wrapping_add l' acc.
Proof.
  intros H. rewrite !sum_word. assert (foldr Z.add 0 l = foldr Z.add 0 l') as ->.
  { induction H; simpl; lia. }
  destruct l, l'; try done; by apply Permutation_length in H.
Qed.

(** Equal maps are the same entries, up to the equality of their properties and
    up to order. *)
Lemma hash_properties_eq {T} (eqb : T -> T -> bool) (key : T -> Z -> Z) m m' :
  NoDup (map fst m) -> NoDup (map fst m') ->
  (forall x y, x ∈ property_types m -> y ∈ property_types m' -> eqb x y = true -> forall h, key x h = key y h) ->
  property_map_eqb eqb m m' = true -> hash_properties key m = hash_properties key m'.
Proof.
  intros Hnd Hnd' H Heq. apply property_map_eqb_spec in Heq as [Hl Hm].
  set (c := fun '(name, p) => key (prop_ty p) (property_hasher name p)) in *.
  assert (Permutation (map (fun e => (fst e, c e)) m) (map (fun e => (fst e, c e)) m')) as Hperm.
  { apply NoDup_Permutation_bis; [|rewrite !length_map; lia|].
    - apply NoDup_ListNoDup, (NoDup_fmap_1 fst). rewrite map_map. done.
    - intros [k h] Hin%list_elem_of_In. apply list_elem_of_fmap in Hin as ([k' p] & E & Hin). injection E as -> ->.
      destruct (Hm k' p Hin) as (p' & Hget & Heq). apply property_get_In in Hget. apply list_elem_of_In.
      apply list_elem_of_fmap. exists (k', p'). split; [|done]. simpl. f_equal.
      apply property_eqb_spec in Heq as (He & Hopt & _). unfold property_hasher. rewrite Hopt.
      apply H; [by eapply in_property_types..|done]. }
  unfold hash_properties. fold c. apply (Permutation_map snd) in Hperm. rewrite !map_map in Hperm.
  apply sum_permutation. exact Hperm.
Qed.

Lemma dedup_key_eq t u :
  wf t -> wf u -> (t == u) = true -> forall depth hash, dedup_key_into t depth hash = dedup_key_into u depth hash.
Proof.
  revert u. induction t as [t IH] using ty_ind. intros u Ht Hu Heq depth hash.
  assert (forall x y, x ∈ children t -> y ∈ children u -> (x == y) = true ->
     forall h, dedup_key_into x (S depth) h = dedup_key_into y (S depth) h) as H
    by (intros x y Hx Hy ? h; apply IH; eauto using wf_child).
  destruct t, u; try done; cbn [dedup_key_into children discriminant] in *; (destruct (3 <=? depth)%nat; [done|]).
  - cbn [type_eqb] in Heq. apply str_eqb_spec in Heq as ->. done.
  - cbn [type_eqb] in Heq. apply str_eqb_spec in Heq as ->. done.
  - cbn [type_eqb] in Heq. apply eqb_true_iff in Heq as ->. done.
  - apply function_eqb_spec in Heq as (Hl & _ & Hr & -> & ->).
    rewrite (list_eqb_length _ _ _ Hl), (hash_all_eq type_eqb _ (parameters f) (parameters f0)) by eauto with inside.
    apply H; eauto with inside.
  - apply node_object_ok in Ht as [Hnd _], Hu as [Hnd' _].
    apply object_eqb_spec in Heq as (Hm & Hs & Hn & _). apply property_map_eqb_spec in Hm as Hm'.
    destruct Hm' as [-> _].
    rewrite (hash_properties_eq type_eqb _ (properties o) (properties o0)) by eauto with inside.
    rewrite (hash_index_eq type_eqb _ _ (number_index_type o) (number_index_type o0)) by eauto with inside.
    apply (hash_index_eq type_eqb); eauto with inside.
  - apply H; eauto with inside.
  - rewrite (list_eqb_length _ _ _ Heq). by apply (hash_all_eq type_eqb).
  - cbn [type_eqb] in Heq. unfold open_tuple_eqb in Heq. rewrite !andb_true_iff in Heq. destruct Heq as [[Hl Hr] Htr].
    rewrite (list_eqb_length _ _ _ Hl), (list_eqb_length _ _ _ Htr).
    rewrite (hash_all_eq type_eqb _ (leading t) (leading t0)) by eauto with inside.
    rewrite (hash_all_eq type_eqb _ (trailing t) (trailing t0)) by eauto with inside.
    apply H; eauto with inside.
  - cbn [type_eqb] in Heq. unfold union_eqb in Heq. apply andb_true_iff in Heq as [Heq _].
    rewrite (list_eqb_length _ _ _ Heq). by apply (hash_all_eq type_eqb).
  - cbn [type_eqb] in Heq. unfold nominal_eq in Heq. apply andb_true_iff in Heq as [Hid Heq].
    apply str_eqb_spec in Hid as ->. rewrite (list_eqb_length _ _ _ Heq). by apply (hash_all_eq type_eqb).
Qed.

Lemma fine_key_eq t u :
  wf t -> wf u -> (t == u) = true -> forall depth s, fine_key_into t depth s = fine_key_into u depth s.
Proof.
  revert u. induction t as [t IH] using ty_ind. intros u Ht Hu Heq depth [hash budget].
  assert (forall x y, x ∈ children t -> y ∈ children u -> (x == y) = true ->
     forall s, fine_key_into x (S depth) s = fine_key_into y (S depth) s) as H
    by (intros x y Hx Hy ? s; apply IH; eauto using wf_child).
  destruct t, u; try done; cbn [fine_key_into children discriminant] in *; (destruct (_ || _); [done|]).
  - cbn [type_eqb] in Heq. apply str_eqb_spec in Heq as ->. done.
  - cbn [type_eqb] in Heq. apply str_eqb_spec in Heq as ->. done.
  - cbn [type_eqb] in Heq. apply eqb_true_iff in Heq as ->. done.
  - apply function_eqb_spec in Heq as (Hl & -> & Hr & -> & ->).
    rewrite (list_eqb_length _ _ _ Hl), (hash_all_eq type_eqb _ (parameters f) (parameters f0)) by eauto with inside.
    f_equal. apply H; eauto with inside.
  - apply node_object_ok in Ht as [Hnd _], Hu as [Hnd' _].
    apply object_eqb_spec in Heq as (Hm & Hs & Hn & _). apply property_map_eqb_spec in Hm as Hm'.
    destruct Hm' as [-> _].
    rewrite (hash_properties_eq type_eqb _ (properties o) (properties o0)).
    2-3: done.
    2: { intros x y Hx Hy He h. by rewrite (H x y) by eauto with inside. }
    2: done.
    rewrite (hash_index_eq type_eqb _ _ (number_index_type o) (number_index_type o0)) by eauto with inside.
    apply (hash_index_eq type_eqb); eauto with inside.
  - apply H; eauto with inside.
  - rewrite (list_eqb_length _ _ _ Heq). by apply (hash_all_eq type_eqb).
  - cbn [type_eqb] in Heq. unfold union_eqb in Heq. apply andb_true_iff in Heq as [Heq Hid].
    apply opt_Z_eqb_eq in Hid as ->. rewrite (list_eqb_length _ _ _ Heq). by apply (hash_all_eq type_eqb).
  - cbn [type_eqb] in Heq. unfold nominal_eq in Heq. apply andb_true_iff in Heq as [Hid Heq].
    apply str_eqb_spec in Hid as ->. rewrite (list_eqb_length _ _ _ Heq). by apply (hash_all_eq type_eqb).
Qed.

(** C11 Equal types have the same deduplication key and the same conflict
    digest: neither key is finer than the equality of types, whatever the order
    of the properties. *)
Theorem digests_respect_equality t u :
  wf t -> wf u -> (t == u) = true ->
  dedup_key t = dedup_key u /\ type_conflict_digest t = type_conflict_digest u.
Proof.
  intros Ht Hu H. split; [by apply dedup_key_eq|]. unfold type_conflict_digest. by rewrite (fine_key_eq t u).
Qed.

Lemma digests_respect_equality_witness :
  dedup_key (sample_object false) = dedup_key (sample_object true)
  /\ type_conflict_digest (sample_object false) = type_conflict_digest (sample_object true).
Proof. apply (digests_respect_equality (sample_object false) (sample_object true)); [apply sample_object_wf..|done]. Defined.
