(* ===== verification/Union.v ===== *)
(** * Building union types ([surge-ts-types/src/union.rs])

    [union_type] with its passes: flattening, absorption, deduplication (the
    linear one and the hashed one), folding of the boolean literals, ordering of
    the tuples; [remove_undefined]; the member index of large unions. The
    program store a union is interned in is reached through the class
    [UnionStore]; the flag [strict_null_checks] of the thread is a parameter. *)

From stdpp Require Import gmap sorting.
From S2P Require Import Prelude TypeModel TypeDigest.

Local Open Scope Z_scope.

(** What the store answers for a member list: a canonical payload, or nothing
    when there is no store or the list is not canonicalizable. *)
Class UnionStore := {
  intern_union_borrowed : list ty -> option (UnionTypePayload ty);
  intern_union : list ty -> option (UnionTypePayload ty);
}.

(** The payload of a member list that is not interned. *)
Definition fresh_union (members : list ty) : UnionTypePayload ty := mkUnion _ members None.

(** The promise of the store on the members [P] allows: a canonical payload
    equals the list's own, and its members are such members. *)
Definition answers_list (P : ty -> Prop) (l : list ty) (u : UnionTypePayload ty) : Prop :=
  wf (Union u) /\ union_eqb type_eqb u (fresh_union l) = true /\ Forall P (types u).

Class UnionStoreLaws (P : ty -> Prop) (S : UnionStore) := {
  allowed_boolean : P Boolean;
  intern_borrowed_equal : forall l u, Forall wf l -> Forall P l -> intern_union_borrowed l = Some u -> answers_list P l u;
  intern_equal : forall l u, Forall wf l -> Forall P l -> intern_union l = Some u -> answers_list P l u;
}.

Definition no_store : UnionStore := {| intern_union_borrowed := fun _ => None; intern_union := fun _ => None |}.
#[export] Instance no_store_laws : UnionStoreLaws (fun _ => True) no_store.
Proof. by split. Qed.

(** ** The passes *)

Definition is_never (t : ty) : bool := match t with Never => true | _ => false end.
Definition is_any (t : ty) : bool := match t with Any => true | _ => false end.
Definition is_error_type (t : ty) : bool := match t with ErrorType => true | _ => false end.
Definition is_null_or_undefined (t : ty) : bool := match t with Null | Undefined => true | _ => false end.
Definition is_array (t : ty) : bool := match t with Array _ => true | _ => false end.
Definition is_boolean (t : ty) : bool := match t with Boolean => true | _ => false end.
Definition is_literal (b : bool) (t : ty) : bool := match t with BooleanLiteral v => Bool.eqb v b | _ => false end.
Definition is_boolean_like (t : ty) : bool := match t with BooleanLiteral _ | Boolean => true | _ => false end.
Definition is_tuple (t : ty) : bool := match t with Tuple _ | OpenTuple _ => true | _ => false end.

(** [Vec::retain]. *)
Definition retain (f : ty -> bool) (l : list ty) : list ty := filter (fun t => f t = true) l.

(** Unions are flattened one level: the members of a union are no unions. *)
Definition flatten (types_ : list ty) : list ty :=
  mbind (fun t => match t with Union u => types u | t => [t] end) types_.

Section passes.
Context (strict_null_checks : bool).

Definition is_empty_array (t : ty) : bool :=
  match t with
  | Array element => (element == Never) || (element == Undefined) && negb strict_null_checks
  | _ => false
  end.

Definition absorb_empty_array_members (members : list ty) : list ty :=
  if negb (existsb is_empty_array members) then members
  else if existsb (fun t => is_array t && negb (is_empty_array t)) members
       then retain (fun t => negb (is_empty_array t)) members
       else members.

Definition drop_nullish_members (members : list ty) : list ty :=
  if negb strict_null_checks && existsb (fun t => negb (is_null_or_undefined t)) members
  then retain (fun t => negb (is_null_or_undefined t)) members
  else members.
End passes.

(** The loop of [fold_boolean_literals]. *)
Fixpoint fold_booleans (placed : bool) (members : list ty) : list ty :=
  match members with
  | [] => []
  | t :: members =>
      if is_boolean_like t
      then if placed then fold_booleans placed members else Boolean :: fold_booleans true members
      else t :: fold_booleans placed members
  end.
Definition fold_boolean_literals (members : list ty) : list ty :=
  let has_true := existsb (is_literal true) members in
  let has_false := existsb (is_literal false) members in
  let has_boolean := existsb is_boolean members in
  if negb (has_boolean || has_true && has_false) then members else fold_booleans false members.

(** [sort_by_key], a stable sort, with the arity key compared
    lexicographically: an element goes before those that follow it with an equal
    key. *)
Definition tuple_key (t : ty) : nat * nat :=
  match t with
  | Tuple elements => (length elements, 0)%nat
  | OpenTuple t => (length (leading t) + length (trailing t), 1)%nat
  | _ => (0, 0)%nat
  end.
Definition key_le (a b : nat * nat) : bool :=
  (fst a <? fst b)%nat || (fst a =? fst b)%nat && (snd a <=? snd b)%nat.
Fixpoint insert_tuple (t : ty) (l : list ty) : list ty :=
  match l with
  | [] => [t]
  | u :: l => if key_le (tuple_key t) (tuple_key u) then t :: u :: l else u :: insert_tuple t l
  end.
Definition sort_tuples (l : list ty) : list ty := foldr insert_tuple [] l.

Definition order_tuple_members (members : list ty) : list ty :=
  if (length (retain is_tuple members) <? 2)%nat && negb (existsb is_tuple members) then members
  else retain (fun t => negb (is_tuple t)) members ++ sort_tuples (retain is_tuple members).

(** ** Deduplication *)

Definition LINEAR_DEDUP_LIMIT : nat := 16.

(** One round of the linear loop. *)
Definition push_unique (unique : list ty) (t : ty) : list ty :=
  if existsb (fun existing => existing == t) unique then unique else unique ++ [t].
Definition linear_dedup (flattened : list ty) : list ty := fold_left push_unique flattened [].

(** A bucket: the first index with its key, and the overflow. *)
Abbreviation Buckets := (gmap Z (nat * list nat)).

(** [unique[*first] == ty || overflow.iter().any(..)]: an index out of range
    panics. *)
Fixpoint any_equal (unique : list ty) (t : ty) (indices : list nat) : result bool :=
  match indices with
  | [] => Ok false
  | i :: indices =>
      existing ← unwrap (unique !! i);
      if existing == t then Ok true else any_equal unique t indices
  end.

Definition hashed_round (state : Buckets * list ty) (t : ty) : result (Buckets * list ty) :=
  let '(buckets, unique) := state in
  let key := dedup_key t in
  match buckets !! key with
  | None => Ok (<[key := (length unique, [])]> buckets, unique ++ [t])
  | Some (first, overflow) =>
      found ← any_equal unique t (first :: overflow);
      if found : bool then Ok (buckets, unique)
      else Ok (<[key := (first, overflow ++ [length unique])]> buckets, unique ++ [t])
  end.
Fixpoint hashed_dedup (state : Buckets * list ty) (flattened : list ty) : result (list ty) :=
  match flattened with
  | [] => Ok (snd state)
  | t :: flattened => state ← hashed_round state t; hashed_dedup state flattened
  end.

Definition dedup_members (flattened : list ty) : result (list ty) :=
  if (length flattened <=? LINEAR_DEDUP_LIMIT)%nat then Ok (linear_dedup flattened)
  else hashed_dedup (∅, []) flattened.

(** ** [union_type] *)

Definition union_new `{UnionStore} (members : list ty) : UnionTypePayload ty :=
  match intern_union members with Some u => u | None => fresh_union members end.

Definition from_borrowed_members `{UnionStore} (members : list ty) : UnionTypePayload ty :=
  match intern_union_borrowed members with Some u => u | None => union_new members end.

Section union_type.
Context (strict_null_checks : bool).

Definition union_type `{UnionStore} (types : list ty) : result ty :=
  let flattened := flatten types in
  if existsb is_error_type flattened then Ok ErrorType
  else if existsb is_any flattened then Ok Any
  else
    let had_members := negb (match flattened with [] => true | _ => false end) in
    let flattened := retain (fun t => negb (is_never t)) flattened in
    let flattened := absorb_empty_array_members strict_null_checks flattened in
    let flattened := drop_nullish_members strict_null_checks flattened in
    unique ← dedup_members flattened;
    let unique := order_tuple_members (fold_boolean_literals unique) in
    Ok (match unique with
        | [] => if had_members then Never else Unknown
        | [t] => t
        | _ => Union (from_borrowed_members unique)
        end).
End union_type.

Definition remove_undefined `{UnionStore} (strict : bool) (t : ty) : result ty :=
  match t with
  | Union u => union_type strict (retain (fun t => negb (t == Undefined)) (types u))
  | Undefined => Ok Unknown
  | _ => Ok t
  end.

(** ** The index of a large union's members *)

Record UnionMemberIndex := mkIndex { members : list ty; buckets : Buckets }.

Definition index_round (i : nat) (buckets : Buckets) (member : ty) : Buckets :=
  let key := dedup_key member in
  match buckets !! key with
  | None => <[key := (i, [])]> buckets
  | Some (first, overflow) => <[key := (first, overflow ++ [i])]> buckets
  end.
Fixpoint index_members (i : nat) (buckets : Buckets) (members : list ty) : Buckets :=
  match members with
  | [] => buckets
  | member :: members => index_members (S i) (index_round i buckets member) members
  end.

Definition for_large (members : list ty) : option UnionMemberIndex :=
  if (length members <=? LINEAR_DEDUP_LIMIT)%nat then None
  else Some (mkIndex members (index_members 0 ∅ members)).

Definition index_contains (index : UnionMemberIndex) (t : ty) : result bool :=
  match buckets index !! dedup_key t with
  | Some (first, overflow) => any_equal (members index) t (first :: overflow)
  | None => Ok false
  end.

(** ** The unit tests of the source *)

Section unit_tests.
#[local] Existing Instance no_store.
Local Abbreviation s text := (StringLiteral (lit text)).
Local Abbreviation union l := (Ok (Union (fresh_union l))).

Example union_unit_tests :
  union_type true [] = Ok Unknown
  /\ union_type true [Never; Never] = Ok Never
  /\ union_type true [s "b"; Never] = Ok (s "b")
  /\ union_type true [s "ok"; Any] = Ok Any
  /\ union_type true [BooleanLiteral true; Boolean] = Ok Boolean
  /\ union_type true [NumberLiteral (lit "1"); NumberLiteral (lit "1")] = Ok (NumberLiteral (lit "1"))
  /\ union_type true [s "idle"; String] = union [s "idle"; String]
  /\ union_type true [Tuple [Number; Number; Number]; Object (object_new [] None); Tuple []; Tuple [Number]]
     = union [Object (object_new [] None); Tuple []; Tuple [Number]; Tuple [Number; Number; Number]]
  /\ union_type false [String; Undefined; Array Undefined; Array String] = union [String; Array String].
Proof. vm_compute. by split_and!. Qed.

(** Forty literals doubled take the hashed path. *)
Example large_union_dedup_matches_linear_semantics :
  let members := map (fun i => StringLiteral (lit "member-" ++ render 10 (Z.of_nat i))) (seq 0 40) in
  union_type true (members ++ members) = union members.
Proof. vm_compute. done. Qed.
End unit_tests.
