(* ===== verification/TypeStore.v ===== *)
(** * Interning unions ([surge-ts-types/src/store.rs])

    The union part of [ProgramTypeStore]: the fingerprint of a member list, the
    comparison of canonical types, and the interner with its weak entries.

    Allocations and resolvers are not part of the types here: the class [Heap]
    answers which property maps and which signatures are one allocation, and
    what the resolver of a reference says of itself. *)

From stdpp Require Import gmap.
From S2P Require Import Prelude TypeModel TypeDigest Union.

Local Open Scope Z_scope.

Class Heap := {
  same_map : PropertyMap ty -> PropertyMap ty -> bool;
  map_address : PropertyMap ty -> Z;
  same_function : FunctionTypePayload ty -> FunctionTypePayload ty -> bool;
  function_address : FunctionTypePayload ty -> Z;
  canonicalizable : TypeReference ty -> bool;
  discriminator : TypeReference ty -> Z;
}.

(** One allocation has one content. *)
Class HeapLaws (H : Heap) := {
  same_map_equal : forall m m', same_map m m' = true -> property_map_eqb type_eqb m m' = true;
  same_function_equal : forall f g, same_function f g = true -> function_eqb type_eqb f g = true;
}.

(** ** Fingerprints *)

(** A walk that gives up, or answers a fingerprint and the remaining budget. *)
Definition fingerprint_list {T} (fingerprint : T -> nat -> option (Z * nat)) : list T -> Z -> nat -> option (Z * nat) :=
  fix go l hash remaining :=
    match l with
    | [] => Some (hash, remaining)
    | t :: l => '(f, remaining) ← fingerprint t remaining; go l (hash_u64 f hash) remaining
    end.

(** [fingerprint_types]: a hasher of its own. *)
Definition fingerprint_types_with {T} (fingerprint : T -> nat -> option (Z * nat)) (l : list T) (remaining : nat)
    : option (Z * nat) :=
  fingerprint_list fingerprint l (hash_usize (length l) 0) remaining.

Section store.
Context `{Heap}.

Fixpoint fingerprint_type (t : ty) (depth remaining : nat) {struct t} : option (Z * nat) :=
  if (remaining =? 0)%nat || (16 <=? depth)%nat then None else
  let remaining := (remaining - 1)%nat in
  let one t := fingerprint_type t (S depth) in
  let all := fingerprint_types_with one in
  let hash := add_to_hash 0 (discriminant t) in
  match t with
  | Unknown | ErrorType | TypeParameter _ _ => None
  | StringLiteral value => Some (hash_str value hash, remaining)
  | NumberLiteral value => Some (hash_str value hash, remaining)
  | BooleanLiteral value => Some (hash_bool value hash, remaining)
  | Function_ f => Some (hash_u64 (function_address f) hash, remaining)
  | Object o =>
      let hash := hash_u64 (map_address (properties o)) hash in
      '(hash, remaining) ←
        match string_index_type o with
        | Some index => '(f, remaining) ← one index remaining; Some (hash_u64 f hash, remaining)
        | None => Some (hash_u8 0 hash, remaining)
        end;
      let hash := hash_option (function_address <$> call_signature o) hash in
      Some (hash_option (function_address <$> construct_signature o) hash, remaining)
  | Array element => '(f, remaining) ← one element remaining; Some (hash_u64 f hash, remaining)
  | Tuple elements => '(f, remaining) ← all elements remaining; Some (hash_u64 f hash, remaining)
  | OpenTuple t =>
      '(f, remaining) ← all (leading t) remaining;
      let hash := hash_u64 f hash in
      '(f, remaining) ← one (rest t) remaining;
      let hash := hash_u64 f hash in
      '(f, remaining) ← all (trailing t) remaining;
      Some (hash_u64 f hash, remaining)
  | Union u => '(f, remaining) ← all (types u) remaining; Some (hash_u64 f hash, remaining)
  | Reference r =>
      if negb (canonicalizable r) then None else
      let hash := hash_u64 (discriminator r) (hash_str (ref_id r) hash) in
      '(f, remaining) ← all (arguments r) remaining; Some (hash_u64 f hash, remaining)
  | _ => Some (hash, remaining)
  end.

(** The key of a member list, with the default budget. *)
Definition fingerprint_types (l : list ty) : option Z :=
  fst <$> fingerprint_types_with (fun t => fingerprint_type t 0) l 128.

(** ** Comparing canonical types *)

Fixpoint canonical_types_equal (a b : ty) {struct a} : bool :=
  match a, b with
  | Reference r, Reference s =>
      (ref_id r =s ref_id s) && (display r =s display s) && (discriminator r =? discriminator s)
      && list_eqb canonical_types_equal (arguments r) (arguments s)
  | Array e, Array e' => canonical_types_equal e e'
  | Tuple es, Tuple es' => list_eqb canonical_types_equal es es'
  | Union u, Union v => list_eqb canonical_types_equal (types u) (types v)
  | Function_ f, Function_ g => same_function f g
  | Object o, Object p =>
      option_eqb str_eqb (alias_name o) (alias_name p)
      && option_eqb str_eqb (alias_id o) (alias_id p)
      && same_map (properties o) (properties p)
      && Bool.eqb (string_index_readonly o) (string_index_readonly p)
      && Bool.eqb (number_index_readonly o) (number_index_readonly p)
      && option_eqb canonical_types_equal (string_index_type o) (string_index_type p)
      && option_eqb same_function (call_signature o) (call_signature p)
      && option_eqb same_function (construct_signature o) (construct_signature p)
  | _, _ => a == b
  end.
Definition canonical_type_lists_equal : list ty -> list ty -> bool := list_eqb canonical_types_equal.

(** ** The interner *)

(** An entry holds its payload weakly: [None] once its last consumer is gone. *)
Record UnionEntry := mkEntry { entry_id : Z; entry_value : option (UnionTypePayload ty) }.

(** One of the shards, with the size its next sweep is due at. *)
Record Shard := mkShard { buckets_of : gmap Z (list UnionEntry); sweep_due : nat }.

Record ProgramTypeStore := mkStore { owner_id : Z; next_union : Z; unions : nat -> Shard }.

Definition STORE_SHARDS : nat := 64.
Definition MIN_SWEEP_LEN : nat := 1024.
Definition shard_index (key : Z) : nat := Z.to_nat (Z.land key 63).

(** [UnionTypeId::new]. *)
Definition union_type_id (owner index : Z) : Z := Z.lor (Z.shiftl owner 32) index.

(** The [retain] over a bucket: the first live entry the list equals, and the
    entries that stay. *)
Fixpoint scan_bucket (l : list ty) (bucket : list UnionEntry)
    : option (UnionTypePayload ty * Z) * list UnionEntry :=
  match bucket with
  | [] => (None, [])
  | entry :: bucket =>
      match entry_value entry with
      | None => scan_bucket l bucket
      | Some existing =>
          if canonical_type_lists_equal (types existing) l
          then (Some (existing, entry_id entry), entry :: bucket)
          else let '(hit, bucket) := scan_bucket l bucket in (hit, entry :: bucket)
      end
  end.

Definition is_live (entry : UnionEntry) : bool := match entry_value entry with Some _ => true | None => false end.

Definition sweep_if_due (shard : Shard) : Shard :=
  if (base.size (buckets_of shard) <? sweep_due shard)%nat then shard
  else
    let swept := omap (fun bucket =>
      match filter (fun entry => is_live entry = true) bucket with [] => None | bucket => Some bucket end) (buckets_of shard) in
    mkShard swept (Nat.max (base.size swept * 2) MIN_SWEEP_LEN).

Definition set_shard (s : ProgramTypeStore) (i : nat) (shard : Shard) (next : Z) : ProgramTypeStore :=
  mkStore (owner_id s) next (fun j => if (j =? i)%nat then shard else unions s j).
Definition set_bucket (shard : Shard) (key : Z) (bucket : list UnionEntry) : Shard :=
  mkShard (<[key := bucket]> (buckets_of shard)) (sweep_due shard).

(** The lookup both ways of interning begin with. *)
Definition find_union (l : list ty) (s : ProgramTypeStore) (key : Z)
    : option (UnionTypePayload ty * Z) * Shard :=
  let shard := unions s (shard_index key) in
  let '(hit, bucket) := scan_bucket l (default [] (buckets_of shard !! key)) in
  (hit, set_bucket shard key bucket).

Definition intern_union_borrowed (l : list ty) (s : ProgramTypeStore)
    : option (UnionTypePayload ty * Z) * ProgramTypeStore :=
  match fingerprint_types l with
  | None => (None, s)
  | Some key =>
      let '(hit, shard) := find_union l s key in
      (hit, set_shard s (shard_index key) shard (next_union s))
  end.

Definition intern_union (l : list ty) (s : ProgramTypeStore)
    : option (UnionTypePayload ty * Z) * ProgramTypeStore :=
  match fingerprint_types l with
  | None => (None, s)
  | Some key =>
      let '(hit, shard) := find_union l s key in
      match hit with
      | Some _ => (hit, set_shard s (shard_index key) shard (next_union s))
      | None =>
          let id := union_type_id (owner_id s) (next_union s) in
          let payload := fresh_union l in
          let bucket := default [] (buckets_of shard !! key) ++ [mkEntry id (Some payload)] in
          (Some (payload, id),
           set_shard s (shard_index key) (sweep_if_due (set_bucket shard key bucket)) (wrap_u32 (next_union s + 1)))
      end
  end.
End store.

(** ** The promise of the store *)

(** What [canonical_types_equal] does not compare and equality does is absent:
    number index signatures and intersection operands of objects, and the list
    ids of unions. *)
Definition node_comparable (t : ty) : Prop :=
  match t with
  | Object o => number_index_type o = None /\ intersection_operands o = None
  | Union u => list_id u = None
  | _ => True
  end.

#[local] Unset Elimination Schemes.
Inductive comparable (t : ty) : Prop :=
  comparable_intro : node_comparable t -> Forall comparable (children t) -> comparable t.
#[local] Set Elimination Schemes.

Lemma comparable_child c t : comparable t -> c ∈ children t -> comparable c.
Proof. intros [_ H] Hc. by eapply Forall_forall in H. Qed.

Section promise.
Context `{Laws : HeapLaws}.

Lemma list_eqb_mono {T} (f g : T -> T -> bool) l l' :
  (forall x y, x ∈ l -> y ∈ l' -> f x y = true -> g x y = true) -> list_eqb f l l' = true -> list_eqb g l l' = true.
Proof.
  revert l'; induction l as [|x l IH]; intros [|y l'] H0; try done. cbn [list_eqb]. rewrite !andb_true_iff.
  intros [Hx Hl]. split; [apply H0; auto with inside|]. apply IH; [|done]. intros. apply H0; auto with inside.
Qed.

Lemma option_eqb_mono {T} (f g : T -> T -> bool) o o' :
  (forall x y, o = Some x -> o' = Some y -> f x y = true -> g x y = true) ->
  option_eqb f o o' = true -> option_eqb g o o' = true.
Proof. destruct o, o'; try done. intros H0. by apply H0. Qed.

Lemma canonical_sound a b :
  comparable a -> comparable b -> canonical_types_equal a b = true -> (a == b) = true.
Proof.
  revert b. induction a as [a IH] using ty_ind. intros b Ha Hb.
  assert (forall x y, x ∈ children a -> y ∈ children b -> canonical_types_equal x y = true -> (x == y) = true) as H0
    by (intros x y Hx Hy; apply IH; eauto using comparable_child).
  destruct a, b; try done; cbn [canonical_types_equal type_eqb children] in *.
  - by apply same_function_equal.
  - rewrite !andb_true_iff, !eqb_true_iff. intros [[[[[[[_ _] Hm] Hs] Hn] Hi] Hca] Hco].
    destruct Ha as [[Ha1 Ha2] _], Hb as [[Hb1 Hb2] _].
    apply object_eqb_spec. split_and!.
    + by apply same_map_equal.
    + revert Hi. apply option_eqb_mono. intros x y E E'. apply H0; eauto with inside.
    + by rewrite Ha1, Hb1.
    + done.
    + done.
    + revert Hco. apply option_eqb_mono. intros f g _ _. apply same_function_equal.
    + revert Hca. apply option_eqb_mono. intros f g _ _. apply same_function_equal.
    + rewrite !memberless_iff, Ha2, Hb2. intros [(_ & _ & _ & _ & H1)|(_ & _ & _ & _ & H1)]; by apply is_Some_None in H1.
  - apply H0; auto with inside.
  - by apply list_eqb_mono.
  - intros Hl. unfold union_eqb. rewrite (list_eqb_mono canonical_types_equal type_eqb) by done.
    destruct Ha as [-> _], Hb as [-> _]. done.
  - unfold nominal_eq. rewrite !andb_true_iff. intros [[[Hid _] _] Hl]. split; [done|]. revert Hl. by apply list_eqb_mono.
Qed.

(** Every live payload is a comparable list, without a list id. *)
Definition entry_ok (entry : UnionEntry) : Prop :=
  forall u, entry_value entry = Some u -> wf (Union u) /\ comparable (Union u).
Definition shard_ok (shard : Shard) : Prop :=
  forall key bucket, buckets_of shard !! key = Some bucket -> Forall entry_ok bucket.
Definition store_ok (s : ProgramTypeStore) : Prop := forall i, shard_ok (unions s i).

Lemma scan_bucket_ok l bucket hit bucket' :
  Forall entry_ok bucket -> scan_bucket l bucket = (hit, bucket') ->
  Forall entry_ok bucket'
  /\ forall u id, hit = Some (u, id) ->
     wf (Union u) /\ comparable (Union u) /\ canonical_type_lists_equal (types u) l = true.
Proof.
  intros Hok. revert hit bucket'. induction Hok as [|entry bucket He Hok IH]; intros hit bucket' Hscan; simpl in Hscan.
  { by simplify_eq. }
  destruct (entry_value entry) as [existing|] eqn:E; [|by apply IH].
  destruct (canonical_type_lists_equal (types existing) l) eqn:Ec.
  - simplify_eq. split; [by constructor|]. intros u id [= <- <-]. by destruct (He _ E).
  - destruct (scan_bucket l bucket) as [hit' bucket''] eqn:Es. simplify_eq.
    destruct (IH _ _ eq_refl) as [H1 H2]. split; [by constructor|done].
Qed.

Lemma set_bucket_ok shard key bucket : shard_ok shard -> Forall entry_ok bucket -> shard_ok (set_bucket shard key bucket).
Proof.
  intros Hs Hb k b Hk. cbn [set_bucket buckets_of] in Hk. destruct (decide (key = k)) as [<-|Hne].
  - rewrite lookup_insert, decide_True in Hk by done. by simplify_eq.
  - rewrite lookup_insert_ne in Hk by done. by eapply Hs.
Qed.

Lemma set_shard_ok s i shard next : store_ok s -> shard_ok shard -> store_ok (set_shard s i shard next).
Proof. intros Hs Hsh j. cbn [set_shard unions]. case_split; [done|apply Hs]. Qed.

Lemma sweep_ok shard : shard_ok shard -> shard_ok (sweep_if_due shard).
Proof.
  intros Hs. unfold sweep_if_due. case_split; [done|]. intros key bucket Hb. cbn [buckets_of] in Hb.
  rewrite lookup_omap in Hb. destruct (buckets_of shard !! key) as [b|] eqn:E; [|done]. simpl in Hb.
  destruct (filter _ b) as [|e l] eqn:Ef; [done|]. simplify_eq. rewrite <- Ef.
  apply Forall_forall. intros x Hx. apply list_elem_of_filter in Hx as [_ Hx].
  specialize (Hs key b E). rewrite Forall_forall in Hs. by apply Hs.
Qed.

Lemma find_union_ok l s key hit shard :
  store_ok s -> find_union l s key = (hit, shard) ->
  shard_ok shard
  /\ forall u id, hit = Some (u, id) ->
     wf (Union u) /\ comparable (Union u) /\ canonical_type_lists_equal (types u) l = true.
Proof.
  intros Hs. unfold find_union. destruct (scan_bucket _ _) as [hit' bucket] eqn:E. intros [= <- <-].
  apply scan_bucket_ok in E as [H1 H2].
  - split; [|done]. apply set_bucket_ok; [apply Hs|done].
  - destruct (buckets_of (unions s (shard_index key)) !! key) eqn:Eb; [|constructor]. by eapply Hs.
Qed.

Lemma fresh_ok l : Forall wf l -> Forall comparable l -> wf (Union (fresh_union l)) /\ comparable (Union (fresh_union l)).
Proof. intros. split; by constructor. Qed.

Lemma hit_promise l u :
  Forall comparable l -> comparable (Union u) -> canonical_type_lists_equal (types u) l = true ->
  union_eqb type_eqb u (fresh_union l) = true.
Proof.
  intros Hl [Hid Hu] Hc. unfold union_eqb. cbn [types list_id fresh_union]. rewrite Hid.
  rewrite (list_eqb_mono canonical_types_equal type_eqb); [done| |done].
  rewrite Forall_forall in Hl. cbn [children] in Hu. rewrite Forall_forall in Hu. intros x y Hx Hy. apply canonical_sound; auto.
Qed.
(** Interning, with the members of the answers. *)
Lemma intern_union_ok l s :
  store_ok s -> Forall wf l -> Forall comparable l ->
  (let '(answer, s') := intern_union l s in
   store_ok s' /\ forall u id, answer = Some (u, id) -> answers_list comparable l u)
  /\ (let '(answer, s') := intern_union_borrowed l s in
      store_ok s' /\ forall u id, answer = Some (u, id) -> answers_list comparable l u).
Proof.
  intros Hs Hl Hc. unfold intern_union, intern_union_borrowed. destruct (fingerprint_types l) as [key|]; [|done].
  destruct (find_union l s key) as [hit shard] eqn:E. destruct (find_union_ok _ _ _ _ _ Hs E) as [Hshard Hhit].
  assert (forall u id, hit = Some (u, id) -> answers_list comparable l u) as Hans.
  { intros u id Hu. destruct (Hhit u id Hu) as (Hwf & Hcu & Hcan). split_and!; [done|by apply hit_promise|by destruct Hcu]. }
  split; [|by split; [apply set_shard_ok|]]. destruct hit as [[u id]|]; [by split; [apply set_shard_ok|]|].
  destruct (fresh_ok l Hl Hc) as [Hwf Hcomp]. split.
  - apply set_shard_ok; [done|]. apply sweep_ok, set_bucket_ok; [done|]. apply Forall_app. split.
    + destruct (buckets_of shard !! key) eqn:Eb; [|constructor]. by eapply Hshard.
    + apply Forall_singleton. by intros u [= <-].
  - intros u id [= <- <-]. split_and!; [done|by apply (type_eqb_refl (Union (fresh_union l)))|done].
Qed.

(** ** The store of a thread *)

(** The store as [union_type] sees it. *)
Definition store_at (s : ProgramTypeStore) : UnionStore := {|
  Union.intern_union_borrowed := fun l => fst <$> fst (intern_union_borrowed l s);
  Union.intern_union := fun l => fst <$> fst (intern_union l s);
|}.

(** [current_program_type_store]: a thread has a store or none. *)
Definition current_store (s : option ProgramTypeStore) : UnionStore :=
  match s with Some s => store_at s | None => no_store end.
Definition sound_store (s : option ProgramTypeStore) : Prop := match s with Some s => store_ok s | None => True end.

(** The stores discharge the interface unions are built against. *)
Lemma current_store_laws s : sound_store s -> UnionStoreLaws comparable (current_store s).
Proof.
  destruct s as [s|]; intros Hs; [|by repeat constructor]. split; [by repeat constructor|..]; intros l u Hl Hc Hu;
    destruct (intern_union_ok l s Hs Hl Hc) as [H1 H2]; cbn [current_store store_at Union.intern_union_borrowed Union.intern_union] in Hu.
  - destruct (intern_union_borrowed l s) as [[[u' id]|] s']; [|done]. injection Hu as <-. by eapply H2.
  - destruct (intern_union l s) as [[[u' id]|] s']; [|done]. injection Hu as <-. by eapply H1.
Qed.
End promise.

(** C10 Interning keeps the promise of the union store on comparable types:
    whatever fingerprints collide and whichever payloads died, an answer is a
    payload equal to the requested members, and the store stays one that
    does. *)
Theorem intern_union_promise `{Laws : HeapLaws} l s :
  store_ok s -> Forall wf l -> Forall comparable l ->
  (let '(answer, s') := intern_union l s in
   store_ok s' /\ forall u id, answer = Some (u, id) -> wf (Union u) /\ union_eqb type_eqb u (fresh_union l) = true)
  /\ (let '(answer, s') := intern_union_borrowed l s in
      store_ok s' /\ forall u id, answer = Some (u, id) -> wf (Union u) /\ union_eqb type_eqb u (fresh_union l) = true).
Proof.
  intros Hs Hl Hc. destruct (intern_union_ok l s Hs Hl Hc) as [H1 H2]. split.
  - destruct (intern_union l s) as [answer s']. destruct H1 as [? H1]. split; [done|].
    intros u id Hu. by destruct (H1 u id Hu) as (? & ? & _).
  - destruct (intern_union_borrowed l s) as [answer s']. destruct H2 as [? H2]. split; [done|].
    intros u id Hu. by destruct (H2 u id Hu) as (? & ? & _).
Qed.

(** A heap in which equal contents are one allocation. *)
Definition hash_consed : Heap := {|
  same_map := property_map_eqb type_eqb;
  map_address := hash_properties (fun t => dedup_key_into t 0);
  same_function := function_eqb type_eqb;
  function_address := fun f => dedup_key (Function_ f);
  canonicalizable := fun _ => true;
  discriminator := fun _ => 0;
|}.
#[export] Instance hash_consed_laws : HeapLaws hash_consed.
Proof. by split. Qed.

(** [ProgramTypeStore::new]. *)
Definition empty_store : ProgramTypeStore := mkStore 1 1 (fun _ => mkShard ∅ MIN_SWEEP_LEN).

Lemma empty_store_ok : store_ok empty_store.
Proof. intros i key bucket H. cbn [buckets_of unions empty_store] in H. by apply lookup_empty_Some in H. Qed.

Lemma intern_union_promise_witness :
  let '(answer, s') := intern_union (H := hash_consed) [String; sample_object false] empty_store in
  store_ok s' /\ forall u id, answer = Some (u, id) ->
    wf (Union u) /\ union_eqb type_eqb u (fresh_union [String; sample_object false]) = true.
Proof.
  apply (intern_union_promise (Laws := hash_consed_laws)).
  - apply empty_store_ok.
  - apply Forall_cons. split; [by repeat constructor|]. apply Forall_singleton, sample_object_wf.
  - by repeat constructor.
Defined.

(** ** What the comparison leaves out *)

(** [string | { [key: number]: t }]. *)
Definition number_indexed (t : ty) : ty :=
  Object (mkObject _ [] None None (Some t) false false None None None None false false false false None).

Lemma number_indexed_eqb a b : (number_indexed a == number_indexed b) = true -> (a == b) = true.
Proof. intros H. by apply object_eqb_spec in H as (_ & _ & H & _). Qed.

Lemma canonical_number_indexed `{Heap} a b :
  same_map [] [] = true -> canonical_type_lists_equal [String; number_indexed a] [String; number_indexed b] = true.
Proof. intros Hmap. cbn. by rewrite Hmap. Qed.

Lemma fingerprint_number_indexed `{Heap} a b :
  fingerprint_types [String; number_indexed a] = fingerprint_types [String; number_indexed b].
Proof. done. Qed.

(** A shard with one bucket is not swept. *)
Lemma sweep_one (key : Z) (bucket bucket' : list UnionEntry) (due : nat) :
  (2 <= due)%nat -> sweep_if_due (mkShard (<[key := bucket]> (<[key := bucket']> ∅)) due)
            = mkShard (<[key := bucket]> (<[key := bucket']> ∅)) due.
Proof.
  intros Hdue. unfold sweep_if_due. cbn [buckets_of sweep_due]. rewrite insert_insert, decide_True by done.
  rewrite map_size_insert_None, map_size_empty by apply lookup_empty.
  by replace (1 <? due)%nat with true by lia.
Qed.

(** What the empty store answers after one list was interned, for a list with
    the same fingerprint that compares equal. *)
Lemma intern_after_one `{Heap} l l' key :
  fingerprint_types l = Some key -> fingerprint_types l' = Some key -> canonical_type_lists_equal l l' = true ->
  fst (intern_union_borrowed l' (snd (intern_union l empty_store)))
  = Some (fresh_union l, union_type_id 1 1).
Proof.
  intros Hl Hl' Hc. unfold intern_union. rewrite Hl. unfold find_union. cbn [unions empty_store buckets_of].
  rewrite lookup_empty. cbn [scan_bucket default set_bucket buckets_of owner_id next_union].
  rewrite lookup_insert, decide_True by done. cbn [default app].
  unfold set_bucket. cbn [sweep_due buckets_of]. rewrite sweep_one by (unfold MIN_SWEEP_LEN; lia). cbn [snd].
  unfold intern_union_borrowed. rewrite Hl'. unfold find_union. cbn [set_shard unions]. rewrite Nat.eqb_refl.
  cbn [buckets_of]. rewrite lookup_insert, decide_True by done.
  change (from_option id [] (Some ?x)) with x. unfold id. cbn [default app scan_bucket entry_value types fresh_union entry_id]. by rewrite Hc.
Qed.

(** C15 The comparison of canonical types leaves out the number index
    signatures: once [string | { [key: number]: a }] is interned, building the
    union of [string] and [{ [key: number]: b }] answers it in place of the
    requested union, which is a different type. *)
Theorem number_index_confused `{Heap} strict a b :
  same_map [] [] = true -> (a == b) = false ->
  let requested := [String; number_indexed b] in
  let store := snd (intern_union [String; number_indexed a] empty_store) in
  union_type (H := store_at store) strict requested = Ok (Union (fresh_union [String; number_indexed a]))
  /\ union_eqb type_eqb (fresh_union [String; number_indexed a]) (fresh_union requested) = false.
Proof.
  intros Hmap Hab requested store. split.
  - assert (Union.from_borrowed_members (H := store_at store) requested = fresh_union [String; number_indexed a]) as <-.
    { unfold Union.from_borrowed_members, store_at. cbn [Union.intern_union_borrowed].
      assert (exists key, fingerprint_types [String; number_indexed a] = Some key) as [key Hkey] by (by eexists).
      subst store requested. rewrite (intern_after_one _ _ key); [done|done| |by apply canonical_number_indexed].
      by rewrite <- (fingerprint_number_indexed a). }
    by destruct strict.
  - apply not_true_iff_false. unfold union_eqb, requested. cbn [types fresh_union list_eqb].
    rewrite !andb_true_iff. intros [[_ [Hn%number_indexed_eqb _]] _]. congruence.
Qed.

Lemma number_index_confused_witness :
  union_type (H := store_at (H := hash_consed) (snd (intern_union (H := hash_consed) [String; number_indexed String] empty_store)))
    true [String; number_indexed Number]
  = Ok (Union (fresh_union [String; number_indexed String])).
Proof. by apply (number_index_confused (H := hash_consed) true String Number). Defined.
