(* ===== verification/UnionSpec.v ===== *)
(** * What [union_type] promises

    The hashed deduplication and the member index agree with the linear scan,
    deduplication keeps the first of equal members, ordering is a stable sort,
    and a union denotes what its members denote, in a canonical form that
    building the union again does not change. *)

From stdpp Require Import gmap sorting.
From S2P Require Import Prelude TypeModel TypeDigest Union.

Local Open Scope nat_scope.

(** [t] is among [l], up to the equality of types. *)
Definition mem (t : ty) (l : list ty) : bool := existsb (fun e => e == t) l.

(** ** Hash buckets *)

(** The buckets hold exactly the indices of the list, each under the key of its
    member. *)
Record indexes (b : Buckets) (l : list ty) : Prop := {
  indexed : forall i t, l !! i = Some t -> exists f o, b !! dedup_key t = Some (f, o) /\ i ∈ f :: o;
  index_valid : forall k f o i, b !! k = Some (f, o) -> i ∈ f :: o -> exists t, l !! i = Some t /\ dedup_key t = k;
}.

Lemma indexes_nil : indexes ∅ [].
Proof. split; [done|]. intros k f o i H. by apply lookup_empty_Some in H. Qed.

Lemma indexes_push b l t : indexes b l -> indexes (index_round (length l) b t) (l ++ [t]).
Proof.
  intros [H1 H2]. unfold index_round. destruct (b !! dedup_key t) as [[f o]|] eqn:E.
  - split.
    + intros i u Hi. apply lookup_app_Some in Hi as [Hi|[Hge Hi]].
      * destruct (H1 i u Hi) as (f' & o' & Hb & Hin). destruct (decide (dedup_key u = dedup_key t)) as [Ek|Ek].
        -- rewrite Ek in *. rewrite lookup_insert. rewrite decide_True by done. eexists _, _. split; [done|]. simplify_eq.
           rewrite app_comm_cons. apply elem_of_app. by left.
        -- rewrite lookup_insert_ne by done. by eexists _, _.
      * apply list_lookup_singleton_Some in Hi as [Hi <-]. rewrite lookup_insert, decide_True by done.
        eexists _, _. split; [done|]. replace i with (length l) by lia. set_solver.
    + intros k f' o' i Hb Hin. destruct (decide (dedup_key t = k)) as [<-|Ek].
      * rewrite lookup_insert, decide_True in Hb by done. simplify_eq.
        assert (i ∈ f' :: o \/ i = length l) as [Hi| ->] by set_solver.
        -- destruct (H2 _ _ _ _ E Hi) as (u & Hu & Hk). exists u. split; [|done]. by apply lookup_app_l_Some.
        -- exists t. split; [|done]. rewrite lookup_app_r by lia. by rewrite Nat.sub_diag.
      * rewrite lookup_insert_ne in Hb by done. destruct (H2 _ _ _ _ Hb Hin) as (u & Hu & Hk).
        exists u. split; [|done]. by apply lookup_app_l_Some.
  - split.
    + intros i u Hi. apply lookup_app_Some in Hi as [Hi|[Hge Hi]].
      * destruct (H1 i u Hi) as (f' & o' & Hb & Hin).
        rewrite lookup_insert_ne by congruence. by eexists _, _.
      * apply list_lookup_singleton_Some in Hi as [Hi <-]. rewrite lookup_insert, decide_True by done.
        eexists _, _. split; [done|]. replace i with (length l) by lia. set_solver.
    + intros k f' o' i Hb Hin. destruct (decide (dedup_key t = k)) as [<-|Ek].
      * rewrite lookup_insert, decide_True in Hb by done. simplify_eq. assert (i = length l) as -> by set_solver.
        exists t. split; [|done]. rewrite lookup_app_r by lia. by rewrite Nat.sub_diag.
      * rewrite lookup_insert_ne in Hb by done. destruct (H2 _ _ _ _ Hb Hin) as (u & Hu & Hk).
        exists u. split; [|done]. by apply lookup_app_l_Some.
Qed.

Lemma any_equal_spec l t indices :
  (forall i, i ∈ indices -> is_Some (l !! i)) ->
  exists b, any_equal l t indices = Ok b
    /\ (b = true <-> exists i e, i ∈ indices /\ l !! i = Some e /\ (e == t) = true).
Proof.
  induction indices as [|i indices IH]; intros H; cbn [any_equal].
  - exists false. split; [done|]. split; [done|]. intros (i & e & Hi & _). by apply elem_of_nil in Hi.
  - destruct (H i) as [e He]; [apply list_elem_of_here|]. rewrite He. cbn [unwrap mbind result_bind].
    destruct (e == t) eqn:E.
    + exists true. split; [done|]. split; [|done]. intros _. exists i, e. split; [apply list_elem_of_here|done].
    + destruct IH as (b & -> & Hb); [intros j Hj; apply H; by apply list_elem_of_further|].
      exists b. split; [done|]. rewrite Hb. split.
      * intros (j & e' & Hj & ?). exists j, e'. split; [by apply list_elem_of_further|done].
      * intros (j & e' & Hj & Hl & ?). apply elem_of_cons in Hj as [->|Hj]; [congruence|]. by exists j, e'.
Qed.

(** A probe of the buckets answers what the scan of the list does. *)
Lemma indexes_lookup b l t :
  indexes b l -> Forall wf l -> wf t ->
  match b !! dedup_key t with
  | Some (f, o) => any_equal l t (f :: o)
  | None => Ok false
  end = Ok (mem t l).
Proof.
  intros [H1 H2] Hl Ht.
  assert (forall e i, l !! i = Some e -> (e == t) = true -> dedup_key e = dedup_key t) as Hkey.
  { intros e i He Heq. apply dedup_key_eq; [by eapply Forall_lookup_1|done|done]. }
  assert (mem t l = true <-> exists i e, l !! i = Some e /\ (e == t) = true) as Hmem.
  { unfold mem. rewrite existsb_exists. split.
    - intros (e & He%list_elem_of_In & Heq). apply list_elem_of_lookup in He as [i Hi]. by exists i, e.
    - intros (i & e & Hi & Heq). exists e. split; [|done]. by apply list_elem_of_In, list_elem_of_lookup_2 with i. }
  destruct (b !! dedup_key t) as [[f o]|] eqn:E.
  - destruct (any_equal_spec l t (f :: o)) as (r & -> & Hr).
    { intros i Hi. destruct (H2 _ _ _ _ E Hi) as (e & He & _). by exists e. }
    f_equal. apply eq_true_iff_eq. rewrite Hr, Hmem. split.
    + intros (i & e & _ & ?). by exists i, e.
    + intros (i & e & He & Heq). exists i, e. split; [|done].
      destruct (H1 i e He) as (f' & o' & Hb & Hin). rewrite (Hkey e i He Heq), E in Hb. by simplify_eq.
  - f_equal. symmetry. apply not_true_iff_false. rewrite Hmem. intros (i & e & He & Heq).
    destruct (H1 i e He) as (f & o & Hb & _). rewrite (Hkey e i He Heq) in Hb. congruence.
Qed.

(** ** Deduplication *)

Lemma hashed_dedup_linear b unique l :
  indexes b unique -> Forall wf unique -> Forall wf l ->
  hashed_dedup (b, unique) l = Ok (fold_left push_unique l unique).
Proof.
  intros Hb Hu Hl. revert b unique Hb Hu. induction Hl as [|t l Ht Hl IH]; intros b unique Hb Hu; [done|].
  cbn [hashed_dedup fold_left hashed_round]. pose proof (indexes_lookup b unique t Hb Hu Ht) as Hlook.
  pose proof (indexes_push b unique t Hb) as Hpush. unfold index_round in Hpush. unfold push_unique at 2.
  fold (mem t unique). destruct (b !! dedup_key t) as [[f o]|]; [rewrite Hlook|]; cbn [mbind result_bind].
  - destruct (mem t unique); [by apply IH|]. apply IH; [done|]. apply Forall_app. split; [done|by apply Forall_singleton].
  - injection Hlook as <-. apply IH; [done|]. apply Forall_app. split; [done|by apply Forall_singleton].
Qed.

Lemma dedup_members_eq l : Forall wf l -> dedup_members l = Ok (linear_dedup l).
Proof.
  intros Hl. unfold dedup_members. case_split; [done|].
  apply hashed_dedup_linear; [apply indexes_nil|constructor|done].
Qed.

(** No member equals a later one. *)
Fixpoint distinct (l : list ty) : Prop :=
  match l with
  | [] => True
  | t :: l => Forall (fun u => (t == u) = false) l /\ distinct l
  end.

Lemma mem_app t l l' : mem t (l ++ l') = mem t l || mem t l'.
Proof. apply existsb_app. Qed.

Lemma mem_Forall t l : mem t l = false <-> Forall (fun e => (e == t) = false) l.
Proof.
  unfold mem. induction l as [|e l IH]; simpl; [done|]. rewrite orb_false_iff, IH, Forall_cons. done.
Qed.

Lemma distinct_snoc l t : distinct l -> mem t l = false -> distinct (l ++ [t]).
Proof.
  rewrite mem_Forall. induction l as [|e l IH]; simpl; [by repeat constructor|].
  intros [H1 H2] [H3 H4]%Forall_cons. split; [|by apply IH]. apply Forall_app. split; [done|]. by apply Forall_singleton.
Qed.

Lemma mem_here t l : wf t -> t ∈ l -> mem t l = true.
Proof.
  intros Ht Hin. unfold mem. apply existsb_exists. exists t. split; [by apply list_elem_of_In|by apply type_eqb_refl].
Qed.

Lemma fold_push_unique l acc :
  Forall wf l -> distinct acc ->
  exists r, fold_left push_unique l acc = acc ++ r /\ r `sublist_of` l /\ distinct (acc ++ r)
    /\ (forall t, t ∈ l -> mem t (acc ++ r) = true)
    /\ (forall l1 t l2, l = l1 ++ t :: l2 -> mem t (acc ++ l1) = false -> t ∈ r).
Proof.
  intros Hl. revert acc; induction Hl as [|t l Ht Hl IH]; intros acc Hacc; simpl.
  - exists []. rewrite app_nil_r. split_and!; [done|constructor|done|by intros ? ?%elem_of_nil|by intros [] ].
  - unfold push_unique at 2. fold (mem t acc). destruct (mem t acc) eqn:E.
    + destruct (IH acc Hacc) as (r & -> & Hs & Hd & Hc & Hf). exists r. split_and!; [done|by constructor|done| |].
      * intros u [->|Hu]%elem_of_cons; [by rewrite mem_app, E|by apply Hc].
      * intros [|e l1] u l2 [= -> ->] Hu; [by rewrite app_nil_r, E in Hu|].
        apply (Hf l1 u l2); [done|]. rewrite mem_app in *. cbn [mem existsb] in Hu. bools. by apply orb_false_iff.
    + destruct (IH (acc ++ [t])) as (r & Hr & Hs & Hd & Hc & Hf); [by apply distinct_snoc|].
      exists (t :: r). rewrite Hr, <- app_assoc in *. cbn [app] in *. split_and!; [done|by constructor|done| |].
      * intros u [->|Hu]%elem_of_cons; [|by apply Hc]. apply mem_here; [done|set_solver].
      * intros [|e l1] u l2 [= -> ->] Hu; [apply list_elem_of_here|].
        apply list_elem_of_further, (Hf l1 u l2); [done|]. by rewrite <- app_assoc.
Qed.

(** C9 Deduplication answers, for member lists of every size, the members
    without the later equals of one: a subsequence of pairwise unequal members
    with every first occurrence, in which every member has an equal. For large
    lists the hash buckets decide it, without an index out of range. *)
Theorem dedup_members_spec l :
  Forall wf l ->
  exists r, dedup_members l = Ok r /\ r = linear_dedup l /\ r `sublist_of` l /\ distinct r
    /\ (forall t, t ∈ l -> mem t r = true)
    /\ (forall l1 t l2, l = l1 ++ t :: l2 -> mem t l1 = false -> t ∈ r).
Proof.
  intros Hl. rewrite dedup_members_eq by done. exists (linear_dedup l). split; [done|]. split; [done|].
  unfold linear_dedup. by destruct (fold_push_unique l [] Hl I) as (r & -> & ?).
Qed.

(** Forty literals, each of them twice. *)
Definition sample_members : list ty :=
  let l := map (fun i => StringLiteral (lit "member-" ++ render 10 (Z.of_nat i))) (seq 0 40) in l ++ l.

Lemma sample_members_wf : Forall wf sample_members.
Proof. by repeat constructor. Qed.

Lemma dedup_members_spec_witness :
  exists r, dedup_members sample_members = Ok r /\ length r = 40.
Proof.
  destruct (dedup_members_spec sample_members sample_members_wf) as (r & H & -> & _).
  exists (linear_dedup sample_members). split; [exact H|]. by vm_compute.
Defined.

Lemma index_members_indexes b l l' :
  indexes b l -> indexes (index_members (length l) b l') (l ++ l').
Proof.
  revert b l; induction l' as [|t l' IH]; intros b l H; cbn [index_members]; [by rewrite app_nil_r|].
  replace (l ++ t :: l') with ((l ++ [t]) ++ l') by (by rewrite <- app_assoc).
  replace (S (length l)) with (length (l ++ [t])) by (rewrite length_app; simpl; lia).
  apply IH. by apply indexes_push.
Qed.

(** C13 The index of a large union answers membership as the scan of the members
    does. *)
Theorem index_contains_mem l index t :
  Forall wf l -> wf t -> for_large l = Some index -> index_contains index t = Ok (mem t l).
Proof.
  intros Hl Ht. unfold for_large. case_split; [done|]. intros [= <-]. unfold index_contains. cbn [buckets members].
  apply indexes_lookup; [|done|done]. apply (index_members_indexes ∅ []). apply indexes_nil.
Qed.

Lemma index_contains_mem_witness :
  exists index, for_large sample_members = Some index
    /\ index_contains index (StringLiteral (lit "member-7")) = Ok (mem (StringLiteral (lit "member-7")) sample_members).
Proof.
  eexists. split; [done|].
  apply (index_contains_mem sample_members); [apply sample_members_wf|by repeat constructor|done].
Defined.
