(* ===== verification/UnionForm.v ===== *)
(** * The canonical form of unions

    The members [union_type] builds a union of are in a canonical form: no
    [never], no absorbing member, no two equal ones, the boolean literals
    folded, the tuples last by arity. Building the union again changes
    nothing. *)

From stdpp Require Import gmap sorting.
From S2P Require Import Prelude TypeModel TypeDigest Union TypeStore UnionSpec.

Local Open Scope nat_scope.

(** ** Ordering *)

Lemma key_le_total a b : key_le a b = false -> key_le b a = true.
Proof. unfold key_le. destruct a, b; simpl. lia. Qed.
Lemma key_le_refl a : key_le a a = true.
Proof. unfold key_le. destruct a; simpl. lia. Qed.
Lemma key_le_trans a b c : key_le a b = true -> key_le b c = true -> key_le a c = true.
Proof. unfold key_le. destruct a, b, c; simpl. lia. Qed.

Definition by_arity (t u : ty) : Prop := key_le (tuple_key t) (tuple_key u) = true.

Lemma insert_tuple_permutation t l : Permutation (insert_tuple t l) (t :: l).
Proof.
  induction l as [|u l IH]; simpl; [done|]. case_split; [done|]. rewrite IH. apply perm_swap.
Qed.

Lemma insert_tuple_sorted t l : StronglySorted by_arity l -> StronglySorted by_arity (insert_tuple t l).
Proof.
  induction l as [|u l IH]; simpl; intros H; [by repeat constructor|].
  apply StronglySorted_inv in H as [Hs Hu]. case_split.
  - constructor; [by constructor|]. constructor; [done|]. eapply Forall_impl; [exact Hu|].
    intros w Hw. by eapply key_le_trans.
  - constructor; [by apply IH|]. rewrite insert_tuple_permutation. constructor; [by apply key_le_total|done].
Qed.

Lemma insert_tuple_stable k t l :
  filter (fun u => tuple_key u = k) (insert_tuple t l) = filter (fun u => tuple_key u = k) (t :: l).
Proof.
  induction l as [|u l IH]; simpl; [done|]. case_split; [done|]. rewrite !filter_cons, IH, filter_cons.
  repeat case_decide; try done. assert (tuple_key t = tuple_key u) as E by congruence.
  rewrite E, key_le_refl in Heqb. done.
Qed.

Lemma sort_tuples_permutation l : Permutation (sort_tuples l) l.
Proof. induction l as [|t l IH]; simpl; [done|]. by rewrite insert_tuple_permutation, IH. Qed.

Lemma sort_tuples_sorted l : StronglySorted by_arity (sort_tuples l).
Proof. induction l as [|t l IH]; simpl; [constructor|]. by apply insert_tuple_sorted. Qed.

Lemma sort_tuples_stable k l :
  filter (fun u => tuple_key u = k) (sort_tuples l) = filter (fun u => tuple_key u = k) l.
Proof.
  induction l as [|t l IH]; simpl; [done|]. by rewrite insert_tuple_stable, !filter_cons, IH.
Qed.

Lemma sort_tuples_id l : StronglySorted by_arity l -> sort_tuples l = l.
Proof.
  induction l as [|t l IH]; simpl; [done|]. intros [Hs Ht]%StronglySorted_inv. rewrite IH by done.
  destruct Ht as [|u l Hu Ht]; [done|]. simpl. by rewrite Hu.
Qed.

Lemma retain_cons f t l : retain f (t :: l) = if f t then t :: retain f l else retain f l.
Proof. unfold retain. rewrite filter_cons. case_decide; by case_split. Qed.

Lemma retain_all f l : Forall (fun t => f t = true) l -> retain f l = l.
Proof.
  induction 1 as [|t l Ht Hl IH]; [done|]. by rewrite retain_cons, Ht, IH.
Qed.

Lemma retain_none f l : Forall (fun t => f t = false) l -> retain f l = [].
Proof.
  induction 1 as [|t l Ht Hl IH]; [done|]. by rewrite retain_cons, Ht, IH.
Qed.

Lemma existsb_false_Forall (f : ty -> bool) l : existsb f l = false <-> Forall (fun t => f t = false) l.
Proof. induction l as [|t l IH]; simpl; [done|]. by rewrite orb_false_iff, IH, Forall_cons. Qed.

Lemma elem_of_retain (f : ty -> bool) t l : t ∈ retain f l <-> f t = true /\ t ∈ l.
Proof. unfold retain. by rewrite list_elem_of_filter. Qed.

Lemma retain_split f l : Permutation (retain (fun t => negb (f t)) l ++ retain f l) l.
Proof.
  induction l as [|t l IH]; [done|]. rewrite !retain_cons. destruct (f t); simpl; [|by rewrite IH].
  rewrite <- Permutation_middle. by rewrite IH.
Qed.

Lemma order_eq l :
  order_tuple_members l = retain (fun t => negb (is_tuple t)) l ++ sort_tuples (retain is_tuple l).
Proof.
  unfold order_tuple_members. case_split; [|done]. bools.
  apply existsb_false_Forall in H0. rewrite (retain_none is_tuple), app_nil_r by done.
  symmetry. apply retain_all. eapply Forall_impl; [exact H0|]. by intros t ->.
Qed.

Lemma order_permutation l : Permutation (order_tuple_members l) l.
Proof. by rewrite order_eq, sort_tuples_permutation, retain_split. Qed.

(** Ordering keeps every member other than tuples where it was seen, puts
    the tuples after them by ascending arity, closed before open at one length,
    and keeps the tuples of one arity as they were seen. *)
Theorem order_tuple_members_spec l :
  exists tuples, order_tuple_members l = retain (fun t => negb (is_tuple t)) l ++ tuples
    /\ Forall (fun t => is_tuple t = true) tuples
    /\ StronglySorted by_arity tuples
    /\ forall k, filter (fun t => tuple_key t = k) tuples = filter (fun t => tuple_key t = k) (retain is_tuple l).
Proof.
  exists (sort_tuples (retain is_tuple l)). split_and!.
  - apply order_eq.
  - rewrite sort_tuples_permutation. apply Forall_forall. intros t Ht. by apply elem_of_retain in Ht as [].
  - apply sort_tuples_sorted.
  - intros k. apply sort_tuples_stable.
Qed.

(** The order two adjacent members of an ordered list are in. *)
Definition precedes (t u : ty) : bool :=
  negb (is_tuple t) || is_tuple u && key_le (tuple_key t) (tuple_key u).
Definition ordered (l : list ty) : Prop := StronglySorted (fun t u => precedes t u = true) l.

Lemma order_ordered l : ordered (order_tuple_members l).
Proof.
  rewrite order_eq. pose proof (sort_tuples_sorted (retain is_tuple l)) as Hs.
  assert (Forall (fun t => is_tuple t = true) (sort_tuples (retain is_tuple l))) as Ht.
  { rewrite sort_tuples_permutation. apply Forall_forall. intros t Ht. by apply elem_of_retain in Ht as []. }
  assert (Forall (fun t => negb (is_tuple t) = true) (retain (fun t => negb (is_tuple t)) l)) as Hn.
  { apply Forall_forall. intros t Hin. by apply elem_of_retain in Hin as []. }
  unfold ordered. revert Hn. generalize (retain (fun t => negb (is_tuple t)) l). intros others Hn.
  induction Hn as [|t others Hn' Hn IH]; simpl.
  - induction Hs as [|t ts Hs IH Hf]; [constructor|]. apply Forall_cons in Ht as [Ht Hts].
    constructor; [by apply IH|]. rewrite Forall_forall in *. intros u Hu. unfold precedes.
    rewrite (Hts u Hu), (Hf u Hu). by rewrite orb_true_r.
  - constructor; [done|]. apply Forall_forall. intros u _. unfold precedes. by rewrite Hn'.
Qed.

Lemma ordered_id l : ordered l -> order_tuple_members l = l.
Proof.
  rewrite order_eq. intros H. induction H as [|t l H IH Hf]; [done|]. rewrite !retain_cons.
  destruct (is_tuple t) eqn:E; simpl; [|by rewrite IH].
  assert (Forall (fun u => is_tuple u = true /\ key_le (tuple_key t) (tuple_key u) = true) l) as Hall.
  { eapply Forall_impl; [exact Hf|]. unfold precedes. intros u. rewrite E. simpl. rewrite andb_true_iff. done. }
  rewrite (retain_none (fun t => negb (is_tuple t))) in * by (eapply Forall_impl; [exact Hall|]; by intros u [-> _]).
  simpl in *. rewrite IH. destruct Hall as [|u l' [_ Hu] _]; [done|]. simpl. by rewrite Hu.
Qed.

(** ** Canonical member lists *)

Definition is_union (t : ty) : bool := match t with Union _ => true | _ => false end.

(** What keeps a member out of every union. *)
Definition is_plain (t : ty) : bool := negb (is_never t || is_any t || is_error_type t || is_union t).

Section canonical.
Context (strict_null_checks : bool).
Local Abbreviation is_empty_array := (is_empty_array strict_null_checks).
Definition is_other_array (t : ty) : bool := is_array t && negb (is_empty_array t).

Record canonical (l : list ty) : Prop := {
  canonical_plain : Forall (fun t => is_plain t = true) l;
  canonical_arrays : existsb is_empty_array l = false \/ existsb is_other_array l = false;
  canonical_nullish : strict_null_checks = true \/ existsb is_null_or_undefined l = false
                      \/ existsb (fun t => negb (is_null_or_undefined t)) l = false;
  canonical_boolean : existsb is_boolean l = false \/ existsb (fun t => is_literal true t || is_literal false t) l = false;
  canonical_literals : existsb (is_literal true) l = false \/ existsb (is_literal false) l = false;
  canonical_distinct : distinct l;
  canonical_ordered : ordered l;
}.

(** The passes over a flattened list, with the linear deduplication. *)
Definition absorbed (flattened : list ty) : list ty :=
  drop_nullish_members strict_null_checks
    (absorb_empty_array_members strict_null_checks (retain (fun t => negb (is_never t)) flattened)).
Definition reduced (flattened : list ty) : list ty :=
  order_tuple_members (fold_boolean_literals (linear_dedup (absorbed flattened))).

Lemma linear_dedup_distinct l acc : distinct (acc ++ l) -> fold_left push_unique l acc = acc ++ l.
Proof.
  revert acc; induction l as [|t l IH]; intros acc H; simpl; [by rewrite app_nil_r|].
  unfold push_unique at 2. fold (mem t acc). replace (mem t acc) with false.
  - rewrite IH; rewrite <- app_assoc; done.
  - symmetry. apply mem_Forall. induction acc as [|e acc IHacc]; [constructor|]. simpl in H. destruct H as [He H].
    constructor; [|by apply IHacc]. apply Forall_app in He as [_ He]. by apply Forall_cons in He as [He _].
Qed.

Lemma fold_booleans_id l :
  Forall (fun t => (Boolean == t) = false) l -> existsb (fun t => is_literal true t || is_literal false t) l = false ->
  fold_booleans true l = l /\ fold_booleans false l = l.
Proof.
  induction 1 as [|t l Ht Hl IH]; simpl; [done|]. intros [Hlit H]%orb_false_iff. destruct (IH H) as [-> ->].
  destruct t as [| | | | | | | | | | | | | | | |[]| | | | | | |]; simpl in *; by try done.
Qed.

Lemma fold_boolean_id l : canonical l -> fold_boolean_literals l = l.
Proof.
  intros []. unfold fold_boolean_literals. case_split; [done|]. bools.
  assert (existsb is_boolean l = true) as Hb.
  { destruct canonical_literals0 as [H|H]; rewrite H, ?andb_false_r, ?orb_false_r in Heqb; done. }
  destruct canonical_boolean0 as [H|Hlit]; [congruence|]. clear -canonical_distinct0 Hlit.
  induction l as [|t l IH]; [done|]. destruct canonical_distinct0 as [Ht Hd]. simpl in Hlit. apply orb_false_iff in Hlit as [Hlit Hl].
  specialize (IH Hl Hd). simpl. destruct t as [| | | | | | | | | | | | | | | |[]| | | | | | |]; simpl in *; try by rewrite ?IH.
  by rewrite (proj1 (fold_booleans_id l Ht Hl)).
Qed.

Lemma reduced_id l : canonical l -> reduced l = l.
Proof.
  intros H. pose proof (fold_boolean_id l H) as Hfold. destruct H. unfold reduced, absorbed.
  rewrite retain_all.
  2: { eapply Forall_impl; [exact canonical_plain0|]. unfold is_plain. intros t.
       rewrite negb_true_iff, !orb_false_iff. by intros [[[-> _] _] _]. }
  assert (absorb_empty_array_members strict_null_checks l = l) as ->.
  { unfold absorb_empty_array_members. destruct canonical_arrays0 as [-> | Ho]; [done|]. case_split; [done|].
    fold is_other_array. by rewrite Ho. }
  assert (drop_nullish_members strict_null_checks l = l) as ->.
  { unfold drop_nullish_members. destruct canonical_nullish0 as [->|[Hn|Hn]]; [done| |].
    - case_split; [|done]. apply retain_all. apply existsb_false_Forall in Hn.
      eapply Forall_impl; [exact Hn|]. by intros t ->.
    - by rewrite Hn, andb_false_r. }
  unfold linear_dedup. rewrite linear_dedup_distinct by done. simpl. rewrite Hfold. by apply ordered_id.
Qed.
(** ** The passes establish the form *)

Lemma existsb_incl (f : ty -> bool) l l' :
  (forall t, t ∈ l' -> t ∈ l) -> existsb f l = false -> existsb f l' = false.
Proof. rewrite !existsb_false_Forall, !Forall_forall. auto. Qed.

Lemma retain_incl f l t : t ∈ retain f l -> t ∈ l.
Proof. intros H. by apply elem_of_retain in H as [_ H]. Qed.

Lemma absorbed_incl l t : t ∈ absorbed l -> t ∈ l /\ is_never t = false.
Proof.
  unfold absorbed, drop_nullish_members, absorb_empty_array_members.
  repeat case_split; rewrite ?elem_of_retain, ?negb_true_iff; tauto.
Qed.

Lemma drop_incl l t : t ∈ drop_nullish_members strict_null_checks l -> t ∈ l.
Proof. unfold drop_nullish_members. case_split; [apply retain_incl|done]. Qed.

Lemma absorbed_arrays l : existsb is_empty_array (absorbed l) = false \/ existsb is_other_array (absorbed l) = false.
Proof.
  unfold absorbed. generalize (retain (fun t => negb (is_never t)) l). intros m.
  assert (existsb is_empty_array (absorb_empty_array_members strict_null_checks m) = false
    \/ existsb is_other_array (absorb_empty_array_members strict_null_checks m) = false) as [H|H].
  2-3: by first [left; eapply existsb_incl, H; apply drop_incl|right; eapply existsb_incl, H; apply drop_incl].
  unfold absorb_empty_array_members. fold is_other_array. repeat case_split; bools.
  - by left.
  - left. apply existsb_false_Forall, Forall_forall. intros t Ht. apply elem_of_retain in Ht as [Ht _].
    by apply negb_true_iff in Ht.
  - by right.
Qed.

Lemma absorbed_nullish l :
  strict_null_checks = true \/ existsb is_null_or_undefined (absorbed l) = false
  \/ existsb (fun t => negb (is_null_or_undefined t)) (absorbed l) = false.
Proof.
  unfold absorbed, drop_nullish_members. destruct strict_null_checks; [by left|]. right. cbn [negb andb].
  case_split; [left|by right]. apply existsb_false_Forall, Forall_forall. intros t Ht.
  apply elem_of_retain in Ht as [Ht _]. by apply negb_true_iff in Ht.
Qed.

Lemma fold_booleans_In p l t :
  t ∈ fold_booleans p l ->
  (t ∈ l /\ is_boolean_like t = false) \/ (p = false /\ t = Boolean /\ existsb is_boolean_like l = true).
Proof.
  revert p; induction l as [|u l IH]; intros p; simpl; [by intros ?%elem_of_nil|].
  destruct (is_boolean_like u) eqn:E; [destruct p|]; intros H.
  - apply IH in H as [[? ?]|(? & _)]; [left; split; [by apply list_elem_of_further|done]|done].
  - apply elem_of_cons in H as [->|H]; [by right|].
    apply IH in H as [[? ?]|(? & _)]; [left; split; [by apply list_elem_of_further|done]|done].
  - apply elem_of_cons in H as [->|H]; [left; split; [apply list_elem_of_here|done]|].
    apply IH in H as [[? ?]|?]; [left; split; [by apply list_elem_of_further|done]|by right].
Qed.

Lemma fold_booleans_distinct p l : distinct l -> distinct (fold_booleans p l).
Proof.
  revert p; induction l as [|u l IH]; intros p; simpl; [done|]. intros [Hu Hd].
  destruct (is_boolean_like u) eqn:E; [destruct p|]; simpl; [by apply IH| |]; (split; [|by apply IH]).
  - apply Forall_forall. intros t Ht. apply fold_booleans_In in Ht as [[_ Ht]|(? & _)]; [|done]. by destruct t.
  - rewrite Forall_forall in *. intros t Ht. apply fold_booleans_In in Ht as [[Ht _]|(_ & -> & _)]; [by apply Hu|].
    by destruct u.
Qed.

Lemma fold_In l t :
  t ∈ fold_boolean_literals l -> t ∈ l \/ (t = Boolean /\ existsb is_boolean_like l = true).
Proof.
  unfold fold_boolean_literals. case_split; [by left|]. intros H. apply fold_booleans_In in H. tauto.
Qed.

Lemma fold_distinct l : distinct l -> distinct (fold_boolean_literals l).
Proof. unfold fold_boolean_literals. case_split; [done|]. apply fold_booleans_distinct. Qed.

Lemma fold_booleans_literal b p l : existsb (is_literal b) (fold_booleans p l) = false.
Proof.
  apply existsb_false_Forall, Forall_forall. intros t Ht.
  apply fold_booleans_In in Ht as [[_ Ht]|(_ & -> & _)]; [by destruct t|done].
Qed.

Lemma fold_boolean_form l :
  (existsb is_boolean (fold_boolean_literals l) = false
   \/ existsb (fun t => is_literal true t || is_literal false t) (fold_boolean_literals l) = false)
  /\ (existsb (is_literal true) (fold_boolean_literals l) = false
      \/ existsb (is_literal false) (fold_boolean_literals l) = false).
Proof.
  unfold fold_boolean_literals. case_split.
  - bools. split; [by left|]. by apply andb_false_iff.
  - split; [right|left; apply fold_booleans_literal]. apply existsb_false_Forall, Forall_forall. intros t Ht.
    apply fold_booleans_In in Ht as [[_ Ht]|(_ & -> & _)]; [by destruct t|done].
Qed.

Lemma distinct_permutation l l' : Forall wf l -> Permutation l l' -> distinct l -> distinct l'.
Proof.
  intros Hwf H. induction H as [|x l l' H IH|x y l|l l' l'' H1 IH1 H2 IH2]; simpl; [done| | |].
  - apply Forall_cons in Hwf as [Hx Hwf]. intros [Hf Hd]. split; [by rewrite <- H|by apply IH].
  - apply Forall_cons in Hwf as [Hy [Hx Hwf]%Forall_cons]. intros [[Hyx Hyl]%Forall_cons [Hxl Hd]].
    split_and!; [constructor; [by rewrite type_eqb_sym|done]|done|done].
  - intros Hd. apply IH2; [by rewrite <- H1|]. by apply IH1.
Qed.

Lemma linear_dedup_spec l :
  Forall wf l -> linear_dedup l `sublist_of` l /\ distinct (linear_dedup l)
    /\ forall t, t ∈ l -> mem t (linear_dedup l) = true.
Proof.
  intros Hl. unfold linear_dedup. destruct (fold_push_unique l [] Hl I) as (r & -> & Hs & Hd & Hm & _). done.
Qed.

Lemma linear_dedup_incl l t : Forall wf l -> t ∈ linear_dedup l -> t ∈ l.
Proof. intros Hl Ht. destruct (linear_dedup_spec l Hl) as (Hs & _). by eapply elem_of_sublist. Qed.

Lemma reduced_In l t :
  Forall wf l -> t ∈ reduced l ->
  t ∈ linear_dedup (absorbed l) \/ (t = Boolean /\ existsb is_boolean_like (linear_dedup (absorbed l)) = true).
Proof. intros Hl Ht. unfold reduced in Ht. rewrite order_permutation in Ht. by apply fold_In. Qed.

Definition mergeable (t : ty) : bool := negb (is_error_type t || is_any t || is_union t).

Lemma absorbed_wf l : Forall wf l -> Forall wf (absorbed l).
Proof. rewrite !Forall_forall. intros H t Ht. apply H. by apply absorbed_incl in Ht as []. Qed.

Lemma reduced_canonical l :
  Forall wf l -> Forall (fun t => mergeable t = true) l -> canonical (reduced l).
Proof.
  intros Hwf Hm. pose proof (absorbed_wf l Hwf) as Hawf.
  assert (forall t, t ∈ linear_dedup (absorbed l) -> t ∈ absorbed l) as Hin by (intros t; by apply linear_dedup_incl).
  assert (forall f, f Boolean = false -> existsb f (absorbed l) = false -> existsb f (reduced l) = false) as Htrans.
  { intros f Hb Hf. apply existsb_false_Forall, Forall_forall. intros t Ht.
    apply existsb_false_Forall in Hf. rewrite Forall_forall in Hf.
    apply reduced_In in Ht as [Ht|[-> _]]; [by apply Hf, Hin|done|done]. }
  destruct (linear_dedup_spec (absorbed l) Hawf) as (_ & Hd & _).
  destruct (fold_boolean_form (linear_dedup (absorbed l))) as [Hb Hl].
  assert (forall f, existsb f (fold_boolean_literals (linear_dedup (absorbed l))) = false -> existsb f (reduced l) = false) as Hfold.
  { intros f. apply existsb_incl. intros t Ht. unfold reduced in Ht. by rewrite order_permutation in Ht. }
  split.
  - apply Forall_forall. intros t Ht. apply reduced_In in Ht as [Ht|[-> _]]; [|done|done].
    apply Hin, absorbed_incl in Ht as [Ht Hn]. rewrite Forall_forall in Hm. specialize (Hm t Ht).
    unfold mergeable, is_plain in *. rewrite Hn. by destruct t.
  - destruct (absorbed_arrays l); [left|right]; by apply Htrans.
  - destruct (absorbed_nullish l) as [?|[?|Hn]]; [by left|right; left; by apply Htrans|].
    right. right. apply existsb_false_Forall in Hn. rewrite Forall_forall in Hn.
    apply existsb_false_Forall, Forall_forall. intros t Ht. apply reduced_In in Ht as [Ht|[_ Hex]]; [by apply Hn, Hin| |done].
    apply existsb_exists in Hex as (u & Hu%list_elem_of_In%Hin%Hn & Hbu). by destruct u.
  - destruct Hb; [left|right]; by apply Hfold.
  - destruct Hl; [left|right]; by apply Hfold.
  - eapply distinct_permutation; [|symmetry; apply order_permutation|by apply fold_distinct].
    apply Forall_forall. intros t Ht. rewrite Forall_forall in Hawf.
    apply fold_In in Ht as [Ht|[-> _]]; [by apply Hawf, Hin|by repeat constructor].
  - apply order_ordered.
Qed.

Lemma reduced_wf l : Forall wf l -> Forall wf (reduced l).
Proof.
  intros Hwf. apply Forall_forall. intros t Ht. apply reduced_In in Ht as [Ht|[-> _]]; [|by repeat constructor|done].
  apply linear_dedup_incl in Ht; [|by apply absorbed_wf]. pose proof (absorbed_wf l Hwf) as H.
  rewrite Forall_forall in H. by apply H.
Qed.

(** ** The form does not tell equal members apart *)

Lemma is_empty_array_eq t u : wf t -> wf u -> (t == u) = true -> is_empty_array t = is_empty_array u.
Proof.
  intros Ht Hu Heq. destruct t, u; try done. cbn [Union.is_empty_array type_eqb] in *.
  assert (wf t /\ wf u) as [Ht' Hu'] by (split; [eapply wf_child; [exact Ht|]|eapply wf_child; [exact Hu|]]; apply list_elem_of_here).
  assert (forall k, wf k -> (t == k) = (u == k)) as H.
  { intros k Hk. apply eq_true_iff_eq. split; apply type_eqb_trans; try done. by rewrite type_eqb_sym. }
  rewrite !H; [done|by repeat constructor..].
Qed.

Lemma tuple_key_eq t u : (t == u) = true -> is_tuple t = is_tuple u /\ tuple_key t = tuple_key u.
Proof.
  destruct t, u; try done; cbn [type_eqb tuple_key is_tuple]; intros H; (split; [done|]).
  - by rewrite (list_eqb_length _ _ _ H).
  - unfold open_tuple_eqb in H. rewrite !andb_true_iff in H. destruct H as [[H1 _] H2].
    by rewrite (list_eqb_length _ _ _ H1), (list_eqb_length _ _ _ H2).
Qed.

Lemma same_class (f : ty -> bool) t u :
  f = is_plain \/ f = is_null_or_undefined \/ f = is_array \/ f = is_boolean \/ f = is_literal true \/ f = is_literal false ->
  (t == u) = true -> f t = f u.
Proof.
  intros Hf Heq. destruct t, u; try done; destruct Hf as [->|[->|[->|[->|[->| ->]]]]]; try done.
  all: by destruct value, value0.
Qed.

Lemma existsb_equal (f : ty -> bool) l l' :
  (forall t u, t ∈ l -> u ∈ l' -> (t == u) = true -> f t = f u) ->
  list_eqb type_eqb l l' = true -> existsb f l = existsb f l'.
Proof.
  revert l'; induction l as [|t l IH]; intros [|u l'] H; try done. cbn [list_eqb existsb]. rewrite andb_true_iff. intros [Ht Hl].
  rewrite (H t u) by auto with inside. f_equal. apply IH; [|done]. intros. apply H; auto with inside.
Qed.

Lemma Forall_equal (P Q : ty -> Prop) l l' :
  (forall t u, t ∈ l -> u ∈ l' -> (t == u) = true -> P t -> Q u) ->
  list_eqb type_eqb l l' = true -> Forall P l -> Forall Q l'.
Proof.
  revert l'; induction l as [|t l IH]; intros [|u l'] H; try done. cbn [list_eqb]. rewrite andb_true_iff. intros [Ht Hl].
  intros [HP HF]%Forall_cons. constructor; [apply (H t); auto with inside|].
  apply IH; [|done|done]. intros x y ????. apply (H x); auto with inside.
Qed.

Lemma type_eqb_congr t t' u u' :
  wf t -> wf t' -> wf u -> wf u' -> (t == t') = true -> (u == u') = true -> (t == u) = (t' == u').
Proof.
  intros Ht Ht' Hu Hu' H1 H2. apply eq_true_iff_eq. split; intros H.
  - apply (type_eqb_trans t' t u'); [done..|by rewrite type_eqb_sym|]. by apply (type_eqb_trans t u u').
  - apply (type_eqb_trans t t' u); [done..|]. apply (type_eqb_trans t' u' u); [done..|]. by rewrite type_eqb_sym.
Qed.

Lemma distinct_equal l l' :
  Forall wf l -> Forall wf l' -> list_eqb type_eqb l l' = true -> distinct l -> distinct l'.
Proof.
  intros Hl. revert l'; induction Hl as [|t l Ht Hl IH]; intros [|u l'] Hl' Heq; try done.
  apply Forall_cons in Hl' as [Hu Hl']. cbn [list_eqb] in Heq. apply andb_true_iff in Heq as [Htu Heq].
  intros [Hf Hd]. split; [|by apply IH]. revert Hf. apply Forall_equal; [|done].
  intros x y Hx Hy Hxy. rewrite Forall_forall in Hl, Hl'. rewrite (type_eqb_congr t u x y); eauto.
Qed.

Lemma ordered_equal l l' : list_eqb type_eqb l l' = true -> ordered l -> ordered l'.
Proof.
  unfold ordered. revert l'; induction l as [|t l IH]; intros [|u l'] Heq; try done.
  cbn [list_eqb] in Heq. apply andb_true_iff in Heq as [Htu Heq]. intros [Hs Hf]%StronglySorted_inv.
  constructor; [by apply IH|]. revert Hf. apply Forall_equal; [|done].
  intros x y _ _ Hxy. unfold precedes. destruct (tuple_key_eq _ _ Htu) as [-> ->], (tuple_key_eq _ _ Hxy) as [-> ->]. done.
Qed.

Lemma canonical_equal l l' :
  Forall wf l -> Forall wf l' -> list_eqb type_eqb l l' = true -> canonical l -> canonical l'.
Proof.
  intros Hl Hl' Heq [H1 H2 H3 H4 H5 H6 H7].
  assert (forall f, (forall t u, wf t -> wf u -> (t == u) = true -> f t = f u) -> existsb f l' = existsb f l) as Hex.
  { intros f Hf. symmetry. apply existsb_equal; [|done]. rewrite Forall_forall in Hl, Hl'. auto. }
  split.
  - revert H1. apply Forall_equal; [|done]. intros t u _ _ Htu. by rewrite (same_class is_plain t u) by tauto.
  - rewrite !Hex; [done| |apply is_empty_array_eq]. unfold is_other_array. intros t u ???.
    rewrite (same_class is_array t u) by tauto. by rewrite (is_empty_array_eq t u).
  - rewrite !Hex; [done| |]; intros t u ???; by rewrite (same_class is_null_or_undefined t u) by tauto.
  - rewrite !Hex; [done| |]; intros t u ???; [|apply same_class; [tauto|done]].
    by rewrite (same_class (is_literal true) t u), (same_class (is_literal false) t u) by tauto.
  - rewrite !Hex; [done| |]; intros t u ???; (apply same_class; [tauto|done]).
  - by apply (distinct_equal l l').
  - by apply (ordered_equal l l').
Qed.
End canonical.

(** ** [union_type] *)

(** The unions the program builds have no union among their members. *)
Definition flat (t : ty) : Prop :=
  match t with Union u => Forall (fun t => is_union t = false) (types u) | _ => True end.

Lemma flatten_wf l : Forall wf l -> Forall wf (flatten l).
Proof.
  unfold flatten. rewrite !Forall_forall. intros H t Ht. apply list_elem_of_bind in Ht as (u & Ht & Hu).
  specialize (H u Hu). destruct u; try (by apply list_elem_of_singleton in Ht as ->). by apply (wf_child t) in H.
Qed.

Lemma flatten_flat l : Forall flat l -> Forall (fun t => is_union t = false) (flatten l).
Proof.
  unfold flatten. rewrite !Forall_forall. intros H t Ht. apply list_elem_of_bind in Ht as (u & Ht & Hu).
  specialize (H u Hu). destruct u; try (by apply list_elem_of_singleton in Ht as ->).
  simpl in H. rewrite Forall_forall in H. by apply H.
Qed.

Section union_type.
Context (strict : bool) {P : ty -> Prop} {S : UnionStore}.

Definition finish (had_members : bool) (unique : list ty) : ty :=
  match unique with
  | [] => if had_members then Never else Unknown
  | [t] => t
  | _ => Union (from_borrowed_members unique)
  end.

Definition union_result (flattened : list ty) : ty :=
  if existsb is_error_type flattened then ErrorType
  else if existsb is_any flattened then Any
  else finish (negb (match flattened with [] => true | _ => false end)) (reduced strict flattened).

Lemma union_type_eq l : Forall wf l -> union_type strict l = Ok (union_result (flatten l)).
Proof.
  intros Hl. unfold union_type, union_result. apply flatten_wf in Hl. do 2 (case_split; [done|]).
  rewrite dedup_members_eq by (by apply absorbed_wf). done.
Qed.

Lemma fresh_union_wf l : Forall wf l -> wf (Union (fresh_union l)).
Proof. by constructor. Qed.

Lemma fresh_union_refl l : Forall wf l -> union_eqb type_eqb (fresh_union l) (fresh_union l) = true.
Proof. intros Hl. apply (type_eqb_refl (Union (fresh_union l))). by apply fresh_union_wf. Qed.

Lemma from_borrowed_equal `{!UnionStoreLaws P S} l :
  Forall wf l -> Forall P l -> answers_list P l (from_borrowed_members l).
Proof.
  intros Hl HP. unfold from_borrowed_members, union_new.
  destruct (Union.intern_union_borrowed l) eqn:E1; [by apply intern_borrowed_equal|].
  destruct (Union.intern_union l) eqn:E2; [by apply intern_equal|].
  split_and!; [by apply fresh_union_wf|by apply fresh_union_refl|done].
Qed.

Lemma reduced_allowed `{!UnionStoreLaws P S} l : Forall wf l -> Forall P l -> Forall P (reduced strict l).
Proof.
  intros Hl HP. apply Forall_forall. intros t [Ht|[-> _]]%reduced_In; [|apply allowed_boolean|done].
  rewrite Forall_forall in HP. apply linear_dedup_incl, absorbed_incl in Ht as [Ht _]; [by apply HP|by apply absorbed_wf].
Qed.

Lemma union_types_wf u : wf (Union u) -> Forall wf (types u).
Proof. by intros [_ H]. Qed.

Lemma mergeable_flatten l :
  Forall flat l -> existsb is_error_type (flatten l) = false -> existsb is_any (flatten l) = false ->
  Forall (fun t => mergeable t = true) (flatten l).
Proof.
  intros Hflat He Ha. apply flatten_flat in Hflat. rewrite existsb_false_Forall in He, Ha. rewrite !Forall_forall in *.
  intros t Ht. unfold mergeable. by rewrite (He t Ht), (Ha t Ht), (Hflat t Ht).
Qed.

Lemma plain_no_any l :
  Forall (fun t => is_plain t = true) l ->
  existsb is_error_type l = false /\ existsb is_any l = false /\ Forall (fun t => is_union t = false) l.
Proof.
  intros H. rewrite !existsb_false_Forall. split_and!; (eapply Forall_impl; [exact H|]); by intros [].
Qed.

(** Building the union of canonical members again. *)
Lemma canonical_result `{!UnionStoreLaws P S} u :
  wf (Union u) -> Forall P (types u) -> canonical strict (types u) -> 2 <= length (types u) -> list_id u = None ->
  (union_result (types u) == Union u) = true.
Proof.
  intros Hwf HP Hc Hlen Hid. pose proof (union_types_wf u Hwf) as Hts.
  destruct (plain_no_any _ (canonical_plain _ _ Hc)) as (He & Ha & _).
  unfold union_result. rewrite He, Ha, reduced_id by done.
  destruct (from_borrowed_equal (types u) Hts HP) as (Hbwf & Hb & _).
  assert (fresh_union (types u) = u) as E by (destruct u; simpl in *; by subst).
  rewrite E in Hb. by destruct (types u) as [|t [|t' l]]; simpl in Hlen; [lia..|].
Qed.
(** The payload of a canonical list is canonical too. *)
Lemma from_borrowed_canonical `{!UnionStoreLaws P S} us :
  Forall wf us -> Forall P us -> canonical strict us ->
  let u := from_borrowed_members us in
  wf (Union u) /\ Forall P (types u) /\ canonical strict (types u) /\ length (types u) = length us /\ list_id u = None.
Proof.
  intros Hus HP Hc. destruct (from_borrowed_equal us Hus HP) as (Hwf & Hb & HPu). cbv zeta.
  pose proof (union_types_wf _ Hwf) as Htu. unfold union_eqb in Hb. apply andb_true_iff in Hb as [Hb Hid].
  apply opt_Z_eqb_eq in Hid. split_and!; [done|done| |by apply (list_eqb_length type_eqb)|done].
  apply (canonical_equal strict us); [done|done| |done]. rewrite list_eqb_comm; [done|].
  rewrite Forall_forall in Hus, Htu. intros x y Hx Hy. apply type_eqb_sym; auto.
Qed.

Lemma flatten_union u : flatten [Union u] = types u.
Proof. unfold flatten. simpl. apply app_nil_r. Qed.

Lemma flatten_single t : is_union t = false -> flatten [t] = [t].
Proof. by destruct t. Qed.
End union_type.

(** Building a union against any store that keeps its promise on the members
    allowed, and building it again against another such store. *)
Lemma union_type_form strict (P : ty -> Prop) (now later : UnionStore)
    {now_laws : UnionStoreLaws P now} {later_laws : UnionStoreLaws P later} l :
  Forall wf l -> Forall flat l -> Forall P (flatten l) ->
  exists t, union_type (H := now) strict l = Ok t /\ wf t /\ flat t
    /\ (forall u, t = Union u -> 2 <= length (types u) /\ canonical strict (types u))
    /\ exists t', union_type (H := later) strict [t] = Ok t' /\ (t' == t) = true.
Proof.
  intros Hl Hflat HP. rewrite union_type_eq by done. eexists. split; [done|].
  unfold union_result. destruct (existsb is_error_type (flatten l)) eqn:He; [|destruct (existsb is_any (flatten l)) eqn:Ha].
  - split_and!; [by repeat constructor|done|done|by exists ErrorType].
  - split_and!; [by repeat constructor|done|done|by exists Any].
  - pose proof (flatten_wf l Hl) as Hf. pose proof (mergeable_flatten l Hflat He Ha) as Hm.
    pose proof (reduced_canonical strict _ Hf Hm) as Hc. pose proof (reduced_wf strict _ Hf) as Hr.
    pose proof (reduced_allowed strict (S := now) _ Hf HP) as HPr.
    revert Hc Hr HPr. generalize (reduced strict (flatten l)). intros us Hc Hus HPus.
    assert (forall t, wf t -> is_union t = false -> flat t) as Hnu by (by intros []).
    unfold finish. destruct us as [|t [|t' us]].
    + case_split; (split_and!; [by repeat constructor|done|done|]); rewrite union_type_eq by (by repeat constructor);
        (eexists; split; [done|]); by destruct strict.
    + apply Forall_cons in Hus as [Ht _].
      destruct (plain_no_any _ (canonical_plain _ _ Hc)) as (He' & Ha' & [Hu _]%Forall_cons).
      split_and!; [done|by apply Hnu|by intros u ->|]. rewrite union_type_eq by (by apply Forall_singleton).
      rewrite flatten_single by done. unfold union_result. rewrite He', Ha', reduced_id by done.
      exists t. split; [done|by apply type_eqb_refl].
    + destruct (from_borrowed_canonical strict (S := now) _ Hus HPus Hc) as (Hwf & HPu & Hcu & Hlen & Hid).
      assert (2 <= length (types (from_borrowed_members (H := now) (t :: t' :: us)))) as Hlen' by (rewrite Hlen; simpl; lia).
      destruct (plain_no_any _ (canonical_plain _ _ Hcu)) as (_ & _ & Hnun).
      split_and!; [done|done|by intros u' [= <-]|]. rewrite union_type_eq by (by apply Forall_singleton).
      eexists. split; [done|]. rewrite flatten_union. by apply (canonical_result strict (S := later)).
Qed.

(** C7 Building a union answers a type in canonical form: a union has at least
    two members, none of them [never], absorbing, a union or equal to another,
    the boolean literals folded, the empty array types and, without strict null
    checks, the nullish members absorbed, the tuples last by arity. Building it
    again, later, gives an equal type. So it is without a program store for all
    well-formed members, and against any sound store for comparable members:
    those whose objects have no number index signature and no intersection
    operands, and whose unions inside have no list id. *)
Theorem union_type_canonical `{Laws : HeapLaws} strict (now later : option ProgramTypeStore) l :
  Forall wf l -> Forall flat l -> sound_store now -> sound_store later ->
  now = None /\ later = None \/ Forall comparable (flatten l) ->
  exists t, union_type (H := current_store now) strict l = Ok t /\ wf t /\ flat t
    /\ (forall u, t = Union u -> 2 <= length (types u) /\ canonical strict (types u))
    /\ exists t', union_type (H := current_store later) strict [t] = Ok t' /\ (t' == t) = true.
Proof.
  intros Hl Hflat Hnow Hlater [[-> ->]|Hc].
  - apply (union_type_form strict (fun _ => True) no_store no_store); [done..|]. by apply Forall_true.
  - pose proof (current_store_laws now Hnow). pose proof (current_store_laws later Hlater).
    by apply (union_type_form strict comparable).
Qed.

Definition sample_union : list ty :=
  [Tuple [Number; String]; BooleanLiteral false; Never; Union (fresh_union [String; BooleanLiteral true]);
   Array Never; Tuple []; Array Number; String].

Lemma sample_union_wf : Forall wf sample_union.
Proof. by repeat constructor. Qed.

Lemma sample_union_comparable : Forall comparable (flatten sample_union).
Proof. by repeat constructor. Qed.

(** The store after the sample was interned: building it finds the payload. *)
Definition sample_members : list ty := [Boolean; String; Array Number; Tuple []; Tuple [Number; String]].
Definition sample_store : ProgramTypeStore := snd (TypeStore.intern_union (H := hash_consed) sample_members empty_store).

Lemma sample_store_sound : sound_store (Some sample_store).
Proof.
  pose proof (intern_union_ok (Laws := hash_consed_laws) sample_members empty_store empty_store_ok
    ltac:(by repeat constructor) ltac:(by repeat constructor)) as H.
  unfold sample_store. destruct (TypeStore.intern_union sample_members empty_store) as [a s]. apply H.
Qed.

Lemma union_type_canonical_witness :
  exists t, union_type (H := current_store (H := hash_consed) (Some sample_store)) true sample_union = Ok t
    /\ t = Union (fresh_union sample_members) /\ canonical true sample_members
    /\ fst (TypeStore.intern_union_borrowed (H := hash_consed) sample_members sample_store)
       = Some (fresh_union sample_members, union_type_id 1 1).
Proof.
  destruct (union_type_canonical (Laws := hash_consed_laws) true (Some sample_store) (Some sample_store) sample_union sample_union_wf)
    as (t & H & _ & _ & Hc & _);
    [by repeat constructor|apply sample_store_sound|apply sample_store_sound|right; apply sample_union_comparable|].
  assert (t = Union (fresh_union sample_members)) as ->
    by (apply (f_equal (fun r => match r with Ok t => t | _ => Never end)) in H; vm_compute in H; by rewrite <- H).
  exists (Union (fresh_union sample_members)).
  split; [exact H|]. split; [done|]. split; [by destruct (Hc _ eq_refl)|vm_compute; reflexivity].
Defined.

(** ** Absorption *)

(** C14 An error type among the members is the whole union, and otherwise
    [any] is; [never] is the identity of a union with other members. *)
Theorem union_type_absorption strict (S : UnionStore) l l' :
  (existsb is_error_type (flatten l) = true -> union_type strict l = Ok ErrorType)
  /\ (existsb is_error_type (flatten l) = false -> existsb is_any (flatten l) = true -> union_type strict l = Ok Any)
  /\ (flatten (l ++ l') <> [] -> union_type strict (l ++ Never :: l') = union_type strict (l ++ l')).
Proof.
  unfold union_type. split_and!; [by intros ->|by intros -> ->|]. intros Hne.
  assert (flatten (l ++ Never :: l') = flatten l ++ Never :: flatten l') as ->
    by (unfold flatten; by rewrite bind_app, bind_cons).
  assert (flatten (l ++ l') = flatten l ++ flatten l') as E by (unfold flatten; apply bind_app).
  rewrite E in *. assert (forall f, f Never = false -> existsb f (flatten l ++ Never :: flatten l') = existsb f (flatten l ++ flatten l')) as Hex.
  { intros f Hf. rewrite !existsb_app. cbn [existsb]. by rewrite Hf. }
  rewrite !Hex by done. do 2 (case_split; [done|]).
  assert (retain (fun t => negb (is_never t)) (flatten l ++ Never :: flatten l')
          = retain (fun t => negb (is_never t)) (flatten l ++ flatten l')) as ->.
  { clear. induction (flatten l) as [|t m IH]; cbn [app]; rewrite !retain_cons; [done|]. by rewrite IH. }
  destruct (flatten l ++ flatten l') eqn:E1; [done|].
  by destruct (flatten l ++ Never :: flatten l') eqn:E2; [destruct (flatten l)|].
Qed.

Lemma union_type_absorption_witness :
  union_type (H := no_store) true [String; Never; Number] = union_type (H := no_store) true [String; Number].
Proof. by apply (union_type_absorption true no_store [String] [Number]). Defined.
