(* ===== verification/UnionMeaning.v ===== *)
(** * What a union denotes

    For every interpretation of types by sets of values in which the types have
    the meaning the passes of [union_type] rely on, the union denotes the union
    of what its members denote: no pass drops or adds a value. *)

From stdpp Require Import gmap sorting.
From S2P Require Import Prelude TypeModel TypeDigest Union TypeStore UnionSpec UnionForm.

Local Open Scope nat_scope.

(** An interpretation, and what the passes rely on. *)
Class Interpretation (V : Type) := denotes : ty -> V -> Prop.

Class InterpretationLaws (strict : bool) {V} (I : Interpretation V) := {
  denotes_equal : forall t u v, wf t -> wf u -> (t == u) = true -> denotes t v <-> denotes u v;
  denotes_never : forall v, ~ denotes Never v;
  denotes_any : forall v, denotes Any v /\ denotes ErrorType v;
  denotes_union : forall u v, denotes (Union u) v <-> exists t, t ∈ types u /\ denotes t v;
  denotes_boolean : forall v, denotes Boolean v <-> exists b, denotes (BooleanLiteral b) v;
  denotes_empty_array : forall t u v,
    is_empty_array strict t = true -> is_array u = true -> denotes t v -> denotes u v;
  denotes_nullish : forall t u v,
    strict = false -> is_null_or_undefined t = true -> is_plain u = true -> denotes t v -> denotes u v;
}.

Section meaning.
Context (strict : bool) {V : Type} {I : Interpretation V} {Laws : InterpretationLaws strict I}.

(** What a list of members denotes. *)
Definition among (l : list ty) (v : V) : Prop := exists t, t ∈ l /\ denotes t v.

Lemma among_incl l l' v : (forall t, t ∈ l -> t ∈ l') -> among l v -> among l' v.
Proof. intros H (t & Ht & Hv). exists t. auto. Qed.

Lemma among_flatten l v : among (flatten l) v <-> among l v.
Proof.
  unfold flatten. split.
  - intros (t & Ht & Hv). apply list_elem_of_bind in Ht as (u & Ht & Hu). exists u. split; [done|].
    destruct u; try (by apply list_elem_of_singleton in Ht as ->). apply denotes_union. by exists t.
  - intros (u & Hu & Hv). assert (forall t, t ∈ (match u with Union u => types u | _ => [u] end) -> t ∈ flatten l) as H.
    { intros t Ht. apply list_elem_of_bind. by exists u. }
    destruct u; try (eexists; split; [apply H, list_elem_of_here|done]).
    apply denotes_union in Hv as (t & Ht & Hv). exists t. split; [by apply H|done].
Qed.

Lemma among_never l v : among (retain (fun t => negb (is_never t)) l) v <-> among l v.
Proof.
  split; [apply among_incl, retain_incl|]. intros (t & Ht & Hv). exists t. split; [|done]. apply elem_of_retain.
  split; [|done]. destruct t; try done. by apply denotes_never in Hv.
Qed.

Lemma among_absorb l v : among (absorb_empty_array_members strict l) v <-> among l v.
Proof.
  unfold absorb_empty_array_members. case_split; [done|]. case_split; [|done].
  split; [apply among_incl, retain_incl|]. intros (t & Ht & Hv).
  destruct (is_empty_array strict t) eqn:E; [|exists t; split; [apply elem_of_retain; by rewrite E|done]].
  apply existsb_exists in Heqb0 as (u & Hu%list_elem_of_In & H). apply andb_true_iff in H as [Ha He].
  exists u. split; [by apply elem_of_retain|]. by apply (denotes_empty_array t).
Qed.

Lemma among_nullish l v :
  Forall (fun t => is_plain t = true) l -> among (drop_nullish_members strict l) v <-> among l v.
Proof.
  intros Hp. unfold drop_nullish_members. case_split; [|done]. bools.
  split; [apply among_incl, retain_incl|]. intros (t & Ht & Hv).
  destruct (is_null_or_undefined t) eqn:E; [|exists t; split; [apply elem_of_retain; by rewrite E|done]].
  apply existsb_exists in H0 as (u & Hu%list_elem_of_In & Hn). exists u. split; [by apply elem_of_retain|].
  rewrite Forall_forall in Hp. apply (denotes_nullish t); [done|done|by apply Hp|done].
Qed.

Lemma among_dedup l v : Forall wf l -> among (linear_dedup l) v <-> among l v.
Proof.
  intros Hl. split; [apply among_incl; intros t; by apply linear_dedup_incl|].
  destruct (linear_dedup_spec l Hl) as (_ & _ & Hm). intros (t & Ht & Hv).
  specialize (Hm t Ht). unfold mem in Hm. apply existsb_exists in Hm as (u & Hu%list_elem_of_In & Heq).
  exists u. split; [done|]. rewrite Forall_forall in Hl. apply linear_dedup_incl in Hu as Hu'; [|by apply Forall_forall].
  apply (denotes_equal u t); auto.
Qed.

Lemma boolean_like_denotes t v : is_boolean_like t = true -> denotes t v -> denotes Boolean v.
Proof. intros H Hv. destruct t; try done. apply denotes_boolean. by eexists. Qed.

Lemma fold_booleans_keeps p l t : t ∈ l -> is_boolean_like t = false -> t ∈ fold_booleans p l.
Proof.
  revert p; induction l as [|u l IH]; intros p Ht Hb; [by apply elem_of_nil in Ht|]. simpl.
  apply elem_of_cons in Ht as [->|Ht].
  - rewrite Hb. apply list_elem_of_here.
  - repeat case_split; try apply list_elem_of_further; by apply IH.
Qed.

Lemma fold_booleans_boolean l : existsb is_boolean_like l = true -> Boolean ∈ fold_booleans false l.
Proof.
  induction l as [|u l IH]; [done|]. simpl. destruct (is_boolean_like u); simpl; [intros _; apply list_elem_of_here|].
  intros H. by apply list_elem_of_further, IH.
Qed.

Lemma among_fold l v : among (fold_boolean_literals l) v <-> among l v.
Proof.
  unfold fold_boolean_literals. case_split; [done|]. apply negb_false_iff in Heqb. split.
  - intros (t & Ht & Hv). apply fold_booleans_In in Ht as [[Ht _]|(_ & -> & _)]; [by exists t|].
    apply orb_true_iff in Heqb as [H|H].
    + apply existsb_exists in H as (t & Ht%list_elem_of_In & Hb). destruct t; try done. by exists Boolean.
    + apply andb_true_iff in H as [Htrue Hfalse]. apply denotes_boolean in Hv as [b Hv].
      assert (existsb (is_literal b) l = true) as Hex by (by destruct b).
      apply existsb_exists in Hex as (t & Ht%list_elem_of_In & Hb). exists t. split; [done|].
      destruct t; try done. cbn [is_literal] in Hb. apply eqb_true_iff in Hb as ->. done.
  - intros (t & Ht & Hv). destruct (is_boolean_like t) eqn:E; [|exists t; split; [by apply fold_booleans_keeps|done]].
    exists Boolean. split; [|by apply (boolean_like_denotes t)]. apply fold_booleans_boolean.
    apply existsb_exists. exists t. split; [by apply list_elem_of_In|done].
Qed.

Lemma among_order l v : among (order_tuple_members l) v <-> among l v.
Proof. split; apply among_incl; intros t; by rewrite order_permutation. Qed.

Lemma among_reduced l v :
  Forall wf l -> Forall (fun t => mergeable t = true) l -> among (reduced strict l) v <-> among l v.
Proof.
  intros Hl Hm. unfold reduced. rewrite among_order, among_fold, among_dedup by (by apply absorbed_wf).
  unfold absorbed. rewrite among_nullish, among_absorb, among_never; [done|].
  apply Forall_forall. intros t Ht. rewrite Forall_forall in Hm.
  assert (t ∈ retain (fun t => negb (is_never t)) l) as Hr.
  { unfold absorb_empty_array_members in Ht. repeat case_split_in Ht; try done. by apply retain_incl in Ht. }
  apply elem_of_retain in Hr as [Hn Hin]. specialize (Hm t Hin). unfold mergeable, is_plain in *. by destruct t.
Qed.

(** Against any store that keeps its promise on the members allowed. *)
Lemma union_type_meaning (P : ty -> Prop) (S : UnionStore) {SLaws : UnionStoreLaws P S} l v :
  Forall wf l -> Forall flat l -> Forall P (flatten l) -> flatten l <> [] ->
  exists t, union_type strict l = Ok t /\ (denotes t v <-> exists m, m ∈ l /\ denotes m v).
Proof.
  intros Hl Hflat HP Hne. rewrite (union_type_eq strict l Hl). eexists. split; [done|]. fold (among l v).
  rewrite <- among_flatten. unfold union_result.
  assert (forall f t, existsb f (flatten l) = true -> (forall u, f u = true -> u = t) -> denotes t v -> denotes t v <-> among (flatten l) v) as Habs.
  { intros f t Hf Ht Hv. split; [|done]. intros _. apply existsb_exists in Hf as (u & Hu%list_elem_of_In & Hfu).
    exists u. split; [done|]. by rewrite (Ht u Hfu). }
  destruct (existsb is_error_type (flatten l)) eqn:He.
  { apply (Habs is_error_type); [done|by intros []|apply denotes_any]. }
  destruct (existsb is_any (flatten l)) eqn:Ha; [apply (Habs is_any); [done|by intros []|apply denotes_any]|].
  pose proof (flatten_wf l Hl) as Hf. pose proof (mergeable_flatten l Hflat He Ha) as Hm.
  rewrite <- (among_reduced (flatten l) v Hf Hm). pose proof (reduced_wf strict _ Hf) as Hr.
  pose proof (reduced_allowed strict _ Hf HP) as HPr. revert Hr HPr.
  generalize (reduced strict (flatten l)). intros us Hus HPus. unfold finish, among. destruct us as [|t [|t' us]].
  - destruct (flatten l); [done|]. split; [by intros ?%denotes_never|]. by intros (m & Hm0%elem_of_nil & _).
  - split; [intros Hv; exists t; split; [apply list_elem_of_here|done]|].
    by intros (u & ->%list_elem_of_singleton & Hv).
  - destruct (from_borrowed_equal (t :: t' :: us) Hus HPus) as (Hwf & Hb & _).
    rewrite (denotes_equal _ (Union (fresh_union (t :: t' :: us))) v Hwf) by (done || by apply fresh_union_wf).
    apply denotes_union.
Qed.

(** C8 A union denotes what its members denote, in every interpretation that
    satisfies the laws of the absorbed types: for a non-empty list of members
    without nested unions, each value of a member is a value of the union and
    the other way around. So it is without a program store for all well-formed
    members, and against any sound store for comparable members: those whose
    objects have no number index signature and no intersection operands, and
    whose unions inside have no list id. *)
Theorem union_type_denotes `{HLaws : HeapLaws} (now : option ProgramTypeStore) l v :
  Forall wf l -> Forall flat l -> flatten l <> [] -> sound_store now ->
  now = None \/ Forall comparable (flatten l) ->
  exists t, union_type (H := current_store now) strict l = Ok t /\ (denotes t v <-> exists m, m ∈ l /\ denotes m v).
Proof.
  intros Hl Hflat Hne Hnow [->|Hc].
  - apply (union_type_meaning (fun _ => True) no_store); [done|done| |done]. by apply Forall_true.
  - pose proof (current_store_laws now Hnow). by apply (union_type_meaning comparable).
Qed.
End meaning.

(** ** An interpretation *)

(** Values, the objects of all kinds being one. *)
#[local] Unset Elimination Schemes.
Inductive value : Type :=
  | VUndefined | VNull | VBool (b : bool) | VString (s : str) | VNumber (s : str) | VArray (l : list value) | VObject.
#[local] Set Elimination Schemes.

Fixpoint meaning (t : ty) (v : value) {struct t} : Prop :=
  match t with
  | String => exists s, v = VString s
  | StringLiteral s => v = VString s
  | Number => exists s, v = VNumber s
  | NumberLiteral s => v = VNumber s
  | Boolean => exists b, v = VBool b
  | BooleanLiteral b => v = VBool b
  | Undefined | Void => v = VUndefined
  | Null => v = VNull
  | Any | Unknown | GenuineUnknown | ErrorType | TypeParameter _ _ => True
  | Never => False
  | BigInt | Symbol | Function_ _ | Object _ | Reference _ => v = VObject
  | Array e => exists l, v = VArray l /\ Forall (meaning e) l
  | Tuple es => exists l, v = VArray l /\ length l = length es
  | OpenTuple t => exists l, v = VArray l /\ length (leading t) + length (trailing t) <= length l
  | Union u => foldr (fun t P => meaning t v \/ P) False (types u)
  end.

Lemma foldr_or l v : foldr (fun t P => meaning t v \/ P) False l <-> exists t, t ∈ l /\ meaning t v.
Proof.
  induction l as [|t l IH]; simpl.
  - split; [done|]. by intros (t & ?%elem_of_nil & _).
  - rewrite IH. split.
    + intros [H|(u & Hu & H)]; [exists t|exists u]; auto with inside.
    + intros (u & [->|Hu]%elem_of_cons & H); [by left|right; by exists u].
Qed.

Lemma meaning_equal t u v : wf t -> wf u -> (t == u) = true -> meaning t v <-> meaning u v.
Proof.
  revert u v. induction t as [t IH] using ty_ind. intros u v Ht Hu Heq.
  assert (forall x y w, x ∈ children t -> y ∈ children u -> (x == y) = true -> meaning x w <-> meaning y w) as H
    by (intros x y w Hx Hy; apply IH; eauto using wf_child).
  destruct t, u; try done; cbn [type_eqb meaning children] in *.
  - by apply str_eqb_spec in Heq as ->.
  - by apply str_eqb_spec in Heq as ->.
  - by apply eqb_true_iff in Heq as ->.
  - assert (forall l, Forall (meaning t) l <-> Forall (meaning u) l) as Hl.
    { intros l. apply Forall_iff. intros w. apply H; auto with inside. }
    by setoid_rewrite Hl.
  - by rewrite (list_eqb_length _ _ _ Heq).
  - unfold open_tuple_eqb in Heq. rewrite !andb_true_iff in Heq. destruct Heq as [[H1 _] H2].
    by rewrite (list_eqb_length _ _ _ H1), (list_eqb_length _ _ _ H2).
  - unfold union_eqb in Heq. apply andb_true_iff in Heq as [Heq _]. revert Heq. clear -H.
    revert H. generalize (types u0) (types u). intros l; induction l as [|x l IHl]; intros [|y l'] H; try done.
    cbn [list_eqb foldr]. rewrite andb_true_iff. intros [Hx Hl].
    rewrite (H x y v) by auto with inside. rewrite (IHl l'); [done| |done]. auto with inside.
Qed.

#[export] Instance value_interpretation : Interpretation value := meaning.

#[export] Instance value_laws : InterpretationLaws true value_interpretation.
Proof.
  split; unfold denotes, value_interpretation; try done.
  - intros. by apply meaning_equal.
  - intros v Hv. exact Hv.
  - intros u v. apply foldr_or.
  - intros t u v Ht Hu Hv. destruct t; try done. destruct u; try done. cbn [is_empty_array andb negb] in Ht.
    rewrite andb_false_r, orb_false_r in Ht. destruct t; try done. destruct Hv as (l & -> & Hl).
    exists l. split; [done|]. by destruct Hl.
Qed.

Lemma union_type_denotes_witness :
  exists t, union_type (H := current_store (H := hash_consed) (Some sample_store)) true sample_union = Ok t
    /\ (denotes t (VBool true) <-> exists m, m ∈ sample_union /\ denotes m (VBool true)).
Proof.
  apply (union_type_denotes true (HLaws := hash_consed_laws) (Some sample_store));
    [apply sample_union_wf|by repeat constructor|done|apply sample_store_sound|right; apply sample_union_comparable].
Defined.
