(* ===== verification/Caches.v ===== *)
(** * The program-wide resolution caches ([surge-ts-checker/src/speculative/mod.rs])

    The six caches a check reads and fills: two hold a bucket of instantiations
    per declaration, looked up by equal arguments, four hold one value per key.
    A cache is one of six, its keys, values and map follow from which, and a
    record has a slot for each. Here are the maps with their laws and the digests
    of the keys; the sessions and the commit are in Session and Commit. *)

From stdpp Require Import gmap.
From S2P Require Import Prelude RustStr TypeModel TypeDigest.

(** ** Keys *)

Inductive DeclarationNamespace := Type_ | TypeSignatureContext | PlaceholderInstantiation.

Record DeclarationResolutionKey := mkKey {
  file_name : str;
  name : str;
  namespace : DeclarationNamespace;
  fingerprint : Z
}.

#[export] Instance namespace_eq_dec : EqDecision DeclarationNamespace.
Proof. solve_decision. Defined.
#[export] Instance key_eq_dec : EqDecision DeclarationResolutionKey.
Proof. solve_decision. Defined.

Definition namespace_discriminant (n : DeclarationNamespace) : Z :=
  match n with Type_ => 0 | TypeSignatureContext => 1 | PlaceholderInstantiation => 2 end.
#[export] Instance namespace_countable : Countable DeclarationNamespace.
Proof.
  apply (inj_countable' (fun n => match n with Type_ => 0 | TypeSignatureContext => 1 | PlaceholderInstantiation => 2 end)
    (fun i => match i with 0 => Type_ | 1 => TypeSignatureContext | _ => PlaceholderInstantiation end)). by intros [].
Defined.
#[export] Instance key_countable : Countable DeclarationResolutionKey.
Proof.
  apply (inj_countable' (fun k => (file_name k, name k, namespace k, fingerprint k))
    (fun '(f, n, s, p) => mkKey f n s p)). by intros [].
Defined.

(** A key type of the checker with its derived [Hash]: the identities of
    interfaces and of their members and overloads. *)
Class HashKey (K : Type) := {
  hash_eq_dec :: EqDecision K;
  hash_countable :: Countable K;
  hash_key : K -> Z -> Z
}.

(** The keys and values of the caches that are not spelled out here: any types
    do. *)
Class InterfaceKeys := {
  InterfaceInstantiationKey : Type;
  StableInterfaceDeclarationId : Type;
  InterfaceMemberInstantiationKey : Type;
  InterfaceOverloadInstantiationKey : Type;
  InterfaceDeclarationTemplate : Type;
  instantiation_hash :: HashKey InterfaceInstantiationKey;
  declaration_hash :: HashKey StableInterfaceDeclarationId;
  member_hash :: HashKey InterfaceMemberInstantiationKey;
  overload_hash :: HashKey InterfaceOverloadInstantiationKey
}.

Definition hash_declaration_key (k : DeclarationResolutionKey) (hash : Z) : Z :=
  hash_u64 (fingerprint k) (hash_u64 (namespace_discriminant (namespace k)) (hash_str (name k) (hash_str (file_name k) hash))).

(** ** The six caches *)

Inductive cache := GENERIC | INSTANTIATION | PHYSICAL | TEMPLATE | METHOD | OVERLOAD.

#[export] Instance cache_eq_dec : EqDecision cache.
Proof. solve_decision. Defined.

(** [TAG_GENERIC] to [TAG_OVERLOAD]. *)
Definition TAG (c : cache) : Z :=
  match c with GENERIC => 0 | INSTANTIATION => 1 | PHYSICAL => 2 | TEMPLATE => 3 | METHOD => 4 | OVERLOAD => 5 end.

Section caches.
Context `{InterfaceKeys}.

Definition Key (c : cache) : Type :=
  match c with
  | GENERIC | INSTANTIATION => DeclarationResolutionKey * list ty
  | PHYSICAL => InterfaceInstantiationKey
  | TEMPLATE => StableInterfaceDeclarationId
  | METHOD => InterfaceMemberInstantiationKey
  | OVERLOAD => InterfaceOverloadInstantiationKey
  end.

(** A generic entry has its [had_error] flag; an [Arc] is its value. *)
Definition Val (c : cache) : Type :=
  match c with
  | GENERIC => ty * bool
  | INSTANTIATION => ty
  | PHYSICAL => ty
  | TEMPLATE => InterfaceDeclarationTemplate
  | METHOD | OVERLOAD => FunctionTypePayload ty
  end.

(** Digests of keys. *)
Definition digest_flat {K} `{HashKey K} (tag : Z) (key : K) : Z := hash_key key (hash_u8 tag 0).

Definition digest_bucket (tag : Z) (key : DeclarationResolutionKey) (arguments : list ty) : Z :=
  foldl (fun hash argument => hash_u64 (type_conflict_digest argument) hash)
    (hash_usize (length arguments) (hash_declaration_key key (hash_u8 tag 0))) arguments.

Definition digest (c : cache) : Key c -> Z :=
  match c with
  | GENERIC => fun '(k, arguments) => digest_bucket (TAG GENERIC) k arguments
  | INSTANTIATION => fun '(k, arguments) => digest_bucket (TAG INSTANTIATION) k arguments
  | PHYSICAL => digest_flat (TAG PHYSICAL)
  | TEMPLATE => digest_flat (TAG TEMPLATE)
  | METHOD => digest_flat (TAG METHOD)
  | OVERLOAD => digest_flat (TAG OVERLOAD)
  end.

(** *** Maps *)

Abbreviation Buckets V := (gmap DeclarationResolutionKey (list (list ty * V))).

Definition same_arguments : list ty -> list ty -> bool := list_eqb type_eqb.

Definition bucket {V} (m : Buckets V) (k : DeclarationResolutionKey) : list (list ty * V) := default [] (m !! k).
Definition bucket_get {V} (m : Buckets V) (k : DeclarationResolutionKey * list ty) : option V :=
  snd <$> List.find (fun entry => same_arguments (fst entry) (snd k)) (bucket m (fst k)).
Definition bucket_push {V} (m : Buckets V) (k : DeclarationResolutionKey * list ty) (v : V) : Buckets V :=
  <[fst k := bucket m (fst k) ++ [(snd k, v)]]> m.

(** The map of a cache with values [V]: the values of the cache, or those values
    with the file that inserted them. *)
Definition Map (c : cache) (V : Type) : Type :=
  match c with
  | GENERIC | INSTANTIATION => Buckets V
  | PHYSICAL => gmap InterfaceInstantiationKey V
  | TEMPLATE => gmap StableInterfaceDeclarationId V
  | METHOD => gmap InterfaceMemberInstantiationKey V
  | OVERLOAD => gmap InterfaceOverloadInstantiationKey V
  end.

Definition empty (c : cache) (V : Type) : Map c V :=
  match c with
  | GENERIC | INSTANTIATION => (∅ : Buckets V)
  | PHYSICAL => (∅ : gmap InterfaceInstantiationKey V)
  | TEMPLATE => (∅ : gmap StableInterfaceDeclarationId V)
  | METHOD => (∅ : gmap InterfaceMemberInstantiationKey V)
  | OVERLOAD => (∅ : gmap InterfaceOverloadInstantiationKey V)
  end.

Definition get {V} (c : cache) : Map c V -> Key c -> option V :=
  match c with
  | GENERIC | INSTANTIATION => bucket_get
  | PHYSICAL => fun (m : gmap InterfaceInstantiationKey V) k => m !! k
  | TEMPLATE => fun (m : gmap StableInterfaceDeclarationId V) k => m !! k
  | METHOD => fun (m : gmap InterfaceMemberInstantiationKey V) k => m !! k
  | OVERLOAD => fun (m : gmap InterfaceOverloadInstantiationKey V) k => m !! k
  end.

Definition push {V} (c : cache) : Map c V -> Key c -> V -> Map c V :=
  match c with
  | GENERIC | INSTANTIATION => bucket_push
  | PHYSICAL => fun (m : gmap InterfaceInstantiationKey V) k v => <[k := v]> m
  | TEMPLATE => fun (m : gmap StableInterfaceDeclarationId V) k v => <[k := v]> m
  | METHOD => fun (m : gmap InterfaceMemberInstantiationKey V) k v => <[k := v]> m
  | OVERLOAD => fun (m : gmap InterfaceOverloadInstantiationKey V) k v => <[k := v]> m
  end.

(** The length of a key's bucket, which the cap bounds; the flat caches have no
    cap. *)
Definition len {V} (c : cache) : Map c V -> Key c -> nat :=
  match c with
  | GENERIC | INSTANTIATION => fun (m : Buckets V) k => length (bucket m (fst k))
  | _ => fun _ _ => 0
  end.
Definition capped (c : cache) (cap len : nat) : bool :=
  match c with GENERIC | INSTANTIATION => cap <=? len | _ => false end.

(** *** A slot per cache *)

Record Caches (F : cache -> Type) := mkCaches {
  generic : F GENERIC;
  instantiations : F INSTANTIATION;
  physical : F PHYSICAL;
  templates : F TEMPLATE;
  methods : F METHOD;
  overloads : F OVERLOAD
}.

Definition slot {F} (cs : Caches F) (c : cache) : F c :=
  match c with
  | GENERIC => generic F cs
  | INSTANTIATION => instantiations F cs
  | PHYSICAL => physical F cs
  | TEMPLATE => templates F cs
  | METHOD => methods F cs
  | OVERLOAD => overloads F cs
  end.

Definition with_slot {F} (c : cache) : F c -> Caches F -> Caches F :=
  match c with
  | GENERIC => fun x '(mkCaches _ _ b c d e f) => mkCaches _ x b c d e f
  | INSTANTIATION => fun x '(mkCaches _ a _ c d e f) => mkCaches _ a x c d e f
  | PHYSICAL => fun x '(mkCaches _ a b _ d e f) => mkCaches _ a b x d e f
  | TEMPLATE => fun x '(mkCaches _ a b c _ e f) => mkCaches _ a b c x e f
  | METHOD => fun x '(mkCaches _ a b c d _ f) => mkCaches _ a b c d x f
  | OVERLOAD => fun x '(mkCaches _ a b c d e _) => mkCaches _ a b c d e x
  end.

Definition fill {F} (f : forall c, F c) : Caches F :=
  mkCaches F (f GENERIC) (f INSTANTIATION) (f PHYSICAL) (f TEMPLATE) (f METHOD) (f OVERLOAD).

(** The live maps. *)
Definition ProgramCaches : Type := Caches (fun c => Map c (Val c)).

(** ** The caches of a serial check

    The paths of [infer/types/cache] without an active session. *)

Record Program := mkProgram { live : ProgramCaches; capped_count : nat }.

Definition insert_live (c : cache) (k : Key c) (v : Val c) (s : Program) : Program :=
  mkProgram (with_slot c (push c (slot (live s) c) k v) (live s)) (capped_count s).
Definition count_capped (s : Program) : Program := mkProgram (live s) (S (capped_count s)).

Definition lookup_live (c : cache) (k : Key c) (s : Program) : option (Val c) := get c (slot (live s) c) k.

(** [cache_persistent_generic_resolution]. *)
Definition cache_generic_live (cap : nat) (k : Key GENERIC) (v : Val GENERIC) (s : Program) : Program :=
  match lookup_live GENERIC k s with
  | Some _ => s
  | None =>
      if capped GENERIC cap (len GENERIC (slot (live s) GENERIC) k) then count_capped s
      else insert_live GENERIC k v s
  end.

(** The guard of [intern_instantiation]: the lazy reference a recursive alias's
    back-edge resolves to, the reference to the very instantiation. *)
Definition self_reference (k : Key INSTANTIATION) (structural : ty) : bool :=
  match structural with
  | Reference r =>
      same_arguments (arguments r) (snd k)
      && (length (ref_id r) =? length (file_name (fst k)) + 1 + length (name (fst k)))
      && starts_with (file_name (fst k)) (ref_id r)
      && ends_with (name (fst k)) (ref_id r)
  | _ => false
  end.

(** [intern_instantiation] past its guard, and the [intern_physical_interface_*]
    functions. *)
Definition intern_live (cap : nat) (c : cache) (k : Key c) (v : Val c) (s : Program) : Val c * Program :=
  match lookup_live c k s with
  | Some existing => (existing, s)
  | None =>
      if capped c cap (len c (slot (live s) c) k) then (v, count_capped s) else (v, insert_live c k v s)
  end.

Definition intern_instantiation_live (cap : nat) (k : Key INSTANTIATION) (structural : ty) (s : Program) : ty * Program :=
  if self_reference k structural then (structural, s) else intern_live cap INSTANTIATION k structural s.

(** ** Laws *)

(** The key of an entry answers a key. *)
Definition same (c : cache) : Key c -> Key c -> bool :=
  match c with
  | GENERIC | INSTANTIATION => fun k k' => bool_decide (fst k = fst k') && same_arguments (snd k) (snd k')
  | PHYSICAL | TEMPLATE | METHOD | OVERLOAD => fun k k' => bool_decide (k = k')
  end.

(** The arguments of a key are well-formed types. *)
Definition key_ok (c : cache) : Key c -> Prop :=
  match c with
  | GENERIC | INSTANTIATION => fun k => Forall wf (snd k)
  | _ => fun _ => True
  end.

Lemma slot_with_same {F} c (x : F c) cs : slot (with_slot c x cs) c = x.
Proof. by destruct c, cs. Qed.

Lemma slot_with_other {F} c c' (x : F c) cs : c <> c' -> slot (with_slot c x cs) c' = slot cs c'.
Proof. by destruct c, c', cs. Qed.

Lemma slot_fill {F} (f : forall c, F c) c : slot (fill f) c = f c.
Proof. by destruct c. Qed.

Lemma caches_ext {F} (a b : Caches F) : (forall c, slot a c = slot b c) -> a = b.
Proof.
  intros E. destruct a, b. pose proof (E GENERIC). pose proof (E INSTANTIATION). pose proof (E PHYSICAL).
  pose proof (E TEMPLATE). pose proof (E METHOD). pose proof (E OVERLOAD). simpl in *. by subst.
Qed.

Lemma get_empty {V} c k : get c (empty c V) k = None.
Proof. by destruct c. Qed.

Lemma bucket_push_get {V} (m : Buckets V) k v k' :
  bucket_get (bucket_push m k v) k' =
  match bucket_get m k' with
  | Some x => Some x
  | None => if bool_decide (fst k = fst k') && same_arguments (snd k) (snd k') then Some v else None
  end.
Proof.
  unfold bucket_get, bucket_push, bucket. case_bool_decide as E.
  - rewrite <- E, lookup_insert_eq. simpl. set (f := fun entry : list ty * V => _).
    induction (default [] (m !! fst k)) as [|e l IH]; simpl.
    + unfold f at 1. simpl. by destruct (same_arguments _ _).
    + by destruct (f e).
  - rewrite lookup_insert_ne by done. simpl. by destruct (List.find _ _).
Qed.

(** Adding an entry changes the answers for its key alone. *)
Lemma get_push {V} c (m : Map c V) k v k' :
  get c m k = None ->
  get c (push c m k v) k' = match get c m k' with Some x => Some x | None => if same c k k' then Some v else None end.
Proof.
  destruct c; simpl; intros Hk; try apply bucket_push_get.
  all: case_bool_decide as E; [subst; by rewrite lookup_insert_eq, Hk|].
  all: rewrite lookup_insert_ne by done; by case_match.
Qed.

Lemma fold_arguments l l' :
  Forall wf l -> Forall wf l' -> same_arguments l l' = true ->
  length l = length l' /\ forall hash,
  foldl (fun hash argument => hash_u64 (type_conflict_digest argument) hash) hash l
  = foldl (fun hash argument => hash_u64 (type_conflict_digest argument) hash) hash l'.
Proof.
  intros Hl. revert l'. induction Hl as [|x l Hx _ IH]; intros [|y l'] Hl' Heq; try done.
  inversion_clear Hl' as [|? ? Hy Hl'']. cbn in Heq. apply andb_true_iff in Heq as [Hxy Heq].
  destruct (IH l' Hl'' Heq) as [Hlen Hfold]. split; [simpl; by rewrite Hlen|]. intros hash. simpl. rewrite Hfold.
  unfold type_conflict_digest. by rewrite (fine_key_eq x y).
Qed.

(** A key answered by an entry has the digest of the entry's key. *)
Lemma digest_same c k k' : key_ok c k -> key_ok c k' -> same c k k' = true -> digest c k = digest c k'.
Proof.
  destruct c; simpl; try (intros _ _ E; apply bool_decide_eq_true in E; by subst).
  all: destruct k as [k l], k' as [k' l']; simpl; intros Hl Hl' E.
  all: apply andb_true_iff in E as [E Heq]; apply bool_decide_eq_true in E; subst.
  all: destruct (fold_arguments l l' Hl Hl' Heq) as [Hlen Hfold]; unfold digest_bucket; by rewrite Hlen, Hfold.
Qed.

Lemma len_empty {V} c k : len c (empty c V) k = 0.
Proof. by destruct c. Qed.

(** An entry is one more of its bucket. *)
Definition same_bucket (c : cache) : Key c -> Key c -> bool :=
  match c with
  | GENERIC | INSTANTIATION => fun k k' => bool_decide (fst k = fst k')
  | _ => fun _ _ => false
  end.

Lemma len_push {V} c (m : Map c V) k v k' :
  len c (push c m k v) k' = len c m k' + (if same_bucket c k k' then 1 else 0).
Proof.
  destruct c; simpl; try done.
  all: unfold bucket_push, bucket; case_bool_decide as E.
  all: try (rewrite <- E, lookup_insert_eq; simpl; rewrite length_app; simpl; lia).
  all: rewrite lookup_insert_ne by done; lia.
Qed.
End caches.

(** Keys for the examples: numbers. *)
#[export] Instance number_hash : HashKey Z := {| hash_key := hash_u64 |}.
Definition number_keys : InterfaceKeys := {|
  InterfaceInstantiationKey := Z; StableInterfaceDeclarationId := Z; InterfaceMemberInstantiationKey := Z;
  InterfaceOverloadInstantiationKey := Z; InterfaceDeclarationTemplate := Z
|}.
