(* ===== verification/Reservation.v ===== *)
(** * Publisher reservations ([surge-ts-checker/src/speculative/reservation.rs])

    Each position reserves the keys its worker log publishes; a replay that
    misses a key an earlier pending position owns is to wait for it. The table
    has a map of reservations per cache and counts the pending ones. *)

From stdpp Require Import gmap.
From S2P Require Import Prelude TypeModel Caches.

Inductive ReservationState := Pending | Ready | Cancelled.

#[export] Instance reservation_state_eq_dec : EqDecision ReservationState.
Proof. solve_decision. Defined.

Record Reservation := mkReservation {
  publisher : nat;
  attempt : Z;
  state : ReservationState;
  version : Z
}.

Inductive ReservationLookup := None_ | Deferred (publisher : nat) (attempt : Z).

(** ** Visibility *)

Definition is_pending (r : Reservation) : bool := bool_decide (state r = Pending).

(** One round of the loop. *)
Definition better_reservation (k : nat) (best : option Reservation) (r : Reservation) : option Reservation :=
  if (k <=? publisher r) || negb (is_pending r) then best
  else match best with
  | Some current => if publisher current <=? publisher r then Some current else Some r
  | None => Some r
  end.

Definition reservation_visibility (reservations : list Reservation) (k : nat) : ReservationLookup :=
  match foldl (better_reservation k) None reservations with
  | Some r => Deferred (publisher r) (attempt r)
  | None => None_
  end.

(** The loop keeps the earliest pending publisher below [k] it has seen. *)
Lemma visibility_loop k rs best :
  (forall b, best = Some b -> state b = Pending /\ publisher b < k) ->
  match foldl (better_reservation k) best rs with
  | None => best = None /\ forall r, In r rs -> state r = Pending -> k <= publisher r
  | Some b =>
      (best = Some b \/ In b rs) /\ state b = Pending /\ publisher b < k
      /\ (forall b', best = Some b' -> publisher b <= publisher b')
      /\ forall r, In r rs -> state r = Pending -> publisher b <= publisher r
  end.
Proof.
  revert best. induction rs as [|r rs IH]; intros best Hbest; simpl.
  - destruct best as [b|]; [|done]. destruct (Hbest b eq_refl). naive_solver.
  - assert (Hr : is_pending r = true <-> state r = Pending) by apply bool_decide_eq_true.
    assert (Hnext : forall b, better_reservation k best r = Some b -> state b = Pending /\ publisher b < k).
    { intros b. unfold better_reservation. case_split; [apply Hbest|].
      assert (state r = Pending /\ publisher r < k) by (rewrite <- Hr; lia).
      destruct best as [b'|]; [case_split|]; intros [= <-]; auto. }
    specialize (IH _ Hnext). destruct (foldl _ _ rs) as [b|].
    + destruct IH as (Hin & Hs & Hk & Hle & Hall). unfold better_reservation in *.
      destruct ((k <=? publisher r) || negb (is_pending r)) eqn:E.
      * repeat split; try done; [naive_solver|]. intros r' [<-|Hin'] Hp; [|by apply Hall].
        apply Hr in Hp. lia.
      * destruct best as [b'|]; [destruct (publisher b' <=? publisher r) eqn:El|].
        -- repeat split; try done; [naive_solver|]. intros r' [<-|Hin'] Hp; [|by apply Hall].
           specialize (Hle b' eq_refl). lia.
        -- specialize (Hle r eq_refl). repeat split; try done.
           ++ right. destruct Hin as [[= <-]|Hin]; [by left|by right].
           ++ intros ? [= <-]. lia.
           ++ intros r' [<-|Hin'] Hp; [done|by apply Hall].
        -- specialize (Hle r eq_refl). repeat split; try done.
           ++ right. destruct Hin as [[= <-]|Hin]; [by left|by right].
           ++ intros r' [<-|Hin'] Hp; [done|by apply Hall].
    + destruct IH as [Hb Hall]. unfold better_reservation in Hb. case_split_in Hb.
      * split; [done|]. intros r' [<-|Hin] Hp; [|by apply Hall]. apply Hr in Hp. lia.
      * destruct best; [case_split_in Hb|]; done.
Qed.

Lemma visibility_spec rs k :
  match reservation_visibility rs k with
  | None_ => forall r p, In r rs /\ state r = Pending /\ publisher r = p -> k <= p
  | Deferred p a =>
      p < k /\ (exists r, (In r rs /\ state r = Pending /\ publisher r = p) /\ attempt r = a)
      /\ forall r q, In r rs /\ state r = Pending /\ publisher r = q -> p <= q
  end.
Proof.
  unfold reservation_visibility. pose proof (visibility_loop k rs None ltac:(done)) as Hl.
  destruct (foldl _ _ rs) as [b|]; naive_solver.
Qed.

Lemma visibility_none rs k : (forall r, In r rs -> is_pending r = false) -> reservation_visibility rs k = None_.
Proof.
  intros Hrs. pose proof (visibility_spec rs k) as Hs. destruct (reservation_visibility rs k) as [|p a]; [done|].
  destruct Hs as (_ & (r & (Hin & Hp & _) & _) & _). apply Hrs in Hin. unfold is_pending in Hin.
  by rewrite bool_decide_eq_true_2 in Hin.
Qed.

(** ** One map of reservations

    The two bucketed maps pair a reservation with its arguments, the flat ones
    do not: [reservation_of] reads the reservation of an entry and [of_key] says
    whether the entry is for the key. *)

Section map.
Context {K E : Type} `{Countable K}.
Context (reservation_of : E -> Reservation) (with_reservation : Reservation -> E -> E).

(** The counters of pending reservations, now and at most. *)
Record Counters := mkCounters { pending : nat; peak_pending : nat }.

Definition count_reserved (n : Counters) : Counters :=
  mkCounters (S (pending n)) (Nat.max (peak_pending n) (S (pending n))).
Definition count_settled (n : Counters) : Counters := mkCounters (pending n - 1) (peak_pending n).

Definition reserve (of_key : E -> bool) (entry : Reservation -> E) (key : K) (p : nat) (a : Z)
    (m : gmap K (list E)) (n : Counters) : gmap K (list E) * Counters :=
  let slot := default [] (m !! key) in
  if existsb (fun e => of_key e && (publisher (reservation_of e) =? p)) slot
  then (<[key := slot]> m, n)
  else (<[key := slot ++ [entry (mkReservation p a Pending 0)]]> m, count_reserved n).

Definition query (of_key : E -> bool) (key : K) (m : gmap K (list E)) (k : nat) : ReservationLookup :=
  match m !! key with
  | None => None_
  | Some slot => reservation_visibility (map reservation_of (List.filter of_key slot)) k
  end.

(** The loop over one slot: the pending reservations of the publisher change
    their state. *)
Definition settles (p : nat) (e : E) : bool := (publisher (reservation_of e) =? p) && is_pending (reservation_of e).

Fixpoint transition_slot (p : nat) (to : ReservationState) (v : Z) (slot : list E) (n : Counters) : list E * Counters :=
  match slot with
  | [] => ([], n)
  | e :: slot =>
      let '(e, n) :=
        if settles p e
        then (with_reservation (mkReservation (publisher (reservation_of e)) (attempt (reservation_of e)) to v) e, count_settled n)
        else (e, n) in
      let '(slot, n) := transition_slot p to v slot n in
      (e :: slot, n)
  end.

(** The loop over [values_mut], in the order of the map. *)
Definition transition_map (p : nat) (to : ReservationState) (v : Z) (m : gmap K (list E)) (n : Counters)
    : gmap K (list E) * Counters :=
  map_fold (fun key slot '(settled, n) =>
    let '(slot, n) := transition_slot p to v slot n in (<[key := slot]> settled, n)) (∅, n) m.

(** *** Laws of a map *)

Definition settle (p : nat) (to : ReservationState) (v : Z) (e : E) : E :=
  if settles p e
  then with_reservation (mkReservation (publisher (reservation_of e)) (attempt (reservation_of e)) to v) e else e.
Definition count (f : E -> bool) (slot : list E) : nat := length (List.filter f slot).
Definition total (f : E -> bool) (m : gmap K (list E)) : nat := map_fold (fun _ slot n => count f slot + n) 0 m.

Lemma transition_slot_eq p to v slot n :
  transition_slot p to v slot n
  = (map (settle p to v) slot, mkCounters (pending n - count (settles p) slot) (peak_pending n)).
Proof.
  revert n. induction slot as [|e slot IH]; intros n.
  - destruct n. unfold count. simpl. by rewrite Nat.sub_0_r.
  - simpl. unfold count. simpl. destruct (settles p e) eqn:Es; rewrite IH; unfold count; simpl; do 2 f_equal;
      solve [lia | unfold settle; by rewrite Es].
Qed.

Lemma total_insert f key slot m : m !! key = None -> total f (<[key := slot]> m) = count f slot + total f m.
Proof. intros Hm. unfold total. rewrite map_fold_insert_L; [done|intros; lia|done]. Qed.

Lemma total_update f key slot m :
  total f (<[key := slot]> m) + count f (default [] (m !! key)) = count f slot + total f m.
Proof.
  destruct (m !! key) as [old|] eqn:Hold; simpl.
  - rewrite <- (insert_delete_id m key old Hold) at 2. rewrite <- insert_delete_eq, !total_insert by apply lookup_delete_eq. lia.
  - rewrite total_insert by done. unfold count at 2. simpl. lia.
Qed.

Lemma transition_map_eq p to v m n :
  transition_map p to v m n
  = (map (settle p to v) <$> m, mkCounters (pending n - total (settles p) m) (peak_pending n)).
Proof.
  unfold transition_map, total. apply (map_fold_weak_ind (fun r m' => r = (map (settle p to v) <$> m',
    mkCounters (pending n - map_fold (fun _ slot n => count (settles p) slot + n) 0 m') (peak_pending n)))).
  - rewrite fmap_empty, map_fold_empty, Nat.sub_0_r. by destruct n.
  - intros key slot m' r Hm ->. simpl. rewrite transition_slot_eq, fmap_insert. f_equal. simpl.
    fold (total (settles p) m') (total (settles p) (<[key := slot]> m')). rewrite total_insert by done. f_equal. lia.
Qed.

Lemma count_le f g h slot :
  (forall e, f e = true -> g e = true \/ h e = true) -> count f slot <= count g slot + count h slot.
Proof.
  clear reservation_of with_reservation. intros Hf. unfold count. induction slot as [|e slot IH]; [done|]. simpl.
  destruct (f e) eqn:Hfe; [destruct (Hf e Hfe) as [-> | ->]; repeat case_split; simpl; lia|].
  repeat case_split; simpl; lia.
Qed.

Lemma total_le f g h m :
  (forall e, f e = true -> g e = true \/ h e = true) -> total f m <= total g m + total h m.
Proof.
  clear reservation_of with_reservation. intros Hf.
  induction m as [|key slot m Hm IH] using map_ind; [by unfold total; rewrite !map_fold_empty|].
  rewrite !total_insert by done. pose proof (count_le f g h slot Hf). lia.
Qed.

Lemma total_fmap f g m : total f (map g <$> m) = total (fun e => f (g e)) m.
Proof.
  induction m as [|key slot m Hm IH] using map_ind; [by rewrite fmap_empty|].
  rewrite fmap_insert, !total_insert, IH by (rewrite ?lookup_fmap, ?Hm; done). f_equal.
  unfold count. clear. induction slot as [|e slot IH]; [done|]. simpl. destruct (f (g e)); simpl; lia.
Qed.

Lemma total_ext f g m : (forall e, f e = g e) -> total f m = total g m.
Proof.
  clear reservation_of with_reservation. intros Hf.
  induction m as [|key slot m Hm IH] using map_ind; [by unfold total; rewrite !map_fold_empty|].
  rewrite !total_insert, IH by done. f_equal. unfold count. f_equal. by apply List.filter_ext.
Qed.

Lemma total_reserve of_key entry key p a m n :
  let new := entry (mkReservation p a Pending 0) in
  let '(m', n') := reserve of_key entry key p a m n in
  (n' = n /\ forall f, total f m' = total f m)
  \/ (n' = count_reserved n /\ forall f, total f m' = total f m + (if f new : bool then 1 else 0)).
Proof.
  clear with_reservation. intros new. unfold reserve. fold new. pose proof (fun f => total_update f key) as Hu. destruct (existsb _ _).
  - left. split; [done|]. intros g. specialize (Hu g (default [] (m !! key)) m). lia.
  - right. split; [done|]. intros g. specialize (Hu g (default [] (m !! key) ++ [new]) m).
    unfold count in *. rewrite List.filter_app, length_app in Hu. simpl in Hu. destruct (g new); simpl in Hu; lia.
Qed.
End map.
Arguments Counters : clear implicits.

(** ** The table *)

Section table.
Context `{InterfaceKeys}.

Definition Reservations (c : cache) : Type :=
  match c with
  | GENERIC | INSTANTIATION => gmap DeclarationResolutionKey (list (list ty * Reservation))
  | PHYSICAL => gmap InterfaceInstantiationKey (list Reservation)
  | TEMPLATE => gmap StableInterfaceDeclarationId (list Reservation)
  | METHOD => gmap InterfaceMemberInstantiationKey (list Reservation)
  | OVERLOAD => gmap InterfaceOverloadInstantiationKey (list Reservation)
  end.

Definition no_reservations (c : cache) : Reservations c :=
  match c with
  | GENERIC | INSTANTIATION => (∅ : gmap DeclarationResolutionKey (list (list ty * Reservation)))
  | PHYSICAL => (∅ : gmap InterfaceInstantiationKey (list Reservation))
  | TEMPLATE => (∅ : gmap StableInterfaceDeclarationId (list Reservation))
  | METHOD => (∅ : gmap InterfaceMemberInstantiationKey (list Reservation))
  | OVERLOAD => (∅ : gmap InterfaceOverloadInstantiationKey (list Reservation))
  end.

(** [reserve_bucketed] and [reserve_flat]. *)
Definition reserve_bucketed (k : DeclarationResolutionKey * list ty) :=
  reserve (K := DeclarationResolutionKey) snd (fun e => same_arguments (fst e) (snd k)) (pair (snd k)) (fst k).
Definition reserve_flat {K} `{Countable K} (k : K) := reserve (fun r : Reservation => r) (fun _ => true) id k.

Definition reserve_in (c : cache) : Key c -> nat -> Z -> Reservations c -> Counters -> Reservations c * Counters :=
  match c with
  | GENERIC | INSTANTIATION => reserve_bucketed
  | PHYSICAL | TEMPLATE | METHOD | OVERLOAD => reserve_flat
  end.

(** [query_bucketed] and [query_flat]. *)
Definition query_bucketed (k : DeclarationResolutionKey * list ty) :=
  query (K := DeclarationResolutionKey) snd (fun e => same_arguments (fst e) (snd k)) (fst k).
Definition query_flat {K} `{Countable K} (k : K) := query (fun r : Reservation => r) (fun _ => true) k.

Definition query_in (c : cache) : Key c -> Reservations c -> nat -> ReservationLookup :=
  match c with
  | GENERIC | INSTANTIATION => query_bucketed
  | PHYSICAL | TEMPLATE | METHOD | OVERLOAD => query_flat
  end.

(** [transition_bucketed] and [transition_flat]. *)
Definition transition_bucketed :=
  transition_map (K := DeclarationResolutionKey) snd (fun r (e : list ty * Reservation) => (fst e, r)).
Definition transition_flat {K} `{Countable K} := transition_map (K := K) (fun r => r) (fun r _ => r).

Definition transition_in (c : cache) : nat -> ReservationState -> Z -> Reservations c -> Counters -> Reservations c * Counters :=
  match c with
  | GENERIC | INSTANTIATION => transition_bucketed
  | PHYSICAL | TEMPLATE | METHOD | OVERLOAD => transition_flat
  end.

Record ReservationTable := mkTable { reservations : Caches Reservations; counters : Counters }.

Definition new_table : ReservationTable := mkTable (fill no_reservations) (mkCounters 0 0).

Definition reserve_key (c : cache) (k : Key c) (p : nat) (a : Z) (t : ReservationTable) : ReservationTable :=
  let '(m, n) := reserve_in c k p a (slot (reservations t) c) (counters t) in
  mkTable (with_slot c m (reservations t)) n.

Definition query_key (c : cache) (k : Key c) (t : ReservationTable) (position : nat) : ReservationLookup :=
  query_in c k (slot (reservations t) c) position.

Definition transition_cache (p : nat) (to : ReservationState) (v : Z) (t : ReservationTable) (c : cache) : ReservationTable :=
  let '(m, n) := transition_in c p to v (slot (reservations t) c) (counters t) in
  mkTable (with_slot c m (reservations t)) n.

Definition transition (p : nat) (to : ReservationState) (v : Z) (t : ReservationTable) : ReservationTable :=
  foldl (transition_cache p to v) t [GENERIC; INSTANTIATION; PHYSICAL; TEMPLATE; METHOD; OVERLOAD].

Definition finalize (p : nat) (v : Z) : ReservationTable -> ReservationTable := transition p Ready v.
Definition cancel (p : nat) : ReservationTable -> ReservationTable := transition p Cancelled 0.
Definition clear (_ : ReservationTable) : ReservationTable := new_table.
Definition pending_count (t : ReservationTable) : nat := pending (counters t).

(** *** Laws of the table *)

Definition total_in (c : cache) (f : Reservation -> bool) : Reservations c -> nat :=
  match c with
  | GENERIC | INSTANTIATION => total (K := DeclarationResolutionKey) (fun e => f (snd e))
  | PHYSICAL | TEMPLATE | METHOD | OVERLOAD => total f
  end.

Definition tally (f : Reservation -> bool) (t : ReservationTable) : nat :=
  sum_list (map (fun c => total_in c f (slot (reservations t) c))
    [GENERIC; INSTANTIATION; PHYSICAL; TEMPLATE; METHOD; OVERLOAD]).

Abbreviation settled := (settle (fun r : Reservation => r) (fun r _ => r)).
Abbreviation owned_pending p := (settles (fun r : Reservation => r) p).

Lemma reserve_in_total c k p a m n :
  let '(m', n') := reserve_in c k p a m n in
  (n' = n /\ forall f, total_in c f m' = total_in c f m)
  \/ (n' = count_reserved n
      /\ forall f, total_in c f m' = total_in c f m + (if f (mkReservation p a Pending 0) : bool then 1 else 0)).
Proof.
  destruct c.
  1-2: pose proof (total_reserve (K := DeclarationResolutionKey) snd
    (fun e => same_arguments (fst e) (snd k)) (pair (snd k)) (fst k) p a m n) as Ht.
  3-6: pose proof (total_reserve (fun r : Reservation => r) (fun _ => true) id k p a m n) as Ht.
  all: simpl; unfold reserve_bucketed, reserve_flat; destruct (reserve _ _ _ _ _ _ _ _) as [m' n']; simpl in Ht.
  all: destruct Ht as [[-> Ht]|[-> Ht]]; [left|right]; (split; [done|]); intros f; apply Ht.
Qed.

Lemma transition_in_total c p to v m n :
  let '(m', n') := transition_in c p to v m n in
  pending n' = pending n - total_in c (owned_pending p) m
  /\ forall f, total_in c f m' = total_in c (fun r => f (settled p to v r)) m.
Proof.
  destruct c; simpl; unfold transition_bucketed, transition_flat; rewrite transition_map_eq; simpl.
  all: split; [done|]; intros f; rewrite total_fmap; apply total_ext; intros e; try done.
  all: unfold settle, settles; simpl; by destruct (_ && _).
Qed.

Lemma total_in_le c f g h m :
  (forall r, f r = true -> g r = true \/ h r = true) -> total_in c f m <= total_in c g m + total_in c h m.
Proof. destruct c; simpl; intros Hf; apply total_le; intros e; apply Hf. Qed.

Lemma tally_le f g h t :
  (forall r, f r = true -> g r = true \/ h r = true) -> tally f t <= tally g t + tally h t.
Proof.
  intros Hf. unfold tally. simpl. pose proof (fun c => total_in_le c f g h (slot (reservations t) c) Hf) as Hle.
  pose proof (Hle GENERIC). pose proof (Hle INSTANTIATION). pose proof (Hle PHYSICAL). pose proof (Hle TEMPLATE).
  pose proof (Hle METHOD). pose proof (Hle OVERLOAD). simpl in *. lia.
Qed.

Lemma tally_with f c m t n :
  tally f (mkTable (with_slot c m (reservations t)) n) + total_in c f (slot (reservations t) c)
  = total_in c f m + tally f t.
Proof. destruct t as [[? ? ? ? ? ?] ?], c; unfold tally; simpl; lia. Qed.

Lemma tally_reserve c k p a t :
  (counters (reserve_key c k p a t) = counters t /\ forall f, tally f (reserve_key c k p a t) = tally f t)
  \/ (counters (reserve_key c k p a t) = count_reserved (counters t)
      /\ forall f, tally f (reserve_key c k p a t) = tally f t + (if f (mkReservation p a Pending 0) : bool then 1 else 0)).
Proof.
  unfold reserve_key. pose proof (reserve_in_total c k p a (slot (reservations t) c) (counters t)) as Ht.
  destruct (reserve_in _ _ _ _ _ _) as [m n].
  destruct Ht as [[-> Ht]|[-> Ht]]; [left|right]; (split; [done|]); intros f; specialize (Ht f).
  all: match goal with |- tally ?g (mkTable _ ?n) = _ => pose proof (tally_with g c m t n) end; lia.
Qed.

Lemma transition_fold p to v cs t :
  NoDup cs ->
  pending (counters (foldl (transition_cache p to v) t cs))
  = pending (counters t) - sum_list (map (fun c => total_in c (owned_pending p) (slot (reservations t) c)) cs)
  /\ forall c f, total_in c f (slot (reservations (foldl (transition_cache p to v) t cs)) c)
     = total_in c (fun r => if bool_decide (c ∈ cs) then f (settled p to v r) else f r) (slot (reservations t) c).
Proof.
  revert t. induction cs as [|c cs IH]; intros t Hcs.
  - split; [apply eq_sym, Nat.sub_0_r|]. intros c f. by rewrite bool_decide_eq_false_2 by apply not_elem_of_nil.
  - apply NoDup_cons in Hcs as [Hc Hcs]. cbn [foldl map sum_list].
    destruct (IH (transition_cache p to v t c) Hcs) as [Hp Hf]. clear IH. rewrite Hp.
    unfold transition_cache in *.
    pose proof (transition_in_total c p to v (slot (reservations t) c) (counters t)) as Ht.
    destruct (transition_in _ _ _ _ _ _) as [m n]. cbn [reservations counters] in *. destruct Ht as [-> Ht].
    split.
    + rewrite Nat.sub_add_distr. do 2 f_equal. apply map_ext_in. intros c' Hc'.
      rewrite slot_with_other; [done|]. intros ->. by apply Hc, list_elem_of_In.
    + intros c' f. rewrite Hf. destruct (decide (c = c')) as [<-|Hne].
      * rewrite slot_with_same, Ht. rewrite (bool_decide_eq_false_2 _ Hc).
        by rewrite bool_decide_eq_true_2 by apply elem_of_cons, or_introl, eq_refl.
      * rewrite slot_with_other by done. rewrite (bool_decide_ext (c' ∈ c :: cs) (c' ∈ cs)); [done|]. rewrite elem_of_cons.
        split; [intros [E|?]; [by destruct Hne|done]|by right].
Qed.

Lemma tally_transition p to v t :
  pending (counters (transition p to v t)) = pending (counters t) - tally (owned_pending p) t
  /\ forall f, tally f (transition p to v t) = tally (fun r => f (settled p to v r)) t.
Proof.
  destruct (transition_fold p to v [GENERIC; INSTANTIATION; PHYSICAL; TEMPLATE; METHOD; OVERLOAD] t) as [Hp Hf].
  { apply (bool_decide_unpack _). vm_compute. exact I. }
  split; [exact Hp|]. intros f. unfold tally. f_equal. apply map_ext_in. intros c Hc. unfold transition. rewrite Hf.
  rewrite bool_decide_eq_true_2; [done|]. by apply list_elem_of_In.
Qed.

(** *** The reservations of a key *)

Definition reservations_for (c : cache) : Key c -> Reservations c -> list Reservation :=
  match c with
  | GENERIC | INSTANTIATION => fun k (m : gmap DeclarationResolutionKey (list (list ty * Reservation))) =>
      map snd (List.filter (fun e => same_arguments (fst e) (snd k)) (default [] (m !! fst k)))
  | PHYSICAL => fun k (m : gmap InterfaceInstantiationKey (list Reservation)) => default [] (m !! k)
  | TEMPLATE => fun k (m : gmap StableInterfaceDeclarationId (list Reservation)) => default [] (m !! k)
  | METHOD => fun k (m : gmap InterfaceMemberInstantiationKey (list Reservation)) => default [] (m !! k)
  | OVERLOAD => fun k (m : gmap InterfaceOverloadInstantiationKey (list Reservation)) => default [] (m !! k)
  end.

Lemma query_in_eq c k m position : query_in c k m position = reservation_visibility (reservations_for c k m) position.
Proof.
  assert (Hid : forall slot : list Reservation, map (fun r => r) (List.filter (fun _ => true) slot) = slot).
  { intros slot. rewrite map_id. induction slot; simpl; congruence. }
  destruct c; simpl; unfold query_bucketed, query_flat, query.
  all: match goal with |- context [@lookup ?K ?A ?M ?I ?k ?m] => destruct (@lookup K A M I k m) end; simpl; by rewrite ?Hid.
Qed.

Lemma total_zero {K E} `{Countable K} (f : E -> bool) (m : gmap K (list E)) key slot e :
  total f m = 0 -> m !! key = Some slot -> In e slot -> f e = false.
Proof.
  intros Hm Hs He. pose proof (total_update f key [] m) as Hu. rewrite Hs in Hu. simpl in Hu.
  assert (Hc : count f slot = 0) by (unfold count in *; simpl in Hu; lia). clear -Hc He.
  unfold count in Hc. apply length_zero_iff_nil in Hc. destruct (f e) eqn:Hf; [|done].
  assert (Hin : In e (List.filter f slot)) by by apply filter_In. by rewrite Hc in Hin.
Qed.

Lemma none_for c f k m r : total_in c f m = 0 -> In r (reservations_for c k m) -> f r = false.
Proof.
  destruct c; simpl; intros Hm Hr.
  1-2: apply in_map_iff in Hr as ([l r'] & <- & Hr); apply filter_In in Hr as [Hr _].
  all: match type of Hr with
  | context [@lookup ?K ?A ?M ?I ?k ?m] => destruct (@lookup K A M I k m) as [slot|] eqn:Hs; [|done]
  end.
  1-2: by apply (total_zero _ _ _ _ (l, r') Hm Hs).
  all: by apply (total_zero _ _ _ _ r Hm Hs).
Qed.

Lemma none_tallied f t : tally f t = 0 -> forall c, total_in c f (slot (reservations t) c) = 0.
Proof. unfold tally. simpl. intros Ht c. destruct c; simpl; lia. Qed.

(** *** A history of the table *)

Inductive table_op :=
  | Reserve (c : cache) (k : Key c) (p : nat) (a : Z)
  | Finalize (p : nat) (v : Z)
  | Cancel (p : nat)
  | Clear.

Definition table_step (t : ReservationTable) (op : table_op) : ReservationTable :=
  match op with
  | Reserve c k p a => reserve_key c k p a t
  | Finalize p v => finalize p v t
  | Cancel p => cancel p t
  | Clear => clear t
  end.

Definition publishes_below (n : nat) (op : table_op) : Prop :=
  match op with Reserve _ _ p _ => p < n | _ => True end.

(** The counter is exact, and the publishers are positions below [n]. *)
Definition table_ok (n : nat) (t : ReservationTable) : Prop :=
  pending_count t = tally is_pending t /\ tally (fun r => n <=? publisher r) t = 0.

Lemma table_ok_empty n : table_ok n new_table.
Proof. done. Qed.

Lemma tally_mono f g t : (forall r, f r = true -> g r = true) -> tally f t <= tally g t.
Proof.
  intros Hf. pose proof (tally_le f g (fun _ => false) t ltac:(auto)).
  assert (tally (fun _ => false) t = 0); [|lia].
  assert (Hz : forall c, total_in c (fun _ => false) (slot (reservations t) c) = 0); [|unfold tally; cbn [map]; by rewrite !Hz].
  intros c. assert (Ht : forall K E `(Countable K) (m : gmap K (list E)), total (fun _ => false) m = 0); [|by destruct c; simpl; rewrite Ht].
  clear. intros K E ? ? m. induction m as [|key slot m Hm IH] using map_ind; [by unfold total; rewrite map_fold_empty|].
  rewrite total_insert, IH by done. unfold count. clear. induction slot; simpl; lia.
Qed.

Lemma total_split {K E} `{Countable K} (f g h : E -> bool) (m : gmap K (list E)) :
  (forall e, Nat.b2n (f e) = Nat.b2n (g e) + Nat.b2n (h e)) -> total g m + total h m = total f m.
Proof.
  intros Hf. induction m as [|key slot m Hm IH] using map_ind; [by unfold total; rewrite !map_fold_empty|].
  rewrite !total_insert, <- IH by done. assert (count g slot + count h slot = count f slot); [|lia].
  unfold count. clear -Hf. induction slot as [|e slot IH]; [done|]. simpl. specialize (Hf e).
  destruct (f e), (g e), (h e); simpl in *; lia.
Qed.

Lemma tally_split f g h t :
  (forall r, Nat.b2n (f r) = Nat.b2n (g r) + Nat.b2n (h r)) -> tally g t + tally h t = tally f t.
Proof.
  intros Hf. assert (Hs : forall c m, total_in c g m + total_in c h m = total_in c f m).
  { intros c m. destruct c; simpl; apply total_split; intros e; apply Hf. }
  unfold tally. cbn [map]. rewrite <- !Hs. cbn [sum_list_with]. unfold id. lia.
Qed.

Lemma tally_ext f g t : (forall r, f r = g r) -> tally f t = tally g t.
Proof.
  intros Hf. apply Nat.le_antisymm; apply tally_mono; intros r; by rewrite Hf.
Qed.

Lemma settled_publisher p to v r : publisher (settled p to v r) = publisher r.
Proof. unfold settle. by case_match. Qed.

(** Settling takes the pending reservations of one publisher away. *)
Lemma settled_pending p to v r :
  to <> Pending -> is_pending (settled p to v r) = is_pending r && negb (publisher r =? p).
Proof.
  intros Hto. unfold settle, settles. destruct (publisher r =? p) eqn:E, (is_pending r) eqn:Hr; simpl; try done.
  unfold is_pending. simpl. by rewrite bool_decide_eq_false_2.
Qed.

Lemma settled_ok n t p to v : to <> Pending -> table_ok n t -> table_ok n (transition p to v t).
Proof.
  intros Hto [Hp Hn]. destruct (tally_transition p to v t) as [Hc Ht]. unfold table_ok, pending_count in *.
  rewrite Hc, !Ht. split.
  - rewrite Hp. apply Nat.add_sub_eq_l.
    rewrite (tally_ext (fun r => is_pending (settled p to v r)) (fun r => is_pending r && negb (publisher r =? p)))
      by (intros r; by apply settled_pending).
    apply tally_split. intros r. unfold settles. destruct (publisher r =? p), (is_pending r); done.
  - rewrite (tally_ext _ (fun r => n <=? publisher r)); [done|]. intros r. by rewrite settled_publisher.
Qed.

Lemma table_ok_step n t op : table_ok n t -> publishes_below n op -> table_ok n (table_step t op).
Proof.
  intros [Hp Hn] Hop. destruct op as [c k p a|p v|p|]; [| | |apply table_ok_empty].
  - unfold table_ok, pending_count in *. simpl in *. destruct (tally_reserve c k p a t) as [[-> Ht]|[-> Ht]]; rewrite !Ht; [done|].
    simpl. rewrite Hp, Hn. destruct (Nat.leb_spec n p); lia.
  - by apply settled_ok.
  - by apply (settled_ok n t p Cancelled 0).
Qed.

(** Finalizing the positions below [p] leaves the pending reservations of the
    others. *)
Lemma finalized_below n p v t :
  table_ok n t ->
  let t' := foldl (fun t p => finalize p (v p) t) t (seq 0 p) in
  table_ok n t' /\ tally (fun r => is_pending r && (publisher r <? p)) t' = 0.
Proof.
  intros Ht. induction p as [|p IH].
  - simpl. split; [done|]. pose proof (tally_mono (fun r => is_pending r && (publisher r <? 0)) (fun r => n <=? publisher r) t) as Hm.
    destruct Ht as [_ Ht]. rewrite Ht in Hm. apply Nat.le_0_r, Hm. intros r. lia.
  - rewrite seq_S, foldl_app. simpl. destruct IH as [Hok Hz]. split; [by apply settled_ok|].
    unfold finalize. rewrite (proj2 (tally_transition _ _ _ _)).
    apply Nat.le_0_r. etrans; [|by apply Nat.eq_le_incl, Hz].
    apply tally_mono. intros r. rewrite settled_publisher, settled_pending by done. lia.
Qed.

(** ** Properties *)

(** C32 A query answers the earliest pending publisher below the position, and no
    publisher when there is none: settled reservations and those of the position
    itself and of later ones are not seen. *)
Theorem query_earliest_pending c k t position :
  let pending_at r p := In r (reservations_for c k (slot (reservations t) c)) /\ state r = Pending /\ publisher r = p in
  match query_key c k t position with
  | None_ => forall r p, pending_at r p -> position <= p
  | Deferred p a => p < position /\ (exists r, pending_at r p /\ attempt r = a) /\ forall r q, pending_at r q -> p <= q
  end.
Proof.
  intros pending_at. unfold query_key. rewrite query_in_eq.
  apply visibility_spec.
Qed.

(** C33 The count of pending reservations is exact whatever the calls before, and
    once every position is finalized none is left: the count is zero and no
    query waits. *)
Theorem reservations_drained n ops v :
  Forall (publishes_below n) ops ->
  let t := foldl table_step new_table ops in
  let t' := foldl (fun t p => finalize p (v p) t) t (seq 0 n) in
  pending_count t = tally is_pending t /\ pending_count t' = 0 /\ forall c k position, query_key c k t' position = None_.
Proof.
  intros Hops t t'. assert (Ht : table_ok n t).
  { unfold t. generalize (table_ok_empty n). generalize new_table. induction Hops as [|op ops Hop _ IH]; intros t0 Ht0; [done|].
    by apply IH, table_ok_step. }
  destruct (finalized_below n n v t Ht) as [Hok Hz]. fold t' in Hok, Hz.
  assert (Hnone : tally is_pending t' = 0).
  { pose proof (tally_le is_pending (fun r => is_pending r && (publisher r <? n)) (fun r => n <=? publisher r) t') as Hle.
    destruct Hok as [_ Hn]. rewrite Hz, Hn in Hle. apply Nat.le_0_r, Hle. intros r. lia. }
  split; [apply Ht|]. split; [destruct Hok as [-> _]; exact Hnone|]. intros c k position.
  unfold query_key. rewrite query_in_eq. apply visibility_none. intros r Hr.
  by apply (none_for c _ k _ r (none_tallied _ _ Hnone c)).
Qed.
End table.

Lemma reservations_drained_witness :
  let ops := [Reserve (H := number_keys) GENERIC (mkKey (lit "a.ts") (lit "A") Type_ 0, [Number]) 0 7;
              Reserve (H := number_keys) TEMPLATE 3%Z 1 7; Cancel 0] in
  let t := foldl table_step new_table ops in
  pending_count t = tally is_pending t /\ pending_count t = 1
  /\ pending_count (foldl (fun t p => finalize p 1 t) t (seq 0 2)) = 0.
Proof.
  intros ops t. assert (Hops : Forall (publishes_below 2) ops) by (repeat constructor).
  destruct (reservations_drained 2 ops (fun _ => 1%Z) Hops) as (Hp & Hz & _).
  split; [exact Hp|]. split; [by vm_compute|exact Hz].
Defined.
