(* ===== verification/Session.v ===== *)
(** * Check sessions ([surge-ts-checker/src/speculative/session.rs], [file_log.rs])

    A session answers the cache calls of one worker or replay from a base view
    under an overlay of its own insertions, and logs per file what it observed
    missing, whose overlay entries it used and what it inserted. The base is the
    snapshot of the fan-out or the live maps; other threads may change the live
    maps and the reservations between two reads, so each read of them is at a
    moment of its own in a [World]. *)

From stdpp Require Import gmap.
From S2P Require Import Prelude TypeModel Caches Reservation.

Section session.
Context `{InterfaceKeys}.

(** ** Logs and sessions *)

Definition Inserts : Type := Caches (fun c => list (Key c * Val c * Z)).
Definition no_inserts : Inserts := fill (fun c => []).

Record FileCacheLog := mkLog {
  file_index : nat;
  misses : gset Z;
  overlay_deps : gset nat;
  inserts : Inserts
}.

Definition empty_log (file : nat) : FileCacheLog := mkLog file ∅ ∅ no_inserts.

(** The maps of the overlay hold the inserting file with each value. *)
Definition Overlay : Type := Caches (fun c => Map c (nat * Val c)).

Record WorkerOverlay := mkOverlay {
  overlay : Overlay;
  deferred_once : gset Z;
  current : FileCacheLog;
  current_active : bool;
  finished : list FileCacheLog
}.

Definition new_overlay : WorkerOverlay :=
  mkOverlay (fill (fun c => empty c _)) ∅ (empty_log 0) false [].

Inductive BaseView := Snapshot (base : ProgramCaches) | Live.

(** The position of a deferring session, and the largest publisher it deferred
    to ([-1] for none). *)
Record DeferralContext := mkDeferral { position : nat; max_deferred : Z }.

(** [clock] counts the reads of shared state, [capped_inserts] is the sum of the
    two program counters of capped insertions. *)
Record CheckSession := mkSession {
  base : BaseView;
  worker : WorkerOverlay;
  defer : option DeferralContext;
  clock : nat;
  capped_inserts : nat
}.

Definition new_session (base : ProgramCaches) : CheckSession := mkSession (Snapshot base) new_overlay None 0 0.
Definition new_live_reading : CheckSession := mkSession Live new_overlay None 0 0.
Definition new_live_reading_deferring (position : nat) : CheckSession :=
  mkSession Live new_overlay (Some (mkDeferral position (-1))) 0 0.

Definition deferred_until (s : CheckSession) : option nat :=
  match defer s with
  | Some d => if (0 <=? max_deferred d)%Z then Some (Z.to_nat (max_deferred d)) else None
  | None => None
  end.

(** What the live maps and the reservations are at each moment. *)
Record World := mkWorld { live_at : nat -> ProgramCaches; table_at : nat -> ReservationTable }.

(** ** State changes *)

Definition with_worker (f : WorkerOverlay -> WorkerOverlay) (s : CheckSession) : CheckSession :=
  mkSession (base s) (f (worker s)) (defer s) (clock s) (capped_inserts s).
Definition with_current (f : FileCacheLog -> FileCacheLog) : CheckSession -> CheckSession :=
  with_worker (fun o => mkOverlay (overlay o) (deferred_once o) (f (current o)) (current_active o) (finished o)).
Definition tick (s : CheckSession) : CheckSession :=
  mkSession (base s) (worker s) (defer s) (S (clock s)) (capped_inserts s).
Definition count_capped_insert (s : CheckSession) : CheckSession :=
  mkSession (base s) (worker s) (defer s) (clock s) (S (capped_inserts s)).

Definition record_dep (file : nat) (s : CheckSession) : CheckSession :=
  if file =? file_index (current (worker s)) then s
  else with_current (fun l => mkLog (file_index l) (misses l) ({[file]} ∪ overlay_deps l) (inserts l)) s.

Definition record_miss (digest : Z) : CheckSession -> CheckSession :=
  with_current (fun l => mkLog (file_index l) ({[digest]} ∪ misses l) (overlay_deps l) (inserts l)).

(** The insertion of every cache: into the log and into the overlay. *)
Definition insert_entry (c : cache) (k : Key c) (v : Val c) (s : CheckSession) : CheckSession :=
  let file := file_index (current (worker s)) in
  with_worker (fun o =>
      mkOverlay (with_slot c (push c (slot (overlay o) c) k (file, v)) (overlay o)) (deferred_once o)
        (current o) (current_active o) (finished o))
    (with_current (fun l =>
       mkLog (file_index l) (misses l) (overlay_deps l)
         (with_slot c (slot (inserts l) c ++ [(k, v, digest c k)]) (inserts l))) s).

(** [begin_file] and [take_file_logs]. *)
Definition finish_current (o : WorkerOverlay) : list FileCacheLog :=
  if current_active o then finished o ++ [current o] else finished o.

Definition begin_file (file : nat) : CheckSession -> CheckSession :=
  with_worker (fun o => mkOverlay (overlay o) (deferred_once o) (empty_log file) true (finish_current o)).

Definition take_file_logs (s : CheckSession) : list FileCacheLog * CheckSession :=
  (finish_current (worker s),
   with_worker (fun o =>
     mkOverlay (overlay o) (deferred_once o) (if current_active o then empty_log 0 else current o) false []) s).

(** ** Reads *)

Definition read_base (w : World) (s : CheckSession) : ProgramCaches * CheckSession :=
  match base s with
  | Snapshot b => (b, s)
  | Live => (live_at w (clock s), tick s)
  end.

Definition overlay_get (c : cache) (k : Key c) (s : CheckSession) : option (nat * Val c) :=
  get c (slot (overlay (worker s)) c) k.
Definition overlay_len (c : cache) (k : Key c) (s : CheckSession) : nat := len c (slot (overlay (worker s)) c) k.

(** [DeferralContext::check]. *)
Definition check_deferral (w : World) (c : cache) (k : Key c) (s : CheckSession) : option nat * CheckSession :=
  match defer s with
  | None => (None, s)
  | Some d =>
      match query_key c k (table_at w (clock s)) (position d) with
      | Deferred publisher _ =>
          (Some publisher,
           mkSession (base s) (worker s) (Some (mkDeferral (position d) (Z.max (max_deferred d) (Z.of_nat publisher))))
             (S (clock s)) (capped_inserts s))
      | None_ => (None, tick s)
      end
  end.

(** ** Operations *)

Inductive InstantiationProbe := Hit (v : Val INSTANTIATION) | Miss | Deferred_.

(** [generic_lookup] and the [*_lookup] functions of the flat caches. *)
Definition lookup_entry (w : World) (c : cache) (k : Key c) (s : CheckSession) : option (Val c) * CheckSession :=
  let '(b, s) := read_base w s in
  match get c (slot b c) k with
  | Some v => (Some v, s)
  | None =>
      match overlay_get c k s with
      | Some (file, v) => (Some v, record_dep file s)
      | None => (None, snd (check_deferral w c k (record_miss (digest c k) s)))
      end
  end.

(** [instantiation_probe]. *)
Definition instantiation_probe (w : World) (k : Key INSTANTIATION) (s : CheckSession) : InstantiationProbe * CheckSession :=
  let '(b, s) := read_base w s in
  match get INSTANTIATION (slot b INSTANTIATION) k with
  | Some v => (Hit v, s)
  | None =>
      match overlay_get INSTANTIATION k s with
      | Some (file, v) => (Hit v, record_dep file s)
      | None =>
          let digest := digest INSTANTIATION k in
          let s := record_miss digest s in
          if bool_decide (digest ∈ deferred_once (worker s)) then (Miss, s)
          else match check_deferral w INSTANTIATION k s with
          | (Some _, s) =>
              (Deferred_,
               with_worker (fun o => mkOverlay (overlay o) ({[digest]} ∪ deferred_once o) (current o) (current_active o) (finished o)) s)
          | (None, s) => (Miss, s)
          end
      end
  end.

(** [instantiation_lookup]. *)
Definition instantiation_lookup (w : World) (k : Key INSTANTIATION) (s : CheckSession)
    : option (Val INSTANTIATION) * CheckSession :=
  match instantiation_probe w k s with
  | (Hit v, s) => (Some v, s)
  | (_, s) => (None, s)
  end.

(** [generic_insert]: the base is probed for the entry and its bucket's length at
    once. *)
Definition generic_insert (w : World) (cap : nat) (k : Key GENERIC) (v : Val GENERIC) (s : CheckSession) : CheckSession :=
  let '(b, s) := read_base w s in
  match get GENERIC (slot b GENERIC) k with
  | Some _ => s
  | None =>
      match overlay_get GENERIC k s with
      | Some _ => s
      | None =>
          let s := record_miss (digest GENERIC k) s in
          if cap <=? len GENERIC (slot b GENERIC) k + overlay_len GENERIC k s then count_capped_insert s
          else insert_entry GENERIC k v s
      end
  end.

(** [instantiation_intern]: the bucket's length is a second read of the base. *)
Definition instantiation_intern (w : World) (cap : nat) (k : Key INSTANTIATION) (v : Val INSTANTIATION) (s : CheckSession)
    : Val INSTANTIATION * CheckSession :=
  let '(b, s) := read_base w s in
  match get INSTANTIATION (slot b INSTANTIATION) k with
  | Some existing => (existing, s)
  | None =>
      let '(b, s) := read_base w s in
      match overlay_get INSTANTIATION k s with
      | Some (file, existing) => (existing, record_dep file s)
      | None =>
          let s := record_miss (digest INSTANTIATION k) s in
          if len INSTANTIATION (slot b INSTANTIATION) k + overlay_len INSTANTIATION k s <? cap
          then (v, insert_entry INSTANTIATION k v s) else (v, count_capped_insert s)
      end
  end.

(** [physical_intern], [template_intern], [method_intern] and
    [overload_intern]. *)
Definition flat_intern (w : World) (c : cache) (k : Key c) (v : Val c) (s : CheckSession) : Val c * CheckSession :=
  let '(b, s) := read_base w s in
  match get c (slot b c) k with
  | Some existing => (existing, s)
  | None =>
      match overlay_get c k s with
      | Some (file, existing) => (existing, record_dep file s)
      | None => (v, insert_entry c k v (record_miss (digest c k) s))
      end
  end.

(** ** Checks

    What the check of a file does to the caches, up to its result of type [R]:
    a tree of cache calls, each with what the check does with the answer. *)

Inductive Check (R : Type) : Type :=
  | Done (r : R)
  | Lookup (c : cache) (k : Key c) (next : option (Val c) -> Check R)
  | Probe (k : Key INSTANTIATION) (next : InstantiationProbe -> Check R)
  | CacheGeneric (k : Key GENERIC) (v : Val GENERIC) (next : Check R)
  | InternInstantiation (k : Key INSTANTIATION) (v : ty) (next : ty -> Check R)
  | Intern (c : cache) (k : Key c) (v : Val c) (next : Val c -> Check R).
#[global] Arguments Done {_} _.
#[global] Arguments Lookup {_} _ _ _.
#[global] Arguments Probe {_} _ _.
#[global] Arguments CacheGeneric {_} _ _ _.
#[global] Arguments InternInstantiation {_} _ _ _.
#[global] Arguments Intern {_} _ _ _ _.

(** The lookup of a cache in a session. *)
Definition session_lookup (w : World) (c : cache) : Key c -> CheckSession -> option (Val c) * CheckSession :=
  match c with
  | INSTANTIATION => instantiation_lookup w
  | GENERIC => lookup_entry w GENERIC
  | PHYSICAL => lookup_entry w PHYSICAL
  | TEMPLATE => lookup_entry w TEMPLATE
  | METHOD => lookup_entry w METHOD
  | OVERLOAD => lookup_entry w OVERLOAD
  end.

(** A check in a session, and a check without one (the serial check). *)
Fixpoint session_run {R} (w : World) (cap : nat) (check : Check R) (s : CheckSession) : R * CheckSession :=
  match check with
  | Done r => (r, s)
  | Lookup c k next => let '(v, s) := session_lookup w c k s in session_run w cap (next v) s
  | Probe k next => let '(v, s) := instantiation_probe w k s in session_run w cap (next v) s
  | CacheGeneric k v next => session_run w cap next (generic_insert w cap k v s)
  | InternInstantiation k v next =>
      if self_reference k v then session_run w cap (next v) s
      else let '(v, s) := instantiation_intern w cap k v s in session_run w cap (next v) s
  | Intern c k v next => let '(v, s) := flat_intern w c k v s in session_run w cap (next v) s
  end.

Definition probe_of (v : option (Val INSTANTIATION)) : InstantiationProbe :=
  match v with Some v => Hit v | None => Miss end.

Fixpoint serial_run {R} (cap : nat) (check : Check R) (s : Program) : R * Program :=
  match check with
  | Done r => (r, s)
  | Lookup c k next => serial_run cap (next (lookup_live c k s)) s
  | Probe k next => serial_run cap (next (probe_of (lookup_live INSTANTIATION k s))) s
  | CacheGeneric k v next => serial_run cap next (cache_generic_live cap k v s)
  | InternInstantiation k v next =>
      let '(v, s) := intern_instantiation_live cap k v s in serial_run cap (next v) s
  | Intern c k v next => let '(v, s) := intern_live cap c k v s in serial_run cap (next v) s
  end.

(** The keys of a check are well formed and of the cache they are used with, and
    [CacheGeneric] only adds a key the check looked up before. *)
Definition is_flat (c : cache) : bool := match c with GENERIC | INSTANTIATION => false | _ => true end.

Definition seen_lookup (c : cache) : Key c -> list (Key GENERIC) -> list (Key GENERIC) :=
  match c with GENERIC => fun k seen => k :: seen | _ => fun _ seen => seen end.

Fixpoint disciplined {R} (seen : list (Key GENERIC)) (check : Check R) : Prop :=
  match check with
  | Done _ => True
  | Lookup c k next => key_ok c k /\ forall v, disciplined (seen_lookup c k seen) (next v)
  | Probe k next => key_ok INSTANTIATION k /\ forall v, disciplined seen (next v)
  | CacheGeneric k v next => key_ok GENERIC k /\ In k seen /\ disciplined seen next
  | InternInstantiation k v next => key_ok INSTANTIATION k /\ forall v, disciplined seen (next v)
  | Intern c k v next => is_flat c = true /\ key_ok c k /\ forall v, disciplined seen (next v)
  end.
End session.
