(* ===== verification/SessionLaws.v ===== *)
(** * Laws of the sessions

    Every call of a session is a run of a few primitive changes; what a run keeps
    (the log explains the overlay, nothing recorded is forgotten) is shown by
    induction on it. *)

From stdpp Require Import gmap.
From S2P Require Import Prelude TypeModel Caches Reservation Session.

#[global] Arguments slot : simpl never.
#[global] Arguments with_slot : simpl never.
#[global] Arguments fill : simpl never.
#[global] Arguments get : simpl never.
#[global] Arguments push : simpl never.

Section laws.
Context `{InterfaceKeys}.

(** ** The entries of a log *)

Definition log_find (c : cache) (k : Key c) (l : list (Key c * Val c * Z)) : option (Val c) :=
  snd ∘ fst <$> List.find (fun e => same c (fst (fst e)) k) l.

Lemma log_find_snoc c k l k' v d :
  log_find c k (l ++ [(k', v, d)])
  = match log_find c k l with Some x => Some x | None => if same c k' k then Some v else None end.
Proof.
  unfold log_find. induction l as [|e l IH]; simpl; [by destruct (same c k' k)|]. by destruct (same c (fst (fst e)) k).
Qed.

Lemma log_find_in c k l v :
  log_find c k l = Some v -> exists k' d, In (k', v, d) l /\ same c k' k = true.
Proof.
  unfold log_find. intros Hf. destruct (List.find _ l) as [[[k' v'] d]|] eqn:E; [|done].
  apply List.find_some in E as [Hin Hs]. injection Hf as <-. by exists k', d.
Qed.

Abbreviation log_of s := (current (worker s)).
Abbreviation inserted s c := (slot (inserts (log_of s)) c).
Abbreviation file_of s := (file_index (log_of s)).

(** ** Primitive changes *)

Inductive primitive : CheckSession -> CheckSession -> Prop :=
  | p_tick s : primitive s (tick s)
  | p_dep s file : primitive s (record_dep file s)
  | p_miss s d : primitive s (record_miss d s)
  | p_defer s w c k : primitive s (snd (check_deferral w c k s))
  | p_once s d : primitive s (with_worker (fun o => mkOverlay (overlay o) ({[d]} ∪ deferred_once o) (current o) (current_active o) (finished o)) s)
  | p_capped s : primitive s (count_capped_insert s)
  | p_insert s c k v :
      key_ok c k -> overlay_get c k s = None -> digest c k ∈ misses (log_of s) -> primitive s (insert_entry c k v s).

Abbreviation changes := (rtc primitive).

Lemma read_base_changes w s b s' : read_base w s = (b, s') -> changes s s'.
Proof. unfold read_base. destruct (base s); intros [= <- <-]; [done|apply rtc_once, p_tick]. Qed.

(** Reading the base leaves the overlay and the log. *)
Lemma read_base_worker w s b s' :
  read_base w s = (b, s') -> worker s' = worker s /\ capped_inserts s' = capped_inserts s /\ base s' = base s /\ defer s' = defer s.
Proof. unfold read_base. destruct (base s) eqn:E; intros [= <- <-]; simpl; rewrite ?E; done. Qed.

(** A call of a session: the value it answers and the changes it makes. The
    answers say which branch was taken. *)
Inductive answers (w : World) (c : cache) (k : Key c) (s : CheckSession) (b : ProgramCaches) : option (Val c) -> CheckSession -> Prop :=
  | from_base v s1 : get c (slot b c) k = Some v -> changes s s1 -> capped_inserts s1 = capped_inserts s -> worker s1 = worker s -> answers w c k s b (Some v) s1
  | from_overlay file v s1 :
      get c (slot b c) k = None -> overlay_get c k s = Some (file, v) -> changes s s1 -> capped_inserts s1 = capped_inserts s ->
      worker s1 = worker (record_dep file s) -> answers w c k s b (Some v) s1
  | from_nowhere s1 :
      get c (slot b c) k = None -> overlay_get c k s = None -> changes s s1 -> capped_inserts s1 = capped_inserts s ->
      overlay (worker s1) = overlay (worker s) -> log_of s1 = log_of (record_miss (digest c k) s) ->
      answers w c k s b None s1.

(** ** What a run of changes keeps *)

(** The overlay of a session that started file [f] with overlay [ov]: what it had
    and then the insertions of the log; the keys of these are logged as
    missing. *)
Definition explained (ov : Overlay) (f : nat) (s : CheckSession) : Prop :=
  file_of s = f
  /\ (forall c k, overlay_get c k s
       = match get c (slot ov c) k with Some x => Some x | None => (fun v => (f, v)) <$> log_find c k (inserted s c) end)
  /\ (forall c k v d, In (k, v, d) (inserted s c) -> key_ok c k /\ d = digest c k /\ d ∈ misses (log_of s)).

Lemma explained_begin f s : explained (overlay (worker s)) f (begin_file f s).
Proof.
  split; [done|]. split.
  - intros c k. unfold overlay_get. simpl. unfold no_inserts; rewrite slot_fill. by destruct (get c _ k).
  - intros c k v d. simpl. by unfold no_inserts; rewrite slot_fill.
Qed.

Lemma explained_same ov f s s' :
  explained ov f s -> overlay (worker s') = overlay (worker s) -> file_of s' = file_of s ->
  inserts (log_of s') = inserts (log_of s) -> misses (log_of s) ⊆ misses (log_of s') -> explained ov f s'.
Proof.
  intros (Hf & Hov & Hin) Eo Ef Ei Hm. unfold explained, overlay_get. rewrite Eo, Ef, Ei. split; [done|]. split; [done|].
  intros c k v d Hd. destruct (Hin c k v d Hd) as (? & ? & ?). by auto.
Qed.

Lemma explained_insert ov f s c k v :
  explained ov f s -> key_ok c k -> overlay_get c k s = None -> digest c k ∈ misses (log_of s) ->
  explained ov f (insert_entry c k v s).
Proof.
  intros (Hf & Hov & Hin) Hk Hget Hmiss. split; [done|]. split.
  - intros c' k'. specialize (Hov c' k'). unfold overlay_get in *. simpl.
    destruct (decide (c = c')) as [<-|Hne]; [|by rewrite !slot_with_other].
    rewrite !slot_with_same, get_push, Hov, log_find_snoc, Hf by done.
    destruct (get c (slot ov c) k') as [x|]; [done|].
    destruct (log_find c k' _); [done|]. by destruct (same c k k').
  - intros c' k' v' d'. simpl. destruct (decide (c = c')) as [<-|Hne]; [|rewrite slot_with_other by done; apply Hin].
    rewrite slot_with_same, in_app_iff. intros [Hd|[[= <- <- <-]|[]]]; [exact (Hin c k' v' d' Hd)|done].
Qed.

Lemma record_dep_log file s :
  overlay (worker (record_dep file s)) = overlay (worker s)
  /\ misses (log_of (record_dep file s)) = misses (log_of s)
  /\ inserts (log_of (record_dep file s)) = inserts (log_of s)
  /\ file_of (record_dep file s) = file_of s
  /\ capped_inserts (record_dep file s) = capped_inserts s
  /\ defer (record_dep file s) = defer s /\ base (record_dep file s) = base s
  /\ overlay_deps (log_of s) ⊆ overlay_deps (log_of (record_dep file s))
  /\ (file <> file_of s -> file ∈ overlay_deps (log_of (record_dep file s))).
Proof.
  unfold record_dep. destruct (file =? _) eqn:E; simpl; repeat split; try done.
  - intros. apply Nat.eqb_eq in E. done.
  - set_solver.
  - set_solver.
Qed.

Definition deferral (s : CheckSession) : Z := match defer s with Some d => max_deferred d | None => -1 end.

(** Nothing recorded is forgotten. *)
Definition grows (s s' : CheckSession) : Prop :=
  misses (log_of s) ⊆ misses (log_of s')
  /\ overlay_deps (log_of s) ⊆ overlay_deps (log_of s')
  /\ capped_inserts s <= capped_inserts s'
  /\ (deferral s <= deferral s')%Z
  /\ base s' = base s
  /\ (defer s = None -> defer s' = None).

Lemma check_deferral_same w c k s :
  let s' := snd (check_deferral w c k s) in
  worker s' = worker s /\ base s' = base s /\ capped_inserts s' = capped_inserts s /\ (deferral s <= deferral s')%Z
  /\ (defer s = None -> defer s' = None)
  /\ (fst (check_deferral w c k s) <> None -> (0 <= deferral s')%Z).
Proof.
  unfold check_deferral, deferral. destruct (defer s) as [d|] eqn:E; [|simpl; rewrite ?E; repeat split; done || lia].
  destruct (query_key _ _ _ _); simpl; rewrite ?E; repeat split; simpl; done || lia.
Qed.

Lemma primitive_grows s s' : primitive s s' -> grows s s'.
Proof.
  intros Hp. destruct Hp as [s|s file|s d|s w c k|s d|s|s c k v]; unfold grows; try (repeat split; simpl; set_solver || lia).
  - destruct (record_dep_log file s) as (_ & -> & _ & _ & -> & Hd & -> & Hdeps & _). unfold deferral. by rewrite Hd.
  - destruct (check_deferral_same w c k s) as (-> & -> & -> & Hd & Hnone & _). done.
Qed.

Lemma changes_grow s s' : changes s s' -> grows s s'.
Proof.
  induction 1 as [|s1 s2 s3 Hp _ IH]; [done|]. apply primitive_grows in Hp. unfold grows in *.
  destruct Hp as (? & ? & ? & ? & ? & ?), IH as (? & ? & ? & ? & ? & ?).
  repeat split; [set_solver|set_solver|lia|lia|congruence|auto].
Qed.

(** The logs of the files before stay as they are. *)
Lemma changes_logs s s' :
  changes s s' -> finished (worker s') = finished (worker s) /\ current_active (worker s') = current_active (worker s).
Proof.
  induction 1 as [|s1 s2 s3 Hp _ IH]; [done|]. destruct IH as [-> ->].
  destruct Hp as [s|s file|s d|s w c k|s d|s|s c k v]; try done.
  - unfold record_dep. by case_match.
  - by destruct (check_deferral_same w c k s) as (-> & _).
Qed.

Lemma primitive_explained ov f s s' : primitive s s' -> explained ov f s -> explained ov f s'.
Proof.
  intros Hp Hs. destruct Hp as [s|s file|s d|s w c k|s d|s|s c k v]; try (apply (explained_same ov f s); simpl; done || set_solver).
  - destruct (record_dep_log file s) as (Eo & Em & Ei & Ef & _). by apply (explained_same ov f s); rewrite ?Em.
  - destruct (check_deferral_same w c k s) as (Ew & _). by apply (explained_same ov f s); rewrite ?Ew.
  - by apply explained_insert.
Qed.

Lemma changes_explained ov f s s' : changes s s' -> explained ov f s -> explained ov f s'.
Proof. induction 1; eauto using primitive_explained. Qed.

Lemma record_dep_capped file s : capped_inserts (record_dep file s) = capped_inserts s.
Proof. by destruct (record_dep_log file s) as (_ & _ & _ & _ & -> & _). Qed.

(** ** The calls *)

Lemma record_miss_in d s : d ∈ misses (log_of (record_miss d s)).
Proof. simpl. set_solver. Qed.

Lemma lookup_entry_answers w c k s :
  let '(o, s') := lookup_entry w c k s in exists b, b = fst (read_base w s) /\ answers w c k s b o s'.
Proof.
  unfold lookup_entry. destruct (read_base w s) as [b s1] eqn:Hb. pose proof (read_base_changes _ _ _ _ Hb) as Hc.
  destruct (read_base_worker _ _ _ _ Hb) as (Hw & Hn & _). unfold overlay_get. rewrite Hw.
  destruct (get c (slot b c) k) as [v|] eqn:Hg; [exists b; split; [done|]; by apply from_base|].
  destruct (get c (slot (overlay (worker s)) c) k) as [[file v]|] eqn:Ho; exists b; (split; [done|]).
  - eapply from_overlay; [done|exact Ho| |by rewrite record_dep_capped, ?Hn'|].
    + eapply rtc_r; [exact Hc|apply p_dep].
    + unfold record_dep. rewrite Hw. by case_match; simpl; rewrite ?Hw.
  - destruct (check_deferral_same w c k (record_miss (digest c k) s1)) as (Ed & _ & En & _). apply from_nowhere; try done.
    + eapply rtc_r; [eapply rtc_r; [exact Hc|apply p_miss]|apply p_defer].
    + by rewrite En.
    + rewrite Ed. simpl. by rewrite Hw.
    + rewrite Ed. simpl. by rewrite Hw.
Qed.

Lemma changes_r s1 s2 s3 : changes s1 s2 -> primitive s2 s3 -> changes s1 s3.
Proof. apply rtc_r. Qed.

Lemma instantiation_probe_answers w k s :
  let '(p, s') := instantiation_probe w k s in
  exists o, answers w INSTANTIATION k s (fst (read_base w s)) o s'
  /\ (p = probe_of o \/ (p = Deferred_ /\ o = None /\ (0 <= deferral s')%Z)).
Proof.
  unfold instantiation_probe. destruct (read_base w s) as [b s1] eqn:Hb. pose proof (read_base_changes _ _ _ _ Hb) as Hc.
  destruct (read_base_worker _ _ _ _ Hb) as (Hw & Hn & _). unfold overlay_get. rewrite Hw. simpl fst.
  destruct (get _ (slot b INSTANTIATION) k) as [v|] eqn:Hg; [exists (Some v); split; [by apply from_base|by left]|].
  destruct (get _ (slot (overlay (worker s)) _) k) as [[file v]|] eqn:Ho.
  - exists (Some v). split; [|by left]. eapply from_overlay; [done|exact Ho| |by rewrite record_dep_capped, ?Hn'|].
    + eapply changes_r; [exact Hc|apply p_dep].
    + unfold record_dep. rewrite Hw. by case_match; simpl; rewrite ?Hw.
  - set (s2 := record_miss _ s1). assert (Hc2 : changes s s2) by (eapply changes_r; [exact Hc|apply p_miss]).
    assert (Hw2 : worker s2 = worker (record_miss (digest INSTANTIATION k) s)) by (unfold s2; simpl; by rewrite Hw).
    assert (Hn2 : capped_inserts s2 = capped_inserts s) by exact Hn.
    clearbody s2. case_bool_decide; [exists None; split; [|by left]; apply from_nowhere; try done; by rewrite Hw2|].
    pose proof (check_deferral_same w INSTANTIATION k s2) as (Ed & _ & En & _ & _ & Hd).
    destruct (check_deferral w INSTANTIATION k s2) as [o s3] eqn:Hdef. simpl in Ed, En, Hd.
    assert (Hc3 : changes s s3).
    { eapply changes_r; [exact Hc2|]. replace s3 with (snd (check_deferral w INSTANTIATION k s2)) by by rewrite Hdef. apply p_defer. }
    destruct o as [publisher|]; exists None; split.
    + apply from_nowhere; try done; [|by rewrite <- Hn2, <- En|by simpl; rewrite Ed, Hw2..].
      eapply changes_r; [exact Hc3|apply p_once].
    + right. split; [done|]. split; [done|]. by apply Hd.
    + apply from_nowhere; try done; by rewrite ?En, ?Ed, ?Hw2.
    + by left.
Qed.

Lemma session_lookup_answers w c k s :
  let '(o, s') := session_lookup w c k s in answers w c k s (fst (read_base w s)) o s'.
Proof.
  destruct c; simpl; try match goal with |- context [lookup_entry w ?c k s] =>
    pose proof (lookup_entry_answers w c k s) as Ha; destruct (lookup_entry w c k s) as [o s']; by destruct Ha as (b & -> & Ha) end.
  unfold instantiation_lookup. pose proof (instantiation_probe_answers w k s) as Ha.
  destruct (instantiation_probe w k s) as [p s']. destruct Ha as (o & Ha & Hp). by destruct Hp as [->|(-> & -> & _)]; [destruct o|].
Qed.

(** The cap test of an insertion: the bucket of a base read and that of the
    overlay together. *)
Definition cap_test (w : World) (cap : nat) (c : cache) (k : Key c) (s s1 : CheckSession) (met : bool) : Prop :=
  exists s', base s' = base s /\ capped c cap (len c (slot (fst (read_base w s')) c) k + overlay_len c k s1) = met.

(** An insertion call: the entry there is, or the value inserted; or not inserted
    and counted, at the cap. *)
Inductive interns (w : World) (cap : nat) (c : cache) (k : Key c) (v : Val c) (s : CheckSession) (b : ProgramCaches) : Val c -> CheckSession -> Prop :=
  | interned_before existing s1 : answers w c k s b (Some existing) s1 -> interns w cap c k v s b existing s1
  | interned_now s1 :
      answers w c k s b None s1 ->
      key_ok c k -> overlay_get c k s1 = None -> digest c k ∈ misses (log_of s1) ->
      cap_test w cap c k s s1 false -> interns w cap c k v s b v (insert_entry c k v s1)
  | interned_not s1 : answers w c k s b None s1 -> cap_test w cap c k s s1 true -> interns w cap c k v s b v (count_capped_insert s1).

Lemma answers_none w c k s b s1 :
  answers w c k s b None s1 -> overlay_get c k s1 = None /\ digest c k ∈ misses (log_of s1).
Proof.
  inversion_clear 1 as [| |? Hb Ho Hc _ Eo El]. unfold overlay_get in *. rewrite Eo, El. split; [done|apply record_miss_in].
Qed.

Lemma flat_intern_interns w cap c k v s :
  is_flat c = true -> key_ok c k ->
  let '(v', s') := flat_intern w c k v s in interns w cap c k v s (fst (read_base w s)) v' s'.
Proof.
  intros Hflat Hk. unfold flat_intern. destruct (read_base w s) as [b s1] eqn:Hb. pose proof (read_base_changes _ _ _ _ Hb) as Hc.
  destruct (read_base_worker _ _ _ _ Hb) as (Hw & Hn & _). unfold overlay_get. rewrite Hw. simpl fst.
  destruct (get _ (slot b _) k) as [x|] eqn:Hg; [by apply interned_before, from_base|].
  destruct (get _ (slot (overlay (worker s)) _) k) as [[file x]|] eqn:Ho.
  - apply interned_before. eapply from_overlay; [done|exact Ho| |by rewrite record_dep_capped, ?Hn'|].
    + eapply changes_r; [exact Hc|apply p_dep].
    + unfold record_dep. rewrite Hw. by case_match; simpl; rewrite ?Hw.
  - assert (Ha : answers w c k s b None (record_miss (digest c k) s1)).
    { apply from_nowhere; try done; [eapply changes_r; [exact Hc|apply p_miss]|by simpl; rewrite Hw..]. }
    destruct (answers_none _ _ _ _ _ _ Ha). apply interned_now; try done. exists s. split; [done|]. by destruct c.
Qed.

Lemma instantiation_intern_interns w cap k v s :
  key_ok INSTANTIATION k ->
  let '(v', s') := instantiation_intern w cap k v s in interns w cap INSTANTIATION k v s (fst (read_base w s)) v' s'.
Proof.
  intros Hk. unfold instantiation_intern. destruct (read_base w s) as [b s1] eqn:Hb.
  pose proof (read_base_changes _ _ _ _ Hb) as Hc. destruct (read_base_worker _ _ _ _ Hb) as (Hw & Hn & _). simpl fst.
  destruct (get _ (slot b _) k) as [x|] eqn:Hg; [by apply interned_before, from_base|].
  destruct (read_base w s1) as [b' s2] eqn:Hb'. pose proof (read_base_changes _ _ _ _ Hb') as Hc'.
  destruct (read_base_worker _ _ _ _ Hb') as (Hw' & Hn' & _). rewrite Hw in Hw'. rewrite Hn in Hn'. unfold overlay_get. rewrite Hw'.
  assert (Hc2 : changes s s2) by (etrans; [exact Hc|exact Hc']).
  destruct (get _ (slot (overlay (worker s)) _) k) as [[file x]|] eqn:Ho.
  - apply interned_before. eapply from_overlay; [done|exact Ho| |by rewrite record_dep_capped, ?Hn'|].
    + eapply changes_r; [exact Hc2|apply p_dep].
    + unfold record_dep. rewrite Hw'. by case_match; simpl; rewrite ?Hw'.
  - assert (Ha : answers w INSTANTIATION k s b None (record_miss (digest INSTANTIATION k) s2)).
    { apply from_nowhere; try done; [eapply changes_r; [exact Hc2|apply p_miss]|by simpl; rewrite Hw'..]. }
    destruct (answers_none _ _ _ _ _ _ Ha). destruct (_ <? cap) eqn:Ecap.
    + apply interned_now; try done. exists s1. split; [by destruct (read_base_worker _ _ _ _ Hb) as (_ & _ & -> & _)|].
      rewrite Hb'. unfold capped, overlay_len in *. simpl in *. lia.
    + apply interned_not; try done. exists s1. split; [by destruct (read_base_worker _ _ _ _ Hb) as (_ & _ & -> & _)|].
      rewrite Hb'. unfold capped, overlay_len in *. simpl in *. lia.
Qed.

(** [generic_insert] says nothing of an entry that is there. *)
Lemma generic_insert_interns w cap k v s :
  key_ok GENERIC k ->
  let s' := generic_insert w cap k v s in
  (exists v', interns w cap GENERIC k v s (fst (read_base w s)) v' s')
  \/ (get GENERIC (slot (fst (read_base w s)) GENERIC) k = None /\ overlay_get GENERIC k s <> None
      /\ changes s s' /\ worker s' = worker s /\ capped_inserts s' = capped_inserts s).
Proof.
  intros Hk. unfold generic_insert. destruct (read_base w s) as [b s1] eqn:Hb.
  pose proof (read_base_changes _ _ _ _ Hb) as Hc. destruct (read_base_worker _ _ _ _ Hb) as (Hw & Hn & _). simpl fst.
  destruct (get _ (slot b _) k) as [x|] eqn:Hg; [left; exists x; by apply interned_before, from_base|].
  unfold overlay_get. rewrite Hw.
  destruct (get _ (slot (overlay (worker s)) _) k) as [[file x]|] eqn:Ho; [by right|]. left. exists v.
  assert (Ha : answers w GENERIC k s b None (record_miss (digest GENERIC k) s1)).
  { apply from_nowhere; try done; [eapply changes_r; [exact Hc|apply p_miss]|by simpl; rewrite Hw..]. }
  destruct (answers_none _ _ _ _ _ _ Ha). destruct (cap <=? _) eqn:Ecap.
  - apply interned_not; try done. exists s. split; [done|]. rewrite Hb. exact Ecap.
  - apply interned_now; try done. exists s. split; [done|]. rewrite Hb. exact Ecap.
Qed.
End laws.
