(* ===== verification/Commit.v ===== *)
(** * The commit walk ([surge-ts-checker/src/speculative/commit.rs],
    [program/check_files.rs])

    Workers check files against the snapshot of the fan-out; then the coordinator
    takes the files in serial order: it publishes the log of a worker that
    validates, else the log of a replay that does, else it checks the file again
    in a session on the committed maps. *)

From stdpp Require Import gmap.
From S2P Require Import Prelude TypeModel Caches Reservation Session.

Section commit.
Context `{InterfaceKeys}.

(** ** Publishing a log *)

Record StcCommitStats := mkStats {
  files : nat;
  clean_commits : nat;
  miss_conflicts : nat;
  dependency_conflicts : nat;
  published_entries : nat;
  merge_skipped_existing : nat;
  merge_cap_blocked : nat
}.

Definition no_stats : StcCommitStats := mkStats 0 0 0 0 0 0 0.
Definition count_file s := let '(mkStats f c m d p e b) := s in mkStats (S f) c m d p e b.
Definition count_clean s := let '(mkStats f c m d p e b) := s in mkStats f (S c) m d p e b.
Definition count_miss_conflict s := let '(mkStats f c m d p e b) := s in mkStats f c (S m) d p e b.
Definition count_dependency_conflict s := let '(mkStats f c m d p e b) := s in mkStats f c m (S d) p e b.
Definition count_published s := let '(mkStats f c m d p e b) := s in mkStats f c m d (S p) e b.
Definition count_existing s := let '(mkStats f c m d p e b) := s in mkStats f c m d p (S e) b.
Definition count_blocked s := let '(mkStats f c m d p e b) := s in mkStats f c m d p e (S b).

(** What a loop over the insertions of a cache changes: the map, the published
    digests, the counters and whether everything was published. *)
Record Publication (M : Type) := mkPublication {
  map_ : M;
  published : gset Z;
  stats : StcCommitStats;
  complete : bool
}.
#[global] Arguments mkPublication {M} _ _ _ _.
#[global] Arguments map_ {M} _.
#[global] Arguments published {M} _.
#[global] Arguments stats {M} _.
#[global] Arguments complete {M} _.

Definition apply_entry (cap : nat) (c : cache) (p : Publication (Map c (Val c))) (entry : Key c * Val c * Z)
    : Publication (Map c (Val c)) :=
  let '(k, v, digest) := entry in
  match get c (map_ p) k with
  | Some _ => mkPublication (map_ p) (published p) (count_existing (stats p)) false
  | None =>
      if capped c cap (len c (map_ p) k) then mkPublication (map_ p) (published p) (count_blocked (stats p)) false
      else mkPublication (push c (map_ p) k v) ({[digest]} ∪ published p) (count_published (stats p)) (complete p)
  end.

Definition apply_cache (cap : nat) (log : FileCacheLog) (p : Publication ProgramCaches) (c : cache)
    : Publication ProgramCaches :=
  let q := foldl (apply_entry cap c) (mkPublication (slot (map_ p) c) (published p) (stats p) (complete p))
             (slot (inserts log) c) in
  mkPublication (with_slot c (map_ q) (map_ p)) (published q) (stats q) (complete q).

Definition apply_file_log (cap : nat) (live : ProgramCaches) (log : FileCacheLog) (digests : gset Z)
    (counts : StcCommitStats) : Publication ProgramCaches :=
  foldl (apply_cache cap log) (mkPublication live digests counts true)
    [GENERIC; INSTANTIATION; PHYSICAL; TEMPLATE; METHOD; OVERLOAD].

Inductive CommitVerdict := Clean | MissConflict | DependencyConflict.

Definition is_disjoint {A} `{Countable A} (a b : gset A) : bool := bool_decide (a ## b).

Definition commit_file_log (cap : nat) (live : ProgramCaches) (log : FileCacheLog) (digests : gset Z)
    (dirty_files : gset nat) (counts : StcCommitStats) : CommitVerdict * Publication ProgramCaches :=
  let counts := count_file counts in
  let kept counts := mkPublication live digests counts false in
  if negb (is_disjoint (misses log) digests) then (MissConflict, kept (count_miss_conflict counts))
  else if negb (is_disjoint (overlay_deps log) dirty_files) then (DependencyConflict, kept (count_dependency_conflict counts))
  else let q := apply_file_log cap live log digests counts in
       (Clean, mkPublication (map_ q) (published q) (count_clean (stats q)) (complete q)).

Definition commit_replay_log (cap : nat) (live : ProgramCaches) (log : FileCacheLog) (digests : gset Z)
    (counts : StcCommitStats) : bool * Publication ProgramCaches :=
  if negb (is_disjoint (misses log) digests) then (false, mkPublication live digests counts false)
  else (true, apply_file_log cap live log digests counts).

(** ** Scheduling hints *)

Definition insert_digests (log : FileCacheLog) : list Z :=
  map snd (generic _ (inserts log)) ++ map snd (instantiations _ (inserts log)) ++ map snd (physical _ (inserts log))
  ++ map snd (templates _ (inserts log)) ++ map snd (methods _ (inserts log)) ++ map snd (overloads _ (inserts log)).

(** [predict_conflicts]: the loop over the positions keeps the verdicts so far
    and the digests inserted so far. *)
Definition predict_step (acc : list bool * gset Z) (log : option FileCacheLog) : list bool * gset Z :=
  let '(predicted, earlier) := acc in
  match log with
  | None => (predicted ++ [false], earlier)
  | Some log =>
      let miss_conflict := negb (is_disjoint (misses log) earlier) in
      let dep_conflict := existsb (fun file => nth file predicted false) (elements (overlay_deps log)) in
      (predicted ++ [miss_conflict || dep_conflict], list_to_set (insert_digests log) ∪ earlier)
  end.

Definition predict_conflicts (logs : list (option FileCacheLog)) : list bool := fst (foldl predict_step ([], ∅) logs).

(** [compute_submit_schedule]; [None] is [usize::MAX]. *)
Definition later (a : option nat) (b : nat) : option nat := Some (match a with Some a => Nat.max a b | None => b end).

Definition schedule_dep (predicted : list bool) (index : nat) (acc : option nat * bool) (producer : nat) : option nat * bool :=
  let '(latest, on_conflict) := acc in
  if producer <? index then (later latest producer, on_conflict || nth producer predicted false) else acc.

Definition schedule_step (predicted : list bool) (acc : list (option nat) * gmap Z nat) (log : option FileCacheLog)
    : list (option nat) * gmap Z nat :=
  let '(submit_at, first_writer) := acc in
  let index := length submit_at in
  match log with
  | None => (submit_at ++ [None], first_writer)
  | Some log =>
      let producers := omap (fun digest => first_writer !! digest) (elements (misses log)) ++ elements (overlay_deps log) in
      let '(latest, on_conflict) := foldl (schedule_dep predicted index) (None, false) producers in
      let at_ := if nth index predicted false && negb on_conflict
                 then Some (match latest with Some producer => S producer | None => 0 end) else None in
      (submit_at ++ [at_],
       foldl (fun m digest => match m !! digest with Some _ => m | None => <[digest := index]> m end) first_writer
         (insert_digests log))
  end.

Definition compute_submit_schedule (logs : list (option FileCacheLog)) : list (option nat) :=
  fst (foldl (schedule_step (predict_conflicts logs)) ([], ∅) logs).

(** ** The fan-out *)

Section program.
Context {R : Type} (cap : nat) (check_program_file : nat -> Check R).

(** The serial pass, from the caches at its start. *)
Definition serial_file (acc : list R * Program) (file : nat) : list R * Program :=
  let '(results, s) := acc in
  let '(r, s) := serial_run cap (check_program_file file) s in
  (results ++ [r], s).

Definition check_program_files_serial (n : nat) (start : ProgramCaches) : list R * Program :=
  foldl serial_file ([], mkProgram start 0) (seq 0 n).

(** One worker: its files in the order the dispatch counter hands them out. The
    base is a snapshot, so no read depends on the world. *)
Definition worker_file (w : World) (acc : list (nat * R) * CheckSession) (file : nat) : list (nat * R) * CheckSession :=
  let '(results, s) := acc in
  let '(r, s) := session_run w cap (check_program_file file) (begin_file file s) in
  (results ++ [(file, r)], s).

Definition still (caches : ProgramCaches) : World := mkWorld (fun _ => caches) (fun _ => new_table).

Definition run_worker (base : ProgramCaches) (files : list nat) : list (nat * R) * list FileCacheLog * nat :=
  let '(results, s) := foldl (worker_file (still base)) ([], new_session base) files in
  let '(logs, s) := take_file_logs s in
  (results, logs, capped_inserts s).

(** [schedule file] is the worker whose [fetch_add] returned [file]. *)
Definition files_of (schedule : nat -> nat) (n worker : nat) : list nat :=
  List.filter (fun file => schedule file =? worker) (seq 0 n).

(** The state of the commit walk. *)
Record Walk := mkWalk {
  live_caches : ProgramCaches;
  digests : gset Z;
  dirty : gset nat;
  walk_stats : StcCommitStats;
  slots : list (option R);
  worker_logs : list (option FileCacheLog);
  capped_total : nat
}.

Definition collect_worker (out : list (nat * R) * list FileCacheLog * nat) (st : Walk) : Walk :=
  let '(results, logs, capped) := out in
  mkWalk (live_caches st) (digests st) (dirty st) (walk_stats st)
    (foldl (fun l '(file, r) => <[file := Some r]> l) (slots st) results)
    (foldl (fun l log => <[file_index log := Some log]> l) (worker_logs st) logs)
    (capped_total st + capped).

Definition fan_out (schedule : nat -> nat) (worker_count n : nat) (base : ProgramCaches) : Walk :=
  foldl (fun st worker => collect_worker (run_worker base (files_of schedule n worker)) st)
    (mkWalk base ∅ ∅ no_stats (replicate n None) (replicate n None) 0) (seq 0 worker_count).

(** ** One position of the walk *)

(** A replay on a pool thread: the session reads the live maps as they change. *)
Definition replay_one (w : World) (s : CheckSession) (file : nat) : R * FileCacheLog * option nat * nat :=
  let '(r, s) := session_run w cap (check_program_file file) (begin_file file s) in
  let deferred := deferred_until s in
  let '(logs, s) := take_file_logs s in
  (r, default (empty_log 0) (last logs), deferred, capped_inserts s).

(** The check again on the coordinator, its logs published whatever they are. *)
Definition recheck (file : nat) (st : Walk) : Walk :=
  let '(r, s) := session_run (still (live_caches st)) cap (check_program_file file) (begin_file file new_live_reading) in
  let '(logs, s) := take_file_logs s in
  let p := foldl (fun p log => apply_file_log cap (map_ p) log (published p) (stats p))
             (mkPublication (live_caches st) (digests st) (walk_stats st) true) logs in
  mkWalk (map_ p) (published p) (dirty st) (stats p) (<[file := Some r]> (slots st)) (worker_logs st)
    (capped_total st + capped_inserts s).

Definition publish (p : Publication ProgramCaches) (st : Walk) : Walk :=
  mkWalk (map_ p) (published p) (dirty st) (stats p) (slots st) (worker_logs st) (capped_total st).
Definition clear_log (file : nat) (st : Walk) : Walk :=
  mkWalk (live_caches st) (digests st) (dirty st) (walk_stats st) (slots st) (<[file := None]> (worker_logs st)) (capped_total st).
Definition set_slot (file : nat) (r : R) (st : Walk) : Walk :=
  mkWalk (live_caches st) (digests st) (dirty st) (walk_stats st) (<[file := Some r]> (slots st)) (worker_logs st) (capped_total st).
Definition mark_dirty (file : nat) (st : Walk) : Walk :=
  mkWalk (live_caches st) (digests st) ({[file]} ∪ dirty st) (walk_stats st) (slots st) (worker_logs st) (capped_total st).

(** [commit_position] past the worker's log. *)
Definition commit_conflict (file : nat) (replay : option (R * FileCacheLog)) (st : Walk) : Walk :=
  let st := mark_dirty file st in
  match replay with
  | Some (r, log) =>
      match commit_replay_log cap (live_caches st) log (digests st) (walk_stats st) with
      | (true, p) => set_slot file r (clear_log file (publish p st))
      | (false, p) => recheck file (clear_log file (publish p st))
      end
  | None => recheck file (clear_log file st)
  end.

Definition commit_position (file : nat) (replay : option (R * FileCacheLog)) (st : Walk) : Walk :=
  match mjoin (worker_logs st !! file) with
  | Some log =>
      let st := clear_log file st in
      match commit_file_log cap (live_caches st) log (digests st) (dirty st) (walk_stats st) with
      | (Clean, p) => publish p st
      | (_, p) => commit_conflict file replay (publish p st)
      end
  | None => commit_conflict file replay st
  end.

(** ** The walk

    A replay of a position reads the live maps while the coordinator commits:
    each cache it reads is as it was after some number of positions ([apply_file_log]
    holds a cache's lock over the cache's whole loop). It takes part when it
    deferred to nothing. *)
Definition reads_history (history : list ProgramCaches) (w : World) : Prop :=
  forall i c, exists caches, In caches history /\ slot (live_at w i) c = slot caches c.

Inductive replay_of (history : list ProgramCaches) (file : nat) : option (R * FileCacheLog) -> nat -> Prop :=
  | no_replay : replay_of history file None 0
  | a_replay w s r log capped :
      reads_history history w ->
      (s = new_live_reading \/ s = new_live_reading_deferring file) ->
      replay_one w s file = (r, log, None, capped) ->
      replay_of history file (Some (r, log)) capped.

Definition count_replay (capped : nat) (st : Walk) : Walk :=
  mkWalk (live_caches st) (digests st) (dirty st) (walk_stats st) (slots st) (worker_logs st) (capped_total st + capped).

Inductive walk (start : Walk) : nat -> list ProgramCaches -> Walk -> Prop :=
  | walk_start : walk start 0 [live_caches start] start
  | walk_next n history st replay capped :
      walk start n history st ->
      replay_of history n replay capped ->
      let st' := commit_position n replay (count_replay capped st) in
      walk start (S n) (live_caches st' :: history) st'.
End program.
End commit.
