(* ===== verification/Simulation.v ===== *)
(** * A committed file is a serial file

    The check of one file in a session against the same check in the serial pass
    at the file's position. A session whose log validates answers every call as
    the serial pass does, and its log published on the committed caches is the
    serial pass's next state. *)

From stdpp Require Import gmap.
From S2P Require Import Prelude TypeModel Caches Reservation Session SessionLaws Commit.

#[global] Arguments apply_file_log : simpl never.
#[global] Arguments apply_cache : simpl never.

Section simulation.
Context `{InterfaceKeys}.

Abbreviation log_of s := (current (worker s)).
Abbreviation inserted s c := (slot (inserts (log_of s)) c).
Abbreviation changes := (rtc primitive).
Abbreviation value c caches k := (get c (slot caches c) k).

(** ** Publishing a whole log *)

(** The loop over the insertions [l] turns [m] into [m'] and publishes all. *)
Definition applied (cap : nat) (c : cache) (m : Map c (Val c)) (l : list (Key c * Val c * Z)) (m' : Map c (Val c)) : Prop :=
  forall digests counts, exists counts',
    foldl (apply_entry cap c) (mkPublication m digests counts true) l
    = mkPublication m' (list_to_set (map snd l) ∪ digests) counts' true.

Lemma applied_nil cap c m : applied cap c m [] m.
Proof. intros digests counts. exists counts. simpl. by rewrite (left_id_L ∅ (∪)). Qed.

Lemma applied_snoc cap c m l m' k v d :
  applied cap c m l m' -> get c m' k = None -> capped c cap (len c m' k) = false ->
  applied cap c m (l ++ [(k, v, d)]) (push c m' k v).
Proof.
  intros Hl Hget Hcap digests counts. destruct (Hl digests counts) as [counts' E]. exists (count_published counts').
  rewrite foldl_app, E. simpl. rewrite Hget, Hcap. f_equal. rewrite map_app, list_to_set_app_L. simpl. set_solver.
Qed.

Lemma apply_caches cap log cs (p : Publication ProgramCaches) caches :
  NoDup cs -> complete p = true ->
  (forall c, c ∈ cs -> applied cap c (slot (map_ p) c) (slot (inserts log) c) (slot caches c)) ->
  let q := foldl (apply_cache cap log) p cs in
  complete q = true
  /\ (forall c, slot (map_ q) c = if bool_decide (c ∈ cs) then slot caches c else slot (map_ p) c)
  /\ (forall d, d ∈ published q <-> d ∈ published p \/ exists c k v, c ∈ cs /\ In (k, v, d) (slot (inserts log) c)).
Proof.
  revert p. induction cs as [|c cs IH]; intros p Hcs Hp Happ; simpl.
  - split; [done|]. split; [done|]. intros d. split; [by left|]. intros [?|(c & k & v & Hc & _)]; [done|by apply not_elem_of_nil in Hc].
  - apply NoDup_cons in Hcs as [Hc Hcs].
    destruct (Happ c ltac:(by left) (published p) (stats p)) as [counts E].
    set (p' := apply_cache cap log p c).
    assert (Ep : p' = mkPublication (with_slot c (slot caches c) (map_ p)) (list_to_set (map snd (slot (inserts log) c)) ∪ published p) counts true).
    { unfold p', apply_cache. by rewrite Hp, E. }
    destruct (IH p' Hcs) as (Hq & Hs & Hd); [by rewrite Ep|intros c' Hc'|].
    { rewrite Ep. simpl. rewrite slot_with_other by (intros ->; done). apply Happ. by right. }
    split; [done|]. split.
    + intros c'. rewrite Hs, Ep. simpl. destruct (decide (c = c')) as [<-|Hne].
      * rewrite slot_with_same, (bool_decide_eq_true_2 (c ∈ c :: cs)) by by left. by case_bool_decide.
      * rewrite slot_with_other by done. rewrite (bool_decide_ext (c' ∈ c :: cs) (c' ∈ cs)); [done|].
        rewrite elem_of_cons. split; [intros [E'|?]; [by destruct Hne|done]|by right].
    + intros d. rewrite Hd, Ep. simpl. rewrite elem_of_union, elem_of_list_to_set, list_elem_of_In, in_map_iff. split.
      * intros [[([[k v] d'] & <- & Hin)|Hd']|(c' & k & v & Hc' & Hin)]; [right|by left|right].
        -- exists c, k, v. split; [by left|done].
        -- exists c', k, v. split; [by right|done].
      * intros [Hd'|(c' & k & v & Hc' & Hin)]; [by left; right|]. apply elem_of_cons in Hc' as [->|Hc'].
        -- left. left. by exists (k, v, d).
        -- right. by exists c', k, v.
Qed.

(** A log that applies is published in full. *)
Lemma apply_file_log_complete cap live log digests counts caches :
  (forall c, applied cap c (slot live c) (slot (inserts log) c) (slot caches c)) ->
  let q := apply_file_log cap live log digests counts in
  map_ q = caches /\ complete q = true
  /\ forall d, d ∈ published q <-> d ∈ digests \/ exists c k v, In (k, v, d) (slot (inserts log) c).
Proof.
  intros Happ q.
  destruct (apply_caches cap log [GENERIC; INSTANTIATION; PHYSICAL; TEMPLATE; METHOD; OVERLOAD]
    (mkPublication live digests counts true) caches) as (Hq & Hs & Hd); [|done|by intros c _; apply Happ|].
  { apply (bool_decide_unpack _). vm_compute. exact I. }
  assert (Hall : forall c, c ∈ [GENERIC; INSTANTIATION; PHYSICAL; TEMPLATE; METHOD; OVERLOAD]).
  { intros c. apply (bool_decide_unpack _). by destruct c; vm_compute. }
  split; [|split; [exact Hq|]].
  - apply caches_ext. intros c. unfold q, apply_file_log. rewrite Hs. by rewrite bool_decide_eq_true_2.
  - intros d. unfold q, apply_file_log. rewrite Hd. simpl. split; intros [?|Hx]; try (by left); right.
    + destruct Hx as (c & k & v & _ & Hx). by exists c, k, v.
    + destruct Hx as (c & k & v & Hx). exists c, k, v. split; [apply Hall|done].
Qed.

(** ** The relation *)

(** The session [s] that started file [f] over the overlay [ov], and the serial
    state [prog] that started it at the caches [P]. *)
Record related (cap : nat) (P : ProgramCaches) (ov : Overlay) (f : nat) (s : CheckSession) (prog : Program) : Prop := {
  rel_explained : explained ov f s;
  rel_applied : forall c, applied cap c (slot P c) (inserted s c) (slot (live prog) c);
  rel_value : forall c k, lookup_live c k prog = match value c P k with Some v => Some v | None => log_find c k (inserted s c) end
}.

Lemma related_begin cap P f s n : related cap P (overlay (worker s)) f (begin_file f s) (mkProgram P n).
Proof.
  split; [apply explained_begin|intros c; simpl; unfold no_inserts; rewrite slot_fill; apply applied_nil|].
  intros c k. unfold lookup_live. simpl. unfold no_inserts. rewrite slot_fill. by destruct (get c _ k).
Qed.

Lemma related_same cap P ov f s s' prog prog' :
  related cap P ov f s prog -> changes s s' -> inserts (log_of s') = inserts (log_of s) -> live prog' = live prog ->
  related cap P ov f s' prog'.
Proof.
  intros [He Ha Hv] Hc Ei El. split; [by apply (changes_explained _ _ s)| |].
  - intros c. by rewrite Ei, El.
  - intros c k. unfold lookup_live in *. by rewrite Ei, El, Hv.
Qed.

Lemma related_insert cap P ov f s prog c k v :
  related cap P ov f s prog -> key_ok c k -> overlay_get c k s = None -> digest c k ∈ misses (log_of s) ->
  lookup_live c k prog = None -> capped c cap (len c (slot (live prog) c) k) = false ->
  related cap P ov f (insert_entry c k v s) (insert_live c k v prog).
Proof.
  intros [He Ha Hv] Hk Ho Hm Hl Hcap. split; [by apply explained_insert| |].
  - intros c'. simpl. destruct (decide (c = c')) as [<-|Hne]; [|rewrite !slot_with_other by done; apply Ha].
    rewrite !slot_with_same. by apply applied_snoc.
  - intros c' k'. specialize (Hv c' k'). unfold lookup_live in *. simpl.
    destruct (decide (c = c')) as [<-|Hne]; [|by rewrite !slot_with_other].
    rewrite !slot_with_same, get_push, Hv, log_find_snoc by done.
    destruct (value c P k') as [x|]; [done|]. by destruct (log_find c k' _).
Qed.

(** A check only makes such changes. *)
Lemma answers_changes w c k s b o s1 : answers w c k s b o s1 -> changes s s1.
Proof. by inversion_clear 1. Qed.

Lemma interns_changes w cap c k v s b v' s1 : interns w cap c k v s b v' s1 -> changes s s1.
Proof.
  inversion_clear 1; [by eapply answers_changes| |].
  - eapply changes_r; [by eapply answers_changes|by apply p_insert].
  - eapply changes_r; [by eapply answers_changes|by apply p_capped].
Qed.

Lemma generic_insert_changes w cap k v s : key_ok GENERIC k -> changes s (generic_insert w cap k v s).
Proof.
  intros Hk.
  destruct (generic_insert_interns w cap k v s Hk) as [[v' Hi]|(_ & _ & Hc & _)]; [by eapply interns_changes|done]. Qed.

Lemma session_run_changes {R} w cap (check : Check R) seen s :
  disciplined seen check -> changes s (snd (session_run w cap check s)).
Proof.
  revert seen s. induction check as [r|c k next IH|k next IH|k v next IH|k v next IH|c k v next IH]; intros seen s Hd; simpl in *.
  - done.
  - destruct Hd as [_ Hd]. pose proof (session_lookup_answers w c k s) as Ha. destruct (session_lookup w c k s) as [o s1].
    etrans; [by eapply answers_changes|by eapply IH].
  - destruct Hd as [_ Hd]. pose proof (instantiation_probe_answers w k s) as Ha. destruct (instantiation_probe w k s) as [p s1].
    destruct Ha as (o & Ha & _). etrans; [by eapply answers_changes|by eapply IH].
  - destruct Hd as (Hk & _ & Hd). etrans; [by apply generic_insert_changes|by eapply IH].
  - destruct Hd as [Hk Hd]. case_match; [by eapply IH|].
    pose proof (instantiation_intern_interns w cap k v s Hk) as Ha. destruct (instantiation_intern w cap k v s) as [v' s1].
    etrans; [by eapply interns_changes|by eapply IH].
  - destruct Hd as (Hflat & Hk & Hd). pose proof (flat_intern_interns w cap c k v s Hflat Hk) as Ha.
    destruct (flat_intern w c k v s) as [v' s1]. etrans; [by eapply interns_changes|by eapply IH].
Qed.

Lemma serial_capped {R} cap (check : Check R) s : capped_count s <= capped_count (snd (serial_run cap check s)).
Proof.
  revert s. induction check as [r|c k next IH|k next IH|k v next IH|k v next IH|c k v next IH]; intros s; simpl; try done; try apply IH.
  - etrans; [|apply IH]. unfold cache_generic_live. repeat case_match; simpl; lia.
  - unfold intern_instantiation_live, intern_live. repeat case_match; simpl in *; simplify_eq; (etrans; [|apply IH]); simpl; lia.
  - unfold intern_live. repeat case_match; simpl in *; simplify_eq; (etrans; [|apply IH]); simpl; lia.
Qed.

(** ** A validated speculative check *)

Section speculative.
Context (cap : nat) (snap P : ProgramCaches) (ov : Overlay) (f : nat) (published : gset Z) (dirty : gset nat) (w : World).

(** Every key the committed caches have beyond the snapshot is published. *)
Definition published_covers : Prop :=
  forall c k, key_ok c k -> value c snap k = None -> value c P k <> None -> digest c k ∈ published.

(** The overlay's entries are of other files, and those of files that were
    committed clean are in the committed caches. *)
Definition overlay_agrees : Prop :=
  forall c k f' v, key_ok c k -> value c ov k = Some (f', v) ->
  f' <> f /\ (f' ∉ dirty -> value c snap k = None -> value c P k = Some v).

(** Caches between the snapshot and the committed ones. *)
Definition between_caches (b : ProgramCaches) : Prop :=
  (forall c k, value c snap k <> None -> value c b k <> None)
  /\ (forall c k v, value c b k = Some v -> value c P k = Some v).

Context (Hpub : published_covers) (Hov : overlay_agrees) (view : BaseView).
Context (Hview : forall s, base s = view -> between_caches (fst (read_base w s))).

(** What validates: no miss is published, no dependency dirty; nothing met the
    cap and nothing was deferred. *)
Definition validates (s : CheckSession) : Prop :=
  misses (log_of s) ## published /\ overlay_deps (log_of s) ## dirty
  /\ capped_inserts s = 0 /\ (deferral s < 0)%Z.

Lemma validates_before s s' : changes s s' -> validates s' -> validates s.
Proof.
  intros Hc (Hm & Hd & Hn & Hf). destruct (changes_grow _ _ Hc) as (Hm' & Hd' & Hn' & Hf' & _).
  repeat split; [set_solver|set_solver|lia|lia].
Qed.

Lemma not_published c (k : Key c) b s :
  key_ok c k -> between_caches b -> value c b k = None -> validates s -> digest c k ∈ misses (log_of s) -> value c P k = None.
Proof.
  intros Hk [Hb _] Hnone (Hm & _) Hd. destruct (value c P k) eqn:E; [|done].
  exfalso. apply (Hm (digest c k)); [done|]. apply Hpub; [done| |by rewrite E].
  destruct (value c snap k) eqn:Es; [|done]. exfalso. apply (Hb c k); [by rewrite Es|done].
Qed.

(** An overlay entry the session may use is what the serial pass has. *)
Lemma overlay_value s prog c k b f' v :
  related cap P ov f s prog -> between_caches b -> key_ok c k -> value c b k = None ->
  overlay_get c k s = Some (f', v) -> validates s -> (f' <> f -> f' ∉ dirty) -> lookup_live c k prog = Some v.
Proof.
  intros [(Hf & Ho & Hin) _ Hv] Hb Hk Hnone Hget Hval Hdirty. rewrite Hv. rewrite Ho in Hget.
  destruct (value c ov k) as [[f'' v']|] eqn:E.
  - injection Hget as -> ->. destruct (Hov c k f' v Hk E) as [Hne HP]. rewrite HP; [done|by apply Hdirty|].
    destruct (value c snap k) eqn:Es; [|done]. exfalso. by apply (proj1 Hb c k); rewrite ?Es.
  - destruct (log_find c k (inserted s c)) as [x|] eqn:Hl; [|done]. injection Hget as _ ->.
    destruct (log_find_in c k _ v Hl) as (k' & d & Hd & Hs). destruct (Hin c k' v d Hd) as (Hk' & -> & Hmiss).
    rewrite (not_published c k b s); [done..|]. by rewrite <- (digest_same c k' k).
Qed.

Lemma answers_agree s prog c k b o s1 :
  related cap P ov f s prog -> between_caches b -> key_ok c k -> answers w c k s b o s1 -> validates s1 ->
  related cap P ov f s1 prog /\ lookup_live c k prog = o.
Proof.
  intros Hr Hb Hk Ha Hval. pose proof (answers_changes _ _ _ _ _ _ _ Ha) as Hc.
  pose proof (validates_before _ _ Hc Hval) as Hval0. destruct Ha as [v s1 Hg _ _ Hw|f' v s1 Hg Ho _ _ Hw|s1 Hg Ho _ _ Eo El].
  - split; [apply (related_same _ _ _ _ s _ prog); try done; by rewrite Hw|].
    destruct Hr as [_ _ Hv]. by rewrite Hv, (proj2 Hb c k v Hg).
  - destruct (record_dep_log f' s) as (_ & _ & Ei & Ef & _ & _ & _ & _ & Hdep).
    split; [apply (related_same _ _ _ _ s _ prog); try done; by rewrite Hw, Ei|].
    eapply overlay_value; try done. intros Hne. destruct Hr as [(Hf & _) _ _]. rewrite <- Hf in Hne. apply Hdep in Hne.
    destruct Hval as (_ & Hdeps & _). rewrite Hw in Hdeps. set_solver.
  - split; [apply (related_same _ _ _ _ s _ prog); try done; by rewrite El|].
    destruct Hr as [(Hf & Hov' & _) _ Hv]. rewrite Hv. rewrite Hov' in Ho.
    rewrite (not_published c k b s1); [|done..|rewrite El; simpl; set_solver].
    destruct (value c ov k); [done|]. by destruct (log_find c k _).
Qed.

(** The keys looked up so far: what the overlay has of them is committed. *)
Definition seen_ok (seen : list (Key GENERIC)) : Prop :=
  forall k, In k seen -> value GENERIC ov k <> None -> value GENERIC P k <> None.

Lemma seen_after s prog c k b o s1 seen :
  related cap P ov f s prog -> between_caches b -> key_ok c k -> answers w c k s b o s1 -> validates s1 ->
  seen_ok seen -> seen_ok (seen_lookup c k seen).
Proof.
  intros Hr Hb Hk Ha Hval Hseen. destruct c; try done. intros k' [<-|Hin]; [|by apply Hseen]. intros Hne.
  destruct (answers_agree _ _ _ _ _ _ _ Hr Hb Hk Ha Hval) as [_ Hl]. destruct Hr as [(Hf & Ho & Hin) _ Hv].
  specialize (Ho GENERIC k). destruct (value GENERIC ov k) as [[f' v]|] eqn:E; [|done].
  destruct Ha as [v' s1 Hg _ _ _|f'' v' s1 Hg Hg' Hc _ Hw|s1 Hg Hg' _ _ _ _].
  - by rewrite (proj2 Hb _ _ _ Hg).
  - rewrite Ho in Hg'. injection Hg' as -> ->. destruct (Hov _ _ _ _ Hk E) as [Hne' HP]. rewrite HP; [done| |].
    + destruct (record_dep_log f'' s) as (_ & _ & _ & _ & _ & _ & _ & _ & Hdep). rewrite Hf in Hdep.
      destruct Hval as (_ & Hdeps & _). rewrite Hw in Hdeps. set_solver.
    + destruct (value GENERIC snap k) eqn:Es; [|done]. exfalso. by apply (proj1 Hb _ _ ltac:(by rewrite Es)).
  - by rewrite Ho in Hg'.
Qed.

(** An insertion call agrees with the serial one, when neither meets the cap. *)
Lemma interns_agree s prog c k v b v' s1 :
  related cap P ov f s prog -> between_caches b -> key_ok c k -> interns w cap c k v s b v' s1 -> validates s1 ->
  capped_count (snd (intern_live cap c k v prog)) = 0 ->
  related cap P ov f s1 (snd (intern_live cap c k v prog)) /\ v' = fst (intern_live cap c k v prog).
Proof.
  intros Hr Hb Hk Hi Hval Hcap. unfold intern_live in *. destruct Hi as [x s1 Ha|s1 Ha _ Ho Hd _|s1 Ha _].
  - destruct (answers_agree _ _ _ _ _ _ _ Hr Hb Hk Ha Hval) as [Hr1 ->]. done.
  - destruct (answers_agree _ _ _ _ _ _ _ Hr Hb Hk Ha) as [Hr1 El].
    { eapply validates_before; [|exact Hval]. by apply rtc_once, p_insert. }
    rewrite El in *. destruct (capped c cap _) eqn:Ec; [by simpl in Hcap|]. split; [|done]. by apply related_insert.
  - destruct Hval as (_ & _ & Hn & _). done.
Qed.

Lemma generic_insert_agrees s prog k v seen :
  related cap P ov f s prog -> between_caches (fst (read_base w s)) -> key_ok GENERIC k -> In k seen -> seen_ok seen ->
  validates (generic_insert w cap k v s) -> capped_count (cache_generic_live cap k v prog) = 0 ->
  related cap P ov f (generic_insert w cap k v s) (cache_generic_live cap k v prog).
Proof.
  intros Hr Hb Hk Hin Hseen Hval Hcap.
  assert (El : cache_generic_live cap k v prog = snd (intern_live cap GENERIC k v prog)).
  { unfold cache_generic_live, intern_live. destruct (lookup_live _ _ _); [done|]. by case_match. }
  rewrite El in *. destruct (generic_insert_interns w cap k v s Hk) as [[v' Hi]|(_ & Ho & Hc & Hw & _)].
  - by destruct (interns_agree _ _ _ _ _ _ _ _ Hr Hb Hk Hi Hval Hcap).
  - assert (lookup_live GENERIC k prog <> None) as Hl.
    { destruct Hr as [(_ & Hx & _) _ Hv]. rewrite Hv. rewrite Hx in Ho. specialize (Hseen k Hin).
      destruct (value GENERIC ov k); [|destruct (value GENERIC P k); [done|]; by destruct (log_find GENERIC k _)].
      destruct (value GENERIC P k); [done|]. by destruct Hseen. }
    unfold intern_live. destruct (lookup_live GENERIC k prog) eqn:E; [|done].
    apply (related_same _ _ _ _ s _ prog); try done. by rewrite Hw.
Qed.

Lemma simulation_run {R} (check : Check R) seen s prog :
  disciplined seen check -> seen_ok seen -> related cap P ov f s prog -> base s = view ->
  validates (snd (session_run w cap check s)) -> capped_count (snd (serial_run cap check prog)) = 0 ->
  related cap P ov f (snd (session_run w cap check s)) (snd (serial_run cap check prog))
  /\ fst (session_run w cap check s) = fst (serial_run cap check prog).
Proof.
  revert seen s prog.
  induction check as [r|c k next IH|k next IH|k v next IH|k v next IH|c k v next IH];
    intros seen s prog Hd Hseen Hr Hbase Hval Hcap; cbn [session_run serial_run disciplined] in *.
  - done.
  - destruct Hd as [Hk Hd]. pose proof (session_lookup_answers w c k s) as Ha.
    destruct (session_lookup w c k s) as [o s1]. pose proof (Hview s Hbase) as Hb.
    assert (Hval1 : validates s1) by (eapply validates_before; [by eapply session_run_changes|done]).
    pose proof (seen_after _ _ _ _ _ _ _ _ Hr Hb Hk Ha Hval1 Hseen) as Hseen1.
    destruct (answers_agree _ _ _ _ _ _ _ Hr Hb Hk Ha Hval1) as [Hr1 El]. rewrite El in *.
    eapply IH; try done. pose proof (changes_grow _ _ (answers_changes _ _ _ _ _ _ _ Ha)) as (_ & _ & _ & _ & -> & _). done.
  - destruct Hd as [Hk Hd]. pose proof (instantiation_probe_answers w k s) as Ha.
    destruct (instantiation_probe w k s) as [p s1]. pose proof (Hview s Hbase) as Hb. destruct Ha as (o & Ha & Hp).
    assert (Hval1 : validates s1) by (eapply validates_before; [by eapply session_run_changes|done]).
    destruct (answers_agree _ _ _ _ _ _ _ Hr Hb Hk Ha Hval1) as [Hr1 El]. rewrite El in *.
    destruct Hp as [->|(_ & _ & Hdef)]; [|destruct Hval1 as (_ & _ & _ & Hlt); lia].
    eapply IH; try done. pose proof (changes_grow _ _ (answers_changes _ _ _ _ _ _ _ Ha)) as (_ & _ & _ & _ & -> & _). done.
  - destruct Hd as (Hk & Hin & Hd). pose proof (generic_insert_changes w cap k v s Hk) as Hc.
    eapply IH; try done.
    + eapply generic_insert_agrees; try done; [by apply Hview|eapply validates_before; [by eapply session_run_changes|done]|].
      pose proof (serial_capped cap next (cache_generic_live cap k v prog)). lia.
    + by destruct (changes_grow _ _ Hc) as (_ & _ & _ & _ & -> & _).
  - destruct Hd as [Hk Hd]. unfold intern_instantiation_live in *. destruct (self_reference k v); [by eapply IH|].
    pose proof (instantiation_intern_interns w cap k v s Hk) as Hi. destruct (instantiation_intern w cap k v s) as [v' s1].
    assert (Hval1 : validates s1) by (eapply validates_before; [by eapply session_run_changes|done]).
    destruct (intern_live cap INSTANTIATION k v prog) as [v'' prog'] eqn:El.
    assert (Hcap' : capped_count prog' = 0) by (pose proof (serial_capped cap (next v'') prog'); lia).
    destruct (interns_agree _ prog _ _ _ _ _ _ Hr (Hview s Hbase) Hk Hi Hval1) as [Hr1 ->]; rewrite El in *; [done|].
    eapply IH; try done. by pose proof (changes_grow _ _ (interns_changes _ _ _ _ _ _ _ _ _ Hi)) as (_ & _ & _ & _ & -> & _).
  - destruct Hd as (Hflat & Hk & Hd).
    pose proof (flat_intern_interns w cap c k v s Hflat Hk) as Hi. destruct (flat_intern w c k v s) as [v' s1].
    assert (Hval1 : validates s1) by (eapply validates_before; [by eapply session_run_changes|done]).
    destruct (intern_live cap c k v prog) as [v'' prog'] eqn:El.
    assert (Hcap' : capped_count prog' = 0) by (pose proof (serial_capped cap (next v'') prog'); lia).
    destruct (interns_agree _ prog _ _ _ _ _ _ Hr (Hview s Hbase) Hk Hi Hval1) as [Hr1 ->]; rewrite El in *; [done|].
    eapply IH; try done. by pose proof (changes_grow _ _ (interns_changes _ _ _ _ _ _ _ _ _ Hi)) as (_ & _ & _ & _ & -> & _).
Qed.
End speculative.

(** ** A check on the committed caches

    A session without an overlay whose base is the committed caches is the serial
    pass, the cap included. *)

Section recheck.
Context (cap : nat) (P : ProgramCaches) (f : nat) (w : World) (n : nat).
Context (Hread : forall s, base s = Live -> fst (read_base w s) = P).

Record exact (s : CheckSession) (prog : Program) : Prop := {
  exact_related : related cap P (fill (fun c => empty c _)) f s prog;
  exact_len : forall c k, len c (slot (live prog) c) k = len c (slot P c) k + overlay_len c k s;
  exact_capped : capped_count prog = n + capped_inserts s;
  exact_base : base s = Live;
  exact_defer : defer s = None
}.

Lemma exact_overlay s prog c k :
  exact s prog ->
  lookup_live c k prog = match value c P k with Some v => Some v | None => snd <$> overlay_get c k s end.
Proof.
  intros [[(_ & Ho & _) _ Hv] _ _ _ _]. rewrite Hv, Ho, slot_fill, get_empty.
  destruct (value c P k); [done|]. by destruct (log_find c k _).
Qed.

Lemma exact_answers s prog c k o s1 :
  exact s prog -> answers w c k s P o s1 -> lookup_live c k prog = o /\ exact s1 prog.
Proof.
  intros He Ha. pose proof (exact_overlay s prog c k He) as Hv. destruct He as [Hr Hl Hn Hb Hnd].
  pose proof (answers_changes _ _ _ _ _ _ _ Ha) as Hc.
  assert (Hsame : inserts (log_of s1) = inserts (log_of s) /\ overlay (worker s1) = overlay (worker s)
    /\ capped_inserts s1 = capped_inserts s /\ lookup_live c k prog = o).
  { rewrite Hv. destruct Ha as [v s1 Hg _ -> Hw|f' v s1 Hg Ho _ -> Hw|s1 Hg Ho _ -> Eo El].
    - by rewrite Hg, Hw.
    - rewrite Hg, Ho, Hw. by destruct (record_dep_log f' s) as (-> & _ & -> & _).
    - by rewrite Hg, Ho, Eo, El. }
  destruct Hsame as (Ei & Eo & En & El). split; [done|]. split.
  - by apply (related_same _ _ _ _ s _ prog).
  - intros c' k'. unfold overlay_len. rewrite Eo. apply Hl.
  - by rewrite En.
  - by destruct (changes_grow _ _ Hc) as (_ & _ & _ & _ & -> & _).
  - destruct (changes_grow _ _ Hc) as (_ & _ & _ & _ & _ & Hd). by apply Hd.
Qed.

Lemma exact_same s s' prog :
  exact s prog -> changes s s' -> worker s' = worker s -> capped_inserts s' = capped_inserts s -> exact s' prog.
Proof.
  intros [Hr Hl Hn Hb Hnd] Hc Hw Hn'. destruct (changes_grow _ _ Hc) as (_ & _ & _ & _ & Hb' & Hd).
  split; [by apply (related_same _ _ _ _ s _ prog); rewrite ?Hw| |by rewrite Hn'|by rewrite Hb'|by apply Hd].
  intros c k. unfold overlay_len. rewrite Hw. apply Hl.
Qed.

Lemma exact_insert s prog c k v :
  exact s prog -> key_ok c k -> overlay_get c k s = None -> digest c k ∈ misses (log_of s) ->
  lookup_live c k prog = None -> capped c cap (len c (slot (live prog) c) k) = false ->
  exact (insert_entry c k v s) (insert_live c k v prog).
Proof.
  intros [Hr Hl Hn Hb Hnd] Hk Ho Hd Hnone Hcap. split; [by apply related_insert| |done..].
  intros c' k'. specialize (Hl c' k'). unfold overlay_len in *. simpl.
  destruct (decide (c = c')) as [<-|Hne]; [|by rewrite !slot_with_other].
  rewrite !slot_with_same, !len_push, Hl. lia.
Qed.

Lemma exact_interns s prog c k v v' s1 :
  exact s prog -> key_ok c k -> interns w cap c k v s P v' s1 ->
  fst (intern_live cap c k v prog) = v' /\ exact s1 (snd (intern_live cap c k v prog)).
Proof.
  intros He Hk Hi. unfold intern_live.
  destruct Hi as [x s1 Ha|s1 Ha _ Ho Hd (s' & Hb' & Ht)|s1 Ha (s' & Hb' & Ht)].
  all: destruct (exact_answers _ _ _ _ _ _ He Ha) as [El He1]; rewrite El; try done.
  all: rewrite Hread in Ht by (rewrite Hb'; by destruct He); destruct He1 as [Hr Hl Hn Hb Hnd];
    rewrite <- Hl in Ht; rewrite Ht; simpl.
  - split; [done|]. by apply exact_insert.
  - split; [done|]. split.
    + by apply (related_same _ _ _ _ s1 _ prog); [|apply rtc_once, p_capped|..].
    + exact Hl.
    + simpl. rewrite Hn. lia.
    + exact Hb.
    + exact Hnd.
Qed.

Lemma exact_run {R} (check : Check R) seen s prog :
  disciplined seen check -> exact s prog ->
  fst (session_run w cap check s) = fst (serial_run cap check prog)
  /\ exact (snd (session_run w cap check s)) (snd (serial_run cap check prog)).
Proof.
  revert seen s prog.
  induction check as [r|c k next IH|k next IH|k v next IH|k v next IH|c k v next IH];
    intros seen s prog Hd He; cbn [session_run serial_run disciplined] in *.
  - done.
  - destruct Hd as [_ Hd]. pose proof (session_lookup_answers w c k s) as Ha. rewrite Hread in Ha by by destruct He.
    destruct (session_lookup w c k s) as [o s1]. destruct (exact_answers _ _ _ _ _ _ He Ha) as [-> He1]. by eapply IH.
  - destruct Hd as [_ Hd]. pose proof (instantiation_probe_answers w k s) as Ha. rewrite Hread in Ha by by destruct He.
    destruct (instantiation_probe w k s) as [p s1] eqn:Ep. destruct Ha as (o & Ha & Hp).
    destruct (exact_answers _ _ _ _ _ _ He Ha) as [El He1]. rewrite El.
    destruct Hp as [->|(_ & _ & Hdef)]; [by eapply IH|]. exfalso.
    destruct He1 as [_ _ _ _ Hnd]. unfold deferral in Hdef. rewrite Hnd in Hdef. lia.
  - destruct Hd as (Hk & _ & Hd). eapply IH; [done|].
    assert (El : cache_generic_live cap k v prog = snd (intern_live cap GENERIC k v prog)).
    { unfold cache_generic_live, intern_live. destruct (lookup_live _ _ _); [done|]. by case_match. }
    rewrite El. destruct (generic_insert_interns w cap k v s Hk) as [[v' Hi]|(Hg & Ho & Hc & Hw & Hn)].
    + rewrite Hread in Hi by by destruct He. by destruct (exact_interns _ _ _ _ _ _ _ He Hk Hi).
    + rewrite Hread in Hg by by destruct He. pose proof (exact_overlay s prog GENERIC k He) as El'.
      rewrite Hg in El'. unfold intern_live. destruct (overlay_get GENERIC k s) as [[f' v']|]; [|done].
      simpl in El'. rewrite El'. simpl. by eapply exact_same.
  - destruct Hd as [Hk Hd]. unfold intern_instantiation_live. destruct (self_reference k v); [by eapply IH|].
    pose proof (instantiation_intern_interns w cap k v s Hk) as Hi. rewrite Hread in Hi by by destruct He.
    destruct (instantiation_intern w cap k v s) as [v' s1]. destruct (exact_interns _ _ _ _ _ _ _ He Hk Hi) as [El He1].
    destruct (intern_live cap INSTANTIATION k v prog) as [v'' prog']. simpl in *. subst. by eapply IH.
  - destruct Hd as (Hflat & Hk & Hd). pose proof (flat_intern_interns w cap c k v s Hflat Hk) as Hi.
    rewrite Hread in Hi by by destruct He.
    destruct (flat_intern w c k v s) as [v' s1]. destruct (exact_interns _ _ _ _ _ _ _ He Hk Hi) as [El He1].
    destruct (intern_live cap c k v prog) as [v'' prog']. simpl in *. subst. by eapply IH.
Qed.
End recheck.
End simulation.
