(* ===== verification/SerialEquivalence.v ===== *)
(** * The commit walk is the serial pass

    Whatever worker takes which file, and whatever replays the pool delivers
    having read the maps at whatever moments, the walk ends with the results and
    the caches of the serial pass, as long as no insertion met the bucket cap. *)

From stdpp Require Import gmap.
From S2P Require Import Prelude TypeModel Caches Reservation Session SessionLaws Commit Simulation.

Section equivalence.
Context `{InterfaceKeys} {R : Type}.
Context (cap : nat) (check_program_file : nat -> Check R) (base_caches : ProgramCaches).
Context (schedule : nat -> nat) (worker_count n : nat).

Abbreviation log_of s := (current (worker s)).
Abbreviation inserted s c := (slot (inserts (log_of s)) c).
Abbreviation changes := (rtc primitive).
Abbreviation value c caches k := (get c (slot caches c) k).
Abbreviation check := check_program_file.

(** ** The workers *)

Definition worker_state (j wk : nat) : list (nat * R) * CheckSession :=
  foldl (worker_file cap check (still base_caches)) ([], new_session base_caches) (files_of schedule j wk).

(** The session that starts a file, the run and the session after it. *)
Definition pre (f : nat) : CheckSession := snd (worker_state f (schedule f)).
Definition run (f : nat) : R * CheckSession := session_run (still base_caches) cap (check f) (begin_file f (pre f)).
Definition post (f : nat) : CheckSession := snd (run f).

#[local] Arguments worker_state : simpl never.
#[local] Arguments pre : simpl never.
#[local] Arguments run : simpl never.
#[local] Arguments post : simpl never.

Lemma files_of_S j wk :
  files_of schedule (S j) wk = files_of schedule j wk ++ (if schedule j =? wk then [j] else []).
Proof. unfold files_of. rewrite seq_S, List.filter_app. simpl. by case_match. Qed.

Lemma worker_state_S j wk :
  worker_state (S j) wk
  = if schedule j =? wk then (fst (worker_state j wk) ++ [(j, fst (run j))], post j) else worker_state j wk.
Proof.
  unfold worker_state. rewrite files_of_S, foldl_app. destruct (schedule j =? wk) eqn:E; [|done].
  apply Nat.eqb_eq in E. subst wk. simpl. unfold run, post, run, pre, worker_state.
  destruct (foldl _ _ _) as [results s]. simpl. by destruct (session_run _ _ _ _).
Qed.

Context (Hdisciplined : forall f, f < n -> disciplined [] (check f)).

Lemma post_changes f : f < n -> changes (begin_file f (pre f)) (post f).
Proof. intros Hf. by eapply session_run_changes, Hdisciplined. Qed.

Lemma post_explained f : f < n -> explained (overlay (worker (pre f))) f (post f).
Proof. intros Hf. eapply changes_explained; [by apply post_changes|apply explained_begin]. Qed.

(** What holds of a worker after the positions below [j]. *)
Record worker_ok (j wk : nat) : Prop := {
  worker_base : base (snd (worker_state j wk)) = Snapshot base_caches;
  worker_defer : defer (snd (worker_state j wk)) = None;
  worker_results : fst (worker_state j wk) = map (fun f => (f, fst (run f))) (files_of schedule j wk);
  worker_finished : finish_current (worker (snd (worker_state j wk))) = map (fun f => log_of (post f)) (files_of schedule j wk);
  worker_capped : forall f, In f (files_of schedule j wk) -> capped_inserts (post f) <= capped_inserts (snd (worker_state j wk));
  worker_origin : forall c k f v, value c (overlay (worker (snd (worker_state j wk)))) k = Some (f, v) ->
    f < j /\ value c (overlay (worker (pre f))) k = None /\ log_find c k (inserted (post f) c) = Some v
}.

Lemma worker_state_ok j wk : j <= n -> worker_ok j wk.
Proof.
  intros Hj. induction j as [|j IH].
  - split; try done. intros c k f v. unfold worker_state. simpl. unfold new_overlay. simpl.
    by rewrite slot_fill, get_empty.
  - specialize (IH ltac:(lia)). destruct IH as [Hb Hd Hr Hf Hc Ho].
    destruct (Nat.eqb_spec (schedule j) wk) as [E|E].
    + subst wk. fold (pre j) in *. pose proof (post_changes j ltac:(lia)) as Hch.
      destruct (changes_grow _ _ Hch) as (_ & _ & Hcap & _ & Hbase & Hdef).
      destruct (changes_logs _ _ Hch) as [Hfin Hact]. simpl in Hfin, Hact, Hcap.
      split; rewrite worker_state_S, Nat.eqb_refl; simpl fst; simpl snd.
      * by rewrite Hbase.
      * by apply Hdef.
      * by rewrite files_of_S, Nat.eqb_refl, map_app, Hr.
      * unfold finish_current at 1. rewrite Hact, Hfin, Hf, files_of_S, Nat.eqb_refl, map_app. done.
      * intros f. rewrite files_of_S, Nat.eqb_refl, in_app_iff. intros [Hin|[<-|[]]]; [|done]. specialize (Hc f Hin). lia.
      * intros c k f v. destruct (post_explained j ltac:(lia)) as (_ & Hov & _). unfold overlay_get in Hov. rewrite Hov.
        destruct (value c _ k) as [[f' v']|] eqn:Ev.
        -- intros [= -> ->]. destruct (Ho _ _ _ _ Ev) as (? & ? & ?). split; [lia|done].
        -- destruct (log_find c k _) eqn:El; intros Hx; [|done]. injection Hx as <- <-. split; [lia|done].
    + assert (Ef : files_of schedule (S j) wk = files_of schedule j wk).
      { rewrite files_of_S. destruct (Nat.eqb_spec (schedule j) wk); [done|]. by rewrite app_nil_r. }
      assert (Es : worker_state (S j) wk = worker_state j wk) by (unfold worker_state; by rewrite Ef).
      split; rewrite ?Es, ?Ef; try done. intros c k f v Hv. destruct (Ho _ _ _ _ Hv) as (? & ? & ?). split; [lia|done].
Qed.

Lemma in_files_of f j wk : In f (files_of schedule j wk) <-> f < j /\ schedule f = wk.
Proof. unfold files_of. rewrite filter_In, in_seq, Nat.eqb_eq. lia. Qed.

(** ** The fan-out *)

Lemma foldl_insert {A B} (step : list (option B) -> A -> list (option B)) (g : nat -> A) (val : nat -> B) l fs :
  (forall l f, In f fs -> step l (g f) = <[f := Some (val f)]> l) ->
  length (foldl step l (map g fs)) = length l
  /\ forall i : nat, foldl step l (map g fs) !! i
     = if bool_decide (i ∈ fs) then (fun _ => Some (val i)) <$> l !! i else l !! i.
Proof.
  revert l. induction fs as [|f fs IH]; intros l Hstep; simpl.
  - split; [done|]. intros i. done.
  - destruct (IH (step l (g f))) as [Hlen Hget]; [intros; apply Hstep; by right|]. rewrite (Hstep l f) in * by by left.
    rewrite Hlen, length_insert. split; [done|]. intros i. rewrite Hget.
    destruct (decide (f = i)) as [<-|Hne].
    + rewrite (bool_decide_eq_true_2 (f ∈ f :: fs)) by by left. destruct (l !! f) eqn:E.
      * rewrite list_lookup_insert_eq by by apply lookup_lt_Some in E. by case_bool_decide.
      * rewrite list_insert_ge by by apply lookup_ge_None. rewrite E. by case_bool_decide.
    + rewrite list_lookup_insert_ne by done. rewrite (bool_decide_ext (i ∈ f :: fs) (i ∈ fs)); [done|].
      rewrite elem_of_cons. split; [intros [E|?]; [by destruct Hne|done]|by right].
Qed.

Definition fanned_out : Walk := fan_out cap check schedule worker_count n base_caches.

(** After the first [m] workers. *)
Lemma fan_out_ok m :
  let st := foldl (fun st wk => collect_worker (run_worker cap check base_caches (files_of schedule n wk)) st)
    (mkWalk base_caches ∅ ∅ no_stats (replicate n None) (replicate n None) 0) (seq 0 m) in
  live_caches st = base_caches /\ digests st = ∅ /\ dirty st = ∅
  /\ length (slots st) = n /\ length (worker_logs st) = n
  /\ forall f, f < n -> schedule f < m ->
     slots st !! f = Some (Some (fst (run f))) /\ worker_logs st !! f = Some (Some (log_of (post f)))
     /\ capped_inserts (post f) <= capped_total st.
Proof.
  induction m as [|m IH].
  - simpl. rewrite !length_replicate. do 5 (split; [done|]). intros f _ Hf. lia.
  - rewrite seq_S, foldl_app. simpl. set (st := foldl _ _ (seq 0 m)) in *.
    destruct IH as (Hl & Hd & Hdi & Hs & Hw & Hall). pose proof (worker_state_ok n m ltac:(lia)) as Hok.
    destruct Hok as [_ _ Hr Hf Hc _]. unfold run_worker. fold (worker_state n m).
    destruct (worker_state n m) as [results s] eqn:E. simpl in Hr, Hf, Hc.
    unfold take_file_logs, collect_worker. simpl. rewrite Hf, Hr.
    destruct (foldl_insert (fun l '(file, r) => <[file := Some r]> l) (fun f => (f, fst (run f))) (fun f => fst (run f))
      (slots st) (files_of schedule n m)) as [Hs1 Hs2]; [done|].
    destruct (foldl_insert (fun l log => <[file_index log := Some log]> l) (fun f => log_of (post f)) (fun f => log_of (post f))
      (worker_logs st) (files_of schedule n m)) as [Hw1 Hw2].
    { intros l f Hin. apply in_files_of in Hin as [Hin _]. by destruct (post_explained f Hin) as (-> & _). }
    rewrite Hs1, Hw1. do 5 (split; [done|]). intros f Hfn Hfm. rewrite Hs2, Hw2.
    destruct (decide (schedule f = m)) as [Efm|Hne].
    + assert (Hin : In f (files_of schedule n m)) by by apply in_files_of.
      rewrite !bool_decide_eq_true_2 by by apply list_elem_of_In. specialize (Hc f Hin).
      destruct (lookup_lt_is_Some_2 (slots st) f ltac:(lia)) as [x ->].
      destruct (lookup_lt_is_Some_2 (worker_logs st) f ltac:(lia)) as [y ->]. simpl. repeat split; try done. lia.
    + rewrite !bool_decide_eq_false_2 by (rewrite list_elem_of_In, in_files_of; lia).
      destruct (Hall f Hfn ltac:(lia)) as (? & ? & ?). repeat split; try done. lia.
Qed.

(** ** The serial pass *)

Definition serial_state (p : nat) : list R * Program :=
  foldl (serial_file cap check) ([], mkProgram base_caches 0) (seq 0 p).
Definition serial_result (p : nat) : R := fst (serial_run cap (check p) (snd (serial_state p))).
Abbreviation committed p := (live (snd (serial_state p))).

#[local] Arguments serial_state : simpl never.
#[local] Arguments serial_result : simpl never.

Lemma serial_state_S p :
  serial_state (S p) = (fst (serial_state p) ++ [serial_result p], snd (serial_run cap (check p) (snd (serial_state p)))).
Proof.
  unfold serial_result, serial_state. rewrite seq_S, foldl_app. simpl. destruct (foldl _ _ _) as [results s]. simpl.
  by destruct (serial_run _ _ _).
Qed.

Lemma serial_results p : fst (serial_state p) = map serial_result (seq 0 p).
Proof. induction p as [|p IH]; [done|]. rewrite serial_state_S, seq_S, map_app, <- IH. done. Qed.

Lemma serial_capped_le p q : p <= q -> capped_count (snd (serial_state p)) <= capped_count (snd (serial_state q)).
Proof.
  induction 1 as [|q _ IH]; [done|]. etrans; [exact IH|]. rewrite serial_state_S. apply serial_capped.
Qed.

(** ** The walk *)

(** What the committed caches and the published digests are after [p]
    positions. *)
Record core (p : nat) (published : gset Z) (history : list ProgramCaches) : Prop := {
  core_covers : published_covers base_caches (committed p) published;
  core_history : forall caches, In caches history -> between_caches base_caches (committed p) caches;
  core_base : between_caches base_caches (committed p) base_caches
}.

(** The clean files before [p] have what they inserted committed. *)
Definition clean_committed (p : nat) (dirty : gset nat) : Prop :=
  forall f c k v, f < p -> f ∉ dirty -> key_ok c k -> value c base_caches k = None ->
  value c (overlay (worker (pre f))) k = None -> log_find c k (inserted (post f) c) = Some v ->
  value c (committed p) k = Some v.

Context (Hserial : capped_count (snd (serial_state n)) = 0).

Lemma start_program p : p <= n -> snd (serial_state p) = mkProgram (committed p) 0.
Proof.
  intros Hp. pose proof (serial_capped_le p n Hp). destruct (snd (serial_state p)) as [caches m]. simpl in *.
  f_equal. lia.
Qed.

(** A session related to the serial pass over position [p] commits it. *)
Lemma advance p ov published history s counts :
  core p published history ->
  related cap (committed p) ov p s (snd (serial_state (S p))) ->
  let q := apply_file_log cap (committed p) (log_of s) published counts in
  map_ q = committed (S p) /\ core (S p) (Commit.published q) (committed (S p) :: history)
  /\ (forall c k v, value c (committed p) k = Some v -> value c (committed (S p)) k = Some v)
  /\ (forall c k, value c (committed p) k = None -> value c (committed (S p)) k = log_find c k (inserted s c)).
Proof.
  intros [Hcov Hhist Hbase] [He Happ Hval] q.
  destruct (apply_file_log_complete cap (committed p) (log_of s) published counts _ Happ) as (Hmap & _ & Hpub).
  fold q in Hmap, Hpub. unfold lookup_live in Hval.
  assert (Hmono : forall c k v, value c (committed p) k = Some v -> value c (committed (S p)) k = Some v).
  { intros c k v Hv. by rewrite Hval, Hv. }
  assert (Hup : forall caches, between_caches base_caches (committed p) caches -> between_caches base_caches (committed (S p)) caches).
  { intros caches [H1 H2]. split; [done|]. intros c k v Hv. by apply Hmono, H2. }
  split; [done|]. split; [split|split; [done|]].
  - intros c k Hk Hnone Hsome. apply Hpub. rewrite Hval in Hsome. destruct (value c (committed p) k) eqn:E.
    + left. apply Hcov; [done..|by rewrite E].
    + right. destruct (log_find c k _) as [v|] eqn:El; [|done].
      destruct (log_find_in _ _ _ _ El) as (k' & d & Hin & Hs). destruct He as (_ & _ & He).
      destruct (He c k' v d Hin) as (Hk' & -> & _). rewrite <- (digest_same c k' k) by done. by exists c, k', v.
  - intros caches [<-|Hin]; [|by apply Hup, Hhist]. split; [|done]. intros c k Hv.
    destruct Hbase as [_ Hb]. destruct (value c base_caches k) as [v|] eqn:E; [|done].
    by rewrite (Hmono _ _ _ (Hb _ _ _ E)).
  - by apply Hup.
  - intros c k Hv. by rewrite Hval, Hv.
Qed.

(** The log of a worker that validates. *)
Lemma clean_related p published dirty history :
  p < n -> core p published history -> clean_committed p dirty ->
  misses (log_of (post p)) ## published -> overlay_deps (log_of (post p)) ## dirty -> capped_inserts (post p) = 0 ->
  related cap (committed p) (overlay (worker (pre p))) p (post p) (snd (serial_state (S p)))
  /\ fst (run p) = serial_result p.
Proof.
  intros Hp Hcore Hclean Hm Hd Hc. pose proof (worker_state_ok p (schedule p) ltac:(lia)) as [Hb Hdef _ _ _ Ho].
  fold (pre p) in Hb, Hdef, Ho. rewrite serial_state_S. unfold serial_result. simpl snd.
  pose proof (start_program p ltac:(lia)) as Es.
  destruct (simulation_run cap base_caches (committed p) (overlay (worker (pre p))) p published dirty (still base_caches)
    (core_covers _ _ _ Hcore)) with (view := Snapshot base_caches) (check := check p) (seen := @nil (Key GENERIC))
    (s := begin_file p (pre p)) (prog := snd (serial_state p)) as [Hr Hres].
  - intros c k f v Hk Hv. destruct (Ho _ _ _ _ Hv) as (Hf & Hpre & Hlog). split; [lia|].
    intros Hnd Hnone. by eapply Hclean.
  - intros s Hs. unfold read_base. rewrite Hs. apply (core_base _ _ _ Hcore).
  - by apply Hdisciplined.
  - by intros k [].
  - rewrite Es. apply related_begin.
  - done.
  - fold (run p) (post p). unfold validates. do 3 (split; [done|]).
    destruct (changes_grow _ _ (post_changes p Hp)) as (_ & _ & _ & _ & _ & Hx). unfold deferral. rewrite Hx by done. lia.
  - pose proof (serial_capped_le (S p) n ltac:(lia)) as Hle. rewrite serial_state_S in Hle. simpl in Hle. lia.
  - done.
Qed.

(** The log of a replay that validates. *)
Lemma replay_related p published history w s r log capped :
  p < n -> core p published history -> reads_history history w ->
  s = new_live_reading \/ s = new_live_reading_deferring p ->
  replay_one cap check w s p = (r, log, None, capped) -> misses log ## published -> capped = 0 ->
  exists s' ov, log = log_of s' /\ related cap (committed p) ov p s' (snd (serial_state (S p))) /\ r = serial_result p.
Proof.
  intros Hp Hcore Hw Hs Hreplay Hm Hc. unfold replay_one in Hreplay.
  destruct (session_run w cap (check p) (begin_file p s)) as [r' s'] eqn:Erun.
  assert (Hch : changes (begin_file p s) s').
  { replace s' with (snd (session_run w cap (check p) (begin_file p s))) by by rewrite Erun.
    by eapply session_run_changes, Hdisciplined. }
  destruct (changes_logs _ _ Hch) as [Hfin Hact]. simpl in Hfin, Hact.
  assert (Hnew : worker s = new_overlay /\ base s = Live /\ deferral (begin_file p s) = (-1)%Z) by (by destruct Hs as [-> | ->]).
  destruct Hnew as (Hnew & Hlive & Hdef0).
  unfold take_file_logs, finish_current in Hreplay. rewrite Hact, Hfin, Hnew in Hreplay. simpl in Hreplay.
  injection Hreplay as <- <- Hdef Hcap. exists s', (overlay (worker s)). split; [done|].
  rewrite serial_state_S. unfold serial_result. simpl snd. pose proof (start_program p ltac:(lia)) as Es.
  destruct (simulation_run cap base_caches (committed p) (overlay (worker s)) p published ∅ w
    (core_covers _ _ _ Hcore)) with (view := Live) (check := check p) (seen := @nil (Key GENERIC))
    (s := begin_file p s) (prog := snd (serial_state p)) as [Hr Hres].
  - intros c k f v _. rewrite Hnew. unfold new_overlay. simpl. by rewrite slot_fill, get_empty.
  - intros s0 Hs0. unfold read_base. rewrite Hs0. simpl.
    split; intros c k; destruct (Hw (clock s0) c) as (caches & Hin & ->); by apply (core_history _ _ _ Hcore caches Hin).
  - by apply Hdisciplined.
  - by intros k [].
  - rewrite Es. apply related_begin.
  - done.
  - rewrite Erun. simpl. split; [done|]. split; [set_solver|]. split; [congruence|].
    unfold deferred_until in Hdef. unfold deferral. destruct (defer s') as [d|]; [|lia]. case_match; [done|lia].
  - pose proof (serial_capped_le (S p) n ltac:(lia)) as Hle. rewrite serial_state_S in Hle. simpl in Hle. lia.
  - rewrite Erun in *. done.
Qed.
(** The state of the walk after [p] positions. *)
Record walked (p : nat) (history : list ProgramCaches) (st : Walk) : Prop := {
  walked_live : live_caches st = committed p;
  walked_core : core p (digests st) history;
  walked_clean : clean_committed p (dirty st);
  walked_length : length (slots st) = n;
  walked_slots : forall f, f < n -> slots st !! f = Some (Some (if f <? p then serial_result f else fst (run f)));
  walked_logs : forall f, p <= f < n -> worker_logs st !! f = Some (Some (log_of (post f)));
  walked_capped : forall f, f < n -> capped_inserts (post f) <= capped_total st
}.

(** What committing position [p] is to leave. *)
Record commits (p : nat) (history : list ProgramCaches) (st st' : Walk) : Prop := {
  commits_live : live_caches st' = committed (S p);
  commits_core : core (S p) (digests st') (committed (S p) :: history);
  commits_clean : clean_committed (S p) (dirty st');
  commits_slots : slots st' = <[p := Some (serial_result p)]> (slots st);
  commits_logs : forall f, f <> p -> worker_logs st' !! f = worker_logs st !! f;
  commits_capped : capped_total st <= capped_total st'
}.

Lemma walked_next p history st st' :
  walked p history st -> commits p history st st' -> p < n -> walked (S p) (live_caches st' :: history) st'.
Proof.
  intros [_ _ _ Hlen Hslots Hlogs Hcap] [Hl Hc Hd Hs Hw Hle] Hp. split; try done.
  - by rewrite Hl.
  - by rewrite Hs, length_insert.
  - intros f Hf. rewrite Hs. destruct (decide (f = p)) as [->|Hne].
    + rewrite list_lookup_insert_eq by lia. destruct (Nat.ltb_spec p (S p)); [done|lia].
    + rewrite list_lookup_insert_ne by done. rewrite Hslots by done.
      destruct (Nat.ltb_spec f p), (Nat.ltb_spec f (S p)); try done; lia.
  - intros f Hf. rewrite Hw by lia. apply Hlogs. lia.
  - intros f Hf. specialize (Hcap f Hf). lia.
Qed.

Lemma clean_dirty p dirty :
  clean_committed p dirty ->
  (forall c k v, value c (committed p) k = Some v -> value c (committed (S p)) k = Some v) ->
  clean_committed (S p) ({[p]} ∪ dirty).
Proof.
  intros Hclean Hmono f c k v Hf Hnd Hk Hnone Hpre Hlog. apply Hmono. apply (Hclean f); try done; [|set_solver].
  assert (f <> p) by set_solver. lia.
Qed.

Lemma clean_clean p published dirty history counts :
  p < n -> core p published history -> clean_committed p dirty ->
  misses (log_of (post p)) ## published -> overlay_deps (log_of (post p)) ## dirty -> capped_inserts (post p) = 0 ->
  let q := apply_file_log cap (committed p) (log_of (post p)) published counts in
  map_ q = committed (S p) /\ core (S p) (Commit.published q) (committed (S p) :: history)
  /\ clean_committed (S p) dirty /\ fst (run p) = serial_result p.
Proof.
  intros Hp Hcore Hclean Hm Hd Hc q.
  destruct (clean_related p published dirty history Hp Hcore Hclean Hm Hd Hc) as [Hr Hres].
  destruct (advance p _ published history _ counts Hcore Hr) as (Hmap & Hcore' & Hmono & Hnew). fold q in Hmap, Hcore'.
  split; [done|]. split; [done|]. split; [|done].
  intros f c k v Hf Hnd Hk Hnone Hpre Hlog. destruct (decide (f = p)) as [->|Hne].
  - rewrite Hnew; [done|]. destruct (log_find_in _ _ _ _ Hlog) as (k' & d & Hin & Hs).
    destruct (post_explained p Hp) as (_ & _ & He). destruct (He c k' v d Hin) as (Hk' & -> & Hmiss).
    destruct (value c (committed p) k) eqn:E; [|done]. exfalso. apply (Hm (digest c k)).
    + by rewrite <- (digest_same c k' k).
    + apply (core_covers _ _ _ Hcore); [done..|by rewrite E].
  - apply Hmono. apply (Hclean f); try done. lia.
Qed.

Lemma recheck_commits p history st :
  p < n -> live_caches st = committed p -> core p (digests st) history -> clean_committed p (dirty st) ->
  commits p history st (recheck cap check p (mark_dirty p st)).
Proof.
  intros Hp Hlive Hcore Hclean. unfold recheck. simpl. rewrite Hlive.
  destruct (session_run _ cap (check p) (begin_file p new_live_reading)) as [r s] eqn:Erun.
  assert (Hch : changes (begin_file p new_live_reading) s).
  { replace s with (snd (session_run (still (committed p)) cap (check p) (begin_file p new_live_reading))) by by rewrite Erun.
    by eapply session_run_changes, Hdisciplined. }
  destruct (changes_logs _ _ Hch) as [Hfin Hact]. simpl in Hfin, Hact.
  unfold take_file_logs, finish_current. rewrite Hact, Hfin. simpl.
  destruct (exact_run cap (committed p) p (still (committed p)) 0) with (check := check p) (seen := @nil (Key GENERIC))
    (s := begin_file p new_live_reading) (prog := snd (serial_state p)) as [Hres [Hrel _ _ _ _]].
  - intros s0 Hs0. unfold read_base. by rewrite Hs0.
  - by apply Hdisciplined.
  - rewrite (start_program p) by lia. split; try done; [apply (related_begin cap (committed p) p new_live_reading)|].
    intros c k. unfold overlay_len. simpl. rewrite slot_fill, len_empty. lia.
  - rewrite Erun in Hres, Hrel. simpl in Hres, Hrel. fold (serial_result p) in Hres.
    assert (Hrel' : related cap (committed p) (fill (fun c => empty c (nat * Val c))) p s (snd (serial_state (S p)))).
    { by rewrite serial_state_S. }
    destruct (advance p _ (digests st) history s (walk_stats st) Hcore Hrel') as (Hmap & Hcore' & Hmono & _).
    split; simpl; try done.
    + by apply clean_dirty.
    + by rewrite Hres.
    + lia.
Qed.

Lemma commit_conflict_commits p history st replay capped :
  p < n -> live_caches st = committed p -> core p (digests st) history -> clean_committed p (dirty st) ->
  replay_of cap check history p replay capped -> capped = 0 ->
  commits p history st (commit_conflict cap check p replay st).
Proof.
  intros Hp Hlive Hcore Hclean Hreplay Hcap. unfold commit_conflict.
  destruct Hreplay as [|w s r log capped Hw Hs Hone].
  - destruct (recheck_commits p history (clear_log p st) Hp Hlive Hcore Hclean) as [H1 H2 H3 H4 H5 H6].
    split; try done. intros f Hf. change (clear_log p (mark_dirty p st)) with (mark_dirty p (clear_log p st)).
    rewrite H5 by done. simpl. by apply list_lookup_insert_ne.
  - unfold commit_replay_log. simpl. destruct (is_disjoint _ _) eqn:Ed; simpl.
    + apply bool_decide_eq_true in Ed.
      destruct (replay_related p (digests st) history w s r log capped Hp Hcore Hw Hs Hone Ed Hcap) as (s' & ov & -> & Hrel & ->).
      destruct (advance p _ (digests st) history s' (walk_stats st) Hcore Hrel) as (Hmap & Hcore' & Hmono & _).
      rewrite Hlive. split; simpl; try done.
      * by apply clean_dirty.
      * intros f Hf. by apply list_lookup_insert_ne.
    + set (st1 := clear_log p _). change (recheck cap check p st1) with (recheck cap check p (mark_dirty p (clear_log p st))).
      destruct (recheck_commits p history (clear_log p st) Hp Hlive Hcore Hclean) as [H1 H2 H3 H4 H5 H6].
      split; try done. intros f Hf. rewrite H5 by done. simpl. by apply list_lookup_insert_ne.
Qed.

Lemma commit_file_log_spec caches log published dirty counts :
  let '(verdict, q) := commit_file_log cap caches log published dirty counts in
  match verdict with
  | Clean =>
      misses log ## published /\ overlay_deps log ## dirty
      /\ exists counts, map_ q = map_ (apply_file_log cap caches log published counts)
         /\ Commit.published q = Commit.published (apply_file_log cap caches log published counts)
  | _ => map_ q = caches /\ Commit.published q = published
  end.
Proof.
  unfold commit_file_log. destruct (is_disjoint (misses log) _) eqn:Em; [|done].
  destruct (is_disjoint (overlay_deps log) _) eqn:Ed; [|done]. apply bool_decide_eq_true in Em, Ed. cbn [negb].
  split; [done|]. split; [done|]. exists (count_file counts).
  by generalize (apply_file_log cap caches log published (count_file counts)).
Qed.

Lemma commit_position_commits p history st replay capped :
  p < n -> walked p history st -> replay_of cap check history p replay capped ->
  capped_total st = 0 -> capped = 0 ->
  commits p history st (commit_position cap check p replay st).
Proof.
  intros Hp [Hlive Hcore Hclean Hlen Hslots Hlogs Hcapped] Hreplay Htotal Hcap.
  unfold commit_position. rewrite (Hlogs p) by lia. cbn [mjoin option_join].
  assert (Hpost : capped_inserts (post p) = 0) by (specialize (Hcapped p Hp); lia).
  assert (Hconflict : forall st1, live_caches st1 = committed p -> digests st1 = digests st -> dirty st1 = dirty st ->
    slots st1 = slots st -> worker_logs st1 = <[p := None]> (worker_logs st) -> capped_total st1 = capped_total st ->
    commits p history st (commit_conflict cap check p replay st1)).
  { intros st1 E1 E2 E3 E4 E5 E6. rewrite <- E2 in Hcore. rewrite <- E3 in Hclean.
    destruct (commit_conflict_commits p history st1 replay capped Hp E1 Hcore Hclean Hreplay Hcap) as [H1 H2 H3 H4 H5 H6].
    split; try done; [by rewrite H4, E4| |by rewrite <- E6].
    intros f Hf. rewrite H5, E5 by done. by apply list_lookup_insert_ne. }
  pose proof (commit_file_log_spec (live_caches (clear_log p st)) (log_of (post p)) (digests (clear_log p st))
    (dirty (clear_log p st)) (walk_stats (clear_log p st))) as Hspec.
  destruct (commit_file_log _ _ _ _ _ _) as [verdict q]. cbn [live_caches digests dirty clear_log] in Hspec.
  destruct verdict.
  - destruct Hspec as (Em & Ed & counts & Hmap & Hpub). rewrite Hlive in Hmap, Hpub.
    destruct (clean_clean p (digests st) (dirty st) history counts Hp Hcore Hclean Em Ed Hpost) as (Hmap' & Hcore' & Hclean' & Hres).
    rewrite <- Hmap in Hmap'. rewrite <- Hpub in Hcore'. split; try done.
    + apply eq_sym, list_insert_id. rewrite Hslots by done. destruct (Nat.ltb_spec p p); [lia|]. by rewrite Hres.
    + intros f Hf. by apply list_lookup_insert_ne.
  - destruct Hspec as [Hmap Hpub]. rewrite Hlive in Hmap. by apply Hconflict.
  - destruct Hspec as [Hmap Hpub]. rewrite Hlive in Hmap. by apply Hconflict.
Qed.

Lemma commit_position_capped p replay (st : Walk (R := R)) :
  capped_total st <= capped_total (commit_position cap check p replay st).
Proof.
  assert (Hre : forall st, capped_total st <= capped_total (recheck cap check p st)).
  { intros st0. unfold recheck. destruct (session_run _ _ _ _) as [r s]. unfold take_file_logs. simpl. lia. }
  assert (Hco : forall st, capped_total st <= capped_total (commit_conflict cap check p replay st)).
  { intros st0. unfold commit_conflict. destruct replay as [[r log]|]; [|etrans; [|apply Hre]; done].
    unfold commit_replay_log. destruct (negb _); [|done]. by etrans; [|apply Hre]. }
  unfold commit_position. destruct (mjoin _) as [log|]; [|apply Hco]. unfold commit_file_log.
  destruct (negb _); [by etrans; [|apply Hco]|]. destruct (negb _); [by etrans; [|apply Hco]|]. done.
Qed.

Context (Hschedule : forall f, f < n -> schedule f < worker_count).

Lemma walked_start : walked 0 [base_caches] fanned_out.
Proof.
  destruct (fan_out_ok worker_count) as (Hl & Hd & Hdi & Hs & Hw & Hall).
  fold (fan_out cap check schedule worker_count n base_caches) fanned_out in *.
  split; try done.
  - rewrite Hd. split.
    + intros c k _ Hnone Hsome. by destruct Hsome.
    + by intros caches [<-|[]].
    + done.
  - intros f c k v Hf. lia.
  - intros f Hf. by destruct (Hall f Hf (Hschedule f Hf)) as (-> & _).
  - intros f [_ Hf]. by destruct (Hall f Hf (Hschedule f Hf)) as (_ & -> & _).
  - intros f Hf. by destruct (Hall f Hf (Hschedule f Hf)) as (_ & _ & ?).
Qed.

Lemma walk_walked p history st :
  walk cap check fanned_out p history st -> p <= n -> capped_total st = 0 -> walked p history st.
Proof.
  induction 1 as [|p history st replay capped _ IH Hreplay st']; intros Hp Hcap.
  - destruct (fan_out_ok worker_count) as (Hl & _). fold (fan_out cap check schedule worker_count n base_caches) fanned_out in Hl.
    rewrite Hl. apply walked_start.
  - pose proof (commit_position_capped p replay (count_replay capped st)) as Hle. fold st' in Hle. simpl in Hle.
    destruct (IH ltac:(lia) ltac:(lia)) as [H1 H2 H3 H4 H5 H6 H7].
    assert (Hst : walked p history (count_replay capped st)).
    { split; try done. intros f Hf. specialize (H7 f Hf). simpl. lia. }
    eapply walked_next; [exact Hst| |lia]. eapply commit_position_commits; try done; simpl; lia.
Qed.
End equivalence.

Section theorems.
Context `{InterfaceKeys} {R : Type}.

(** ** Properties *)

(** C27 Serial equivalence: for checks that look an entry up before they insert
    it, as [disciplined] says, any assignment of the files to workers, and any
    replays that saw the maps at any moments of the commit, the walk leaves in
    every slot the result of the serial pass, and the caches of the serial pass,
    if no insertion of either met the bucket cap. *)
Theorem parallel_is_serial cap (check : nat -> Check R) caches schedule worker_count n history st :
  (forall f, f < n -> disciplined [] (check f)) ->
  (forall f, f < n -> schedule f < worker_count) ->
  walk cap check (fan_out cap check schedule worker_count n caches) n history st ->
  capped_total st = 0 ->
  capped_count (snd (check_program_files_serial cap check n caches)) = 0 ->
  slots st = map Some (fst (check_program_files_serial cap check n caches))
  /\ live_caches st = live (snd (check_program_files_serial cap check n caches)).
Proof.
  intros Hd Hs Hw Hc Hn.
  destruct (walk_walked cap check caches schedule worker_count n Hd Hn Hs n history st Hw ltac:(lia) Hc)
    as [Hl _ _ Hlen Hslots _ _].
  change (check_program_files_serial cap check n caches) with (serial_state cap check caches n). split; [|done]. rewrite (serial_results cap check caches n), map_map.
  apply list_eq. intros f. rewrite list_lookup_fmap. destruct (decide (f < n)) as [Hf|Hf].
  - rewrite Hslots, lookup_seq_lt by done. destruct (Nat.ltb_spec f n); [done|lia].
  - rewrite lookup_ge_None_2, lookup_seq_ge by lia. done.
Qed.

(** C28 The check on the coordinator, of a file whose check looks an entry up
    before it inserts it, is the serial check of the file on the committed
    caches, with any cap: its result, the caches after its log is
    published and the number of insertions at the cap. *)
Theorem recheck_is_serial cap (check : nat -> Check R) file st :
  disciplined [] (check file) ->
  let '(r, s) := serial_run cap (check file) (mkProgram (live_caches st) 0) in
  let st' := recheck cap check file st in
  slots st' = <[file := Some r]> (slots st) /\ live_caches st' = live s
  /\ capped_total st' = capped_total st + capped_count s.
Proof.
  intros Hd. destruct (serial_run _ _ _) as [r s] eqn:Eserial. unfold recheck.
  destruct (session_run _ _ _ _) as [r' s'] eqn:Erun.
  destruct (exact_run cap (live_caches st) file (still (live_caches st)) 0) with (check := check file) (seen := @nil (Key GENERIC))
    (s := begin_file file new_live_reading) (prog := mkProgram (live_caches st) 0) as [Hres [Hrel _ Hcap _ _]].
  - intros s0 Hs0. unfold read_base. by rewrite Hs0.
  - done.
  - split; try done; [exact (related_begin cap (live_caches st) file new_live_reading 0)|].
    intros c k. unfold overlay_len. simpl. rewrite slot_fill, len_empty. lia.
  - rewrite Erun, Eserial in *. simpl in Hres, Hrel, Hcap. subst r'.
    assert (Hch : rtc primitive (begin_file file new_live_reading) s').
    { replace s' with (snd (session_run (still (live_caches st)) cap (check file) (begin_file file new_live_reading))) by by rewrite Erun.
      by eapply session_run_changes. }
    destruct (changes_logs _ _ Hch) as [Hfin Hact]. simpl in Hfin, Hact.
    unfold take_file_logs, finish_current. rewrite Hact, Hfin. simpl.
    destruct Hrel as [_ Happ _].
    destruct (apply_file_log_complete cap _ _ (digests st) (walk_stats st) _ Happ) as (Hmap & _).
    split; [done|]. split; [exact Hmap|]. by rewrite Hcap.
Qed.
End theorems.

(** ** Examples

    Two workers; a file resolves [A] at its argument and says whether it was
    there already. *)
#[local] Existing Instance number_keys.

Definition no_caches : ProgramCaches := fill (fun c => empty c (Val c)).
Definition a_at (argument : ty) : Key GENERIC := (mkKey (lit "a.ts") (lit "A") Type_ 0, [argument]).
Definition resolve {R} (argument : ty) (next : bool -> Check R) : Check R :=
  Lookup GENERIC (a_at argument) (fun found =>
    match found with
    | Some _ => next true
    | None => CacheGeneric (a_at argument) (argument, false) (next false)
    end).
Definition alternate (file : nat) : nat := file mod 2.

Lemma resolve_disciplined {R} argument (next : bool -> Check R) seen :
  wf argument -> (forall found, disciplined (a_at argument :: seen) (next found)) -> disciplined seen (resolve argument next).
Proof.
  intros Hwf Hnext. assert (Hk : key_ok GENERIC (a_at argument)) by by apply Forall_singleton.
  split; [done|]. intros [v|]; [apply Hnext|]. split; [done|]. split; [by left|apply Hnext].
Qed.

Lemma wf_number : wf Number.
Proof. by constructor; [|apply Forall_nil]. Qed.
Lemma wf_string : wf String.
Proof. by constructor; [|apply Forall_nil]. Qed.

Definition number_twice (_ : nat) : Check bool := resolve Number Done.

(** The workers both miss [A<number>]; the second file is replayed and then
    hits, as in the serial pass. *)
Lemma parallel_is_serial_witness :
  exists st, slots st = [Some false; Some true]
  /\ slots st = map Some (fst (check_program_files_serial 4096 number_twice 2 no_caches)).
Proof.
  set (start := fan_out 4096 number_twice alternate 2 2 no_caches).
  set (st0 := commit_position 4096 number_twice 0 None (count_replay 0 start)).
  assert (Hw0 : walk 4096 number_twice start 1 [live_caches st0; live_caches start] st0).
  { apply (walk_next _ _ start 0 [live_caches start] start None 0); constructor. }
  set (replay := replay_one 4096 number_twice (still (live_caches st0)) new_live_reading 1).
  assert (Hdeferred : snd (fst replay) = None) by by vm_compute.
  assert (Hcapped : snd replay = 0) by by vm_compute.
  assert (E : replay = (fst (fst (fst replay)), snd (fst (fst replay)), None, 0)).
  { rewrite <- Hdeferred, <- Hcapped. generalize replay. by intros [[[? ?] ?] ?]. }
  set (st1 := commit_position 4096 number_twice 1 (Some (fst (fst (fst replay)), snd (fst (fst replay)))) (count_replay 0 st0)).
  assert (Hw1 : walk 4096 number_twice start 2 [live_caches st1; live_caches st0; live_caches start] st1).
  { apply (walk_next _ _ start 1 _ st0 (Some (fst (fst (fst replay)), snd (fst (fst replay)))) 0 Hw0).
    eapply a_replay; [|by left|exact E]. intros i c. exists (live_caches st0). split; [by left|done]. }
  destruct (parallel_is_serial 4096 number_twice no_caches alternate 2 2 [live_caches st1; live_caches st0; live_caches start] st1)
    as [Hs _].
  - intros f _. apply resolve_disciplined; [apply wf_number|done].
  - intros f Hf. unfold alternate. apply Nat.mod_upper_bound. done.
  - exact Hw1.
  - by vm_compute.
  - by vm_compute.
  - exists st1. split; [|exact Hs]. rewrite Hs. by vm_compute.
Defined.

Lemma recheck_is_serial_witness :
  let st := fan_out 1 number_twice alternate 2 2 no_caches in
  slots (recheck 1 number_twice 0 st) = [Some false; Some false].
Proof.
  intros st. pose proof (recheck_is_serial 1 number_twice 0 st) as Hr.
  destruct (serial_run 1 (number_twice 0) (mkProgram (live_caches st) 0)) as [r s] eqn:E.
  destruct Hr as [Hs _]; [apply resolve_disciplined; [apply wf_number|done]|].
  rewrite Hs. assert (Er : fst (serial_run 1 (number_twice 0) (mkProgram (live_caches st) 0)) = false) by by vm_compute.
  rewrite E in Er. simpl in Er. rewrite Er. by vm_compute.
Defined.

(** The first file takes the one entry of [A]'s bucket, the second resolves
    [A<string>] twice. *)
Definition string_twice (file : nat) : Check bool :=
  match file with 0 => resolve Number Done | _ => resolve String (fun _ => resolve String Done) end.

(** C29 At the cap the walk is not the serial pass: the second file's log
    validates, the insertion of [A<string>] is blocked when it is published, and
    its result, which hit that entry in the overlay, stays, where the serial pass
    misses it. *)
Theorem cap_divergence :
  (forall f, disciplined [] (string_twice f))
  /\ exists history st,
       walk 1 string_twice (fan_out 1 string_twice alternate 2 2 no_caches) 2 history st
       /\ clean_commits (walk_stats st) = 2 /\ merge_cap_blocked (walk_stats st) = 1
       /\ slots st = [Some false; Some true]
       /\ fst (check_program_files_serial 1 string_twice 2 no_caches) = [false; false].
Proof.
  split.
  - intros [|f]; apply resolve_disciplined; [apply wf_number|done|apply wf_string|].
    intros _. by apply resolve_disciplined; [apply wf_string|].
  - set (start := fan_out _ _ _ _ _ _).
    set (st0 := commit_position 1 string_twice 0 None (count_replay 0 start)).
    set (st1 := commit_position 1 string_twice 1 None (count_replay 0 st0)).
    assert (Hw0 : walk 1 string_twice start 1 [live_caches st0; live_caches start] st0).
    { apply (walk_next _ _ start 0 [live_caches start] start None 0); constructor. }
    assert (Hw1 : walk 1 string_twice start 2 [live_caches st1; live_caches st0; live_caches start] st1).
    { apply (walk_next _ _ start 1 _ st0 None 0 Hw0). constructor. }
    exists [live_caches st1; live_caches st0; live_caches start], st1. split; [exact Hw1|]. by vm_compute.
Qed.
