(* ===== verification/ReplayPool.v ===== *)
(** * The replay pipeline ([surge-ts-checker/src/replay.rs])

    The coordinator takes the positions in serial order while pool threads
    compute replays from a queue. The steps of the coordinator and of each thread
    interleave freely at every use of the pool's lock; a blocking wait is a step
    that is not there until its condition holds. *)

From stdpp Require Import gmap relations.
From Stdlib Require Import Relation_Operators Lexicographic_Product.
From S2P Require Import Prelude.

Section pipeline.
Context {R : Type}.

(** What a replay of a position may answer: its result, or with a publisher it
    waits for. *)
Context (replay_one : nat -> R -> option nat -> Prop).
Context (n worker_count : nat) (submit_at : list (option nat)) (is_active : nat -> bool).

Inductive CommitOutcome := Committed | NeedsReplay.
Inductive Delivered := Valid (r : R) | Deferred (publisher : nat).

Definition delivered_of (r : R) (deferred_until : option nat) : Delivered :=
  match deferred_until with Some publisher => Deferred publisher | None => Valid r end.
Definition valid_of (d : Delivered) : option R := match d with Valid r => Some r | Deferred _ => None end.

(** ** The pool *)

Record PoolInner := mkPool {
  queue : list nat;
  results : gmap nat Delivered;
  newly_deferred : list (nat * nat);
  shutdown : bool
}.

Definition submit (position : nat) (p : PoolInner) : PoolInner :=
  mkPool (queue p ++ [position]) (results p) (newly_deferred p) (shutdown p).
Definition deliver (position : nat) (d : Delivered) (p : PoolInner) : PoolInner :=
  mkPool (queue p) (<[position := d]> (results p))
    (newly_deferred p ++ match d with Deferred publisher => [(position, publisher)] | Valid _ => [] end) (shutdown p).
Definition pending_results (p : PoolInner) : nat := size (results p).

Inductive Thread := Idle | Working (position : nat) | Exited.

(** ** The coordinator *)

Record ReplayStats := mkStats { submitted_count : nat; resubmitted : nat; wasted : nat; peak_in_flight : nat }.

(** Where the coordinator is in the loop at [frontier], with what it has left of
    a list it goes over. *)
Inductive Phase :=
  | Submitting (positions : list nat)
  | Waking (positions : list nat)
  | Routing (deferrals : list (nat * nat))
  | Taking (is_final : bool)
  | Committing (replay : option R) (is_final : bool)
  | Resubmitting
  | ShuttingDown
  | Finished.

(** [calls] are the calls of [commit_position] so far, and [committed] the
    positions whose last call returned. *)
Record Coordinator := mkCoordinator {
  frontier : nat;
  phase : Phase;
  submitted : gset nat;
  defer_count : gmap nat nat;
  parked : gmap nat (list nat);
  stats : ReplayStats;
  calls : list (nat * option R * bool);
  committed : list nat
}.

Definition MAX_DEFERS : nat := 4.

Definition count_submitted (s : ReplayStats) := mkStats (S (submitted_count s)) (resubmitted s) (wasted s) (peak_in_flight s).
Definition count_resubmitted (s : ReplayStats) := mkStats (submitted_count s) (S (resubmitted s)) (wasted s) (peak_in_flight s).
Definition peak (k : nat) (s : ReplayStats) := mkStats (submitted_count s) (resubmitted s) (wasted s) (Nat.max (peak_in_flight s) k).
Definition waste (k : nat) (s : ReplayStats) := mkStats (submitted_count s) (resubmitted s) k (peak_in_flight s).

Definition set_phase (ph : Phase) (c : Coordinator) : Coordinator :=
  mkCoordinator (frontier c) ph (submitted c) (defer_count c) (parked c) (stats c) (calls c) (committed c).
Definition set_stats (f : ReplayStats -> ReplayStats) (c : Coordinator) : Coordinator :=
  mkCoordinator (frontier c) (phase c) (submitted c) (defer_count c) (parked c) (f (stats c)) (calls c) (committed c).

(** [submit_buckets]. *)
Definition bucket (at_ : nat) : list nat :=
  List.filter (fun position =>
    match submit_at !! position with Some (Some a) => Nat.min a n =? at_ | _ => false end) (seq 0 n).

(** The next turn of the loop. *)
Definition next_frontier (c : Coordinator) : Coordinator :=
  mkCoordinator (S (frontier c)) (if S (frontier c) <? n then Submitting (bucket (S (frontier c))) else ShuttingDown)
    (submitted c) (defer_count c) (parked c) (stats c) (calls c) (committed c).

(** Routing one deferral. *)
Definition route (position publisher : nat) (c : Coordinator) (p : PoolInner) : Coordinator * PoolInner :=
  if position <=? frontier c then (c, p) else
  let count := S (default 0 (defer_count c !! position)) in
  let c := mkCoordinator (frontier c) (phase c) (submitted c) (<[position := count]> (defer_count c)) (parked c)
             (stats c) (calls c) (committed c) in
  if MAX_DEFERS <? count then (c, p)
  else if publisher <? frontier c then (set_stats count_resubmitted c, submit position p)
  else (mkCoordinator (frontier c) (phase c) (submitted c) (defer_count c)
          (<[publisher := default [] (parked c !! publisher) ++ [position]]> (parked c))
          (stats c) (calls c) (committed c), p).

(** The end of step 3: the statistics, and step 4 up to the wait. *)
Definition at_frontier (c : Coordinator) (p : PoolInner) : Coordinator :=
  let c := set_stats (peak (pending_results p)) c in
  if negb (is_active (frontier c)) then next_frontier c
  else if bool_decide (frontier c ∈ submitted c) then set_phase (Taking false) c
  else set_phase (Committing None false) c.

Definition commit_call (replay : option R) (is_final : bool) (outcome : CommitOutcome) (c : Coordinator) : Coordinator :=
  let called l := mkCoordinator (frontier c) (phase c) (submitted c) (defer_count c) (parked c) (stats c)
                    (calls c ++ [(frontier c, replay, is_final)]) l in
  match outcome, is_final with
  | NeedsReplay, false => set_phase Resubmitting (called (committed c))
  | _, _ => next_frontier (called (committed c ++ [frontier c]))
  end.

(** ** Steps *)

Record State := mkState { pool : PoolInner; threads : list Thread; coordinator : Coordinator }.

Inductive coordinator_step : Coordinator -> PoolInner -> Coordinator -> PoolInner -> Prop :=
  | c_submit c p position positions :
      phase c = Submitting (position :: positions) -> position ∉ submitted c ->
      coordinator_step c p
        (mkCoordinator (frontier c) (Submitting positions) ({[position]} ∪ submitted c) (defer_count c) (parked c)
           (count_submitted (stats c)) (calls c) (committed c)) (submit position p)
  | c_submitted c p position positions :
      phase c = Submitting (position :: positions) -> position ∈ submitted c ->
      coordinator_step c p (set_phase (Submitting positions) c) p
  | c_unpark c p :
      phase c = Submitting [] ->
      coordinator_step c p
        (if 0 <? frontier c
         then mkCoordinator (frontier c) (Waking (default [] (parked c !! (frontier c - 1)))) (submitted c) (defer_count c)
                (delete (frontier c - 1) (parked c)) (stats c) (calls c) (committed c)
         else set_phase (Waking []) c) p
  | c_wake c p position positions :
      phase c = Waking (position :: positions) ->
      coordinator_step c p
        (if frontier c <? position then set_phase (Waking positions) (set_stats count_resubmitted c)
         else set_phase (Waking positions) c)
        (if frontier c <? position then submit position p else p)
  | c_drain c p :
      phase c = Waking [] ->
      coordinator_step c p (set_phase (Routing (newly_deferred p)) c) (mkPool (queue p) (results p) [] (shutdown p))
  | c_route c p position publisher deferrals :
      phase c = Routing ((position, publisher) :: deferrals) ->
      coordinator_step c p (set_phase (Routing deferrals) (fst (route position publisher c p))) (snd (route position publisher c p))
  | c_frontier c p : phase c = Routing [] -> coordinator_step c p (at_frontier c p) p
  | c_take c p is_final d :
      phase c = Taking is_final -> results p !! frontier c = Some d ->
      coordinator_step c p (set_phase (Committing (valid_of d) is_final) c)
        (mkPool (queue p) (delete (frontier c) (results p)) (newly_deferred p) (shutdown p))
  | c_commit c p replay is_final outcome :
      phase c = Committing replay is_final -> coordinator_step c p (commit_call replay is_final outcome c) p
  | c_resubmit c p :
      phase c = Resubmitting ->
      coordinator_step c p (set_phase (Taking true) (set_stats count_resubmitted c)) (submit (frontier c) p)
  | c_shutdown c p :
      phase c = ShuttingDown ->
      coordinator_step c p (set_phase Finished (set_stats (waste (pending_results p)) c))
        (mkPool (queue p) (results p) (newly_deferred p) true).

Inductive thread_step : Thread -> PoolInner -> Thread -> PoolInner -> Prop :=
  | t_take p position rest :
      queue p = position :: rest ->
      thread_step Idle p (Working position) (mkPool rest (results p) (newly_deferred p) (shutdown p))
  | t_exit p : queue p = [] -> shutdown p = true -> thread_step Idle p Exited p
  | t_deliver p position r deferred_until :
      replay_one position r deferred_until ->
      thread_step (Working position) p Idle (deliver position (delivered_of r deferred_until) p).

Inductive step : State -> State -> Prop :=
  | s_coordinator p ts c c' p' : coordinator_step c p c' p' -> step (mkState p ts c) (mkState p' ts c')
  | s_thread p ts c i t t' p' :
      ts !! i = Some t -> thread_step t p t' p' -> step (mkState p ts c) (mkState p' (<[i := t']> ts) c).

Definition start : State :=
  mkState (mkPool [] ∅ [] false) (replicate (Nat.max worker_count 1) Idle)
    (mkCoordinator 0 (if 0 <? n then Submitting (bucket 0) else ShuttingDown) ∅ ∅ ∅ (mkStats 0 0 0 0) [] []).

Definition reachable : State -> Prop := rtc step start.

(** ** Every run ends

    The frontier and the phase, then what is left of the phase's list, then the
    work of the threads: each step makes the tuple smaller. *)
Definition rank (ph : Phase) : nat :=
  match ph with
  | Submitting _ => 10 | Waking _ => 9 | Routing _ => 8 | Taking false => 7 | Committing _ false => 6 | Resubmitting => 5
  | Taking true => 4 | Committing _ true => 3 | ShuttingDown => 2 | Finished => 1
  end.
Definition left_over (ph : Phase) : nat :=
  match ph with Submitting l | Waking l => length l | Routing l => length l | _ => 0 end.
Definition weight (t : Thread) : nat := match t with Idle => 1 | Working _ => 2 | Exited => 0 end.

Definition coordinator_measure (c : Coordinator) : nat * nat :=
  (16 * (n - frontier c) + rank (phase c), left_over (phase c)).
Definition thread_measure (s : State) : nat :=
  2 * length (queue (pool s)) + sum_list (map weight (threads s)).

Definition smaller : relation (nat * nat * nat) := slexprod _ _ (slexprod _ _ lt lt) lt.
Definition measure (s : State) : nat * nat * nat := (coordinator_measure (coordinator s), thread_measure s).

Lemma smaller_wf : well_founded smaller.
Proof. apply wf_slexprod; [apply wf_slexprod; apply lt_wf|apply lt_wf]. Qed.

Lemma next_frontier_measure c c' :
  frontier c = frontier c' -> 3 <= rank (phase c') ->
  slexprod _ _ lt lt (coordinator_measure (next_frontier c)) (coordinator_measure c').
Proof.
  intros Ef Hr. apply left_slex. simpl. rewrite Ef. destruct (Nat.ltb_spec (S (frontier c')) n); simpl; lia.
Qed.

Lemma coordinator_step_measure c p c' p' :
  coordinator_step c p c' p' -> slexprod _ _ lt lt (coordinator_measure c') (coordinator_measure c).
Proof.
  destruct 1; unfold coordinator_measure; simpl.
  - rewrite H. apply right_slex. simpl. lia.
  - rewrite H. apply right_slex. simpl. lia.
  - rewrite H. destruct (0 <? _); apply left_slex; simpl; lia.
  - rewrite H. destruct (_ <? _); apply right_slex; simpl; lia.
  - rewrite H. apply left_slex. simpl. lia.
  - rewrite H. assert (Ef : frontier (fst (route position publisher c p)) = frontier c) by (unfold route; by repeat case_match).
    rewrite Ef. apply right_slex. simpl. lia.
  - unfold at_frontier. destruct (negb _); [apply (next_frontier_measure _ c); [done|rewrite H; simpl; lia]|].
    rewrite H. case_bool_decide; apply left_slex; simpl; lia.
  - rewrite H. apply left_slex. destruct is_final; simpl; lia.
  - unfold commit_call. destruct outcome, is_final.
    all: try (apply (next_frontier_measure _ c); [done|rewrite H; simpl; lia]).
    rewrite H. apply left_slex. simpl. lia.
  - rewrite H. apply left_slex. simpl. lia.
  - rewrite H. apply left_slex. simpl. lia.
Qed.

Lemma weights_insert ts i t t' :
  ts !! i = Some t -> sum_list (map weight (<[i := t']> ts)) + weight t = sum_list (map weight ts) + weight t'.
Proof.
  revert i. induction ts as [|u ts IH]; intros [|i] Hi; try done; simpl in *.
  - injection Hi as ->. lia.
  - specialize (IH i Hi). lia.
Qed.

Lemma step_measure s s' : step s s' -> smaller (measure s') (measure s).
Proof.
  destruct 1 as [p ts c c' p' Hc|p ts c i t t' p' Hi Ht].
  - apply left_slex. by eapply coordinator_step_measure.
  - apply right_slex. unfold thread_measure. cbn [pool threads]. pose proof (weights_insert ts i t t' Hi) as Hw.
    destruct Ht as [p position rest Hq|p Hq Hs|p position r d Hr]; simpl in *; [rewrite Hq|rewrite Hq|]; simpl; lia.
Qed.

Lemma steps_end s : Acc (flip step) s.
Proof.
  remember (measure s) as m eqn:Em. revert s Em. induction (smaller_wf m) as [m _ IH]. intros s ->.
  constructor. intros s' Hs. by eapply IH; [apply step_measure|].
Qed.

(** ** Invariants *)

Definition has_work (p : PoolInner) (ts : list Thread) (q : nat) : Prop :=
  is_Some (results p !! q) \/ In q (queue p) \/ In (Working q) ts.

Definition in_turn (c : Coordinator) : Prop :=
  match phase c with
  | ShuttingDown | Finished => frontier c = n
  | Submitting _ | Waking _ | Routing _ => frontier c < n
  | _ => frontier c < n /\ is_active (frontier c) = true
  end.

(** A position the coordinator will wait for is in the pool. *)
Definition supplied (c : Coordinator) (p : PoolInner) (ts : list Thread) : Prop :=
  (forall q, q ∈ submitted c -> frontier c < q -> has_work p ts q)
  /\ match phase c with
     | Submitting _ | Waking _ | Routing _ => frontier c ∈ submitted c -> has_work p ts (frontier c)
     | Taking _ => has_work p ts (frontier c)
     | _ => True
     end.

(** The results and the calls of [commit_position] are of completed replays of
    the position. *)
Definition genuine (c : Coordinator) (p : PoolInner) : Prop :=
  (forall q r, results p !! q = Some (Valid r) -> replay_one q r None)
  /\ (forall r is_final, phase c = Committing (Some r) is_final -> replay_one (frontier c) r None)
  /\ (forall q r is_final, In (q, Some r, is_final) (calls c) -> replay_one q r None).

Record pipeline_ok (s : State) : Prop := {
  ok_threads : 1 <= length (threads s);
  ok_shutdown : shutdown (pool s) = true <-> phase (coordinator s) = Finished;
  ok_exited : In Exited (threads s) -> shutdown (pool s) = true;
  ok_turn : in_turn (coordinator s);
  ok_committed : committed (coordinator s) = List.filter is_active (seq 0 (frontier (coordinator s)));
  ok_supplied : supplied (coordinator s) (pool s) (threads s);
  ok_genuine : genuine (coordinator s) (pool s)
}.

Lemma start_ok : pipeline_ok start.
Proof.
  unfold start. split; simpl.
  - rewrite length_replicate. lia.
  - destruct (0 <? n); split; done.
  - intros Hin. apply list_elem_of_In, elem_of_replicate in Hin as [Hx _]. done.
  - unfold in_turn. simpl. destruct (Nat.ltb_spec 0 n); simpl; lia.
  - done.
  - split; [set_solver|]. simpl. destruct (0 <? n); [set_solver|done].
  - split; [done|]. split; [|done]. intros r f. simpl. by destruct (0 <? n).
Qed.

Lemma has_work_mono p p' ts q :
  (results p !! q = results p' !! q) -> (forall x, In x (queue p) -> In x (queue p')) -> has_work p ts q -> has_work p' ts q.
Proof. unfold has_work. intros -> Hq [?|[?|?]]; auto. Qed.

Lemma submit_has_work q p ts : has_work (submit q p) ts q.
Proof. right. left. simpl. apply in_app_iff. right. by left. Qed.

Lemma submit_keeps x q p ts : has_work p ts q -> has_work (submit x p) ts q.
Proof. apply has_work_mono; [done|]. intros y Hy. simpl. apply in_app_iff. by left. Qed.

(** The next turn, for a state whose positions past the frontier are supplied. *)
Lemma next_frontier_ok c p ts :
  frontier c < n -> (forall q, q ∈ submitted c -> frontier c < q -> has_work p ts q) ->
  in_turn (next_frontier c) /\ supplied (next_frontier c) p ts.
Proof.
  intros Hf Hw. unfold in_turn, supplied. simpl. destruct (Nat.ltb_spec (S (frontier c)) n); simpl; (split; [lia|]).
  - split; [intros q Hq Hlt; apply Hw; [done|lia]|intros Hin; apply Hw; [done|lia]].
  - split; [intros q Hq Hlt; apply Hw; [done|lia]|done].
Qed.

Lemma route_same position publisher c p :
  let '(c', p') := route position publisher c p in
  frontier c' = frontier c /\ submitted c' = submitted c /\ calls c' = calls c /\ committed c' = committed c
  /\ results p' = results p /\ shutdown p' = shutdown p /\ forall x, In x (queue p) -> In x (queue p').
Proof.
  unfold route. repeat case_match; simpl in *; simplify_eq; repeat split; try done.
  intros x Hx. simpl. apply in_app_iff. by left.
Qed.

(** The invariant of a state from what a step changes. *)
Lemma pipeline_ok_next p ts c p' c' :
  pipeline_ok (mkState p ts c) -> phase c <> Finished ->
  shutdown p' = shutdown p -> phase c' <> Finished ->
  in_turn c' -> committed c' = List.filter is_active (seq 0 (frontier c')) -> supplied c' p' ts -> genuine c' p' ->
  pipeline_ok (mkState p' ts c').
Proof.
  intros [Hts Hsh Hex _ _ _ _] Hp Es Hp'. simpl in *. split; simpl; try done.
  - rewrite Es. split; intros Hx; [by apply Hsh in Hx|done].
  - intros Hin. rewrite Es. by apply Hex.
Qed.

(** The same, for a step within a turn that calls nothing. *)
Lemma pipeline_ok_within p ts c p' c' :
  pipeline_ok (mkState p ts c) ->
  frontier c' = frontier c -> committed c' = committed c -> calls c' = calls c ->
  shutdown p' = shutdown p -> phase c <> Finished -> phase c' <> Finished ->
  (forall q r, results p' !! q = Some (Valid r) -> results p !! q = Some (Valid r)) ->
  (forall r f, phase c' = Committing (Some r) f -> replay_one (frontier c') r None) ->
  in_turn c' -> supplied c' p' ts -> pipeline_ok (mkState p' ts c').
Proof.
  intros Hok Ef Ec Ecalls Es Hp Hp' Hres Hph Hturn Hsup. apply (pipeline_ok_next p ts c); try done.
  - rewrite Ec, Ef. apply Hok.
  - destruct (ok_genuine _ Hok) as (H1 & _ & H3). split; [|split; [done|]]; simpl in *.
    + intros q r Hq. by apply H1, Hres.
    + rewrite Ecalls. exact H3.
Qed.

(** The loop's next turn after [called], what is left of this one. *)
Lemma next_turn_ok p ts c c1 :
  pipeline_ok (mkState p ts c) -> phase c <> Finished -> frontier c < n ->
  frontier c1 = frontier c -> submitted c1 = submitted c ->
  committed c1 = committed c ++ (if is_active (frontier c) then [frontier c] else []) ->
  (forall q r f, In (q, Some r, f) (calls c1) -> replay_one q r None) ->
  pipeline_ok (mkState p ts (next_frontier c1)).
Proof.
  intros Hok Hp Hf Ef Es Ec Hcalls. pose proof (ok_supplied _ Hok) as [Hsup _]. simpl in Hsup.
  destruct (next_frontier_ok c1 p ts) as [Ht Hs]; [by rewrite Ef|by rewrite Ef, Es|].
  apply (pipeline_ok_next p ts c); try done.
  - simpl. by destruct (_ <? n).
  - pose proof (ok_committed _ Hok) as Hcom. cbn [coordinator] in Hcom. cbn [committed frontier next_frontier].
    rewrite Ec, Ef, Hcom, seq_S, List.filter_app. simpl. by destruct (is_active _).
  - destruct (ok_genuine _ Hok) as (H1 & _ & _). split; [done|]. split; [|done]. simpl. intros r f. by destruct (_ <? n).
Qed.

Lemma commit_step_ok p ts c r f o :
  pipeline_ok (mkState p ts c) -> phase c = Committing r f -> frontier c < n -> is_active (frontier c) = true ->
  pipeline_ok (mkState p ts (commit_call r f o c)).
Proof.
  intros Hok E Hf Hact. pose proof (ok_supplied _ Hok) as [Hsup _]. simpl in Hsup.
  destruct (ok_genuine _ Hok) as (H1 & H2 & H3). simpl in H1, H2, H3.
  assert (Hcalls : forall q r' f', In (q, Some r', f') (calls c ++ [(frontier c, r, f)]) -> replay_one q r' None).
  { intros q r' f' Hin. apply in_app_iff in Hin as [Hin|[[= <- -> <-]|[]]]; [by eapply H3|by eapply H2]. }
  assert (Hnext : forall c1, frontier c1 = frontier c -> submitted c1 = submitted c -> committed c1 = committed c ++ [frontier c] ->
    calls c1 = calls c ++ [(frontier c, r, f)] -> pipeline_ok (mkState p ts (next_frontier c1))).
  { intros c1 E1 E2 E3 E4. apply (next_turn_ok p ts c); try done; [by rewrite E|by rewrite Hact|by rewrite E4]. }
  unfold commit_call. destruct o, f; try by apply Hnext.
  apply (pipeline_ok_next p ts c); try done; [by rewrite E|apply Hok].
Qed.

Lemma at_frontier_ok p ts c :
  pipeline_ok (mkState p ts c) -> phase c = Routing [] -> pipeline_ok (mkState p ts (at_frontier c p)).
Proof.
  intros Hok E. pose proof (ok_turn _ Hok) as Hturn. pose proof (ok_supplied _ Hok) as [Hsup Hnow]. simpl in Hturn, Hsup, Hnow.
  unfold in_turn in Hturn. rewrite E in Hturn, Hnow. destruct (ok_genuine _ Hok) as (_ & _ & H3). simpl in H3.
  unfold at_frontier. simpl. destruct (is_active (frontier c)) eqn:Hact; simpl.
  - case_bool_decide; apply (pipeline_ok_within p ts c); rewrite ?E; try done. split; simpl; [done|by apply Hnow].
  - apply (next_turn_ok p ts c); try done; [by rewrite E|]. simpl. by rewrite Hact, app_nil_r.
Qed.

Lemma take_step_ok p ts c f d :
  pipeline_ok (mkState p ts c) -> phase c = Taking f -> results p !! frontier c = Some d ->
  pipeline_ok (mkState (mkPool (queue p) (delete (frontier c) (results p)) (newly_deferred p) (shutdown p)) ts
    (set_phase (Committing (valid_of d) f) c)).
Proof.
  intros Hok E Hd. pose proof (ok_turn _ Hok) as Hturn. pose proof (ok_supplied _ Hok) as [Hsup _]. simpl in Hturn, Hsup.
  unfold in_turn in Hturn. rewrite E in Hturn. destruct (ok_genuine _ Hok) as (H1 & _ & _). simpl in H1.
  apply (pipeline_ok_within p ts c); rewrite ?E; simpl; try done.
  - intros q r Hq. by apply lookup_delete_Some in Hq as [_ Hq].
  - intros r f' [= Hr _]. apply H1. destruct d as [r'|]; [|done]. injection Hr as ->. exact Hd.
  - split; simpl; [|done]. intros q Hq Hlt. destruct (Hsup q Hq Hlt) as [Hx|[Hx|Hx]]; [left|by right; left|by right; right].
    simpl. rewrite lookup_delete_ne by lia. exact Hx.
Qed.

(** A step of the coordinator keeps the invariant. *)
Lemma coordinator_step_ok p ts c c' p' :
  coordinator_step c p c' p' -> pipeline_ok (mkState p ts c) -> pipeline_ok (mkState p' ts c').
Proof.
  intros Hstep Hok. pose proof (ok_turn _ Hok) as Hturn. pose proof (ok_supplied _ Hok) as [Hsup Hnow]. simpl in *.
  destruct Hstep as [c p x l E Hx|c p x l E Hx|c p E|c p x l E|c p E|c p x y l E|c p E|c p f d E Hd|c p r f o E|c p E|c p E].
  all: unfold in_turn in Hturn; rewrite E in Hturn, Hnow.
  - apply (pipeline_ok_within p ts c); rewrite ?E; try done. split.
    + intros q Hq Hlt. simpl in Hq. destruct (decide (q = x)) as [->|]; [apply submit_has_work|].
      apply submit_keeps, Hsup; [set_solver|done].
    + simpl. intros Hq. destruct (decide (frontier c = x)) as [->|]; [apply submit_has_work|].
      apply submit_keeps, Hnow. set_solver.
  - by apply (pipeline_ok_within p ts c); rewrite ?E.
  - by destruct (0 <? frontier c); apply (pipeline_ok_within p ts c); rewrite ?E.
  - destruct (frontier c <? x); apply (pipeline_ok_within p ts c); rewrite ?E; try done.
    split; simpl; intros; apply submit_keeps; auto.
  - apply (pipeline_ok_within p ts c); rewrite ?E; try done.
  - pose proof (route_same x y c p) as Hr. destruct (route x y c p) as [c' p'].
    destruct Hr as (Ef & Es & Ecalls & Ec & Eres & Esh & Hq). simpl.
    apply (pipeline_ok_within p ts c); simpl; rewrite ?E, ?Ef, ?Eres; try done; [by unfold in_turn; simpl; rewrite Ef|].
    split; simpl; rewrite Es, Ef; intros; apply (has_work_mono p); try done; [by rewrite Eres|auto|by rewrite Eres|auto].
  - by apply at_frontier_ok.
  - by apply take_step_ok.
  - destruct Hturn. by apply commit_step_ok.
  - apply (pipeline_ok_within p ts c); rewrite ?E; try done.
    split; simpl; [intros; apply submit_keeps; auto|apply submit_has_work].
  - destruct Hok as [Hts Hsh Hex _ Hcom _ (H1 & H2 & H3)]. simpl in *. by split; simpl.
Qed.

Lemma thread_step_ok p ts c i t t' p' :
  ts !! i = Some t -> thread_step t p t' p' -> pipeline_ok (mkState p ts c) -> pipeline_ok (mkState p' (<[i := t']> ts) c).
Proof.
  intros Hi Hstep [Hts Hsh Hex Hturn Hcom [Hsup Hnow] (H1 & H2 & H3)]. simpl in *.
  assert (Hin : forall x, In x (<[i := t']> ts) -> x = t' \/ In x ts).
  { intros x. rewrite <- !list_elem_of_In. intros (j & Hj)%list_elem_of_lookup. apply list_lookup_insert_Some in Hj.
    destruct Hj as [(_ & -> & _)|(_ & Hj)]; [by left|right]. by eapply list_elem_of_lookup_2. }
  assert (Hwork : forall q, has_work p ts q -> has_work p' (<[i := t']> ts) q).
  { intros q. assert (Hkeep : In (Working q) ts -> t <> Working q -> In (Working q) (<[i := t']> ts)).
    { rewrite <- !list_elem_of_In. intros (j & Hj)%list_elem_of_lookup Hne. apply (list_elem_of_lookup_2 _ j).
      rewrite list_lookup_insert_ne; [done|]. intros ->. congruence. }
    assert (Hnew : t' = Working q -> In (Working q) (<[i := t']> ts)).
    { intros <-. apply list_elem_of_In, (list_elem_of_lookup_2 _ i), list_lookup_insert_eq. by eapply lookup_lt_Some. }
    unfold has_work. destruct Hstep as [p x rest Hq|p Hq Hs|p x r d Hr]; simpl.
    - rewrite Hq. intros [?|[[->|?]|?]]; [by left|by right; right; apply Hnew|by right; left|by right; right; apply Hkeep].
    - intros [?|[?|?]]; [by left|by right; left|by right; right; apply Hkeep].
    - destruct (decide (x = q)) as [->|Hne]; [left; by rewrite lookup_insert_eq|]. rewrite lookup_insert_ne by done.
      intros [?|[?|?]]; [by left|by right; left|right; right; apply Hkeep; [done|congruence]]. }
  assert (Esh : shutdown p' = shutdown p) by by destruct Hstep.
  split; simpl; rewrite ?Esh; try done.
  - by rewrite length_insert.
  - intros [E|Hx]%Hin; [|by apply Hex]. by destruct Hstep.
  - split; [intros; by apply Hwork, Hsup|]. destruct (phase c); try done; auto.
  - split; [|done]. intros q r. destruct Hstep as [| |p x r' d Hr]; simpl; try apply H1. intros Hq.
    apply lookup_insert_Some in Hq as [[<- Hq]|[_ Hq]]; [|by apply H1]. destruct d; [done|]. by injection Hq as ->.
Qed.

Lemma reachable_ok s : reachable s -> pipeline_ok s.
Proof.
  intros Hs. apply (rtc_ind_r (R := step) pipeline_ok start); [apply start_ok| |exact Hs]. clear. intros s s' _ Hstep IH.
  destruct Hstep as [p ts c c' p' Hc|p ts c i t t' p' Hi Ht]; [by eapply coordinator_step_ok|by eapply thread_step_ok].
Qed.

(** ** Progress *)

Lemma in_threads (t : Thread) ts : In t ts -> exists i, ts !! i = Some t.
Proof. rewrite <- list_elem_of_In. apply list_elem_of_lookup. Qed.

Context (Htotal : forall q, exists r deferred_until, replay_one q r deferred_until).

(** A thread that works delivers. *)
Lemma working_step p ts c q : In (Working q) ts -> exists s', step (mkState p ts c) s'.
Proof.
  intros (i & Hi)%in_threads. destruct (Htotal q) as (r & d & Hr). eexists. eapply s_thread; [exact Hi|by apply t_deliver].
Qed.

Lemma threads_step p ts c :
  1 <= length ts -> ~ In Exited ts -> queue p <> [] -> exists s', step (mkState p ts c) s'.
Proof.
  intros Hlen Hex Hq. destruct ts as [|t ts]; [simpl in Hlen; lia|]. destruct t as [|q|].
  - destruct (queue p) as [|x rest] eqn:E; [done|]. eexists. eapply (s_thread p _ c 0); [done|by eapply t_take].
  - apply (working_step _ _ _ q). by left.
  - exfalso. apply Hex. by left.
Qed.

(** Only a finished pipeline stops. *)
Lemma progress s :
  reachable s ->
  (exists s', step s s') \/ (phase (coordinator s) = Finished /\ forall t, In t (threads s) -> t = Exited).
Proof.
  intros Hs. pose proof (reachable_ok s Hs) as [Hts Hsh Hex _ _ [_ Hnow] _]. destruct s as [p ts c]. simpl in *.
  destruct (phase c) as [l|l|l|f|r f| | |] eqn:E.
  - left. destruct l as [|x l]; [eexists; apply s_coordinator; by apply c_unpark|].
    destruct (decide (x ∈ submitted c)); eexists; apply s_coordinator; [by eapply c_submitted|by eapply c_submit].
  - left. destruct l as [|x l]; eexists; apply s_coordinator; [by apply c_drain|by eapply c_wake].
  - left. destruct l as [|[x y] l]; eexists; apply s_coordinator; [by apply c_frontier|by eapply c_route].
  - left. assert (Hrun : ~ In Exited ts) by (intros Hx; apply Hex in Hx; apply Hsh in Hx; done).
    destruct Hnow as [[d Hd]|[Hq|Hw]].
    + eexists. apply s_coordinator. by eapply c_take.
    + apply threads_step; [done..|]. by destruct (queue p).
    + by eapply working_step.
  - left. eexists. apply s_coordinator. by apply (c_commit c p r f Committed).
  - left. eexists. apply s_coordinator. by apply c_resubmit.
  - left. eexists. apply s_coordinator. by apply c_shutdown.
  - destruct (existsb (fun t => match t with Exited => false | _ => true end) ts) eqn:Et.
    + left. apply existsb_exists in Et as (t & Hin & Ht). destruct t as [|q|]; [|by eapply working_step|done].
      apply in_threads in Hin as [i Hi]. destruct (queue p) as [|x rest] eqn:Eq; eexists.
      * eapply s_thread; [exact Hi|]. apply t_exit; [done|by apply Hsh].
      * eapply s_thread; [exact Hi|by eapply t_take].
    + right. split; [done|]. intros t Hin. destruct t as [| |]; [exfalso|exfalso|done].
      all: assert (Hx : existsb (fun t => match t with Exited => false | _ => true end) ts = true);
        [apply existsb_exists; by eexists|congruence].
Qed.

(** C30 The pipeline finishes: from a reachable state no run goes on for ever, and
    one that can make no step has committed every active position, in serial
    order, and its threads have exited. In particular no wait of the coordinator
    for a replay is for ever. *)
Theorem pipeline_completes s :
  reachable s ->
  Acc (flip step) s
  /\ ((forall s', ~ step s s') ->
      phase (coordinator s) = Finished /\ (forall t, In t (threads s) -> t = Exited)
      /\ committed (coordinator s) = List.filter is_active (seq 0 n)).
Proof.
  intros Hs. split; [apply steps_end|]. intros Hstuck. destruct (progress s Hs) as [[s' Hs']|[E Hex]]; [by destruct (Hstuck s')|].
  split; [done|]. split; [done|]. destruct (reachable_ok s Hs) as [_ _ _ Hturn -> _ _].
  unfold in_turn in Hturn. rewrite E in Hturn. by rewrite Hturn.
Qed.

(** C31 What is committed at any moment is the active positions before the
    frontier in serial order, and every replay [commit_position] is given is one
    of that position that ran to its end without deferring. *)
Theorem pipeline_in_order s :
  reachable s ->
  committed (coordinator s) = List.filter is_active (seq 0 (frontier (coordinator s)))
  /\ forall q r is_final, In (q, Some r, is_final) (calls (coordinator s)) -> replay_one q r None.
Proof. intros Hs. destruct (reachable_ok s Hs) as [_ _ _ _ Hc _ (_ & _ & Hcalls)]. by split. Qed.
End pipeline.

(** ** Examples

    One position, replayed from the start; a replay answers its position. *)
Definition echo (q r : nat) (deferred_until : option nat) : Prop := r = q /\ deferred_until = None.
Abbreviation echo_step := (step echo 1 [Some 0] (fun _ => true)).
Abbreviation echo_start := (start 1 1 [Some 0]).

Lemma pipeline_completes_witness :
  reachable echo 1 1 [Some 0] (fun _ => true) echo_start /\ Acc (flip echo_step) echo_start.
Proof.
  assert (Hs : reachable echo 1 1 [Some 0] (fun _ => true) echo_start) by apply rtc_refl.
  split; [exact Hs|]. apply (pipeline_completes echo 1 1 [Some 0] (fun _ => true)); [|exact Hs].
  intros q. by exists q, None.
Defined.

Lemma pipeline_in_order_witness :
  exists s, reachable echo 1 1 [Some 0] (fun _ => true) s
  /\ committed (coordinator s) = [0] /\ calls (coordinator s) = [(0, Some 0, false)] /\ echo 0 0 None.
Proof.
  assert (Hs : exists s, reachable echo 1 1 [Some 0] (fun _ => true) s /\ frontier (coordinator s) = 1
    /\ calls (coordinator s) = [(0, Some 0, false)]).
  { eexists. split.
    - unfold reachable. eapply rtc_l; [apply s_coordinator; by eapply c_submit with (position := 0) (positions := [])|].
      eapply rtc_l; [apply s_coordinator; by eapply c_unpark|].
      eapply rtc_l; [apply s_coordinator; by eapply c_drain|].
      eapply rtc_l; [apply s_coordinator; by eapply c_frontier|].
      eapply rtc_l; [eapply s_thread with (i := 0) (t := Idle); [done|by eapply t_take with (position := 0) (rest := [])]|].
      eapply rtc_l; [eapply s_thread with (i := 0) (t := Working 0); [done|by eapply t_deliver with (r := 0) (deferred_until := None)]|].
      eapply rtc_l; [apply s_coordinator; by eapply c_take with (is_final := false) (d := Valid 0)|].
      eapply rtc_l; [apply s_coordinator; by eapply c_commit with (replay := Some 0) (is_final := false) (outcome := Committed)|].
      apply rtc_refl.
    - done. }
  destruct Hs as (s & Hs & Hf & Hc). exists s. split; [exact Hs|].
  destruct (pipeline_in_order echo 1 1 [Some 0] (fun _ => true) s Hs) as [Hcom Hcalls].
  split; [by rewrite Hcom, Hf|]. split; [exact Hc|]. apply (Hcalls 0 0 false). rewrite Hc. by left.
Defined.
